(* ===== verification/_CoqProject ===== *)
-Q . S2P
Prelude.v
Types.v
Std.v
Conv.v
FileLocks.v
NodeTable.v
NodeTableInv.v
HandleRec.v
NodeFs.v
Runtime.v
RuntimeInv.v
RuntimeSpec.v
Requests.v
Threads.v
ThreadLogic.v
ArcInv.v
Concurrent.v
ConcurrentSteps.v
ConcurrentSpec.v
Pool.v
PoolInv.v
PoolSpec.v
Testing.v
PoolSample.v
Alone.v
Namespace.v
PathFs.v
FsInv.v
PathLocks.v
PathRules.v
PathPool.v
PathPoolSpec.v
PathTests.v
RuntimeTests.v
Ffi.v
Session.v
SessionSpec.v
SessionRefs.v
SessionLife.v
Passthrough.v
Reference.v
RefMono.v
RefLogic.v
Refinement.v
MemoryFs.v
MemoryInv.v
MemoryTree.v
MemoryOps.v
MemoryData.v
MemoryList.v
MemorySpec.v
MemorySample.v
PoolState.v
HelloFs.v
HelloSpec.v
HelloRaw.v
Mains.v
UnitTests.v
MemoryTests.v
Build.v
