(* ===== verification/Prelude.v ===== *)
(** * The typed FUSE core and its libfuse bridge: a verification development

    The repository is a Rust workspace around libfuse 3.  [typed_fuse_core]
    holds a filesystem interface ([NodeFs]), the [Runtime] that keeps the
    kernel's view of a filesystem (inodes with their reference counts, open
    handles) and serves one kernel request per method, and an adapter that
    makes a [NodeFs] of a path-based filesystem.  [fuse3] bridges it to C: a
    callback table for libfuse ([session.rs], [ffi.rs], [conv.rs]), the life of
    a mounted session, POSIX record locks and helpers for passthrough
    filesystems.  A request travels: libfuse calls a trampoline of
    [session.rs], which decodes C arguments and calls a [Runtime] handler under
    [catch_unwind]; the handler leases nodes and handles, calls the filesystem,
    which may reach the node table through [Cx]; the outcome goes back as one
    libfuse reply.

    ** The files

    - [Prelude]: results, the state monad with panics and blocking, machine
      integers, counting in maps, tactics.
    - [Types]: [errno.rs], [attr.rs], the value types of [node_fs.rs]
      ([ConnInfo::set_enabled], [Opened], [FileLock], ...).
    - [Std]: what the examples use of Rust's standard library: [BTreeMap]'s
      order, [Vec], slices, strict and lossy UTF-8 decoding.
    - [Conv]: [fuse3/src/conv.rs].  [FileLocks]: [fuse3/src/file_lock.rs].
    - [NodeTable], [NodeTableInv]: the first part of [runtime.rs]
      ([NodeTable], [NodeRef], [Cx] and the critical sections of [Runtime] on
      the table).  One definition is one critical section of the table's mutex;
      [table_op] lists them, and the theorems hold for every sequence of them,
      so for every interleaving of the threads that make them.
    - [HandleRec]: [HandleRecord], [HandleLease] and [close_and_take], as
      critical sections and as a concurrent program ([hstep]) with the condition
      variable and the payload cell of the [unsafe] blocks.
    - [NodeFs]: the trait as a record of callbacks.  A callback is a program
      ([prog]) over the filesystem's own state that reaches the runtime only
      through [Cx], its leases and its sink; it may panic or hang.
    - [Runtime]: the handle table and every handler of [Runtime], from start to
      end, with its leases as scopes that are left by returning or by unwinding.
    - [RuntimeInv], [RuntimeSpec]: a logic of triples for handlers, and the
      contract of each handler for every filesystem.
    - [Requests]: kernel requests as data, sequences of them, and the kernel's
      ledger: the lookups of every entry it was sent ([learn_reply]; for a
      listing, the entries that it finds in the buffer), with their generations,
      less those it gave back.
    - [Threads]: the handlers of [Runtime] again, as programs whose steps are
      the critical sections ([thr]), with the [Arc]s of handle records shared
      between threads.  [Alone]: a thread that nobody interrupts is the handler
      of [Runtime].  [Pool]: any number of request threads over one runtime, in
      any order, with the kernel's account of lookups.  [ArcInv], [Concurrent],
      [ConcurrentSteps], [ConcurrentSpec]: what each thread holds at a moment,
      the invariant that ties the shared state to all of it, and that each
      critical section and each handler keeps it in any company.  [PoolInv],
      [PoolSpec]: what holds of every pool; [PoolSample]: pools that run.
    - [ThreadLogic]: a logic for such programs, whatever a thread is said to
      hold, and the handlers taken apart once for all ([thread_closed]).
    - [Namespace], [PathFs], [FsInv]: [path_fs.rs]: the name maps of the path
      adapter, the adapter as a [NodeFs] with its two locks, and invariants of a
      filesystem's state.  [PathLocks], [PathRules], [PathPool]: what a thread in
      a callback of the adapter holds of the locks and of the links, the rules of
      each of its critical sections, and its threads in any company;
      [PathPoolSpec]: what holds of the adapter on every schedule.
    - [Testing]: assertions and threads, for the repository's own tests, which
      are modelled as programs that must not panic: [PathTests],
      [RuntimeTests], [MemoryTests] and [UnitTests].  Each of them passes.
    - [Ffi]: [fuse3/src/ffi.rs].  [Session]: the trampolines and the operation
      table of [session.rs].  [SessionSpec], [SessionRefs]: what they promise.
      [SessionLife]: mount options, configuration, [Session] from [new] to drop.
    - [Passthrough]: [fuse3/src/passthrough.rs].
    - [Reference], [RefMono], [RefLogic], [Refinement]: the reference runtime, a
      map of nodes and a map of open handles without leases, free list or
      pointers, written as predicate transformers over the filesystem's own
      callbacks; a logic for proving things about it; and the refinement.
    - [MemoryFs]: [fuse3/examples/memory_fs.rs] as a [NodeFs] over a heap of
      locked nodes.  [MemoryInv], [MemoryTree]: its well-formedness and its
      reading as a tree; [MemoryOps], [MemoryData], [MemoryList], [MemorySpec]:
      what each callback does to the tree; [MemorySample]: runs.
    - [PoolState]: invariants of a filesystem's own state on every schedule.
    - [HelloFs], [HelloSpec]: [fuse3/examples/hello_ll.rs] and what it answers.
      [HelloRaw]: [examples/hello_ll_raw.rs], on the bare bindings.
      [Mains]: the [main] functions of [hello_ll.rs] and [memory_fs.rs].
    - [Build]: [build.rs] and [fuse3/build.rs], over the processes, files and
      libraries that surround a build.

    ** What the theorems show

    - End to end: [session_references_stay_valid] follows the kernel's ledger
      from the replies that libfuse delivered, the bytes of a [readdirplus]
      listing read back entry by entry ([PlusReader]), down to the node table.
      [callbacks_implement_requests] and [exactly_one_reply] are the contract of
      the trampolines; the former is a refinement of [exec_request].
    - Node table: [table_invariant] under every interleaving,
      [identity_never_reused], [lease_pins_node], [exec_op_spec] (the table as a
      reference-counted map), [no_inode_lost] (the numbers of live and of free
      inodes partition those allocated).
    - Interleaved handlers, for every filesystem and every schedule:
      [kernel_lookups_survive_interleaving], [handles_survive_interleaving] (no
      use after free, no double take), [open_handles_survive_interleaving],
      [idle_pool_keeps_nothing], [every_schedule_answers] (no deadlock and no
      infinite schedule, when callbacks return); [alone_is_sequential] checks that
      the two models of the handlers agree.  What the critical sections do not cover together is
      shown by [listing_can_lose_a_lookup] and
      [lookup_can_find_another_file].
    - Handles: [lease_payload_present] and [payload_consumed_once] justify the
      [unsafe] blocks; [no_lost_wakeup] (the last lease to go wakes the closing
      thread), [close_can_finish] and
      [closing_leases_decrease] are the liveness of close.
    - Runtime, for every filesystem: [kernel_references_stay_valid],
      [open_handles_pin_nodes], [requests_return_leases], [requests_complete],
      [release_reaches_filesystem], [wrong_handle_rejected];
      [runtime_refines_reference]: whatever the filesystem does, the runtime
      answers as the reference runtime.
    - The in-memory example on the runtime, for runs of [proper] requests:
      [memory_refines_tree] (every request does to the tree what POSIX names it
      for), [memory_tree_consistent],
      [memory_well_typed_on_every_schedule], [memory_readdir_lists].  The hello examples:
      [hello_serves_one_file]; [raw_listing_resumes], [raw_run_releases].
      [example_programs_end]: the programs themselves, from their arguments to
      their exit code, a panic on an argument that is not Unicode, or a loop that
      never returns.
    - Builds: [build_returns], what a build that succeeds has generated;
      [builtin_header_has_stdarg].
    - Path adapter: on every schedule [names_lead_to_nodes] (names and links
      agree) and [path_requests_answered] (the locks do not deadlock);
      [path_namespace_consistent], [rename_entries_spec], [path_for_spec], [path_for_fuel], [insert_key_fresh],
      [link_over_known_name].
    - Session: [session_releases_everything] (a protocol automaton accepts every
      log of libfuse calls and nothing stays held once the session is over; a loop
      of libfuse that never returns holds on to all of it),
      [init_requests_parallel_dirops].
    - Conversions: [listing_fills_buffer], [attr_stat_setattr_roundtrip],
      [system_time_roundtrip], [to_flock_spec], [flock_roundtrip],
      [set_enabled_spec]; for passthrough filesystems
      [backing_attributes_survive], [backing_times_survive],
      [to_timespec_spec], [utimens_permission_spec], [listxattr_names_exact].

    ** Bounds and fuel

    Machine integers are [Z] with their wrap-around, checked and saturating
    operations written out; the widths are those of x86-64 Linux and of a
    release build (unchecked arithmetic wraps).  Theorems about reachable states
    assume fewer than 2^64 - 2 table steps ([few_steps], on a counter that the
    runtime's record carries for the proofs only), below which the [u64]
    counters that the code does not check cannot wrap.  The theorems about the
    examples assume fewer than 10^9 requests, far below the limits at which the
    runtime starts to answer [EIO].  A run of a pool is cut at the same bound
    ([pooled]).  Functions with fuel
    are [path_for], where [path_for_fuel] shows that [path_fuel], one more than
    the number of named nodes, is enough whenever the recursion ends, and
    [valid_utf8], which takes a byte or more per step off a string of as many
    bytes as it has fuel.

    ** What is a parameter

    The [libc] constants ([Libc]), the constants of the generated bindings
    ([FuseSys]), libfuse's entry encoders ([Direntries]) with the kernel's way to
    read a listing back ([PlusReader]), its reply functions (a log and an
    arbitrary return code), libfuse's session functions ([Libfuse] of
    [SessionLife], whose loops may never return) and the system calls ([Syscalls], [fcntl]).  Laws they must
    satisfy are classes or hypotheses with documented content, and instances
    witness that they can hold.

    ** What is not modelled

    - The theorems on the hello examples and on [Session], and those on the
      tree of [MemoryFs], run one request at a time.  Interleaved, these are
      covered by what holds of every filesystem and, for [MemoryFs], by
      [memory_well_typed_on_every_schedule].
    - [link] of the path adapter is left out of its theorems on schedules: the
      name is recorded before its link, and over a known name the maps diverge
      ([link_over_known_name]).
    - The queues of [RwLock]: a lock that is free can be taken by any thread that
      waits for it.
    - Threads meet only at mutexes: a critical section is one atomic step, those
      of a filesystem on its own state included.  The wait of a condition
      variable is a step that is enabled once its condition holds; its spurious
      and lost wake-ups are the subject of [HandleRec].
    - Formatting ([Display]), the macOS blocks, [darwin.rs], the generated
      bindings, the benchmarks, messages on standard error and the memory limits
      of the examples.
    - [Vec::with_capacity] beyond [isize::MAX], which panics: the buffers of
      [DirBuffer::new] have the size that libfuse asks for, far below it.
    - [f64] timeouts are kept as durations; [fuse_req_t] is the caller's
      credentials and the return codes of its replies. *)

From Stdlib Require Export Lia.
From stdpp Require Export base tactics gmap strings option numbers.
From stdpp Require Export list.

Open Scope Z_scope.

(** ** Fallible code

    [Result<T, E>] of the standard library.  The core's error type is [Errno]
    throughout; the session layer has its own error enumeration, so the error
    is a parameter. *)
Inductive Result (E A : Type) : Type :=
| Ok (a : A)
| Err (e : E).
Arguments Ok {E A} a.
Arguments Err {E A} e.

#[export] Instance Result_eq_dec {E A} `{EqDecision E} `{EqDecision A} : EqDecision (Result E A).
Proof. solve_decision. Defined.

Definition is_ok {E A} (r : Result E A) : bool :=
  match r with Ok _ => true | Err _ => false end.

(** [Option::ok_or]. *)
Definition ok_or {E A} (o : option A) (e : E) : Result E A :=
  match o with Some a => Ok a | None => Err e end.

Definition Result_bind {E A B} (r : Result E A) (k : A → Result E B) : Result E B :=
  match r with Ok a => k a | Err e => Err e end.

Definition Result_map {E A B} (f : A → B) (r : Result E A) : Result E B :=
  match r with Ok a => Ok (f a) | Err e => Err e end.

(** ** Effects

    A piece of stateful code either returns a value, panics (and unwinds), or
    blocks for ever on a condition variable.  In all three cases it may have
    changed the state: the mutexes of the program are entered through helpers
    that recover a poisoned lock, so the state survives a panic. *)
Inductive outcome (A : Type) : Type :=
| Returned (a : A)
| Panicked
| Blocked.
Arguments Returned {A} a.
Arguments Panicked {A}.
Arguments Blocked {A}.

Definition M (W A : Type) : Type := W → outcome A * W.

#[export] Instance M_ret {W} : MRet (M W) := λ A a w, (Returned a, w).
#[export] Instance M_bind {W} : MBind (M W) := λ A B k m w,
  match m w with
  | (Returned a, w') => k a w'
  | (Panicked, w') => (Panicked, w')
  | (Blocked, w') => (Blocked, w')
  end.

Definition panic {W A} : M W A := λ w, (Panicked, w).
Definition block {W A} : M W A := λ w, (Blocked, w).
Definition gets {W A} (f : W → A) : M W A := λ w, (Returned (f w), w).
Definition modify {W} (f : W → W) : M W unit := λ w, (Returned tt, f w).

(** A step that may panic, in code that has something to undo then. *)
Definition attempt {W A B} (m : M W A) (k : A → M W B) (u : M W B) : M W B := λ w,
  match m w with
  | (Returned a, w') => k a w'
  | (Panicked, w') => u w'
  | (Blocked, w') => (Blocked, w')
  end.

(** RAII: [finally m fin] runs the destructor [fin] when the scope of [m] is
    left, by returning or by unwinding. A blocked thread never gets there. *)
Definition finally {W A} (m : M W A) (fin : M W unit) : M W A := λ w,
  match m w with
  | (Returned a, w') =>
      match fin w' with
      | (Returned _, w'') => (Returned a, w'')
      | (Panicked, w'') => (Panicked, w'')
      | (Blocked, w'') => (Blocked, w'')
      end
  | (Panicked, w') =>
      match fin w' with
      | (Blocked, w'') => (Blocked, w'')
      | (_, w'') => (Panicked, w'')
      end
  | (Blocked, w') => (Blocked, w')
  end.

(** The [?] operator on a computation that returns a [Result]. *)
Definition try_bind {W E A B} (m : M W (Result E A)) (k : A → M W (Result E B)) :
    M W (Result E B) :=
  r ← m;
  match r with Ok a => k a | Err e => mret (Err e) end.

Declare Scope fuse_scope.
Delimit Scope fuse_scope with fuse.
Notation "x ←? m ; k" := (try_bind m (λ x, k))
  (at level 20, m at level 100, k at level 200, right associativity,
   format "x  ←?  m ;  '//' k") : fuse_scope.
Notation "' x ←? m ; k" := (try_bind m (λ x, k))
  (at level 20, x pattern, m at level 100, k at level 200, right associativity,
   format "' x  ←?  m ;  '//' k") : fuse_scope.
Open Scope fuse_scope.

(** Running a computation on a component of a larger state. *)
Definition zoom {W V A} (get : W → V) (set : V → W → W) (m : M V A) : M W A := λ w,
  match m (get w) with (o, v) => (o, set v w) end.

(** ** Machine integers *)
Definition u8_max : Z := 255.
Definition u16_max : Z := 65535.
Definition u32_max : Z := 4294967295.
Definition u64_max : Z := 18446744073709551615.
Definition i32_max : Z := 2147483647.
Definition i64_max : Z := 9223372036854775807.
Definition i64_min : Z := -9223372036854775808.

Definition is_u16 (x : Z) : Prop := 0 ≤ x ≤ u16_max.
Definition is_u32 (x : Z) : Prop := 0 ≤ x ≤ u32_max.
Definition is_u64 (x : Z) : Prop := 0 ≤ x ≤ u64_max.
Definition is_i32 (x : Z) : Prop := -2147483648 ≤ x ≤ i32_max.
Definition is_i64 (x : Z) : Prop := i64_min ≤ x ≤ i64_max.

(** Rust's [as] casts between integer types: truncation to the low bits, with
    the two's complement reading at a signed type. *)
Definition as_unsigned (w : Z) (x : Z) : Z := x `mod` 2 ^ w.
Definition as_signed (w : Z) (x : Z) : Z := (x + 2 ^ (w - 1)) `mod` 2 ^ w - 2 ^ (w - 1).
Definition as_u16 : Z → Z := as_unsigned 16.
Definition as_u32 : Z → Z := as_unsigned 32.
Definition as_u64 : Z → Z := as_unsigned 64.
Definition as_i32 : Z → Z := as_signed 32.
Definition as_i64 : Z → Z := as_signed 64.

(** [checked_add] and [saturating_sub] on unsigned integers with a given
    maximum; [wrapping_add] at 64 bits. *)
Definition checked_add (max x y : Z) : option Z :=
  if decide (x + y ≤ max) then Some (x + y) else None.
Definition checked_sub (x y : Z) : option Z :=
  if decide (y ≤ x) then Some (x - y) else None.
Definition saturating_sub (x y : Z) : Z := Z.max 0 (x - y).
Definition wrapping_add64 (x y : Z) : Z := as_u64 (x + y).

(** ** Automation *)
Ltac int_unfold :=
  unfold wrapping_add64, as_u64, as_u32, as_u16, as_i64, as_i32, as_signed, as_unsigned,
    saturating_sub, is_u16, is_u32, is_u64, is_i32, is_i64, u8_max, u16_max, u32_max,
    u64_max, i32_max, i64_max, i64_min in *.

(** [int_lia]: linear arithmetic over the machine integer vocabulary, powers
    of two and constant moduli included. *)
Ltac int_lia :=
  int_unfold;
  repeat match goal with
  | H : context [2 ^ ?n] |- _ => let v := eval vm_compute in (2 ^ n) in change (2 ^ n) with v in H
  | |- context [2 ^ ?n] => let v := eval vm_compute in (2 ^ n) in change (2 ^ n) with v
  end;
  try Z.to_euclidean_division_equations; lia.

Lemma as_u64_small x : is_u64 x → as_u64 x = x.
Proof. intros. unfold as_u64, as_unsigned. apply Z.mod_small. int_lia. Qed.

Lemma as_u32_small x : is_u32 x → as_u32 x = x.
Proof. intros. unfold as_u32, as_unsigned. apply Z.mod_small. int_lia. Qed.

Lemma as_i64_small x : is_i64 x → as_i64 x = x.
Proof.
  intros. unfold as_i64, as_signed.
  rewrite Z.mod_small; int_lia.
Qed.

Lemma as_u64_bound x : is_u64 (as_u64 x).
Proof. unfold as_u64, as_unsigned, is_u64. pose proof (Z.mod_pos_bound x (2 ^ 64)). int_lia. Qed.

Lemma wrapping_add64_small x y : is_u64 (x + y) → wrapping_add64 x y = x + y.
Proof. apply as_u64_small. Qed.

Lemma checked_add_Some max x y z : checked_add max x y = Some z ↔ z = x + y ∧ x + y ≤ max.
Proof. unfold checked_add. case_decide; naive_solver. Qed.

Lemma checked_add_None max x y : checked_add max x y = None ↔ max < x + y.
Proof. unfold checked_add. case_decide; naive_solver lia. Qed.

Create HintDb fuse discriminated.
#[export] Hint Resolve as_u64_small as_u32_small as_i64_small as_u64_bound : fuse.

(** [monad_inv H] takes apart a run of the state monad recorded in [H]. *)
Ltac monad_inv H :=
  repeat (progress (unfold mbind, M_bind, mret, M_ret, gets, modify in H; simpl in H)).

Lemma filter_absent (key : nat) (l : list nat) : key ∉ l → filter (λ k, k ≠ key) l = l.
Proof.
  induction l as [|k l IH]; [done|]. intros [Hk Hl]%not_elem_of_cons.
  rewrite filter_cons_True by done. by rewrite IH.
Qed.

(** ** Counting in finite maps

    [count_map P m] is the number of bindings of [m] whose value satisfies
    [P]: the program's reference counts are stated with it. *)
Section count_map.
Context {K V : Type} `{Countable K} (P : V → Prop) `{∀ x, Decision (P x)}.

Definition count_map (m : gmap K V) : Z := Z.of_nat (size (filter (λ kv, P kv.2) m)).

Lemma count_map_nonneg m : 0 ≤ count_map m.
Proof. unfold count_map. lia. Qed.

Lemma count_map_empty : count_map ∅ = 0.
Proof. unfold count_map. by rewrite map_filter_empty. Qed.

Lemma count_map_insert_yes m k v : m !! k = None → P v → count_map (<[k:=v]> m) = count_map m + 1.
Proof.
  intros Hk Hv. unfold count_map.
  rewrite map_filter_insert_True by done.
  rewrite map_size_insert_None; [lia|]. apply map_lookup_filter_None. by left.
Qed.

Lemma count_map_insert_no m k v : m !! k = None → ¬ P v → count_map (<[k:=v]> m) = count_map m.
Proof.
  intros Hk Hv. unfold count_map. f_equal. f_equal.
  rewrite map_filter_insert_False by done.
  by rewrite delete_id.
Qed.

Lemma count_map_delete_yes m k v : m !! k = Some v → P v → count_map (delete k m) = count_map m - 1.
Proof.
  intros Hk Hv.
  rewrite <- (insert_delete_id m k v Hk) at 2.
  rewrite count_map_insert_yes; [lia | apply lookup_delete_eq | done].
Qed.

Lemma count_map_delete_no m k v : m !! k = Some v → ¬ P v → count_map (delete k m) = count_map m.
Proof.
  intros Hk Hv.
  rewrite <- (insert_delete_id m k v Hk) at 2.
  rewrite count_map_insert_no; [lia | apply lookup_delete_eq | done].
Qed.

(** Replacing a binding. *)
Lemma count_map_update m k v v' :
  m !! k = Some v →
  count_map (<[k:=v']> m) =
    count_map m - (if decide (P v) then 1 else 0) + (if decide (P v') then 1 else 0).
Proof.
  intros Hk. rewrite <- insert_delete_eq.
  pose proof (lookup_delete_eq m k) as Hd.
  assert (count_map (delete k m) = count_map m - (if decide (P v) then 1 else 0)) as <-.
  { case_decide; [by apply count_map_delete_yes with v|].
    rewrite count_map_delete_no with (v := v) by done. lia. }
  case_decide; [by rewrite count_map_insert_yes|].
  rewrite count_map_insert_no by done. lia.
Qed.

Lemma count_map_fmap (f : V → V) m : (∀ v, P (f v) ↔ P v) → count_map (f <$> m) = count_map m.
Proof.
  intros Hf. induction m as [|k v m Hk IH] using map_ind.
  - by rewrite fmap_empty.
  - rewrite fmap_insert. assert ((f <$> m) !! k = None) by (by rewrite lookup_fmap, Hk).
    destruct (decide (P v)).
    + rewrite !count_map_insert_yes by naive_solver. lia.
    + rewrite !count_map_insert_no by naive_solver. lia.
Qed.

Lemma count_map_pos m k v : m !! k = Some v → P v → 0 < count_map m.
Proof.
  intros Hk Hv. pose proof (count_map_delete_yes m k v Hk Hv).
  pose proof (count_map_nonneg (delete k m)). lia.
Qed.

Lemma count_map_witness m : count_map m ≠ 0 → ∃ k v, m !! k = Some v ∧ P v.
Proof.
  unfold count_map. intros Hne.
  destruct (map_choose (filter (λ kv, P kv.2) m)) as (k & v & Hk).
  { intros He. rewrite He, map_size_empty in Hne. lia. }
  apply map_lookup_filter_Some in Hk as [??]. by exists k, v.
Qed.

Lemma count_map_zero m : (∀ k v, m !! k = Some v → ¬ P v) → count_map m = 0.
Proof.
  intros Hall. unfold count_map.
  replace (filter (λ kv, P kv.2) m) with (∅ : gmap K V); [by rewrite map_size_empty|].
  symmetry. apply map_empty. intros k. apply map_lookup_filter_None. right. naive_solver.
Qed.
Lemma count_map_le_size m : count_map m ≤ Z.of_nat (size m).
Proof.
  induction m as [|k v m Hk IH] using map_ind; [by rewrite count_map_empty|].
  rewrite map_size_insert_None by done. destruct (decide (P v)).
  - rewrite count_map_insert_yes by done. lia.
  - rewrite count_map_insert_no by done. lia.
Qed.
End count_map.

(** ** Sums over finite maps *)
Section sum_map.
Context {K V : Type} `{Countable K} (f : V → Z).

Definition sum_map (m : gmap K V) : Z := map_fold (λ _ v acc, f v + acc) 0 m.

Lemma sum_map_empty : sum_map ∅ = 0.
Proof. apply map_fold_empty. Qed.

Lemma sum_map_insert m k v : m !! k = None → sum_map (<[k:=v]> m) = f v + sum_map m.
Proof. intros Hk. unfold sum_map. rewrite map_fold_insert_L; [done|intros; lia|done]. Qed.

Lemma sum_map_delete m k v : m !! k = Some v → sum_map (delete k m) = sum_map m - f v.
Proof.
  intros Hk. rewrite <- (insert_delete_id m k v Hk) at 2.
  rewrite sum_map_insert by apply lookup_delete_eq. lia.
Qed.

Lemma sum_map_update m k v v' : m !! k = Some v → sum_map (<[k:=v']> m) = sum_map m - f v + f v'.
Proof.
  intros Hk. rewrite <- insert_delete_eq, sum_map_insert by apply lookup_delete_eq.
  rewrite (sum_map_delete m k v) by done. lia.
Qed.

Lemma sum_map_nonneg m : (∀ v, 0 ≤ f v) → 0 ≤ sum_map m.
Proof.
  intros Hf. induction m as [|k v m Hk IH] using map_ind; [by rewrite sum_map_empty|].
  rewrite sum_map_insert by done. specialize (Hf v). lia.
Qed.

Lemma sum_map_ge m k v : (∀ v, 0 ≤ f v) → m !! k = Some v → f v ≤ sum_map m.
Proof.
  intros Hf Hk. pose proof (sum_map_nonneg (delete k m) Hf). rewrite (sum_map_delete m k v) in * by done. lia.
Qed.

Lemma sum_map_witness m : sum_map m ≠ 0 → ∃ k v, m !! k = Some v ∧ f v ≠ 0.
Proof.
  induction m as [|k v m Hk IH] using map_ind; [by rewrite sum_map_empty|]. rewrite sum_map_insert by done. intros Hne.
  destruct (decide (f v = 0)) as [Hv|Hv]; [|exists k, v; by rewrite lookup_insert_eq].
  destruct IH as (k' & v' & Hk' & Hv'); [lia|]. exists k', v'. rewrite lookup_insert_ne by congruence. done.
Qed.
End sum_map.

Lemma sum_map_le {K V} `{Countable K} (f g : V → Z) (m : gmap K V) : (∀ v, f v ≤ g v) → sum_map f m ≤ sum_map g m.
Proof.
  intros Hfg. induction m as [|k v m Hk IH] using map_ind; [by rewrite !sum_map_empty|].
  rewrite !sum_map_insert by done. specialize (Hfg v). lia.
Qed.
