(* ===== verification/Types.v ===== *)
(** * Value types of the core

    The plain data that crosses the [NodeFs] interface: [errno.rs], [attr.rs]
    and the value types at the top of [node_fs.rs], with the constants of the
    [libc] crate as a class. *)

From S2P Require Import Prelude.

(** ** Constants of the [libc] crate

    The crate is not part of the repository, so its constants are a
    parameter.  The facts about them that the code relies on are stated where
    they are used ([LibcModeOk], [LibcLockOk]).  [linux_libc] instantiates the
    class with the Linux ABI. *)
Class Libc := {
  libc_EPERM : Z; libc_ENOENT : Z; libc_EIO : Z; libc_EACCES : Z;
  libc_EEXIST : Z; libc_ENOTDIR : Z; libc_EISDIR : Z; libc_EINVAL : Z;
  libc_ENOSYS : Z; libc_ENOTEMPTY : Z; libc_ERANGE : Z; libc_ENODATA : Z;
  libc_EILSEQ : Z; libc_ENOSPC : Z; libc_EROFS : Z; libc_EBADF : Z;
  libc_ENAMETOOLONG : Z; libc_ENXIO : Z; libc_EOPNOTSUPP : Z; libc_EOVERFLOW : Z;
  libc_S_IFMT : Z; libc_S_IFREG : Z; libc_S_IFDIR : Z; libc_S_IFLNK : Z;
  libc_S_IFCHR : Z; libc_S_IFBLK : Z; libc_S_IFIFO : Z; libc_S_IFSOCK : Z;
  libc_F_RDLCK : Z; libc_F_WRLCK : Z; libc_F_UNLCK : Z;
  libc_SEEK_SET : Z; libc_SEEK_END : Z;
  libc_UTIME_OMIT : Z;
  libc_XATTR_CREATE : Z; libc_XATTR_REPLACE : Z;
}.

#[export] Instance linux_libc : Libc := {|
  libc_EPERM := 1; libc_ENOENT := 2; libc_EIO := 5; libc_EACCES := 13;
  libc_EEXIST := 17; libc_ENOTDIR := 20; libc_EISDIR := 21; libc_EINVAL := 22;
  libc_ENOSYS := 38; libc_ENOTEMPTY := 39; libc_ERANGE := 34; libc_ENODATA := 61;
  libc_EILSEQ := 84; libc_ENOSPC := 28; libc_EROFS := 30; libc_EBADF := 9;
  libc_ENAMETOOLONG := 36; libc_ENXIO := 6; libc_EOPNOTSUPP := 95; libc_EOVERFLOW := 75;
  libc_S_IFMT := 61440; libc_S_IFREG := 32768; libc_S_IFDIR := 16384; libc_S_IFLNK := 40960;
  libc_S_IFCHR := 8192; libc_S_IFBLK := 24576; libc_S_IFIFO := 4096; libc_S_IFSOCK := 49152;
  libc_F_RDLCK := 0; libc_F_WRLCK := 1; libc_F_UNLCK := 2;
  libc_SEEK_SET := 0; libc_SEEK_END := 2;
  libc_UTIME_OMIT := 1073741822;
  libc_XATTR_CREATE := 1; libc_XATTR_REPLACE := 2;
|}.

(** ** [errno.rs] *)

Record Errno := mkErrno { errno_raw : Z }.

#[export] Instance Errno_eq_dec : EqDecision Errno.
Proof. solve_decision. Defined.

Definition from_raw (e : Z) : Errno := mkErrno e.
Definition raw (e : Errno) : Z := errno_raw e.

(** [std::io::Error] carries an OS error code or an error made up by a
    library. *)
Inductive io_error := OsError (code : Z) | CustomError.

Section errno.
Context `{Libc}.

Definition EPERM := mkErrno libc_EPERM.
Definition ENOENT := mkErrno libc_ENOENT.
Definition EIO := mkErrno libc_EIO.
Definition EACCES := mkErrno libc_EACCES.
Definition EEXIST := mkErrno libc_EEXIST.
Definition ENOTDIR := mkErrno libc_ENOTDIR.
Definition EISDIR := mkErrno libc_EISDIR.
Definition EINVAL := mkErrno libc_EINVAL.
Definition ENOSYS := mkErrno libc_ENOSYS.
Definition ENOTEMPTY := mkErrno libc_ENOTEMPTY.
Definition ERANGE := mkErrno libc_ERANGE.
Definition ENODATA := mkErrno libc_ENODATA.
Definition ENOATTR := mkErrno libc_ENODATA.
Definition EILSEQ := mkErrno libc_EILSEQ.
Definition ENOSPC := mkErrno libc_ENOSPC.
Definition EROFS := mkErrno libc_EROFS.
Definition EBADF := mkErrno libc_EBADF.
Definition ENAMETOOLONG := mkErrno libc_ENAMETOOLONG.
Definition ENXIO := mkErrno libc_ENXIO.
Definition EOPNOTSUPP := mkErrno libc_EOPNOTSUPP.

Definition errno_of_io_error (err : io_error) : Errno :=
  mkErrno (match err with OsError code => code | CustomError => libc_EIO end).
End errno.

(** ** Time

    [SystemTime] is a number of nanoseconds relative to the Unix epoch; on
    the platforms of the code it holds whole seconds in an [i64] and a
    nanosecond part below 10^9.  [Duration] is a non-negative number of
    nanoseconds, its seconds held in a [u64]. *)
Definition nanos_per_sec : Z := 1000000000.
Abbreviation SystemTime := Z (only parsing).
Abbreviation Duration := Z (only parsing).
Definition UNIX_EPOCH : SystemTime := 0.

Definition is_system_time (t : SystemTime) : Prop :=
  i64_min * nanos_per_sec ≤ t < (i64_max + 1) * nanos_per_sec.
Definition is_duration (d : Duration) : Prop := 0 ≤ d < (u64_max + 1) * nanos_per_sec.

#[export] Instance is_system_time_dec t : Decision (is_system_time t).
Proof. unfold is_system_time. apply _. Defined.
#[export] Instance is_duration_dec d : Decision (is_duration d).
Proof. unfold is_duration. apply _. Defined.

(** [Duration::new] carries whole seconds out of the nanoseconds and panics
    when the seconds overflow. *)
Definition duration_new (secs nanos : Z) : option Duration :=
  let d := secs * nanos_per_sec + nanos in if decide (is_duration d) then Some d else None.
Definition as_secs (d : Duration) : Z := d `div` nanos_per_sec.
Definition subsec_nanos (d : Duration) : Z := d `mod` nanos_per_sec.

(** [SystemTime::checked_add] and [checked_sub]. The operators [+] and [-]
    panic where these return [None]. *)
Definition time_checked_add (t : SystemTime) (d : Duration) : option SystemTime :=
  if decide (is_system_time (t + d)) then Some (t + d) else None.
Definition time_checked_sub (t : SystemTime) (d : Duration) : option SystemTime :=
  if decide (is_system_time (t - d)) then Some (t - d) else None.

#[global] Arguments duration_new : simpl never.
#[global] Arguments time_checked_add : simpl never.
#[global] Arguments time_checked_sub : simpl never.

(** [SystemTime::duration_since]: the error carries the distance the other
    way. *)
Definition duration_since (t earlier : SystemTime) : Result Duration Duration :=
  if decide (earlier ≤ t) then Ok (t - earlier) else Err (earlier - t).

(** ** [attr.rs] *)

Inductive FileKind :=
| RegularFile | Directory | Symlink | CharDevice | BlockDevice | NamedPipe | Socket.

#[export] Instance FileKind_eq_dec : EqDecision FileKind.
Proof. solve_decision. Defined.

Definition FileKind_default : FileKind := RegularFile.

Record NodeAttr := {
  attr_size : Z;
  attr_blocks : Z;
  attr_atime : SystemTime;
  attr_mtime : SystemTime;
  attr_ctime : SystemTime;
  attr_crtime : SystemTime;
  attr_kind : FileKind;
  attr_perm : Z;
  attr_nlink : Z;
  attr_uid : Z;
  attr_gid : Z;
  attr_rdev : Z;
  attr_blksize : Z;
  attr_flags : Z;
}.

Definition NodeAttr_default : NodeAttr := {|
  attr_size := 0; attr_blocks := 0;
  attr_atime := UNIX_EPOCH; attr_mtime := UNIX_EPOCH;
  attr_ctime := UNIX_EPOCH; attr_crtime := UNIX_EPOCH;
  attr_kind := FileKind_default; attr_perm := 0; attr_nlink := 0;
  attr_uid := 0; attr_gid := 0; attr_rdev := 0; attr_blksize := 0; attr_flags := 0;
|}.

(** The widths the struct declares for its integer fields. *)
Definition NodeAttr_wf (a : NodeAttr) : Prop :=
  is_u64 (attr_size a) ∧ is_u64 (attr_blocks a) ∧ is_u16 (attr_perm a) ∧
  is_u32 (attr_nlink a) ∧ is_u32 (attr_uid a) ∧ is_u32 (attr_gid a) ∧
  is_u32 (attr_rdev a) ∧ is_u32 (attr_blksize a) ∧ is_u32 (attr_flags a) ∧
  is_system_time (attr_atime a) ∧ is_system_time (attr_mtime a) ∧
  is_system_time (attr_ctime a) ∧ is_system_time (attr_crtime a).

Inductive TimeOrNow := SpecificTime (t : SystemTime) | Now.

#[export] Instance TimeOrNow_eq_dec : EqDecision TimeOrNow.
Proof. solve_decision. Defined.

Record SetAttr := {
  set_mode : option Z;
  set_uid : option Z;
  set_gid : option Z;
  set_size : option Z;
  set_atime : option TimeOrNow;
  set_mtime : option TimeOrNow;
  set_ctime : option SystemTime;
  set_crtime : option SystemTime;
  set_flags : option Z;
}.

Definition SetAttr_default : SetAttr := {|
  set_mode := None; set_uid := None; set_gid := None; set_size := None;
  set_atime := None; set_mtime := None; set_ctime := None; set_crtime := None;
  set_flags := None;
|}.

Record StatFs := {
  sfs_blocks : Z; sfs_bfree : Z; sfs_bavail : Z; sfs_files : Z; sfs_ffree : Z;
  sfs_bsize : Z; sfs_namelen : Z; sfs_frsize : Z;
}.

(** ** The value types of [node_fs.rs] *)

(** [NodeId] is a newtype over [u64], "numerically equal to the FUSE inode
    number": [ino] and [from_ino] are its identity conversions. *)
Abbreviation NodeId := Z (only parsing).
Definition ROOT : NodeId := 1.

Record Caller := { caller_uid : Z; caller_gid : Z; caller_pid : Z; caller_umask : Z }.
Definition Caller_default : Caller :=
  {| caller_uid := 0; caller_gid := 0; caller_pid := 0; caller_umask := 0 |}.

Record ConnInfo := mkConnInfo {
  proto_major : Z; proto_minor : Z; max_write : Z; max_readahead : Z;
  conn_capable : Z; conn_want : Z;
}.

Inductive ConnectionCapability := AsyncRead | AsyncDirectIo | ParallelDirectoryOperations.

#[export] Instance ConnectionCapability_eq_dec : EqDecision ConnectionCapability.
Proof. solve_decision. Defined.

Definition capability_bit (c : ConnectionCapability) : Z :=
  match c with
  | AsyncRead => Z.shiftl 1 0
  | AsyncDirectIo => Z.shiftl 1 15
  | ParallelDirectoryOperations => Z.shiftl 1 18
  end.

Definition capable (self : ConnInfo) (c : ConnectionCapability) : bool :=
  negb (Z.land (conn_capable self) (capability_bit c) =? 0).

Definition enabled (self : ConnInfo) (c : ConnectionCapability) : bool :=
  negb (Z.land (conn_want self) (capability_bit c) =? 0).

Definition with_want (w : Z) (self : ConnInfo) : ConnInfo :=
  mkConnInfo (proto_major self) (proto_minor self) (max_write self) (max_readahead self)
    (conn_capable self) w.

(** [&= !bit] clears a bit of a [u32]: the complement is taken at 32 bits. *)
Definition u32_not (x : Z) : Z := Z.lxor x u32_max.

Definition set_enabled (self : ConnInfo) (c : ConnectionCapability) (on : bool) : bool * ConnInfo :=
  let bit := capability_bit c in
  if on && (Z.land (conn_capable self) bit =? 0) then (false, self)
  else if on then (true, with_want (Z.lor (conn_want self) bit) self)
  else (true, with_want (Z.land (conn_want self) (u32_not bit)) self).

Definition conn_from_raw := mkConnInfo.
Definition want_bits (self : ConnInfo) : Z := conn_want self.

Record OpenHints := {
  direct_io : bool; keep_cache : bool; nonseekable : bool; cache_readdir : bool;
  parallel_direct_writes : bool;
}.
Definition OpenHints_default : OpenHints :=
  {| direct_io := false; keep_cache := false; nonseekable := false; cache_readdir := false;
     parallel_direct_writes := false |}.

Record Opened (H : Type) := mkOpened { opened_handle : H; opened_hints : OpenHints }.
Arguments mkOpened {H}.
Arguments opened_handle {H}.
Arguments opened_hints {H}.

Definition Opened_new {H} (handle : H) : Opened H := mkOpened handle OpenHints_default.

(** The builder methods of [Opened], one per hint. *)
Definition Opened_direct_io {H} (value : bool) (self : Opened H) : Opened H :=
  let h := opened_hints self in
  mkOpened (opened_handle self) {| direct_io := value; keep_cache := keep_cache h;
    nonseekable := nonseekable h; cache_readdir := cache_readdir h;
    parallel_direct_writes := parallel_direct_writes h |}.
Definition Opened_keep_cache {H} (value : bool) (self : Opened H) : Opened H :=
  let h := opened_hints self in
  mkOpened (opened_handle self) {| direct_io := direct_io h; keep_cache := value;
    nonseekable := nonseekable h; cache_readdir := cache_readdir h;
    parallel_direct_writes := parallel_direct_writes h |}.
Definition Opened_nonseekable {H} (value : bool) (self : Opened H) : Opened H :=
  let h := opened_hints self in
  mkOpened (opened_handle self) {| direct_io := direct_io h; keep_cache := keep_cache h;
    nonseekable := value; cache_readdir := cache_readdir h;
    parallel_direct_writes := parallel_direct_writes h |}.
Definition Opened_cache_readdir {H} (value : bool) (self : Opened H) : Opened H :=
  let h := opened_hints self in
  mkOpened (opened_handle self) {| direct_io := direct_io h; keep_cache := keep_cache h;
    nonseekable := nonseekable h; cache_readdir := value;
    parallel_direct_writes := parallel_direct_writes h |}.
Definition Opened_parallel_direct_writes {H} (value : bool) (self : Opened H) : Opened H :=
  let h := opened_hints self in
  mkOpened (opened_handle self) {| direct_io := direct_io h; keep_cache := keep_cache h;
    nonseekable := nonseekable h; cache_readdir := cache_readdir h;
    parallel_direct_writes := value |}.

Abbreviation bytes := (list Z) (only parsing).

Inductive XattrReply := XattrSize (len : Z) | XattrData (data : bytes).

(** [impl From<Vec<u8>> for XattrReply]. *)
Definition XattrReply_from (data : bytes) : XattrReply := XattrData data.

Inductive LockKind := LockRead | LockWrite | LockUnlock.

#[export] Instance LockKind_eq_dec : EqDecision LockKind.
Proof. solve_decision. Defined.

Record FileLock := mkFileLock { fl_kind : LockKind; fl_start : Z; fl_end : Z; fl_pid : Z }.

#[export] Instance FileLock_eq_dec : EqDecision FileLock.
Proof. solve_decision. Defined.

Definition FileLock_wf (l : FileLock) : Prop :=
  is_u64 (fl_start l) ∧ is_u64 (fl_end l) ∧ is_u32 (fl_pid l).

(** OS strings and paths are byte strings. *)
Abbreviation OsString := string (only parsing).
Abbreviation PathBuf := string (only parsing).

(** ** Time arithmetic inside the representable range *)

Lemma duration_new_ok secs nanos :
  0 ≤ secs → 0 ≤ nanos → secs * nanos_per_sec + nanos < (u64_max + 1) * nanos_per_sec →
  duration_new secs nanos = Some (secs * nanos_per_sec + nanos).
Proof.
  intros. unfold duration_new. rewrite decide_True; [done|].
  unfold is_duration, nanos_per_sec in *. lia.
Qed.

Lemma time_checked_add_ok t d : is_system_time (t + d) → time_checked_add t d = Some (t + d).
Proof. intros. unfold time_checked_add. by rewrite decide_True. Qed.

Lemma time_checked_sub_ok t d : is_system_time (t - d) → time_checked_sub t d = Some (t - d).
Proof. intros. unfold time_checked_sub. by rewrite decide_True. Qed.

Ltac time_lia :=
  unfold is_system_time, is_duration, as_secs, subsec_nanos, UNIX_EPOCH, nanos_per_sec in *; int_lia.

(** ** Capability negotiation

    A capability is a single bit; [set_enabled] is characterised by its effect
    on every bit of the request mask. *)

Definition capability_index (c : ConnectionCapability) : Z :=
  match c with AsyncRead => 0 | AsyncDirectIo => 15 | ParallelDirectoryOperations => 18 end.

Lemma capability_bit_pow2 c : capability_bit c = 2 ^ capability_index c.
Proof. by destruct c. Qed.

Lemma capability_index_bound c : 0 ≤ capability_index c < 32.
Proof. destruct c; simpl; lia. Qed.

Lemma land_pow2_zero w k : 0 ≤ k → (Z.land w (2 ^ k) =? 0) = negb (Z.testbit w k).
Proof.
  intros Hk. destruct (Z.testbit w k) eqn:Hw; simpl.
  - apply Z.eqb_neq. intros Hz.
    assert (Z.testbit (Z.land w (2 ^ k)) k = true) as Ht.
    { by rewrite Z.land_spec, Hw, Z.pow2_bits_true. }
    by rewrite Hz, Z.testbit_0_l in Ht.
  - apply Z.eqb_eq. apply Z.bits_inj'. intros n Hn.
    rewrite Z.land_spec, Z.pow2_bits_eqb, Z.testbit_0_l by done.
    destruct (Z.eqb_spec k n) as [->|]; [by rewrite Hw | apply andb_false_r].
Qed.

Lemma u32_not_testbit x n : 0 ≤ n < 32 → Z.testbit (u32_not x) n = negb (Z.testbit x n).
Proof.
  intros Hn. unfold u32_not. rewrite Z.lxor_spec.
  replace (Z.testbit u32_max n) with true; [by rewrite xorb_true_r|].
  change u32_max with (Z.ones 32). symmetry. apply Z.ones_spec_low. lia.
Qed.

Lemma enabled_testbit info c :
  enabled info c = Z.testbit (conn_want info) (capability_index c).
Proof.
  unfold enabled. rewrite capability_bit_pow2, land_pow2_zero, negb_involutive; [done|].
  apply capability_index_bound.
Qed.

Lemma capable_testbit info c :
  capable info c = Z.testbit (conn_capable info) (capability_index c).
Proof.
  unfold capable. rewrite capability_bit_pow2, land_pow2_zero, negb_involutive; [done|].
  apply capability_index_bound.
Qed.

(** [ConnInfo::set_enabled] refuses exactly the attempt to enable a
    capability the kernel lacks and then changes nothing; otherwise it sets the
    capability's bit to the requested value and leaves every other bit of the
    request mask, and every other field, as it was. *)
Theorem set_enabled_spec (info : ConnInfo) (c : ConnectionCapability) (on : bool) :
  let '(accepted, info') := set_enabled info c on in
  accepted = negb on || capable info c ∧
  (accepted = false → info' = info) ∧
  (accepted = true → enabled info' c = on) ∧
  (∀ n, 0 ≤ n < 32 → n ≠ capability_index c →
     Z.testbit (conn_want info') n = Z.testbit (conn_want info) n) ∧
  (proto_major info', proto_minor info', max_write info', max_readahead info', conn_capable info')
  = (proto_major info, proto_minor info, max_write info, max_readahead info, conn_capable info).
Proof.
  pose proof (capability_index_bound c) as Hc.
  unfold set_enabled.
  rewrite capability_bit_pow2, land_pow2_zero by lia. rewrite <- capable_testbit.
  destruct on; simpl.
  - destruct (capable info c) eqn:Hcap; simpl; [|naive_solver].
    repeat split; try done.
    + intros _. rewrite enabled_testbit. simpl.
      rewrite Z.lor_spec, Z.pow2_bits_true by lia. apply orb_true_r.
    + intros n Hn Hne. rewrite Z.lor_spec, Z.pow2_bits_false by lia. apply orb_false_r.
  - repeat split; try done.
    + intros _. rewrite enabled_testbit. simpl.
      rewrite Z.land_spec, u32_not_testbit, Z.pow2_bits_true by lia. apply andb_false_r.
    + intros n Hn Hne.
      rewrite Z.land_spec, u32_not_testbit, Z.pow2_bits_false by lia. apply andb_true_r.
Qed.
