(* ===== verification/Std.v ===== *)
(** * What the example filesystems use of the standard library

    Ordered maps, growable vectors and slices, and text that may not be UTF-8. *)

From stdpp Require Import sorting.
From S2P Require Import Prelude Types.

(** ** [BTreeMap<OsString, V>]

    Iteration is in the order of the keys' bytes. *)
Definition bt_keys {V} (m : gmap string V) : list string := merge_sort String.le (map_to_list m).*1.
Definition bt_iter {V} (m : gmap string V) : list (string * V) :=
  omap (λ k, pair k <$> m !! k) (bt_keys m).

Lemma bt_iter_permutation {V} (m : gmap string V) : bt_iter m ≡ₚ map_to_list m.
Proof.
  unfold bt_iter, bt_keys. rewrite merge_sort_Permutation.
  assert (∀ l, (∀ k v, (k, v) ∈ l → m !! k = Some v) → omap (λ k, pair k <$> m !! k) l.*1 = l) as Hl.
  { induction l as [|[k v] l IH]; intros Hin; [done|]. simpl. rewrite (Hin k v) by (by left). simpl.
    f_equal. apply IH. intros k' v' ?. apply Hin. by right. }
  rewrite Hl; [done|]. intros k v. apply elem_of_map_to_list.
Qed.

Lemma bt_iter_keys {V} (m : gmap string V) : (bt_iter m).*1 = bt_keys m.
Proof.
  unfold bt_iter. assert (∀ k, k ∈ bt_keys m → is_Some (m !! k)) as Hin.
  { intros k. unfold bt_keys. rewrite merge_sort_Permutation, list_elem_of_fmap.
    intros ([k' v] & -> & Hk%elem_of_map_to_list). by exists v. }
  revert Hin. induction (bt_keys m) as [|k l IH]; intros Hin; [done|]. simpl.
  destruct (Hin k ltac:(by left)) as [v ->]. simpl. f_equal. apply IH. intros ? ?. apply Hin. by right.
Qed.

Lemma bt_iter_sorted {V} (m : gmap string V) : Sorted String.le (bt_iter m).*1.
Proof. rewrite bt_iter_keys. unfold bt_keys. apply Sorted_merge_sort, _. Qed.

Lemma length_bt_iter {V} (m : gmap string V) : length (bt_iter m) = size m.
Proof. rewrite bt_iter_permutation. apply length_map_to_list. Qed.

(** ** [Vec<u8>] and slices

    A capacity is at most [isize::MAX]; memory itself is not limited in the
    model. [None] is a panic. *)
Definition vec_resize (v : bytes) (n : Z) : option bytes :=
  if i64_max <? n then None else Some (resize (Z.to_nat n) 0 v).
Definition slice (v : bytes) (start stop : Z) : option bytes :=
  if (start <=? stop) && (stop <=? Z.of_nat (length v))
  then Some (take (Z.to_nat (stop - start)) (drop (Z.to_nat start) v)) else None.

(** [v[start..stop].copy_from_slice(data)]. *)
Definition copy_from_slice (v : bytes) (start stop : Z) (data : bytes) : option bytes :=
  match slice v start stop with
  | Some old =>
      if Nat.eqb (length old) (length data)
      then Some (take (Z.to_nat start) v ++ data ++ drop (Z.to_nat stop) v) else None
  | None => None
  end.

Definition os_bytes (s : OsString) : bytes := (λ c, Z.of_nat (Ascii.nat_of_ascii c)) <$> String.list_ascii_of_string s.

(** The bytes from [offset] on, [size] of them if there are so many. *)
Definition bytes_at (v : bytes) (offset size : Z) : bytes := take (Z.to_nat size) (drop (Z.to_nat offset) v).

Lemma slice_min v offset size :
  0 ≤ offset < Z.of_nat (length v) → 0 ≤ size →
  slice v offset (Z.min (offset + size) (Z.of_nat (length v))) = Some (bytes_at v offset size).
Proof.
  intros Ho Hs. unfold slice, bytes_at.
  rewrite (proj2 (Z.leb_le offset _)), (proj2 (Z.leb_le _ (Z.of_nat (length v)))) by lia. simpl.
  f_equal. destruct (Z.le_gt_cases (offset + size) (Z.of_nat (length v))).
  - rewrite Z.min_l by lia. do 2 f_equal. lia.
  - rewrite Z.min_r by lia. rewrite !take_ge; [done|rewrite length_drop; lia..].
Qed.

Lemma bytes_beyond v offset size : Z.of_nat (length v) ≤ offset → bytes_at v offset size = [].
Proof. intros Hv. unfold bytes_at. rewrite drop_ge by lia. apply take_nil. Qed.

(** ** [String::from_utf8_lossy]

    One step of the decoder: how many bytes it takes, and whether they encode a
    character. A byte beyond the end reads as 0. *)
Definition in_range (lo hi b : Z) : bool := (lo <=? b) && (b <=? hi).
Definition byte_at (n : nat) (s : bytes) : Z := default 0 (s !! n).
Definition continues (n : nat) (s : bytes) : bool := Z.land (byte_at n s) 192 =? 128.

Definition second_of_three (first second : Z) : bool :=
  (first =? 0xE0) && in_range 0xA0 0xBF second ||
  in_range 0xE1 0xEC first && in_range 0x80 0xBF second ||
  (first =? 0xED) && in_range 0x80 0x9F second ||
  in_range 0xEE 0xEF first && in_range 0x80 0xBF second.
Definition second_of_four (first second : Z) : bool :=
  (first =? 0xF0) && in_range 0x90 0xBF second ||
  in_range 0xF1 0xF3 first && in_range 0x80 0xBF second ||
  (first =? 0xF4) && in_range 0x80 0x8F second.

Definition next_char (s : bytes) : nat * bool :=
  let first := byte_at 0 s in
  if first <? 128 then (1%nat, true)
  else if in_range 0xC2 0xDF first then (if continues 1 s then (2%nat, true) else (1%nat, false))
  else if in_range 0xE0 0xEF first then
    if negb (second_of_three first (byte_at 1 s)) then (1%nat, false)
    else if continues 2 s then (3%nat, true) else (2%nat, false)
  else if in_range 0xF0 0xF4 first then
    if negb (second_of_four first (byte_at 1 s)) then (1%nat, false)
    else if negb (continues 2 s) then (2%nat, false)
    else if continues 3 s then (4%nat, true) else (3%nat, false)
  else (1%nat, false).

(** The replacement character U+FFFD. *)
Definition replacement : bytes := [0xEF; 0xBF; 0xBD].

(** Every step takes a byte, so the length is fuel enough. *)
Fixpoint lossy (fuel : nat) (s : bytes) : bytes :=
  match fuel, s with
  | S fuel, _ :: _ =>
      let '(n, valid) := next_char s in
      (if valid then take n s else replacement) ++ lossy fuel (drop n s)
  | _, _ => []
  end.

Definition of_bytes (s : bytes) : string :=
  String.string_of_list_ascii ((λ b, Ascii.ascii_of_nat (Z.to_nat b)) <$> s).
Definition to_string_lossy (s : OsString) : string :=
  of_bytes (lossy (length (os_bytes s)) (os_bytes s)).

(** ** [String::from_utf8] and [OsString::into_string] *)
Fixpoint valid_utf8 (fuel : nat) (s : bytes) : bool :=
  match fuel, s with
  | S fuel, _ :: _ => let '(n, valid) := next_char s in valid && valid_utf8 fuel (drop n s)
  | _, _ => true
  end.
Definition from_utf8 (s : bytes) : option string := if valid_utf8 (length s) s then Some (of_bytes s) else None.

Definition into_string (s : OsString) : option string := from_utf8 (os_bytes s).

(** A text whose bytes are all below 128. *)
Definition is_ascii (s : bytes) : Prop := Forall (λ b, 0 ≤ b < 128) s.

Lemma next_char_ascii b s : 0 ≤ b < 128 → next_char (b :: s) = (1%nat, true).
Proof. intros Hb. unfold next_char, byte_at. simpl. by rewrite (proj2 (Z.ltb_lt b 128)) by lia. Qed.

Lemma next_char_cases s n valid :
  s ≠ [] → next_char s = (n, valid) →
  n = 1%nat ∧ valid = true ∧ byte_at 0 s < 128 ∨ (128 ≤ byte_at 0 s ∧ (0 < n)%nat).
Proof.
  unfold next_char. intros Hs. destruct (Z.ltb_spec (byte_at 0 s) 128) as [Hlt|Hge]; [intros [= <- <-]; by left|].
  repeat case_match; intros [= <- <-]; right; (split; [done|lia]).
Qed.

(** Decoding yields an ASCII text only from that text itself: the replacement
    and the longer characters are not ASCII. *)
Lemma lossy_ascii fuel s t :
  (length s ≤ fuel)%nat → Forall (λ b, 0 ≤ b < 256) s → is_ascii t → lossy fuel s = t → s = t.
Proof.
  revert s t. induction fuel as [|fuel IH]; intros s t Hlen Hs Ht Heq.
  { destruct s; simpl in *; [done|lia]. }
  destruct s as [|b s]; [done|]. simpl in Heq. destruct (next_char (b :: s)) as [n valid] eqn:Hc.
  destruct (next_char_cases (b :: s) n valid ltac:(discriminate) Hc) as [(-> & -> & Hb)|[Hb Hn]].
  - simpl in Heq. destruct t as [|b' t]; [done|]. injection Heq as -> Heq.
    apply Forall_cons in Hs as [_ Hs]. apply Forall_cons in Ht as [_ Ht]. f_equal.
    apply IH; [simpl in Hlen; lia|done..|]. exact Heq.
  - exfalso. assert (∃ c t', t = c :: t' ∧ 128 ≤ c) as (c & t' & -> & Hc').
    { subst t. destruct valid.
      - destruct n as [|n]; [lia|]. by exists b, (take n s ++ lossy fuel (drop n s)).
      - by exists 0xEF, (0xBF :: 0xBD :: lossy fuel (drop n (b :: s))). }
    apply Forall_cons in Ht as [? _]. lia.
Qed.

Lemma lossy_of_ascii s fuel : (length s ≤ fuel)%nat → is_ascii s → lossy fuel s = s.
Proof.
  revert s. induction fuel as [|fuel IH]; intros [|b s] Hlen Hs; simpl in *; [done|lia|done|].
  apply Forall_cons in Hs as [Hb Hs]. rewrite next_char_ascii by done. simpl. f_equal. apply IH; [lia|done].
Qed.

Lemma os_bytes_range s : Forall (λ b, 0 ≤ b < 256) (os_bytes s).
Proof.
  unfold os_bytes. apply Forall_fmap, Forall_true. intros c. simpl.
  pose proof (Ascii.nat_ascii_bounded c). lia.
Qed.

Lemma of_os_bytes s : of_bytes (os_bytes s) = s.
Proof.
  unfold of_bytes, os_bytes. rewrite <- list_fmap_compose.
  rewrite <- (String.string_of_list_ascii_of_string s) at 2. f_equal.
  rewrite <- (list_fmap_id (String.list_ascii_of_string s)) at 2. apply list_fmap_ext. intros i c _. simpl.
  by rewrite Nat2Z.id, Ascii.ascii_nat_embedding.
Qed.

Lemma os_bytes_of s : Forall (λ b, 0 ≤ b < 256) s → os_bytes (of_bytes s) = s.
Proof.
  intros Hs. unfold of_bytes, os_bytes. rewrite String.list_ascii_of_string_of_list_ascii, <- list_fmap_compose.
  rewrite <- (list_fmap_id s) at 2. apply list_fmap_ext. intros i b Hb. simpl.
  rewrite Forall_lookup in Hs. specialize (Hs i b Hb). rewrite Ascii.nat_ascii_embedding by lia. lia.
Qed.

Lemma lossy_range fuel s : Forall (λ b, 0 ≤ b < 256) s → Forall (λ b, 0 ≤ b < 256) (lossy fuel s).
Proof.
  revert s. induction fuel as [|fuel IH]; intros [|b s] Hs; simpl; [constructor..|].
  destruct (next_char (b :: s)) as [n valid]. apply Forall_app. split; [|by apply IH, Forall_drop].
  destruct valid; [by apply Forall_take|]. unfold replacement. repeat constructor; lia.
Qed.

(** A string that is Unicode is itself. *)
Lemma into_string_same s t : into_string s = Some t → t = s.
Proof. unfold into_string, from_utf8. case_match; [|done]. intros [= <-]. apply of_os_bytes. Qed.

(** A name is read as an ASCII text just when it is that text. *)
Lemma to_string_lossy_ascii s t : is_ascii (os_bytes t) → to_string_lossy s = t ↔ s = t.
Proof.
  intros Ht. unfold to_string_lossy. split.
  - intros <-. rewrite os_bytes_of in Ht by apply lossy_range, os_bytes_range.
    rewrite <- (of_os_bytes s) at 1. f_equal.
    apply (lossy_ascii (length (os_bytes s))); [done|apply os_bytes_range|done|done].
  - intros ->. rewrite lossy_of_ascii by done. apply of_os_bytes.
Qed.
