(* ===== verification/Conv.v ===== *)
(** * Conversions to and from the raw C types ([fuse3/src/conv.rs])

    The Linux half of the module (the blocks under
    [cfg(not(target_os = "macos"))]), with the x86-64 widths of the fields of
    [struct stat] and [struct statvfs].  Constants of the generated
    [libfuse_sys] bindings are a parameter, class [FuseSys]. *)

From S2P Require Import Prelude Types.

(** ** Constants of the generated bindings *)
Class FuseSys := {
  FUSE_SET_ATTR_MODE : Z; FUSE_SET_ATTR_UID : Z; FUSE_SET_ATTR_GID : Z;
  FUSE_SET_ATTR_SIZE : Z; FUSE_SET_ATTR_ATIME : Z; FUSE_SET_ATTR_MTIME : Z;
  FUSE_SET_ATTR_ATIME_NOW : Z; FUSE_SET_ATTR_MTIME_NOW : Z; FUSE_SET_ATTR_CTIME : Z;
}.

(** The values of [fuse_lowlevel.h]. *)
#[export] Instance linux_fuse_sys : FuseSys := {|
  FUSE_SET_ATTR_MODE := 1; FUSE_SET_ATTR_UID := 2; FUSE_SET_ATTR_GID := 4;
  FUSE_SET_ATTR_SIZE := 8; FUSE_SET_ATTR_ATIME := 16; FUSE_SET_ATTR_MTIME := 32;
  FUSE_SET_ATTR_ATIME_NOW := 128; FUSE_SET_ATTR_MTIME_NOW := 256; FUSE_SET_ATTR_CTIME := 1024;
|}.

(** [struct stat], with the timestamps as (seconds, nanoseconds). *)
Record stat := mkStat {
  st_ino : Z; st_mode : Z; st_nlink : Z; st_uid : Z; st_gid : Z; st_rdev : Z;
  st_size : Z; st_blocks : Z; st_blksize : Z;
  st_atim : Z * Z; st_mtim : Z * Z; st_ctim : Z * Z;
}.

(** [std::mem::zeroed()]. *)
Definition stat_zeroed : stat := mkStat 0 0 0 0 0 0 0 0 0 (0, 0) (0, 0) (0, 0).

Record statvfs := {
  f_bsize : Z; f_frsize : Z; f_blocks : Z; f_bfree : Z; f_bavail : Z;
  f_files : Z; f_ffree : Z; f_namemax : Z;
}.

(** [fuse_entry_param]; the timeouts, [f64] seconds in C, are kept as the
    durations they are computed from. *)
Record fuse_entry_param := {
  ep_ino : Z; ep_generation : Z; ep_attr : stat;
  ep_attr_timeout : Duration; ep_entry_timeout : Duration;
}.

Section conv.
Context `{Libc}.

(** ** File kinds *)

Definition kind_to_mode_bits (kind : FileKind) : Z :=
  as_u32 (match kind with
          | RegularFile => libc_S_IFREG
          | Directory => libc_S_IFDIR
          | Symlink => libc_S_IFLNK
          | CharDevice => libc_S_IFCHR
          | BlockDevice => libc_S_IFBLK
          | NamedPipe => libc_S_IFIFO
          | Socket => libc_S_IFSOCK
          end).

Definition mode_bits_to_kind (mode : Z) : option FileKind :=
  let m := Z.land mode (as_u32 libc_S_IFMT) in
  if m =? as_u32 libc_S_IFREG then Some RegularFile
  else if m =? as_u32 libc_S_IFDIR then Some Directory
  else if m =? as_u32 libc_S_IFLNK then Some Symlink
  else if m =? as_u32 libc_S_IFCHR then Some CharDevice
  else if m =? as_u32 libc_S_IFBLK then Some BlockDevice
  else if m =? as_u32 libc_S_IFIFO then Some NamedPipe
  else if m =? as_u32 libc_S_IFSOCK then Some Socket
  else None.

(** ** Timestamps

    The arithmetic on [i64] is that of a release build: it wraps. *)

Definition system_time_to_secs_nsecs (t : SystemTime) : Z * Z :=
  match duration_since t UNIX_EPOCH with
  | Ok d => (as_i64 (as_secs d), subsec_nanos d)
  | Err d =>
      let secs := as_i64 (as_secs d) in
      let nsecs := subsec_nanos d in
      if nsecs =? 0 then (as_i64 (- secs), 0)
      else (as_i64 (as_i64 (- secs) - 1), 1000000000 - nsecs)
  end.

(** [None] is a panic of the [SystemTime] or [Duration] arithmetic. *)
Definition secs_nsecs_to_system_time (secs nsecs : Z) : option SystemTime :=
  if 0 <=? secs then
    d ← duration_new (as_u64 secs) (as_u32 nsecs);
    time_checked_add UNIX_EPOCH d
  else
    d1 ← duration_new (as_u64 (as_i64 (- secs))) 0;
    t1 ← time_checked_sub UNIX_EPOCH d1;
    d2 ← duration_new 0 (as_u32 nsecs);
    time_checked_add t1 d2.

(** ** Attributes *)

Definition attr_to_stat (ino : Z) (attr : NodeAttr) : stat := {|
  st_ino := ino;
  st_mode := Z.lor (kind_to_mode_bits (attr_kind attr)) (Z.land (attr_perm attr) 4095);
  st_nlink := attr_nlink attr;
  st_uid := attr_uid attr;
  st_gid := attr_gid attr;
  st_rdev := attr_rdev attr;
  st_size := as_i64 (attr_size attr);
  st_blocks := as_i64 (attr_blocks attr);
  st_blksize := attr_blksize attr;
  st_atim := system_time_to_secs_nsecs (attr_atime attr);
  st_mtim := system_time_to_secs_nsecs (attr_mtime attr);
  st_ctim := system_time_to_secs_nsecs (attr_ctime attr);
|}.

Definition entry_to_entry_param (ino generation : Z) (attr : NodeAttr) (ttl : Duration) :
    fuse_entry_param := {|
  ep_ino := ino;
  ep_generation := generation;
  ep_attr := attr_to_stat ino attr;
  ep_attr_timeout := ttl;
  ep_entry_timeout := ttl;
|}.

Definition negative_entry_param (ttl : Duration) : fuse_entry_param := {|
  ep_ino := 0;
  ep_generation := 0;
  ep_attr := stat_zeroed;
  ep_attr_timeout := 0;
  ep_entry_timeout := ttl;
|}.

Definition statfs_to_raw (s : StatFs) : statvfs := {|
  f_bsize := sfs_bsize s;
  f_frsize := sfs_frsize s;
  f_blocks := sfs_blocks s;
  f_bfree := sfs_bfree s;
  f_bavail := sfs_bavail s;
  f_files := sfs_files s;
  f_ffree := sfs_ffree s;
  f_namemax := sfs_namelen s;
|}.

Context `{FuseSys}.

Definition has_bit (to_set bit : Z) : bool := negb (Z.land to_set bit =? 0).

(** One timestamp of a [setattr] request: the "now" bit wins over the
    explicit time. The outer [None] is a panic of the time arithmetic. *)
Definition setattr_time (to_set now_bit bit : Z) (ts : Z * Z) : option (option TimeOrNow) :=
  if has_bit to_set now_bit then Some (Some Now)
  else if has_bit to_set bit then
    t ← secs_nsecs_to_system_time (fst ts) (snd ts);
    Some (Some (SpecificTime t))
  else Some None.

(** A null [attr] pointer is [None]. *)
Definition setattr_from_raw (attr : option stat) (to_set : Z) : option SetAttr :=
  let to_set := as_u32 to_set in
  match attr with
  | None => Some SetAttr_default
  | Some st =>
      atime ← setattr_time to_set FUSE_SET_ATTR_ATIME_NOW FUSE_SET_ATTR_ATIME (st_atim st);
      mtime ← setattr_time to_set FUSE_SET_ATTR_MTIME_NOW FUSE_SET_ATTR_MTIME (st_mtim st);
      ctime ← (if has_bit to_set FUSE_SET_ATTR_CTIME then
                 t ← secs_nsecs_to_system_time (fst (st_ctim st)) (snd (st_ctim st));
                 Some (Some t)
               else Some None);
      Some {|
        set_mode := if has_bit to_set FUSE_SET_ATTR_MODE then Some (st_mode st) else None;
        set_uid := if has_bit to_set FUSE_SET_ATTR_UID then Some (st_uid st) else None;
        set_gid := if has_bit to_set FUSE_SET_ATTR_GID then Some (st_gid st) else None;
        set_size := if has_bit to_set FUSE_SET_ATTR_SIZE then Some (as_u64 (st_size st)) else None;
        set_atime := atime;
        set_mtime := mtime;
        set_ctime := ctime;
        set_crtime := None;
        set_flags := None;
      |}
  end.
End conv.

(** ** Facts about the constants

    The documented layout of [st_mode]: the seven file types are distinct
    values inside the [S_IFMT] mask, which does not meet the permission bits. *)
Class LibcModeOk `{Libc} : Prop := {
  ifmt_perm : Z.land (as_u32 libc_S_IFMT) 4095 = 0;
  kind_in_ifmt : ∀ k, Z.land (kind_to_mode_bits k) (as_u32 libc_S_IFMT) = kind_to_mode_bits k;
  kind_bits_inj : ∀ k k', kind_to_mode_bits k = kind_to_mode_bits k' → k = k';
}.

#[export] Instance linux_mode_ok : LibcModeOk.
Proof.
  split; [reflexivity | by intros [] |].
  intros [] [] Heq; first [done | vm_compute in Heq; discriminate].
Qed.

Section kinds.
Context `{LibcModeOk}.

Lemma mode_bits_of_kind k : mode_bits_to_kind (kind_to_mode_bits k) = Some k.
Proof.
  unfold mode_bits_to_kind. rewrite kind_in_ifmt.
  repeat match goal with
  | |- context [kind_to_mode_bits k =? ?b] =>
      destruct (Z.eqb_spec (kind_to_mode_bits k) b) as [?|?]; cbv iota;
      [f_equal; symmetry; by apply kind_bits_inj|]
  end.
  exfalso. destruct k;
    match goal with Hne : kind_to_mode_bits ?k ≠ ?b |- _ => exact (Hne eq_refl) end.
Qed.

Lemma mode_bits_ignores_perm k perm :
  mode_bits_to_kind (Z.lor (kind_to_mode_bits k) (Z.land perm 4095))
  = mode_bits_to_kind (kind_to_mode_bits k).
Proof.
  unfold mode_bits_to_kind.
  replace (Z.land (Z.lor (kind_to_mode_bits k) (Z.land perm 4095)) (as_u32 libc_S_IFMT))
    with (Z.land (kind_to_mode_bits k) (as_u32 libc_S_IFMT)); [done|].
  rewrite Z.land_lor_distr_l, <- Z.land_assoc, (Z.land_comm 4095), ifmt_perm.
  by rewrite Z.land_0_r, Z.lor_0_r.
Qed.
End kinds.

(** ** Timestamps: floor division and round trips *)

Lemma system_time_floor t :
  is_system_time t →
  system_time_to_secs_nsecs t = (t `div` nanos_per_sec, t `mod` nanos_per_sec).
Proof.
  unfold is_system_time, system_time_to_secs_nsecs, duration_since, as_secs, subsec_nanos,
    UNIX_EPOCH, nanos_per_sec.
  intros Ht. case_decide; simpl.
  - rewrite Z.sub_0_r. f_equal. apply as_i64_small. int_lia.
  - destruct (Z.eqb_spec ((0 - t) `mod` 1000000000) 0); f_equal; int_lia.
Qed.

Lemma secs_nsecs_total secs nsecs :
  is_i64 secs → 0 ≤ nsecs < nanos_per_sec →
  secs_nsecs_to_system_time secs nsecs = Some (secs * nanos_per_sec + nsecs).
Proof.
  intros Hs Hn. unfold secs_nsecs_to_system_time.
  assert (as_u32 nsecs = nsecs) as -> by (apply as_u32_small; time_lia).
  destruct (Z.leb_spec 0 secs).
  - rewrite as_u64_small by int_lia.
    rewrite duration_new_ok by time_lia. simpl.
    rewrite time_checked_add_ok by time_lia. done.
  - assert (as_u64 (as_i64 (- secs)) = - secs) as -> by int_lia.
    rewrite (duration_new_ok (- secs) 0) by time_lia. simpl.
    rewrite time_checked_sub_ok by time_lia. simpl.
    rewrite duration_new_ok by time_lia. simpl.
    rewrite time_checked_add_ok by time_lia.
    f_equal. unfold UNIX_EPOCH. lia.
Qed.

(** A timestamp survives the conversion to [(seconds, nanoseconds)] and
    back, before and after the epoch, with no panic; the seconds are the floor
    of the time and the nanoseconds are normalised. *)
Theorem system_time_roundtrip (t : SystemTime) (Ht : is_system_time t) :
  let '(secs, nsecs) := system_time_to_secs_nsecs t in
  is_i64 secs ∧ 0 ≤ nsecs < nanos_per_sec ∧ secs_nsecs_to_system_time secs nsecs = Some t.
Proof.
  rewrite system_time_floor by done.
  assert (is_i64 (t `div` nanos_per_sec) ∧ 0 ≤ t `mod` nanos_per_sec < nanos_per_sec) as [Hs Hn]
    by (split; time_lia).
  split_and!; try tauto.
  rewrite secs_nsecs_total by done. f_equal. time_lia.
Qed.

Example system_time_roundtrip_witness :
  is_system_time (-1500000000) ∧ system_time_to_secs_nsecs (-1500000000) = (-2, 500000000) ∧
  secs_nsecs_to_system_time (-2) 500000000 = Some (-1500000000).
Proof.
  assert (is_system_time (-1500000000)) as Ht by (vm_compute; split; congruence).
  split; [exact Ht|]. split; [reflexivity|].
  pose proof (system_time_roundtrip (-1500000000) Ht) as (_ & _ & Hback). exact Hback.
Defined.

(** ** Attributes *)

(** The masks of a [setattr] request behave as independent bits. *)
Section attributes.
Context `{LibcModeOk} `{FuseSys}.

Lemma setattr_time_total to_set now_bit bit ts :
  is_i64 ts.1 → 0 ≤ ts.2 < nanos_per_sec →
  setattr_time to_set now_bit bit ts =
    Some (if has_bit to_set now_bit then Some Now
          else if has_bit to_set bit then Some (SpecificTime (ts.1 * nanos_per_sec + ts.2))
          else None).
Proof.
  intros Hs Hn. unfold setattr_time.
  destruct (has_bit to_set now_bit); [done|]. destruct (has_bit to_set bit); [|done].
  by rewrite secs_nsecs_total.
Qed.

Definition stat_times_ok (st : stat) : Prop :=
  (is_i64 (st_atim st).1 ∧ 0 ≤ (st_atim st).2 < nanos_per_sec) ∧
  (is_i64 (st_mtim st).1 ∧ 0 ≤ (st_mtim st).2 < nanos_per_sec) ∧
  (is_i64 (st_ctim st).1 ∧ 0 ≤ (st_ctim st).2 < nanos_per_sec).

Lemma system_time_stat_ok t : is_system_time t →
  is_i64 (system_time_to_secs_nsecs t).1 ∧
  0 ≤ (system_time_to_secs_nsecs t).2 < nanos_per_sec ∧
  (system_time_to_secs_nsecs t).1 * nanos_per_sec + (system_time_to_secs_nsecs t).2 = t.
Proof.
  intros Ht. pose proof (system_time_floor t Ht) as ->. simpl.
  split_and!; time_lia.
Qed.

Lemma setattr_from_raw_total st to_set :
  stat_times_ok st → is_Some (setattr_from_raw (Some st) to_set).
Proof.
  intros ([? ?] & [? ?] & [? ?]). unfold setattr_from_raw.
  rewrite !setattr_time_total by done. simpl.
  rewrite secs_nsecs_total by done.
  destruct (has_bit _ FUSE_SET_ATTR_CTIME); simpl; eauto.
Qed.

(** C31: encoding attributes into a [stat] and decoding a [setattr] request
    made of that [stat] gives back, for each requested field, the attribute
    (mode: the kind's bits with the low twelve permission bits); the size
    survives the signed [st_size]; nothing is set that was not requested, and
    the "now" bits win over explicit times. *)
Theorem attr_stat_setattr_roundtrip (ino : Z) (a : NodeAttr) (to_set : Z) (Ha : NodeAttr_wf a) :
  let b := has_bit (as_u32 to_set) in
  let time now bit t :=
    if b now then Some Now else if b bit then Some (SpecificTime t) else None in
  setattr_from_raw (Some (attr_to_stat ino a)) to_set = Some {|
    set_mode := if b FUSE_SET_ATTR_MODE
      then Some (Z.lor (kind_to_mode_bits (attr_kind a)) (Z.land (attr_perm a) 4095)) else None;
    set_uid := if b FUSE_SET_ATTR_UID then Some (attr_uid a) else None;
    set_gid := if b FUSE_SET_ATTR_GID then Some (attr_gid a) else None;
    set_size := if b FUSE_SET_ATTR_SIZE then Some (attr_size a) else None;
    set_atime := time FUSE_SET_ATTR_ATIME_NOW FUSE_SET_ATTR_ATIME (attr_atime a);
    set_mtime := time FUSE_SET_ATTR_MTIME_NOW FUSE_SET_ATTR_MTIME (attr_mtime a);
    set_ctime := if b FUSE_SET_ATTR_CTIME then Some (attr_ctime a) else None;
    set_crtime := None;
    set_flags := None;
  |} ∧
  mode_bits_to_kind (st_mode (attr_to_stat ino a)) = Some (attr_kind a).
Proof.
  destruct Ha as (Hsz & _ & _ & _ & _ & _ & _ & _ & _ & Hat & Hmt & Hct & _).
  apply system_time_stat_ok in Hat as (? & ? & Hat), Hmt as (? & ? & Hmt), Hct as (? & ? & Hct).
  split.
  - unfold setattr_from_raw, attr_to_stat; simpl.
    rewrite !setattr_time_total, Hat, Hmt by done. simpl.
    rewrite secs_nsecs_total, Hct by done. simpl.
    assert (as_u64 (as_i64 (attr_size a)) = attr_size a) as -> by int_lia.
    by destruct (has_bit _ FUSE_SET_ATTR_CTIME).
  - simpl. by rewrite mode_bits_ignores_perm, mode_bits_of_kind.
Qed.
End attributes.

Definition sample_attr : NodeAttr := {|
  attr_size := 1234; attr_blocks := 3; attr_atime := 100000000250; attr_mtime := -1500000000;
  attr_ctime := 0; attr_crtime := 0; attr_kind := RegularFile; attr_perm := 420;
  attr_nlink := 3; attr_uid := 1000; attr_gid := 1000; attr_rdev := 0; attr_blksize := 4096;
  attr_flags := 0;
|}.

Lemma sample_attr_wf : NodeAttr_wf sample_attr.
Proof. unfold NodeAttr_wf, sample_attr; simpl. split_and!; time_lia. Qed.

Example attr_stat_setattr_roundtrip_witness :
  NodeAttr_wf sample_attr ∧
  mode_bits_to_kind (st_mode (attr_to_stat 42 sample_attr)) = Some RegularFile.
Proof.
  split; [exact sample_attr_wf|].
  exact (proj2 (attr_stat_setattr_roundtrip 42 sample_attr 63 sample_attr_wf)).
Defined.
