(* ===== verification/FileLocks.v ===== *)
(** * POSIX record locks ([fuse3/src/file_lock.rs])

    The conversions between the core's [FileLock] and the C [struct flock]
    (x86-64 Linux widths: 16-bit type and whence, 64-bit offsets, 32-bit pid),
    and the two [fcntl] helpers built on them. *)

From S2P Require Import Prelude Types.

Record flock := mkFlock {
  l_type : Z; l_whence : Z; l_start : Z; l_len : Z; l_pid : Z;
}.

#[export] Instance flock_eq_dec : EqDecision flock.
Proof. solve_decision. Defined.

Definition is_i16 (x : Z) : Prop := -32768 ≤ x ≤ 32767.

Definition flock_wf (r : flock) : Prop :=
  is_i16 (l_type r) ∧ is_i16 (l_whence r) ∧ is_i64 (l_start r) ∧ is_i64 (l_len r) ∧ is_i32 (l_pid r).

(** Integer conversions with [try_from]. *)
Definition off_t_try_from (x : Z) : option Z := if decide (x ≤ i64_max) then Some x else None.
Definition pid_t_try_from (x : Z) : option Z := if decide (x ≤ i32_max) then Some x else None.
Definition u32_try_from_i32 (x : Z) : option Z := if decide (0 ≤ x) then Some x else None.

Section file_lock.
Context `{Libc}.

(** The constants restated at the width of the fields. *)
Definition F_RDLCK : Z := as_signed 16 libc_F_RDLCK.
Definition F_WRLCK : Z := as_signed 16 libc_F_WRLCK.
Definition F_UNLCK : Z := as_signed 16 libc_F_UNLCK.
Definition SEEK_SET : Z := as_signed 16 libc_SEEK_SET.
Definition EOVERFLOW : Errno := from_raw libc_EOVERFLOW.

Definition lock_type (kind : LockKind) : Z :=
  match kind with LockRead => F_RDLCK | LockWrite => F_WRLCK | LockUnlock => F_UNLCK end.

Definition to_flock (lock : FileLock) : Result Errno flock :=
  let '(mkFileLock kind start end_ pid) := lock in
  if end_ <? start then Err EINVAL else
  let l_type := lock_type kind in
  match off_t_try_from start with
  | None => Err EOVERFLOW
  | Some l_start =>
      Result_bind
        (if end_ =? u64_max then Ok 0
         else
           match checked_sub end_ start ≫= λ n, checked_add u64_max n 1 with
           | None => Err EOVERFLOW
           | Some length => ok_or (off_t_try_from length) EOVERFLOW
           end)
        (λ l_len,
           Result_bind (ok_or (pid_t_try_from pid) EOVERFLOW)
             (λ l_pid, Ok (mkFlock l_type SEEK_SET l_start l_len l_pid)))
  end.

Definition from_flock (raw : flock) : Result Errno FileLock :=
  if negb (l_whence raw =? SEEK_SET) || (l_start raw <? 0) || (l_len raw <? 0) then Err EINVAL
  else
    Result_bind
      (if l_type raw =? F_RDLCK then Ok LockRead
       else if l_type raw =? F_WRLCK then Ok LockWrite
       else if l_type raw =? F_UNLCK then Ok LockUnlock
       else Err EINVAL)
      (λ kind,
         let start := as_u64 (l_start raw) in
         Result_bind
           (if l_len raw =? 0 then Ok u64_max
            else ok_or (checked_add u64_max start (as_u64 (l_len raw) - 1)) EINVAL)
           (λ end_,
              Ok (mkFileLock kind start end_ (default 0 (u32_try_from_i32 (l_pid raw)))))).

(** ** The [fcntl] helpers

    [fcntl] is the system call: given the command and the lock it may change
    the system's state and the lock in place, or fail with an error number. *)
Inductive fcntl_cmd := F_GETLK | F_SETLK | F_SETLKW.

Section fcntl.
Context {OS Fd : Type} (fcntl : Fd → fcntl_cmd → flock → M OS (Result Errno flock)).

Definition getlk (fd : Fd) (requested : FileLock) : M OS (Result Errno FileLock) :=
  lock ←? mret (to_flock requested);
  lock' ←? fcntl fd F_GETLK lock;
  mret (from_flock lock').

Definition setlk (fd : Fd) (requested : FileLock) (block : bool) : M OS (Result Errno unit) :=
  lock ←? mret (to_flock requested);
  let command := if block then F_SETLKW else F_SETLK in
  _ ←? fcntl fd command lock;
  mret (Ok tt).
End fcntl.
End file_lock.

(** The lock types are distinct at the width of the field. *)
Class LibcLockOk `{Libc} : Prop := {
  lock_type_inj : ∀ k k', lock_type k = lock_type k' → k = k';
}.

#[export] Instance linux_lock_ok : LibcLockOk.
Proof. split. intros [] [] Heq; first [done | vm_compute in Heq; discriminate]. Qed.

Section lock_facts.
Context `{LibcLockOk}.

Lemma decode_lock_type k :
  (if lock_type k =? F_RDLCK then Ok LockRead
   else if lock_type k =? F_WRLCK then Ok LockWrite
   else if lock_type k =? F_UNLCK then Ok LockUnlock
   else Err EINVAL) = (Ok k : Result Errno LockKind).
Proof.
  repeat match goal with
  | |- context [lock_type k =? ?b] =>
      destruct (Z.eqb_spec (lock_type k) b) as [?|?]; cbv iota;
      [f_equal; symmetry; by apply lock_type_inj|]
  end.
  exfalso. destruct k; match goal with Hne : lock_type _ ≠ _ |- _ => exact (Hne eq_refl) end.
Qed.

(** Which requests [to_flock] accepts. *)
Definition lock_representable (l : FileLock) : Prop :=
  fl_start l ≤ fl_end l ∧ fl_start l ≤ i64_max ∧ fl_pid l ≤ i32_max ∧
  (fl_end l = u64_max ∨ fl_end l - fl_start l + 1 ≤ i64_max).

Definition lock_len (l : FileLock) : Z :=
  if fl_end l =? u64_max then 0 else fl_end l - fl_start l + 1.

(** C33: [to_flock] on every branch: an inverted range is [EINVAL]; a start,
    length or pid outside the C field is [EOVERFLOW]; every other request is
    converted exactly, the end of file being spelled as length 0. *)
Theorem to_flock_spec (l : FileLock) (Hl : FileLock_wf l) :
  (fl_end l < fl_start l ∧ to_flock l = Err EINVAL) ∨
  (fl_start l ≤ fl_end l ∧ ¬ lock_representable l ∧ to_flock l = Err EOVERFLOW) ∨
  (lock_representable l ∧
   to_flock l = Ok (mkFlock (lock_type (fl_kind l)) SEEK_SET (fl_start l) (lock_len l) (fl_pid l))).
Proof.
  destruct l as [k s e p], Hl as (Hs & He & Hp).
  unfold to_flock, lock_representable, lock_len, off_t_try_from, pid_t_try_from, checked_sub in *;
    simpl in *.
  destruct (Z.ltb_spec e s); [by left|].
  right. case_decide; [|left; split_and!; [done|int_lia|done]].
  destruct (Z.eqb_spec e u64_max) as [->|Hne]; simpl.
  - case_decide; simpl; [right; split_and!; auto; int_lia | left; split_and!; [done|int_lia|done]].
  - rewrite decide_True by done; simpl. unfold checked_add.
    rewrite decide_True by int_lia.
    case_decide; simpl; [|left; split_and!; [done|int_lia|done]].
    case_decide; simpl; [right; split_and!; auto; int_lia | left; split_and!; [done|int_lia|done]].
Qed.

Lemma from_flock_to_flock l r : FileLock_wf l → to_flock l = Ok r → from_flock r = Ok l.
Proof.
  intros Hl Hto.
  destruct (to_flock_spec l Hl) as [[_ He]|[(_ & _ & He)|[Hrep Hok]]]; [congruence..|].
  rewrite Hok in Hto. injection Hto as <-.
  destruct l as [k s e p], Hl as (Hs & He & Hp), Hrep as (Hse & Hs' & Hp' & Hlen).
  unfold from_flock, lock_len, u32_try_from_i32; simpl in *.
  rewrite Z.eqb_refl, decode_lock_type; simpl.
  rewrite as_u64_small by done.
  destruct (Z.eqb_spec e u64_max) as [->|Hne]; simpl.
  + rewrite (proj2 (Z.ltb_ge s 0)) by int_lia. simpl.
    rewrite decide_True by int_lia. done.
  + rewrite !(proj2 (Z.ltb_ge _ 0)) by int_lia. simpl.
    destruct (Z.eqb_spec (e - s + 1) 0); [lia|].
    rewrite as_u64_small by int_lia.
    unfold checked_add. rewrite decide_True by int_lia. simpl.
    rewrite decide_True by int_lia. simpl. do 2 f_equal. lia.
Qed.

Lemma to_flock_from_flock r l :
  flock_wf r → from_flock r = Ok l →
  to_flock l = Ok (mkFlock (l_type r) (l_whence r) (l_start r) (l_len r) (Z.max 0 (l_pid r))).
Proof.
  intros Hr Hfrom. destruct r as [t w s n p], Hr as (Ht & Hw & Hs & Hn & Hp).
  unfold from_flock in Hfrom; simpl in *.
  destruct (Z.eqb_spec w SEEK_SET) as [->|]; [|done].
  destruct (Z.ltb_spec s 0); [done|]. destruct (Z.ltb_spec n 0); [done|]. simpl in Hfrom.
  assert (∃ k, t = lock_type k ∧
    Result_bind (if n =? 0 then Ok u64_max
       else ok_or (checked_add u64_max (as_u64 s) (as_u64 n - 1)) EINVAL)
      (λ e, Ok (mkFileLock k (as_u64 s) e (default 0 (u32_try_from_i32 p)))) = Ok l)
    as (k & -> & Hbody).
  { destruct (Z.eqb_spec t F_RDLCK) as [->|]; [by exists LockRead|].
    destruct (Z.eqb_spec t F_WRLCK) as [->|]; [by exists LockWrite|].
    destruct (Z.eqb_spec t F_UNLCK) as [->|]; [by exists LockUnlock|]. done. }
  assert (default 0 (u32_try_from_i32 p) = Z.max 0 p) as Hpid.
  { unfold u32_try_from_i32. case_decide; simpl; lia. }
  rewrite Hpid in Hbody. rewrite as_u64_small in Hbody by int_lia.
  unfold to_flock, off_t_try_from, pid_t_try_from, checked_sub.
  destruct (Z.eqb_spec n 0) as [->|Hne]; simpl in Hbody.
  + injection Hbody as <-. rewrite (proj2 (Z.ltb_ge _ _)) by int_lia.
    rewrite !decide_True by int_lia. done.
  + rewrite as_u64_small in Hbody by int_lia.
    unfold checked_add in *. rewrite decide_True in Hbody by int_lia.
    simpl in Hbody. injection Hbody as <-.
    rewrite (proj2 (Z.ltb_ge _ _)) by int_lia.
    rewrite (decide_True (P := s ≤ i64_max)) by int_lia.
    destruct (Z.eqb_spec (s + (n - 1)) u64_max); [int_lia|].
    rewrite (decide_True (P := s ≤ s + (n - 1))) by lia. simpl.
    rewrite decide_True by int_lia. simpl.
    rewrite decide_True by int_lia. simpl.
    rewrite decide_True by int_lia. simpl. do 2 f_equal. lia.
Qed.

(** C34: the two conversions are inverse to each other wherever they succeed:
    a request that converts comes back unchanged, and a C lock that is
    accepted converts back to itself, except that a negative pid (an open file
    description lock) has become pid 0. *)
Theorem flock_roundtrip (l l' : FileLock) (r r' : flock)
    (Hl : FileLock_wf l) (Hto : to_flock l = Ok r)
    (Hr' : flock_wf r') (Hfrom : from_flock r' = Ok l') :
  from_flock r = Ok l ∧
  to_flock l' =
    Ok (mkFlock (l_type r') (l_whence r') (l_start r') (l_len r') (Z.max 0 (l_pid r'))).
Proof. eauto using from_flock_to_flock, to_flock_from_flock. Qed.
End lock_facts.

Example to_flock_spec_witness :
  FileLock_wf (mkFileLock LockRead 7 19 42) ∧
  to_flock (mkFileLock LockRead 7 19 42) = Ok (mkFlock 0 0 7 13 42).
Proof.
  assert (FileLock_wf (mkFileLock LockRead 7 19 42)) as Hl
    by (vm_compute; repeat split; congruence).
  split; [exact Hl|].
  destruct (to_flock_spec (mkFileLock LockRead 7 19 42) Hl) as [[Hlt _]|[(_ & _ & He)|[_ Hok]]].
  - exfalso. vm_compute in Hlt. discriminate.
  - exfalso. vm_compute in He. discriminate.
  - exact Hok.
Defined.

Example flock_roundtrip_witness :
  from_flock (mkFlock 0 0 7 13 42) = Ok (mkFileLock LockRead 7 19 42) ∧
  to_flock (mkFileLock LockUnlock 20 u64_max 0) = Ok (mkFlock 2 0 20 0 0).
Proof.
  assert (FileLock_wf (mkFileLock LockRead 7 19 42)) as Hl
    by (vm_compute; repeat split; congruence).
  assert (flock_wf (mkFlock 2 0 20 0 (-1))) as Hr by (vm_compute; repeat split; congruence).
  exact (flock_roundtrip (mkFileLock LockRead 7 19 42) (mkFileLock LockUnlock 20 u64_max 0)
           (mkFlock 0 0 7 13 42) (mkFlock 2 0 20 0 (-1)) Hl eq_refl Hr eq_refl).
Defined.
