(* ===== verification/NodeTable.v ===== *)
(** * The node table ([typed_fuse_core/src/runtime.rs], first part)

    [NodeTable] with its inode allocator, the node leases ([NodeRef]) and the
    critical sections of [Cx] and [Runtime] that touch the table.  Each of
    these holds the table's mutex from its first access to its last, so one
    definition of this file is one atomic step of the concurrent program. *)

From S2P Require Import Prelude Types.

(** ** Data *)

Record NodeRecord (N : Type) := mkNodeRecord { payload : N }.
Arguments mkNodeRecord {N}.
Arguments payload {N}.

(** [Arc<T>]: a shared object with its address, which [Arc::ptr_eq] compares. *)
Record Arc (A : Type) := mkArc { arc_addr : Z; arc_val : A }.
Arguments mkArc {A}.
Arguments arc_addr {A}.
Arguments arc_val {A}.

Definition ptr_eq {A} (a b : Arc A) : bool := arc_addr a =? arc_addr b.

Record Slot (N : Type) := mkSlot {
  slot_record : Arc (NodeRecord N);
  slot_generation : Z;
  slot_links : Z;
  slot_lookups : Z;
  slot_opens : Z;
  slot_leases : Z;
  slot_parent : NodeId;
}.
Arguments mkSlot {N}.
Arguments slot_record {N}.
Arguments slot_generation {N}.
Arguments slot_links {N}.
Arguments slot_lookups {N}.
Arguments slot_opens {N}.
Arguments slot_leases {N}.
Arguments slot_parent {N}.

Definition droppable {N} (s : Slot N) : bool :=
  (slot_links s =? 0) && (slot_lookups s =? 0) && (slot_opens s =? 0) && (slot_leases s =? 0).

(** [free] is the Rust vector with its end first: [push] conses. *)
Record NodeTable (N : Type) := mkNodeTable {
  tbl_map : gmap Z (Slot N);
  tbl_next_ino : Z;
  tbl_free : list (Z * Z);
}.
Arguments mkNodeTable {N}.
Arguments tbl_map {N}.
Arguments tbl_next_ino {N}.
Arguments tbl_free {N}.

(** A [NodeRef] keeps the id it was obtained for and the record. *)
Record NodeRef (N : Type) := mkNodeRef { nr_id : NodeId; nr_record : Arc (NodeRecord N) }.
Arguments mkNodeRef {N}.
Arguments nr_id {N}.
Arguments nr_record {N}.

(** [Shared] is the mutex-protected table.  The model adds the allocator of
    record addresses and the collection of the [NodeRef] values that are alive
    anywhere in the program, under keys that are never reused; owning a
    [NodeRef] is holding its key. *)
Record Shared (N : Type) := mkShared {
  sh_table : NodeTable N;
  sh_next_addr : Z;
  sh_refs : gmap nat (NodeRef N);
  sh_next_ref : nat;
}.
Arguments mkShared {N}.
Arguments sh_table {N}.
Arguments sh_next_addr {N}.
Arguments sh_refs {N}.
Arguments sh_next_ref {N}.

Record LiveRef (N : Type) := mkLiveRef { lr_key : nat; lr_ref : NodeRef N }.
Arguments mkLiveRef {N}.
Arguments lr_key {N}.
Arguments lr_ref {N}.

Section node_table.
Context {N : Type}.
Implicit Types (t : NodeTable N) (s : Slot N) (sh : Shared N).

(** Field updates. *)
Definition with_links v s : Slot N := mkSlot (slot_record s) (slot_generation s) v (slot_lookups s) (slot_opens s) (slot_leases s) (slot_parent s).
Definition with_lookups v s : Slot N := mkSlot (slot_record s) (slot_generation s) (slot_links s) v (slot_opens s) (slot_leases s) (slot_parent s).
Definition with_opens v s : Slot N := mkSlot (slot_record s) (slot_generation s) (slot_links s) (slot_lookups s) v (slot_leases s) (slot_parent s).
Definition with_leases v s : Slot N := mkSlot (slot_record s) (slot_generation s) (slot_links s) (slot_lookups s) (slot_opens s) v (slot_parent s).
Definition with_parent v s : Slot N := mkSlot (slot_record s) (slot_generation s) (slot_links s) (slot_lookups s) (slot_opens s) (slot_leases s) v.

Definition with_map (m : gmap Z (Slot N)) t : NodeTable N := mkNodeTable m (tbl_next_ino t) (tbl_free t).
Definition with_table t sh : Shared N := mkShared t (sh_next_addr sh) (sh_refs sh) (sh_next_ref sh).
Definition set_slot (id : Z) s t : NodeTable N := with_map (<[id := s]> (tbl_map t)) t.

(** ** [impl NodeTable] *)

Definition NodeTable_new : NodeTable N := mkNodeTable ∅ 2 [].

(** [next_ino += 1] wraps in a release build. *)
Definition alloc t : (Z * Z) * NodeTable N :=
  match tbl_free t with
  | top :: rest => (top, mkNodeTable (tbl_map t) (tbl_next_ino t) rest)
  | [] =>
      let ino := tbl_next_ino t in
      ((ino, 0), mkNodeTable (tbl_map t) (wrapping_add64 ino 1) [])
  end.

Definition maybe_drop (id : NodeId) t : NodeTable N :=
  match tbl_map t !! id with
  | Some s =>
      if droppable s then
        mkNodeTable (delete id (tbl_map t)) (tbl_next_ino t)
          ((id, wrapping_add64 (slot_generation s) 1) :: tbl_free t)
      else t
  | None => t
  end.

(** ** [impl Drop for NodeRef] *)

Definition ref_drop (k : nat) : M (Shared N) unit := λ sh,
  match sh_refs sh !! k with
  | None => (Returned tt, sh)
  | Some r =>
      let t := sh_table sh in
      let t' :=
        match tbl_map t !! nr_id r with
        | Some s =>
            if ptr_eq (slot_record s) (nr_record r)
            then set_slot (nr_id r) (with_leases (saturating_sub (slot_leases s) 1) s) t
            else t
        | None => t
        end in
      (Returned tt,
       mkShared (maybe_drop (nr_id r) t') (sh_next_addr sh) (delete k (sh_refs sh)) (sh_next_ref sh))
  end.

(** ** [impl Cx] *)

Definition cx_get (id : NodeId) : M (Shared N) (option (LiveRef N)) := λ sh,
  let t := sh_table sh in
  match tbl_map t !! id with
  | None => (Returned None, sh)
  | Some s =>
      match checked_add u32_max (slot_leases s) 1 with
      | None => (Panicked, sh)
      | Some leases =>
          let r := mkNodeRef id (slot_record s) in
          (Returned (Some (mkLiveRef (sh_next_ref sh) r)),
           mkShared (set_slot id (with_leases leases s) t) (sh_next_addr sh)
             (<[sh_next_ref sh := r]> (sh_refs sh)) (S (sh_next_ref sh)))
      end
  end.

Definition cx_contains (id : NodeId) : M (Shared N) bool :=
  gets (λ sh, bool_decide (is_Some (tbl_map (sh_table sh) !! id))).

Definition cx_insert (p : N) (parent : NodeId) : M (Shared N) NodeId := λ sh,
  let '((ino, generation), t) := alloc (sh_table sh) in
  let record := mkArc (sh_next_addr sh) (mkNodeRecord p) in
  (Returned ino,
   mkShared (set_slot ino (mkSlot record generation 1 0 0 0 parent) t)
     (sh_next_addr sh + 1) (sh_refs sh) (sh_next_ref sh)).

Definition cx_reparent (id new_parent : NodeId) : M (Shared N) unit := λ sh,
  match tbl_map (sh_table sh) !! id with
  | Some s => (Returned tt, with_table (set_slot id (with_parent new_parent s) (sh_table sh)) sh)
  | None => (Returned tt, sh)
  end.

Definition cx_add_link (id : NodeId) : M (Shared N) unit := λ sh,
  match tbl_map (sh_table sh) !! id with
  | Some s =>
      match checked_add u32_max (slot_links s) 1 with
      | Some links => (Returned tt, with_table (set_slot id (with_links links s) (sh_table sh)) sh)
      | None => (Panicked, sh)
      end
  | None => (Returned tt, sh)
  end.

Definition cx_remove_link (id : NodeId) : M (Shared N) unit := λ sh,
  let t := sh_table sh in
  let t' := match tbl_map t !! id with
            | Some s => set_slot id (with_links (saturating_sub (slot_links s) 1) s) t
            | None => t
            end in
  (Returned tt, with_table (maybe_drop id t') sh).

(** ** The table's critical sections inside [impl Runtime] *)

Section errors.
Context `{Libc}.

(** The end of [entry_for]: take the generation and count a lookup. *)
Definition take_lookup (id : NodeId) : M (Shared N) (Result Errno Z) := λ sh,
  match tbl_map (sh_table sh) !! id with
  | None => (Returned (Err ENOENT), sh)
  | Some s =>
      match checked_add u64_max (slot_lookups s) 1 with
      | None => (Panicked, sh)
      | Some lookups =>
          (Returned (Ok (slot_generation s)),
           with_table (set_slot id (with_lookups lookups s) (sh_table sh)) sh)
      end
  end.

Definition retain_lookup (id : NodeId) : M (Shared N) (Result Errno unit) := λ sh,
  match tbl_map (sh_table sh) !! id with
  | None => (Returned (Err ENOENT), sh)
  | Some s =>
      match checked_add u64_max (slot_lookups s) 1 with
      | None => (Panicked, sh)
      | Some lookups =>
          (Returned (Ok tt),
           with_table (set_slot id (with_lookups lookups s) (sh_table sh)) sh)
      end
  end.

Definition add_open (ino : Z) : M (Shared N) (Result Errno unit) := λ sh,
  match tbl_map (sh_table sh) !! ino with
  | None => (Returned (Err ENOENT), sh)
  | Some s =>
      match checked_add u32_max (slot_opens s) 1 with
      | None => (Panicked, sh)
      | Some opens =>
          (Returned (Ok tt), with_table (set_slot ino (with_opens opens s) (sh_table sh)) sh)
      end
  end.

Definition read_generation (id : NodeId) : M (Shared N) (Result Errno Z) :=
  gets (λ sh, ok_or (slot_generation <$> tbl_map (sh_table sh) !! id) ENOENT).

Definition read_parent (ino : Z) : M (Shared N) (Result Errno NodeId) :=
  gets (λ sh, ok_or (slot_parent <$> tbl_map (sh_table sh) !! ino) ENOENT).
End errors.

Definition forget (ino nlookup : Z) : M (Shared N) unit := λ sh,
  let t := sh_table sh in
  let t' := match tbl_map t !! ino with
            | Some s => set_slot ino (with_lookups (saturating_sub (slot_lookups s) nlookup) s) t
            | None => t
            end in
  (Returned tt, with_table (maybe_drop ino t') sh).

Definition remove_open (ino : Z) : M (Shared N) unit := λ sh,
  let t := sh_table sh in
  let t' := match tbl_map t !! ino with
            | Some s => set_slot ino (with_opens (saturating_sub (slot_opens s) 1) s) t
            | None => t
            end in
  (Returned tt, with_table (maybe_drop ino t') sh).

(** The table a runtime starts with: the root at inode 1, held by one link. *)
Definition Shared_init (root : N) : Shared N :=
  let t := NodeTable_new in
  let record := mkArc 0 (mkNodeRecord root) in
  mkShared (set_slot 1 (mkSlot record 0 1 0 0 0 ROOT) t) 1 ∅ 0.
End node_table.

#[global] Arguments with_map {N} m t /.
#[global] Arguments with_table {N} t sh /.
#[global] Arguments set_slot {N} id s t /.

(** ** The atomic steps as data

    Everything the program can do to the table, from any thread. *)
Inductive table_op (N : Type) :=
| OpGet (id : NodeId)
| OpDropRef (k : nat)
| OpInsert (p : N) (parent : NodeId)
| OpReparent (id parent : NodeId)
| OpAddLink (id : NodeId)
| OpRemoveLink (id : NodeId)
| OpLookup (id : NodeId)
| OpForget (id : NodeId) (nlookup : Z)
| OpAddOpen (id : NodeId)
| OpRemoveOpen (id : NodeId).
Arguments OpGet {N}.
Arguments OpDropRef {N}.
Arguments OpInsert {N}.
Arguments OpReparent {N}.
Arguments OpAddLink {N}.
Arguments OpRemoveLink {N}.
Arguments OpLookup {N}.
Arguments OpForget {N}.
Arguments OpAddOpen {N}.
Arguments OpRemoveOpen {N}.

Section steps.
Context {N : Type} `{Libc}.

Definition exec_op (op : table_op N) (sh : Shared N) : Shared N :=
  match op with
  | OpGet id => (cx_get id sh).2
  | OpDropRef k => (ref_drop k sh).2
  | OpInsert p parent => (cx_insert p parent sh).2
  | OpReparent id parent => (cx_reparent id parent sh).2
  | OpAddLink id => (cx_add_link id sh).2
  | OpRemoveLink id => (cx_remove_link id sh).2
  | OpLookup id => (take_lookup id sh).2
  | OpForget id n => (forget id n sh).2
  | OpAddOpen id => (add_open id sh).2
  | OpRemoveOpen id => (remove_open id sh).2
  end.

(** A [u64] argument is a [u64]. *)
Definition op_wf (op : table_op N) : Prop :=
  match op with OpForget _ n => 0 ≤ n | _ => True end.

(** The identity (inode, generation) an operation hands out. *)
Definition op_issues (op : table_op N) (sh : Shared N) : list (Z * Z) :=
  match op with
  | OpInsert _ _ => [(alloc (sh_table sh)).1]
  | _ => []
  end.

(** [reach root n issued sh]: [sh] is reachable from the initial table in
    exactly [n] atomic steps, in any interleaving, and [issued] lists the
    identities handed out on the way, the latest first. *)
Inductive reach (root : N) : Z → list (Z * Z) → Shared N → Prop :=
| reach_init : reach root 0 [(1, 0)] (Shared_init root)
| reach_step n issued sh op :
    reach root n issued sh → op_wf op →
    reach root (n + 1) (op_issues op sh ++ issued) (exec_op op sh).

Fixpoint run_ops (ops : list (table_op N)) (sh : Shared N) : Shared N :=
  match ops with
  | [] => sh
  | op :: ops => run_ops ops (exec_op op sh)
  end.

(** The identities a run hands out, the latest first. *)
Fixpoint run_issues (ops : list (table_op N)) (sh : Shared N) : list (Z * Z) :=
  match ops with
  | [] => []
  | op :: ops => run_issues ops (exec_op op sh) ++ op_issues op sh
  end.

(** Code that touches the table only through the atomic steps. *)
Definition tsteps (sh sh' : Shared N) : Prop := ∃ ops, Forall op_wf ops ∧ sh' = run_ops ops sh.

Lemma run_ops_app ops1 ops2 sh : run_ops (ops1 ++ ops2) sh = run_ops ops2 (run_ops ops1 sh).
Proof. revert sh. induction ops1; simpl; auto. Qed.

Lemma tsteps_refl sh : tsteps sh sh.
Proof. by exists []. Qed.

Lemma tsteps_trans sh1 sh2 sh3 : tsteps sh1 sh2 → tsteps sh2 sh3 → tsteps sh1 sh3.
Proof.
  intros (ops1 & ? & ->) (ops2 & ? & ->). exists (ops1 ++ ops2).
  split; [by apply Forall_app|]. by rewrite run_ops_app.
Qed.

Lemma tsteps_op op sh : op_wf op → tsteps sh (exec_op op sh).
Proof. intros. exists [op]. split; [by constructor|done]. Qed.

#[export] Instance tsteps_preorder : PreOrder tsteps.
Proof. split; [intros sh; apply tsteps_refl|intros sh1 sh2 sh3; apply tsteps_trans]. Qed.

Lemma reach_run root n issued sh ops :
  reach root n issued sh → Forall op_wf ops →
  reach root (n + Z.of_nat (length ops)) (run_issues ops sh ++ issued) (run_ops ops sh).
Proof.
  intros Hr Hops. revert n issued sh Hr.
  induction Hops as [|op ops Hop Hops IH]; intros n issued sh Hr; simpl.
  - by rewrite Z.add_0_r.
  - replace (n + Z.of_nat (S (length ops))) with (n + 1 + Z.of_nat (length ops)) by lia.
    rewrite <- app_assoc. apply IH. by constructor.
Qed.
End steps.

#[export] Hint Resolve tsteps_refl tsteps_op : fuse.
