(* ===== verification/NodeTableInv.v ===== *)
(** * Safety of the node table

    The invariant of the table under every interleaving of its atomic steps,
    and its consequences: inode identities are never reused, a lease pins its
    node, a node is reclaimed exactly when its last reference goes, and no
    inode number is lost. *)

From S2P Require Import Prelude Types NodeTable.

Section invariant.
Context {N : Type} `{Libc}.
Implicit Types (t : NodeTable N) (s : Slot N) (sh : Shared N) (r : NodeRef N).

(** The counters at the width of their fields. *)
Definition slot_bounds s : Prop :=
  is_u32 (slot_links s) ∧ is_u64 (slot_lookups s) ∧ is_u32 (slot_opens s) ∧ is_u32 (slot_leases s).

(** The number of live leases on [id]. *)
Definition lease_count (id : NodeId) sh : Z := count_map (λ r, nr_id r = id) (sh_refs sh).

(** [inv_but ex n issued sh]: the invariant after at most [n] steps, where the
    slot [ex], if any, may be waiting for its [maybe_drop]. *)
Record inv_but (ex : option Z) (n : Z) (issued : list (Z * Z)) sh : Prop := {
  inv_next : 2 ≤ tbl_next_ino (sh_table sh) ≤ n + 2;
  inv_live : ∀ i s, tbl_map (sh_table sh) !! i = Some s →
    1 ≤ i < tbl_next_ino (sh_table sh) ∧ slot_bounds s ∧ 0 ≤ slot_generation s ≤ n;
  inv_clean : ∀ i s, tbl_map (sh_table sh) !! i = Some s → ex ≠ Some i → droppable s = false;
  inv_free : ∀ i g, (i, g) ∈ tbl_free (sh_table sh) →
    1 ≤ i < tbl_next_ino (sh_table sh) ∧ tbl_map (sh_table sh) !! i = None ∧ 0 ≤ g ≤ n;
  inv_free_nodup : NoDup (tbl_free (sh_table sh)).*1;
  inv_cover : ∀ i, 1 ≤ i < tbl_next_ino (sh_table sh) →
    is_Some (tbl_map (sh_table sh) !! i) ∨ i ∈ (tbl_free (sh_table sh)).*1;
  inv_leases : ∀ i s, tbl_map (sh_table sh) !! i = Some s → slot_leases s = lease_count i sh;
  inv_refs : ∀ k r, sh_refs sh !! k = Some r →
    (k < sh_next_ref sh)%nat ∧
    ∃ s, tbl_map (sh_table sh) !! nr_id r = Some s ∧ slot_record s = nr_record r;
  inv_addr : ∀ i s, tbl_map (sh_table sh) !! i = Some s →
    arc_addr (slot_record s) < sh_next_addr sh;
  inv_addr_inj : ∀ i j s s', tbl_map (sh_table sh) !! i = Some s →
    tbl_map (sh_table sh) !! j = Some s' →
    arc_addr (slot_record s) = arc_addr (slot_record s') → i = j;
  inv_issued_live : ∀ i s, tbl_map (sh_table sh) !! i = Some s →
    (i, slot_generation s) ∈ issued ∧ (∀ g, (i, g) ∈ issued → g ≤ slot_generation s);
  inv_issued_free : ∀ i g g', (i, g) ∈ tbl_free (sh_table sh) → (i, g') ∈ issued → g' < g;
  inv_issued : ∀ i g, (i, g) ∈ issued → i < tbl_next_ino (sh_table sh);
  inv_issued_nodup : NoDup issued;
  inv_lookups : ∀ i s, tbl_map (sh_table sh) !! i = Some s → slot_lookups s ≤ n;
}.

Abbreviation inv := (inv_but None).

Lemma inv_relax ex n n' issued sh : n ≤ n' → inv n issued sh → inv_but ex n' issued sh.
Proof.
  intros Hn []. split; try done.
  - lia.
  - intros i s Hi. specialize (inv_live0 i s Hi) as (? & ? & ?). split_and!; solve [done | lia].
  - intros i s Hi _. by eapply inv_clean0.
  - intros i g Hi. specialize (inv_free0 i g Hi) as (? & ? & ?). split_and!; solve [done | lia].
  - intros i s Hi. specialize (inv_lookups0 i s Hi). lia.
Qed.

(** Changing the counters (or the parent) of one slot. *)
Lemma inv_set_slot n issued sh id s s' :
  inv n issued sh → tbl_map (sh_table sh) !! id = Some s →
  slot_record s' = slot_record s → slot_generation s' = slot_generation s →
  slot_leases s' = slot_leases s → slot_bounds s' → slot_lookups s' ≤ n →
  inv_but (Some id) n issued (with_table (set_slot id s' (sh_table sh)) sh).
Proof.
  intros [] Hs Hrec Hgen Hleases Hb Hlook. split; simpl; try done.
  - intros i x. rewrite lookup_insert. case_decide; [subst|by eauto].
    intros [= <-]. rewrite Hgen. specialize (inv_live0 i s Hs) as (? & ? & ?). done.
  - intros i x. rewrite lookup_insert. case_decide; [subst; congruence|by eauto].
  - intros i g Hi. specialize (inv_free0 i g Hi) as (? & ? & ?). split_and!; simpl; try done; try lia.
    rewrite lookup_insert_ne; [done|]. intros ->. congruence.
  - intros i Hi. rewrite lookup_insert. case_decide; eauto.
  - intros i x. rewrite lookup_insert. case_decide; [subst|by eauto].
    intros [= <-]. rewrite Hleases. by eauto.
  - intros k r Hr. specialize (inv_refs0 k r Hr) as (? & x & Hx & Hxr). split; [done|].
    rewrite lookup_insert. case_decide; [subst|by eauto].
    exists s'. split; [done|]. rewrite Hs in Hx. injection Hx as <-. congruence.
  - intros i x. rewrite lookup_insert. case_decide; [subst|by eauto].
    intros [= <-]. rewrite Hrec. by eauto.
  - intros i j x y. rewrite !lookup_insert. repeat case_decide; subst; try done.
    + intros [= <-] Hy. rewrite Hrec. by eauto.
    + intros Hx [= <-]. rewrite Hrec. by eauto.
    + by eauto.
  - intros i x. rewrite lookup_insert. case_decide; [subst|by eauto].
    intros [= <-]. rewrite Hgen. by eauto.
  - intros i x. rewrite lookup_insert. case_decide; [by intros [= <-]|by eauto].
Qed.

(** A slot that is still referenced needs no [maybe_drop]. *)
Lemma inv_settle n issued sh id s :
  inv_but (Some id) n issued sh → tbl_map (sh_table sh) !! id = Some s → droppable s = false →
  inv n issued sh.
Proof.
  intros [] Hs Hd. split; try done.
  intros i x Hx _. destruct (decide (i = id)) as [->|Hne]; [congruence|].
  eapply inv_clean0; [done|congruence].
Qed.

Lemma inv_settle_absent n issued sh id :
  inv_but (Some id) n issued sh → tbl_map (sh_table sh) !! id = None → inv n issued sh.
Proof.
  intros [] Hs. split; try done.
  intros i x Hx _. eapply inv_clean0; [done|congruence].
Qed.

Lemma droppable_true s :
  droppable s = true ↔
  slot_links s = 0 ∧ slot_lookups s = 0 ∧ slot_opens s = 0 ∧ slot_leases s = 0.
Proof. unfold droppable. rewrite !andb_true_iff, !Z.eqb_eq. tauto. Qed.

Lemma inv_maybe_drop n issued sh id :
  n < u64_max → inv_but (Some id) n issued sh →
  inv (n + 1) issued (with_table (maybe_drop id (sh_table sh)) sh).
Proof.
  intros Hn Hinv. unfold maybe_drop.
  destruct (tbl_map (sh_table sh) !! id) as [s|] eqn:Hs; cycle 1.
  { apply inv_relax with n; [lia|]. destruct sh; simpl in *. by eapply inv_settle_absent. }
  destruct (droppable s) eqn:Hd; cycle 1.
  { apply inv_relax with n; [lia|]. destruct sh; simpl in *. by eapply inv_settle. }
  apply droppable_true in Hd as (_ & _ & _ & Hl).
  destruct Hinv.
  specialize (inv_live0 id s Hs) as Hlive. destruct Hlive as (Hid & _ & Hg).
  rewrite wrapping_add64_small by int_lia.
  assert (∀ k r, sh_refs sh !! k = Some r → nr_id r ≠ id) as Hnoref.
  { intros k r Hr Heq. specialize (inv_leases0 id s Hs).
    pose proof (count_map_pos (λ r, nr_id r = id) (sh_refs sh) k r Hr Heq).
    unfold lease_count in inv_leases0. lia. }
  split; simpl.
  - lia.
  - intros i x. rewrite lookup_delete. case_decide; [done|].
    intros Hx. specialize (inv_live0 i x Hx) as (? & ? & ?). split_and!; solve [done | lia].
  - intros i x. rewrite lookup_delete. case_decide; [done|]. intros Hx _.
    eapply inv_clean0; [done|congruence].
  - intros i g [[= -> ->]|Hi]%elem_of_cons.
    + rewrite lookup_delete_eq. split_and!; solve [done | lia].
    + specialize (inv_free0 i g Hi) as (? & ? & ?). split_and!; simpl; try done; try lia.
      rewrite lookup_delete. by case_decide.
  - constructor; [|done]. intros (p & Heq & Hp)%list_elem_of_fmap. destruct p as [i g]; simpl in *.
    subst i. specialize (inv_free0 id g Hp) as (_ & ? & _). congruence.
  - intros i Hi. rewrite lookup_delete. case_decide; [subst; right; by left|].
    destruct (inv_cover0 i Hi) as [?|?]; [by left|right; by right].
  - intros i x. rewrite lookup_delete. case_decide; [done|]. by eauto.
  - intros k r Hr. specialize (inv_refs0 k r Hr) as (? & x & Hx & ?). split; [done|].
    exists x. rewrite lookup_delete_ne; [done|]. intros Heq. by apply (Hnoref k r Hr).
  - intros i x. rewrite lookup_delete. case_decide; [done|]. by eauto.
  - intros i j x y. rewrite !lookup_delete. repeat case_decide; try done. by eauto.
  - intros i x. rewrite lookup_delete. case_decide; [done|]. by eauto.
  - intros i g g' [[= -> ->]|Hi]%elem_of_cons Hg'; [|by eauto].
    specialize (inv_issued_live0 id s Hs) as (_ & Hmax). specialize (Hmax g' Hg'). lia.
  - done.
  - done.
  - intros i x. rewrite lookup_delete. case_decide; [done|]. intros Hx. specialize (inv_lookups0 i x Hx). lia.
Qed.

(** *** Preservation, one atomic step at a time *)

Lemma inv_get n issued sh id : inv n issued sh → inv (n + 1) issued (cx_get id sh).2.
Proof.
  intros Hinv. apply inv_relax with (ex := None) (n' := n + 1) in Hinv; [|lia].
  unfold cx_get. destruct (tbl_map (sh_table sh) !! id) as [s|] eqn:Hs; [|done].
  destruct (checked_add u32_max (slot_leases s) 1) as [l|] eqn:Hl; [|done].
  apply checked_add_Some in Hl as [-> Hl].
  destruct Hinv. assert (sh_refs sh !! sh_next_ref sh = None) as Hfresh.
  { destruct (sh_refs sh !! sh_next_ref sh) as [r|] eqn:Hr; [|done].
    destruct (inv_refs0 _ _ Hr) as [? _]. lia. }
  specialize (inv_live0 id s Hs) as Hlive. destruct Hlive as (Hid & Hb & Hg).
  split; simpl; try done.
  - intros i x. rewrite lookup_insert. case_decide; [subst|by eauto].
    intros [= <-]. split_and!; simpl; try done; try lia. destruct Hb as (? & ? & ? & ?).
    unfold slot_bounds; simpl. split_and!; try done; int_lia.
  - intros i x. rewrite lookup_insert. case_decide; [subst|by eauto].
    intros [= <-] _. apply not_true_iff_false. rewrite droppable_true; simpl.
    destruct Hb as (? & ? & ? & ?). int_lia.
  - intros i g Hi. specialize (inv_free0 i g Hi) as (? & ? & ?). split_and!; simpl; try done; try lia.
    rewrite lookup_insert_ne; [done|]. intros ->. congruence.
  - intros i Hi. rewrite lookup_insert. case_decide; eauto.
  - intros i x. unfold lease_count; simpl. rewrite lookup_insert. case_decide as Heq; [subst|].
    + intros [= <-]; simpl. rewrite count_map_insert_yes by done. by rewrite (inv_leases0 i s Hs).
    + intros Hx. rewrite count_map_insert_no by done. by rewrite (inv_leases0 i x Hx).
  - intros k r. rewrite lookup_insert. case_decide; [subst|].
    + intros [= <-]; simpl. split; [lia|]. rewrite lookup_insert_eq. eexists. by split.
    + intros Hr. destruct (inv_refs0 k r Hr) as (? & x & Hx & Hxr). split; [lia|].
      rewrite lookup_insert. case_decide; [subst|by eauto].
      eexists. split; [done|]. simpl. congruence.
  - intros i x. rewrite lookup_insert. case_decide; [subst|by eauto]. intros [= <-]; simpl. by eauto.
  - intros i j x y. rewrite !lookup_insert. repeat case_decide; subst; try done.
    + intros [= <-] Hy; simpl. by eauto.
    + intros Hx [= <-]; simpl. by eauto.
    + by eauto.
  - intros i x. rewrite lookup_insert. case_decide; [subst|by eauto]. intros [= <-]; simpl. by eauto.
  - intros i x. rewrite lookup_insert. case_decide; [subst|by eauto]. intros [= <-]; simpl. by eauto.
Qed.

(** Releasing a lease, before the [maybe_drop] that follows. *)
Lemma inv_release_ref n issued sh k r s :
  inv n issued sh → sh_refs sh !! k = Some r → tbl_map (sh_table sh) !! nr_id r = Some s →
  inv_but (Some (nr_id r)) n issued
    (mkShared (set_slot (nr_id r) (with_leases (saturating_sub (slot_leases s) 1) s) (sh_table sh))
       (sh_next_addr sh) (delete k (sh_refs sh)) (sh_next_ref sh)).
Proof.
  intros [] Hr Hs.
  assert (0 < slot_leases s) as Hpos.
  { rewrite (inv_leases0 _ _ Hs). by apply (count_map_pos _ _ k r). }
  split; simpl; try done.
  - intros i x. rewrite lookup_insert. case_decide; [subst|by eauto].
    intros [= <-]. destruct (inv_live0 _ s Hs) as (? & (? & ? & ? & ?) & ?).
    split_and!; simpl; try done; try lia. unfold slot_bounds; simpl. split_and!; try done; int_lia.
  - intros i x. rewrite lookup_insert. case_decide; [subst; congruence|by eauto].
  - intros i g Hi. specialize (inv_free0 i g Hi) as (? & ? & ?). split_and!; simpl; try done; try lia.
    rewrite lookup_insert_ne; [done|]. intros Heq. rewrite Heq in *. congruence.
  - intros i Hi. rewrite lookup_insert. case_decide; eauto.
  - intros i x. unfold lease_count; simpl. rewrite lookup_insert. case_decide as Heq; [subst|].
    + intros [= <-]; simpl. rewrite (count_map_delete_yes _ _ k r) by done.
      rewrite (inv_leases0 _ s Hs). unfold lease_count. unfold saturating_sub.
      rewrite (inv_leases0 _ s Hs) in Hpos. unfold lease_count in Hpos. lia.
    + intros Hx. rewrite (count_map_delete_no _ _ k r) by done. by rewrite (inv_leases0 i x Hx).
  - intros k' r'. rewrite lookup_delete. case_decide; [done|]. intros Hr'.
    destruct (inv_refs0 k' r' Hr') as (? & x & Hx & Hxr). split; [done|].
    rewrite lookup_insert. case_decide as Heq; [|by eauto]. eexists. split; [done|].
    simpl. rewrite <- Heq in Hx. congruence.
  - intros i x. rewrite lookup_insert. case_decide; [subst|by eauto]. intros [= <-]; simpl. by eauto.
  - intros i j x y. rewrite !lookup_insert. repeat case_decide; subst; try done.
    + intros [= <-] Hy; simpl. by eauto.
    + intros Hx [= <-]; simpl. by eauto.
    + by eauto.
  - intros i x. rewrite lookup_insert. case_decide; [subst|by eauto]. intros [= <-]; simpl. by eauto.
  - intros i x. rewrite lookup_insert. case_decide; [subst|by eauto]. intros [= <-]; simpl. by eauto.
Qed.

Lemma ptr_eq_refl {A} (a : Arc A) : ptr_eq a a = true.
Proof. apply Z.eqb_refl. Qed.

Lemma inv_ref_drop n issued sh k :
  n < u64_max → inv n issued sh → inv (n + 1) issued (ref_drop k sh).2.
Proof.
  intros Hn Hinv. unfold ref_drop.
  destruct (sh_refs sh !! k) as [r|] eqn:Hr; [|by apply inv_relax with n; [lia|]].
  destruct (inv_refs _ _ _ _ Hinv k r Hr) as (_ & s & Hs & Hrec).
  rewrite Hs, Hrec, ptr_eq_refl.
  refine (inv_maybe_drop n issued
    (mkShared (set_slot (nr_id r) (with_leases (saturating_sub (slot_leases s) 1) s) (sh_table sh))
       (sh_next_addr sh) (delete k (sh_refs sh)) (sh_next_ref sh)) (nr_id r) Hn _).
  by apply inv_release_ref.
Qed.

Lemma alloc_spec n issued sh :
  n + 2 < u64_max → inv n issued sh →
  let '((ino, g), t) := alloc (sh_table sh) in
  1 ≤ ino < tbl_next_ino t ∧ tbl_map (sh_table sh) !! ino = None ∧ tbl_map t = tbl_map (sh_table sh) ∧
  0 ≤ g ≤ n ∧ (∀ g', (ino, g') ∈ issued → g' < g) ∧
  tbl_next_ino (sh_table sh) ≤ tbl_next_ino t ≤ n + 3 ∧
  ino ∉ (tbl_free t).*1 ∧
  (∀ i, i ∈ (tbl_free (sh_table sh)).*1 → i = ino ∨ i ∈ (tbl_free t).*1) ∧
  (∀ i, i < tbl_next_ino t → i < tbl_next_ino (sh_table sh) ∨ i = ino) ∧
  (∀ p, p ∈ tbl_free t → p ∈ tbl_free (sh_table sh)) ∧ NoDup (tbl_free t).*1.
Proof.
  intros Hn []. unfold alloc. destruct (tbl_free (sh_table sh)) as [|[ino g] rest] eqn:Hfree; simpl.
  - rewrite wrapping_add64_small by int_lia.
    assert (tbl_map (sh_table sh) !! tbl_next_ino (sh_table sh) = None) as Hnone.
    { destruct (tbl_map (sh_table sh) !! _) as [x|] eqn:Hx; [|done].
      destruct (inv_live0 _ _ Hx) as (? & _). lia. }
    split_and!; simpl; try done; try lia.
    + intros g' Hg'. specialize (inv_issued0 _ _ Hg'). lia.
    + by intros ?%elem_of_nil.
    + by intros i ?%elem_of_nil.
  - destruct (inv_free0 ino g) as (? & ? & ?); [by left|].
    inversion inv_free_nodup0 as [|? ? Hnin Hnd]; subst.
    split_and!; simpl; try done; try lia.
    + intros g' Hg'. eapply inv_issued_free0; [by left|done].
    + by intros i [->|?]%elem_of_cons; [left|right].
    + by right.
Qed.

Lemma inv_insert n issued sh p parent :
  n + 2 < u64_max → inv n issued sh →
  inv (n + 1) ((alloc (sh_table sh)).1 :: issued) (cx_insert p parent sh).2.
Proof.
  intros Hn Hinv. pose proof (alloc_spec n issued sh Hn Hinv) as Ha.
  unfold cx_insert. destruct (alloc (sh_table sh)) as [[ino g] t] eqn:Halloc. simpl.
  destruct Ha as (Hino & Hnone & Hmap & Hg & Hfresh & Hnext & Hnin & Hfree & Hlt & Hsub & Hnd).
  destruct Hinv.
  assert (∀ i x, <[ino := x]> (tbl_map t) !! i = if decide (ino = i) then Some x else tbl_map (sh_table sh) !! i) as Hlk.
  { intros i x. rewrite lookup_insert, Hmap. done. }
  split; simpl.
  - lia.
  - intros i x. rewrite lookup_insert, Hmap. case_decide; [subst|].
    + intros [= <-]; simpl. split_and!; try lia. unfold slot_bounds; simpl. int_lia.
    + intros Hx. destruct (inv_live0 i x Hx) as (? & ? & ?). split_and!; try done; lia.
  - intros i x. rewrite lookup_insert, Hmap. case_decide; [subst; by intros [= <-]|by eauto].
  - intros i g' Hi. destruct (inv_free0 i g' (Hsub _ Hi)) as (? & ? & ?).
    split_and!; simpl; try done; try lia. rewrite lookup_insert_ne, Hmap; [done|].
    intros ->. apply Hnin. apply list_elem_of_fmap. by exists (i, g').
  - done.
  - intros i Hi. rewrite lookup_insert, Hmap. case_decide; [by eauto|].
    destruct (Hlt i) as [Hi'| ->]; [lia| |done].
    destruct (inv_cover0 i) as [?|Hin]; [lia|by left|].
    destruct (Hfree i Hin) as [->|?]; [done|by right].
  - intros i x. unfold lease_count; simpl. rewrite lookup_insert, Hmap. case_decide; [subst|by eauto].
    intros [= <-]; simpl. symmetry. apply count_map_zero.
    intros k r Hr Heq. destruct (inv_refs0 k r Hr) as (_ & y & Hy & _). congruence.
  - intros k r Hr. destruct (inv_refs0 k r Hr) as (? & y & Hy & ?). split; [done|].
    exists y. rewrite lookup_insert_ne, Hmap; [done|]. intros Heq. congruence.
  - intros i x. rewrite lookup_insert, Hmap. case_decide; [subst|].
    + intros [= <-]; simpl. lia.
    + intros Hx. specialize (inv_addr0 i x Hx). lia.
  - intros i j x y. rewrite !lookup_insert, Hmap. repeat case_decide; subst; try done.
    + intros [= <-] Hy; simpl. specialize (inv_addr0 _ _ Hy). lia.
    + intros Hx [= <-]; simpl. specialize (inv_addr0 _ _ Hx). lia.
    + by eauto.
  - intros i x. rewrite lookup_insert, Hmap. case_decide; [subst|].
    + intros [= <-]; simpl. split; [by left|]. intros g' [[= ->]|Hg']%elem_of_cons; [lia|].
      specialize (Hfresh g' Hg'). lia.
    + intros Hx. destruct (inv_issued_live0 i x Hx) as [? ?]. split; [by right|].
      intros g' [[= -> ->]|Hg']%elem_of_cons; [done|by eauto].
  - intros i g1 g2 Hi [[= -> ->]|Hg']%elem_of_cons; [|by eauto].
    exfalso. apply Hnin. apply list_elem_of_fmap. by exists (ino, g1).
  - intros i g' [[= -> ->]|Hg']%elem_of_cons; [lia|]. specialize (inv_issued0 _ _ Hg'). lia.
  - constructor; [|done]. intros Hin. specialize (Hfresh g Hin). lia.
  - intros i x. rewrite lookup_insert, Hmap. case_decide; [intros [= <-]; simpl; lia|].
    intros Hx. specialize (inv_lookups0 i x Hx). lia.
Qed.

(** The remaining steps change one counter (or the parent) of one slot. *)
Lemma inv_update n issued sh id s s' :
  inv n issued sh → tbl_map (sh_table sh) !! id = Some s →
  slot_record s' = slot_record s → slot_generation s' = slot_generation s →
  slot_leases s' = slot_leases s → slot_bounds s' → slot_lookups s' ≤ slot_lookups s + 1 → droppable s' = false →
  inv (n + 1) issued (with_table (set_slot id s' (sh_table sh)) sh).
Proof.
  intros Hinv Hs ? ? ? ? Hlook Hd. pose proof (inv_lookups _ _ _ _ Hinv id s Hs).
  apply (inv_relax None n (n + 1)) in Hinv; [|lia].
  eapply inv_settle; [eapply inv_set_slot; [done..|lia]| |exact Hd].
  simpl. apply lookup_insert_eq.
Qed.

Lemma inv_update_drop n issued sh id (f : Slot N → Slot N) :
  n < u64_max → inv n issued sh →
  (∀ s, tbl_map (sh_table sh) !! id = Some s →
    slot_record (f s) = slot_record s ∧ slot_generation (f s) = slot_generation s ∧
    slot_leases (f s) = slot_leases s ∧ slot_bounds (f s) ∧ slot_lookups (f s) ≤ slot_lookups s) →
  inv (n + 1) issued
    (with_table (maybe_drop id (match tbl_map (sh_table sh) !! id with
                                | Some s => set_slot id (f s) (sh_table sh)
                                | None => sh_table sh
                                end)) sh).
Proof.
  intros Hn Hinv Hf. destruct (tbl_map (sh_table sh) !! id) as [s|] eqn:Hs.
  - destruct (Hf s) as (? & ? & ? & ? & ?); [done|]. pose proof (inv_lookups _ _ _ _ Hinv id s Hs).
    apply (inv_maybe_drop n issued (with_table (set_slot id (f s) (sh_table sh)) sh)); [done|].
    eapply inv_set_slot; [done..|lia].
  - apply inv_maybe_drop; [done|]. by apply inv_relax with n.
Qed.

Lemma slot_bounds_of n issued sh i s :
  inv n issued sh → tbl_map (sh_table sh) !! i = Some s → slot_bounds s.
Proof. intros [] Hs. by destruct (inv_live0 i s Hs) as (_ & ? & _). Qed.

Lemma not_droppable s :
  slot_links s ≠ 0 ∨ slot_lookups s ≠ 0 ∨ slot_opens s ≠ 0 ∨ slot_leases s ≠ 0 →
  droppable s = false.
Proof. intros Hs. apply not_true_iff_false. rewrite droppable_true. tauto. Qed.

Lemma droppable_parent s p : droppable (with_parent p s) = droppable s.
Proof. done. Qed.

Local Ltac solve_bounds :=
  unfold slot_bounds in *; simpl; destruct_and?; split_and?; try done; int_lia.

Lemma inv_reparent n issued sh id p :
  inv n issued sh → inv (n + 1) issued (cx_reparent id p sh).2.
Proof.
  intros Hinv. unfold cx_reparent.
  destruct (tbl_map (sh_table sh) !! id) as [s|] eqn:Hs; [|by apply inv_relax with n; [lia|]].
  pose proof (slot_bounds_of _ _ _ _ _ Hinv Hs).
  apply inv_update with s; try done; [simpl; lia|].
  rewrite droppable_parent. by eapply inv_clean.
Qed.

Lemma inv_add_link n issued sh id :
  inv n issued sh → inv (n + 1) issued (cx_add_link id sh).2.
Proof.
  intros Hinv. pose proof (inv_relax None n (n + 1) issued sh ltac:(lia) Hinv). unfold cx_add_link.
  destruct (tbl_map (sh_table sh) !! id) as [s|] eqn:Hs; [|done].
  destruct (checked_add u32_max (slot_links s) 1) as [l|] eqn:Hl; [|done].
  apply checked_add_Some in Hl as [-> Hl].
  pose proof (slot_bounds_of _ _ _ _ _ Hinv Hs).
  apply inv_update with s; try done; simpl; [solve_bounds|lia|].
  apply not_droppable. left. solve_bounds.
Qed.

Lemma inv_take_lookup n issued sh id :
  inv n issued sh → inv (n + 1) issued (take_lookup id sh).2.
Proof.
  intros Hinv. pose proof (inv_relax None n (n + 1) issued sh ltac:(lia) Hinv). unfold take_lookup.
  destruct (tbl_map (sh_table sh) !! id) as [s|] eqn:Hs; [|done].
  destruct (checked_add u64_max (slot_lookups s) 1) as [l|] eqn:Hl; [|done].
  apply checked_add_Some in Hl as [-> Hl].
  pose proof (slot_bounds_of _ _ _ _ _ Hinv Hs).
  apply inv_update with s; try done; [solve_bounds|].
  apply not_droppable. right. left. solve_bounds.
Qed.

Lemma inv_add_open n issued sh id :
  inv n issued sh → inv (n + 1) issued (add_open id sh).2.
Proof.
  intros Hinv. pose proof (inv_relax None n (n + 1) issued sh ltac:(lia) Hinv). unfold add_open.
  destruct (tbl_map (sh_table sh) !! id) as [s|] eqn:Hs; [|done].
  destruct (checked_add u32_max (slot_opens s) 1) as [l|] eqn:Hl; [|done].
  apply checked_add_Some in Hl as [-> Hl].
  pose proof (slot_bounds_of _ _ _ _ _ Hinv Hs).
  apply inv_update with s; try done; simpl; [solve_bounds|lia|].
  apply not_droppable. right. right. left. solve_bounds.
Qed.

Lemma inv_remove_link n issued sh id :
  n < u64_max → inv n issued sh → inv (n + 1) issued (cx_remove_link id sh).2.
Proof.
  intros Hn Hinv.
  apply (inv_update_drop n issued sh id (λ s, with_links (saturating_sub (slot_links s) 1) s)); [done..|].
  intros s Hs. pose proof (slot_bounds_of _ _ _ _ _ Hinv Hs). split_and!; try done; solve_bounds.
Qed.

Lemma inv_forget n issued sh id k :
  n < u64_max → 0 ≤ k → inv n issued sh → inv (n + 1) issued (forget id k sh).2.
Proof.
  intros Hn Hk Hinv.
  apply (inv_update_drop n issued sh id (λ s, with_lookups (saturating_sub (slot_lookups s) k) s)); [done..|].
  intros s Hs. pose proof (slot_bounds_of _ _ _ _ _ Hinv Hs). split_and!; try done; solve_bounds.
Qed.

Lemma inv_remove_open n issued sh id :
  n < u64_max → inv n issued sh → inv (n + 1) issued (remove_open id sh).2.
Proof.
  intros Hn Hinv.
  apply (inv_update_drop n issued sh id (λ s, with_opens (saturating_sub (slot_opens s) 1) s)); [done..|].
  intros s Hs. pose proof (slot_bounds_of _ _ _ _ _ Hinv Hs). split_and!; try done; solve_bounds.
Qed.

(** Every atomic step preserves the invariant, as long as fewer than 2^64 - 3
    steps were made: the bound keeps the 64-bit inode and generation numbers
    from wrapping. *)
Lemma inv_exec op n issued sh :
  n + 2 < u64_max → op_wf op → inv n issued sh →
  inv (n + 1) (op_issues op sh ++ issued) (exec_op op sh).
Proof.
  intros Hn Hwf Hinv. destruct op; simpl.
  - by apply inv_get.
  - apply inv_ref_drop; [lia|done].
  - by apply inv_insert.
  - by apply inv_reparent.
  - by apply inv_add_link.
  - apply inv_remove_link; [lia|done].
  - by apply inv_take_lookup.
  - apply inv_forget; [lia|done..].
  - by apply inv_add_open.
  - apply inv_remove_open; [lia|done].
Qed.

Lemma inv_init (root : N) : inv 0 [(1, 0)] (Shared_init root).
Proof.
  split; simpl.
  - lia.
  - intros i s [<- <-]%lookup_singleton_Some. simpl. split_and!; try lia; solve_bounds.
  - by intros i s [<- <-]%lookup_singleton_Some _.
  - by intros i g ?%elem_of_nil.
  - constructor.
  - intros i Hi. left. replace i with 1 by lia. rewrite insert_empty, lookup_singleton_eq. by eexists.
  - by intros i s [<- <-]%lookup_singleton_Some.
  - intros k r. by rewrite lookup_empty.
  - intros i s [<- <-]%lookup_singleton_Some. simpl. lia.
  - intros i j s s' [<- <-]%lookup_singleton_Some [<- <-]%lookup_singleton_Some. done.
  - intros i s [<- <-]%lookup_singleton_Some. simpl. split; [by left|].
    intros g [[= ->]|?%elem_of_nil]%elem_of_cons; [lia|done].
  - by intros i g g' ?%elem_of_nil.
  - intros i g [[= -> ->]|?%elem_of_nil]%elem_of_cons; [lia|done].
  - apply NoDup_singleton.
  - by intros i s [<- <-]%lookup_singleton_Some.
Qed.

Lemma reach_nonneg (root : N) n issued sh : reach root n issued sh → 0 ≤ n.
Proof. induction 1; lia. Qed.

Lemma reach_inv (root : N) n issued sh :
  reach root n issued sh → n + 2 ≤ u64_max → inv n issued sh.
Proof.
  induction 1 as [|n issued sh op Hreach IH Hwf]; intros Hn; [apply inv_init|].
  apply inv_exec; [lia|done|]. apply IH. lia.
Qed.
End invariant.

(** ** The table as a reference-counted map

    [slot_after op id sh s] is what an operation makes of the live slot [s] of
    [id], before the table decides whether to keep it. *)
Section specification.
Context {N : Type} `{Libc}.
Implicit Types (s : Slot N) (sh : Shared N).

Definition bump (max x : Z) : Z := if decide (x + 1 ≤ max) then x + 1 else x.

Definition slot_after (op : table_op N) (id : NodeId) sh s : Slot N :=
  match op with
  | OpGet id' => if decide (id' = id) then with_leases (bump u32_max (slot_leases s)) s else s
  | OpDropRef k =>
      match sh_refs sh !! k with
      | Some r => if decide (nr_id r = id) then with_leases (slot_leases s - 1) s else s
      | None => s
      end
  | OpInsert _ _ => s
  | OpReparent id' p => if decide (id' = id) then with_parent p s else s
  | OpAddLink id' => if decide (id' = id) then with_links (bump u32_max (slot_links s)) s else s
  | OpRemoveLink id' => if decide (id' = id) then with_links (Z.max 0 (slot_links s - 1)) s else s
  | OpLookup id' => if decide (id' = id) then with_lookups (bump u64_max (slot_lookups s)) s else s
  | OpForget id' n => if decide (id' = id) then with_lookups (Z.max 0 (slot_lookups s - n)) s else s
  | OpAddOpen id' => if decide (id' = id) then with_opens (bump u32_max (slot_opens s)) s else s
  | OpRemoveOpen id' => if decide (id' = id) then with_opens (Z.max 0 (slot_opens s - 1)) s else s
  end.

Definition keep s : option (Slot N) := if droppable s then None else Some s.

(** What the table holds at [id] after [op], as a function of what it held. *)
Definition lookup_after (op : table_op N) (id : NodeId) sh : option (Slot N) :=
  match tbl_map (sh_table sh) !! id with
  | Some s => keep (slot_after op id sh s)
  | None =>
      match op with
      | OpInsert p parent =>
          let '((ino, g), _) := alloc (sh_table sh) in
          if decide (ino = id)
          then Some (mkSlot (mkArc (sh_next_addr sh) (mkNodeRecord p)) g 1 0 0 0 parent)
          else None
      | _ => None
      end
  end.

Lemma lookup_maybe_drop (t : NodeTable N) id i :
  tbl_map (maybe_drop id t) !! i =
    if decide (id = i) then tbl_map t !! i ≫= keep else tbl_map t !! i.
Proof.
  unfold maybe_drop, keep. case_decide; [subst i|].
  - destruct (tbl_map t !! id) as [s|] eqn:Hs; simpl; [|done].
    destruct (droppable s); simpl; [apply lookup_delete_eq|done].
  - destruct (tbl_map t !! id) as [s|]; [|done]. destruct (droppable s); simpl; [|done].
    by apply lookup_delete_ne.
Qed.

Lemma lookup_update_drop (t : NodeTable N) id i (f : Slot N → Slot N) :
  tbl_map (maybe_drop id (match tbl_map t !! id with
                          | Some s => set_slot id (f s) t
                          | None => t
                          end)) !! i =
    if decide (id = i) then tbl_map t !! i ≫= λ s, keep (f s) else tbl_map t !! i.
Proof.
  rewrite lookup_maybe_drop. case_decide; [subst i|].
  - destruct (tbl_map t !! id) as [s|] eqn:Hs; simpl; [by rewrite lookup_insert_eq|by rewrite Hs].
  - destruct (tbl_map t !! id) as [s|]; simpl; [by rewrite lookup_insert_ne|done].
Qed.

Lemma keep_live n issued sh i s :
  inv_but None n issued sh → tbl_map (sh_table sh) !! i = Some s → keep s = Some s.
Proof. intros Hinv Hs. unfold keep. by rewrite (inv_clean _ _ _ _ Hinv i s Hs). Qed.

Lemma bump_checked max x :
  bump max x = match checked_add max x 1 with Some y => y | None => x end.
Proof. unfold bump, checked_add. by case_decide. Qed.

(** Operations that increment one counter of [id'], or do nothing. *)
Lemma lookup_set_slot (t : NodeTable N) id i s :
  tbl_map (set_slot id s t) !! i = if decide (id = i) then Some s else tbl_map t !! i.
Proof. simpl. apply lookup_insert. Qed.

(** One step on a slot that stays referenced: get, lookup, open, link, reparent. *)
Lemma lookup_after_keep n issued sh id i (f : Slot N → Slot N) s :
  inv_but None n issued sh → tbl_map (sh_table sh) !! id = Some s → keep (f s) = Some (f s) →
  tbl_map (set_slot id (f s) (sh_table sh)) !! i =
    tbl_map (sh_table sh) !! i ≫= λ s, keep (if decide (id = i) then f s else s).
Proof.
  intros Hinv Hs Hk. rewrite lookup_set_slot. case_decide; [subst i|].
  - by rewrite Hs; simpl.
  - destruct (tbl_map (sh_table sh) !! i) as [x|] eqn:Hx; simpl; [|done].
    by rewrite (keep_live _ _ _ _ _ Hinv Hx).
Qed.

Lemma lookup_after_same n issued sh i :
  inv_but None n issued sh →
  tbl_map (sh_table sh) !! i = tbl_map (sh_table sh) !! i ≫= keep.
Proof.
  intros Hinv. destruct (tbl_map (sh_table sh) !! i) as [x|] eqn:Hx; simpl; [|done].
  by rewrite (keep_live _ _ _ _ _ Hinv Hx).
Qed.

Lemma lookup_after_drop n issued sh id i (f : Slot N → Slot N) :
  inv_but None n issued sh →
  tbl_map (maybe_drop id (match tbl_map (sh_table sh) !! id with
                          | Some s => set_slot id (f s) (sh_table sh)
                          | None => sh_table sh
                          end)) !! i =
    tbl_map (sh_table sh) !! i ≫= λ s, keep (if decide (id = i) then f s else s).
Proof.
  intros Hinv. rewrite lookup_update_drop. case_decide; [done|].
  by eapply lookup_after_same.
Qed.

(** A counted slot is kept. *)
Lemma keep_counted s :
  slot_links s ≠ 0 ∨ slot_lookups s ≠ 0 ∨ slot_opens s ≠ 0 ∨ slot_leases s ≠ 0 → keep s = Some s.
Proof. intros Hs. unfold keep. by rewrite not_droppable. Qed.

Lemma lookup_after_bump n issued sh t' id i (f : Slot N → Slot N) :
  inv_but None n issued sh →
  (∀ s, tbl_map (sh_table sh) !! id = Some s →
    (t' = set_slot id (f s) (sh_table sh) ∧ keep (f s) = Some (f s)) ∨ (t' = sh_table sh ∧ f s = s)) →
  (tbl_map (sh_table sh) !! id = None → t' = sh_table sh) →
  tbl_map t' !! i = tbl_map (sh_table sh) !! i ≫= λ s, keep (if decide (id = i) then f s else s).
Proof.
  intros Hinv Hsome Hnone. destruct (tbl_map (sh_table sh) !! id) as [s|] eqn:Hs.
  - destruct (Hsome s) as [[-> ?]|[-> Hf]]; [done|by eapply lookup_after_keep|].
    destruct (tbl_map (sh_table sh) !! i) as [x|] eqn:Hx; simpl; [|done].
    pose proof (keep_live _ _ _ _ _ Hinv Hx). case_decide; [subst|done].
    rewrite Hs in Hx. injection Hx as ->. by rewrite Hf.
  - rewrite Hnone by done. destruct (tbl_map (sh_table sh) !! i) as [x|] eqn:Hx; simpl; [|done].
    case_decide; [congruence|]. by rewrite (keep_live _ _ _ _ _ Hinv Hx).
Qed.

Local Ltac bump_op op Hinv :=
  eapply lookup_after_bump; [exact Hinv| |];
  [intros s Hs; unfold op; rewrite Hs, ?bump_checked;
   pose proof (slot_bounds_of _ _ _ _ _ Hinv Hs) as (?&?&?&?)
  |intros Hs; unfold op; by rewrite Hs].

Lemma with_leases_id s : with_leases (slot_leases s) s = s.
Proof. by destruct s. Qed.
Lemma with_links_id s : with_links (slot_links s) s = s.
Proof. by destruct s. Qed.
Lemma with_lookups_id s : with_lookups (slot_lookups s) s = s.
Proof. by destruct s. Qed.
Lemma with_opens_id s : with_opens (slot_opens s) s = s.
Proof. by destruct s. Qed.

Lemma lookup_after_eq (op : table_op N) i sh :
  (∀ p parent, op ≠ OpInsert p parent) →
  lookup_after op i sh = tbl_map (sh_table sh) !! i ≫= λ s, keep (slot_after op i sh s).
Proof.
  intros Hop. unfold lookup_after. destruct (tbl_map (sh_table sh) !! i); simpl; [done|].
  destruct op; try done. by destruct (Hop p parent).
Qed.

(** The step function implements [lookup_after]. *)
Lemma lookup_exec (op : table_op N) n issued sh i :
  n + 2 < u64_max → inv_but None n issued sh →
  tbl_map (sh_table (exec_op op sh)) !! i = lookup_after op i sh.
Proof.
  intros Hn Hinv.
  assert ((∃ p parent, op = OpInsert p parent) ∨ (∀ p parent, op ≠ OpInsert p parent)) as [(p & parent & ->)|Hop].
  { destruct op; eauto. }
  { pose proof (alloc_spec n issued sh Hn Hinv) as Ha. unfold lookup_after. simpl. unfold cx_insert.
    destruct (alloc (sh_table sh)) as [[ino g] t]. simpl. destruct Ha as (_ & Hnone & Hmap & _).
    rewrite lookup_insert, Hmap. case_decide as Hi; [subst i; by rewrite Hnone|].
    destruct (tbl_map (sh_table sh) !! i) as [x|] eqn:Hx; simpl; [|done].
    by rewrite (keep_live _ _ _ _ _ Hinv Hx). }
  rewrite lookup_after_eq by done.
  destruct op; simpl exec_op; simpl slot_after.
  - bump_op (@cx_get) Hinv. destruct (checked_add u32_max (slot_leases s) 1) eqn:Hc; simpl;
      [left; split; [done|]|right; split; [done|apply with_leases_id]].
    apply keep_counted; simpl. apply checked_add_Some in Hc. int_lia.
  - unfold ref_drop. destruct (sh_refs sh !! k) as [r|] eqn:Hr; cycle 1.
    { by eapply lookup_after_same. }
    destruct (inv_refs _ _ _ _ Hinv k r Hr) as (_ & s & Hs & Hrec). simpl.
    erewrite <- (lookup_after_drop n issued sh (nr_id r) i (λ s, with_leases (slot_leases s - 1) s)) by done.
    assert (0 < slot_leases s) by (rewrite (inv_leases _ _ _ _ Hinv _ s Hs); by apply (count_map_pos _ _ k r)).
    rewrite Hs, Hrec, ptr_eq_refl. replace (saturating_sub (slot_leases s) 1) with (slot_leases s - 1) by int_lia.
    done.
  - by destruct (Hop p parent).
  - bump_op (@cx_reparent) Hinv. left. split; [done|]. unfold keep. rewrite droppable_parent.
    by rewrite (inv_clean _ _ _ _ Hinv _ s Hs).
  - bump_op (@cx_add_link) Hinv. destruct (checked_add u32_max (slot_links s) 1) eqn:Hc; simpl;
      [left; split; [done|]|right; split; [done|apply with_links_id]].
    apply keep_counted; simpl. apply checked_add_Some in Hc. int_lia.
  - by eapply lookup_after_drop.
  - bump_op (@take_lookup) Hinv. destruct (checked_add u64_max (slot_lookups s) 1) eqn:Hc; simpl;
      [left; split; [done|]|right; split; [done|apply with_lookups_id]].
    apply keep_counted; simpl. apply checked_add_Some in Hc. int_lia.
  - by eapply lookup_after_drop.
  - bump_op (@add_open) Hinv. destruct (checked_add u32_max (slot_opens s) 1) eqn:Hc; simpl;
      [left; split; [done|]|right; split; [done|apply with_opens_id]].
    apply keep_counted; simpl. apply checked_add_Some in Hc. int_lia.
  - by eapply lookup_after_drop.
Qed.
End specification.

(** ** The theorems about the table *)
Section theorems.
Context {N : Type} `{Libc}.
Implicit Types (s : Slot N) (sh : Shared N).

(** C2: whatever sequence of atomic table operations the threads of the
    program make, in any interleaving, the table keeps its invariant: counters
    fit their fields and a node has no more lookups than operations were made,
    no unreferenced node stays, a slot's lease count is the
    number of leases that exist, every lease finds its own record at its inode,
    live and free inode numbers partition the allocated range, and the
    identities on the free list are newer than every one issued. *)
Theorem table_invariant (root : N) (ops : list (table_op N)) :
  Forall op_wf ops → Z.of_nat (length ops) + 2 ≤ u64_max →
  inv_but None (Z.of_nat (length ops)) (run_issues ops (Shared_init root) ++ [(1, 0)])
    (run_ops ops (Shared_init root)).
Proof.
  intros Hops Hlen. apply (reach_inv root); [|done].
  apply (reach_run root 0); [constructor|done].
Qed.

(** C14: the pair (inode, generation) that [Cx::insert] gives a new node was
    never given to another node, however inodes are recycled. *)
Theorem identity_never_reused (root : N) (ops : list (table_op N)) :
  Forall op_wf ops → Z.of_nat (length ops) + 2 ≤ u64_max →
  NoDup (run_issues ops (Shared_init root) ++ [(1, 0)]).
Proof.
  intros Hops Hlen. eapply inv_issued_nodup, (reach_inv root); [|done].
  apply (reach_run root 0); [constructor|done].
Qed.

Lemma lease_kept ops : ∀ n issued sh k r s,
  inv_but None n issued sh → n + Z.of_nat (length ops) + 2 ≤ u64_max → Forall op_wf ops →
  OpDropRef k ∉ ops → sh_refs sh !! k = Some r → tbl_map (sh_table sh) !! nr_id r = Some s →
  sh_refs (run_ops ops sh) !! k = Some r ∧
  ∃ s', tbl_map (sh_table (run_ops ops sh)) !! nr_id r = Some s' ∧
        slot_record s' = nr_record r ∧ slot_generation s' = slot_generation s.
Proof.
  induction ops as [|op ops IH]; simpl; intros n issued sh k r s Hinv Hn Hwf Hnd Hr Hs.
  { destruct (inv_refs _ _ _ _ Hinv k r Hr) as (_ & s' & Hs' & ?).
    split; [done|]. exists s. split; [done|]. rewrite Hs in Hs'. by injection Hs' as <-. }
  apply not_elem_of_cons in Hnd as [Hop Hnd]. apply Forall_cons in Hwf as [Hwf1 Hwf].
  assert (sh_refs (exec_op op sh) !! k = Some r) as Hr'.
  { destruct (inv_refs _ _ _ _ Hinv k r Hr) as [Hk _]. destruct op; simpl.
    - unfold cx_get. destruct (tbl_map _ !! id) as [x|]; [|done].
      destruct (checked_add _ _ _); [|done]. simpl. rewrite lookup_insert_ne; [done|lia].
    - unfold ref_drop. destruct (sh_refs sh !! k0) as [r'|]; [|done]. simpl.
      rewrite lookup_delete_ne; [done|congruence].
    - unfold cx_insert. by destruct (alloc (sh_table sh)) as [[? ?] ?].
    - unfold cx_reparent. by destruct (tbl_map _ !! id).
    - unfold cx_add_link. destruct (tbl_map _ !! id); [|done]. by destruct (checked_add _ _ _).
    - done.
    - unfold take_lookup. destruct (tbl_map _ !! id); [|done]. by destruct (checked_add _ _ _).
    - done.
    - unfold add_open. destruct (tbl_map _ !! id); [|done]. by destruct (checked_add _ _ _).
    - done. }
  pose proof (inv_exec op n issued sh ltac:(lia) Hwf1 Hinv) as Hinv'.
  destruct (inv_refs _ _ _ _ Hinv' k r Hr') as (_ & s' & Hs' & _).
  assert (slot_generation s' = slot_generation s) as <-.
  { rewrite (lookup_exec op n issued) in Hs' by (done || lia).
    unfold lookup_after, keep in Hs'. rewrite Hs in Hs'.
    destruct (droppable _); [done|]. injection Hs' as <-.
    unfold slot_after. repeat case_match; done. }
  eapply IH; [exact Hinv'|lia|done..].
Qed.

(** While a lease taken by [Cx::get] is held, whatever the other threads
    do, its inode keeps naming the same node: the same record (so that the
    [Arc::ptr_eq] test of [NodeRef::drop] succeeds and the lease is given
    back) with the same generation. *)
Theorem lease_pins_node (root : N) (before after : list (table_op N)) k r :
  Forall op_wf (before ++ after) → Z.of_nat (length (before ++ after)) + 2 ≤ u64_max →
  let sh := run_ops before (Shared_init root) in
  let sh' := run_ops after sh in
  sh_refs sh !! k = Some r → OpDropRef k ∉ after →
  ∃ s s', tbl_map (sh_table sh) !! nr_id r = Some s ∧
          tbl_map (sh_table sh') !! nr_id r = Some s' ∧
          ptr_eq (slot_record s') (nr_record r) = true ∧
          slot_generation s' = slot_generation s.
Proof.
  intros Hops Hlen sh sh' Hr Hnd. rewrite length_app in Hlen. apply Forall_app in Hops as [Hb Ha].
  pose proof (reach_run root 0 _ _ before (reach_init root) Hb) as Hreach.
  apply reach_inv in Hreach; [|lia].
  destruct (inv_refs _ _ _ _ Hreach k r Hr) as (_ & s & Hs & _).
  destruct (lease_kept after _ _ sh k r s Hreach) as (_ & s' & ? & Hrec & ?); [lia|done..|].
  exists s, s'. split_and!; try done. rewrite Hrec. apply ptr_eq_refl.
Qed.

(** C22: the table is a reference-counted map.  After any operation a live
    inode holds the slot the operation makes of it, with exactly one counter
    moved by one step, and is gone if and only if all four counters (links,
    lookups, opens, leases) reached zero; an inode that was not live only
    becomes so by [Cx::insert], with one link and its fresh generation. *)
Theorem exec_op_spec (root : N) (ops : list (table_op N)) (op : table_op N) (i : Z) :
  Forall op_wf ops → Z.of_nat (length ops) + 2 < u64_max →
  let sh := run_ops ops (Shared_init root) in
  tbl_map (sh_table (exec_op op sh)) !! i = lookup_after op i sh.
Proof.
  intros Hops Hlen sh. eapply lookup_exec; [exact Hlen|].
  apply (reach_inv root); [|lia]. apply (reach_run root 0); [constructor|done].
Qed.

Lemma partition_size n issued sh :
  inv_but None n issued sh →
  Z.of_nat (size (tbl_map (sh_table sh)) + length (tbl_free (sh_table sh))) = tbl_next_ino (sh_table sh) - 1.
Proof.
  intros Hinv. set (t := sh_table sh).
  assert (dom (tbl_map t) ∪ list_to_set (tbl_free t).*1 = list_to_set (seqZ 1 (tbl_next_ino t - 1)) :> gset Z) as Heq.
  { apply set_eq. intros i. rewrite elem_of_union, elem_of_dom, !elem_of_list_to_set, elem_of_seqZ. split.
    - intros [[s Hs]|([i' g] & -> & Hg)%list_elem_of_fmap].
      + destruct (inv_live _ _ _ _ Hinv i s Hs) as (? & _). fold t in H0. lia.
      + destruct (inv_free _ _ _ _ Hinv i' g Hg) as (? & _). fold t in H0. simpl. lia.
    - intros Hi. apply (inv_cover _ _ _ _ Hinv). fold t. lia. }
  assert (dom (tbl_map t) ## list_to_set (tbl_free t).*1) as Hdisj.
  { intros i [s Hs]%elem_of_dom ([i' g] & -> & Hg)%elem_of_list_to_set%list_elem_of_fmap.
    destruct (inv_free _ _ _ _ Hinv i' g Hg) as (_ & Hn & _). unfold t in Hs; simpl in Hs; congruence. }
  rewrite <- size_dom, <- (length_fmap fst).
  rewrite <- (size_list_to_set (C := gset Z) (tbl_free t).*1) by exact (inv_free_nodup _ _ _ _ Hinv).
  rewrite <- size_union by done. rewrite Heq, size_list_to_set by apply NoDup_seqZ.
  rewrite length_seqZ. pose proof (inv_next _ _ _ _ Hinv). fold t in H0. lia.
Qed.

(** No inode number is lost: those that were ever allocated are live or
    wait on the free list, never both, each exactly once. *)
Theorem no_inode_lost (root : N) (ops : list (table_op N)) :
  Forall op_wf ops → Z.of_nat (length ops) + 2 ≤ u64_max →
  let t := sh_table (run_ops ops (Shared_init root)) in
  (∀ i, 1 ≤ i < tbl_next_ino t → tbl_map t !! i = None ↔ i ∈ (tbl_free t).*1) ∧
  Z.of_nat (size (tbl_map t) + length (tbl_free t)) = tbl_next_ino t - 1.
Proof.
  intros Hops Hlen t.
  pose proof (reach_run root 0 _ _ ops (reach_init root) Hops) as Hinv.
  apply reach_inv in Hinv; [|lia]. split; [|by eapply partition_size].
  intros i Hi. split.
  - intros Hn. destruct (inv_cover _ _ _ _ Hinv i Hi) as [[s Hs]|?]; [|done].
    unfold t in Hn. congruence.
  - intros ([i' g] & -> & Hg)%list_elem_of_fmap. by destruct (inv_free _ _ _ _ Hinv i' g Hg) as (_ & ? & _).
Qed.
End theorems.

(** A run in which node 2 is created, leased, looked up, unlinked, released and
    forgotten, and its inode recycled for another node. *)
Definition sample_run : list (table_op nat) :=
  [OpInsert 7%nat 1; OpGet 2; OpLookup 2; OpRemoveLink 2; OpForget 2 1; OpDropRef 0; OpInsert 8%nat 1].

Lemma sample_run_wf (k : nat) : Forall op_wf (take k sample_run).
Proof. apply Forall_take. repeat constructor. simpl. lia. Qed.

Lemma table_invariant_witness :
  inv_but None 7 [(2, 1); (2, 0); (1, 0)] (run_ops (H := linux_libc) sample_run (Shared_init 0%nat)).
Proof.
  apply (table_invariant (H := linux_libc) 0%nat sample_run); [apply (sample_run_wf 7)|vm_compute; discriminate].
Defined.

Lemma identity_never_reused_witness : NoDup [(2, 1); (2, 0); (1, 0)].
Proof.
  apply (identity_never_reused (H := linux_libc) 0%nat sample_run); [apply (sample_run_wf 7)|vm_compute; discriminate].
Defined.

(** The lease [0] on node 2 is held while the node loses its only link. *)
Lemma lease_pins_node_witness :
  let sh := run_ops (H := linux_libc) (take 2 sample_run) (Shared_init 0%nat) in
  let sh' := run_ops (H := linux_libc) [OpRemoveLink 2; OpInsert 9%nat 1] sh in
  ∃ s s', tbl_map (sh_table sh) !! 2 = Some s ∧ tbl_map (sh_table sh') !! 2 = Some s' ∧
          ptr_eq (slot_record s') (mkArc 1 (mkNodeRecord 7%nat)) = true ∧
          slot_generation s' = slot_generation s.
Proof.
  apply (lease_pins_node (H := linux_libc) 0%nat (take 2 sample_run) [OpRemoveLink 2; OpInsert 9%nat 1] 0
    (mkNodeRef 2 (mkArc 1 (mkNodeRecord 7%nat)))).
  - repeat constructor.
  - vm_compute. discriminate.
  - vm_compute. reflexivity.
  - intros [Heq|[Heq|Hnil%elem_of_nil]%elem_of_cons]%elem_of_cons; [discriminate Heq|discriminate Heq|exact Hnil].
Defined.

(** The last of the node's references is its lease: dropping it frees node 2. *)
Lemma exec_op_spec_witness :
  let sh := run_ops (H := linux_libc) (take 5 sample_run) (Shared_init 0%nat) in
  tbl_map (sh_table (exec_op (H := linux_libc) (OpDropRef 0) sh)) !! 2 = lookup_after (OpDropRef 0) 2 sh ∧
  lookup_after (OpDropRef 0) 2 sh = None.
Proof.
  split; [|vm_compute; reflexivity].
  apply (exec_op_spec (H := linux_libc) 0%nat (take 5 sample_run)); [apply sample_run_wf|vm_compute; reflexivity].
Defined.

Lemma no_inode_lost_witness :
  let t := sh_table (run_ops (H := linux_libc) (take 6 sample_run) (Shared_init 0%nat)) in
  (∀ i, 1 ≤ i < tbl_next_ino t → tbl_map t !! i = None ↔ i ∈ (tbl_free t).*1) ∧
  Z.of_nat (size (tbl_map t) + length (tbl_free t)) = tbl_next_ino t - 1.
Proof.
  apply (no_inode_lost (H := linux_libc) 0%nat (take 6 sample_run)); [apply sample_run_wf|vm_compute; discriminate].
Defined.
