(* ===== verification/HandleRec.v ===== *)
(** * Open handles ([typed_fuse_core/src/runtime.rs], [HandleRecord] and [HandleLease])

    The record of one open file or directory: the state its mutex protects,
    the operations on it, and the concurrent program made of them (threads
    that look the record up, lease it, and the one that closes it), with the
    payload cell that the [unsafe] blocks access. *)

From S2P Require Import Prelude Types.

(** ** The record and its critical sections *)

Record HandleState := mkHandleState { active : Z; closing : bool; taken : bool }.

Record HandleRecord (H : Type) := mkHandleRecord {
  hr_node : NodeId;
  hr_payload : H;
  hr_state : HandleState;
}.
Arguments mkHandleRecord {H}.
Arguments hr_node {H}.
Arguments hr_payload {H}.
Arguments hr_state {H}.

Definition HandleRecord_new {H} (node : NodeId) (p : H) : HandleRecord H :=
  mkHandleRecord node p (mkHandleState 0 false false).

(** [HandleRecord::acquire]: [true] when the lease is granted. *)
Definition acquire : M HandleState bool := λ st,
  if closing st then (Returned false, st)
  else match checked_add u32_max (active st) 1 with
       | None => (Panicked, st)
       | Some a => (Returned true, mkHandleState a (closing st) (taken st))
       end.

(** [HandleRecord::close_and_take] up to its wait: entering the critical
    section, and the test of the [while] loop, which either parks the thread
    ([false]) or marks the payload as taken. *)
Definition close_enter (st : HandleState) : HandleState := mkHandleState (active st) true (taken st).

Definition close_test : M HandleState bool := λ st,
  if active st =? 0 then (Returned true, mkHandleState (active st) (closing st) true)
  else (Returned false, st).

(** Run alone, a close that has to wait waits for ever. *)
Definition close_and_take : M HandleState unit := λ st,
  match close_test (close_enter st) with
  | (Returned true, st') => (Returned tt, st')
  | (_, st') => (Blocked, st')
  end.

(** [Drop for HandleLease]: the flag says whether [notify_all] is called. *)
Definition lease_drop : M HandleState bool := λ st,
  let a := saturating_sub (active st) 1 in
  (Returned ((a =? 0) && closing st), mkHandleState a (closing st) (taken st)).

(** ** The concurrent program around one record

    A thread is where it stands in [Runtime::file], in the drop of its lease
    or in [Runtime::release]. A thread in the map holds an [Arc] of the record;
    so does the handle table until the record is removed from it. *)
Inductive pc :=
| Cloned    (* has cloned the [Arc], before [acquire] *)
| Leasing   (* owns a [HandleLease] *)
| Leaving   (* done with the record, its [Arc] still to be dropped *)
| Removed   (* took the record out of the table, before [close_and_take] *)
| Parked    (* waits on [drained] *)
| Woken     (* notified (or woken spuriously), before it tests again *)
| Taking.   (* has set [taken], before [ManuallyDrop::take] *)

#[export] Instance pc_eq_dec : EqDecision pc.
Proof. solve_decision. Defined.

(** What happened to the payload. *)
Inductive event := Take | Drop.

Record Sys := mkSys {
  sys_state : HandleState;
  sys_in_table : bool;
  sys_events : list event;
  sys_threads : gmap nat pc;
}.

Definition Sys_init : Sys := mkSys (mkHandleState 0 false false) true [] ∅.

(** [Drop for HandleRecord] runs when the last [Arc] goes. *)
Definition drop_if_last (s : Sys) : Sys :=
  if bool_decide (sys_threads s = ∅) && negb (sys_in_table s) && negb (taken (sys_state s))
  then mkSys (sys_state s) (sys_in_table s) (Drop :: sys_events s) (sys_threads s)
  else s.

Definition wake (p : pc) : pc := match p with Parked => Woken | _ => p end.

Definition set_thread (k : nat) (p : pc) (s : Sys) : Sys :=
  mkSys (sys_state s) (sys_in_table s) (sys_events s) (<[k := p]> (sys_threads s)).
Definition set_state (st : HandleState) (s : Sys) : Sys :=
  mkSys st (sys_in_table s) (sys_events s) (sys_threads s).

Inductive hstep (s : Sys) : Sys → Prop :=
| step_clone k :
    sys_in_table s = true → sys_threads s !! k = None →
    hstep s (set_thread k Cloned s)
| step_mismatch k :
    sys_threads s !! k = Some Cloned →
    hstep s (set_thread k Leaving s)
| step_acquire k b st :
    sys_threads s !! k = Some Cloned → acquire (sys_state s) = (Returned b, st) →
    hstep s (set_thread k (if b then Leasing else Leaving) (set_state st s))
| step_acquire_panic k st :
    sys_threads s !! k = Some Cloned → acquire (sys_state s) = (Panicked, st) →
    hstep s (set_thread k Leaving (set_state st s))
| step_lease_drop k (b : bool) st :
    sys_threads s !! k = Some Leasing → lease_drop (sys_state s) = (Returned b, st) →
    hstep s (mkSys st (sys_in_table s) (sys_events s)
               (if b then wake <$> <[k := Leaving]> (sys_threads s) else <[k := Leaving]> (sys_threads s)))
| step_remove k :
    sys_in_table s = true → sys_threads s !! k = None →
    hstep s (mkSys (sys_state s) false (sys_events s) (<[k := Removed]> (sys_threads s)))
| step_abandon k :
    sys_threads s !! k = Some Removed →
    hstep s (set_thread k Leaving s)
| step_close k (b : bool) st :
    sys_threads s !! k = Some Removed → close_test (close_enter (sys_state s)) = (Returned b, st) →
    hstep s (set_thread k (if b then Taking else Parked) (set_state st s))
| step_spurious k :
    sys_threads s !! k = Some Parked →
    hstep s (set_thread k Woken s)
| step_retest k (b : bool) st :
    sys_threads s !! k = Some Woken → close_test (sys_state s) = (Returned b, st) →
    hstep s (set_thread k (if b then Taking else Parked) (set_state st s))
| step_take k :
    sys_threads s !! k = Some Taking →
    hstep s (mkSys (sys_state s) (sys_in_table s) (Take :: sys_events s) (<[k := Leaving]> (sys_threads s)))
| step_leave k :
    sys_threads s !! k = Some Leaving →
    hstep s (drop_if_last (mkSys (sys_state s) (sys_in_table s) (sys_events s) (delete k (sys_threads s))))
| step_drop_table :
    sys_in_table s = true →
    hstep s (drop_if_last (mkSys (sys_state s) false (sys_events s) (sys_threads s))).

Definition hreach : Sys → Prop := rtc hstep Sys_init.

(** ** The invariant *)

Definition closer (p : pc) : bool :=
  match p with Removed | Parked | Woken | Taking => true | _ => false end.

Definition leases (m : gmap nat pc) : Z := count_map (λ p, p = Leasing) m.

(** What a thread at [p] may rely on. *)
Definition pc_ok (st : HandleState) (in_table : bool) (ev : list event) (p : pc) : Prop :=
  match p with
  | Cloned | Leaving | Leasing => True
  | Removed => closing st = false ∧ taken st = false ∧ in_table = false
  | Parked => closing st = true ∧ taken st = false ∧ in_table = false ∧ active st ≠ 0
  | Woken => closing st = true ∧ taken st = false ∧ in_table = false
  | Taking => closing st = true ∧ taken st = true ∧ in_table = false ∧ active st = 0 ∧ ev = []
  end.

Record hinv (s : Sys) : Prop := {
  h_bound : is_u32 (active (sys_state s));
  h_active : active (sys_state s) = leases (sys_threads s);
  h_ok : ∀ k p, sys_threads s !! k = Some p → pc_ok (sys_state s) (sys_in_table s) (sys_events s) p;
  h_one : ∀ k k' p p', sys_threads s !! k = Some p → sys_threads s !! k' = Some p' →
    closer p = true → closer p' = true → k = k';
  h_table : sys_in_table s = true → closing (sys_state s) = false ∧ taken (sys_state s) = false;
  h_closing : closing (sys_state s) = true → taken (sys_state s) = false →
    ∃ k p, sys_threads s !! k = Some p ∧ (p = Parked ∨ p = Woken);
  h_taken : taken (sys_state s) = true → closing (sys_state s) = true ∧ active (sys_state s) = 0 ∧
    ((sys_events s = [] ∧ ∃ k, sys_threads s !! k = Some Taking) ∨ sys_events s = [Take]);
  h_untaken : taken (sys_state s) = false →
    sys_events s = [] ∨ (sys_events s = [Drop] ∧ sys_in_table s = false ∧ sys_threads s = ∅);
  h_end : sys_in_table s = false → sys_threads s = ∅ → sys_events s ≠ [];
}.

Lemma leases_update m k p p' :
  m !! k = Some p →
  leases (<[k := p']> m) =
    leases m - (if decide (p = Leasing) then 1 else 0) + (if decide (p' = Leasing) then 1 else 0).
Proof. exact (count_map_update (λ p, p = Leasing) m k p p'). Qed.

Lemma leases_new m k p : m !! k = None → p ≠ Leasing → leases (<[k := p]> m) = leases m.
Proof. intros. by apply count_map_insert_no. Qed.

Lemma leases_leave m k p : m !! k = Some p → p ≠ Leasing → leases (delete k m) = leases m.
Proof. intros. by apply count_map_delete_no with p. Qed.

Lemma leases_wake m : leases (wake <$> m) = leases m.
Proof. apply count_map_fmap. by intros []. Qed.

Lemma leasing_active s k : hinv s → sys_threads s !! k = Some Leasing → 0 < active (sys_state s).
Proof. intros Hinv Hk. rewrite (h_active s Hinv). by apply (count_map_pos _ _ k Leasing). Qed.

(** A thread that holds the record keeps it from being dropped. *)
Lemma held_events s k p :
  hinv s → sys_threads s !! k = Some p → taken (sys_state s) = false → sys_events s = [].
Proof.
  intros Hinv Hk Ht. destruct (h_untaken s Hinv Ht) as [?|(_ & _ & He)]; [done|].
  rewrite He, lookup_empty in Hk. done.
Qed.

(** One thread moves on, and the state changes under the others. *)
Lemma hinv_move s k p p' st ev :
  hinv s → sys_threads s !! k = Some p →
  (closer p' = true → closer p = true) →
  is_u32 (active st) →
  active st = active (sys_state s) - (if decide (p = Leasing) then 1 else 0)
              + (if decide (p' = Leasing) then 1 else 0) →
  (∀ k' q, k' ≠ k → sys_threads s !! k' = Some q →
     pc_ok (sys_state s) (sys_in_table s) (sys_events s) q → pc_ok st (sys_in_table s) ev q) →
  pc_ok st (sys_in_table s) ev p' →
  (sys_in_table s = true → closing st = false ∧ taken st = false) →
  (closing st = true → taken st = false → p' = Parked ∨ p' = Woken ∨
     (p ≠ Parked ∧ p ≠ Woken ∧ closing (sys_state s) = true ∧ taken (sys_state s) = false)) →
  (taken st = true → closing st = true ∧ active st = 0 ∧
     ((ev = [] ∧ (p' = Taking ∨ p ≠ Taking ∧ taken (sys_state s) = true ∧ sys_events s = [])) ∨ ev = [Take])) →
  (taken st = false → ev = []) →
  hinv (mkSys st (sys_in_table s) ev (<[k := p']> (sys_threads s))).
Proof.
  intros Hinv Hk Hc Hb Ha Hothers Hp' Htab Hcl Htk Hun.
  split; simpl; try done.
  { rewrite (leases_update _ _ p) by done. rewrite <- (h_active s Hinv). lia. }
  all: clear Ha.
  - intros k' q. rewrite lookup_insert. case_decide; [by intros [= <-]|].
    intros Hq. eapply Hothers; [by apply not_eq_sym|done|by apply (h_ok s Hinv k')].
  - intros k1 k2 q q'. rewrite !lookup_insert. repeat case_decide; subst; try done.
    + intros [= <-] Hq Hcp Hcq. eapply (h_one s Hinv); eauto.
    + intros Hq [= <-] Hcp Hcq. eapply (h_one s Hinv); eauto.
    + apply (h_one s Hinv).
  - intros Hcst Htst. destruct (Hcl Hcst Htst) as [->|[->|(? & ? & Hcs & Hts)]].
    + exists k, Parked. rewrite lookup_insert_eq. auto.
    + exists k, Woken. rewrite lookup_insert_eq. auto.
    + destruct (h_closing s Hinv Hcs Hts) as (k' & q & Hq & Hor).
      exists k', q. rewrite lookup_insert_ne; [done|]. intros ->.
      rewrite Hk in Hq. injection Hq as ->. naive_solver.
  - intros Ht. destruct (Htk Ht) as (? & ? & Hev). split_and!; [done..|].
    destruct Hev as [[? [->|(? & Hts & Hes)]]|?]; [left|left|by right].
    + split; [done|]. exists k. by rewrite lookup_insert_eq.
    + split; [done|]. destruct (h_taken s Hinv Hts) as (_ & _ & [[_ [k' Hk']]|Hd]); [|congruence].
      exists k'. rewrite lookup_insert_ne; [done|]. intros ->. congruence.
  - intros Ht. left. by apply Hun.
  - intros _ He. by apply insert_non_empty in He.
Qed.

(** A thread that moves without touching the state, between two points where
    it relies on nothing. *)
Lemma hinv_step_quiet s k p p' :
  hinv s → sys_threads s !! k = Some p → p ≠ Leasing → p' ≠ Leasing → p ≠ Taking →
  (closer p' = true → closer p = true) → pc_ok (sys_state s) (sys_in_table s) (sys_events s) p' →
  (p = Parked ∨ p = Woken → p' = Parked ∨ p' = Woken) →
  hinv (set_thread k p' s).
Proof.
  intros Hinv Hk Hp Hp' Ht Hc Hok Hpark. eapply (hinv_move s k); [exact Hinv|exact Hk|..]; try done.
  - apply (h_bound s Hinv).
  - rewrite !decide_False by done. lia.
  - apply (h_table s Hinv).
  - intros Hcl Htk. destruct (decide (p = Parked ∨ p = Woken)) as [?|Hn]; [naive_solver|].
    right. right. naive_solver.
  - intros Htk. destruct (h_taken s Hinv Htk) as (? & ? & [[He [k' Hk']]|?]); naive_solver.
  - by apply (held_events s k p).
Qed.

Lemma acquire_Returned st b st' :
  acquire st = (Returned b, st') →
  taken st' = taken st ∧ closing st' = closing st ∧
  if b then closing st = false ∧ active st' = active st + 1 ∧ active st' ≤ u32_max
  else closing st = true ∧ st' = st.
Proof.
  unfold acquire. destruct (closing st) eqn:Hc; [by intros [= <- <-]|].
  destruct (checked_add u32_max (active st) 1) as [a|] eqn:Ha; [|done].
  apply checked_add_Some in Ha as [-> ?]. by intros [= <- <-].
Qed.

Lemma hinv_step_acquire s k b st :
  hinv s → sys_threads s !! k = Some Cloned → acquire (sys_state s) = (Returned b, st) →
  hinv (set_thread k (if b then Leasing else Leaving) (set_state st s)).
Proof.
  intros Hinv Hk (Ht & Hc & Hb)%acquire_Returned. pose proof (h_bound s Hinv).
  destruct b; [|destruct Hb as (? & ->); destruct s; by eapply hinv_step_quiet; eauto; naive_solver].
  destruct Hb as (Hcf & Ha & Hmax).
  eapply (hinv_move s k); [exact Hinv|exact Hk|..]; try done; simpl.
  - int_lia.
  - lia.
  - intros k' q _ Hq. destruct q; simpl; rewrite ?Hc, ?Ht; intuition congruence.
  - rewrite Ht, Hc. apply (h_table s Hinv).
  - congruence.
  - rewrite Ht. intros Htk. destruct (h_taken s Hinv Htk) as (? & _). congruence.
  - rewrite Ht. by apply (held_events s k Cloned).
Qed.

Lemma hinv_step_close s k p b st :
  hinv s → sys_threads s !! k = Some p → p = Removed ∨ p = Woken →
  close_test (close_enter (sys_state s)) = (Returned b, st) →
  hinv (set_thread k (if b then Taking else Parked) (set_state st s)).
Proof.
  intros Hinv Hk Hp Hst. pose proof (h_ok s Hinv k p Hk) as Hok. pose proof (h_bound s Hinv).
  assert (closer p = true ∧ p ≠ Leasing ∧ taken (sys_state s) = false ∧ sys_in_table s = false)
    as (Hcp & Hnl & Hnt & Htab) by (destruct Hp; subst p; simpl in Hok; naive_solver).
  pose proof (held_events s k p Hinv Hk Hnt) as Hev.
  assert (active st = active (sys_state s) ∧ closing st = true ∧ taken st = b ∧
          (b = true ↔ active (sys_state s) = 0)) as (Ha & Hcl & Htk & Hb).
  { unfold close_test in Hst. simpl in Hst.
    destruct (Z.eqb_spec (active (sys_state s)) 0); injection Hst as <- <-; naive_solver. }
  eapply (hinv_move s k); [exact Hinv|exact Hk|..]; try done; simpl.
  - rewrite Ha. done.
  - rewrite !decide_False by (done || by destruct b). lia.
  - intros k' q Hne Hq _. destruct q; simpl; try done; exfalso; apply Hne;
      by eapply (h_one s Hinv).
  - destruct b; simpl; rewrite Hcl, Htk, ?Hev, Htab, ?Ha; naive_solver.
  - rewrite Htab. done.
  - rewrite Htk. intros _ ->. by left.
  - rewrite Htk, Hcl, Ha, Hev. intros ->. naive_solver.
Qed.

Lemma close_enter_id st : closing st = true → close_enter st = st.
Proof. destruct st; simpl. by intros ->. Qed.

Lemma hinv_step_take s k :
  hinv s → sys_threads s !! k = Some Taking →
  hinv (mkSys (sys_state s) (sys_in_table s) (Take :: sys_events s) (<[k := Leaving]> (sys_threads s))).
Proof.
  intros Hinv Hk. destruct (h_ok s Hinv k _ Hk) as (Hc & Ht & Htab & Ha & He).
  eapply (hinv_move s k); [exact Hinv|exact Hk|..]; try done; simpl.
  - apply (h_bound s Hinv).
  - lia.
  - intros k' q Hne Hq _. destruct q; simpl; try done; exfalso; apply Hne;
      by eapply (h_one s Hinv).
  - rewrite Htab. done.
  - congruence.
  - rewrite He. auto.
  - congruence.
Qed.

(** A new thread, where no thread is closing. *)
Lemma hinv_new s k p tab :
  hinv s → sys_in_table s = true → sys_threads s !! k = None →
  (p = Cloned ∧ tab = true) ∨ (p = Removed ∧ tab = false) →
  hinv (mkSys (sys_state s) tab (sys_events s) (<[k := p]> (sys_threads s))).
Proof.
  intros Hinv Htab Hk Hp. destruct (h_table s Hinv Htab) as [Hc Ht].
  assert (sys_events s = []) as He by (destruct (h_untaken s Hinv Ht) as [?|(_ & ? & _)]; congruence).
  assert (∀ k' q, sys_threads s !! k' = Some q → closer q = false) as Hnc.
  { intros k' q Hq. pose proof (h_ok s Hinv k' q Hq). destruct q; simpl in *; naive_solver. }
  assert (p ≠ Leasing) by naive_solver.
  split; simpl.
  - apply (h_bound s Hinv).
  - rewrite leases_new by done. apply (h_active s Hinv).
  - intros k' q. rewrite lookup_insert. case_decide.
    + intros [= <-]. destruct Hp as [[-> ->]|[-> ->]]; simpl; auto.
    + intros Hq. pose proof (h_ok s Hinv k' q Hq). specialize (Hnc k' q Hq). by destruct q.
  - intros k1 k2 q q'. rewrite !lookup_insert. repeat case_decide; subst; try done.
    + intros _ Hq _ Hcq. specialize (Hnc _ _ Hq). congruence.
    + intros Hq _ Hcq _. specialize (Hnc _ _ Hq). congruence.
    + intros Hq _ Hcq _. specialize (Hnc _ _ Hq). congruence.
  - by intros _.
  - congruence.
  - congruence.
  - auto.
  - intros _ Hn. by apply insert_non_empty in Hn.
Qed.

(** The last holder of a record whose payload was not taken drops it. *)
Lemma hinv_leave s k :
  hinv s → sys_threads s !! k = Some Leaving →
  hinv (drop_if_last (mkSys (sys_state s) (sys_in_table s) (sys_events s) (delete k (sys_threads s)))).
Proof.
  intros Hinv Hk. unfold drop_if_last; simpl.
  pose proof (held_events s k _ Hinv Hk) as Hev.
  assert (∀ k' p, delete k (sys_threads s) !! k' = Some p → sys_threads s !! k' = Some p) as Hsub.
  { intros k' p. rewrite lookup_delete. by case_decide. }
  assert (∀ k' p, sys_threads s !! k' = Some p → p ≠ Leaving → delete k (sys_threads s) !! k' = Some p) as Hsup.
  { intros k' p Hp Hne. rewrite lookup_delete_ne; [done|]. congruence. }
  destruct (bool_decide (delete k (sys_threads s) = ∅) && negb (sys_in_table s) && negb (taken (sys_state s))) eqn:Hlast.
  - apply andb_true_iff in Hlast as [[Hempty%bool_decide_eq_true Htab%negb_true_iff]%andb_true_iff Ht%negb_true_iff].
    rewrite Hempty. rewrite (Hev Ht). split; simpl.
    + apply (h_bound s Hinv).
    + rewrite <- Hempty, (leases_leave _ _ Leaving) by done. apply (h_active s Hinv).
    + intros k' p. by rewrite lookup_empty.
    + intros k1 k2 p q. by rewrite lookup_empty.
    + congruence.
    + intros Hc _. destruct (h_closing s Hinv Hc Ht) as (k' & p & Hp & Hpw).
      specialize (Hsup k' p Hp). rewrite Hempty, lookup_empty in Hsup.
      destruct Hpw; subst p; by discriminate Hsup.
    + congruence.
    + right. done.
    + done.
  - split; simpl.
    + apply (h_bound s Hinv).
    + rewrite (leases_leave _ _ Leaving) by done. apply (h_active s Hinv).
    + intros k' p Hp%Hsub. by apply (h_ok s Hinv k').
    + intros k1 k2 p q Hp%Hsub Hq%Hsub. by apply (h_one s Hinv).
    + apply (h_table s Hinv).
    + intros Hc Ht. destruct (h_closing s Hinv Hc Ht) as (k' & p & Hp & Hpw).
      exists k', p. split; [|done]. apply Hsup; [done|]. by destruct Hpw; subst p.
    + intros Ht. destruct (h_taken s Hinv Ht) as (? & ? & [[? [k' Hk']]|?]); split_and!; try done; [|by right].
      left. split; [done|]. exists k'. by apply Hsup.
    + intros Ht. left. by apply Hev.
    + intros Htab Hempty. rewrite Htab in Hlast.
      rewrite bool_decide_eq_true_2 in Hlast by done. simpl in Hlast.
      apply negb_false_iff in Hlast. destruct (h_taken s Hinv Hlast) as (_ & _ & [[_ [k' Hk']]|Hd]); [|congruence].
      apply Hsup in Hk'; [|done]. rewrite Hempty, lookup_empty in Hk'. done.
Qed.

(** Dropping the runtime drops the table's [Arc]. *)
Lemma hinv_drop_table s :
  hinv s → sys_in_table s = true →
  hinv (drop_if_last (mkSys (sys_state s) false (sys_events s) (sys_threads s))).
Proof.
  intros Hinv Htab. destruct (h_table s Hinv Htab) as [Hc Ht]. unfold drop_if_last; simpl.
  assert (sys_events s = []) as He by (destruct (h_untaken s Hinv Ht) as [?|(_ & ? & _)]; congruence).
  rewrite Ht, He, !andb_true_r. case_bool_decide as Hempty.
  - split; simpl; try congruence.
    + apply (h_bound s Hinv).
    + apply (h_active s Hinv).
    + rewrite Hempty. intros k p. by rewrite lookup_empty.
    + apply (h_one s Hinv).
    + by right.
  - split; simpl; try congruence; try auto.
    + apply (h_bound s Hinv).
    + apply (h_active s Hinv).
    + intros k p Hp. pose proof (h_ok s Hinv k p Hp) as Hok. destruct p; simpl in *; naive_solver.
    + apply (h_one s Hinv).
Qed.

(** Dropping a lease; the last one wakes the closer. *)
Lemma hinv_lease_drop s k b st :
  hinv s → sys_threads s !! k = Some Leasing → lease_drop (sys_state s) = (Returned b, st) →
  hinv (mkSys st (sys_in_table s) (sys_events s)
          (if b then wake <$> <[k := Leaving]> (sys_threads s) else <[k := Leaving]> (sys_threads s))).
Proof.
  intros Hinv Hk. unfold lease_drop. intros [= <- <-].
  pose proof (leasing_active s k Hinv Hk) as Hpos. pose proof (h_bound s Hinv) as Hb.
  replace (saturating_sub (active (sys_state s)) 1) with (active (sys_state s) - 1) by int_lia.
  set (st := mkHandleState (active (sys_state s) - 1) (closing (sys_state s)) (taken (sys_state s))).
  assert (taken (sys_state s) = false) as Ht.
  { apply not_true_iff_false. intros Htk. destruct (h_taken s Hinv Htk) as (_ & ? & _). lia. }
  pose proof (held_events s k _ Hinv Hk Ht) as He.
  destruct ((active (sys_state s) - 1 =? 0) && closing (sys_state s)) eqn:Hwake.
  - apply andb_true_iff in Hwake as [Hz%Z.eqb_eq Hc].
    assert (∀ k' q, (wake <$> <[k := Leaving]> (sys_threads s)) !! k' = Some q →
      ∃ q', q = wake q' ∧ ((k' = k ∧ q' = Leaving) ∨ (k' ≠ k ∧ sys_threads s !! k' = Some q'))) as Hlk.
    { intros k' q. rewrite lookup_fmap, lookup_insert. case_decide.
      - intros [= <-]. exists Leaving. naive_solver.
      - destruct (sys_threads s !! k') as [q'|] eqn:Hq'; [|done]. intros [= <-]. exists q'. naive_solver. }
    split; simpl; try done.
    + int_lia.
    + rewrite leases_wake, (leases_update _ _ Leasing) by done. simpl.
      pose proof (h_active s Hinv). lia.
    + intros k' q (q' & -> & [[-> ->]|[Hne Hq']])%Hlk; [done|].
      pose proof (h_ok s Hinv k' q' Hq') as Hok. destruct q'; simpl in *; naive_solver.
    + intros k1 k2 q1 q2 (q1' & -> & H1)%Hlk (q2' & -> & H2)%Hlk Hc1 Hc2.
      assert (closer q1' = true) by (by destruct q1'). assert (closer q2' = true) by (by destruct q2').
      destruct H1 as [[-> ->]|[_ H1]]; [done|]. destruct H2 as [[-> ->]|[_ H2]]; [done|].
      by eapply (h_one s Hinv).
    + intros Htab. destruct (h_table s Hinv Htab). congruence.
    + intros _ _. destruct (h_closing s Hinv Hc Ht) as (k' & p & Hp & Hpw).
      exists k', Woken. split; [|by right]. rewrite lookup_fmap, lookup_insert_ne by (intros ->; naive_solver).
      rewrite Hp. by destruct Hpw; subst p.
    + congruence.
    + intros _. by left.
    + intros _ Hem. apply fmap_empty_inv in Hem. by apply insert_non_empty in Hem.
  - eapply (hinv_move s k); [exact Hinv|exact Hk|..]; try done; simpl.
    + int_lia.
    + lia.
    + intros k' q _ Hq. destruct q; simpl; try tauto; [|intros (_ & ? & _); congruence].
      intros (? & ? & ? & ?). split_and!; try done. intros Hz. rewrite Hz in Hwake. simpl in Hwake. congruence.
    + apply (h_table s Hinv).
    + intros Hc _. right. right. by split_and!.
    + congruence.
Qed.

Lemma hinv_step s s' : hinv s → hstep s s' → hinv s'.
Proof.
  intros Hinv Hstep. destruct Hstep.
  - apply (hinv_new s k Cloned true) in Hinv; auto. unfold set_thread. by rewrite H.
  - apply (hinv_step_quiet s k Cloned Leaving); naive_solver.
  - by apply hinv_step_acquire.
  - assert (st = sys_state s) as ->.
    { unfold acquire in *. repeat case_match; congruence. }
    destruct s; apply (hinv_step_quiet _ k Cloned Leaving); naive_solver.
  - by apply hinv_lease_drop.
  - apply (hinv_new s k Removed false) in Hinv; auto.
  - apply (hinv_step_quiet s k Removed Leaving); naive_solver.
  - by eapply hinv_step_close; eauto.
  - apply (hinv_step_quiet s k Parked Woken); auto. pose proof (h_ok s Hinv k _ H) as Hok. simpl in *. naive_solver.
  - eapply hinv_step_close; eauto. rewrite close_enter_id; [done|]. apply (h_ok s Hinv k _ H).
  - by apply hinv_step_take.
  - by apply hinv_leave.
  - by apply hinv_drop_table.
Qed.

Lemma hinv_init : hinv Sys_init.
Proof.
  split; simpl; try done.
  by left.
Qed.

Lemma hinv_steps s s' : hinv s → rtc hstep s s' → hinv s'.
Proof. intros Hinv. induction 1; [done|]. eauto using hinv_step. Qed.

Lemma hreach_inv s : hreach s → hinv s.
Proof. apply hinv_steps, hinv_init. Qed.

(** ** The theorems *)

(** A thread that holds a handle lease dereferences a payload that is
    still in its cell: it was neither moved out by a close nor dropped. *)
Theorem lease_payload_present s k :
  hreach s → sys_threads s !! k = Some Leasing → sys_events s = [] ∧ taken (sys_state s) = false.
Proof.
  intros Hinv%hreach_inv Hk. pose proof (leasing_active s k Hinv Hk).
  assert (taken (sys_state s) = false) as Ht.
  { apply not_true_iff_false. intros Htk. destruct (h_taken s Hinv Htk) as (_ & ? & _). lia. }
  split; [by eapply held_events|done].
Qed.

(** C15: the payload is consumed at most once, by being moved out or by being
    dropped, and never leaks: it has been consumed exactly once when the record
    has left the table and no thread holds it. *)
Theorem payload_consumed_once s :
  hreach s →
  (length (sys_events s) ≤ 1)%nat ∧
  (sys_in_table s = false → sys_threads s = ∅ → length (sys_events s) = 1%nat).
Proof.
  intros Hinv%hreach_inv.
  assert (sys_events s = [] ∨ ∃ e, sys_events s = [e]) as Hev.
  { destruct (taken (sys_state s)) eqn:Ht.
    - destruct (h_taken s Hinv Ht) as (_ & _ & [[? _]|?]); eauto.
    - destruct (h_untaken s Hinv Ht) as [?|[? _]]; eauto. }
  split.
  - destruct Hev as [->|[e ->]]; simpl; lia.
  - intros Htab Hth. pose proof (h_end s Hinv Htab Hth). by destruct Hev as [?|[e ->]].
Qed.

(** What the threads are doing once thread [k] has dropped its lease ([HandleLease::drop]),
    [notify] being whether the drop notified [drained]. *)
Definition after_drop (notify : bool) (k : nat) (m : gmap nat pc) : gmap nat pc :=
  if notify then wake <$> <[k := Leaving]> m else <[k := Leaving]> m.

(** C21: no wakeup is lost. While a closing thread waits on the condition
    variable, the count it waits for is the number of threads that still own a
    lease, and is not zero. Whichever of them drops its lease next, the drop
    notifies exactly if that lease is the last one: the closing thread then wakes
    up, and the test it makes again lets it take the payload. Otherwise the closing
    thread keeps waiting, with one lease less to wait for, and the last of these
    is the one that will notify. *)
Theorem no_lost_wakeup s k :
  hreach s → sys_threads s !! k = Some Parked →
  active (sys_state s) = leases (sys_threads s) ∧ 1 ≤ leases (sys_threads s) ∧
  (∃ k', sys_threads s !! k' = Some Leasing) ∧
  ∀ k', sys_threads s !! k' = Some Leasing → ∃ notify st,
    lease_drop (sys_state s) = (Returned notify, st) ∧
    leases (after_drop notify k' (sys_threads s)) = leases (sys_threads s) - 1 ∧
    if notify : bool then
      leases (sys_threads s) = 1 ∧
      after_drop notify k' (sys_threads s) !! k = Some Woken ∧
      ∃ st', close_test st = (Returned true, st')
    else
      1 < leases (sys_threads s) ∧
      after_drop notify k' (sys_threads s) !! k = Some Parked ∧
      close_test st = (Returned false, st).
Proof.
  intros Hinv%hreach_inv Hk. destruct (h_ok s Hinv k _ Hk) as (Hc & _ & _ & Ha).
  pose proof (h_active s Hinv) as Hl. pose proof (h_bound s Hinv).
  rewrite Hl in Ha. pose proof Ha as (k' & p & Hk' & ->)%count_map_witness.
  split; [done|]. split; [int_lia|]. split; [by exists k'|].
  clear k' Hk'. intros k' Hk'. assert (k' ≠ k) by congruence.
  assert (leases (<[k' := Leaving]> (sys_threads s)) = leases (sys_threads s) - 1) as Hn
    by (rewrite (leases_update _ _ Leasing) by done; rewrite decide_True, decide_False by done; lia).
  pose proof (leasing_active s k' Hinv Hk').
  destruct (lease_drop (sys_state s)) as [o st] eqn:Hd. pose proof Hd as Hd'.
  unfold lease_drop in Hd. injection Hd as <- <-. eexists _, _. split; [done|]. rewrite Hc, andb_true_r.
  unfold close_test, after_drop; simpl.
  replace (saturating_sub _ _) with (active (sys_state s) - 1) by int_lia.
  destruct (Z.eqb_spec (active (sys_state s) - 1) 0) as [Hz|Hz].
  - rewrite leases_wake, lookup_fmap, lookup_insert_ne, Hk by done. naive_solver lia.
  - rewrite lookup_insert_ne, Hk by done. split_and!; [lia|lia|done|].
    by destruct (sys_state s); simpl in *; subst.
Qed.

(** Threads other than the one that drops its lease stay where they are, or wake up. *)
Lemma lease_drop_step s k k' p :
  hinv s → sys_threads s !! k' = Some Leasing → sys_threads s !! k = Some p → p ≠ Leasing →
  ∃ s', hstep s s' ∧ active (sys_state s') = active (sys_state s) - 1 ∧
    (sys_threads s' !! k = Some p ∨ sys_threads s' !! k = Some (wake p)).
Proof.
  intros Hinv Hk' Hk Hp. pose proof (leasing_active s k' Hinv Hk').
  destruct (lease_drop (sys_state s)) as [o st] eqn:Hd. pose proof Hd as Hd'.
  unfold lease_drop in Hd. injection Hd as <- <-.
  eexists. split; [by apply (step_lease_drop s k')|]. simpl. split; [int_lia|].
  assert (k' ≠ k) by congruence.
  case_match; [right; rewrite lookup_fmap|left]; rewrite lookup_insert_ne by done; by rewrite Hk.
Qed.

Lemma close_test_idle st :
  active st = 0 → close_test (close_enter st) = (Returned true, mkHandleState 0 true true).
Proof. intros Ha. unfold close_test. simpl. by rewrite Ha. Qed.

Lemma closer_finishes n : ∀ s k p,
  hinv s → sys_threads s !! k = Some p → closer p = true → Z.to_nat (active (sys_state s)) = n →
  ∃ s', rtc hstep s s' ∧ sys_events s' = [Take].
Proof.
  induction n as [|n IH]; intros s k p Hinv Hk Hc Hn; pose proof (h_bound s Hinv) as Hb.
  - assert (active (sys_state s) = 0) as Ha by int_lia. pose proof (h_ok s Hinv k p Hk) as Hok.
    assert (∀ s', hinv s' → sys_threads s' !! k = Some Taking → ∃ s'', rtc hstep s' s'' ∧ sys_events s'' = [Take]) as Htake.
    { intros s' Hinv' Hk'. eexists. split; [apply rtc_once, (step_take s' k Hk')|]. simpl.
      destruct (h_ok s' Hinv' k _ Hk') as (_ & _ & _ & _ & ->). done. }
    assert (∀ s', hstep s s' → sys_threads s' !! k = Some Taking → ∃ s'', rtc hstep s s'' ∧ sys_events s'' = [Take]) as Hgo.
    { intros s' Hs' Hk'. destruct (Htake s') as (s'' & ? & ?); [by eapply hinv_step|done|].
      exists s''. split; [by eapply rtc_l|done]. }
    destruct p; try done; simpl in Hok; [| naive_solver | |by apply Htake].
    + eapply Hgo; [apply (step_close s k true _ Hk (close_test_idle _ Ha))|]. simpl. apply lookup_insert_eq.
    + assert (close_test (sys_state s) = (Returned true, mkHandleState 0 true true)) as Ht.
      { rewrite <- (close_enter_id (sys_state s)) by apply Hok. by apply close_test_idle. }
      eapply Hgo; [apply (step_retest s k true _ Hk Ht)|]. simpl. apply lookup_insert_eq.
  - assert (leases (sys_threads s) ≠ 0) as Hl by (rewrite <- (h_active s Hinv); lia).
    apply count_map_witness in Hl as (k' & q & Hk' & ->).
    destruct (lease_drop_step s k k' p Hinv Hk' Hk) as (s' & Hs' & Ha & Hor); [by intros ->|].
    pose proof (hinv_step _ _ Hinv Hs') as Hinv'.
    assert (∃ q, sys_threads s' !! k = Some q ∧ closer q = true) as (q & Hq & Hcq).
    { destruct Hor as [?|?]; [by exists p|]. exists (wake p). split; [done|]. by destruct p. }
    destruct (IH s' k q) as (s'' & ? & ?); [done..|int_lia|].
    exists s''. split; [by eapply rtc_l|done].
Qed.

(** A close is never stuck: from any reachable state in which a thread has
    begun to release the handle, the drops of the leases that exist bring it to
    the point where it owns the payload. *)
Theorem close_can_finish s k p :
  hreach s → sys_threads s !! k = Some p → closer p = true →
  ∃ s', rtc hstep s s' ∧ sys_events s' = [Take].
Proof. intros Hinv%hreach_inv Hk Hc. by eapply closer_finishes. Qed.

Local Ltac ins Hins := let j := fresh in let Hj := fresh in intros j Hj; eapply Hins; [|exact Hj]; try done.

(** Once the record is closing, no new lease is granted and the number of
    leases never grows, so the wait of the closing thread is bounded by the
    callbacks already running. *)
Theorem closing_leases_decrease s s' :
  hreach s → hstep s s' → closing (sys_state s) = true →
  closing (sys_state s') = true ∧ active (sys_state s') ≤ active (sys_state s) ∧
  ∀ k, sys_threads s' !! k = Some Leasing → sys_threads s !! k = Some Leasing.
Proof.
  intros Hinv%hreach_inv Hstep Hc.
  assert (sys_in_table s = false) as Htab.
  { apply not_true_iff_false. intros Ht. destruct (h_table s Hinv Ht). congruence. }
  assert (∀ k q j, q ≠ Leasing → <[k := q]> (sys_threads s) !! j = Some Leasing → sys_threads s !! j = Some Leasing) as Hins.
  { intros k q j Hq. rewrite lookup_insert. case_decide; [by intros [= ->]|done]. }
  destruct Hstep; simpl; try congruence; try (split_and!; [done|lia|ins Hins]).
  - apply acquire_Returned in H0 as (_ & Hcl & Hb). destruct b; [destruct Hb; congruence|].
    destruct Hb as [_ ->]. split_and!; [done|lia|ins Hins].
  - assert (st = sys_state s) as -> by (unfold acquire in *; repeat case_match; congruence).
    split_and!; [done|lia|ins Hins].
  - pose proof (leasing_active s k Hinv H). unfold lease_drop in H0. injection H0 as <- <-. simpl.
    split_and!; [done|int_lia|]. intros j. destruct (_ && _); [|revert j; ins Hins].
    rewrite lookup_fmap. intros (q & Hj & Hq)%fmap_Some.
    apply (Hins k Leaving j); [done|]. by destruct q.
  - unfold close_test in H0. simpl in H0. rewrite <- Hc.
    destruct (_ =? 0); injection H0 as <- <-; simpl; split_and!; try done; ins Hins; by destruct b.
  - unfold close_test in H0.
    destruct (_ =? 0); injection H0 as <- <-; simpl; split_and!; try done; ins Hins; by destruct b.
  - assert (∀ j, delete k (sys_threads s) !! j = Some Leasing → sys_threads s !! j = Some Leasing) as Hdel.
    { intros j. rewrite lookup_delete. by destruct (decide (k = j)). }
    unfold drop_if_last. case_match; simpl; by split_and!.
Qed.

(** A run in which thread 0 leases the handle and thread 1 closes it. *)
Definition sample_leased : Sys :=
  set_thread 0 Leasing (set_state (mkHandleState 1 false false) (set_thread 0 Cloned Sys_init)).
Definition sample_removed : Sys :=
  mkSys (sys_state sample_leased) false [] (<[1%nat := Removed]> (sys_threads sample_leased)).
Definition sample_parked : Sys :=
  set_thread 1 Parked (set_state (mkHandleState 1 true false) sample_removed).

Lemma sample_leased_reach : hreach sample_leased.
Proof.
  eapply rtc_l; [by apply (step_clone _ 0)|].
  eapply rtc_l; [by apply (step_acquire _ 0 true (mkHandleState 1 false false))|]. done.
Qed.

Lemma sample_parked_reach : hreach sample_parked.
Proof.
  unfold hreach. transitivity sample_leased; [apply sample_leased_reach|].
  eapply rtc_l; [by apply (step_remove _ 1)|].
  eapply rtc_l; [by apply (step_close _ 1 false (mkHandleState 1 true false))|]. done.
Qed.

Lemma lease_payload_present_witness :
  sys_events sample_leased = [] ∧ taken (sys_state sample_leased) = false.
Proof. apply (lease_payload_present sample_leased 0); [apply sample_leased_reach|reflexivity]. Defined.

Lemma payload_consumed_once_witness :
  (length (sys_events sample_parked) ≤ 1)%nat ∧
  (sys_in_table sample_parked = false → sys_threads sample_parked = ∅ →
   length (sys_events sample_parked) = 1%nat).
Proof. apply (payload_consumed_once sample_parked). apply sample_parked_reach. Defined.

Lemma no_lost_wakeup_witness :
  after_drop true 0 (sys_threads sample_parked) !! 1%nat = Some Woken.
Proof.
  destruct (no_lost_wakeup sample_parked 1) as (_ & _ & _ & Hdrop); [apply sample_parked_reach|reflexivity|].
  destruct (Hdrop 0%nat eq_refl) as ([] & st & Hd & _ & Hw); [apply Hw|].
  exfalso. vm_compute in Hd. discriminate Hd.
Defined.

Lemma close_can_finish_witness : ∃ s', rtc hstep sample_parked s' ∧ sys_events s' = [Take].
Proof.
  apply (close_can_finish sample_parked 1 Parked); [apply sample_parked_reach|reflexivity|reflexivity].
Defined.

Lemma closing_leases_decrease_witness :
  let s' := set_thread 1 Woken sample_parked in
  closing (sys_state s') = true ∧ active (sys_state s') ≤ active (sys_state sample_parked) ∧
  ∀ k, sys_threads s' !! k = Some Leasing → sys_threads sample_parked !! k = Some Leasing.
Proof.
  apply (closing_leases_decrease sample_parked);
    [apply sample_parked_reach|apply step_spurious; reflexivity|reflexivity].
Defined.
