(* ===== verification/NodeFs.v ===== *)
(** * The filesystem interface ([typed_fuse_core/src/node_fs.rs], trait [NodeFs])

    A filesystem is a record of callbacks. A callback is a program over the
    filesystem's own state that can reach the runtime only through [Cx], the
    leases it took, and the sink it was given: the theorems of the runtime are
    proved for every such program, so for every filesystem. *)

From S2P Require Import Prelude Types NodeTable.

(** ** Callback programs

    [prog N S E A]: nodes of type [N], own state [S], directory entries of type
    [E] pushed into the sink, result [A]. [Crash] is a panic and [Hang] a call
    that never returns (a blocking [setlk], say).  [Critical f k] is a critical
    section on the filesystem's own state: one step, which waits while [f] has
    no result.  The calls that may panic ([Cx::get] and [Cx::add_link] when a
    counter is full, and the sink) go on with [u] when they do: what the
    callback's own destructors do before the panic reaches the runtime. *)
Inductive prog (N S E A : Type) : Type :=
| Done (a : A)
| Crash
| Hang
| ReadState (k : S → prog N S E A)
| WriteState (s : S) (k : prog N S E A)
| Critical {B : Type} (f : S → option (B * S)) (k : B → prog N S E A)
| CxTryGet (id : NodeId) (k : option (LiveRef N) → prog N S E A) (u : prog N S E A)
| CxDropRef (key : nat) (k : prog N S E A)
| CxContains (id : NodeId) (k : bool → prog N S E A)
| CxInsert (p : N) (parent : NodeId) (k : NodeId → prog N S E A)
| CxReparent (id new_parent : NodeId) (k : prog N S E A)
| CxTryAddLink (id : NodeId) (k u : prog N S E A)
| CxRemoveLink (id : NodeId) (k : prog N S E A)
| TryEmit (e : E) (k : bool → prog N S E A) (u : prog N S E A).
Arguments Done {N S E A}.
Arguments Crash {N S E A}.
Arguments Hang {N S E A}.
Arguments ReadState {N S E A}.
Arguments WriteState {N S E A}.
Arguments Critical {N S E A B}.
Arguments CxTryGet {N S E A}.
Arguments CxDropRef {N S E A}.
Arguments CxContains {N S E A}.
Arguments CxInsert {N S E A}.
Arguments CxReparent {N S E A}.
Arguments CxTryAddLink {N S E A}.
Arguments CxRemoveLink {N S E A}.
Arguments TryEmit {N S E A}.

(** Where there is nothing to undo. *)
Notation CxGet id k := (CxTryGet id k Crash).
Notation CxAddLink id k := (CxTryAddLink id k Crash).
Notation Emit e k := (TryEmit e k Crash).

Fixpoint prog_bind {N S E A B} (m : prog N S E A) (f : A → prog N S E B) : prog N S E B :=
  match m with
  | Done a => f a
  | Crash => Crash
  | Hang => Hang
  | ReadState k => ReadState (λ s, prog_bind (k s) f)
  | WriteState s k => WriteState s (prog_bind k f)
  | Critical c k => Critical c (λ b, prog_bind (k b) f)
  | CxTryGet id k u => CxTryGet id (λ r, prog_bind (k r) f) (prog_bind u f)
  | CxDropRef key k => CxDropRef key (prog_bind k f)
  | CxContains id k => CxContains id (λ b, prog_bind (k b) f)
  | CxInsert p parent k => CxInsert p parent (λ id, prog_bind (k id) f)
  | CxReparent id p k => CxReparent id p (prog_bind k f)
  | CxTryAddLink id k u => CxTryAddLink id (prog_bind k f) (prog_bind u f)
  | CxRemoveLink id k => CxRemoveLink id (prog_bind k f)
  | TryEmit e k u => TryEmit e (λ b, prog_bind (k b) f) (prog_bind u f)
  end.

#[export] Instance prog_ret {N S E} : MRet (prog N S E) := λ A a, Done a.
#[export] Instance prog_mbind {N S E} : MBind (prog N S E) := λ A B f m, prog_bind m f.

(** The [?] operator. *)
Definition prog_try {N S E A B} (m : prog N S E (Result Errno A))
    (f : A → prog N S E (Result Errno B)) : prog N S E (Result Errno B) :=
  prog_bind m (λ r, match r with Ok a => f a | Err e => Done (Err e) end).

(** Programs that wait only while the filesystem's own state satisfies [P];
    those that never hang. *)
Fixpoint stalls_in {N S E A} (P : S → Prop) (m : prog N S E A) : Prop :=
  match m with
  | Done _ | Crash => True
  | Hang => ∀ s, P s
  | ReadState k => ∀ s, stalls_in P (k s)
  | WriteState _ k => stalls_in P k
  | Critical f k => (∀ s, is_Some (f s) ∨ P s) ∧ ∀ b, stalls_in P (k b)
  | CxTryGet _ k u => (∀ r, stalls_in P (k r)) ∧ stalls_in P u
  | CxDropRef _ k => stalls_in P k
  | CxContains _ k => ∀ b, stalls_in P (k b)
  | CxInsert _ _ k => ∀ id, stalls_in P (k id)
  | CxReparent _ _ k => stalls_in P k
  | CxTryAddLink _ k u => stalls_in P k ∧ stalls_in P u
  | CxRemoveLink _ k => stalls_in P k
  | TryEmit _ k u => (∀ b, stalls_in P (k b)) ∧ stalls_in P u
  end.
Fixpoint no_hang {N S E A} (m : prog N S E A) : Prop :=
  match m with
  | Done _ | Crash => True
  | Hang => False
  | ReadState k => ∀ s, no_hang (k s)
  | WriteState _ k => no_hang k
  | Critical f k => (∀ s, is_Some (f s)) ∧ ∀ b, no_hang (k b)
  | CxTryGet _ k u => (∀ r, no_hang (k r)) ∧ no_hang u
  | CxDropRef _ k => no_hang k
  | CxContains _ k => ∀ b, no_hang (k b)
  | CxInsert _ _ k => ∀ id, no_hang (k id)
  | CxReparent _ _ k => no_hang k
  | CxTryAddLink _ k u => no_hang k ∧ no_hang u
  | CxRemoveLink _ k => no_hang k
  | TryEmit _ k u => (∀ b, no_hang (k b)) ∧ no_hang u
  end.

Lemma no_hang_stalls {N S E A} (P : S → Prop) (m : prog N S E A) : no_hang m → stalls_in P m.
Proof. induction m; simpl; naive_solver. Qed.
Lemma stalls_always {N S E A} (m : prog N S E A) : stalls_in (λ _, True) m.
Proof. induction m; simpl; naive_solver. Qed.

(** A program that writes only states that satisfy [I], whatever it is
    answered, as long as it reads such states. *)
Fixpoint keeps {N S E A} (I : S → Prop) (m : prog N S E A) : Prop :=
  match m with
  | Done _ | Crash | Hang => True
  | ReadState k => ∀ s, I s → keeps I (k s)
  | WriteState s k => I s ∧ keeps I k
  | Critical f k => ∀ s b s', I s → f s = Some (b, s') → I s' ∧ keeps I (k b)
  | CxTryGet _ k u => (∀ r, keeps I (k r)) ∧ keeps I u
  | CxDropRef _ k => keeps I k
  | CxContains _ k => ∀ b, keeps I (k b)
  | CxInsert _ _ k => ∀ id, keeps I (k id)
  | CxReparent _ _ k => keeps I k
  | CxTryAddLink _ k u => keeps I k ∧ keeps I u
  | CxRemoveLink _ k => keeps I k
  | TryEmit _ k u => (∀ b, keeps I (k b)) ∧ keeps I u
  end.

Lemma keeps_bind {N S E A B} (I : S → Prop) (m : prog N S E A) (k : A → prog N S E B) :
  keeps I m → (∀ a, keeps I (k a)) → keeps I (prog_bind m k).
Proof. intros Hm Hk. induction m; simpl in *; naive_solver. Qed.

Lemma stalls_bind {N S E A B} (P : S → Prop) (m : prog N S E A) (k : A → prog N S E B) :
  stalls_in P m → (∀ a, stalls_in P (k a)) → stalls_in P (prog_bind m k).
Proof. intros Hm Hk. induction m; simpl in *; naive_solver. Qed.

Lemma keeps_try {N S E A B} (I : S → Prop) (m : prog N S E (Result Errno A))
    (k : A → prog N S E (Result Errno B)) :
  keeps I m → (∀ a, keeps I (k a)) → keeps I (prog_try m k).
Proof. intros Hm Hk. apply keeps_bind; [done|]. by intros [a|e]; simpl. Qed.

(** ** What callbacks are written with *)

(** A step on the filesystem's own state, under its locks. *)
Definition atomically {N S E A} (m : M S A) : prog N S E A :=
  Critical (λ s, match m s with
    | (Returned a, s') => Some (Some a, s')
    | (Panicked, s') => Some (None, s')
    | (Blocked, _) => None
    end) (λ r, match r with Some a => Done a | None => Crash end).

(** A lease is dropped when its scope ends, by unwinding too. *)
Fixpoint prog_finally {N S E A} (m : prog N S E A) (fin : ∀ {B}, prog N S E B → prog N S E B) : prog N S E A :=
  match m with
  | Done a => fin (Done a)
  | Crash => fin Crash
  | Hang => Hang
  | ReadState k => ReadState (λ s, prog_finally (k s) (@fin))
  | WriteState s k => WriteState s (prog_finally k (@fin))
  | Critical f k => Critical f (λ b, prog_finally (k b) (@fin))
  | CxTryGet id k u => CxTryGet id (λ r, prog_finally (k r) (@fin)) (prog_finally u (@fin))
  | CxDropRef key k => CxDropRef key (prog_finally k (@fin))
  | CxContains id k => CxContains id (λ b, prog_finally (k b) (@fin))
  | CxInsert p parent k => CxInsert p parent (λ id, prog_finally (k id) (@fin))
  | CxReparent id p k => CxReparent id p (prog_finally k (@fin))
  | CxTryAddLink id k u => CxTryAddLink id (prog_finally k (@fin)) (prog_finally u (@fin))
  | CxRemoveLink id k => CxRemoveLink id (prog_finally k (@fin))
  | TryEmit e k u => TryEmit e (λ b, prog_finally (k b) (@fin)) (prog_finally u (@fin))
  end.

Lemma keeps_finally {N S E A} (I : S → Prop) (m : prog N S E A) (fin : ∀ {B}, prog N S E B → prog N S E B) :
  (∀ B (p : prog N S E B), keeps I p → keeps I (fin p)) → keeps I m → keeps I (prog_finally m (@fin)).
Proof. intros Hf Hm. induction m; simpl in *; try apply Hf; naive_solver. Qed.

Lemma stalls_finally {N S E A} (P : S → Prop) (m : prog N S E A) (fin : ∀ {B}, prog N S E B → prog N S E B) :
  (∀ B (p : prog N S E B), stalls_in P p → stalls_in P (fin p)) → stalls_in P m → stalls_in P (prog_finally m (@fin)).
Proof. intros Hf Hm. induction m; simpl in *; try apply Hf; naive_solver. Qed.

(** [match cx.get(id)] with the reference alive in the arm. *)
Definition with_get {N S E A} (id : NodeId) (some : N → prog N S E A) (none : prog N S E A) : prog N S E A :=
  CxGet id (λ r, match r with
    | Some l => prog_finally (some (payload (arc_val (nr_record (lr_ref l))))) (λ B, CxDropRef (lr_key l))
    | None => none
    end).

(** What [DirSink::add] and [PlusDirSink::add] are given. *)
Record DirEntry := mkDirEntry {
  de_name : OsString; de_id : NodeId; de_kind : FileKind; de_next_offset : Z }.
Record PlusEntry := mkPlusEntry {
  pe_name : OsString; pe_id : NodeId; pe_attr : NodeAttr; pe_next_offset : Z }.

(** ** The trait

    [N], [H] and [D] are its associated types [Node], [Handle] and
    [DirHandle]; [S] is the state behind the interior mutability of [&self]. *)
Record NodeFs (N H D S : Type) := {
  SUPPORTS_POSIX_LOCKS : bool;
  SUPPORTS_READDIRPLUS : bool;
  fs_root : S → N * S;
  fs_populate : prog N S Empty_set unit;
  fs_init : ConnInfo → prog N S Empty_set ConnInfo;
  fs_destroy : prog N S Empty_set unit;
  fs_getattr : N → option H → Caller → prog N S Empty_set (Result Errno NodeAttr);
  fs_setattr : N → option H → SetAttr → Caller → prog N S Empty_set (Result Errno NodeAttr);
  fs_lookup : NodeId → OsString → Caller → prog N S Empty_set (Result Errno (option NodeId));
  fs_readlink : N → Caller → prog N S Empty_set (Result Errno PathBuf);
  fs_mknod : NodeId → OsString → Z → Z → Z → Caller → prog N S Empty_set (Result Errno NodeId);
  fs_mkdir : NodeId → OsString → Z → Z → Caller → prog N S Empty_set (Result Errno NodeId);
  fs_symlink : NodeId → OsString → PathBuf → Caller → prog N S Empty_set (Result Errno NodeId);
  fs_unlink : NodeId → OsString → Caller → prog N S Empty_set (Result Errno unit);
  fs_rmdir : NodeId → OsString → Caller → prog N S Empty_set (Result Errno unit);
  fs_rename : NodeId → OsString → NodeId → OsString → Z → Caller →
    prog N S Empty_set (Result Errno unit);
  fs_link : NodeId → NodeId → OsString → Caller → prog N S Empty_set (Result Errno NodeId);
  fs_open : N → Z → Caller → prog N S Empty_set (Result Errno (Opened H));
  fs_read : N → H → Z → Z → Caller → prog N S Empty_set (Result Errno bytes);
  fs_write : N → H → bytes → Z → Caller → prog N S Empty_set (Result Errno Z);
  fs_flush : N → H → Caller → prog N S Empty_set (Result Errno unit);
  fs_release : N → H → Caller → prog N S Empty_set (Result Errno unit);
  fs_fsync : N → H → bool → Caller → prog N S Empty_set (Result Errno unit);
  fs_opendir : N → Z → Caller → prog N S Empty_set (Result Errno (Opened D));
  fs_readdir : N → NodeId → NodeId → D → Z → Caller → prog N S DirEntry (Result Errno unit);
  fs_readdirplus : N → NodeId → NodeId → D → Z → Caller → prog N S PlusEntry (Result Errno unit);
  fs_releasedir : N → D → Caller → prog N S Empty_set (Result Errno unit);
  fs_fsyncdir : N → D → bool → Caller → prog N S Empty_set (Result Errno unit);
  fs_statfs : Caller → prog N S Empty_set (Result Errno StatFs);
  fs_setxattr : N → OsString → bytes → Z → Caller → prog N S Empty_set (Result Errno unit);
  fs_getxattr : N → OsString → Z → Caller → prog N S Empty_set (Result Errno XattrReply);
  fs_listxattr : N → Z → Caller → prog N S Empty_set (Result Errno XattrReply);
  fs_removexattr : N → OsString → Caller → prog N S Empty_set (Result Errno unit);
  fs_access : N → Z → Caller → prog N S Empty_set (Result Errno unit);
  fs_create : NodeId → OsString → Z → Z → Z → Caller →
    prog N S Empty_set (Result Errno (NodeId * Opened H));
  fs_fallocate : N → H → Z → Z → Z → Caller → prog N S Empty_set (Result Errno unit);
  fs_lseek : N → H → Z → Z → Caller → prog N S Empty_set (Result Errno Z);
  fs_getlk : N → H → Z → FileLock → Caller → prog N S Empty_set (Result Errno FileLock);
  fs_setlk : N → H → Z → FileLock → bool → Caller → prog N S Empty_set (Result Errno unit);
  fs_copy_file_range : NodeId → Z → NodeId → Z → Z → Z → Caller →
    prog N S Empty_set (Result Errno Z);
}.
Arguments Build_NodeFs {N H D S}.
Arguments SUPPORTS_POSIX_LOCKS {N H D S}.
Arguments SUPPORTS_READDIRPLUS {N H D S}.
Arguments fs_root {N H D S}.
Arguments fs_populate {N H D S}.
Arguments fs_init {N H D S}.
Arguments fs_destroy {N H D S}.
Arguments fs_getattr {N H D S}.
Arguments fs_setattr {N H D S}.
Arguments fs_lookup {N H D S}.
Arguments fs_readlink {N H D S}.
Arguments fs_mknod {N H D S}.
Arguments fs_mkdir {N H D S}.
Arguments fs_symlink {N H D S}.
Arguments fs_unlink {N H D S}.
Arguments fs_rmdir {N H D S}.
Arguments fs_rename {N H D S}.
Arguments fs_link {N H D S}.
Arguments fs_open {N H D S}.
Arguments fs_read {N H D S}.
Arguments fs_write {N H D S}.
Arguments fs_flush {N H D S}.
Arguments fs_release {N H D S}.
Arguments fs_fsync {N H D S}.
Arguments fs_opendir {N H D S}.
Arguments fs_readdir {N H D S}.
Arguments fs_readdirplus {N H D S}.
Arguments fs_releasedir {N H D S}.
Arguments fs_fsyncdir {N H D S}.
Arguments fs_statfs {N H D S}.
Arguments fs_setxattr {N H D S}.
Arguments fs_getxattr {N H D S}.
Arguments fs_listxattr {N H D S}.
Arguments fs_removexattr {N H D S}.
Arguments fs_access {N H D S}.
Arguments fs_create {N H D S}.
Arguments fs_fallocate {N H D S}.
Arguments fs_lseek {N H D S}.
Arguments fs_getlk {N H D S}.
Arguments fs_setlk {N H D S}.
Arguments fs_copy_file_range {N H D S}.

(** ** The default methods *)
Section defaults.
Context {N H D S : Type} `{Libc}.

Definition default_populate : prog N S Empty_set unit := Done tt.
Definition default_init (conn : ConnInfo) : prog N S Empty_set ConnInfo := Done conn.
Definition default_destroy : prog N S Empty_set unit := Done tt.
Definition default_setattr (node : N) (handle : option H) (set : SetAttr) (caller : Caller) :
    prog N S Empty_set (Result Errno NodeAttr) :=
  Done (Err ENOSYS).
Definition default_lookup (parent : NodeId) (name : OsString) (caller : Caller) :
    prog N S Empty_set (Result Errno (option NodeId)) :=
  Done (Err ENOSYS).
Definition default_readlink (node : N) (caller : Caller) :
    prog N S Empty_set (Result Errno PathBuf) :=
  Done (Err ENOSYS).
Definition default_mknod (parent : NodeId) (name : OsString) (mode : Z) (rdev : Z) (umask : Z) (caller : Caller) :
    prog N S Empty_set (Result Errno NodeId) :=
  Done (Err ENOSYS).
Definition default_mkdir (parent : NodeId) (name : OsString) (mode : Z) (umask : Z) (caller : Caller) :
    prog N S Empty_set (Result Errno NodeId) :=
  Done (Err ENOSYS).
Definition default_symlink (parent : NodeId) (name : OsString) (target : PathBuf) (caller : Caller) :
    prog N S Empty_set (Result Errno NodeId) :=
  Done (Err ENOSYS).
Definition default_unlink (parent : NodeId) (name : OsString) (caller : Caller) :
    prog N S Empty_set (Result Errno unit) :=
  Done (Err ENOSYS).
Definition default_rmdir (parent : NodeId) (name : OsString) (caller : Caller) :
    prog N S Empty_set (Result Errno unit) :=
  Done (Err ENOSYS).
Definition default_rename (parent : NodeId) (name : OsString) (newparent : NodeId) (newname : OsString) (flags : Z) (caller : Caller) :
    prog N S Empty_set (Result Errno unit) :=
  Done (Err ENOSYS).
Definition default_link (id : NodeId) (newparent : NodeId) (newname : OsString) (caller : Caller) :
    prog N S Empty_set (Result Errno NodeId) :=
  Done (Err ENOSYS).
Definition default_open (node : N) (flags : Z) (caller : Caller) :
    prog N S Empty_set (Result Errno (Opened H)) :=
  Done (Err ENOSYS).
Definition default_read (node : N) (handle : H) (offset : Z) (size : Z) (caller : Caller) :
    prog N S Empty_set (Result Errno bytes) :=
  Done (Err ENOSYS).
Definition default_write (node : N) (handle : H) (data : bytes) (offset : Z) (caller : Caller) :
    prog N S Empty_set (Result Errno Z) :=
  Done (Err ENOSYS).
Definition default_flush (node : N) (handle : H) (caller : Caller) :
    prog N S Empty_set (Result Errno unit) :=
  Done (Ok tt).
Definition default_release (node : N) (handle : H) (caller : Caller) :
    prog N S Empty_set (Result Errno unit) :=
  Done (Ok tt).
Definition default_fsync (node : N) (handle : H) (datasync : bool) (caller : Caller) :
    prog N S Empty_set (Result Errno unit) :=
  Done (Ok tt).
Definition default_opendir (node : N) (flags : Z) (caller : Caller) :
    prog N S Empty_set (Result Errno (Opened D)) :=
  Done (Err ENOSYS).
Definition default_readdir (node : N) (this : NodeId) (parent : NodeId) (handle : D) (offset : Z) (caller : Caller) :
    prog N S DirEntry (Result Errno unit) :=
  Done (Err ENOSYS).
Definition default_readdirplus (node : N) (this : NodeId) (parent : NodeId) (handle : D) (offset : Z) (caller : Caller) :
    prog N S PlusEntry (Result Errno unit) :=
  Done (Err ENOSYS).
Definition default_releasedir (node : N) (handle : D) (caller : Caller) :
    prog N S Empty_set (Result Errno unit) :=
  Done (Ok tt).
Definition default_fsyncdir (node : N) (handle : D) (datasync : bool) (caller : Caller) :
    prog N S Empty_set (Result Errno unit) :=
  Done (Ok tt).
Definition default_statfs (caller : Caller) :
    prog N S Empty_set (Result Errno StatFs) :=
  Done (Ok {|
    sfs_blocks := 0; sfs_bfree := 0; sfs_bavail := 0; sfs_files := 0; sfs_ffree := 0;
    sfs_bsize := 512; sfs_namelen := 255; sfs_frsize := 0 |}).
Definition default_setxattr (node : N) (name : OsString) (value : bytes) (flags : Z) (caller : Caller) :
    prog N S Empty_set (Result Errno unit) :=
  Done (Err ENOSYS).
Definition default_getxattr (node : N) (name : OsString) (size : Z) (caller : Caller) :
    prog N S Empty_set (Result Errno XattrReply) :=
  Done (Err ENOSYS).
Definition default_listxattr (node : N) (size : Z) (caller : Caller) :
    prog N S Empty_set (Result Errno XattrReply) :=
  Done (Err ENOSYS).
Definition default_removexattr (node : N) (name : OsString) (caller : Caller) :
    prog N S Empty_set (Result Errno unit) :=
  Done (Err ENOSYS).
Definition default_access (node : N) (mask : Z) (caller : Caller) :
    prog N S Empty_set (Result Errno unit) :=
  Done (Ok tt).
Definition default_create (parent : NodeId) (name : OsString) (mode : Z) (umask : Z) (flags : Z) (caller : Caller) :
    prog N S Empty_set (Result Errno (NodeId * Opened H)) :=
  Done (Err ENOSYS).
Definition default_fallocate (node : N) (handle : H) (mode : Z) (offset : Z) (length : Z) (caller : Caller) :
    prog N S Empty_set (Result Errno unit) :=
  Done (Err ENOSYS).
Definition default_lseek (node : N) (handle : H) (offset : Z) (whence : Z) (caller : Caller) :
    prog N S Empty_set (Result Errno Z) :=
  Done (Err ENOSYS).
Definition default_getlk (node : N) (handle : H) (owner : Z) (lock : FileLock) (caller : Caller) :
    prog N S Empty_set (Result Errno FileLock) :=
  Done (Err ENOSYS).
Definition default_setlk (node : N) (handle : H) (owner : Z) (lock : FileLock) (sleep : bool) (caller : Caller) :
    prog N S Empty_set (Result Errno unit) :=
  Done (Err ENOSYS).
Definition default_copy_file_range (id_in : NodeId) (off_in : Z) (id_out : NodeId) (off_out : Z) (len : Z) (flags : Z) (caller : Caller) :
    prog N S Empty_set (Result Errno Z) :=
  Done (Err ENOSYS).

(** A filesystem that implements only the two required methods. *)
Definition default_NodeFs (root : S → N * S)
    (getattr : N → option H → Caller → prog N S Empty_set (Result Errno NodeAttr)) : NodeFs N H D S := {|
  SUPPORTS_POSIX_LOCKS := false;
  SUPPORTS_READDIRPLUS := false;
  fs_root := root;
  fs_getattr := getattr;
  fs_populate := default_populate;
  fs_init := default_init;
  fs_destroy := default_destroy;
  fs_setattr := default_setattr;
  fs_lookup := default_lookup;
  fs_readlink := default_readlink;
  fs_mknod := default_mknod;
  fs_mkdir := default_mkdir;
  fs_symlink := default_symlink;
  fs_unlink := default_unlink;
  fs_rmdir := default_rmdir;
  fs_rename := default_rename;
  fs_link := default_link;
  fs_open := default_open;
  fs_read := default_read;
  fs_write := default_write;
  fs_flush := default_flush;
  fs_release := default_release;
  fs_fsync := default_fsync;
  fs_opendir := default_opendir;
  fs_readdir := default_readdir;
  fs_readdirplus := default_readdirplus;
  fs_releasedir := default_releasedir;
  fs_fsyncdir := default_fsyncdir;
  fs_statfs := default_statfs;
  fs_setxattr := default_setxattr;
  fs_getxattr := default_getxattr;
  fs_listxattr := default_listxattr;
  fs_removexattr := default_removexattr;
  fs_access := default_access;
  fs_create := default_create;
  fs_fallocate := default_fallocate;
  fs_lseek := default_lseek;
  fs_getlk := default_getlk;
  fs_setlk := default_setlk;
  fs_copy_file_range := default_copy_file_range;
|}.
End defaults.
