(* ===== verification/Runtime.v ===== *)
(** * The runtime ([typed_fuse_core/src/runtime.rs], [Runtime])

    Every request handler, as one thread runs it from start to end: the leases
    it takes and their release on each way out, its calls of the filesystem,
    its accesses to the handle table, and its reply.  Here a request runs
    without another one in between; [Threads] has the interleavings. *)

From S2P Require Import Prelude Types NodeTable HandleRec NodeFs.

(** ** Replies *)

Record EntryReply := mkEntryReply { er_ino : Z; er_generation : Z; er_attr : NodeAttr }.
Inductive LookupReply := Found (e : EntryReply) | Negative.
Record OpenReply := mkOpenReply { or_fh : Z; or_hints : OpenHints }.

(** ** State *)

Record HandleTable (H D : Type) := mkHandleTable {
  files : gmap Z (HandleRecord H);
  dirs : gmap Z (HandleRecord D);
  next_fh : Z;
}.
Arguments mkHandleTable {H D}.
Arguments files {H D}.
Arguments dirs {H D}.
Arguments next_fh {H D}.

(** [rt_fs] is the state behind the filesystem's [&self]; [rt_fs_refs] lists
    the keys of the node leases that the filesystem owns: it can drop no other.
    [rt_steps] is a ghost: it counts the critical sections of the table's mutex
    so far, reads included, and nothing reads it. *)
Record Runtime (N H D S : Type) := mkRuntime {
  rt_fs : S;
  rt_fs_refs : list nat;
  rt_shared : Shared N;
  rt_handles : HandleTable H D;
  rt_ttl : Duration;
  rt_negative_ttl : Duration;
  rt_parallel_dirops : bool;
  rt_steps : nat;
}.
Arguments mkRuntime {N H D S}.
Arguments rt_fs {N H D S}.
Arguments rt_fs_refs {N H D S}.
Arguments rt_shared {N H D S}.
Arguments rt_handles {N H D S}.
Arguments rt_ttl {N H D S}.
Arguments rt_negative_ttl {N H D S}.
Arguments rt_parallel_dirops {N H D S}.
Arguments rt_steps {N H D S}.

(** The runtime together with the directory sink of the current request. *)
Record World (N H D S K : Type) := mkWorld { w_rt : Runtime N H D S; w_sink : K }.
Arguments mkWorld {N H D S K}.
Arguments w_rt {N H D S K}.
Arguments w_sink {N H D S K}.

Section runtime.
Context {N H D S : Type} `{Libc}.
Implicit Types (rt : Runtime N H D S).

Definition with_fs (s : S) rt : Runtime N H D S :=
  mkRuntime s (rt_fs_refs rt) (rt_shared rt) (rt_handles rt) (rt_ttl rt) (rt_negative_ttl rt) (rt_parallel_dirops rt) (rt_steps rt).
Definition with_fs_refs (l : list nat) rt : Runtime N H D S :=
  mkRuntime (rt_fs rt) l (rt_shared rt) (rt_handles rt) (rt_ttl rt) (rt_negative_ttl rt) (rt_parallel_dirops rt) (rt_steps rt).
Definition with_shared (sh : Shared N) rt : Runtime N H D S :=
  mkRuntime (rt_fs rt) (rt_fs_refs rt) sh (rt_handles rt) (rt_ttl rt) (rt_negative_ttl rt) (rt_parallel_dirops rt) (Datatypes.S (rt_steps rt)).
Definition with_handles (t : HandleTable H D) rt : Runtime N H D S :=
  mkRuntime (rt_fs rt) (rt_fs_refs rt) (rt_shared rt) t (rt_ttl rt) (rt_negative_ttl rt) (rt_parallel_dirops rt) (rt_steps rt).
Definition with_files (m : gmap Z (HandleRecord H)) rt : Runtime N H D S :=
  with_handles (mkHandleTable m (dirs (rt_handles rt)) (next_fh (rt_handles rt))) rt.
Definition with_dirs (m : gmap Z (HandleRecord D)) rt : Runtime N H D S :=
  with_handles (mkHandleTable (files (rt_handles rt)) m (next_fh (rt_handles rt))) rt.

Definition set_ttl (ttl : Duration) rt : Runtime N H D S :=
  mkRuntime (rt_fs rt) (rt_fs_refs rt) (rt_shared rt) (rt_handles rt) ttl (rt_negative_ttl rt) (rt_parallel_dirops rt) (rt_steps rt).
Definition set_negative_ttl (ttl : Duration) rt : Runtime N H D S :=
  mkRuntime (rt_fs rt) (rt_fs_refs rt) (rt_shared rt) (rt_handles rt) (rt_ttl rt) ttl (rt_parallel_dirops rt) (rt_steps rt).
Definition set_parallel_dirops (on : bool) rt : Runtime N H D S :=
  mkRuntime (rt_fs rt) (rt_fs_refs rt) (rt_shared rt) (rt_handles rt) (rt_ttl rt) (rt_negative_ttl rt) on (rt_steps rt).

(** ** Handle tables *)

Definition HandleTable_new : HandleTable H D := mkHandleTable ∅ ∅ 1.

(** [HandleTable::next]; the increment wraps in a release build. *)
Definition next (t : HandleTable H D) : Z * HandleTable H D :=
  (next_fh t, mkHandleTable (files t) (dirs t) (wrapping_add64 (next_fh t) 1)).

Definition add_file (node : NodeId) (handle : H) (t : HandleTable H D) : Z * HandleTable H D :=
  let '(fh, t) := next t in
  (fh, mkHandleTable (<[fh := HandleRecord_new node handle]> (files t)) (dirs t) (next_fh t)).
Definition add_dir (node : NodeId) (handle : D) (t : HandleTable H D) : Z * HandleTable H D :=
  let '(fh, t) := next t in
  (fh, mkHandleTable (files t) (<[fh := HandleRecord_new node handle]> (dirs t)) (next_fh t)).

(** [Runtime::file] and [Runtime::dir] on the table they look into. *)
Definition find_handle {T} (ino fh : Z) : M (gmap Z (HandleRecord T)) (Result Errno T) := λ m,
  match m !! fh with
  | None => (Returned (Err EBADF), m)
  | Some r =>
      if negb (hr_node r =? ino) then (Returned (Err EBADF), m)
      else match acquire (hr_state r) with
           | (Returned true, st) =>
               (Returned (Ok (hr_payload r)), <[fh := mkHandleRecord (hr_node r) (hr_payload r) st]> m)
           | (Returned false, st) => (Returned (Err EBADF), m)
           | (_, st) => (Panicked, m)
           end
  end.

(** [Drop for HandleLease]. *)
Definition drop_handle {T} (fh : Z) : M (gmap Z (HandleRecord T)) unit := λ m,
  match m !! fh with
  | Some r => (Returned tt, <[fh := mkHandleRecord (hr_node r) (hr_payload r) (lease_drop (hr_state r)).2]> m)
  | None => (Returned tt, m)
  end.

(** The first half of [release] and [releasedir]: take the record out. *)
Definition remove_handle {T} (ino fh : Z) : M (gmap Z (HandleRecord T)) (Result Errno (HandleRecord T)) := λ m,
  match m !! fh with
  | None => (Returned (Err EBADF), m)
  | Some r => if negb (hr_node r =? ino) then (Returned (Err EBADF), m)
              else (Returned (Ok r), delete fh m)
  end.

(** ** Access to the parts of the world *)
Section world.
Context {K : Type}.
Abbreviation W := (World N H D S K).

Definition on_rt {A} : M (Runtime N H D S) A → M W A :=
  zoom w_rt (λ rt w, mkWorld rt (w_sink w)).
Definition on_shared {A} : M (Shared N) A → M W A :=
  zoom (λ w, rt_shared (w_rt w)) (λ sh w, mkWorld (with_shared sh (w_rt w)) (w_sink w)).
Definition on_files {A} : M (gmap Z (HandleRecord H)) A → M W A :=
  zoom (λ w, files (rt_handles (w_rt w))) (λ m w, mkWorld (with_files m (w_rt w)) (w_sink w)).
Definition on_dirs {A} : M (gmap Z (HandleRecord D)) A → M W A :=
  zoom (λ w, dirs (rt_handles (w_rt w))) (λ m w, mkWorld (with_dirs m (w_rt w)) (w_sink w)).
Definition on_handles {A} (f : HandleTable H D → A * HandleTable H D) : M W A := λ w,
  let '(a, t) := f (rt_handles (w_rt w)) in
  (Returned a, mkWorld (with_handles t (w_rt w)) (w_sink w)).

(** ** Running a filesystem callback

    [Cx] gives it the table; a lease it takes is its own until it drops it. *)
Definition fs_get (id : NodeId) : M W (option (LiveRef N)) :=
  r ← on_shared (cx_get id);
  match r with
  | Some l => on_rt (modify (λ rt, with_fs_refs (lr_key l :: rt_fs_refs rt) rt));; mret (Some l)
  | None => mret None
  end.

Definition fs_drop_ref (key : nat) : M W unit := λ w,
  if bool_decide (key ∈ rt_fs_refs (w_rt w)) then
    (on_shared (ref_drop key);;
     on_rt (modify (λ rt, with_fs_refs (filter (λ k, k ≠ key) (rt_fs_refs rt)) rt))) w
  else (Returned tt, w).

(** A critical section of the filesystem's own locks. *)
Definition own_step {A} (f : S → option (A * S)) : M W A := λ w,
  match f (rt_fs (w_rt w)) with
  | Some (a, s) => (Returned a, mkWorld (with_fs s (w_rt w)) (w_sink w))
  | None => (Blocked, w)
  end.

Fixpoint run_prog {E A} (emit : E → M W bool) (p : prog N S E A) : M W A :=
  match p with
  | Done a => mret a
  | Crash => panic
  | Hang => block
  | ReadState k => s ← gets (λ w, rt_fs (w_rt w)); run_prog emit (k s)
  | WriteState s k => on_rt (modify (with_fs s));; run_prog emit k
  | Critical f k => b ← own_step f; run_prog emit (k b)
  | CxTryGet id k u => attempt (fs_get id) (λ r, run_prog emit (k r)) (run_prog emit u)
  | CxDropRef key k => fs_drop_ref key;; run_prog emit k
  | CxContains id k => b ← on_shared (cx_contains id); run_prog emit (k b)
  | CxInsert p parent k => id ← on_shared (cx_insert p parent); run_prog emit (k id)
  | CxReparent id p k => on_shared (cx_reparent id p);; run_prog emit k
  | CxTryAddLink id k u => attempt (on_shared (cx_add_link id)) (λ _, run_prog emit k) (run_prog emit u)
  | CxRemoveLink id k => on_shared (cx_remove_link id);; run_prog emit k
  | TryEmit e k u => attempt (emit e) (λ b, run_prog emit (k b)) (run_prog emit u)
  end.

(** A callback without a sink. *)
Definition call {A} (p : prog N S Empty_set A) : M W A :=
  run_prog (λ e : Empty_set, match e with end) p.

(** ** Leases

    [node] and the [NodeRef] it returns, whose drop closes the scope; the same
    for file and directory handles. [k] gets the borrowed payload. *)
Definition node (ino : Z) : M W (Result Errno (LiveRef N)) :=
  r ← on_shared (cx_get ino);
  mret (ok_or r ENOENT).

Definition node_payload (l : LiveRef N) : N := payload (arc_val (nr_record (lr_ref l))).

Definition scope_node {B} (ino : Z) (err : Errno → M W B) (k : N → M W B) : M W B :=
  r ← node ino;
  match r with
  | Ok l => finally (k (node_payload l)) (on_shared (ref_drop (lr_key l)))
  | Err e => err e
  end.

Definition file (ino fh : Z) : M W (Result Errno H) := on_files (find_handle ino fh).
Definition dir (ino fh : Z) : M W (Result Errno D) := on_dirs (find_handle ino fh).

Definition scope_file {B} (ino fh : Z) (err : Errno → M W B) (k : H → M W B) : M W B :=
  r ← file ino fh;
  match r with
  | Ok h => finally (k h) (on_files (drop_handle fh))
  | Err e => err e
  end.
Definition scope_dir {B} (ino fh : Z) (err : Errno → M W B) (k : D → M W B) : M W B :=
  r ← dir ino fh;
  match r with
  | Ok h => finally (k h) (on_dirs (drop_handle fh))
  | Err e => err e
  end.

(** The usual case, where an error is returned with [?]. *)
Definition fail {B} (e : Errno) : M W (Result Errno B) := mret (Err e).
Definition with_node {B} (ino : Z) := @scope_node (Result Errno B) ino fail.
Definition with_file {B} (ino fh : Z) := @scope_file (Result Errno B) ino fh fail.
Definition with_dir {B} (ino fh : Z) := @scope_dir (Result Errno B) ino fh fail.

(** [fh.map(|fh| self.file(ino, fh)).transpose()?] *)
Definition with_optional_file {B} (ino : Z) (fh : option Z) (k : option H → M W (Result Errno B)) :
    M W (Result Errno B) :=
  match fh with
  | Some fh => with_file ino fh (λ h, k (Some h))
  | None => k None
  end.
(** ** Requests *)
Section handlers.
Context (fs : NodeFs N H D S).

Definition entry_for (id : NodeId) (caller : Caller) : M W (Result Errno EntryReply) :=
  with_node id (λ node,
    attr ←? call (fs_getattr fs node None caller);
    generation ←? on_shared (take_lookup id);
    mret (Ok (mkEntryReply id generation attr))).

Definition plus_entry (id : NodeId) (attr : NodeAttr) : M W (Result Errno EntryReply) :=
  generation ←? on_shared (read_generation id);
  mret (Ok (mkEntryReply id generation attr)).

Definition init (conn : ConnInfo) : M W ConnInfo :=
  parallel ← gets (λ w, rt_parallel_dirops (w_rt w));
  let conn := if (parallel : bool) then (set_enabled conn ParallelDirectoryOperations true).2 else conn in
  call (fs_init fs conn).

Definition destroy : M W unit := call (fs_destroy fs).

Definition forget (ino nlookup : Z) : M W unit := on_shared (NodeTable.forget ino nlookup).

Definition statfs (ino : Z) (caller : Caller) : M W (Result Errno StatFs) := call (fs_statfs fs caller).

Definition getattr (ino : Z) (fh : option Z) (caller : Caller) : M W (Result Errno NodeAttr) :=
  with_node ino (λ n, with_optional_file ino fh (λ h, call (fs_getattr fs n h caller))).

Definition setattr (ino : Z) (fh : option Z) (set : SetAttr) (caller : Caller) : M W (Result Errno NodeAttr) :=
  with_node ino (λ n, with_optional_file ino fh (λ h, call (fs_setattr fs n h set caller))).

Definition readlink (ino : Z) (caller : Caller) : M W (Result Errno PathBuf) :=
  with_node ino (λ n, call (fs_readlink fs n caller)).
Definition access (ino mask : Z) (caller : Caller) : M W (Result Errno unit) :=
  with_node ino (λ n, call (fs_access fs n mask caller)).
Definition setxattr (ino : Z) (name : OsString) (value : bytes) (flags : Z) (caller : Caller) :
    M W (Result Errno unit) :=
  with_node ino (λ n, call (fs_setxattr fs n name value flags caller)).
Definition getxattr (ino : Z) (name : OsString) (size : Z) (caller : Caller) : M W (Result Errno XattrReply) :=
  with_node ino (λ n, call (fs_getxattr fs n name size caller)).
Definition listxattr (ino size : Z) (caller : Caller) : M W (Result Errno XattrReply) :=
  with_node ino (λ n, call (fs_listxattr fs n size caller)).
Definition removexattr (ino : Z) (name : OsString) (caller : Caller) : M W (Result Errno unit) :=
  with_node ino (λ n, call (fs_removexattr fs n name caller)).

Definition open (ino flags : Z) (caller : Caller) : M W (Result Errno OpenReply) :=
  with_node ino (λ node,
    opened ←? call (fs_open fs node flags caller);
    _ ←? on_shared (add_open ino);
    fh ← on_handles (add_file ino (opened_handle opened));
    mret (Ok (mkOpenReply fh (opened_hints opened)))).

(** The reply continuation runs while the leases are held. *)
Definition read {R} (ino fh offset size : Z) (caller : Caller) (reply : Result Errno bytes → M W R) : M W R :=
  scope_node ino (λ e, reply (Err e)) (λ node,
    scope_file ino fh (λ e, reply (Err e)) (λ handle,
      r ← call (fs_read fs node handle offset size caller);
      reply r)).

Definition write (ino fh : Z) (data : bytes) (offset : Z) (caller : Caller) : M W (Result Errno Z) :=
  with_node ino (λ n, with_file ino fh (λ h, call (fs_write fs n h data offset caller))).
Definition flush (ino fh : Z) (caller : Caller) : M W (Result Errno unit) :=
  with_node ino (λ n, with_file ino fh (λ h, call (fs_flush fs n h caller))).
Definition fsync (ino fh : Z) (datasync : bool) (caller : Caller) : M W (Result Errno unit) :=
  with_node ino (λ n, with_file ino fh (λ h, call (fs_fsync fs n h datasync caller))).
Definition fallocate (ino fh mode offset length : Z) (caller : Caller) : M W (Result Errno unit) :=
  with_node ino (λ n, with_file ino fh (λ h, call (fs_fallocate fs n h mode offset length caller))).
Definition lseek (ino fh offset whence : Z) (caller : Caller) : M W (Result Errno Z) :=
  with_node ino (λ n, with_file ino fh (λ h, call (fs_lseek fs n h offset whence caller))).
Definition getlk (ino fh owner : Z) (requested : FileLock) (caller : Caller) : M W (Result Errno FileLock) :=
  with_node ino (λ n, with_file ino fh (λ h, call (fs_getlk fs n h owner requested caller))).
Definition setlk (ino fh owner : Z) (lock : FileLock) (sleep : bool) (caller : Caller) :
    M W (Result Errno unit) :=
  with_node ino (λ n, with_file ino fh (λ h, call (fs_setlk fs n h owner lock sleep caller))).

(** [record.close_and_take()] on a record that left the table. *)
Definition take_payload {T} (record : HandleRecord T) : M W T := λ w,
  match close_and_take (hr_state record) with
  | (Returned _, _) => (Returned (hr_payload record), w)
  | (Panicked, _) => (Panicked, w)
  | (Blocked, _) => (Blocked, w)
  end.

Definition release (ino fh : Z) (caller : Caller) : M W (Result Errno unit) :=
  record ←? on_files (remove_handle ino fh);
  with_node ino (λ node,
    on_shared (remove_open ino);;
    handle ← take_payload record;
    call (fs_release fs node handle caller)).

Definition opendir (ino flags : Z) (caller : Caller) : M W (Result Errno OpenReply) :=
  with_node ino (λ node,
    opened ←? call (fs_opendir fs node flags caller);
    _ ←? on_shared (add_open ino);
    fh ← on_handles (add_dir ino (opened_handle opened));
    mret (Ok (mkOpenReply fh (opened_hints opened)))).

Definition on_sink {A} (f : K → A * K) : M W A := λ w,
  let '(a, k) := f (w_sink w) in (Returned a, mkWorld (w_rt w) k).

Definition readdir (add : DirEntry → K → bool * K) (ino fh offset : Z) (caller : Caller) :
    M W (Result Errno unit) :=
  with_node ino (λ node,
    parent ←? on_shared (read_parent ino);
    with_dir ino fh (λ h,
      run_prog (λ e, on_sink (add e)) (fs_readdir fs node ino parent h offset caller))).

Definition fsyncdir (ino fh : Z) (datasync : bool) (caller : Caller) : M W (Result Errno unit) :=
  with_node ino (λ node, with_dir ino fh (λ h, call (fs_fsyncdir fs node h datasync caller))).

Definition releasedir (ino fh : Z) (caller : Caller) : M W (Result Errno unit) :=
  record ←? on_dirs (remove_handle ino fh);
  with_node ino (λ node,
    on_shared (remove_open ino);;
    handle ← take_payload record;
    call (fs_releasedir fs node handle caller)).

Definition lookup (parent : Z) (name : OsString) (caller : Caller) : M W (Result Errno LookupReply) :=
  found ←? call (fs_lookup fs parent name caller);
  match found with
  | Some id => entry ←? entry_for id caller; mret (Ok (Found entry))
  | None => mret (Ok Negative)
  end.

Definition mknod (parent : Z) (name : OsString) (mode rdev umask : Z) (caller : Caller) :
    M W (Result Errno EntryReply) :=
  id ←? call (fs_mknod fs parent name mode rdev umask caller);
  entry_for id caller.
Definition mkdir (parent : Z) (name : OsString) (mode umask : Z) (caller : Caller) :
    M W (Result Errno EntryReply) :=
  id ←? call (fs_mkdir fs parent name mode umask caller);
  entry_for id caller.
Definition symlink (parent : Z) (name : OsString) (target : PathBuf) (caller : Caller) :
    M W (Result Errno EntryReply) :=
  id ←? call (fs_symlink fs parent name target caller);
  entry_for id caller.
Definition link (ino newparent : Z) (newname : OsString) (caller : Caller) :
    M W (Result Errno EntryReply) :=
  id ←? call (fs_link fs ino newparent newname caller);
  entry_for id caller.
Definition unlink (parent : Z) (name : OsString) (caller : Caller) : M W (Result Errno unit) :=
  call (fs_unlink fs parent name caller).
Definition rmdir (parent : Z) (name : OsString) (caller : Caller) : M W (Result Errno unit) :=
  call (fs_rmdir fs parent name caller).
Definition rename (parent : Z) (name : OsString) (newparent : Z) (newname : OsString) (flags : Z)
    (caller : Caller) : M W (Result Errno unit) :=
  call (fs_rename fs parent name newparent newname flags caller).

Definition create (parent : Z) (name : OsString) (mode umask flags : Z) (caller : Caller) :
    M W (Result Errno (EntryReply * OpenReply)) :=
  '(id, opened) ←? call (fs_create fs parent name mode umask flags caller);
  entry ←? entry_for id caller;
  _ ←? on_shared (add_open id);
  fh ← on_handles (add_file id (opened_handle opened));
  mret (Ok (entry, mkOpenReply fh (opened_hints opened))).

Definition copy_file_range (ino_in off_in ino_out off_out len flags : Z) (caller : Caller) :
    M W (Result Errno Z) :=
  call (fs_copy_file_range fs ino_in off_in ino_out off_out len flags caller).
End handlers.
End world.

(** ** [readdirplus]

    The [Accounting] sink retains one lookup for each entry it passes on, and
    remembers it; [inner] is the sink of the request. *)
Section readdirplus.
Context {K : Type} (fs : NodeFs N H D S).
Context (inner : OsString → EntryReply → Z → K → bool * K).
Abbreviation W := (World N H D S K).
Abbreviation WA := (World N H D S (K * list NodeId)).

Definition accounting_add (e : PlusEntry) : M WA bool :=
  entry ← plus_entry (pe_id e) (pe_attr e);
  match entry with
  | Err _ => mret false
  | Ok entry =>
      accepted ← on_sink (λ '(k, l),
        let '(b, k) := inner (pe_name e) entry (pe_next_offset e) k in (b, (k, l)));
      if negb accepted then mret false
      else if bool_decide (pe_name e ≠ ".") && bool_decide (pe_name e ≠ "..") then
        r ← on_shared (retain_lookup (pe_id e));
        match r with
        | Ok _ => on_sink (λ '(k, l), (true, (k, l ++ [pe_id e])))
        | Err _ => mret true
        end
      else mret true
  end.

(** The scope of the local [accounting]. *)
Definition with_accounting {A} (m : M WA A) : M W (A * list NodeId) := λ w,
  match m (mkWorld (w_rt w) (w_sink w, [])) with
  | (Returned a, w') => (Returned (a, (w_sink w').2), mkWorld (w_rt w') (w_sink w').1)
  | (Panicked, w') => (Panicked, mkWorld (w_rt w') (w_sink w').1)
  | (Blocked, w') => (Blocked, mkWorld (w_rt w') (w_sink w').1)
  end.

Fixpoint forget_all (ids : list NodeId) : M W unit :=
  match ids with
  | [] => mret tt
  | id :: ids => forget id 1;; forget_all ids
  end.

Definition readdirplus (ino fh offset : Z) (caller : Caller) : M W (Result Errno (list NodeId)) :=
  with_node ino (λ node,
    parent ←? on_shared (read_parent ino);
    with_dir ino fh (λ h,
      '(r, accepted) ←
        with_accounting (run_prog accounting_add (fs_readdirplus fs node ino parent h offset caller));
      match r with
      | Ok _ => mret (Ok accepted)
      | Err e => forget_all accepted;; mret (Err e)
      end)).
End readdirplus.

(** ** [Runtime::new] *)
Definition Runtime_start (fs : NodeFs N H D S) (s : S) : Runtime N H D S :=
  let '(root, s) := fs_root fs s in
  mkRuntime s [] (Shared_init root) HandleTable_new (nanos_per_sec) (nanos_per_sec) false 0.

Definition Runtime_new {K} (fs : NodeFs N H D S) (s : S) (sink : K) : outcome unit * World N H D S K :=
  call (fs_populate fs) (mkWorld (Runtime_start fs s) sink).
End runtime.
