(* ===== verification/RuntimeInv.v ===== *)
(** * The runtime's invariant, for every filesystem

    A logic of triples for the handlers of [Runtime]: each handler is a
    sequence of the atomic steps of the node table, and keeps the invariant
    [RI] that ties the table to the handle table, to the leases in scope and to
    the lookups that the kernel holds, whatever the filesystem's callbacks do
    and on every way out, panics included. *)

From S2P Require Import Prelude Types NodeTable NodeTableInv HandleRec NodeFs Runtime.

#[local] Arguments exec_op : simpl never.

(** ** What one table step does to the counters *)
Section steps.
Context {N : Type} `{Libc}.
Implicit Types (s : Slot N) (sh : Shared N).

Definition opens_at (i : Z) sh : Z :=
  match tbl_map (sh_table sh) !! i with Some s => slot_opens s | None => 0 end.

Lemma inv_run (ops : list (table_op N)) : ∀ n issued sh,
  inv_but None n issued sh → Forall op_wf ops → n + Z.of_nat (length ops) + 2 ≤ u64_max →
  ∃ issued', inv_but None (n + Z.of_nat (length ops)) issued' (run_ops ops sh).
Proof.
  induction ops as [|op ops IH]; simpl; intros n issued sh Hinv Hwf Hn.
  - exists issued. by rewrite Z.add_0_r.
  - apply Forall_cons in Hwf as [Hop Hwf].
    destruct (IH (n + 1) (op_issues op sh ++ issued) (exec_op op sh)) as [issued' Hinv']; [apply inv_exec; (done || lia)|done|lia|].
    exists issued'. by replace (n + Z.of_nat (S (length ops))) with (n + 1 + Z.of_nat (length ops)) by lia.
Qed.

(** Every operation but one spares a given counter. *)
Lemma slot_after_opens (op : table_op N) i sh s :
  op ≠ OpRemoveOpen i → slot_opens s ≤ slot_opens (slot_after op i sh s).
Proof.
  intros Hop. unfold slot_after, bump. repeat case_match; simpl; subst; try lia; try done.
Qed.

Lemma slot_after_lookups (op : table_op N) i sh s :
  (∀ k, op ≠ OpForget i k) → slot_lookups s ≤ slot_lookups (slot_after op i sh s).
Proof.
  intros Hop. unfold slot_after, bump. repeat case_match; simpl; subst; try lia; try naive_solver.
Qed.

Lemma slot_after_generation (op : table_op N) i sh s :
  slot_generation (slot_after op i sh s) = slot_generation s.
Proof. unfold slot_after. repeat case_match; done. Qed.

Lemma opens_exec (op : table_op N) n issued sh i :
  inv_but None n issued sh → n + 2 < u64_max → op ≠ OpRemoveOpen i →
  opens_at i sh ≤ opens_at i (exec_op op sh).
Proof.
  intros Hinv Hn Hop. unfold opens_at. rewrite (lookup_exec op n issued) by done. unfold lookup_after.
  destruct (tbl_map (sh_table sh) !! i) as [s|] eqn:Hs.
  - unfold keep. pose proof (slot_after_opens op i sh s Hop).
    destruct (droppable (slot_after op i sh s)) eqn:Hd; [|done].
    apply droppable_true in Hd as (_ & _ & ? & _). lia.
  - destruct op; try done. destruct (alloc _) as [[ino g] t]. case_decide; simpl; lia.
Qed.

(** A slot with a lookup left after the step survives it. *)
Lemma held_exec (op : table_op N) n issued sh i s c :
  inv_but None n issued sh → n + 2 < u64_max → tbl_map (sh_table sh) !! i = Some s →
  1 ≤ c ≤ slot_lookups (slot_after op i sh s) →
  tbl_map (sh_table (exec_op op sh)) !! i = Some (slot_after op i sh s).
Proof.
  intros Hinv Hn Hs Hc. rewrite (lookup_exec op n issued) by done. unfold lookup_after. rewrite Hs.
  apply keep_counted. lia.
Qed.

(** The leases a step creates or drops. *)
Lemma exec_refs (op : table_op N) sh :
  match op with
  | OpGet id => ∀ l, (cx_get id sh).1 = Returned (Some l) →
      lr_key l = sh_next_ref sh ∧ sh_refs (exec_op op sh) = <[lr_key l := lr_ref l]> (sh_refs sh)
  | OpDropRef k => sh_refs (exec_op op sh) = delete k (sh_refs sh)
  | _ => sh_refs (exec_op op sh) = sh_refs sh
  end.
Proof.
  destruct op; unfold exec_op; simpl; try done.
  - intros l. unfold cx_get. repeat case_match; simpl; try done. by intros [= <-].
  - unfold ref_drop. destruct (sh_refs sh !! k) as [r|] eqn:Hr; simpl; [done|]. by rewrite delete_id.
  - unfold cx_insert. by destruct (alloc (sh_table sh)) as [[? ?] ?].
  - unfold cx_reparent. by case_match.
  - unfold cx_add_link. by repeat case_match.
  - unfold take_lookup. by repeat case_match.
  - unfold add_open. by repeat case_match.
Qed.

(** Closing a handle takes one open off, and no more. *)
Lemma opens_remove n issued sh i :
  inv_but None n issued sh → n + 2 < u64_max →
  opens_at i sh - 1 ≤ opens_at i (exec_op (OpRemoveOpen i) sh).
Proof.
  intros Hinv Hn. unfold opens_at. rewrite (lookup_exec (OpRemoveOpen i) n issued) by done.
  unfold lookup_after. destruct (tbl_map (sh_table sh) !! i) as [s|] eqn:Hs; [|done].
  simpl. rewrite decide_True by done. unfold keep.
  destruct (droppable _) eqn:Hd; simpl; [|lia].
  apply droppable_true in Hd as (_ & _ & Hd & _). simpl in Hd. lia.
Qed.

Lemma ref_drop_returns k sh : (ref_drop k sh).1 = Returned tt.
Proof. unfold ref_drop. by destruct (sh_refs sh !! k). Qed.

(** [cx_get] leaves the table alone when it gives no lease. *)
Lemma cx_get_fails id sh :
  (∀ l, (cx_get id sh).1 ≠ Returned (Some l)) → (cx_get id sh).2 = sh.
Proof.
  unfold cx_get. repeat case_match; simpl; try done. intros Hl. by edestruct Hl.
Qed.
End steps.

(** ** Triples

    [triple B P m Q]: the effect of [m] on the table is a sequence of atomic
    steps, no more than were counted; if the table is good and stays within the bound on the number of
    steps, then [P] before gives [Q] after, for the outcome and the state.  A
    thread may block only if [B].  [P] and [Q] know the step count. *)
Section triples.
Context {N H D S K : Type} `{Libc}.
Abbreviation W := (World N H D S K).
Implicit Types w : W.

Definition sh_of w : Shared N := rt_shared (w_rt w).

Definition steps_of w : nat := rt_steps (w_rt w).

(** Below this many critical sections no 64-bit counter of the table wraps. *)
Definition few_steps w : Prop := Z.of_nat (steps_of w) + 2 ≤ u64_max.
#[export] Instance few_steps_dec w : Decision (few_steps w) := Z.le_dec _ _.

(** The table goes from [w] to [w'] by the steps [ops], and they were counted. *)
Definition made (ops : list (table_op N)) w w' : Prop :=
  sh_of w' = run_ops ops (sh_of w) ∧ (length ops + steps_of w ≤ steps_of w')%nat.

Lemma made_app ops1 ops2 w1 w2 w3 : made ops1 w1 w2 → made ops2 w2 w3 → made (ops1 ++ ops2) w1 w3.
Proof.
  intros [Hsh1 ?] [Hsh2 ?]. split; [by rewrite run_ops_app, <- Hsh1|]. rewrite length_app. lia.
Qed.

Definition triple {A} (B : Prop) (P : Z → W → Prop) (m : M W A) (Q : outcome A → Z → W → Prop) : Prop :=
  ∀ w, ∃ ops, Forall op_wf ops ∧ made ops w (m w).2 ∧
    ∀ n issued, inv_but None n issued (sh_of w) → n + Z.of_nat (length ops) + 2 ≤ u64_max → P n w →
      match (m w).1 with
      | Blocked => B
      | o => Q o (n + Z.of_nat (length ops)) (m w).2
      end.

Lemma triple_conseq {A} B (P P' : Z → W → Prop) (m : M W A) (Q Q' : outcome A → Z → W → Prop) :
  triple B P m Q → (∀ n w, P' n w → P n w) → (∀ o n w, Q o n w → Q' o n w) → triple B P' m Q'.
Proof.
  intros Hm HP HQ w. destruct (Hm w) as (ops & ? & ? & Hq). exists ops. split_and!; [done..|].
  intros n issued Hinv Hn Hp. specialize (Hq n issued Hinv Hn (HP _ _ Hp)).
  destruct (m w) as [[a| |] w']; simpl in *; auto.
Qed.

(** A fact that does not depend on the state can be carried along. *)
Lemma triple_frame {A} B (φ : Prop) (P : Z → W → Prop) (m : M W A) (Q : outcome A → Z → W → Prop) :
  triple B P m Q → triple B (λ n w, P n w ∧ φ) m (λ o n w, Q o n w ∧ φ).
Proof.
  intros Hm w. destruct (Hm w) as (ops & ? & ? & Hq). exists ops. split_and!; [done..|].
  intros n issued Hinv Hn [Hp ?]. specialize (Hq n issued Hinv Hn Hp). by destruct (m w) as [[a| |] w'].
Qed.

(** Blocking can be excluded by such a fact. *)
Lemma triple_unblocked {A} B (φ : Prop) (P : Z → W → Prop) (m : M W A) (Q : outcome A → Z → W → Prop) :
  triple (B ∨ ¬ φ) P m Q → triple B (λ n w, P n w ∧ φ) m Q.
Proof.
  intros Hm w. destruct (Hm w) as (ops & ? & ? & Hq). exists ops. split_and!; [done..|].
  intros n issued Hinv Hn [Hp ?]. specialize (Hq n issued Hinv Hn Hp).
  destruct (m w) as [[a| |] w']; simpl in *; tauto.
Qed.

Lemma triple_pure {A} B (P : Z → W → Prop) (o : outcome A) Q :
  o ≠ Blocked → (∀ n w, P n w → Q o n w) → triple B P (λ w, (o, w)) Q.
Proof.
  intros Ho HQ w. exists []. split_and!; [done..|]. intros n issued _ _ Hp. simpl.
  rewrite Z.add_0_r. destruct o; [by apply HQ|by apply HQ|done].
Qed.

Lemma triple_ret {A} B (P : Z → W → Prop) (a : A) Q :
  (∀ n w, P n w → Q (Returned a) n w) → triple B P (mret a) Q.
Proof. by apply triple_pure. Qed.

(** Two computations in sequence make their steps in sequence. *)
Lemma triple_seq {A C} B (P : Z → W → Prop) (m : M W A) (R : outcome A → Z → W → Prop)
    (k : outcome A → M W C) Q :
  triple B P m R →
  (∀ o, o ≠ Blocked → triple B (R o) (k o) Q) →
  triple B P (λ w, match m w with (Blocked, w') => (Blocked, w') | (o, w') => k o w' end) Q.
Proof.
  intros Hm Hk w. destruct (Hm w) as (ops1 & Hwf1 & Hsh1 & H1).
  destruct (m w) as [o w'] eqn:Hmw. simpl in Hsh1, H1.
  assert (o = Blocked ∨ o ≠ Blocked) as [->|Ho] by (destruct o; [by right|by right|by left]);
    [by exists ops1|].
  destruct (Hk o Ho w') as (ops2 & Hwf2 & Hsh2 & H2).
  assert ((match o with Blocked => (Blocked, w') | _ => k o w' end) = k o w') as Heq by (by destruct o).
  exists (ops1 ++ ops2). split_and!; [by apply Forall_app| |].
  - apply (made_app _ _ _ w'); [done|]. by destruct o.
  - intros n issued Hinv Hn Hp. rewrite length_app in *.
    replace (n + Z.of_nat (length ops1 + length ops2))
      with (n + Z.of_nat (length ops1) + Z.of_nat (length ops2)) by lia.
    destruct (inv_run ops1 n issued (sh_of w) Hinv Hwf1) as [issued' Hinv']; [lia|].
    destruct Hsh1 as [Hsh1 _]. rewrite <- Hsh1 in Hinv'. specialize (H2 _ _ Hinv').
    assert (R o (n + Z.of_nat (length ops1)) w') as HR.
    { specialize (H1 n issued Hinv ltac:(lia) Hp). by destruct o. }
    specialize (H2 ltac:(lia) HR). by destruct o.
Qed.

Lemma triple_ext {A} B P (m m' : M W A) Q : (∀ w, m w = m' w) → triple B P m Q → triple B P m' Q.
Proof. intros Heq Hm w. rewrite <- Heq. apply Hm. Qed.

Lemma triple_bind {A C} B (P : Z → W → Prop) (m : M W A) (R : A → Z → W → Prop) (k : A → M W C) Q :
  triple B P m (λ o n w, match o with
                         | Returned a => R a n w
                         | Panicked => Q Panicked n w
                         | Blocked => True
                         end) →
  (∀ a, triple B (R a) (k a) Q) → triple B P (m ≫= k) Q.
Proof.
  intros Hm Hk.
  eapply triple_ext; [|eapply triple_seq with
    (k := λ o w, match o with Returned a => k a w | Panicked => (Panicked, w) | Blocked => (Blocked, w) end);
    [exact Hm|]].
  - intros w. unfold mbind, M_bind. by destruct (m w) as [[a| |] w'].
  - intros [a| |] Ho; [apply Hk|by apply triple_pure|done].
Qed.

Lemma triple_attempt {A C} B (P : Z → W → Prop) (m : M W A) (R : A → Z → W → Prop) R' (k : A → M W C) u Q :
  triple B P m (λ o n w, match o with
                         | Returned a => R a n w
                         | Panicked => R' n w
                         | Blocked => True
                         end) →
  (∀ a, triple B (R a) (k a) Q) → triple B R' u Q → triple B P (attempt m k u) Q.
Proof.
  intros Hm Hk Hu.
  eapply triple_ext; [|eapply triple_seq with
    (k := λ o w, match o with Returned a => k a w | Panicked => u w | Blocked => (Blocked, w) end);
    [exact Hm|]].
  - intros w. unfold attempt. by destruct (m w) as [[a| |] w'].
  - intros [a| |] Ho; [apply Hk|apply Hu|done].
Qed.

Lemma triple_try {A C} B (P : Z → W → Prop) (m : M W (Result Errno A)) (R : A → Z → W → Prop)
    (k : A → M W (Result Errno C)) Q :
  triple B P m (λ o n w, match o with
                         | Returned (Ok a) => R a n w
                         | Returned (Err e) => Q (Returned (Err e)) n w
                         | Panicked => Q Panicked n w
                         | Blocked => True
                         end) →
  (∀ a, triple B (R a) (k a) Q) → triple B P (try_bind m k) Q.
Proof.
  intros Hm Hk. unfold try_bind.
  apply triple_bind with (R := λ r n w, match r with Ok a => R a n w | Err e => Q (Returned (Err e)) n w end).
  - eapply triple_conseq; [exact Hm|done|]. by intros [[a|e]| |].
  - intros [a|e]; [apply Hk|by apply triple_ret].
Qed.

(** The scope of an RAII guard: its drop runs on every way out, and neither
    panics nor blocks. *)
Lemma triple_finally {A} B (P : Z → W → Prop) (m : M W A) (fin : M W unit) R Q :
  triple B P m R →
  (∀ o, o ≠ Blocked → triple False (R o) fin (λ o' n w, o' = Returned tt ∧ Q o n w)) →
  triple B P (finally m fin) Q.
Proof.
  intros Hm Hfin. eapply triple_ext; [|eapply triple_seq with
    (k := λ o w, match fin w with
                 | (Returned _, w') => (o, w')
                 | (Panicked, w') => (Panicked, w')
                 | (Blocked, w') => (Blocked, w')
                 end); [exact Hm|]].
  - intros w. unfold finally. destruct (m w) as [[a| |] w']; [| |done];
      by destruct (fin w') as [[[]| |] w''].
  - intros o Ho w. destruct (Hfin o Ho w) as (ops & ? & ? & Hq). exists ops.
    destruct (fin w) as [[[]| |] w'] eqn:Hf; simpl in *; (split_and!; [done..|]);
      intros n issued Hinv Hn Hp; specialize (Hq n issued Hinv Hn Hp); simpl in *.
    + destruct o; tauto.
    + by destruct Hq.
    + done.
Qed.

(** One atomic step. *)
Lemma triple_step {A} B (P : Z → W → Prop) (m : M (Shared N) A) (op : table_op N) Q :
  op_wf op → (∀ sh, (m sh).2 = exec_op op sh) → (∀ sh, (m sh).1 ≠ Blocked) →
  (∀ n issued w, inv_but None n issued (sh_of w) → n + 2 < u64_max → P n w →
     Q (m (sh_of w)).1 (n + 1) (mkWorld (with_shared (exec_op op (sh_of w)) (w_rt w)) (w_sink w))) →
  triple B P (on_shared m) Q.
Proof.
  intros Hwf Hexec Hnb HQ w. exists [op]. split_and!; [by constructor| |].
  - split; [change (run_ops [op] (sh_of w)) with (exec_op op (sh_of w)); rewrite <- Hexec|];
      unfold on_shared, zoom; fold (sh_of w); by destruct (m (sh_of w)).
  - intros n issued Hinv Hn Hp. specialize (HQ n issued w Hinv ltac:(simpl in Hn; lia) Hp).
    specialize (Hnb (sh_of w)). unfold on_shared, zoom. fold (sh_of w). rewrite <- Hexec in HQ.
    destruct (m (sh_of w)) as [[a| |] sh']; simpl in *; done.
Qed.

(** A read of the table. *)
Lemma triple_read {A} B (P : Z → W → Prop) (f : Shared N → A) Q :
  (∀ n w, P n w → Q (Returned (f (sh_of w))) n (mkWorld (with_shared (sh_of w) (w_rt w)) (w_sink w))) →
  triple B P (on_shared (gets f)) Q.
Proof.
  intros HQ w. exists []. split_and!; [done|split; [done|unfold steps_of; simpl; lia]|].
  intros n issued _ _ Hp. simpl. rewrite Z.add_0_r. exact (HQ n w Hp).
Qed.

(** A change elsewhere in the world. *)
Lemma triple_local {A} B (P : Z → W → Prop) (m : M W A) Q :
  (∀ w, made [] w (m w).2) → (∀ w, (m w).1 ≠ Blocked) →
  (∀ n w, P n w → Q (m w).1 n (m w).2) → triple B P m Q.
Proof.
  intros Hsh Hnb HQ w. exists []. split_and!; [done|apply Hsh|]. intros n issued _ _ Hp. simpl.
  rewrite Z.add_0_r. specialize (HQ n w Hp). specialize (Hnb w). by destruct (m w).1.
Qed.
End triples.

(** ** The invariant *)

(** What the current request holds: node leases, a lease of a file or of a
    directory handle, an open counted in the table but not yet (or no longer)
    in the handle table, and whether a handle number is still to be taken. *)
Record frame := mkFrame {
  f_refs : list nat; f_file : option Z; f_dir : option Z; f_pend : option Z; f_new : bool }.

Definition idle_frame : frame := mkFrame [] None None None false.
Definition push_ref (k : nat) (f : frame) : frame :=
  mkFrame (k :: f_refs f) (f_file f) (f_dir f) (f_pend f) (f_new f).

(** The kernel's view: the generation and the number of lookups it holds for
    each inode it knows. *)
Abbreviation ledger := (gmap Z (Z * Z)).

Definition ledger_add (i g : Z) (L : ledger) : ledger :=
  <[i := (g, match L !! i with Some (_, c) => c + 1 | None => 1 end)]> L.

Definition ledger_forget (i k : Z) (L : ledger) : ledger :=
  match L !! i with
  | Some (g, c) => if decide (c ≤ k) then delete i L else <[i := (g, c - k)]> L
  | None => L
  end.

Section runtime_invariant.
Context {N H D S : Type} `{Libc}.
Implicit Types (rt : Runtime N H D S) (f : frame) (L : ledger).

Abbreviation sh rt := (rt_shared rt).
Abbreviation tbl rt := (tbl_map (sh_table (rt_shared rt))).

(** The number of handles open on an inode. *)
Definition handle_count (i : Z) (t : HandleTable H D) : Z :=
  count_map (λ r, hr_node r = i) (files t) + count_map (λ r, hr_node r = i) (dirs t).

Definition owed (i : Z) f : Z := if decide (f_pend f = Some i) then 1 else 0.

Definition leased_state (b : bool) : HandleState := mkHandleState (if b then 1 else 0) false false.

Definition held_at (i g c : Z) rt : Prop :=
  1 ≤ c ∧ ∃ s, tbl rt !! i = Some s ∧ slot_generation s = g ∧ c ≤ slot_lookups s.

Record RI f L (n : Z) rt : Prop := {
  ri_refs : ∀ k, is_Some (sh_refs (sh rt) !! k) ↔ k ∈ rt_fs_refs rt ∨ k ∈ f_refs f;
  ri_disjoint : ∀ k, k ∈ rt_fs_refs rt → k ∉ f_refs f;
  ri_nodup : NoDup (f_refs f);
  ri_files : ∀ fh r, files (rt_handles rt) !! fh = Some r →
    hr_state r = leased_state (bool_decide (f_file f = Some fh)) ∧ 0 < fh < next_fh (rt_handles rt);
  ri_dirs : ∀ fh r, dirs (rt_handles rt) !! fh = Some r →
    hr_state r = leased_state (bool_decide (f_dir f = Some fh)) ∧ 0 < fh < next_fh (rt_handles rt);
  ri_opens : ∀ i, handle_count i (rt_handles rt) + owed i f ≤ opens_at i (sh rt);
  ri_next : 1 ≤ next_fh (rt_handles rt) ∧ next_fh (rt_handles rt) + (if f_new f then 1 else 0) ≤ n + 1;
  ri_held : ∀ i g c, L !! i = Some (g, c) → held_at i g c rt;
}.

(** A critical section that only reads. *)
Lemma RI_counted f L n rt : RI f L n rt → RI f L n (with_shared (sh rt) rt).
Proof. by intros []. Qed.

(** Steps that neither drop a reference of any kind nor touch a lease. *)
Definition neutral (op : table_op N) : Prop :=
  match op with
  | OpInsert _ _ | OpReparent _ _ | OpAddLink _ | OpRemoveLink _ | OpLookup _ | OpAddOpen _ => True
  | _ => False
  end.

(** The parts of the invariant that any step but a forget or a release keeps. *)
Lemma ri_opens_step f L n rt op issued :
  RI f L n rt → inv_but None n issued (sh rt) → n + 2 < u64_max → (∀ i, op ≠ OpRemoveOpen i) →
  ∀ i, handle_count i (rt_handles rt) + owed i f ≤ opens_at i (exec_op op (sh rt)).
Proof.
  intros HRI Hinv Hn Hop i. pose proof (ri_opens _ _ _ _ HRI i).
  pose proof (opens_exec op n issued (sh rt) i Hinv Hn (Hop i)). lia.
Qed.

Lemma held_step L n rt op issued i g c :
  (∀ k, op ≠ OpForget i k) → inv_but None n issued (sh rt) → n + 2 < u64_max →
  held_at i g c rt → held_at i g c (with_shared (exec_op op (sh rt)) rt).
Proof.
  intros Hop Hinv Hn (Hc & s & Hs & Hg & Hl). split; [done|].
  pose proof (slot_after_lookups op i (sh rt) s Hop).
  exists (slot_after op i (sh rt) s). split_and!; [|by rewrite slot_after_generation|lia].
  simpl. eapply held_exec; [exact Hinv|lia|exact Hs|split; [exact Hc|lia]].
Qed.

Lemma neutral_spec op : neutral op →
  (∀ i k, op ≠ OpForget i k) ∧ (∀ i, op ≠ OpRemoveOpen i) ∧ op_wf op ∧
  ∀ s : Shared N, sh_refs (exec_op op s) = sh_refs s.
Proof.
  intros Hop. split_and!; [by intros i k ->|by intros i ->|by destruct op|].
  intros s. pose proof (exec_refs op s). by destruct op.
Qed.

Lemma RI_neutral f L n rt op issued :
  neutral op → RI f L n rt → inv_but None n issued (sh rt) → n + 2 < u64_max →
  RI f L (n + 1) (with_shared (exec_op op (sh rt)) rt).
Proof.
  intros Hop HRI Hinv Hn. destruct (neutral_spec op Hop) as (Hnf & Hnr & _ & Hrefs).
  pose proof (ri_opens_step f L n rt op issued HRI Hinv Hn Hnr).
  pose proof HRI as [].
  split; simpl; try done.
  - by rewrite Hrefs.
  - destruct (f_new f); lia.
  - intros i g c Hi. eapply held_step; eauto.
Qed.

(** Taking a lease, for the runtime or for the filesystem. *)
Lemma RI_get f L n rt id l issued :
  (cx_get id (sh rt)).1 = Returned (Some l) → RI f L n rt → inv_but None n issued (sh rt) →
  n + 2 < u64_max →
  lr_key l ∉ rt_fs_refs rt ∧ lr_key l ∉ f_refs f ∧
  RI (push_ref (lr_key l) f) L (n + 1) (with_shared (cx_get id (sh rt)).2 rt) ∧
  RI f L (n + 1) (with_fs_refs (lr_key l :: rt_fs_refs rt) (with_shared (cx_get id (sh rt)).2 rt)).
Proof.
  intros Hget HRI Hinv Hn. change (cx_get id (sh rt)).2 with (exec_op (OpGet id) (sh rt)).
  destruct (exec_refs (OpGet id) (sh rt) l Hget) as [Hkey Hrefs].
  assert (sh_refs (sh rt) !! lr_key l = None) as Hfresh.
  { destruct (sh_refs (sh rt) !! lr_key l) as [r|] eqn:Hr; [|done].
    destruct (inv_refs _ _ _ _ Hinv _ _ Hr) as [? _]. lia. }
  assert (lr_key l ∉ rt_fs_refs rt ∧ lr_key l ∉ f_refs f) as [Hnf Hnr].
  { pose proof (ri_refs _ _ _ _ HRI (lr_key l)) as [_ Hr]. rewrite Hfresh in Hr.
    split; intros Hin; by destruct (Hr ltac:(auto)). }
  assert (∀ k, is_Some (<[lr_key l:=lr_ref l]> (sh_refs (sh rt)) !! k) ↔
    k = lr_key l ∨ k ∈ rt_fs_refs rt ∨ k ∈ f_refs f) as Hiff.
  { intros k. rewrite lookup_insert_is_Some, (ri_refs _ _ _ _ HRI k).
    destruct (decide (lr_key l = k)); naive_solver. }
  pose proof (ri_opens_step f L n rt (OpGet id) issued HRI Hinv Hn ltac:(done)).
  assert (∀ i g c, L !! i = Some (g, c) → held_at i g c (with_shared (exec_op (OpGet id) (sh rt)) rt)) as Hheld.
  { intros i g c Hi. eapply held_step; [done..|]. by eapply ri_held. }
  simpl in Hrefs. split_and!; [done..| |]; pose proof HRI as []; split; simpl; try done; try (destruct (f_new f); lia).
  - intros k. rewrite Hrefs, Hiff, elem_of_cons. tauto.
  - intros k Hk. rewrite not_elem_of_cons. split; [by intros ->|by apply ri_disjoint0].
  - by apply NoDup_cons.
  - intros k. rewrite Hrefs, Hiff, elem_of_cons. tauto.
  - intros k [->|Hk]%elem_of_cons; [done|by apply ri_disjoint0].
Qed.
(** Giving a lease back. *)
Lemma RI_drop_common f L n rt k issued :
  RI f L n rt → inv_but None n issued (sh rt) → n + 2 < u64_max →
  (∀ i, handle_count i (rt_handles rt) + owed i f ≤ opens_at i (exec_op (OpDropRef k) (sh rt))) ∧
  (∀ i g c, L !! i = Some (g, c) → held_at i g c (with_shared (exec_op (OpDropRef k) (sh rt)) rt)) ∧
  (∀ j, is_Some (sh_refs (exec_op (OpDropRef k) (sh rt)) !! j) ↔
        j ≠ k ∧ (j ∈ rt_fs_refs rt ∨ j ∈ f_refs f)).
Proof.
  intros HRI Hinv Hn. split_and!.
  - by eapply ri_opens_step.
  - intros i g c Hi. eapply held_step; [done..|]. by eapply ri_held.
  - intros j. rewrite (exec_refs (OpDropRef k) (sh rt)), lookup_delete_is_Some, (ri_refs _ _ _ _ HRI j).
    split; intros [??]; split; auto.
Qed.

Lemma RI_drop f L n rt k issued :
  RI (push_ref k f) L n rt → inv_but None n issued (sh rt) → n + 2 < u64_max →
  RI f L (n + 1) (with_shared (exec_op (OpDropRef k) (sh rt)) rt).
Proof.
  intros HRI Hinv Hn.
  destruct (RI_drop_common _ L n rt k issued HRI Hinv Hn) as (Hopens & Hheld & Hrefs).
  pose proof HRI as []. simpl in *. apply NoDup_cons in ri_nodup0 as [Hk Hnd].
  split; simpl; try done; try (destruct (f_new f); lia).
  - intros j. rewrite Hrefs, elem_of_cons. split; [naive_solver|].
    intros [Hj|Hj]; (split; [|auto]); intros ->; [|done]. destruct (ri_disjoint0 k Hj). by left.
  - intros j Hj. specialize (ri_disjoint0 j Hj). rewrite not_elem_of_cons in ri_disjoint0. tauto.
Qed.

Lemma RI_fs_drop f L n rt k issued :
  RI f L n rt → k ∈ rt_fs_refs rt → inv_but None n issued (sh rt) → n + 2 < u64_max →
  RI f L (n + 1) (with_fs_refs (filter (λ j, j ≠ k) (rt_fs_refs rt))
                    (with_shared (exec_op (OpDropRef k) (sh rt)) rt)).
Proof.
  intros HRI Hk Hinv Hn.
  destruct (RI_drop_common _ L n rt k issued HRI Hinv Hn) as (Hopens & Hheld & Hrefs).
  pose proof HRI as [].
  split; simpl; try done; try (destruct (f_new f); lia).
  - intros j. simpl in Hrefs. rewrite Hrefs, list_elem_of_filter. split; [naive_solver|].
    intros [[? ?]|Hj]; (split; [|auto]); [done|]. intros ->. by destruct (ri_disjoint0 k Hk).
  - intros j [_ Hj]%list_elem_of_filter. by apply ri_disjoint0.
Qed.

(** [forget]: the kernel gives lookups back. *)
Lemma RI_forget f L n rt ino k issued :
  RI f L n rt → inv_but None n issued (sh rt) → n + 2 < u64_max → 0 ≤ k →
  RI f (ledger_forget ino k L) (n + 1) (with_shared (exec_op (OpForget ino k) (sh rt)) rt).
Proof.
  intros HRI Hinv Hn Hk.
  pose proof (ri_opens_step f L n rt (OpForget ino k) issued HRI Hinv Hn ltac:(done)) as Hopens.
  pose proof HRI as []. split; try done.
  - simpl. destruct (f_new f); lia.
  - intros i g c. unfold ledger_forget. destruct (L !! ino) as [[g0 c0]|] eqn:HL.
    + assert (i ≠ ino → L !! i = Some (g, c) → held_at i g c (with_shared (exec_op (OpForget ino k) (sh rt)) rt)) as Hne.
      { intros Hi HLi. apply (held_step L n rt _ issued); eauto. intros k' [=]. congruence. }
      case_decide; [rewrite lookup_delete|rewrite lookup_insert]; case_decide; auto; [done|].
      subst i. intros [= -> <-]. destruct (ri_held0 ino g c0 HL) as (Hc & s & Hs & Hg & Hl).
      split; [lia|]. exists (slot_after (OpForget ino k) ino (sh rt) s).
      assert (c0 - k ≤ slot_lookups (slot_after (OpForget ino k) ino (sh rt) s)).
      { simpl. rewrite decide_True by done. simpl. lia. }
      split_and!; [|by rewrite slot_after_generation|done].
      simpl. eapply (held_exec (OpForget ino k) n); [done|lia|done|split; [|done]; lia].
    + intros HLi. apply (held_step L n rt _ issued); eauto. intros k' [=]. congruence.
Qed.

(** [remove_open]: pays for the open that the frame owes. *)
Lemma RI_remove_open f L n rt ino issued :
  RI (mkFrame (f_refs f) (f_file f) (f_dir f) (Some ino) false) L n rt → f_pend f = None → f_new f = false →
  inv_but None n issued (sh rt) → n + 2 < u64_max →
  RI f L (n + 1) (with_shared (exec_op (OpRemoveOpen ino) (sh rt)) rt).
Proof.
  intros HRI Hp Hnew Hinv Hn. pose proof HRI as []. simpl in *.
  split; try done.
  - intros i. specialize (ri_opens0 i). unfold owed in *. simpl in *. rewrite Hp.
    rewrite (decide_False (P := None = Some i)) by done.
    destruct (decide (ino = i)) as [->|Hne].
    + rewrite decide_True in ri_opens0 by done.
      pose proof (opens_remove n issued (sh rt) i Hinv Hn). lia.
    + rewrite decide_False in ri_opens0 by congruence.
      pose proof (opens_exec (OpRemoveOpen ino) n issued (sh rt) i Hinv Hn ltac:(congruence)). lia.
  - simpl. rewrite Hnew. lia.
  - intros i g c Hi. eapply held_step; [done..|]. by apply ri_held0.
Qed.

(** ** The handle table *)

Lemma RI_lease_file f L n rt fh r :
  RI f L n rt → f_file f = None → files (rt_handles rt) !! fh = Some r →
  RI (mkFrame (f_refs f) (Some fh) (f_dir f) (f_pend f) (f_new f)) L n
    (with_files (<[fh := mkHandleRecord (hr_node r) (hr_payload r) (leased_state true)]> (files (rt_handles rt))) rt).
Proof.
  intros [] Hf Hr. split; simpl; try done.
  - intros fh' r'. rewrite lookup_insert. case_decide as Heq.
    + intros [= <-]. rewrite bool_decide_eq_true_2 by congruence. subst fh'. split; [done|].
      by apply (ri_files0 fh r).
    + intros Hr'. rewrite bool_decide_eq_false_2 by congruence.
      specialize (ri_files0 fh' r' Hr'). by rewrite Hf, bool_decide_eq_false_2 in ri_files0.
  - intros i. specialize (ri_opens0 i). unfold handle_count in *; simpl.
    rewrite (count_map_update _ _ fh r) by done. simpl. unfold owed in *. simpl. lia.
Qed.

Lemma RI_lease_dir f L n rt fh r :
  RI f L n rt → f_dir f = None → dirs (rt_handles rt) !! fh = Some r →
  RI (mkFrame (f_refs f) (f_file f) (Some fh) (f_pend f) (f_new f)) L n
    (with_dirs (<[fh := mkHandleRecord (hr_node r) (hr_payload r) (leased_state true)]> (dirs (rt_handles rt))) rt).
Proof.
  intros [] Hf Hr. split; simpl; try done.
  - intros fh' r'. rewrite lookup_insert. case_decide as Heq.
    + intros [= <-]. rewrite bool_decide_eq_true_2 by congruence. subst fh'. split; [done|].
      by apply (ri_dirs0 fh r).
    + intros Hr'. rewrite bool_decide_eq_false_2 by congruence.
      specialize (ri_dirs0 fh' r' Hr'). by rewrite Hf, bool_decide_eq_false_2 in ri_dirs0.
  - intros i. specialize (ri_opens0 i). unfold handle_count in *; simpl.
    rewrite (count_map_update _ _ fh r) by done. simpl. unfold owed in *. simpl. lia.
Qed.

(** Dropping the lease: whatever the callback did, the record is still there or
    not, and idle again. *)
Lemma RI_unlease_file f L n rt fh :
  RI (mkFrame (f_refs f) (Some fh) (f_dir f) (f_pend f) (f_new f)) L n rt → f_file f = None →
  RI f L n (with_files (drop_handle fh (files (rt_handles rt))).2 rt).
Proof.
  intros [] Hf. simpl in *. unfold drop_handle.
  destruct (files (rt_handles rt) !! fh) as [r|] eqn:Hr; simpl; split; simpl; try done.
  - intros fh' r'. rewrite Hf. rewrite bool_decide_eq_false_2 by done. rewrite lookup_insert. case_decide as Heq.
    + intros [= <-]. subst fh'. simpl. destruct (ri_files0 fh r Hr) as [-> ?].
      by rewrite bool_decide_eq_true_2.
    + intros Hr'. specialize (ri_files0 fh' r' Hr'). by rewrite bool_decide_eq_false_2 in ri_files0 by congruence.
  - intros i. specialize (ri_opens0 i). unfold handle_count in *; simpl.
    rewrite (count_map_update _ _ fh r) by done. simpl. unfold owed in *. simpl in *. lia.
  - intros fh' r' Hr'. specialize (ri_files0 fh' r' Hr'). rewrite Hf, bool_decide_eq_false_2 by done.
    by rewrite bool_decide_eq_false_2 in ri_files0 by congruence.
Qed.

Lemma RI_unlease_dir f L n rt fh :
  RI (mkFrame (f_refs f) (f_file f) (Some fh) (f_pend f) (f_new f)) L n rt → f_dir f = None →
  RI f L n (with_dirs (drop_handle fh (dirs (rt_handles rt))).2 rt).
Proof.
  intros [] Hf. simpl in *. unfold drop_handle.
  destruct (dirs (rt_handles rt) !! fh) as [r|] eqn:Hr; simpl; split; simpl; try done.
  - intros fh' r'. rewrite Hf. rewrite bool_decide_eq_false_2 by done. rewrite lookup_insert. case_decide as Heq.
    + intros [= <-]. subst fh'. simpl. destruct (ri_dirs0 fh r Hr) as [-> ?].
      by rewrite bool_decide_eq_true_2.
    + intros Hr'. specialize (ri_dirs0 fh' r' Hr'). by rewrite bool_decide_eq_false_2 in ri_dirs0 by congruence.
  - intros i. specialize (ri_opens0 i). unfold handle_count in *; simpl.
    rewrite (count_map_update _ _ fh r) by done. simpl. unfold owed in *. simpl in *. lia.
  - intros fh' r' Hr'. specialize (ri_dirs0 fh' r' Hr'). rewrite Hf, bool_decide_eq_false_2 by done.
    by rewrite bool_decide_eq_false_2 in ri_dirs0 by congruence.
Qed.
End runtime_invariant.

(** ** Callbacks keep the invariant *)
Section callbacks.
Context {N H D S K : Type} `{Libc}.
Abbreviation W := (World N H D S K).
Implicit Types (w : W) (f : frame) (L : ledger).

Abbreviation sh w := (rt_shared (w_rt w)).

(** The invariant of a world whose sink is related to the kernel's ledger. *)
Definition RIS (f : frame) (T : K → ledger → Prop) (n : Z) w : Prop :=
  ∃ L, T (w_sink w) L ∧ RI f L n (w_rt w).

Lemma RIS_counted f T n w : RIS f T n w → RIS f T n (mkWorld (with_shared (sh_of w) (w_rt w)) (w_sink w)).
Proof. intros (L & HT & HRI). exists L. split; [done|]. by apply RI_counted. Qed.

(** A step of the table under an invariant that does not mention the fields it
    changes. *)
Lemma triple_neutral {A} B f T (m : M (Shared N) A) op :
  neutral op → (∀ s, (m s).2 = exec_op op s) → (∀ s, (m s).1 ≠ Blocked) →
  triple B (RIS f T) (on_shared m) (λ _, RIS f T).
Proof.
  intros Hop Hexec Hnb. apply triple_step with op; [by apply neutral_spec|done..|].
  intros n issued w Hinv Hn (L & HT & HRI). exists L. split; [done|].
  by eapply RI_neutral.
Qed.

Lemma triple_fs_get B f T id : triple B (RIS f T) (fs_get id : M W _) (λ _, RIS f T).
Proof.
  unfold fs_get.
  apply triple_bind with (R := λ r n w, match r with
    | Some l => ∃ L, T (w_sink w) L ∧ RI f L n (with_fs_refs (lr_key l :: rt_fs_refs (w_rt w)) (w_rt w))
    | None => RIS f T n w
    end).
  - apply triple_step with (OpGet id); [done|done| |].
    { intros s. unfold cx_get. by repeat case_match. }
    intros n issued w Hinv Hn (L & HT & HRI). unfold sh_of in *.
    destruct (cx_get id (sh w)).1 as [[l|]| |] eqn:Hget; try done.
    + exists L. split; [done|]. exact (proj2 (proj2 (proj2 (RI_get f L n (w_rt w) id l issued Hget HRI Hinv Hn)))).
    + exists L. split; [done|]. unfold exec_op. rewrite cx_get_fails by (intros l; by rewrite Hget).
      destruct w as [[] ?]; simpl in *. destruct HRI; split; simpl in *; try done; try lia.
    + exists L. split; [done|]. unfold exec_op. rewrite cx_get_fails by (intros l; by rewrite Hget).
      destruct w as [[] ?]; simpl in *. destruct HRI; split; simpl in *; try done; try lia.
  - intros [l|]; [|by apply triple_ret].
    apply triple_bind with (R := λ _, RIS f T).
    + apply triple_local; [done..|]. intros n w (L & HT & HRI). by exists L.
    + intros _. by apply triple_ret.
Qed.

Lemma triple_fs_drop_ref B f T key : triple B (RIS f T) (fs_drop_ref key : M W _) (λ _, RIS f T).
Proof.
  intros w. unfold fs_drop_ref. case_bool_decide as Hkey; cycle 1.
  { by apply (triple_ret B (RIS f T) tt (λ _, RIS f T)). }
  revert w Hkey. intros w Hkey.
  assert (triple B (λ n w, key ∈ rt_fs_refs (w_rt w) ∧ RIS f T n w)
    (on_shared (ref_drop key);;
     on_rt (modify (λ rt, with_fs_refs (filter (λ k, k ≠ key) (rt_fs_refs rt)) rt))) (λ _, RIS f T)) as Ht.
  { apply triple_bind with (R := λ _ n w, ∃ L, T (w_sink w) L ∧
      RI f L n (with_fs_refs (filter (λ k, k ≠ key) (rt_fs_refs (w_rt w))) (w_rt w))).
    - apply triple_step with (OpDropRef key); [done|done| |].
      { intros s. unfold ref_drop. by repeat case_match. }
      intros n issued w' Hinv Hn (Hin & L & HT & HRI).
      assert (RI f L (n + 1) (with_fs_refs (filter (λ k, k ≠ key) (rt_fs_refs (w_rt w')))
        (with_shared (exec_op (OpDropRef key) (sh w')) (w_rt w')))) by (by eapply RI_fs_drop).
      destruct (ref_drop key (sh_of w')).1 eqn:Hr; [by exists L| |done].
      unfold ref_drop in Hr. by repeat case_match.
    - intros _. apply triple_local; [done..|]. intros n w' (L & HT & HRI). by exists L. }
  destruct (Ht w) as (ops & ? & ? & Hq). exists ops. split_and!; [done..|].
  intros n issued Hinv Hn HRI. by apply (Hq n issued).
Qed.

Lemma triple_own_step {A} B f T (g : S → option (A * S)) :
  B ∨ (∀ s, is_Some (g s)) → triple B (RIS f T) (own_step g : M W A) (λ _, RIS f T).
Proof.
  intros Hg w. exists []. unfold own_step. destruct (g (rt_fs (w_rt w))) as [[b s]|] eqn:Hs; (split_and!; [done|split; [done|unfold steps_of; simpl; lia]|]).
  - intros n issued _ _ (L & HT & HRI). simpl in *. rewrite Z.add_0_r. exists L. split; [done|]. by destruct HRI.
  - intros n issued _ _ _. simpl. destruct Hg as [?|Hg]; [done|]. destruct (Hg (rt_fs (w_rt w))). congruence.
Qed.

Lemma triple_prog {E A} B f T (emit : E → M W bool) (p : prog N S E A) :
  (∀ e, triple B (RIS f T) (emit e) (λ _, RIS f T)) → B ∨ no_hang p →
  triple B (RIS f T) (run_prog emit p) (λ _, RIS f T).
Proof.
  intros Hemit. induction p; simpl; intros Hh;
    lazymatch goal with
    | |- triple _ _ (mbind _ _) _ => apply triple_bind with (R := λ _, RIS f T)
    | |- triple _ _ (attempt _ _ _) _ =>
        apply triple_attempt with (R := λ _, RIS f T) (R' := RIS f T);
        [apply triple_conseq with (P := RIS f T) (Q := λ _, RIS f T); [|done|by intros []]|intros ?; naive_solver|naive_solver]
    | _ => idtac
    end.
  - by apply triple_ret.
  - by apply triple_pure.
  - intros w. exists []. split_and!; [done..|]. intros n issued _ _ _. by destruct Hh.
  - apply triple_local; done.
  - intros s. apply H1. naive_solver.
  - apply triple_local; [done..|]. intros n w (L & HT & []). exists L. by split.
  - intros _. by apply IHp.
  - apply triple_own_step. naive_solver.
  - intros b. apply H1. naive_solver.
  - apply triple_fs_get.
  - apply triple_fs_drop_ref.
  - intros _. by apply IHp.
  - apply triple_read. by apply RIS_counted.
  - intros b. apply H1. naive_solver.
  - apply triple_neutral with (OpInsert p parent); [done|done|].
    intros s. unfold cx_insert. by destruct (alloc (sh_table s)) as [[??]?].
  - intros id. apply H1. naive_solver.
  - apply triple_neutral with (OpReparent id new_parent); [done|done|].
    intros s. unfold cx_reparent. by repeat case_match.
  - intros _. by apply IHp.
  - apply triple_neutral with (OpAddLink id); [done|done|].
    intros s. unfold cx_add_link. by repeat case_match.
  - by apply triple_neutral with (OpRemoveLink id).
  - intros _. by apply IHp.
  - apply Hemit.
Qed.
End callbacks.

(** ** Scopes *)
Section scopes.
Context {N H D S K : Type} `{Libc}.
Abbreviation W := (World N H D S K).
Implicit Types (w : W) (f : frame) (L : ledger).

Abbreviation sh w := (rt_shared (w_rt w)).

Definition RIL f L (n : Z) w : Prop := RI f L n (w_rt w).

(** [handled B f g L m Post]: from the invariant in frame [f] with ledger [L],
    [m] ends in frame [g] with a ledger that [Post] relates to its outcome. *)
Definition handled {A} (B : Prop) f g L (m : M W A) (Post : outcome A → ledger → Prop) : Prop :=
  triple B (RIL f L) m (λ o n w, ∃ L', Post o L' ∧ RIL g L' n w).

(** The usual postcondition: the kernel learns nothing. *)
Definition same {A} L (o : outcome A) (L' : ledger) : Prop := L' = L.

Lemma handled_ret {A} B f L (a : A) (Post : outcome A → ledger → Prop) :
  Post (Returned a) L → handled B f f L (mret a) Post.
Proof. intros HP. apply triple_ret. intros n w HRI. by exists L. Qed.

Lemma handled_weaken {A} B f g L (m : M W A) (Post Post' : outcome A → ledger → Prop) :
  handled B f g L m Post → (∀ o L', Post o L' → Post' o L') → handled B f g L m Post'.
Proof.
  intros Hm HP. eapply triple_conseq; [exact Hm|done|]. intros o n w (L' & ? & ?). exists L'. auto.
Qed.

(** Sequencing, when the first part leaves the ledger alone. *)
Lemma handled_bind {A C} B f g L (m : M W A) (k : A → M W C) Post :
  handled B f f L m (same L) → (f = g ∧ Post Panicked L) → (∀ a, handled B f g L (k a) Post) →
  handled B f g L (m ≫= k) Post.
Proof.
  intros Hm [-> HP] Hk. eapply triple_bind with (R := λ _, RIL g L).
  - eapply triple_conseq; [exact Hm|done|]. intros [a| |] n w (L' & -> & ?); [done|by exists L|done].
  - intros a. apply Hk.
Qed.

Lemma handled_try {A C} B f L (m : M W (Result Errno A)) (k : A → M W (Result Errno C)) Post :
  handled B f f L m (same L) → Post Panicked L → (∀ e, Post (Returned (Err e)) L) →
  (∀ a, handled B f f L (k a) Post) → handled B f f L (try_bind m k) Post.
Proof.
  intros Hm HP He Hk. eapply triple_try with (R := λ _, RIL f L).
  - eapply triple_conseq; [exact Hm|done|].
    intros [[a|e]| |] n w (L' & -> & ?); [done|by exists L|by exists L|done].
  - intros a. apply Hk.
Qed.

Lemma handled_call {A} B f L (p : prog N S Empty_set A) :
  B ∨ no_hang p → handled B f f L (call p : M W A) (same L).
Proof.
  intros Hh. unfold call.
  eapply triple_conseq; [apply (triple_prog B f (λ _ L', L' = L) _ p); [by intros []|done]| |].
  - intros n w HRI. by exists L.
  - intros o n w (L' & HT & HRI). by exists L'.
Qed.

(** The same of a handler that is given a sink: [T] relates the sink to the
    ledger before, [Post] the outcome, the sink and the ledger after. *)
Definition kept {A} (B : Prop) f g (T : K → ledger → Prop) (m : M W A) (Post : outcome A → K → ledger → Prop) : Prop :=
  triple B (RIS f T) m (λ o, RIS g (Post o)).

Lemma handled_kept {A} B f g L (m : M W A) (Post : outcome A → ledger → Prop) :
  handled B f g L m Post ↔ kept B f g (λ _ L', L' = L) m (λ o _, Post o).
Proof.
  unfold handled, kept, RIS. split; intros Hm; (eapply triple_conseq; [exact Hm| |done]); intros n w.
  - by intros (? & -> & ?).
  - intros HRI. by exists L.
Qed.

Lemma kept_ret {A} B f (T : K → ledger → Prop) (a : A) (Post : outcome A → K → ledger → Prop) :
  (∀ k L, T k L → Post (Returned a) k L) → kept B f f T (mret a) Post.
Proof. intros HP. apply triple_ret. intros n w (L & HT & HRI). exists L. auto. Qed.

Lemma kept_try {A C} B f T (m : M W (Result Errno A)) (k : A → M W (Result Errno C)) Post :
  kept B f f T m (λ _, T) → (∀ x L, T x L → Post Panicked x L) → (∀ e x L, T x L → Post (Returned (Err e)) x L) →
  (∀ a, kept B f f T (k a) Post) → kept B f f T (try_bind m k) Post.
Proof.
  intros Hm HP He Hk. eapply triple_try with (R := λ _, RIS f T).
  - eapply triple_conseq; [exact Hm|done|]. intros [[a|e]| |] n w HRI; try done; destruct HRI as (L & ? & ?); exists L; auto.
  - intros a. apply Hk.
Qed.

(** [Runtime::node]: a lease joins the frame. *)
Lemma node_kept B f T ino :
  triple B (RIS f T) (node ino : M W _) (λ o n w,
    match o with
    | Returned (Ok l) => RIS (push_ref (lr_key l) f) T n w
    | _ => RIS f T n w
    end).
Proof.
  unfold node. eapply triple_bind with (R := λ r n w, match r with
    | Some l => RIS (push_ref (lr_key l) f) T n w
    | None => RIS f T n w
    end).
  - apply triple_step with (OpGet ino); [done|done| |].
    { intros s. unfold cx_get. by repeat case_match. }
    intros n issued w Hinv Hn (L & HT & HRI). unfold sh_of in *.
    assert ((cx_get ino (sh w)).2 = sh w →
      RIS f T (n + 1) (mkWorld (with_shared (exec_op (OpGet ino) (sh w)) (w_rt w)) (w_sink w))) as Hsame.
    { unfold exec_op. intros ->. exists L. split; [done|]. destruct w as [[] ?]; simpl in *. destruct HRI; split; simpl in *; try done; lia. }
    destruct (cx_get ino (sh w)).1 as [[l|]| |] eqn:Hget; try done.
    + exists L. split; [done|]. exact (proj1 (proj2 (proj2 (RI_get f L n (w_rt w) ino l issued Hget HRI Hinv Hn)))).
    + apply Hsame, cx_get_fails. by rewrite Hget.
    + apply Hsame, cx_get_fails. by rewrite Hget.
  - intros [l|]; by apply triple_ret.
Qed.

(** The drop of a [NodeRef] of the frame. *)
Lemma drop_node_kept f T key :
  triple False (RIS (push_ref key f) T) (on_shared (ref_drop key) : M W unit)
    (λ o' n w, o' = Returned tt ∧ RIS f T n w).
Proof.
  apply triple_step with (OpDropRef key); [done|done| |].
  { intros s. by rewrite ref_drop_returns. }
  intros n issued w Hinv Hn (L & HT & HRI). split; [apply ref_drop_returns|].
  exists L. split; [done|]. by eapply RI_drop.
Qed.

Lemma node_triple B f L ino :
  triple B (RIL f L) (node ino : M W _) (λ o n w,
    match o with
    | Returned (Ok l) => RIL (push_ref (lr_key l) f) L n w
    | _ => RIL f L n w
    end).
Proof.
  eapply triple_conseq; [apply (node_kept B f (λ _ L', L' = L))|intros n w HRI; by exists L|].
  intros [[l|e]| |] n w Hx; try done; by destruct Hx as (? & -> & ?).
Qed.

Lemma drop_node_triple {A} f key (o : outcome A) (Post : outcome A → ledger → Prop) :
  triple False (λ n w, ∃ L', Post o L' ∧ RIL (push_ref key f) L' n w)
    (on_shared (ref_drop key) : M W unit)
    (λ o' n w, o' = Returned tt ∧ ∃ L', Post o L' ∧ RIL f L' n w).
Proof. apply (drop_node_kept f (λ _, Post o)). Qed.

Lemma kept_scope_node {A} B f T ino (err : Errno → M W A) (k : N → M W A) Post :
  (∀ x L, T x L → Post Panicked x L) → (∀ e, kept B f f T (err e) Post) →
  (∀ key p, kept B (push_ref key f) (push_ref key f) T (k p) Post) →
  kept B f f T (scope_node ino err k) Post.
Proof.
  intros HP Herr Hk. unfold scope_node.
  eapply triple_bind with (R := λ r n w, match r with
    | Ok l => RIS (push_ref (lr_key l) f) T n w
    | Err _ => RIS f T n w
    end).
  - eapply triple_conseq; [apply node_kept|done|].
    intros [[l|e]| |] n w HRI; try done. destruct HRI as (L & HT & HRI). exists L. auto.
  - intros [l|e]; [|apply Herr].
    eapply triple_finally; [apply (Hk (lr_key l))|]. intros o _. apply drop_node_kept.
Qed.

Lemma handled_scope_node {A} B f L ino (err : Errno → M W A) (k : N → M W A) Post :
  Post Panicked L → (∀ e, handled B f f L (err e) Post) →
  (∀ key p, handled B (push_ref key f) (push_ref key f) L (k p) Post) →
  handled B f f L (scope_node ino err k) Post.
Proof.
  intros HP Herr Hk. apply handled_kept, kept_scope_node; [by intros _ ? ->|intros e; by apply handled_kept..|].
  intros key p. by apply handled_kept.
Qed.

Definition lease_file (fh : Z) f : frame := mkFrame (f_refs f) (Some fh) (f_dir f) (f_pend f) (f_new f).
Definition lease_dir (fh : Z) f : frame := mkFrame (f_refs f) (f_file f) (Some fh) (f_pend f) (f_new f).

Lemma acquire_idle : acquire (leased_state false) = (Returned true, leased_state true).
Proof. reflexivity. Qed.

Lemma handled_scope_file {A} B f L ino fh (err : Errno → M W A) (k : H → M W A) Post :
  f_file f = None → (∀ e, handled B f f L (err e) Post) →
  (∀ h, handled B (lease_file fh f) (lease_file fh f) L (k h) Post) →
  handled B f f L (scope_file ino fh err k) Post.
Proof.
  intros Hf Herr Hk. unfold scope_file, file.
  assert (∀ n w r, RIL f L n w → files (rt_handles (w_rt w)) !! fh = Some r → hr_state r = leased_state false) as Hidle.
  { intros n w r HRI Hr. destruct (ri_files _ _ _ _ HRI fh r Hr) as [-> _].
    by rewrite Hf, bool_decide_eq_false_2. }
  eapply triple_bind with (R := λ r n w, match r with
    | Ok _ => RIL (lease_file fh f) L n w
    | Err _ => RIL f L n w
    end).
  - apply triple_local.
    + intros w. unfold on_files, zoom. by destruct (find_handle ino fh _).
    + intros w. unfold on_files, zoom, find_handle. repeat case_match; by simplify_eq/=.
    + intros n w HRI. unfold on_files, zoom, find_handle.
      destruct (files (rt_handles (w_rt w)) !! fh) as [r|] eqn:Hr; [|by destruct w as [[? ? ? []] ?]].
      destruct (negb _); [by destruct w as [[? ? ? []] ?]|].
      rewrite (Hidle n w r HRI Hr), acquire_idle. simpl. by apply RI_lease_file.
  - intros [h|e]; [|apply Herr].
    eapply triple_finally; [apply (Hk h)|]. intros o Ho.
    apply triple_local.
    + intros w. unfold on_files, zoom. by destruct (drop_handle fh _).
    + intros w. unfold on_files, zoom, drop_handle. by repeat case_match; simplify_eq/=.
    + intros n w (L' & HP & HRI). apply RI_unlease_file in HRI; [|done].
      unfold on_files, zoom. unfold drop_handle in *.
      destruct (files (rt_handles (w_rt w)) !! fh); (split; [done|]); by exists L'.
Qed.

Lemma kept_scope_dir {A} B f T ino fh (err : Errno → M W A) (k : D → M W A) Post :
  f_dir f = None → (∀ e, kept B f f T (err e) Post) →
  (∀ h, kept B (lease_dir fh f) (lease_dir fh f) T (k h) Post) →
  kept B f f T (scope_dir ino fh err k) Post.
Proof.
  intros Hf Herr Hk. unfold scope_dir, dir.
  assert (∀ L n w r, RIL f L n w → dirs (rt_handles (w_rt w)) !! fh = Some r → hr_state r = leased_state false) as Hidle.
  { intros L n w r HRI Hr. destruct (ri_dirs _ _ _ _ HRI fh r Hr) as [-> _].
    by rewrite Hf, bool_decide_eq_false_2. }
  eapply triple_bind with (R := λ r n w, match r with
    | Ok _ => RIS (lease_dir fh f) T n w
    | Err _ => RIS f T n w
    end).
  - apply triple_local.
    + intros w. unfold on_dirs, zoom. by destruct (find_handle ino fh _).
    + intros w. unfold on_dirs, zoom, find_handle. repeat case_match; by simplify_eq/=.
    + intros n w (L & HT & HRI). unfold on_dirs, zoom, find_handle.
      destruct (dirs (rt_handles (w_rt w)) !! fh) as [r|] eqn:Hr; [|exists L; by destruct w as [[? ? ? []] ?]].
      destruct (negb _); [exists L; by destruct w as [[? ? ? []] ?]|].
      rewrite (Hidle L n w r HRI Hr), acquire_idle. simpl. exists L. split; [done|]. by apply RI_lease_dir.
  - intros [h|e]; [|apply Herr].
    eapply triple_finally; [apply (Hk h)|]. intros o Ho.
    apply triple_local.
    + intros w. unfold on_dirs, zoom. by destruct (drop_handle fh _).
    + intros w. unfold on_dirs, zoom, drop_handle. by repeat case_match; simplify_eq/=.
    + intros n w (L' & HP & HRI). apply RI_unlease_dir in HRI; [|done].
      unfold on_dirs, zoom. unfold drop_handle in *.
      destruct (dirs (rt_handles (w_rt w)) !! fh); (split; [done|]); by exists L'.
Qed.

Lemma handled_scope_dir {A} B f L ino fh (err : Errno → M W A) (k : D → M W A) Post :
  f_dir f = None → (∀ e, handled B f f L (err e) Post) →
  (∀ h, handled B (lease_dir fh f) (lease_dir fh f) L (k h) Post) →
  handled B f f L (scope_dir ino fh err k) Post.
Proof.
  intros Hf Herr Hk. apply handled_kept, kept_scope_dir; [done|intros e; by apply handled_kept|].
  intros h. by apply handled_kept.
Qed.

(** ** Ledgers *)

Definition ledger_adds (l : list (Z * Z)) (L : ledger) : ledger :=
  foldl (λ L p, ledger_add p.1 p.2 L) L l.

Definition occurrences (i : Z) (ids : list Z) : Z := Z.of_nat (length (filter (λ j, j = i) ids)).

(** [L'] holds all of [L], and as many more lookups as [ids] lists. *)
Definition budget L (ids : list Z) (L' : ledger) : Prop :=
  ∀ i g c, L !! i = Some (g, c) →
    1 ≤ c ∧ ∃ c', L' !! i = Some (g, c') ∧ c + occurrences i ids ≤ c'.

Definition learn_entry L (o : outcome (Result Errno EntryReply)) (L' : ledger) : Prop :=
  match o with
  | Returned (Ok e) => L' = ledger_add (er_ino e) (er_generation e) L ∧ budget L [] L'
  | _ => L' = L
  end.

Lemma RI_budget f L n (w : W) : RIL f L n w → budget L [] L.
Proof.
  intros HRI i g c Hi. destruct (ri_held _ _ _ _ HRI i g c Hi) as [Hc _]. split; [done|].
  exists c. split; [done|]. unfold occurrences. simpl. lia.
Qed.

Lemma RI_weaken f L L' ids n (w : W) : budget L ids L' → RIL f L' n w → RIL f L n w.
Proof.
  intros Hb []. split; try done. intros i g c Hi.
  destruct (Hb i g c Hi) as (Hc & c' & Hi' & Hle). destruct (ri_held0 i g c' Hi') as (_ & s & ? & ? & ?).
  split; [done|]. exists s. split_and!; [done..|]. unfold occurrences in Hle. lia.
Qed.

Lemma RI_owed f L n (w : W) i : f_pend f = None →
  RIL (mkFrame (f_refs f) (f_file f) (f_dir f) (Some i) (f_new f)) L n w → RIL f L n w.
Proof.
  intros Hp []. split; try done. intros j. specialize (ri_opens0 j). simpl in *.
  unfold owed in *. rewrite Hp, decide_False by done. simpl in *. case_decide; lia.
Qed.

Lemma budget_add L ids L' i g : 
  (∀ g' c, L' !! i = Some (g', c) → g' = g) → budget L ids L' →
  budget L (ids ++ [i]) (ledger_add i g L').
Proof.
  intros Hg Hb j gj c Hj. destruct (Hb j gj c Hj) as (Hc & c' & Hj' & Hle). split; [done|].
  unfold ledger_add, occurrences in *. rewrite filter_app, length_app, lookup_insert.
  case_decide as Hij; [subst j|].
  - rewrite Hj', <- (Hg gj c' Hj'). exists (c' + 1). split; [done|].
    rewrite filter_cons_True by done. simpl. lia.
  - exists c'. split; [done|]. rewrite filter_cons_False by congruence. simpl. lia.
Qed.

Lemma budget_nil L ids L' : budget L ids L' → budget L [] L'.
Proof.
  intros Hb i g c Hi. destruct (Hb i g c Hi) as (? & c' & ? & Hle). split; [done|]. exists c'.
  unfold occurrences in *. simpl. split; [done|lia].
Qed.

(** One lookup more on both sides. *)
Lemma budget_push L L' i g :
  (∀ g' c, L' !! i = Some (g', c) → g' = g) → (∀ j g' c, L' !! j = Some (g', c) → 1 ≤ c) →
  budget L [] L' → budget (ledger_add i g L) [] (ledger_add i g L').
Proof.
  intros Hg Hpos Hb j gj c Hj. unfold ledger_add in Hj. rewrite lookup_insert in Hj.
  unfold ledger_add. rewrite lookup_insert. unfold occurrences in *. simpl in *.
  case_decide as Hij; [subst j|by apply (Hb j gj c)].
  destruct (L !! i) as [[g0 c0]|] eqn:Hi; injection Hj as <- <-.
  - destruct (Hb i g0 c0 Hi) as (? & c' & Hi' & Hle). unfold occurrences in Hle. simpl in Hle. rewrite Hi'. split; [lia|]. exists (c' + 1). split; [done|lia].
  - split; [done|]. destruct (L' !! i) as [[g' c']|] eqn:Hi'; [|by exists 1].
    pose proof (Hpos _ _ _ Hi'). exists (c' + 1). split; [done|lia].
Qed.

Lemma budget_forget L ids L' i :
  budget L (i :: ids) L' → budget L ids (ledger_forget i 1 L').
Proof.
  intros Hb j g c Hj. destruct (Hb j g c Hj) as (Hc & c' & Hj' & Hle). split; [done|].
  unfold ledger_forget, occurrences in *. destruct (decide (i = j)) as [->|Hij].
  - rewrite filter_cons_True in Hle by done. simpl in Hle. rewrite Hj', decide_False by lia.
    exists (c' - 1). rewrite lookup_insert_eq. split; [done|lia].
  - rewrite filter_cons_False in Hle by done. exists c'. split; [|done].
    destruct (L' !! i) as [[g0 c0]|]; [|done].
    case_decide; [by rewrite lookup_delete_ne|by rewrite lookup_insert_ne].
Qed.

(** ** Lookups *)

Definition lookup_ok f L i : outcome (Result Errno Z) → Z → W → Prop := λ o n w,
  match o with
  | Returned (Ok g) => RIL f (ledger_add i g L) n w ∧ (∀ g' c, L !! i = Some (g', c) → g' = g)
  | _ => RIL f L n w
  end.

Lemma RI_lookup f L n (rt : Runtime N H D S) i issued s :
  RI f L n rt → inv_but None n issued (rt_shared rt) → n + 2 < u64_max →
  tbl_map (sh_table (rt_shared rt)) !! i = Some s → slot_lookups s + 1 ≤ u64_max →
  RI f (ledger_add i (slot_generation s) L) (n + 1) (with_shared (exec_op (OpLookup i) (rt_shared rt)) rt) ∧
  (∀ g' c, L !! i = Some (g', c) → g' = slot_generation s).
Proof.
  intros HRI Hinv Hn Hs Hmax.
  assert (∀ g' c, L !! i = Some (g', c) → g' = slot_generation s) as Hg.
  { intros g' c Hi. destruct (ri_held _ _ _ _ HRI i g' c Hi) as (_ & s' & Hs' & <- & _). congruence. }
  split; [|done].
  pose proof (RI_neutral f L n rt (OpLookup i) issued I HRI Hinv Hn) as HRI'.
  destruct HRI'. split; try done. intros j g c. unfold ledger_add. rewrite lookup_insert.
  case_decide as Hij; [subst j|by apply ri_held0].
  intros [= <- <-].
  assert (slot_lookups (slot_after (OpLookup i) i (rt_shared rt) s) = slot_lookups s + 1) as Hl.
  { simpl. rewrite decide_True by done. simpl. unfold bump. by rewrite decide_True. }
  pose proof (slot_bounds_of _ _ _ _ _ Hinv Hs) as (_ & Hb & _).
  assert (1 ≤ slot_lookups (slot_after (OpLookup i) i (rt_shared rt) s)) by int_lia.
  assert (match L !! i with Some (_, c) => c + 1 | None => 1 end ≤ slot_lookups s + 1 ∧
          1 ≤ match L !! i with Some (_, c) => c + 1 | None => 1 end) as [Hle Hge].
  { destruct (L !! i) as [[g c]|] eqn:Hi; [|int_lia].
    destruct (ri_held _ _ _ _ HRI i g c Hi) as (? & s' & Hs' & _ & ?).
    assert (s' = s) as -> by congruence. lia. }
  split; [done|]. exists (slot_after (OpLookup i) i (rt_shared rt) s).
  split_and!; [|by rewrite slot_after_generation|lia].
  simpl. eapply (held_exec (OpLookup i) n issued _ i s 1); [done..|lia].
Qed.

Lemma take_lookup_triple B f L i :
  triple B (RIL f L) (on_shared (take_lookup i) : M W _) (lookup_ok f L i).
Proof.
  apply triple_step with (OpLookup i); [done|done| |].
  { intros s. unfold take_lookup. by repeat case_match. }
  intros n issued w Hinv Hn HRI. unfold sh_of, RIL in *.
  pose proof (RI_neutral f L n (w_rt w) (OpLookup i) issued I HRI Hinv Hn) as Hsame.
  unfold take_lookup, lookup_ok. destruct (tbl_map (sh_table (sh w)) !! i) as [s|] eqn:Hs; [|done].
  destruct (checked_add u64_max (slot_lookups s) 1) as [c|] eqn:Hc; [|done].
  apply checked_add_Some in Hc as [_ Hc]. simpl. by apply (RI_lookup f L n (w_rt w) i issued s).
Qed.

Lemma retain_exec i (s : Shared N) : (retain_lookup i s).2 = exec_op (OpLookup i) s.
Proof. unfold exec_op, retain_lookup, take_lookup. by repeat case_match. Qed.

(** A live inode with its generation. *)
Definition live_at (i g : Z) w : Prop :=
  ∃ s, tbl_map (sh_table (sh_of w)) !! i = Some s ∧ slot_generation s = g.

(** [retain_lookup] cannot fail on a live inode: its counter is not full. *)
Lemma retain_live_triple B f (T : K → ledger → Prop) i g :
  triple B (λ n w, RIS f T n w ∧ live_at i g w) (on_shared (retain_lookup i) : M W _) (λ o n w,
    o = Returned (Ok tt) ∧ ∃ L, T (w_sink w) L ∧ RIL f (ledger_add i g L) n w ∧
      (∀ g' c, L !! i = Some (g', c) → g' = g) ∧ (∀ j g' c, L !! j = Some (g', c) → 1 ≤ c)).
Proof.
  apply triple_step with (OpLookup i); [done|apply retain_exec| |].
  { intros s. unfold retain_lookup. by repeat case_match. }
  intros n issued w Hinv Hn ((L & HT & HRI) & s & Hs & <-). unfold sh_of in *.
  pose proof (slot_bounds_of _ _ _ _ _ Hinv Hs) as (_ & Hb & _). pose proof (inv_lookups _ _ _ _ Hinv i s Hs).
  assert (slot_lookups s + 1 ≤ u64_max) as Hmax by int_lia.
  unfold retain_lookup. rewrite Hs.
  assert (checked_add u64_max (slot_lookups s) 1 = Some (slot_lookups s + 1)) as -> by (apply checked_add_Some; int_lia).
  split; [done|]. exists L. split; [done|].
  destruct (RI_lookup f L n (w_rt w) i issued s HRI Hinv Hn Hs Hmax) as [HRI' Hg]. split_and!; [done..|].
  intros j g' c Hj. by destruct (ri_held _ _ _ _ HRI j g' c Hj).
Qed.
End scopes.
