(* ===== verification/RuntimeSpec.v ===== *)
(** * The contract of the request handlers

    Each handler of [Runtime], for every filesystem, keeps the invariant of
    [RuntimeInv], on every way out; its postcondition says which lookups the
    kernel has learnt of. *)

From S2P Require Import Prelude Types NodeTable NodeTableInv HandleRec NodeFs Runtime RuntimeInv.

(** ** Filesystems whose callbacks return (or panic) *)
Record terminating {N H D S : Type} (fs : NodeFs N H D S) : Prop := {
  t_populate : no_hang (fs_populate fs);
  t_init : ∀ x0, no_hang (fs_init fs x0);
  t_destroy : no_hang (fs_destroy fs);
  t_getattr : ∀ x0 x1 x2, no_hang (fs_getattr fs x0 x1 x2);
  t_setattr : ∀ x0 x1 x2 x3, no_hang (fs_setattr fs x0 x1 x2 x3);
  t_lookup : ∀ x0 x1 x2, no_hang (fs_lookup fs x0 x1 x2);
  t_readlink : ∀ x0 x1, no_hang (fs_readlink fs x0 x1);
  t_mknod : ∀ x0 x1 x2 x3 x4 x5, no_hang (fs_mknod fs x0 x1 x2 x3 x4 x5);
  t_mkdir : ∀ x0 x1 x2 x3 x4, no_hang (fs_mkdir fs x0 x1 x2 x3 x4);
  t_symlink : ∀ x0 x1 x2 x3, no_hang (fs_symlink fs x0 x1 x2 x3);
  t_unlink : ∀ x0 x1 x2, no_hang (fs_unlink fs x0 x1 x2);
  t_rmdir : ∀ x0 x1 x2, no_hang (fs_rmdir fs x0 x1 x2);
  t_rename : ∀ x0 x1 x2 x3 x4 x5, no_hang (fs_rename fs x0 x1 x2 x3 x4 x5);
  t_link : ∀ x0 x1 x2 x3, no_hang (fs_link fs x0 x1 x2 x3);
  t_open : ∀ x0 x1 x2, no_hang (fs_open fs x0 x1 x2);
  t_read : ∀ x0 x1 x2 x3 x4, no_hang (fs_read fs x0 x1 x2 x3 x4);
  t_write : ∀ x0 x1 x2 x3 x4, no_hang (fs_write fs x0 x1 x2 x3 x4);
  t_flush : ∀ x0 x1 x2, no_hang (fs_flush fs x0 x1 x2);
  t_release : ∀ x0 x1 x2, no_hang (fs_release fs x0 x1 x2);
  t_fsync : ∀ x0 x1 x2 x3, no_hang (fs_fsync fs x0 x1 x2 x3);
  t_opendir : ∀ x0 x1 x2, no_hang (fs_opendir fs x0 x1 x2);
  t_readdir : ∀ x0 x1 x2 x3 x4 x5, no_hang (fs_readdir fs x0 x1 x2 x3 x4 x5);
  t_readdirplus : ∀ x0 x1 x2 x3 x4 x5, no_hang (fs_readdirplus fs x0 x1 x2 x3 x4 x5);
  t_releasedir : ∀ x0 x1 x2, no_hang (fs_releasedir fs x0 x1 x2);
  t_fsyncdir : ∀ x0 x1 x2 x3, no_hang (fs_fsyncdir fs x0 x1 x2 x3);
  t_statfs : ∀ x0, no_hang (fs_statfs fs x0);
  t_setxattr : ∀ x0 x1 x2 x3 x4, no_hang (fs_setxattr fs x0 x1 x2 x3 x4);
  t_getxattr : ∀ x0 x1 x2 x3, no_hang (fs_getxattr fs x0 x1 x2 x3);
  t_listxattr : ∀ x0 x1 x2, no_hang (fs_listxattr fs x0 x1 x2);
  t_removexattr : ∀ x0 x1 x2, no_hang (fs_removexattr fs x0 x1 x2);
  t_access : ∀ x0 x1 x2, no_hang (fs_access fs x0 x1 x2);
  t_create : ∀ x0 x1 x2 x3 x4 x5, no_hang (fs_create fs x0 x1 x2 x3 x4 x5);
  t_fallocate : ∀ x0 x1 x2 x3 x4 x5, no_hang (fs_fallocate fs x0 x1 x2 x3 x4 x5);
  t_lseek : ∀ x0 x1 x2 x3 x4, no_hang (fs_lseek fs x0 x1 x2 x3 x4);
  t_getlk : ∀ x0 x1 x2 x3 x4, no_hang (fs_getlk fs x0 x1 x2 x3 x4);
  t_setlk : ∀ x0 x1 x2 x3 x4 x5, no_hang (fs_setlk fs x0 x1 x2 x3 x4 x5);
  t_copy_file_range : ∀ x0 x1 x2 x3 x4 x5 x6, no_hang (fs_copy_file_range fs x0 x1 x2 x3 x4 x5 x6);
}.

(** Filesystems whose callbacks wait in certain states only. *)
Record stalling {N H D S : Type} (P : S → Prop) (fs : NodeFs N H D S) : Prop := {
  st_populate : stalls_in P (fs_populate fs);
  st_init : ∀ x0, stalls_in P (fs_init fs x0);
  st_destroy : stalls_in P (fs_destroy fs);
  st_getattr : ∀ x0 x1 x2, stalls_in P (fs_getattr fs x0 x1 x2);
  st_setattr : ∀ x0 x1 x2 x3, stalls_in P (fs_setattr fs x0 x1 x2 x3);
  st_lookup : ∀ x0 x1 x2, stalls_in P (fs_lookup fs x0 x1 x2);
  st_readlink : ∀ x0 x1, stalls_in P (fs_readlink fs x0 x1);
  st_mknod : ∀ x0 x1 x2 x3 x4 x5, stalls_in P (fs_mknod fs x0 x1 x2 x3 x4 x5);
  st_mkdir : ∀ x0 x1 x2 x3 x4, stalls_in P (fs_mkdir fs x0 x1 x2 x3 x4);
  st_symlink : ∀ x0 x1 x2 x3, stalls_in P (fs_symlink fs x0 x1 x2 x3);
  st_unlink : ∀ x0 x1 x2, stalls_in P (fs_unlink fs x0 x1 x2);
  st_rmdir : ∀ x0 x1 x2, stalls_in P (fs_rmdir fs x0 x1 x2);
  st_rename : ∀ x0 x1 x2 x3 x4 x5, stalls_in P (fs_rename fs x0 x1 x2 x3 x4 x5);
  st_link : ∀ x0 x1 x2 x3, stalls_in P (fs_link fs x0 x1 x2 x3);
  st_open : ∀ x0 x1 x2, stalls_in P (fs_open fs x0 x1 x2);
  st_read : ∀ x0 x1 x2 x3 x4, stalls_in P (fs_read fs x0 x1 x2 x3 x4);
  st_write : ∀ x0 x1 x2 x3 x4, stalls_in P (fs_write fs x0 x1 x2 x3 x4);
  st_flush : ∀ x0 x1 x2, stalls_in P (fs_flush fs x0 x1 x2);
  st_release : ∀ x0 x1 x2, stalls_in P (fs_release fs x0 x1 x2);
  st_fsync : ∀ x0 x1 x2 x3, stalls_in P (fs_fsync fs x0 x1 x2 x3);
  st_opendir : ∀ x0 x1 x2, stalls_in P (fs_opendir fs x0 x1 x2);
  st_readdir : ∀ x0 x1 x2 x3 x4 x5, stalls_in P (fs_readdir fs x0 x1 x2 x3 x4 x5);
  st_readdirplus : ∀ x0 x1 x2 x3 x4 x5, stalls_in P (fs_readdirplus fs x0 x1 x2 x3 x4 x5);
  st_releasedir : ∀ x0 x1 x2, stalls_in P (fs_releasedir fs x0 x1 x2);
  st_fsyncdir : ∀ x0 x1 x2 x3, stalls_in P (fs_fsyncdir fs x0 x1 x2 x3);
  st_statfs : ∀ x0, stalls_in P (fs_statfs fs x0);
  st_setxattr : ∀ x0 x1 x2 x3 x4, stalls_in P (fs_setxattr fs x0 x1 x2 x3 x4);
  st_getxattr : ∀ x0 x1 x2 x3, stalls_in P (fs_getxattr fs x0 x1 x2 x3);
  st_listxattr : ∀ x0 x1 x2, stalls_in P (fs_listxattr fs x0 x1 x2);
  st_removexattr : ∀ x0 x1 x2, stalls_in P (fs_removexattr fs x0 x1 x2);
  st_access : ∀ x0 x1 x2, stalls_in P (fs_access fs x0 x1 x2);
  st_create : ∀ x0 x1 x2 x3 x4 x5, stalls_in P (fs_create fs x0 x1 x2 x3 x4 x5);
  st_fallocate : ∀ x0 x1 x2 x3 x4 x5, stalls_in P (fs_fallocate fs x0 x1 x2 x3 x4 x5);
  st_lseek : ∀ x0 x1 x2 x3 x4, stalls_in P (fs_lseek fs x0 x1 x2 x3 x4);
  st_getlk : ∀ x0 x1 x2 x3 x4, stalls_in P (fs_getlk fs x0 x1 x2 x3 x4);
  st_setlk : ∀ x0 x1 x2 x3 x4 x5, stalls_in P (fs_setlk fs x0 x1 x2 x3 x4 x5);
  st_copy_file_range : ∀ x0 x1 x2 x3 x4 x5 x6, stalls_in P (fs_copy_file_range fs x0 x1 x2 x3 x4 x5 x6);
}.

Lemma terminating_stalling {N H D S} (P : S → Prop) (fs : NodeFs N H D S) : terminating fs → stalling P fs.
Proof. intros []. split; intros; by apply no_hang_stalls. Qed.
Lemma stalling_always {N H D S} (fs : NodeFs N H D S) : stalling (λ _, True) fs.
Proof. split; intros; apply stalls_always. Qed.

Section handlers.
Context {N H D S K : Type} `{Libc} (fs : NodeFs N H D S) (B : Prop) (HB : B ∨ terminating fs).
Abbreviation W := (World N H D S K).
Implicit Types (w : W) (L : ledger) (f : frame) (rt : Runtime N H D S).

(** The handler leaves no lease and no debt behind. *)
Definition served {A} L (m : M W A) (Post : outcome A → ledger → Prop) : Prop :=
  handled B idle_frame idle_frame L m Post.

Lemma no_hang_call (P : Prop) : (terminating fs → P) → B ∨ P.
Proof. destruct HB; auto. Qed.

Local Ltac hang := apply no_hang_call; intros []; auto.

(** The common shape: leases in scope, then a callback. *)
Local Ltac serve :=
  unfold served, with_optional_file, with_node, with_file, with_dir, fail;
  repeat match goal with
  | |- handled _ _ _ _ (scope_node _ _ _) _ =>
      apply handled_scope_node; [done|intros ?; by apply handled_ret|intros ? ?]
  | |- handled _ _ _ _ (scope_file _ _ _ _) _ =>
      apply handled_scope_file; [done|intros ?; by apply handled_ret|intros ?]
  | |- handled _ _ _ _ (scope_dir _ _ _ _) _ =>
      apply handled_scope_dir; [done|intros ?; by apply handled_ret|intros ?]
  | |- handled _ _ _ _ (match ?o with Some _ => _ | None => _ end) _ => destruct o
  | |- handled _ _ _ _ (call _) _ => apply handled_call; hang
  end.

Lemma destroy_served L : served L (destroy fs) (same L).
Proof. unfold destroy. serve. Qed.
Lemma statfs_served L ino caller : served L (statfs fs ino caller) (same L).
Proof. unfold statfs. serve. Qed.
Lemma getattr_served L ino fh caller : served L (getattr fs ino fh caller) (same L).
Proof. unfold getattr. serve. Qed.
Lemma setattr_served L ino fh set caller : served L (setattr fs ino fh set caller) (same L).
Proof. unfold setattr. serve. Qed.
Lemma readlink_served L ino caller : served L (readlink fs ino caller) (same L).
Proof. unfold readlink. serve. Qed.
Lemma access_served L ino mask caller : served L (access fs ino mask caller) (same L).
Proof. unfold access. serve. Qed.
Lemma setxattr_served L ino name value flags caller : served L (setxattr fs ino name value flags caller) (same L).
Proof. unfold setxattr. serve. Qed.
Lemma getxattr_served L ino name size caller : served L (getxattr fs ino name size caller) (same L).
Proof. unfold getxattr. serve. Qed.
Lemma listxattr_served L ino size caller : served L (listxattr fs ino size caller) (same L).
Proof. unfold listxattr. serve. Qed.
Lemma removexattr_served L ino name caller : served L (removexattr fs ino name caller) (same L).
Proof. unfold removexattr. serve. Qed.
Lemma write_served L ino fh data offset caller : served L (write fs ino fh data offset caller) (same L).
Proof. unfold write. serve. Qed.
Lemma flush_served L ino fh caller : served L (flush fs ino fh caller) (same L).
Proof. unfold flush. serve. Qed.
Lemma fsync_served L ino fh datasync caller : served L (fsync fs ino fh datasync caller) (same L).
Proof. unfold fsync. serve. Qed.
Lemma fallocate_served L ino fh mode offset length caller : served L (fallocate fs ino fh mode offset length caller) (same L).
Proof. unfold fallocate. serve. Qed.
Lemma lseek_served L ino fh offset whence caller : served L (lseek fs ino fh offset whence caller) (same L).
Proof. unfold lseek. serve. Qed.
Lemma getlk_served L ino fh owner requested caller : served L (getlk fs ino fh owner requested caller) (same L).
Proof. unfold getlk. serve. Qed.
Lemma setlk_served L ino fh owner lock sleep caller : served L (setlk fs ino fh owner lock sleep caller) (same L).
Proof. unfold setlk. serve. Qed.
Lemma fsyncdir_served L ino fh datasync caller : served L (fsyncdir fs ino fh datasync caller) (same L).
Proof. unfold fsyncdir. serve. Qed.
Lemma unlink_served L parent name caller : served L (unlink fs parent name caller) (same L).
Proof. unfold unlink. serve. Qed.
Lemma rmdir_served L parent name caller : served L (rmdir fs parent name caller) (same L).
Proof. unfold rmdir. serve. Qed.
Lemma rename_served L parent name newparent newname flags caller : served L (rename fs parent name newparent newname flags caller) (same L).
Proof. unfold rename. serve. Qed.
Lemma copy_file_range_served L ino_in off_in ino_out off_out len flags caller : served L (copy_file_range fs ino_in off_in ino_out off_out len flags caller) (same L).
Proof. unfold copy_file_range. serve. Qed.
Lemma init_served L conn : served L (init fs conn) (same L).
Proof.
  unfold served, init. apply handled_bind; [|done|].
  - apply triple_local; [done..|]. intros n w HRI. by exists L.
  - intros b. apply handled_call. hang.
Qed.

Lemma forget_served L ino k :
  0 ≤ k → served L (forget ino k : M W unit) (λ o L', o = Returned tt ∧ L' = ledger_forget ino k L).
Proof.
  intros Hk. unfold served, forget. apply triple_step with (OpForget ino k); [done..|].
  intros n issued w Hinv Hn HRI. exists (ledger_forget ino k L). split; [done|].
  by eapply RI_forget.
Qed.

(** The reply of a read runs inside the scope of the leases. *)
Lemma read_served {R} L ino fh offset size caller (reply : Result Errno bytes → M W R) :
  (∀ f r, handled B f f L (reply r) (same L)) →
  served L (read fs ino fh offset size caller reply) (same L).
Proof.
  intros Hreply. unfold served, read.
  apply handled_scope_node; [done|intros e; apply Hreply|intros key n].
  apply handled_scope_file; [done|intros e; apply Hreply|intros h].
  apply handled_bind; [apply handled_call; hang|done|intros r; apply Hreply].
Qed.

(** ** Handles *)

Lemma triple_local_bounded {A} (P : Z → W → Prop) (m : M W A) Q :
  (∀ w, made [] w (m w).2) → (∀ w, (m w).1 ≠ Blocked) →
  (∀ n w, n + 2 ≤ u64_max → P n w → Q (m w).1 n (m w).2) → triple B P m Q.
Proof.
  intros Hsh Hnb HQ w. exists []. split_and!; [done|apply Hsh|]. intros n issued _ Hn Hp. simpl in *.
  rewrite Z.add_0_r in *. specialize (HQ n w Hn Hp). specialize (Hnb w). by destruct (m w).1.
Qed.

Definition opening (ino : Z) (f : frame) : frame :=
  mkFrame (f_refs f) (f_file f) (f_dir f) (Some ino) true.

Lemma RI_add_open f L n rt ino issued :
  f_pend f = None → f_new f = false →
  RI f L n rt → inv_but None n issued (rt_shared rt) → n + 2 < u64_max →
  let '(o, sh') := add_open ino (rt_shared rt) in
  match o with
  | Returned (Ok _) => RI (opening ino f) L (n + 1) (with_shared sh' rt)
  | _ => RI f L (n + 1) (with_shared sh' rt)
  end.
Proof.
  intros Hp Hnew HRI Hinv Hn.
  pose proof (RI_neutral f L n rt (OpAddOpen ino) issued I HRI Hinv Hn) as HRI'.
  change (exec_op (OpAddOpen ino) (rt_shared rt)) with (add_open ino (rt_shared rt)).2 in HRI'.
  unfold add_open in *. destruct (tbl_map _ !! ino) as [s|] eqn:Hs; [|done].
  destruct (checked_add u32_max (slot_opens s) 1) as [c|] eqn:Hc; [|done].
  apply checked_add_Some in Hc as [-> Hc]. destruct HRI' as []. split; try done.
  - intros i. specialize (ri_opens i). pose proof (RuntimeInv.ri_opens _ _ _ _ HRI i) as Hi. simpl in *.
    unfold owed, opens_at in *; simpl in *. rewrite Hp in *. rewrite lookup_insert in *.
    rewrite (decide_False (P := None = Some i)) in * by done.
    destruct (decide (ino = i)) as [->|Hne]; [|by rewrite decide_False by congruence].
    rewrite decide_True by done. rewrite Hs in Hi. simpl. lia.
  - simpl in *. rewrite Hnew in *. pose proof (RuntimeInv.ri_next _ _ _ _ HRI) as Hx. rewrite Hnew in Hx. lia.
Qed.

Lemma handle_fresh_file f L n rt : RI f L n rt → files (rt_handles rt) !! next_fh (rt_handles rt) = None.
Proof.
  intros []. destruct (files _ !! _) as [r|] eqn:Hr; [|done]. destruct (ri_files _ _ Hr). lia.
Qed.
Lemma handle_fresh_dir f L n rt : RI f L n rt → dirs (rt_handles rt) !! next_fh (rt_handles rt) = None.
Proof.
  intros []. destruct (dirs _ !! _) as [r|] eqn:Hr; [|done]. destruct (ri_dirs _ _ Hr). lia.
Qed.
Lemma RI_add_file f L n rt ino h :
  f_file f = None → f_pend f = None → f_new f = false → n + 2 ≤ u64_max → RI (opening ino f) L n rt →
  RI f L n (with_handles (add_file ino h (rt_handles rt)).2 rt).
Proof.
  intros Hf Hp Hnew Hn HRI. pose proof (handle_fresh_file _ _ _ _ HRI) as Hfresh.
  destruct HRI. unfold add_file. simpl in *.
  rewrite wrapping_add64_small by int_lia. split; simpl; try done.
  - intros fh r. rewrite lookup_insert. case_decide as Hfh.
    + intros [= <-]. subst fh. rewrite Hf. simpl. split; [done|lia].
    + intros Hr. destruct (ri_files fh r Hr). split; [done|lia].
  - intros fh r Hr. destruct (ri_dirs fh r Hr). split; [done|lia].
  - intros i. specialize (ri_opens i). unfold handle_count, owed in *. simpl in *.
    rewrite Hp, decide_False by done. destruct (decide (ino = i)) as [->|Hne].
    + rewrite count_map_insert_yes by done. rewrite decide_True in ri_opens by done. lia.
    + rewrite count_map_insert_no by done. rewrite decide_False in ri_opens by congruence. lia.
  - rewrite Hnew. lia.
Qed.

Lemma RI_add_dir f L n rt ino h :
  f_dir f = None → f_pend f = None → f_new f = false → n + 2 ≤ u64_max → RI (opening ino f) L n rt →
  RI f L n (with_handles (add_dir ino h (rt_handles rt)).2 rt).
Proof.
  intros Hf Hp Hnew Hn HRI. pose proof (handle_fresh_dir _ _ _ _ HRI) as Hfresh.
  destruct HRI. unfold add_dir. simpl in *.
  rewrite wrapping_add64_small by int_lia. split; simpl; try done.
  - intros fh r Hr. destruct (ri_files fh r Hr). split; [done|lia].
  - intros fh r. rewrite lookup_insert. case_decide as Hfh.
    + intros [= <-]. subst fh. rewrite Hf. simpl. split; [done|lia].
    + intros Hr. destruct (ri_dirs fh r Hr). split; [done|lia].
  - intros i. specialize (ri_opens i). unfold handle_count, owed in *. simpl in *.
    rewrite Hp, decide_False by done. destruct (decide (ino = i)) as [->|Hne].
    + rewrite count_map_insert_yes by done. rewrite decide_True in ri_opens by done. lia.
    + rewrite count_map_insert_no by done. rewrite decide_False in ri_opens by congruence. lia.
  - rewrite Hnew. lia.
Qed.

(** The tail of [open], [opendir] and [create]: count the open, then register
    the handle. *)
Lemma register_served {A} f L ino (add : HandleTable H D → Z * HandleTable H D) (F : Z → A) Post :
  f_pend f = None → f_new f = false →
  (∀ n rt, n + 2 ≤ u64_max → RI (opening ino f) L n rt → RI f L n (with_handles (add (rt_handles rt)).2 rt)) →
  Post Panicked L → (∀ e, Post (Returned (Err e)) L) → (∀ fh, Post (Returned (Ok (F fh))) L) →
  handled B f f L (_ ←? on_shared (add_open ino); fh ← on_handles add; mret (Ok (F fh)) : M W (Result Errno A)) Post.
Proof.
  intros Hp Hnew Hadd HP He Hok. unfold handled.
  eapply triple_try with (R := λ _, RIL (opening ino f) L).
  - apply triple_step with (OpAddOpen ino); [done|done| |].
    { intros s. unfold add_open. by repeat case_match. }
    intros n issued w Hinv Hn HRI.
    pose proof (RI_add_open f L n (w_rt w) ino issued Hp Hnew HRI Hinv Hn) as Hopen.
    change (exec_op (OpAddOpen ino) (sh_of w)) with (add_open ino (sh_of w)).2.
    unfold sh_of in *. destruct (add_open ino (rt_shared (w_rt w))) as [[[[]|e]| |] s] eqn:Ho; simpl in *.
    + exact Hopen.
    + exists L. split; [apply He|exact Hopen].
    + exists L. split; [exact HP|exact Hopen].
    + unfold add_open in Ho. by repeat case_match.
  - intros _. eapply triple_bind with (R := λ _, RIL f L).
    + apply triple_local_bounded.
      * intros w. unfold on_handles. by destruct (add _).
      * intros w. unfold on_handles. by destruct (add _).
      * intros n w Hn HRI. specialize (Hadd n (w_rt w) Hn HRI). unfold on_handles.
        by destruct (add (rt_handles (w_rt w))) as [fh t].
    + intros fh. apply handled_ret. apply Hok.
Qed.

Lemma open_served L ino flags caller : served L (open fs ino flags caller) (same L).
Proof.
  unfold open. serve. apply handled_try; [apply handled_call; hang|done..|].
  intros opened. apply register_served; try done. intros n' rt. by apply RI_add_file.
Qed.

Lemma opendir_served L ino flags caller : served L (opendir fs ino flags caller) (same L).
Proof.
  unfold opendir. serve. apply handled_try; [apply handled_call; hang|done..|].
  intros opened. apply register_served; try done. intros n' rt. by apply RI_add_dir.
Qed.

(** ** Entries *)

Lemma entry_for_handled f L id caller : handled B f f L (entry_for fs id caller : M W _) (learn_entry L).
Proof.
  unfold entry_for, with_node, fail.
  apply handled_scope_node; [done|intros e; by apply handled_ret|intros key p].
  apply handled_try; [apply handled_call; hang|done..|]. intros attr.
  eapply triple_try with (R := λ g n w, RIL (push_ref key f) (ledger_add id g L) n w ∧
    budget L [] (ledger_add id g L)).
  - intros w. destruct (take_lookup_triple B (push_ref key f) L id w) as (ops & ? & ? & Hq).
    exists ops. split_and!; [done..|]. intros n issued Hinv Hn HRI.
    specialize (Hq n issued Hinv Hn HRI). pose proof (RI_budget _ _ _ _ HRI) as Hb.
    destruct (on_shared (take_lookup id) w) as [[[g|e]| |] w']; simpl in *; [|by exists L|by exists L|done].
    destruct Hq as [? Hg]. split; [done|].
    intros i gi c Hi. destruct (budget_add L [] L id g Hg Hb i gi c Hi) as (? & c' & ? & Hle).
    split; [done|]. exists c'. split; [done|]. unfold occurrences in *. simpl in *. lia.
  - intros g. apply triple_ret. intros n w [HRI Hb]. eexists. split; [|exact HRI]. by split.
Qed.

Lemma entry_served L (p : prog N S Empty_set (Result Errno NodeId)) caller :
  B ∨ no_hang p → served L (id ←? call p; entry_for fs id caller : M W _) (learn_entry L).
Proof.
  intros Hp. apply handled_try; [by apply handled_call|done..|]. intros id. apply entry_for_handled.
Qed.

Lemma mknod_served L parent name mode rdev umask caller :
  served L (mknod fs parent name mode rdev umask caller) (learn_entry L).
Proof. apply entry_served. hang. Qed.
Lemma mkdir_served L parent name mode umask caller :
  served L (mkdir fs parent name mode umask caller) (learn_entry L).
Proof. apply entry_served. hang. Qed.
Lemma symlink_served L parent name target caller :
  served L (symlink fs parent name target caller) (learn_entry L).
Proof. apply entry_served. hang. Qed.
Lemma link_served L ino newparent newname caller :
  served L (link fs ino newparent newname caller) (learn_entry L).
Proof. apply entry_served. hang. Qed.

Definition learn_lookup L (o : outcome (Result Errno LookupReply)) (L' : ledger) : Prop :=
  match o with
  | Returned (Ok (Found e)) =>
      L' = ledger_add (er_ino e) (er_generation e) L ∧ budget L [] L'
  | _ => L' = L
  end.

Lemma lookup_served L parent name caller : served L (lookup fs parent name caller) (learn_lookup L).
Proof.
  unfold lookup. apply handled_try; [apply handled_call; hang|done..|].
  intros [id|]; [|by apply handled_ret].
  eapply triple_try with (R := λ e n w, RIL idle_frame (ledger_add (er_ino e) (er_generation e) L) n w ∧
    budget L [] (ledger_add (er_ino e) (er_generation e) L)).
  - eapply triple_conseq; [apply (entry_for_handled idle_frame L id caller)|done|].
    intros [[e|e]| |] n w (L' & HP & HRI); simpl in HP; [by destruct HP as [-> ?]|..]; try done; by exists L'.
  - intros e. apply triple_ret. intros n w [HRI ?]. eexists. split; [|exact HRI]. done.
Qed.

Definition learn_create L (o : outcome (Result Errno (EntryReply * OpenReply))) (L' : ledger) : Prop :=
  match o with
  | Returned (Ok (e, _)) =>
      L' = ledger_add (er_ino e) (er_generation e) L ∧ budget L [] L'
  | _ => L' = L
  end.

Lemma create_served L parent name mode umask flags caller :
  served L (create fs parent name mode umask flags caller) (learn_create L).
Proof.
  unfold create. apply handled_try; [apply handled_call; hang|done..|]. intros [id opened].
  eapply triple_try with (R := λ e n w, RIL idle_frame (ledger_add (er_ino e) (er_generation e) L) n w ∧
    budget L [] (ledger_add (er_ino e) (er_generation e) L)).
  - eapply triple_conseq; [apply (entry_for_handled idle_frame L id caller)|done|].
    intros [[e|e]| |] n w (L' & HP & HRI); simpl in HP; try done; [destruct HP as [-> ?]; by split|by exists L'|by exists L'].
  - intros e. set (L' := ledger_add (er_ino e) (er_generation e) L).
    eapply triple_conseq; [apply (triple_frame B (budget L [] L')),
      (register_served idle_frame L' id (add_file id (opened_handle opened))
        (λ fh, (e, mkOpenReply fh (opened_hints opened)))
        (λ o L0, (match o with Returned (Ok (e', _)) => e' = e | _ => True end) ∧ L0 = L')); try done|done|].
    + intros n rt. by apply RI_add_file.
    + intros [[[e' r]|e']| |] n w [(L0 & [He ->] & HRI) Hb]; simpl.
      * exists L'. subst e'. by split.
      * exists L. split; [done|]. by eapply RI_weaken.
      * exists L. split; [done|]. by eapply RI_weaken.
      * exists L. split; [done|]. by eapply RI_weaken.
Qed.
(** ** Release *)

Definition releasing (ino : Z) (f : frame) : frame :=
  mkFrame (f_refs f) (f_file f) (f_dir f) (Some ino) false.

Lemma RI_remove_file L n rt fh r :
  RI idle_frame L n rt → files (rt_handles rt) !! fh = Some r →
  RI (releasing (hr_node r) idle_frame) L n (with_files (delete fh (files (rt_handles rt))) rt) ∧
  hr_state r = leased_state false.
Proof.
  intros [] Hr. split; [|by destruct (ri_files fh r Hr)]. split; simpl; try done.
  - intros fh' r'. rewrite lookup_delete. case_decide; [done|]. apply ri_files.
  - intros i. specialize (ri_opens i). unfold handle_count, owed in *. simpl in *.
    destruct (decide (hr_node r = i)) as [Heq|Hne].
    + rewrite (count_map_delete_yes _ _ fh r) by done. rewrite decide_True by congruence. lia.
    + rewrite (count_map_delete_no _ _ fh r) by done. rewrite decide_False by congruence. lia.
Qed.

Lemma RI_remove_dir L n rt fh r :
  RI idle_frame L n rt → dirs (rt_handles rt) !! fh = Some r →
  RI (releasing (hr_node r) idle_frame) L n (with_dirs (delete fh (dirs (rt_handles rt))) rt) ∧
  hr_state r = leased_state false.
Proof.
  intros [] Hr. split; [|by destruct (ri_dirs fh r Hr)]. split; simpl; try done.
  - intros fh' r'. rewrite lookup_delete. case_decide; [done|]. apply ri_dirs.
  - intros i. specialize (ri_opens i). unfold handle_count, owed in *. simpl in *.
    destruct (decide (hr_node r = i)) as [Heq|Hne].
    + rewrite (count_map_delete_yes _ _ fh r) by done. rewrite decide_True by congruence. lia.
    + rewrite (count_map_delete_no _ _ fh r) by done. rewrite decide_False by congruence. lia.
Qed.

Lemma take_payload_idle {T} (B' : Prop) (P : Z → W → Prop) (record : HandleRecord T) Q :
  (∀ n w, P n w → Q (Returned (hr_payload record)) n w) →
  triple (B' ∨ hr_state record ≠ leased_state false) P (take_payload record : M W T) Q.
Proof.
  intros HQ w. exists []. unfold take_payload.
  destruct (close_and_take (hr_state record)) as [o st] eqn:Ht.
  split_and!; [done|by destruct o|]. intros n issued _ _ Hp. simpl. rewrite Z.add_0_r.
  destruct o; [by apply HQ| |].
  - exfalso. unfold close_and_take in Ht. by repeat case_match.
  - right. intros Hr. by rewrite Hr in Ht.
Qed.

(** The second half of [release], once the record left its table. *)
Lemma release_tail {T A} (record : HandleRecord T) ino (k : N → T → prog N S Empty_set (Result Errno A)) L :
  (∀ n h, B ∨ no_hang (k n h)) →
  handled (B ∨ hr_state record ≠ leased_state false) (releasing ino idle_frame) idle_frame L
    (with_node ino (λ node, on_shared (remove_open ino);;
       handle ← take_payload record; call (k node handle)) : M W (Result Errno A)) (same L).
Proof.
  intros Hk.
  assert (∀ o n w, (∃ L', @same (Result Errno A) L o L' ∧ RIL (releasing ino idle_frame) L' n w) →
    ∃ L', same L o L' ∧ RIL idle_frame L' n w) as Hpay.
  { intros o n w (L' & ? & HRI). exists L'. split; [done|]. by eapply (RI_owed idle_frame). }
  unfold with_node, scope_node, handled.
  assert (∀ key : nat, f_pend (push_ref key idle_frame) = None) as Hp by done.
  eapply triple_bind with (R := λ r n w, match r with
    | Ok l => RIL (push_ref (lr_key l) (releasing ino idle_frame)) L n w
    | Err e => RIL (releasing ino idle_frame) L n w
    end).
  - eapply triple_conseq; [apply node_triple|done|]. intros [[l|e]| |] n w Hx; try done.
    apply Hpay. by exists L.
  - intros [l|e].
    + eapply triple_finally with (R := λ o n w, ∃ L', same L o L' ∧ RIL (push_ref (lr_key l) idle_frame) L' n w).
      * eapply triple_bind with (R := λ _, RIL (push_ref (lr_key l) idle_frame) L).
        { apply triple_step with (OpRemoveOpen ino); [done..|].
          intros n issued w Hinv Hn HRI. by apply (RI_remove_open (push_ref (lr_key l) idle_frame) L n _ ino issued). }
        intros _. eapply triple_bind with (R := λ _, RIL (push_ref (lr_key l) idle_frame) L).
        { by apply take_payload_idle. }
        intros h. apply handled_call. destruct (Hk (node_payload l) h); auto.
      * intros o Ho. apply drop_node_triple.
    + apply triple_ret. intros n w HRI. apply Hpay. by exists L.
Qed.

Lemma release_served L ino fh caller : served L (release fs ino fh caller) (same L).
Proof.
  unfold served, release. eapply triple_try with
    (R := λ r n w, RIL (releasing ino idle_frame) L n w ∧ hr_state r = leased_state false).
  - apply triple_local.
    + intros w. unfold on_files, zoom. by destruct (remove_handle ino fh _).
    + intros w. unfold on_files, zoom, remove_handle. repeat case_match; by simplify_eq/=.
    + intros n w HRI. unfold on_files, zoom, remove_handle.
      assert (RIL idle_frame L n (mkWorld (with_files (files (rt_handles (w_rt w))) (w_rt w)) (w_sink w))) as Hsame
        by (by destruct w as [[? ? ? []] ?]).
      destruct (files (rt_handles (w_rt w)) !! fh) as [r|] eqn:Hr; [|by exists L].
      destruct (hr_node r =? ino) eqn:Hi; simpl; [|by exists L].
      apply Z.eqb_eq in Hi as <-. by apply RI_remove_file.
  - intros r. apply triple_unblocked. apply (release_tail r ino (λ n h, fs_release fs n h caller)). intros n h. hang.
Qed.

Lemma releasedir_served L ino fh caller : served L (releasedir fs ino fh caller) (same L).
Proof.
  unfold served, releasedir. eapply triple_try with
    (R := λ r n w, RIL (releasing ino idle_frame) L n w ∧ hr_state r = leased_state false).
  - apply triple_local.
    + intros w. unfold on_dirs, zoom. by destruct (remove_handle ino fh _).
    + intros w. unfold on_dirs, zoom, remove_handle. repeat case_match; by simplify_eq/=.
    + intros n w HRI. unfold on_dirs, zoom, remove_handle.
      assert (RIL idle_frame L n (mkWorld (with_dirs (dirs (rt_handles (w_rt w))) (w_rt w)) (w_sink w))) as Hsame
        by (by destruct w as [[? ? ? []] ?]).
      destruct (dirs (rt_handles (w_rt w)) !! fh) as [r|] eqn:Hr; [|by exists L].
      destruct (hr_node r =? ino) eqn:Hi; simpl; [|by exists L].
      apply Z.eqb_eq in Hi as <-. by apply RI_remove_dir.
  - intros r. apply triple_unblocked. apply (release_tail r ino (λ n h, fs_releasedir fs n h caller)). intros n h. hang.
Qed.
(** ** Directory listings *)

Lemma read_parent_handled f L ino :
  handled B f f L (on_shared (read_parent ino) : M W (Result Errno NodeId)) (same L).
Proof. apply triple_read. intros n w HRI. exists L. split; [done|]. by apply RI_counted. Qed.

Lemma on_sink_triple {A} f (T : K → ledger → Prop) (g : K → A * K) :
  (∀ k L, T k L → T (g k).2 L) → triple B (RIS f T) (on_sink g : M W A) (λ _, RIS f T).
Proof.
  intros HT. apply triple_local.
  - intros w. unfold on_sink. by destruct (g (w_sink w)).
  - intros w. unfold on_sink. by destruct (g (w_sink w)).
  - intros n w (L & HL & HRI). specialize (HT _ _ HL). unfold on_sink.
    destruct (g (w_sink w)) as [a k]. by exists L.
Qed.

Lemma readdir_served L add ino fh offset caller :
  served L (readdir fs add ino fh offset caller : M W _) (same L).
Proof.
  unfold served, readdir, with_node, with_dir, fail.
  apply handled_scope_node; [done|intros e; by apply handled_ret|intros key node].
  apply handled_try; [apply read_parent_handled|done..|]. intros parent.
  apply handled_scope_dir; [done|intros e; by apply handled_ret|intros h].
  eapply triple_conseq; [apply (triple_prog B (lease_dir fh (push_ref key idle_frame)) (λ _ L', L' = L))| |].
  - intros e. by apply on_sink_triple.
  - hang.
  - intros n w HRI. by exists L.
  - intros o n w (L' & HT & HRI). by exists L'.
Qed.
End handlers.

(** ** [readdirplus]

    [shown k]: the entries that the kernel finds in a sink that was filled to
    [k], each with its name, its inode and its generation. *)
Section readdirplus.
Context {N H D S K : Type} `{Libc} (fs : NodeFs N H D S) (B : Prop) (HB : B ∨ terminating fs).
Context (inner : OsString → EntryReply → Z → K → bool * K).
Context (shown : K → list (OsString * Z * Z)) (good : K → Prop).
Abbreviation W := (World N H D S K).
Abbreviation WA := (World N H D S (K * list NodeId)).
Implicit Types (L : ledger) (f : frame).

(** A sink shows the kernel at most the entries that it accepts. *)
Definition honest : Prop := ∀ name e off k, good k →
  let '(b, k') := inner name e off k in
  good k' ∧ (shown k' = shown k ∨ b = true ∧ shown k' = shown k ++ [(name, er_ino e, er_generation e)]).

(** The kernel counts a lookup for each entry but "." and "..". *)
Definition counted_entries (l : list (OsString * Z * Z)) : list (Z * Z) :=
  (λ e, (e.1.2, e.2)) <$> filter (λ e, e.1.1 ≠ "." ∧ e.1.1 ≠ ".."%string) l.
Definition told (k : K) L : ledger := ledger_adds (counted_entries (shown k)) L.

Lemma told_push l name i g L :
  ledger_adds (counted_entries (l ++ [(name, i, g)])) L =
    if decide (name ≠ "." ∧ name ≠ ".."%string) then ledger_add i g (ledger_adds (counted_entries l) L)
    else ledger_adds (counted_entries l) L.
Proof.
  unfold counted_entries. rewrite filter_app. case_decide as Hn.
  - rewrite filter_cons_True by done. rewrite fmap_app. unfold ledger_adds. by rewrite foldl_app.
  - rewrite filter_cons_False by done. by rewrite app_nil_r.
Qed.

(** The lookups that were retained so far pay for the entries that the kernel
    will find; [one], for one entry more. *)
Definition accounted L (ka : K * list NodeId) (L' : ledger) : Prop :=
  good ka.1 ∧ budget L ka.2 L' ∧ budget (told ka.1 L) [] L'.
Definition owing L i g (ka : K * list NodeId) (L' : ledger) : Prop :=
  good ka.1 ∧ budget L ka.2 L' ∧
  ∃ A, budget A [] L' ∧ (told ka.1 L = A ∨ told ka.1 L = ledger_add i g A).

Lemma accounted_push L k l i g L' :
  (∀ g' c, L' !! i = Some (g', c) → g' = g) → (∀ j g' c, L' !! j = Some (g', c) → 1 ≤ c) →
  owing L i g (k, l) L' → accounted L (k, l ++ [i]) (ledger_add i g L').
Proof.
  intros Hg Hpos (Hk & Hb & A & HA & Ht). simpl in *. split_and!; simpl; [done|by apply budget_add|].
  destruct Ht as [-> | ->]; [|by apply budget_push].
  by eapply budget_nil, budget_add.
Qed.

Lemma generation_triple f L id :
  triple B (RIS f (accounted L)) (on_shared (read_generation id) : M WA _) (λ o n w,
    match o with
    | Returned (Ok g) => RIS f (accounted L) n w ∧ live_at id g w
    | _ => RIS f (accounted L) n w
    end).
Proof.
  apply triple_read. intros n w HRI%RIS_counted. unfold live_at, sh_of in *. simpl.
  destruct (tbl_map _ !! id) as [s|]; simpl; [|done]. split; [done|by exists s].
Qed.

Lemma accounting_add_triple f L e :
  honest →
  triple B (RIS f (accounted L)) (accounting_add inner e : M WA bool) (λ _, RIS f (accounted L)).
Proof.
  intros Hhonest. unfold accounting_add.
  eapply triple_bind with (R := λ r n w, match r with
    | Ok entry => RIS f (accounted L) n w ∧ live_at (pe_id e) (er_generation entry) w ∧ er_ino entry = pe_id e
    | Err _ => RIS f (accounted L) n w
    end).
  { unfold plus_entry. eapply triple_try with (R := λ g n w, RIS f (accounted L) n w ∧ live_at (pe_id e) g w).
    - eapply triple_conseq; [apply generation_triple|done|]. by intros [[g|err]| |].
    - intros g. apply triple_ret. by intros n w []. }
  intros [entry|err]; [|by apply triple_ret].
  set (dotted := bool_decide (pe_name e ≠ ".") && bool_decide (pe_name e ≠ "..")).
  assert (dotted = bool_decide (pe_name e ≠ "." ∧ pe_name e ≠ ".."%string)) as Hdot.
  { subst dotted. by rewrite bool_decide_and. }
  eapply triple_bind with (R := λ accepted n w,
    if accepted && dotted
    then RIS f (owing L (pe_id e) (er_generation entry)) n w ∧ live_at (pe_id e) (er_generation entry) w
    else RIS f (accounted L) n w).
  { apply triple_local.
    - intros w. unfold on_sink. destruct (w_sink w). by destruct (inner _ _ _ _).
    - intros w. unfold on_sink. destruct (w_sink w). by destruct (inner _ _ _ _).
    - intros n w ((L' & (Hk & Hb & Ht) & HRI) & Hlive & Hino). unfold on_sink.
      destruct (w_sink w) as [k l]; simpl in *.
      pose proof (Hhonest (pe_name e) entry (pe_next_offset e) k Hk) as Hin.
      destruct (inner _ _ _ k) as [b k']. destruct Hin as [Hk' Hs]. simpl. rewrite Hdot, Hino in *.
      assert (b && bool_decide (pe_name e ≠ "." ∧ pe_name e ≠ ".."%string) = false → told k' L = told k L) as Hsame.
      { unfold told. destruct Hs as [-> |[-> ->]]; [done|]. rewrite told_push. simpl.
        intros Hn%bool_decide_eq_false_1. by rewrite decide_False. }
      destruct (b && _) eqn:Hbd.
      + split; [|done]. exists L'. split; [|done]. split_and!; simpl; [done|done|]. exists (told k L). split; [done|].
        unfold told. destruct Hs as [-> |[_ ->]]; [by left|]. rewrite told_push. destruct (decide _); [by right|by left].
      + exists L'. split; [|done]. split_and!; simpl; [done..|]. by rewrite Hsame. }
  intros [|]; simpl; [|by apply triple_ret]. fold dotted. destruct dotted; [|by apply triple_ret].
  eapply triple_bind with (R := λ r n w, r = Ok tt ∧ ∃ L', owing L (pe_id e) (er_generation entry) (w_sink w) L' ∧
    RIL f (ledger_add (pe_id e) (er_generation entry) L') n w ∧
    (∀ g' c, L' !! pe_id e = Some (g', c) → g' = er_generation entry) ∧ (∀ j g' c, L' !! j = Some (g', c) → 1 ≤ c)).
  - eapply triple_conseq; [apply (retain_live_triple B f (owing L (pe_id e) (er_generation entry)) (pe_id e) (er_generation entry))|done|]. intros [r| |] n w Hx; [|by destruct Hx..].
    destruct Hx as [Hr Hx]. by injection Hr as ->.
  - intros [u|err]; [|apply triple_ret; by intros n w [? _]].
    apply triple_local.
    + intros w. unfold on_sink. by destruct (w_sink w).
    + intros w. unfold on_sink. by destruct (w_sink w).
    + intros n w (_ & L' & Ho & HRI & Hg & Hpos). unfold on_sink. destruct (w_sink w) as [k l]; simpl.
      exists (ledger_add (pe_id e) (er_generation entry) L'). split; [by apply accounted_push|done].
Qed.

(** Giving back what was accepted. *)
Lemma forget_all_triple B' f L ids :
  triple B' (λ n w, ∃ L', budget L ids L' ∧ RIL f L' n w) (forget_all ids : M W unit)
    (λ o n w, o = Returned tt ∧ RIL f L n w).
Proof.
  induction ids as [|id ids IH]; simpl.
  - apply triple_ret. intros n w (L' & Hb & HRI). split; [done|]. by eapply RI_weaken.
  - eapply triple_bind with (R := λ _ n w, ∃ L', budget L ids L' ∧ RIL f L' n w); [|intros _; apply IH].
    apply triple_step with (OpForget id 1); [simpl; lia|done..|].
    intros n issued w Hinv Hn (L' & Hb & HRI). exists (ledger_forget id 1 L').
    split; [by apply budget_forget|]. by eapply RI_forget.
Qed.

(** The scope of the accounting sink, when the request's own sink is empty. *)
Definition fresh L (k : K) (L' : ledger) : Prop := L' = L ∧ good k ∧ shown k = [].

Lemma with_accounting_triple {A} f L (m : M WA A) :
  triple B (RIS f (accounted L)) m (λ _, RIS f (accounted L)) →
  triple B (RIS f (fresh L)) (with_accounting m : M W _) (λ o n w,
    match o with
    | Returned (_, ids) => RIS f (λ k L', budget L ids L' ∧ budget (told k L) [] L') n w
    | _ => RIL f L n w
    end).
Proof.
  intros Hm w. destruct (Hm (mkWorld (w_rt w) (w_sink w, []))) as (ops & Hwf & Hsh & Hq).
  exists ops. unfold with_accounting, sh_of in *. simpl in *.
  destruct (m (mkWorld (w_rt w) (w_sink w, []))) as [o w'] eqn:Hmw; simpl in *.
  split_and!; [done|by destruct o|].
  intros n issued Hinv Hn (L0 & (-> & Hk & Hs) & HRI). specialize (Hq n issued Hinv Hn).
  assert (RIS f (accounted L) n (mkWorld (w_rt w) (w_sink w, []))) as Hpre.
  { exists L. split; [|done]. unfold accounted, told. simpl. rewrite Hs.
    split_and!; [done|by eapply (RI_budget f L n w)..]. }
  specialize (Hq Hpre). destruct o as [a| |]; simpl in *.
  - destruct Hq as (L' & (? & ? & ?) & ?). by exists L'.
  - destruct Hq as (L' & (? & ? & ?) & ?). by apply (RI_weaken f L L' (w_sink w').2 _ w').
  - done.
Qed.

(** After a listing that succeeded, [L'] holds the lookups that it retained;
    they pay for what the kernel finds in the buffer, and giving them back
    leaves what the kernel held before. *)
Definition learn_plus L (o : outcome (Result Errno (list NodeId))) (k : K) (L' : ledger) : Prop :=
  match o with
  | Returned (Ok ids) => budget L ids L' ∧ budget (told k L) [] L'
  | _ => L' = L
  end.

Lemma readdirplus_kept L ino fh offset caller :
  honest →
  kept B idle_frame idle_frame (fresh L) (readdirplus fs inner ino fh offset caller : M W _) (learn_plus L).
Proof.
  intros Hhonest. unfold readdirplus, with_node, with_dir, fail.
  assert (∀ f e, kept B f f (fresh L) (mret (Err e) : M W (Result Errno (list NodeId))) (learn_plus L)) as Herr.
  { intros f e. apply kept_ret. by intros k L' [-> _]. }
  apply kept_scope_node; [by intros k L' [-> _]|intros e; apply Herr|intros key node].
  apply kept_try; [|by intros k L' [-> _]|by intros e k L' [-> _]|].
  { apply triple_read. intros n w. apply RIS_counted. }
  intros parent. apply kept_scope_dir; [done|intros e; apply Herr|intros h].
  set (f := lease_dir fh (push_ref key idle_frame)).
  eapply triple_bind with (R := λ r, RIS f (λ k L', budget L r.2 L' ∧ budget (told k L) [] L')).
  - eapply triple_conseq; [apply (with_accounting_triple f L)|done|].
    + apply triple_prog; [intros e; by apply accounting_add_triple|]. destruct HB as [?|[]]; auto.
    + intros [[r ids]| |] n w Hx; [done|by exists L|done].
  - intros [[u|e] ids].
    + by apply triple_ret.
    + eapply triple_bind with (R := λ _, RIL f L).
      * eapply triple_conseq; [apply (forget_all_triple B f L ids)| |].
        { intros n w (L' & [? _] & ?). by exists L'. }
        intros [u| |] n w [? HRI]; [done|by exists L|done].
      * intros _. apply triple_ret. intros n w HRI. by exists L.
Qed.
End readdirplus.
