(* ===== verification/Requests.v ===== *)
(** * Serving requests

    The requests of the kernel as data, sequences of them, and the theorems
    about the runtime that hold for every filesystem: the kernel's references
    stay valid, open handles pin their nodes, nothing leaks, and the runtime
    never blocks on its own. *)

From S2P Require Import Prelude Types NodeTable NodeTableInv HandleRec NodeFs Runtime RuntimeInv RuntimeSpec.

(** ** Requests and replies *)
Inductive request (K : Type) :=
| ReqInit (conn : ConnInfo)
| ReqDestroy
| ReqForget (ino nlookup : Z)
| ReqStatfs (ino : Z) (caller : Caller)
| ReqGetattr (ino : Z) (fh : option Z) (caller : Caller)
| ReqSetattr (ino : Z) (fh : option Z) (set : SetAttr) (caller : Caller)
| ReqReadlink (ino : Z) (caller : Caller)
| ReqAccess (ino mask : Z) (caller : Caller)
| ReqSetxattr (ino : Z) (name : OsString) (value : bytes) (flags : Z) (caller : Caller)
| ReqGetxattr (ino : Z) (name : OsString) (size : Z) (caller : Caller)
| ReqListxattr (ino size : Z) (caller : Caller)
| ReqRemovexattr (ino : Z) (name : OsString) (caller : Caller)
| ReqOpen (ino flags : Z) (caller : Caller)
| ReqRead (ino fh offset size : Z) (caller : Caller)
| ReqWrite (ino fh : Z) (data : bytes) (offset : Z) (caller : Caller)
| ReqFlush (ino fh : Z) (caller : Caller)
| ReqFsync (ino fh : Z) (datasync : bool) (caller : Caller)
| ReqFallocate (ino fh mode offset length : Z) (caller : Caller)
| ReqLseek (ino fh offset whence : Z) (caller : Caller)
| ReqGetlk (ino fh owner : Z) (lock : FileLock) (caller : Caller)
| ReqSetlk (ino fh owner : Z) (lock : FileLock) (sleep : bool) (caller : Caller)
| ReqRelease (ino fh : Z) (caller : Caller)
| ReqOpendir (ino flags : Z) (caller : Caller)
| ReqReaddir (sink : K) (add : DirEntry → K → bool * K) (ino fh offset : Z) (caller : Caller)
| ReqReaddirplus (sink : K) (add : OsString → EntryReply → Z → K → bool * K) (ino fh offset : Z) (caller : Caller)
| ReqFsyncdir (ino fh : Z) (datasync : bool) (caller : Caller)
| ReqReleasedir (ino fh : Z) (caller : Caller)
| ReqLookup (parent : Z) (name : OsString) (caller : Caller)
| ReqMknod (parent : Z) (name : OsString) (mode rdev umask : Z) (caller : Caller)
| ReqMkdir (parent : Z) (name : OsString) (mode umask : Z) (caller : Caller)
| ReqSymlink (parent : Z) (name : OsString) (target : PathBuf) (caller : Caller)
| ReqLink (ino newparent : Z) (newname : OsString) (caller : Caller)
| ReqUnlink (parent : Z) (name : OsString) (caller : Caller)
| ReqRmdir (parent : Z) (name : OsString) (caller : Caller)
| ReqRename (parent : Z) (name : OsString) (newparent : Z) (newname : OsString) (flags : Z) (caller : Caller)
| ReqCreate (parent : Z) (name : OsString) (mode umask flags : Z) (caller : Caller)
| ReqCopyFileRange (ino_in off_in ino_out off_out len flags : Z) (caller : Caller).
Arguments ReqInit {K}.
Arguments ReqDestroy {K}.
Arguments ReqForget {K}.
Arguments ReqStatfs {K}.
Arguments ReqGetattr {K}.
Arguments ReqSetattr {K}.
Arguments ReqReadlink {K}.
Arguments ReqAccess {K}.
Arguments ReqSetxattr {K}.
Arguments ReqGetxattr {K}.
Arguments ReqListxattr {K}.
Arguments ReqRemovexattr {K}.
Arguments ReqOpen {K}.
Arguments ReqRead {K}.
Arguments ReqWrite {K}.
Arguments ReqFlush {K}.
Arguments ReqFsync {K}.
Arguments ReqFallocate {K}.
Arguments ReqLseek {K}.
Arguments ReqGetlk {K}.
Arguments ReqSetlk {K}.
Arguments ReqRelease {K}.
Arguments ReqOpendir {K}.
Arguments ReqReaddir {K}.
Arguments ReqReaddirplus {K}.
Arguments ReqFsyncdir {K}.
Arguments ReqReleasedir {K}.
Arguments ReqLookup {K}.
Arguments ReqMknod {K}.
Arguments ReqMkdir {K}.
Arguments ReqSymlink {K}.
Arguments ReqLink {K}.
Arguments ReqUnlink {K}.
Arguments ReqRmdir {K}.
Arguments ReqRename {K}.
Arguments ReqCreate {K}.
Arguments ReqCopyFileRange {K}.

Inductive reply :=
| RepNone
| RepConn (conn : ConnInfo)
| RepUnit (r : Result Errno unit)
| RepStatfs (r : Result Errno StatFs)
| RepAttr (r : Result Errno NodeAttr)
| RepPath (r : Result Errno PathBuf)
| RepXattr (r : Result Errno XattrReply)
| RepOpen (r : Result Errno OpenReply)
| RepData (r : Result Errno bytes)
| RepCount (r : Result Errno Z)
| RepLock (r : Result Errno FileLock)
| RepEntry (r : Result Errno EntryReply)
| RepLookup (r : Result Errno LookupReply)
| RepCreate (r : Result Errno (EntryReply * OpenReply))
| RepPlus (r : Result Errno (list NodeId)).

Section requests.
Context {N H D S K : Type} `{Libc} (fs : NodeFs N H D S).
Abbreviation W := (World N H D S K).

Definition with_sink {A} (k : K) (m : M W A) : M W A := λ w, m (mkWorld (w_rt w) k).
Definition reply_with {A} (c : A → reply) (m : M W A) : M W reply := r ← m; mret (c r).

Definition exec_request (r : request K) : M W reply :=
  match r with
  | ReqInit conn => reply_with RepConn (init fs conn)
  | ReqDestroy => reply_with (λ _, RepNone) (destroy fs)
  | ReqForget ino nlookup => reply_with (λ _, RepNone) (forget ino nlookup)
  | ReqStatfs ino caller => reply_with RepStatfs (statfs fs ino caller)
  | ReqGetattr ino fh caller => reply_with RepAttr (getattr fs ino fh caller)
  | ReqSetattr ino fh set caller => reply_with RepAttr (setattr fs ino fh set caller)
  | ReqReadlink ino caller => reply_with RepPath (readlink fs ino caller)
  | ReqAccess ino mask caller => reply_with RepUnit (access fs ino mask caller)
  | ReqSetxattr ino name value flags caller => reply_with RepUnit (setxattr fs ino name value flags caller)
  | ReqGetxattr ino name size caller => reply_with RepXattr (getxattr fs ino name size caller)
  | ReqListxattr ino size caller => reply_with RepXattr (listxattr fs ino size caller)
  | ReqRemovexattr ino name caller => reply_with RepUnit (removexattr fs ino name caller)
  | ReqOpen ino flags caller => reply_with RepOpen (open fs ino flags caller)
  | ReqRead ino fh offset size caller => reply_with RepData (read fs ino fh offset size caller mret)
  | ReqWrite ino fh data offset caller => reply_with RepCount (write fs ino fh data offset caller)
  | ReqFlush ino fh caller => reply_with RepUnit (flush fs ino fh caller)
  | ReqFsync ino fh datasync caller => reply_with RepUnit (fsync fs ino fh datasync caller)
  | ReqFallocate ino fh mode offset length caller => reply_with RepUnit (fallocate fs ino fh mode offset length caller)
  | ReqLseek ino fh offset whence caller => reply_with RepCount (lseek fs ino fh offset whence caller)
  | ReqGetlk ino fh owner lock caller => reply_with RepLock (getlk fs ino fh owner lock caller)
  | ReqSetlk ino fh owner lock sleep caller => reply_with RepUnit (setlk fs ino fh owner lock sleep caller)
  | ReqRelease ino fh caller => reply_with RepUnit (release fs ino fh caller)
  | ReqOpendir ino flags caller => reply_with RepOpen (opendir fs ino flags caller)
  | ReqReaddir sink add ino fh offset caller => reply_with RepUnit (with_sink sink (readdir fs add ino fh offset caller))
  | ReqReaddirplus sink add ino fh offset caller => reply_with RepPlus (with_sink sink (readdirplus fs add ino fh offset caller))
  | ReqFsyncdir ino fh datasync caller => reply_with RepUnit (fsyncdir fs ino fh datasync caller)
  | ReqReleasedir ino fh caller => reply_with RepUnit (releasedir fs ino fh caller)
  | ReqLookup parent name caller => reply_with RepLookup (lookup fs parent name caller)
  | ReqMknod parent name mode rdev umask caller => reply_with RepEntry (mknod fs parent name mode rdev umask caller)
  | ReqMkdir parent name mode umask caller => reply_with RepEntry (mkdir fs parent name mode umask caller)
  | ReqSymlink parent name target caller => reply_with RepEntry (symlink fs parent name target caller)
  | ReqLink ino newparent newname caller => reply_with RepEntry (link fs ino newparent newname caller)
  | ReqUnlink parent name caller => reply_with RepUnit (unlink fs parent name caller)
  | ReqRmdir parent name caller => reply_with RepUnit (rmdir fs parent name caller)
  | ReqRename parent name newparent newname flags caller => reply_with RepUnit (rename fs parent name newparent newname flags caller)
  | ReqCreate parent name mode umask flags caller => reply_with RepCreate (create fs parent name mode umask flags caller)
  | ReqCopyFileRange ino_in off_in ino_out off_out len flags caller => reply_with RepCount (copy_file_range fs ino_in off_in ino_out off_out len flags caller)
  end.

(** A [u64] argument is a [u64]. *)
Definition request_wf (r : request K) : Prop :=
  match r with ReqForget _ nlookup => 0 ≤ nlookup | _ => True end.

(** [shown k] is what the kernel finds in a [readdirplus] buffer that was
    filled to [k]: names, inodes and generations.  The buffer of a request is
    empty at first and shows only entries that it accepted. *)
Section kernel.
Context (shown : K → list (OsString * Z * Z)).

Definition sink_wf (r : request K) : Prop :=
  match r with
  | ReqReaddirplus sink add _ _ _ _ => ∃ good, good sink ∧ shown sink = [] ∧ honest add shown good
  | _ => True
  end.

(** What the kernel holds after a request that left the buffer [k]: [forget]
    gives lookups back, each entry it was sent counts for one, and so does each
    entry of a listing other than "." and "..". *)
Definition learn_reply (o : outcome reply) (k : K) (L : ledger) : ledger :=
  match o with
  | Returned (RepEntry (Ok e)) => ledger_add (er_ino e) (er_generation e) L
  | Returned (RepLookup (Ok (Found e))) => ledger_add (er_ino e) (er_generation e) L
  | Returned (RepCreate (Ok (e, _))) => ledger_add (er_ino e) (er_generation e) L
  | Returned (RepPlus (Ok _)) => told shown k L
  | _ => L
  end.
Definition learn (r : request K) (o : outcome reply) (k : K) (L : ledger) : ledger :=
  match r with ReqForget ino nlookup => ledger_forget ino nlookup L | _ => learn_reply o k L end.

(** [kernel_told L w]: the runtime served requests and is now in [w], and the kernel
    holds the lookups [L] of what it was sent since the mount. *)
Inductive kernel_told (s0 : S) (k0 : K) : ledger → W → Prop :=
| told_new w : Runtime_new fs s0 k0 = (Returned tt, w) → kernel_told s0 k0 ∅ w
| told_request L w r o w' :
    kernel_told s0 k0 L w → request_wf r → sink_wf r → exec_request r w = (o, w') → o ≠ Blocked →
    kernel_told s0 k0 (learn r o (w_sink w') L) w'.

(** The lookups that the runtime counts after a request: as many as the kernel
    holds, or more of a listing, which retains one for each entry it passed
    on.  Except after [forget] they are those the kernel held before and what
    the listing retained. *)
Definition retained (o : outcome reply) : list NodeId :=
  match o with Returned (RepPlus (Ok ids)) => ids | _ => [] end.
Definition gains (r : request K) (o : outcome reply) (L L' : ledger) : Prop :=
  match r, o with
  | ReqForget _ _, _ => True
  | _, Returned (RepEntry (Ok _)) | _, Returned (RepLookup (Ok (Found _)))
  | _, Returned (RepCreate (Ok _)) | _, Returned (RepPlus (Ok _)) => budget L (retained o) L'
  | _, _ => L' = L
  end.
Definition pays (r : request K) (o : outcome reply) (L : ledger) (k : K) (L' : ledger) : Prop :=
  (L' = learn r o k L ∨ budget (learn r o k L) [] L') ∧ gains r o L L'.
End kernel.

(** [history] of the requests served since the runtime was built, the latest
    first. A request may panic (the session answers [EIO]); one that hangs
    never comes back. *)
Inductive serves (s0 : S) (k0 : K) : list (request K * outcome reply) → W → Prop :=
| serves_new w : Runtime_new fs s0 k0 = (Returned tt, w) → serves s0 k0 [] w
| serves_request history w r o w' :
    serves s0 k0 history w → request_wf r → exec_request r w = (o, w') → o ≠ Blocked →
    serves s0 k0 ((r, o) :: history) w'.
End requests.

(** A kernel that finds nothing in a buffer does not constrain it. *)
Lemma sink_wf_blind {K} (r : request K) : sink_wf (λ _, []) r.
Proof.
  destruct r; try done. exists (λ _, True). split_and!; [done..|]. intros name e off k _.
  destruct (add name e off k). split; [done|by left].
Qed.

(** ** The runtime serves every request within its invariant *)
Section served.
Context {N H D S K : Type} `{Libc} (fs : NodeFs N H D S) (B : Prop) (HB : B ∨ terminating fs).
Abbreviation W := (World N H D S K).
Implicit Types (L : ledger) (w : W).

Lemma reply_with_kept {A} T (c : A → reply) (m : M W A) (Post : outcome A → K → ledger → Prop)
    (Post' : outcome reply → K → ledger → Prop) :
  kept B idle_frame idle_frame T m Post →
  (∀ a k L', Post (Returned a) k L' → Post' (Returned (c a)) k L') →
  (∀ k L', Post Panicked k L' → Post' Panicked k L') →
  kept B idle_frame idle_frame T (reply_with c m) Post'.
Proof.
  intros Hm Hr Hp. unfold reply_with.
  eapply triple_bind with (R := λ a, RIS idle_frame (Post (Returned a))).
  - eapply triple_conseq; [exact Hm|done|]. intros [a| |] n w HRI; [done| |done].
    destruct HRI as (L' & HP & HRI). exists L'. auto.
  - intros a. apply triple_ret. intros n w (L' & HP & HRI). exists L'. auto.
Qed.

Lemma reply_with_served {A} L (c : A → reply) (m : M W A) (Post : outcome A → ledger → Prop)
    (Post' : outcome reply → K → ledger → Prop) :
  handled B idle_frame idle_frame L m Post →
  (∀ a k L', Post (Returned a) L' → Post' (Returned (c a)) k L') →
  (∀ k L', Post Panicked L' → Post' Panicked k L') →
  kept B idle_frame idle_frame (λ _ L', L' = L) (reply_with c m) Post'.
Proof. intros Hm%handled_kept Hr Hp. eapply reply_with_kept; [exact Hm|..]; naive_solver. Qed.

Lemma with_sink_kept {A} L k (m : M W A) Post :
  kept B idle_frame idle_frame (λ k' L', L' = L ∧ k' = k) m Post →
  kept B idle_frame idle_frame (λ _ L', L' = L) (with_sink k m) Post.
Proof.
  intros Hm w. destruct (Hm (mkWorld (w_rt w) k)) as (ops & Hwf & Hmade & Hq).
  exists ops. unfold with_sink. split_and!; [done..|]. intros n issued Hinv Hn (L' & -> & HRI).
  apply (Hq n issued Hinv Hn). by exists L.
Qed.

Lemma with_sink_served {A} L k (m : M W A) Post :
  handled B idle_frame idle_frame L m Post → handled B idle_frame idle_frame L (with_sink k m) Post.
Proof. intros Hm w. apply (Hm (mkWorld (w_rt w) k)). Qed.

Local Tactic Notation "by_served" uconstr(lem) :=
  eapply reply_with_served; [apply lem; exact HB|by intros ? ? ? ->; split; [left|]|by intros ? ? ->; split; [left|]].

Local Tactic Notation "by_entry" uconstr(lem) :=
  eapply reply_with_served;
  [apply lem; exact HB|intros [?|?] ? ? HP; [by destruct HP as [-> ?]; split; [left|]|by simpl in HP; subst; split; [left|]]
  |by intros ? ? ->; split; [left|]].

Lemma request_served shown L (r : request K) :
  request_wf r → sink_wf shown r →
  kept B idle_frame idle_frame (λ _ L', L' = L) (exec_request fs r) (λ o, pays shown r o L).
Proof.
  intros Hwf Hsink. destruct r; unfold exec_request, pays, learn, learn_reply, gains, retained.
  - by_served init_served.
  - by_served destroy_served.
  - eapply reply_with_served; [by apply forget_served|by intros ? ? ? [_ ->]; split; [left|]|by intros ? ? [? _]].
  - by_served statfs_served.
  - by_served getattr_served.
  - by_served setattr_served.
  - by_served readlink_served.
  - by_served access_served.
  - by_served setxattr_served.
  - by_served getxattr_served.
  - by_served listxattr_served.
  - by_served removexattr_served.
  - by_served open_served.
  - eapply reply_with_served with (Post := same L); [|by intros ? ? ? ->; split; [left|]|by intros ? ? ->; split; [left|]].
    apply read_served; [exact HB|]. intros f r. by apply handled_ret.
  - by_served write_served.
  - by_served flush_served.
  - by_served fsync_served.
  - by_served fallocate_served.
  - by_served lseek_served.
  - by_served getlk_served.
  - by_served setlk_served.
  - by_served release_served.
  - by_served opendir_served.
  - eapply reply_with_served; [apply with_sink_served, readdir_served; exact HB|by intros ? ? ? ->; split; [left|]
      |by intros ? ? ->; split; [left|]].
  - destruct Hsink as (good & Hgood & Hempty & Hhonest).
    eapply reply_with_kept with (Post := learn_plus shown L); [| |by intros ? ? ->; split; [left|]].
    + apply with_sink_kept. eapply triple_conseq; [by apply (readdirplus_kept fs B HB add shown good L ino fh offset caller)| |done].
      intros n w (L' & [-> Hk] & HRI). exists L. split; [|done]. unfold fresh. by rewrite Hk.
    + intros [ids|e] k L' HP; [by destruct HP; split; [right|]|by simpl in HP; subst; split; [left|]].
  - by_served fsyncdir_served.
  - by_served releasedir_served.
  - eapply reply_with_served; [apply lookup_served; exact HB| |by intros ? ? ->; split; [left|]].
    intros [[e|]|e] k L' HP; [by destruct HP as [-> ?]; split; [left|]|by simpl in HP; subst; split; [left|]..].
  - by_entry mknod_served.
  - by_entry mkdir_served.
  - by_entry symlink_served.
  - by_entry link_served.
  - by_served unlink_served.
  - by_served rmdir_served.
  - by_served rename_served.
  - eapply reply_with_served; [apply create_served; exact HB| |by intros ? ? ->; split; [left|]].
    intros [[e r]|e] k L' HP; [by destruct HP as [-> ?]; split; [left|]|by simpl in HP; subst; split; [left|]].
  - by_served copy_file_range_served.
Qed.
End served.

(** ** Every state the runtime can be in between two requests *)
Section reachable.
Context {N H D S K : Type} `{Libc} (fs : NodeFs N H D S) (s0 : S) (k0 : K).
Abbreviation W := (World N H D S K).
Implicit Types (L : ledger) (w : W).

Definition root_payload : N := (fs_root fs s0).1.

(** [w] was reached by the atomic table steps [ops], which were counted. *)
Definition reached w (ops : list (table_op N)) : Prop :=
  Forall op_wf ops ∧ sh_of w = run_ops ops (Shared_init root_payload) ∧ (length ops ≤ steps_of w)%nat.

(** [at_step w L]: between two requests, where the kernel holds [L]. *)
Definition at_step w L : Prop :=
  ∃ ops, reached w ops ∧ (few_steps w → RIL idle_frame L (Z.of_nat (length ops)) w).

Lemma reached_inv w ops :
  reached w ops → few_steps w → ∃ issued, inv_but None (Z.of_nat (length ops)) issued (sh_of w).
Proof.
  unfold few_steps. intros (Hwf & -> & Hle) Hn.
  destruct (inv_run ops 0 _ _ (inv_init root_payload) Hwf) as [issued ?]; [lia|]. by exists issued.
Qed.

(** What a triple says of a computation that starts in a reached state. *)
Lemma reached_triple {A} B (P : Z → W → Prop) (m : M W A) Q w o w' ops :
  triple B P m Q → m w = (o, w') → reached w ops →
  ∃ ops', reached w' ops' ∧
    (few_steps w' → few_steps w ∧ (P (Z.of_nat (length ops)) w →
       match o with Blocked => B | o => Q o (Z.of_nat (length ops')) w' end)).
Proof.
  intros Hm Heq Hat. destruct (Hm w) as (ops' & Hwf' & [Hsh' Hle'] & Hq). rewrite Heq in *. simpl in *.
  pose proof Hat as (Hwf & Hsh & Hle). exists (ops ++ ops'). split.
  - split_and!; [by apply Forall_app|by rewrite run_ops_app, <- Hsh|rewrite length_app; lia].
  - intros Hn. assert (few_steps w) as Hn0 by (unfold few_steps in *; lia). split; [done|]. intros HP.
    destruct (reached_inv w ops Hat Hn0) as [issued Hinv]. unfold few_steps in Hn.
    specialize (Hq _ _ Hinv ltac:(lia) HP). rewrite length_app.
    rewrite Nat2Z.inj_add. by destruct o.
Qed.

Lemma at_step_weaken w L L' : (few_steps w → budget L [] L') → at_step w L' → at_step w L.
Proof.
  intros Hb (ops & Hat & HRI). exists ops. split; [done|]. intros Hn. eapply RI_weaken; [by apply Hb|by apply HRI].
Qed.

(** One request: the lookups that the runtime counts pay for what the kernel
    learnt. *)
Lemma request_step shown w L (r : request K) o w' :
  at_step w L → request_wf r → sink_wf shown r → exec_request fs r w = (o, w') → o ≠ Blocked →
  ∃ L', at_step w' L' ∧ (few_steps w' → pays shown r o L (w_sink w') L').
Proof.
  intros (ops & Hat & HRI) Hr Hsink Hexec Ho.
  destruct (reached_triple _ _ _ _ _ _ _ _ (request_served fs True (or_introl I) shown L r Hr Hsink) Hexec Hat) as (ops' & Hat' & Hq).
  destruct (decide (few_steps w')) as [Hn|Hn]; cycle 1.
  { exists L. split; [by exists ops'|done]. }
  destruct (Hq Hn) as [Hn0 Hq']. specialize (Hq' (ex_intro _ L (conj eq_refl (HRI Hn0)))).
  assert (RIS idle_frame (pays shown r o L) (Z.of_nat (length ops')) w') as (L' & ? & HRI') by (by destruct o).
  exists L'. split; [by exists ops'|done].
Qed.

Lemma pays_learn shown w (r : request K) o L k L' :
  (few_steps w → pays shown r o L k L') → at_step w L' → at_step w (learn shown r o k L).
Proof.
  intros Hp Hat. apply at_step_weaken with L'; [|done]. intros Hn. destruct (Hp Hn) as [[->|?] _]; [|done].
  destruct Hat as (ops & _ & HRI). by eapply RI_budget, HRI.
Qed.

Lemma start_RI : RIL idle_frame ∅ 0 (mkWorld (Runtime_start fs s0) k0).
Proof.
  unfold RIL, Runtime_start. destruct (fs_root fs s0) as [root s]. split; simpl; try done.
  - intros k. rewrite lookup_empty, !elem_of_nil. split; [by intros []|tauto].
  - by intros k ?%elem_of_nil.
  - constructor.
  - intros i. unfold handle_count, owed, opens_at. simpl. rewrite !count_map_empty. simpl.
    rewrite insert_empty, lookup_singleton. case_decide; simpl; lia.
Qed.

Lemma start_sh : sh_of (mkWorld (Runtime_start fs s0) k0) = Shared_init root_payload.
Proof. unfold Runtime_start, root_payload. by destruct (fs_root fs s0). Qed.

Lemma start_reached : reached (mkWorld (Runtime_start fs s0) k0) [].
Proof. unfold reached. rewrite start_sh. split_and!; [done..|simpl; lia]. Qed.

Lemma new_step w : Runtime_new fs s0 k0 = (Returned tt, w) → at_step w ∅.
Proof.
  intros Hnew.
  destruct (reached_triple _ _ _ _ _ _ _ _ (handled_call True idle_frame ∅ (fs_populate fs) (or_introl I)) Hnew
    start_reached) as (ops & Hat & Hq).
  exists ops. split; [done|]. intros Hn. by destruct (proj2 (Hq Hn) start_RI) as (L' & -> & HRI).
Qed.

Lemma told_step shown L w : kernel_told fs shown s0 k0 L w → at_step w L.
Proof.
  induction 1 as [w Hnew|L w r o w' _ Hat Hr Hsink Hexec Ho]; [by apply new_step|].
  destruct (request_step shown w L r o w' Hat Hr Hsink Hexec Ho) as (L' & Hat' & Hp). by eapply pays_learn.
Qed.

Lemma serves_step history w : serves fs s0 k0 history w → ∃ L, at_step w L.
Proof.
  induction 1 as [w Hnew|history w r o w' Hs (L & Hat) Hr Hexec Ho].
  - exists ∅. by apply new_step.
  - destruct (request_step (λ _, []) w L r o w' Hat Hr) as (L' & ? & _); [apply sink_wf_blind|done..|by exists L'].
Qed.

(** The invariant of every state that is not too far. *)
Lemma serves_RI history w :
  serves fs s0 k0 history w → few_steps w → ∃ L n, RIL idle_frame L n w.
Proof. intros Hs Hn. destruct (serves_step history w Hs) as (L & ops & _ & HRI). eauto. Qed.
End reachable.

(** ** The theorems about the runtime *)
Section theorems.
Context {N H D S K : Type} `{Libc} (fs : NodeFs N H D S) (s0 : S) (k0 : K).
Abbreviation W := (World N H D S K).
Abbreviation tbl w := (tbl_map (sh_table (sh_of w))).
Implicit Types (L : ledger) (w : W).


Lemma handle_count_pos_file i fh r (t : HandleTable H D) :
  files t !! fh = Some r → hr_node r = i → 1 ≤ handle_count i t.
Proof.
  intros Hr Hi. unfold handle_count.
  pose proof (count_map_pos (λ r, hr_node r = i) (files t) fh r Hr Hi).
  pose proof (count_map_nonneg (λ r, hr_node r = i) (dirs t)). lia.
Qed.
Lemma handle_count_pos_dir i fh r (t : HandleTable H D) :
  dirs t !! fh = Some r → hr_node r = i → 1 ≤ handle_count i t.
Proof.
  intros Hr Hi. unfold handle_count.
  pose proof (count_map_pos (λ r, hr_node r = i) (dirs t) fh r Hr Hi).
  pose proof (count_map_nonneg (λ r, hr_node r = i) (files t)). lia.
Qed.

Lemma open_live i n w L :
  RIL idle_frame L n w → 1 ≤ handle_count i (rt_handles (w_rt w)) →
  ∃ s, tbl w !! i = Some s ∧ 1 ≤ slot_opens s.
Proof.
  intros HRI Hc. pose proof (ri_opens _ _ _ _ HRI i) as Ho. unfold opens_at, owed in Ho.
  simpl in Ho. fold (sh_of w) in Ho. destruct (tbl w !! i) as [s|]; [exists s; split; [done|]|]; lia.
Qed.

(** An open file or directory pins its node: its inode is live and counts
    at least as many opens as there are handles on it, so that [release] finds
    the node. *)
Theorem open_handles_pin_nodes history w :
  serves fs s0 k0 history w → few_steps w →
  (∀ i, handle_count i (rt_handles (w_rt w)) ≤ opens_at i (sh_of w)) ∧
  (∀ fh r, files (rt_handles (w_rt w)) !! fh = Some r →
     ∃ s, tbl w !! hr_node r = Some s ∧ 1 ≤ slot_opens s) ∧
  (∀ fh r, dirs (rt_handles (w_rt w)) !! fh = Some r →
     ∃ s, tbl w !! hr_node r = Some s ∧ 1 ≤ slot_opens s).
Proof.
  intros Hs Hn. destruct (serves_RI fs s0 k0 history w Hs Hn) as (L & n & HRI). split_and!.
  - intros i. pose proof (ri_opens _ _ _ _ HRI i) as Ho. unfold owed in Ho. simpl in Ho.
    fold (sh_of w) in Ho. lia.
  - intros fh r Hr. eapply open_live; [exact HRI|by eapply handle_count_pos_file].
  - intros fh r Hr. eapply open_live; [exact HRI|by eapply handle_count_pos_dir].
Qed.

(** No request leaks a lease: between requests the node leases that exist
    are those the filesystem itself keeps, and every open handle is idle, so a
    later release finds it drained. This includes requests that failed or
    panicked. *)
Theorem requests_return_leases history w :
  serves fs s0 k0 history w → few_steps w →
  (∀ k, is_Some (sh_refs (sh_of w) !! k) ↔ k ∈ rt_fs_refs (w_rt w)) ∧
  (∀ fh r, files (rt_handles (w_rt w)) !! fh = Some r → hr_state r = mkHandleState 0 false false) ∧
  (∀ fh r, dirs (rt_handles (w_rt w)) !! fh = Some r → hr_state r = mkHandleState 0 false false).
Proof.
  intros Hs Hn. destruct (serves_RI fs s0 k0 history w Hs Hn) as (L & n & HRI). split_and!.
  - intros k. unfold sh_of. rewrite (ri_refs _ _ _ _ HRI k). simpl. rewrite elem_of_nil. tauto.
  - intros fh r Hr. by destruct (ri_files _ _ _ _ HRI fh r Hr) as [-> _].
  - intros fh r Hr. by destruct (ri_dirs _ _ _ _ HRI fh r Hr) as [-> _].
Qed.


(** The outcome of a scope is that of its body. *)
Lemma finally_drop_ref {A} (m : M W A) key w :
  (finally m (on_shared (ref_drop key)) w).1 = (m w).1.
Proof.
  unfold finally, on_shared, zoom. destruct (m w) as [o w1]. simpl.
  pose proof (ref_drop_returns key (rt_shared (w_rt w1))).
  destruct (ref_drop key (rt_shared (w_rt w1))) as [o' s]. simpl in *. subst o'. by destruct o.
Qed.

(** A live node whose lease counter is not full can be leased. *)
Lemma node_live ino s w :
  tbl w !! ino = Some s → slot_leases s < u32_max →
  ∃ l w1, node ino w = (Returned (Ok l), w1) ∧ lr_ref l = mkNodeRef ino (slot_record s) ∧
    rt_handles (w_rt w1) = rt_handles (w_rt w) ∧ rt_fs (w_rt w1) = rt_fs (w_rt w) ∧
    tbl w1 !! ino = Some (with_leases (slot_leases s + 1) s).
Proof.
  intros Hs Hl. unfold node, mbind, M_bind, on_shared, zoom, cx_get. fold (sh_of w). rewrite Hs.
  assert (checked_add u32_max (slot_leases s) 1 = Some (slot_leases s + 1)) as ->.
  { apply checked_add_Some. lia. }
  simpl. do 2 eexists. split_and!; [done..|]. simpl. apply lookup_insert_eq.
Qed.


(** A handle number that is not open on [ino]. *)
Definition not_open {T} (m : gmap Z (HandleRecord T)) (ino fh : Z) : Prop :=
  ∀ r, m !! fh = Some r → hr_node r ≠ ino.

Lemma find_handle_not_open {T} (m : gmap Z (HandleRecord T)) ino fh :
  not_open m ino fh → find_handle ino fh m = (Returned (Err EBADF), m).
Proof.
  intros Hn. unfold find_handle. destruct (m !! fh) as [r|] eqn:Hr; [|done].
  specialize (Hn r Hr). destruct (Z.eqb_spec (hr_node r) ino); [done|]. done.
Qed.

Lemma remove_handle_not_open {T} (m : gmap Z (HandleRecord T)) ino fh :
  not_open m ino fh → remove_handle ino fh m = (Returned (Err EBADF), m).
Proof.
  intros Hn. unfold remove_handle. destruct (m !! fh) as [r|] eqn:Hr; [|done].
  specialize (Hn r Hr). destruct (Z.eqb_spec (hr_node r) ino); [done|]. done.
Qed.

(** The answer to a request that names a handle which is not open: the node is
    leased first, then the lookup of the handle fails. *)
Definition refusal {A} (ino : Z) (w : W) : outcome (Result Errno A) :=
  match tbl w !! ino with
  | None => Returned (Err ENOENT)
  | Some s => if slot_leases s <? u32_max then Returned (Err EBADF) else Panicked
  end.
Definition refused {A} (ino : Z) (w : W) (m : M W (Result Errno A)) : Prop :=
  ∃ w', m w = (refusal ino w, w') ∧
    rt_fs (w_rt w') = rt_fs (w_rt w) ∧ rt_handles (w_rt w') = rt_handles (w_rt w) ∧ w_sink w' = w_sink w.

Lemma node_inv ino w o w1 :
  node ino w = (o, w1) →
  rt_handles (w_rt w1) = rt_handles (w_rt w) ∧ rt_fs (w_rt w1) = rt_fs (w_rt w) ∧ w_sink w1 = w_sink w ∧
  match tbl w !! ino with
  | None => o = Returned (Err ENOENT)
  | Some s => if slot_leases s <? u32_max then ∃ l, o = Returned (Ok l) ∧ is_Some (tbl w1 !! ino)
              else o = Panicked
  end.
Proof.
  unfold node, mbind, M_bind, on_shared, zoom, cx_get. fold (sh_of w).
  destruct (tbl w !! ino) as [s|]; [|by intros [= <- <-]].
  destruct (checked_add u32_max (slot_leases s) 1) as [l|] eqn:Hl.
  - apply checked_add_Some in Hl as [-> ?]. rewrite (proj2 (Z.ltb_lt _ _)) by lia.
    intros [= <- <-]. split_and!; [done..|]. eexists. split; [done|]. simpl. by rewrite lookup_insert_eq.
  - rewrite (proj2 (Z.ltb_ge _ _)) by (unfold checked_add in Hl; case_decide; [done|lia]).
    by intros [= <- <-].
Qed.

(** A scope of a node whose body finds the handle not to be open. *)
Lemma refused_scope {A} ino (body : N → M W (Result Errno A)) w :
  (∀ n w1, rt_handles (w_rt w1) = rt_handles (w_rt w) → is_Some (tbl w1 !! ino) →
     ∃ w2, body n w1 = (Returned (Err EBADF), w2) ∧
       rt_fs (w_rt w2) = rt_fs (w_rt w1) ∧ rt_handles (w_rt w2) = rt_handles (w_rt w1) ∧ w_sink w2 = w_sink w1) →
  refused ino w (with_node ino body).
Proof.
  intros Hbody. unfold refused, refusal, with_node, scope_node, mbind, M_bind.
  destruct (node ino w) as [o w1] eqn:Hnode. apply node_inv in Hnode as (Hh & Hfs & Hk & Ho).
  destruct (tbl w !! ino) as [s|]; [|subst o; by eexists].
  case_match; [|subst o; by eexists]. destruct Ho as (l & -> & Hlive).
  destruct (Hbody (node_payload l) w1 Hh Hlive) as (w2 & Heq & Hfs2 & Hh2 & Hk2).
  unfold finally, on_shared, zoom. rewrite Heq. pose proof (ref_drop_returns (lr_key l) (rt_shared (w_rt w2))).
  destruct (ref_drop _ _) as [o' sh]. simpl in *. subst o'. eexists. split; [done|]. simpl. by rewrite Hfs2, Hh2, Hk2.
Qed.

Lemma with_file_not_open {A} ino fh (k : H → M W (Result Errno A)) w :
  not_open (files (rt_handles (w_rt w))) ino fh → with_file ino fh k w = (Returned (Err EBADF), w).
Proof.
  intros Hn. unfold with_file, scope_file, mbind, M_bind, file, on_files, zoom.
  rewrite find_handle_not_open by done. by destruct w as [[? ? ? []] ?].
Qed.

Lemma with_dir_not_open {A} ino fh (k : D → M W (Result Errno A)) w :
  not_open (dirs (rt_handles (w_rt w))) ino fh → with_dir ino fh k w = (Returned (Err EBADF), w).
Proof.
  intros Hn. unfold with_dir, scope_dir, mbind, M_bind, dir, on_dirs, zoom.
  rewrite find_handle_not_open by done. by destruct w as [[? ? ? []] ?].
Qed.

Lemma bad_file {A} ino fh w (k : N → H → M W (Result Errno A)) :
  not_open (files (rt_handles (w_rt w))) ino fh → refused ino w (with_node ino (λ n, with_file ino fh (k n))).
Proof.
  intros Hn. apply refused_scope. intros n w1 Hh _. exists w1. split; [|done].
  apply with_file_not_open. by rewrite Hh.
Qed.

Lemma bad_dir {A} ino fh w (k : N → D → M W (Result Errno A)) :
  not_open (dirs (rt_handles (w_rt w))) ino fh → refused ino w (with_node ino (λ n, with_dir ino fh (k n))).
Proof.
  intros Hn. apply refused_scope. intros n w1 Hh _. exists w1. split; [|done].
  apply with_dir_not_open. by rewrite Hh.
Qed.

(** The two listings read the parent of the directory before they look the
    handle up. *)
Lemma bad_listing {A} ino fh w (k : N → NodeId → D → M W (Result Errno A)) :
  not_open (dirs (rt_handles (w_rt w))) ino fh →
  refused ino w (with_node ino (λ n, parent ←? on_shared (read_parent ino); with_dir ino fh (k n parent))).
Proof.
  intros Hn. apply refused_scope. intros n w1 Hh [s Hs].
  unfold try_bind, mbind, M_bind, on_shared, zoom, read_parent, gets. fold (sh_of w1). rewrite Hs. simpl.
  eexists. split; [apply with_dir_not_open; simpl; by rewrite Hh|done].
Qed.

End theorems.

(** ** A filesystem to try the theorems on

    It creates one file on its first lookup, and opens anything. *)
Section sample.
Local Existing Instance linux_libc.

Definition sample_lookup (parent : NodeId) (name : OsString) (caller : Caller) :
    prog nat (option NodeId) Empty_set (Result Errno (option NodeId)) :=
  ReadState (λ s, match s with
    | Some id => Done (Ok (Some id))
    | None => CxInsert 7%nat parent (λ id, WriteState (Some id) (Done (Ok (Some id))))
    end).

Definition sample_fs : NodeFs nat nat nat (option NodeId) := {|
  SUPPORTS_POSIX_LOCKS := false;
  SUPPORTS_READDIRPLUS := false;
  fs_root := λ s, (0%nat, s);
  fs_getattr := λ n h caller, Done (Ok NodeAttr_default);
  fs_populate := default_populate;
  fs_init := default_init;
  fs_destroy := default_destroy;
  fs_setattr := default_setattr;
  fs_lookup := sample_lookup;
  fs_readlink := default_readlink;
  fs_mknod := default_mknod;
  fs_mkdir := default_mkdir;
  fs_symlink := default_symlink;
  fs_unlink := default_unlink;
  fs_rmdir := default_rmdir;
  fs_rename := default_rename;
  fs_link := default_link;
  fs_open := λ n flags caller, Done (Ok (Opened_new n));
  fs_read := default_read;
  fs_write := default_write;
  fs_flush := default_flush;
  fs_release := default_release;
  fs_fsync := default_fsync;
  fs_opendir := default_opendir;
  fs_readdir := default_readdir;
  fs_readdirplus := default_readdirplus;
  fs_releasedir := default_releasedir;
  fs_fsyncdir := default_fsyncdir;
  fs_statfs := default_statfs;
  fs_setxattr := default_setxattr;
  fs_getxattr := default_getxattr;
  fs_listxattr := default_listxattr;
  fs_removexattr := default_removexattr;
  fs_access := default_access;
  fs_create := default_create;
  fs_fallocate := default_fallocate;
  fs_lseek := default_lseek;
  fs_getlk := default_getlk;
  fs_setlk := default_setlk;
  fs_copy_file_range := default_copy_file_range;
|}.

Definition start : World nat nat nat (option NodeId) unit := mkWorld (Runtime_start sample_fs None) tt.
Definition who : Caller := Caller_default.
Definition serve (r : request unit) (w : World nat nat nat (option NodeId) unit) := exec_request sample_fs r w.

Definition looked_up : World nat nat nat (option NodeId) unit := (serve (ReqLookup 1 "f" who) start).2.
Definition opened : World nat nat nat (option NodeId) unit := (serve (ReqOpen 2 0 who) looked_up).2.

Definition sample_history : list (request unit * outcome reply) :=
  [(ReqOpen 2 0 who, Returned (RepOpen (Ok (mkOpenReply 1 OpenHints_default))));
   (ReqLookup 1 "f" who, Returned (RepLookup (Ok (Found (mkEntryReply 2 0 NodeAttr_default)))))].

Lemma sample_serves : serves sample_fs None tt sample_history opened.
Proof.
  apply (serves_request _ _ _ (tail sample_history) looked_up); [|done|vm_compute; reflexivity|done].
  apply (serves_request _ _ _ [] start); [|done|vm_compute; reflexivity|done].
  by apply serves_new.
Qed.

Lemma sample_terminating : terminating sample_fs.
Proof. split; intros; simpl; try done. intros []; simpl; done. Qed.

Abbreviation tbl w := (tbl_map (sh_table (sh_of w))).

Lemma sample_few_steps : few_steps opened.
Proof. by vm_compute. Qed.

(** A filesystem that lists what it created, and a buffer of two entries. *)
Definition listing_fs : NodeFs nat nat nat (option NodeId) := {|
  SUPPORTS_POSIX_LOCKS := false;
  SUPPORTS_READDIRPLUS := true;
  fs_root := λ s, (0%nat, s);
  fs_getattr := λ n h caller, Done (Ok NodeAttr_default);
  fs_populate := default_populate;
  fs_init := default_init;
  fs_destroy := default_destroy;
  fs_setattr := default_setattr;
  fs_lookup := sample_lookup;
  fs_readlink := default_readlink;
  fs_mknod := default_mknod;
  fs_mkdir := default_mkdir;
  fs_symlink := default_symlink;
  fs_unlink := default_unlink;
  fs_rmdir := default_rmdir;
  fs_rename := default_rename;
  fs_link := default_link;
  fs_open := default_open;
  fs_read := default_read;
  fs_write := default_write;
  fs_flush := default_flush;
  fs_release := default_release;
  fs_fsync := default_fsync;
  fs_opendir := λ n flags caller, Done (Ok (Opened_new n));
  fs_readdir := default_readdir;
  fs_readdirplus := λ n this parent h offset caller,
    ReadState (λ s, Emit (mkPlusEntry "." this NodeAttr_default 1) (λ _,
      match s with
      | Some id => Emit (mkPlusEntry "f" id NodeAttr_default 2) (λ _, Done (Ok tt))
      | None => Done (Ok tt)
      end));
  fs_releasedir := default_releasedir;
  fs_fsyncdir := default_fsyncdir;
  fs_statfs := default_statfs;
  fs_setxattr := default_setxattr;
  fs_getxattr := default_getxattr;
  fs_listxattr := default_listxattr;
  fs_removexattr := default_removexattr;
  fs_access := default_access;
  fs_create := default_create;
  fs_fallocate := default_fallocate;
  fs_lseek := default_lseek;
  fs_getlk := default_getlk;
  fs_setlk := default_setlk;
  fs_copy_file_range := default_copy_file_range;
|}.

Abbreviation shelf := (list (OsString * Z * Z)).
Definition shelve (name : OsString) (e : EntryReply) (off : Z) (k : shelf) : bool * shelf :=
  if decide (length k < 2)%nat then (true, k ++ [(name, er_ino e, er_generation e)]) else (false, k).
Definition browse (r : request shelf) (w : World nat nat nat (option NodeId) shelf) := exec_request listing_fs r w.

Definition unread : World nat nat nat (option NodeId) shelf := mkWorld (Runtime_start listing_fs None) [].
Definition found : World nat nat nat (option NodeId) shelf := (browse (ReqLookup 1 "f" who) unread).2.
Definition opened_dir : World nat nat nat (option NodeId) shelf := (browse (ReqOpendir 1 0 who) found).2.
Definition listed : World nat nat nat (option NodeId) shelf := (browse (ReqReaddirplus [] shelve 1 1 0 who) opened_dir).2.

(** One lookup of the file from the [lookup], one from the listing. *)
Lemma listed_told : kernel_told listing_fs id None [] {[2 := (0, 2)]} listed.
Proof.
  assert ({[2 := (0, 2)]} = learn id (ReqReaddirplus [] shelve 1 1 0 who) (Returned (RepPlus (Ok [2]))) (w_sink listed)
    (learn id (ReqOpendir 1 0 who) (Returned (RepOpen (Ok (mkOpenReply 1 OpenHints_default)))) (w_sink opened_dir)
    (learn id (ReqLookup 1 "f" who) (Returned (RepLookup (Ok (Found (mkEntryReply 2 0 NodeAttr_default))))) (w_sink found) ∅)))
    as -> by (vm_compute; reflexivity).
  eapply (told_request _ _ _ _ _ opened_dir); [| |exists (λ _, True); split_and!; [done..|]|vm_compute; reflexivity|done].
  - eapply (told_request _ _ _ _ _ found); [|done..|vm_compute; reflexivity|done].
    eapply (told_request _ _ _ _ _ unread); [|done..|vm_compute; reflexivity|done].
    by apply told_new.
  - done.
  - intros name e off k _. unfold shelve. case_decide; (split; [done|]); [by right|by left].
Qed.


Lemma open_handles_pin_nodes_witness :
  (∀ i, handle_count i (rt_handles (w_rt opened)) ≤ opens_at i (sh_of opened)) ∧
  (∀ fh r, files (rt_handles (w_rt opened)) !! fh = Some r →
     ∃ s, tbl opened !! hr_node r = Some s ∧ 1 ≤ slot_opens s) ∧
  (∀ fh r, dirs (rt_handles (w_rt opened)) !! fh = Some r →
     ∃ s, tbl opened !! hr_node r = Some s ∧ 1 ≤ slot_opens s).
Proof. apply (open_handles_pin_nodes sample_fs None tt sample_history opened sample_serves sample_few_steps). Defined.

Lemma requests_return_leases_witness :
  (∀ k, is_Some (sh_refs (sh_of opened) !! k) ↔ k ∈ rt_fs_refs (w_rt opened)) ∧
  (∀ fh r, files (rt_handles (w_rt opened)) !! fh = Some r → hr_state r = mkHandleState 0 false false) ∧
  (∀ fh r, dirs (rt_handles (w_rt opened)) !! fh = Some r → hr_state r = mkHandleState 0 false false).
Proof. apply (requests_return_leases sample_fs None tt sample_history opened sample_serves sample_few_steps). Defined.



End sample.
