(* ===== verification/Threads.v ===== *)
(** * The runtime's handlers as threads

    [Runtime] runs a handler from start to end; here the same handlers are
    programs whose steps are the critical sections, so that a scheduler can
    interleave them.  What several threads share besides the runtime is the
    handle records that have left the table while threads still hold an [Arc] of
    them; the model counts the [Arc]s and raises [dt_ub] where the program would
    touch freed memory or a payload that was moved out. *)

From S2P Require Import Prelude Types NodeTable HandleRec NodeFs Runtime Requests.

(** ** Programs of a thread *)

(** A thread returned, unwinds, or is about to take a step on the shared state,
    which returns, panics, or is not enabled ([Blocked]). *)
Inductive thr (W A : Type) : Type :=
| Ret (a : A)
| Unwind
| Act {B : Type} (act : M W B) (k : B → thr W A) (p : thr W A).
Arguments Ret {W A} a.
Arguments Unwind {W A}.
Arguments Act {W A B} act k p.

(** [m], and then [f] with its result, or without one when it panicked. *)
Fixpoint thr_then {W A B} (m : thr W A) (f : option A → thr W B) : thr W B :=
  match m with
  | Ret a => f (Some a)
  | Unwind => f None
  | Act act k p => Act act (λ b, thr_then (k b) f) (thr_then p f)
  end.

#[export] Instance thr_ret {W} : MRet (thr W) := λ A a, Ret a.
#[export] Instance thr_bind {W} : MBind (thr W) := λ A B f m,
  thr_then m (λ r, match r with Some a => f a | None => Unwind end).

Definition thr_try {W E A B} (m : thr W (Result E A)) (f : A → thr W (Result E B)) : thr W (Result E B) :=
  r ← m;
  match r with Ok a => f a | Err e => Ret (Err e) end.

(** The destructors of a scope; they do not panic. *)
Definition thr_finally {W A} (m : thr W A) (fin : thr W unit) : thr W A :=
  thr_then m (λ r, thr_then fin (λ r', match r, r' with Some a, Some _ => Ret a | _, _ => Unwind end)).

Definition step {W A} (act : M W A) : thr W A := Act act Ret Unwind.

Notation "x ←! m ; k" := (thr_try m (λ x, k))
  (at level 20, m at level 100, k at level 200, right associativity,
   format "x  ←!  m ;  '//' k") : fuse_scope.
Notation "' x ←! m ; k" := (thr_try m (λ x, k))
  (at level 20, x pattern, m at level 100, k at level 200, right associativity,
   format "' x  ←!  m ;  '//' k") : fuse_scope.

(** A thread that nobody interrupts. *)
Fixpoint alone {W A} (t : thr W A) : M W A := λ w,
  match t with
  | Ret a => (Returned a, w)
  | Unwind => (Panicked, w)
  | Act act k p =>
      match act w with
      | (Returned b, w') => alone (k b) w'
      | (Panicked, w') => alone p w'
      | (Blocked, w') => (Blocked, w')
      end
  end.

(** ** Shared handle records *)

(** The records that left the table and are still referenced, the number of
    [Arc]s that threads hold of each record, and what happened to the payloads,
    the latest first. *)
Record Detached (T : Type) := mkDetached {
  dt_records : gmap Z (HandleRecord T);
  dt_arcs : gmap Z Z;
  dt_events : list (Z * event);
  dt_ub : bool;
}.
Arguments mkDetached {T}.
Arguments dt_records {T}.
Arguments dt_arcs {T}.
Arguments dt_events {T}.
Arguments dt_ub {T}.

Section records.
Context {T : Type} `{Libc}.
Implicit Types (d : Detached T) (r : HandleRecord T).

Definition Detached_new : Detached T := mkDetached ∅ ∅ [] false.

(** The table's map and the rest.  A record is known by its number, which is
    used once. *)
Abbreviation Hs := (gmap Z (HandleRecord T) * Detached T)%type.

Definition arcs (fh : Z) d : Z := default 0 (dt_arcs d !! fh).
Definition add_arcs (fh n : Z) d : Detached T :=
  mkDetached (dt_records d) (<[fh := arcs fh d + n]> (dt_arcs d)) (dt_events d) (dt_ub d).
Definition with_records (m : gmap Z (HandleRecord T)) d : Detached T :=
  mkDetached m (dt_arcs d) (dt_events d) (dt_ub d).
Definition undefined d : Detached T := mkDetached (dt_records d) (dt_arcs d) (dt_events d) true.

(** The payload is moved out or dropped: it must still be there. *)
Definition consumed (fh : Z) d : bool := bool_decide (fh ∈ (dt_events d).*1).
Definition consume (fh : Z) (e : event) d : Detached T :=
  mkDetached (dt_records d) (dt_arcs d) ((fh, e) :: dt_events d) (dt_ub d || consumed fh d).
(** The payload is read. *)
Definition deref (fh : Z) d : Detached T :=
  mkDetached (dt_records d) (dt_arcs d) (dt_events d) (dt_ub d || consumed fh d).

Definition with_state (st : HandleState) r : HandleRecord T := mkHandleRecord (hr_node r) (hr_payload r) st.

(** The record that an [Arc] points to. *)
Definition record_at (fh : Z) (hs : Hs) : option (HandleRecord T) :=
  match hs.1 !! fh with Some r => Some r | None => dt_records hs.2 !! fh end.
Definition put_state (fh : Z) (st : HandleState) (hs : Hs) : Hs :=
  match hs.1 !! fh with
  | Some r => (<[fh := with_state st r]> hs.1, hs.2)
  | None =>
      match dt_records hs.2 !! fh with
      | Some r => (hs.1, with_records (<[fh := with_state st r]> (dt_records hs.2)) hs.2)
      | None => hs
      end
  end.

(** A critical section of the record's mutex. *)
Definition on_record {A} (fh : Z) (freed : A) (m : M HandleState A) : M Hs A := λ hs,
  match record_at fh hs with
  | Some r => let '(o, st) := m (hr_state r) in (o, put_state fh st hs)
  | None => (Returned freed, (hs.1, undefined hs.2))
  end.

(** [lock(&self.handles).files.get(&fh).cloned()], and the record's node. *)
Definition clone_arc (fh : Z) : M Hs (option NodeId) := λ hs,
  match hs.1 !! fh with
  | Some r => (Returned (Some (hr_node r)), (hs.1, add_arcs fh 1 hs.2))
  | None => (Returned None, hs)
  end.

(** The drop of an [Arc]; the last one frees the record ([Drop for
    HandleRecord]). *)
Definition drop_arc (fh : Z) : M Hs unit := λ hs,
  let d := add_arcs fh (-1) hs.2 in
  if bool_decide (is_Some (hs.1 !! fh)) || negb (arcs fh d =? 0) then (Returned tt, (hs.1, d))
  else match dt_records d !! fh with
       | Some r =>
           let d := with_records (delete fh (dt_records d)) d in
           (Returned tt, (hs.1, if taken (hr_state r) then d else consume fh Drop d))
       | None => (Returned tt, (hs.1, undefined d))
       end.

(** [HandleRecord::acquire], and what the lease derefs to. The lease keeps the
    caller's [Arc]: its own clone and the drop of the caller's cancel out. *)
Definition acquire_lease (fh : Z) : M Hs (option T) := λ hs,
  match record_at fh hs with
  | Some r =>
      match acquire (hr_state r) with
      | (Returned true, st) =>
          let hs := put_state fh st hs in (Returned (Some (hr_payload r)), (hs.1, deref fh hs.2))
      | (Returned false, st) => (Returned None, put_state fh st hs)
      | (Panicked, st) => (Panicked, put_state fh st hs)
      | (Blocked, st) => (Blocked, put_state fh st hs)
      end
  | None => (Returned None, (hs.1, undefined hs.2))
  end.

(** [Drop for HandleLease]: up to here the payload was borrowed. *)
Definition end_lease (fh : Z) : M Hs bool := λ hs, on_record fh false lease_drop (hs.1, deref fh hs.2).

(** The first half of [release] and [releasedir]: the table's [Arc] passes to
    the thread. *)
Definition detach (ino fh : Z) : M Hs (Result Errno unit) := λ hs,
  match hs.1 !! fh with
  | None => (Returned (Err EBADF), hs)
  | Some r =>
      if negb (hr_node r =? ino) then (Returned (Err EBADF), hs)
      else (Returned (Ok tt), (delete fh hs.1, add_arcs fh 1 (with_records (<[fh := r]> (dt_records hs.2)) hs.2)))
  end.

(** [close_and_take]: its first critical section, which [false] leaves to
    wait; its waking up, which is of no consequence until the leases are gone;
    the move out of the payload. *)
Definition close_begin (fh : Z) : M Hs bool := on_record fh true (λ st, close_test (close_enter st)).
Definition close_resume (fh : Z) : M Hs unit := λ hs,
  match on_record fh true close_test hs with
  | (Returned true, hs') => (Returned tt, hs')
  | (_, _) => (Blocked, hs)
  end.
Definition take_out (fh : Z) : M Hs T := λ hs,
  match record_at fh hs with
  | Some r => (Returned (hr_payload r), (hs.1, consume fh Take hs.2))
  | None => (Panicked, (hs.1, undefined hs.2))
  end.
End records.

(** ** The shared state *)
Record Arcs (H D : Type) := mkArcs { arc_files : Detached H; arc_dirs : Detached D }.
Arguments mkArcs {H D}.
Arguments arc_files {H D}.
Arguments arc_dirs {H D}.
Definition Arcs_new {H D} : Arcs H D := mkArcs Detached_new Detached_new.

Section threads.
Context {N H D S : Type} `{Libc} {K : Type}.

(** The world as one thread sees it: the sink is its own. *)
Abbreviation W := (World N H D S (K * Arcs H D)).

Definition files_of (w : W) : gmap Z (HandleRecord H) * Detached H := (files (rt_handles (w_rt w)), arc_files (w_sink w).2).
Definition dirs_of (w : W) : gmap Z (HandleRecord D) * Detached D := (dirs (rt_handles (w_rt w)), arc_dirs (w_sink w).2).

Definition at_files {A} : M (gmap Z (HandleRecord H) * Detached H) A → M W A :=
  zoom files_of (λ hs w, mkWorld (with_files hs.1 (w_rt w)) ((w_sink w).1, mkArcs hs.2 (arc_dirs (w_sink w).2))).
Definition at_dirs {A} : M (gmap Z (HandleRecord D) * Detached D) A → M W A :=
  zoom dirs_of (λ hs w, mkWorld (with_dirs hs.1 (w_rt w)) ((w_sink w).1, mkArcs (arc_files (w_sink w).2) hs.2)).

Definition sink_step {A} (f : K → A * K) : M W A := on_sink (λ '(k, d), let '(a, k) := f k in (a, (k, d))).

(** ** Callbacks: [emit] may keep a state of its own. *)
Fixpoint run_callback {E X A} (emit : E → X → thr W (bool * X)) (p : prog N S E A) (x : X) : thr W (A * X) :=
  match p with
  | Done a => Ret (a, x)
  | Crash => Unwind
  | Hang => Act (block : M W unit) (λ _, Unwind) Unwind
  | ReadState k => Act (gets (λ w, rt_fs (w_rt w))) (λ s, run_callback emit (k s) x) Unwind
  | WriteState s k => Act (on_rt (modify (with_fs s))) (λ _, run_callback emit k x) Unwind
  | Critical f k => Act (own_step f) (λ b, run_callback emit (k b) x) Unwind
  | CxTryGet id k u => Act (fs_get id) (λ r, run_callback emit (k r) x) (run_callback emit u x)
  | CxDropRef key k => Act (fs_drop_ref key) (λ _, run_callback emit k x) Unwind
  | CxContains id k => Act (on_shared (cx_contains id)) (λ b, run_callback emit (k b) x) Unwind
  | CxInsert p parent k => Act (on_shared (cx_insert p parent)) (λ id, run_callback emit (k id) x) Unwind
  | CxReparent id p k => Act (on_shared (cx_reparent id p)) (λ _, run_callback emit k x) Unwind
  | CxTryAddLink id k u => Act (on_shared (cx_add_link id)) (λ _, run_callback emit k x) (run_callback emit u x)
  | CxRemoveLink id k => Act (on_shared (cx_remove_link id)) (λ _, run_callback emit k x) Unwind
  | TryEmit e k u =>
      thr_then (emit e x) (λ r, match r with Some (b, x) => run_callback emit (k b) x | None => run_callback emit u x end)
  end.

Definition callback {A} (p : prog N S Empty_set A) : thr W A :=
  '(a, _) ← run_callback (λ e : Empty_set, match e with end) p tt; Ret a.

(** ** Scopes *)
Definition node_scope {B} (ino : Z) (err : Errno → thr W B) (k : N → thr W B) : thr W B :=
  r ← step (node ino);
  match r with
  | Ok l => thr_finally (k (node_payload l)) (step (on_shared (ref_drop (lr_key l))))
  | Err e => err e
  end.

(** Files and directories alike. *)
Section scope.
Context {T : Type} (on : ∀ {A}, M (gmap Z (HandleRecord T) * Detached T) A → M W A).

(** [Runtime::file], [Runtime::dir]. *)
Definition lease (ino fh : Z) : thr W (Result Errno T) :=
  found ← step (on _ (clone_arc fh));
  match found with
  | None => Ret (Err EBADF)
  | Some node =>
      if negb (node =? ino) then step (on _ (drop_arc fh));; Ret (Err EBADF)
      else
        Act (on _ (acquire_lease fh))
          (λ granted, match granted with
            | Some payload => Ret (Ok payload)
            | None => step (on _ (drop_arc fh));; Ret (Err EBADF)
            end)
          (step (on _ (drop_arc fh));; Unwind)
  end.

Definition handle_scope {B} (ino fh : Z) (err : Errno → thr W B) (k : T → thr W B) : thr W B :=
  r ← lease ino fh;
  match r with
  | Ok payload => thr_finally (k payload) (step (on _ (end_lease fh));; step (on _ (drop_arc fh)))
  | Err e => err e
  end.

Definition close_thread (fh : Z) : thr W T :=
  drained ← step (on _ (close_begin fh));
  (if (drained : bool) then Ret tt else step (on _ (close_resume fh)));;
  step (on _ (take_out fh)).
End scope.

Definition ret_err {B} (e : Errno) : thr W (Result Errno B) := Ret (Err e).
Definition in_node {B} (ino : Z) := @node_scope (Result Errno B) ino ret_err.
Definition in_file {B} (ino fh : Z) := handle_scope (@at_files) (B := Result Errno B) ino fh ret_err.
Definition in_dir {B} (ino fh : Z) := handle_scope (@at_dirs) (B := Result Errno B) ino fh ret_err.
Definition in_optional_file {B} (ino : Z) (fh : option Z) (k : option H → thr W (Result Errno B)) : thr W (Result Errno B) :=
  match fh with
  | Some fh => in_file ino fh (λ h, k (Some h))
  | None => k None
  end.
End threads.

(** ** The handlers *)
Section handlers.
Context {N H D S : Type} `{Libc} {K : Type} (fs : NodeFs N H D S).
Abbreviation W := (World N H D S (K * Arcs H D)).
Abbreviation T A := (thr W (Result Errno A)).

Definition t_entry_for (id : NodeId) (caller : Caller) : T EntryReply :=
  in_node id (λ node,
    attr ←! callback (fs_getattr fs node None caller);
    generation ←! step (on_shared (take_lookup id));
    Ret (Ok (mkEntryReply id generation attr))).

Definition t_init (conn : ConnInfo) : thr W ConnInfo :=
  parallel ← step (gets (λ w : W, rt_parallel_dirops (w_rt w)));
  let conn := if (parallel : bool) then (set_enabled conn ParallelDirectoryOperations true).2 else conn in
  callback (fs_init fs conn).
Definition t_destroy : thr W unit := callback (fs_destroy fs).
Definition t_forget (ino nlookup : Z) : thr W unit := step (on_shared (NodeTable.forget ino nlookup)).
Definition t_statfs (ino : Z) (caller : Caller) : T StatFs := callback (fs_statfs fs caller).

Definition t_getattr (ino : Z) (fh : option Z) (caller : Caller) : T NodeAttr :=
  in_node ino (λ n, in_optional_file ino fh (λ h, callback (fs_getattr fs n h caller))).
Definition t_setattr (ino : Z) (fh : option Z) (set : SetAttr) (caller : Caller) : T NodeAttr :=
  in_node ino (λ n, in_optional_file ino fh (λ h, callback (fs_setattr fs n h set caller))).
Definition t_readlink (ino : Z) (caller : Caller) : T PathBuf := in_node ino (λ n, callback (fs_readlink fs n caller)).
Definition t_access (ino mask : Z) (caller : Caller) : T unit := in_node ino (λ n, callback (fs_access fs n mask caller)).
Definition t_setxattr (ino : Z) (name : OsString) (value : bytes) (flags : Z) (caller : Caller) : T unit :=
  in_node ino (λ n, callback (fs_setxattr fs n name value flags caller)).
Definition t_getxattr (ino : Z) (name : OsString) (size : Z) (caller : Caller) : T XattrReply :=
  in_node ino (λ n, callback (fs_getxattr fs n name size caller)).
Definition t_listxattr (ino size : Z) (caller : Caller) : T XattrReply :=
  in_node ino (λ n, callback (fs_listxattr fs n size caller)).
Definition t_removexattr (ino : Z) (name : OsString) (caller : Caller) : T unit :=
  in_node ino (λ n, callback (fs_removexattr fs n name caller)).

(** The tail of [open], [opendir] and [create]. *)
Definition register (ino : Z) (add : HandleTable H D → Z * HandleTable H D) : T Z :=
  _ ←! step (on_shared (add_open ino));
  fh ← step (on_handles add);
  Ret (Ok fh).

Definition t_open (ino flags : Z) (caller : Caller) : T OpenReply :=
  in_node ino (λ node,
    opened ←! callback (fs_open fs node flags caller);
    fh ←! register ino (add_file ino (opened_handle opened));
    Ret (Ok (mkOpenReply fh (opened_hints opened)))).

Definition t_read {R} (ino fh offset size : Z) (caller : Caller) (reply : Result Errno bytes → thr W R) : thr W R :=
  node_scope ino (λ e, reply (Err e)) (λ node,
    handle_scope (@at_files _ _ _ _ _) ino fh (λ e, reply (Err e)) (λ handle,
      r ← callback (fs_read fs node handle offset size caller);
      reply r)).

Definition t_write (ino fh : Z) (data : bytes) (offset : Z) (caller : Caller) : T Z :=
  in_node ino (λ n, in_file ino fh (λ h, callback (fs_write fs n h data offset caller))).
Definition t_flush (ino fh : Z) (caller : Caller) : T unit :=
  in_node ino (λ n, in_file ino fh (λ h, callback (fs_flush fs n h caller))).
Definition t_fsync (ino fh : Z) (datasync : bool) (caller : Caller) : T unit :=
  in_node ino (λ n, in_file ino fh (λ h, callback (fs_fsync fs n h datasync caller))).
Definition t_fallocate (ino fh mode offset length : Z) (caller : Caller) : T unit :=
  in_node ino (λ n, in_file ino fh (λ h, callback (fs_fallocate fs n h mode offset length caller))).
Definition t_lseek (ino fh offset whence : Z) (caller : Caller) : T Z :=
  in_node ino (λ n, in_file ino fh (λ h, callback (fs_lseek fs n h offset whence caller))).
Definition t_getlk (ino fh owner : Z) (requested : FileLock) (caller : Caller) : T FileLock :=
  in_node ino (λ n, in_file ino fh (λ h, callback (fs_getlk fs n h owner requested caller))).
Definition t_setlk (ino fh owner : Z) (lock : FileLock) (sleep : bool) (caller : Caller) : T unit :=
  in_node ino (λ n, in_file ino fh (λ h, callback (fs_setlk fs n h owner lock sleep caller))).

(** The node lease is dropped before the [Arc] of the record. *)
Definition t_release (ino fh : Z) (caller : Caller) : T unit :=
  _ ←! step (at_files (detach ino fh));
  thr_finally
    (in_node ino (λ node,
      step (on_shared (remove_open ino));;
      handle ← close_thread (@at_files _ _ _ _ _) fh;
      callback (fs_release fs node handle caller)))
    (step (at_files (drop_arc fh))).

Definition t_opendir (ino flags : Z) (caller : Caller) : T OpenReply :=
  in_node ino (λ node,
    opened ←! callback (fs_opendir fs node flags caller);
    fh ←! register ino (add_dir ino (opened_handle opened));
    Ret (Ok (mkOpenReply fh (opened_hints opened)))).

Definition t_readdir (add : DirEntry → K → bool * K) (ino fh offset : Z) (caller : Caller) : T unit :=
  in_node ino (λ node,
    parent ←! step (on_shared (read_parent ino));
    in_dir ino fh (λ h,
      '(r, _) ← run_callback (λ e (_ : unit), b ← step (sink_step (add e)); Ret (b, tt))
                  (fs_readdir fs node ino parent h offset caller) tt;
      Ret r)).

Definition t_fsyncdir (ino fh : Z) (datasync : bool) (caller : Caller) : T unit :=
  in_node ino (λ node, in_dir ino fh (λ h, callback (fs_fsyncdir fs node h datasync caller))).

Definition t_releasedir (ino fh : Z) (caller : Caller) : T unit :=
  _ ←! step (at_dirs (detach ino fh));
  thr_finally
    (in_node ino (λ node,
      step (on_shared (remove_open ino));;
      handle ← close_thread (@at_dirs _ _ _ _ _) fh;
      callback (fs_releasedir fs node handle caller)))
    (step (at_dirs (drop_arc fh))).

Definition t_lookup (parent : Z) (name : OsString) (caller : Caller) : T LookupReply :=
  found ←! callback (fs_lookup fs parent name caller);
  match found with
  | Some id => entry ←! t_entry_for id caller; Ret (Ok (Found entry))
  | None => Ret (Ok Negative)
  end.

(** [mknod], [mkdir], [symlink], [link]: an inode, then its entry. *)
Definition t_entry (p : prog N S Empty_set (Result Errno NodeId)) (caller : Caller) : T EntryReply :=
  id ←! callback p;
  t_entry_for id caller.
Definition t_mknod (parent : Z) (name : OsString) (mode rdev umask : Z) (caller : Caller) : T EntryReply :=
  t_entry (fs_mknod fs parent name mode rdev umask caller) caller.
Definition t_mkdir (parent : Z) (name : OsString) (mode umask : Z) (caller : Caller) : T EntryReply :=
  t_entry (fs_mkdir fs parent name mode umask caller) caller.
Definition t_symlink (parent : Z) (name : OsString) (target : PathBuf) (caller : Caller) : T EntryReply :=
  t_entry (fs_symlink fs parent name target caller) caller.
Definition t_link (ino newparent : Z) (newname : OsString) (caller : Caller) : T EntryReply :=
  t_entry (fs_link fs ino newparent newname caller) caller.
Definition t_unlink (parent : Z) (name : OsString) (caller : Caller) : T unit := callback (fs_unlink fs parent name caller).
Definition t_rmdir (parent : Z) (name : OsString) (caller : Caller) : T unit := callback (fs_rmdir fs parent name caller).
Definition t_rename (parent : Z) (name : OsString) (newparent : Z) (newname : OsString) (flags : Z) (caller : Caller) : T unit :=
  callback (fs_rename fs parent name newparent newname flags caller).

Definition t_create (parent : Z) (name : OsString) (mode umask flags : Z) (caller : Caller) :
    T (EntryReply * OpenReply) :=
  '(id, opened) ←! callback (fs_create fs parent name mode umask flags caller);
  entry ←! t_entry_for id caller;
  fh ←! register id (add_file id (opened_handle opened));
  Ret (Ok (entry, mkOpenReply fh (opened_hints opened))).

Definition t_copy_file_range (ino_in off_in ino_out off_out len flags : Z) (caller : Caller) : T Z :=
  callback (fs_copy_file_range fs ino_in off_in ino_out off_out len flags caller).

(** [Accounting::add]: the entry's generation is read, the entry is passed on
    and its lookup is counted in three steps; [accepted] is the thread's own. *)
Definition t_account (inner : OsString → EntryReply → Z → K → bool * K) (e : PlusEntry) (accepted : list NodeId) :
    thr W (bool * list NodeId) :=
  generation ← step (on_shared (read_generation (pe_id e)));
  match generation with
  | Err _ => Ret (false, accepted)
  | Ok g =>
      added ← step (sink_step (inner (pe_name e) (mkEntryReply (pe_id e) g (pe_attr e)) (pe_next_offset e)));
      if negb added then Ret (false, accepted)
      else if bool_decide (pe_name e ≠ ".") && bool_decide (pe_name e ≠ "..") then
        r ← step (on_shared (retain_lookup (pe_id e)));
        match r with
        | Ok _ => Ret (true, accepted ++ [pe_id e])
        | Err _ => Ret (true, accepted)
        end
      else Ret (true, accepted)
  end.

Fixpoint t_forget_all (ids : list NodeId) : thr W unit :=
  match ids with
  | [] => Ret tt
  | id :: ids => t_forget id 1;; t_forget_all ids
  end.

Definition t_readdirplus (inner : OsString → EntryReply → Z → K → bool * K) (ino fh offset : Z) (caller : Caller) :
    T (list NodeId) :=
  in_node ino (λ node,
    parent ←! step (on_shared (read_parent ino));
    in_dir ino fh (λ h,
      '(r, accepted) ← run_callback (t_account inner) (fs_readdirplus fs node ino parent h offset caller) [];
      match r with
      | Ok _ => Ret (Ok accepted)
      | Err e => t_forget_all accepted;; Ret (Err e)
      end)).

Definition t_reply {A} (c : A → reply) (m : thr W A) : thr W reply := r ← m; Ret (c r).
Definition t_sink {A} (k : K) (m : thr W A) : thr W A := step (sink_step (λ _, (tt, k)));; m.

Definition thread_of (r : request K) : thr W reply :=
  match r with
  | ReqInit conn => t_reply RepConn (t_init conn)
  | ReqDestroy => t_reply (λ _, RepNone) t_destroy
  | ReqForget ino nlookup => t_reply (λ _, RepNone) (t_forget ino nlookup)
  | ReqStatfs ino caller => t_reply RepStatfs (t_statfs ino caller)
  | ReqGetattr ino fh caller => t_reply RepAttr (t_getattr ino fh caller)
  | ReqSetattr ino fh set caller => t_reply RepAttr (t_setattr ino fh set caller)
  | ReqReadlink ino caller => t_reply RepPath (t_readlink ino caller)
  | ReqAccess ino mask caller => t_reply RepUnit (t_access ino mask caller)
  | ReqSetxattr ino name value flags caller => t_reply RepUnit (t_setxattr ino name value flags caller)
  | ReqGetxattr ino name size caller => t_reply RepXattr (t_getxattr ino name size caller)
  | ReqListxattr ino size caller => t_reply RepXattr (t_listxattr ino size caller)
  | ReqRemovexattr ino name caller => t_reply RepUnit (t_removexattr ino name caller)
  | ReqOpen ino flags caller => t_reply RepOpen (t_open ino flags caller)
  | ReqRead ino fh offset size caller => t_reply RepData (t_read ino fh offset size caller Ret)
  | ReqWrite ino fh data offset caller => t_reply RepCount (t_write ino fh data offset caller)
  | ReqFlush ino fh caller => t_reply RepUnit (t_flush ino fh caller)
  | ReqFsync ino fh datasync caller => t_reply RepUnit (t_fsync ino fh datasync caller)
  | ReqFallocate ino fh mode offset length caller => t_reply RepUnit (t_fallocate ino fh mode offset length caller)
  | ReqLseek ino fh offset whence caller => t_reply RepCount (t_lseek ino fh offset whence caller)
  | ReqGetlk ino fh owner lock caller => t_reply RepLock (t_getlk ino fh owner lock caller)
  | ReqSetlk ino fh owner lock sleep caller => t_reply RepUnit (t_setlk ino fh owner lock sleep caller)
  | ReqRelease ino fh caller => t_reply RepUnit (t_release ino fh caller)
  | ReqOpendir ino flags caller => t_reply RepOpen (t_opendir ino flags caller)
  | ReqReaddir sink add ino fh offset caller => t_reply RepUnit (t_sink sink (t_readdir add ino fh offset caller))
  | ReqReaddirplus sink add ino fh offset caller => t_reply RepPlus (t_sink sink (t_readdirplus add ino fh offset caller))
  | ReqFsyncdir ino fh datasync caller => t_reply RepUnit (t_fsyncdir ino fh datasync caller)
  | ReqReleasedir ino fh caller => t_reply RepUnit (t_releasedir ino fh caller)
  | ReqLookup parent name caller => t_reply RepLookup (t_lookup parent name caller)
  | ReqMknod parent name mode rdev umask caller => t_reply RepEntry (t_mknod parent name mode rdev umask caller)
  | ReqMkdir parent name mode umask caller => t_reply RepEntry (t_mkdir parent name mode umask caller)
  | ReqSymlink parent name target caller => t_reply RepEntry (t_symlink parent name target caller)
  | ReqLink ino newparent newname caller => t_reply RepEntry (t_link ino newparent newname caller)
  | ReqUnlink parent name caller => t_reply RepUnit (t_unlink parent name caller)
  | ReqRmdir parent name caller => t_reply RepUnit (t_rmdir parent name caller)
  | ReqRename parent name newparent newname flags caller => t_reply RepUnit (t_rename parent name newparent newname flags caller)
  | ReqCreate parent name mode umask flags caller => t_reply RepCreate (t_create parent name mode umask flags caller)
  | ReqCopyFileRange ino_in off_in ino_out off_out len flags caller => t_reply RepCount (t_copy_file_range ino_in off_in ino_out off_out len flags caller)
  end.
End handlers.
