(* ===== verification/ThreadLogic.v ===== *)
(** * Reasoning about threads

    A logic for the programs of [Threads], whatever a thread is said to hold
    ([follows]), and the handlers of the runtime taken apart once for all
    ([thread_closed]): what holds of the critical sections between callbacks, of
    the callbacks, and is kept by sequencing and by scopes, holds of the thread
    of every request. *)

From S2P Require Import Prelude Types NodeTable HandleRec NodeFs Runtime RuntimeInv Requests Threads.

(** ** Steps with a frame

    [stp f act Q]: with frame [f], [act] may be taken, and leaves a frame that
    [Q] relates to its result ([None] for a panic). *)
Section logic.
Context {W Fr : Type} (stp : ∀ B, Fr → M W B → (option B → Fr → Prop) → Prop).
Implicit Types (f : Fr).

Fixpoint follows {A} (t : thr W A) f (Post : option A → Fr → Prop) : Prop :=
  match t with
  | Ret a => Post (Some a) f
  | Unwind => Post None f
  | Act act c p => ∃ Q, stp _ f act Q ∧
      (∀ b f', Q (Some b) f' → follows (c b) f' Post) ∧ ∀ f', Q None f' → follows p f' Post
  end.

Lemma follows_mono {A} (t : thr W A) f (Post Post' : option A → Fr → Prop) :
  follows t f Post → (∀ r f', Post r f' → Post' r f') → follows t f Post'.
Proof.
  intros Ht HP. revert f Ht. induction t as [a| |B act c IHc p IHp]; simpl; intros f; [apply HP..|].
  intros (Q & Hact & Hc & Hp). exists Q. split_and!; [done|auto|auto].
Qed.

Lemma follows_then {A B} (t : thr W A) (g : option A → thr W B) f Post :
  follows t f (λ r f', follows (g r) f' Post) → follows (thr_then t g) f Post.
Proof.
  revert f. induction t as [a| |C act c IHc p IHp]; simpl; intros f; [done..|].
  intros (Q & Hact & Hc & Hp). exists Q. split_and!; [done|auto|auto].
Qed.

Lemma follows_bind {A B} (t : thr W A) (g : A → thr W B) f Post :
  follows t f (λ r f', match r with Some a => follows (g a) f' Post | None => Post None f' end) →
  follows (t ≫= g) f Post.
Proof. intros Ht. apply follows_then. eapply follows_mono; [exact Ht|]. by intros [a|]. Qed.

Lemma follows_finally {A} (t : thr W A) fin f (Post : option A → Fr → Prop) :
  follows t f (λ r f', follows fin f' (λ r' f'', is_Some r' ∧ Post r f'')) →
  follows (thr_finally t fin) f Post.
Proof.
  intros Ht. apply follows_then. eapply follows_mono; [exact Ht|]. intros r f' Hfin. apply follows_then.
  eapply follows_mono; [exact Hfin|]. intros r' f'' [[u ->] HP]. by destruct r.
Qed.

Lemma follows_step {A} (act : M W A) f Q : stp _ f act Q → follows (step act) f Q.
Proof. intros Hact. exists Q. split_and!; [done|auto|auto]. Qed.
End logic.

(** ** Every callback but [link], which is apart *)
Record each_callback {N H D S : Type} (P : ∀ E A, prog N S E A → Prop) (fs : NodeFs N H D S) : Prop := {
  c_populate : P _ _ (fs_populate fs);
  c_init : ∀ x0, P _ _ (fs_init fs x0);
  c_destroy : P _ _ (fs_destroy fs);
  c_getattr : ∀ x0 x1 x2, P _ _ (fs_getattr fs x0 x1 x2);
  c_setattr : ∀ x0 x1 x2 x3, P _ _ (fs_setattr fs x0 x1 x2 x3);
  c_lookup : ∀ x0 x1 x2, P _ _ (fs_lookup fs x0 x1 x2);
  c_readlink : ∀ x0 x1, P _ _ (fs_readlink fs x0 x1);
  c_mknod : ∀ x0 x1 x2 x3 x4 x5, P _ _ (fs_mknod fs x0 x1 x2 x3 x4 x5);
  c_mkdir : ∀ x0 x1 x2 x3 x4, P _ _ (fs_mkdir fs x0 x1 x2 x3 x4);
  c_symlink : ∀ x0 x1 x2 x3, P _ _ (fs_symlink fs x0 x1 x2 x3);
  c_unlink : ∀ x0 x1 x2, P _ _ (fs_unlink fs x0 x1 x2);
  c_rmdir : ∀ x0 x1 x2, P _ _ (fs_rmdir fs x0 x1 x2);
  c_rename : ∀ x0 x1 x2 x3 x4 x5, P _ _ (fs_rename fs x0 x1 x2 x3 x4 x5);
  c_open : ∀ x0 x1 x2, P _ _ (fs_open fs x0 x1 x2);
  c_read : ∀ x0 x1 x2 x3 x4, P _ _ (fs_read fs x0 x1 x2 x3 x4);
  c_write : ∀ x0 x1 x2 x3 x4, P _ _ (fs_write fs x0 x1 x2 x3 x4);
  c_flush : ∀ x0 x1 x2, P _ _ (fs_flush fs x0 x1 x2);
  c_release : ∀ x0 x1 x2, P _ _ (fs_release fs x0 x1 x2);
  c_fsync : ∀ x0 x1 x2 x3, P _ _ (fs_fsync fs x0 x1 x2 x3);
  c_opendir : ∀ x0 x1 x2, P _ _ (fs_opendir fs x0 x1 x2);
  c_readdir : ∀ x0 x1 x2 x3 x4 x5, P _ _ (fs_readdir fs x0 x1 x2 x3 x4 x5);
  c_readdirplus : ∀ x0 x1 x2 x3 x4 x5, P _ _ (fs_readdirplus fs x0 x1 x2 x3 x4 x5);
  c_releasedir : ∀ x0 x1 x2, P _ _ (fs_releasedir fs x0 x1 x2);
  c_fsyncdir : ∀ x0 x1 x2 x3, P _ _ (fs_fsyncdir fs x0 x1 x2 x3);
  c_statfs : ∀ x0, P _ _ (fs_statfs fs x0);
  c_setxattr : ∀ x0 x1 x2 x3 x4, P _ _ (fs_setxattr fs x0 x1 x2 x3 x4);
  c_getxattr : ∀ x0 x1 x2 x3, P _ _ (fs_getxattr fs x0 x1 x2 x3);
  c_listxattr : ∀ x0 x1 x2, P _ _ (fs_listxattr fs x0 x1 x2);
  c_removexattr : ∀ x0 x1 x2, P _ _ (fs_removexattr fs x0 x1 x2);
  c_access : ∀ x0 x1 x2, P _ _ (fs_access fs x0 x1 x2);
  c_create : ∀ x0 x1 x2 x3 x4 x5, P _ _ (fs_create fs x0 x1 x2 x3 x4 x5);
  c_fallocate : ∀ x0 x1 x2 x3 x4 x5, P _ _ (fs_fallocate fs x0 x1 x2 x3 x4 x5);
  c_lseek : ∀ x0 x1 x2 x3 x4, P _ _ (fs_lseek fs x0 x1 x2 x3 x4);
  c_getlk : ∀ x0 x1 x2 x3 x4, P _ _ (fs_getlk fs x0 x1 x2 x3 x4);
  c_setlk : ∀ x0 x1 x2 x3 x4 x5, P _ _ (fs_setlk fs x0 x1 x2 x3 x4 x5);
  c_copy_file_range : ∀ x0 x1 x2 x3 x4 x5 x6, P _ _ (fs_copy_file_range fs x0 x1 x2 x3 x4 x5 x6);
}.

Lemma each_callback_mono {N H D S} (P Q : ∀ E A, prog N S E A → Prop) (fs : NodeFs N H D S) :
  (∀ E A p, P E A p → Q E A p) → each_callback P fs → each_callback Q fs.
Proof. intros HPQ []. split; intros; by apply HPQ. Qed.

(** ** The handlers, taken apart *)
Section handlers.
Context {N H D S K : Type} `{Libc}.
Abbreviation CW := (World N H D S (K * Arcs H D)).

(** The critical sections of the handlers themselves. *)
Inductive between : ∀ A, M CW A → Prop :=
| between_node ino : between _ (node ino)
| between_table A (m : M (Shared N) A) op :
    (∀ s, (m s).2 = exec_op op s) → (∀ s, (m s).1 ≠ Blocked) →
    (∀ p parent, op ≠ OpInsert p parent) → (∀ id, op ≠ OpAddLink id) → (∀ id, op ≠ OpRemoveLink id) →
    op_wf op → between _ (on_shared m)
| between_read A (g : Shared N → A) : between _ (on_shared (gets g))
| between_files A (m : M (gmap Z (HandleRecord H) * Detached H) A) : between _ (at_files m)
| between_dirs A (m : M (gmap Z (HandleRecord D) * Detached D) A) : between _ (at_dirs m)
| between_handles A (g : HandleTable H D → A * HandleTable H D) : between _ (on_handles g)
| between_sink A (g : K → A * K) : between _ (sink_step g)
| between_gets A (g : CW → A) : between _ (gets g).

(** Threads of such sections, none of which waits. *)
Fixpoint gentle {A} (t : thr CW A) : Prop :=
  match t with
  | Ret _ | Unwind => True
  | Act act c p => between _ act ∧ (∀ w, (act w).1 ≠ Blocked) ∧ (∀ b, gentle (c b)) ∧ gentle p
  end.

(** A property of threads that scopes and sequences keep. *)
Class Closed (ok : ∀ A, thr CW A → Prop) : Prop := {
  ok_ret A (a : A) : ok _ (Ret a);
  ok_unwind A : ok A Unwind;
  ok_act A B (act : M CW B) (c : B → thr CW A) p : between _ act → (∀ b, ok _ (c b)) → ok _ p → ok _ (Act act c p);
  ok_then A B (m : thr CW A) (g : option A → thr CW B) : ok _ m → (∀ r, ok _ (g r)) → ok _ (thr_then m g);
}.

(** A callback is called without a sink, or with one that is gentle. *)
Definition called (ok : ∀ A, thr CW A → Prop) E A (p : prog N S E A) : Prop :=
  ∀ X (emit : E → X → thr CW (bool * X)) x, (∀ e x, gentle (emit e x)) → ok _ (run_callback emit p x).

Section closed.
Context (ok : ∀ A, thr CW A → Prop) `{!Closed ok}.

Lemma ok_step {A} (act : M CW A) : between _ act → ok _ (step act).
Proof. intros Hact. apply ok_act; [done|intros b; apply ok_ret|apply ok_unwind]. Qed.
Lemma ok_bind {A B} (m : thr CW A) (g : A → thr CW B) : ok _ m → (∀ a, ok _ (g a)) → ok _ (m ≫= g).
Proof. intros Hm Hg. apply ok_then; [done|]. intros [a|]; [apply Hg|apply ok_unwind]. Qed.
Lemma ok_try {A B} (m : thr CW (Result Errno A)) (g : A → thr CW (Result Errno B)) :
  ok _ m → (∀ a, ok _ (g a)) → ok _ (thr_try m g).
Proof. intros Hm Hg. apply ok_bind; [done|]. intros [a|e]; [apply Hg|apply ok_ret]. Qed.
Lemma ok_finally {A} (m : thr CW A) fin : ok _ m → ok _ fin → ok _ (thr_finally m fin).
Proof.
  intros Hm Hf. apply ok_then; [done|]. intros r. apply ok_then; [done|].
  intros [u|]; destruct r; first [apply ok_ret|apply ok_unwind].
Qed.

Lemma ok_node_scope {B} ino (err : Errno → thr CW B) (body : N → thr CW B) :
  (∀ e, ok _ (err e)) → (∀ n, ok _ (body n)) → ok _ (node_scope ino err body).
Proof.
  intros He Hb. apply ok_bind; [apply ok_step; constructor|]. intros [l|e]; [|apply He].
  apply ok_finally; [apply Hb|]. apply ok_step, between_table with (OpDropRef (lr_key l)); try done.
  intros s. unfold ref_drop. by repeat case_match.
Qed.

Lemma ok_handle_scope {T B} (on : ∀ A, M (gmap Z (HandleRecord T) * Detached T) A → M CW A) ino fh
    (err : Errno → thr CW B) (body : T → thr CW B) :
  (∀ A (m : M _ A), between _ (on A m)) → (∀ e, ok _ (err e)) → (∀ h, ok _ (body h)) →
  ok _ (handle_scope on ino fh err body).
Proof.
  intros Hon He Hb. assert (ok _ (step (on unit (drop_arc fh)))) as Hdrop by (apply ok_step, Hon).
  apply ok_bind; [unfold lease; apply ok_bind; [apply ok_step, Hon|]|].
  - intros [node|]; [|apply ok_ret]. destruct (negb _); [apply ok_bind; [done|intros _; apply ok_ret]|].
    apply ok_act; [apply Hon| |apply ok_bind; [done|intros _; apply ok_unwind]].
    intros [payload|]; [apply ok_ret|apply ok_bind; [done|intros _; apply ok_ret]].
  - intros [h|e]; [|apply He]. apply ok_finally; [apply Hb|]. apply ok_bind; [apply ok_step, Hon|by intros _].
Qed.

Lemma ok_close {T} (on : ∀ A, M (gmap Z (HandleRecord T) * Detached T) A → M CW A) fh :
  (∀ A (m : M _ A), between _ (on A m)) → ok _ (close_thread on fh).
Proof.
  intros Hon. apply ok_bind; [apply ok_step, Hon|intros b]. apply ok_bind; [|intros _; apply ok_step, Hon].
  destruct b; [apply ok_ret|apply ok_step, Hon].
Qed.

Lemma ok_call {A} (p : prog N S Empty_set A) : called ok _ _ p → ok _ (callback p).
Proof. intros Hp. apply ok_bind; [apply Hp; by intros []|]. intros [a u]. apply ok_ret. Qed.

Lemma ok_table {A} (m : M (Shared N) A) op :
  (∀ s, (m s).2 = exec_op op s) → (∀ s, (m s).1 ≠ Blocked) →
  (∀ p parent, op ≠ OpInsert p parent) → (∀ id, op ≠ OpAddLink id) → (∀ id, op ≠ OpRemoveLink id) → op_wf op →
  ok _ (step (on_shared m)).
Proof. intros. eapply ok_step, between_table; eauto. Qed.

(** *** The threads of requests *)
Context (fs : NodeFs N H D S) (Hfs : each_callback (called ok) fs).

Lemma ok_add_open ino : ok _ (step (on_shared (add_open ino))).
Proof. apply ok_table with (OpAddOpen ino); try done. intros s. unfold add_open. by repeat case_match. Qed.
Lemma ok_remove_open ino : ok _ (step (on_shared (remove_open ino))).
Proof. by apply ok_table with (OpRemoveOpen ino). Qed.
Lemma ok_take_lookup ino : ok _ (step (on_shared (take_lookup ino))).
Proof. apply ok_table with (OpLookup ino); try done. intros s. unfold take_lookup. by repeat case_match. Qed.
Lemma ok_forget ino n : 0 ≤ n → ok _ (t_forget ino n).
Proof. intros Hn. by apply ok_table with (OpForget ino n). Qed.
Lemma ok_forget_all ids : ok _ (t_forget_all ids).
Proof. induction ids; [apply ok_ret|]. by apply ok_bind; [apply ok_forget|intros _]. Qed.

Lemma ok_sink {A} (g : K → A * K) : ok _ (step (sink_step g)).
Proof. apply ok_step. constructor. Qed.

(** The sinks of the two kinds of listing. *)
Lemma gentle_plain {E} (add : E → K → bool * K) (e : E) (x : unit) : gentle (b ← step (sink_step (add e)); Ret (b, tt)).
Proof.
  split_and!; [constructor| |done|done]. intros w. unfold sink_step, on_sink. destruct (w_sink w) as [k d]. by destruct (add e k).
Qed.

Lemma retain_unblocked id (sh : Shared N) : (retain_lookup id sh).1 ≠ Blocked.
Proof. unfold retain_lookup. by repeat case_match. Qed.

Lemma gentle_account inner e accepted : gentle (t_account inner e accepted).
Proof.
  split_and!; [constructor|done| |done]. intros [g|err]; [|done]. split_and!; [constructor| | |done].
  { intros w. unfold sink_step, on_sink. destruct (w_sink w) as [k d]. by destruct (inner _ _ _ k). }
  intros added. simpl. destruct (negb added); [done|]. destruct (_ && _); [|done]. split_and!; [| |by intros []|done].
  - apply between_table with (OpLookup (pe_id e)); try done; [apply retain_exec|apply retain_unblocked].
  - intros w. pose proof (retain_unblocked (pe_id e) (rt_shared (w_rt w))) as Hr. unfold on_shared, zoom.
    by destruct (retain_lookup _ _).
Qed.

Local Ltac take_apart :=
  repeat (intros;
    first
    [ apply ok_ret | apply ok_unwind
    | apply ok_call; solve [destruct Hfs; auto 2]
    | apply (c_readdir _ _ Hfs); apply gentle_plain
    | apply (c_readdirplus _ _ Hfs); apply gentle_account
    | apply ok_node_scope
    | apply ok_handle_scope; [by intros; constructor|..]
    | apply ok_close; by intros; constructor
    | apply ok_add_open | apply ok_remove_open | apply ok_take_lookup | apply ok_forget_all | apply ok_sink
    | apply ok_step; constructor
    | apply ok_try | apply ok_finally | apply ok_bind
    | match goal with |- ok _ (match ?x with _ => _ end) => destruct x end ]).

Lemma ok_entry_for id caller : ok _ (t_entry_for fs id caller).
Proof. unfold t_entry_for, in_node, ret_err. take_apart. Qed.

(** The thread of a request is made of such parts. *)
Lemma thread_closed (r : request K) :
  request_wf r → (∀ ino newparent newname caller, r = ReqLink ino newparent newname caller →
    called ok _ _ (fs_link fs ino newparent newname caller)) → ok _ (thread_of fs r).
Proof.
  intros Hwf Hlink. destruct r; unfold thread_of, t_reply, t_sink,
    t_init, t_destroy, t_statfs, t_getattr, t_setattr, t_readlink, t_access, t_setxattr, t_getxattr, t_listxattr,
    t_removexattr, t_open, t_read, t_write, t_flush, t_fsync, t_fallocate, t_lseek, t_getlk, t_setlk, t_release, t_opendir,
    t_readdir, t_readdirplus, t_fsyncdir, t_releasedir, t_lookup, t_mknod, t_mkdir, t_symlink, t_link, t_unlink, t_rmdir,
    t_rename, t_create, t_copy_file_range, t_entry, register, in_optional_file, in_node, in_file, in_dir, ret_err.
  all: take_apart; try apply ok_entry_for; take_apart.
  by apply ok_forget.
Qed.
End closed.
End handlers.
