(* ===== verification/ArcInv.v ===== *)
(** * Handle records under every interleaving

    One table of open handles with the records that left it, as [Threads]
    shares them, follows for each handle number the protocol of [HandleRec]:
    each step of a thread on a record is one or two steps of [hstep], and the
    payload and the record are touched only while they are there. *)

From S2P Require Import Prelude Types HandleRec Threads.

(** ** The protocol, seen from one handle *)

(** What [Threads] keeps for one handle number. *)
Record hview (T : Type) := mkView {
  v_table : option (HandleRecord T);
  v_detached : option (HandleRecord T);
  v_arcs : Z;
  v_events : list event;
}.
Arguments mkView {T}.
Arguments v_table {T}.
Arguments v_detached {T}.
Arguments v_arcs {T}.
Arguments v_events {T}.

Section views.
Context {T : Type}.
Abbreviation Hs := (gmap Z (HandleRecord T) * Detached T)%type.
Implicit Types (hs : Hs) (v : hview T) (r : HandleRecord T) (m : gmap nat pc).

Definition events_of (fh : Z) (l : list (Z * event)) : list event := (filter (λ x, x.1 = fh) l).*2.

Definition view (fh : Z) hs : hview T :=
  mkView (hs.1 !! fh) (dt_records hs.2 !! fh) (arcs fh hs.2) (events_of fh (dt_events hs.2)).

(** A record that someone may reach: the threads [m] that hold an [Arc] of it
    stand where a run of the protocol can have brought them.  No thread is
    parked for good: between two steps a waiting thread may always wake up. *)
Record live (next fh : Z) (in_table : bool) r v m : Prop := {
  l_range : 0 < fh < next;
  l_arcs : v_arcs v = Z.of_nat (size m);
  l_reach : hreach (mkSys (hr_state r) in_table (v_events v) m);
  l_awake : ∀ k, m !! k ≠ Some Parked;
  l_held : in_table = false → m ≠ ∅;
}.

Definition view_ok (next fh : Z) v m : Prop :=
  match v_table v, v_detached v with
  | Some r, None => live next fh true r v m
  | None, Some r => live next fh false r v m
  | None, None => m = ∅ ∧ v_arcs v = 0 ∧ (length (v_events v) ≤ 1)%nat ∧ (next ≤ fh → v_events v = [])
  | Some _, Some _ => False
  end.

(** [pcs fh]: the threads that hold an [Arc] of the record, and where they
    stand. *)
Definition records_ok (next : Z) hs (pcs : Z → gmap nat pc) : Prop :=
  dt_ub hs.2 = false ∧ ∀ fh, view_ok next fh (view fh hs) (pcs fh).

(** A step on one record leaves the others alone. *)
Definition elsewhere (fh : Z) hs hs' : Prop := ∀ fh', fh' ≠ fh → view fh' hs' = view fh' hs.

Lemma records_step next fh hs hs' (pcs pcs' : Z → gmap nat pc) :
  records_ok next hs pcs → elsewhere fh hs hs' → (∀ fh', fh' ≠ fh → pcs' fh' = pcs fh') →
  dt_ub hs'.2 = false → view_ok next fh (view fh hs') (pcs' fh) → records_ok next hs' pcs'.
Proof.
  intros [_ Hok] Helse Hpcs Hub Hfh. split; [done|]. intros fh'. destruct (decide (fh' = fh)) as [->|Hne]; [done|].
  by rewrite Helse, Hpcs.
Qed.

Lemma events_of_other fh fh' e l : fh' ≠ fh → events_of fh' ((fh, e) :: l) = events_of fh' l.
Proof. intros Hne. unfold events_of. by rewrite filter_cons_False by (simpl; congruence). Qed.

Lemma events_of_same fh e l : events_of fh ((fh, e) :: l) = e :: events_of fh l.
Proof. unfold events_of. by rewrite filter_cons_True. Qed.

Lemma consumed_events fh (d : Detached T) : consumed fh d = false ↔ events_of fh (dt_events d) = [].
Proof.
  unfold consumed. rewrite bool_decide_eq_false. induction (dt_events d) as [|[fh' e] l IH]; simpl.
  - split; [done|]. intros _ Hin. by apply elem_of_nil in Hin.
  - rewrite not_elem_of_cons. destruct (decide (fh' = fh)) as [->|Hne].
    + rewrite events_of_same. split; [tauto|done].
    + rewrite events_of_other by congruence. rewrite <- IH. split; [tauto|]. intros ?. split; [congruence|done].
Qed.

(** ** What the protocol promises where a thread stands *)
Lemma protocol_open s k p :
  hreach s → sys_threads s !! k = Some p → p = Leasing ∨ p = Taking → sys_events s = [].
Proof.
  intros Hinv%hreach_inv Hk [->| ->].
  - pose proof (leasing_active s k Hinv Hk). eapply held_events; [done..|]. apply not_true_iff_false. intros Ht.
    destruct (h_taken s Hinv Ht) as (_ & ? & _). lia.
  - apply (h_ok s Hinv k _ Hk).
Qed.

Lemma protocol_untaken s k p :
  hreach s → sys_threads s !! k = Some p → taken (sys_state s) = false → sys_events s = [].
Proof. intros Hinv%hreach_inv. apply held_events, Hinv. Qed.

(** The payload of a record that nobody holds was consumed once. *)
Lemma protocol_end s :
  hreach s → sys_in_table s = false → sys_threads s = ∅ → length (sys_events s) = 1%nat.
Proof.
  intros Hinv%hreach_inv Htab Hth. pose proof (h_end s Hinv Htab Hth). destruct (taken (sys_state s)) eqn:Ht.
  - by destruct (h_taken s Hinv Ht) as (_ & _ & [[? _]| ->]).
  - destruct (h_untaken s Hinv Ht) as [?|[-> _]]; done.
Qed.

Lemma hreach_step s s' : hreach s → hstep s s' → hreach s'.
Proof. intros Hs Hstep. eapply rtc_r; [exact Hs|done]. Qed.

(** ** Steps *)
Section steps.
Context `{Libc}.

(** Thread [k] goes to [p] at record [fh], or lets go of it. *)
Definition moved (pcs : Z → gmap nat pc) (fh : Z) (k : nat) (p : option pc) (pcs' : Z → gmap nat pc) : Prop :=
  pcs' fh = partial_alter (λ _, p) k (pcs fh) ∧ ∀ fh', fh' ≠ fh → pcs' fh' = pcs fh'.

Lemma elsewhere_refl fh hs : elsewhere fh hs hs.
Proof. done. Qed.

Lemma elsewhere_trans fh hs1 hs2 hs3 : elsewhere fh hs1 hs2 → elsewhere fh hs2 hs3 → elsewhere fh hs1 hs3.
Proof. intros H1 H2 fh' Hne. by rewrite H2, H1. Qed.

Lemma elsewhere_put fh st hs : elsewhere fh hs (put_state fh st hs).
Proof.
  intros fh' Hne. unfold put_state, view. repeat case_match; simpl; try done; by rewrite lookup_insert_ne.
Qed.

Lemma elsewhere_arcs fh n hs : elsewhere fh hs (hs.1, add_arcs fh n hs.2).
Proof. intros fh' Hne. unfold view, add_arcs, arcs. simpl. by rewrite lookup_insert_ne. Qed.

Lemma elsewhere_consume fh e hs : elsewhere fh hs (hs.1, consume fh e hs.2).
Proof. intros fh' Hne. unfold view, consume, arcs. simpl. by rewrite events_of_other. Qed.

Lemma elsewhere_deref fh hs : elsewhere fh hs (hs.1, deref fh hs.2).
Proof. intros fh' Hne. done. Qed.

(** The record that a thread holds, and the protocol's state around it. *)
Lemma held_record next hs pcs fh k p :
  records_ok next hs pcs → pcs fh !! k = Some p →
  ∃ r b, record_at fh hs = Some r ∧ live next fh b r (view fh hs) (pcs fh) ∧ b = bool_decide (is_Some (hs.1 !! fh)) ∧
    ∀ st, dt_ub (put_state fh st hs).2 = dt_ub hs.2 ∧ view fh (put_state fh st hs) =
      mkView (if b then Some (with_state st r) else None) (if b then None else Some (with_state st r))
        (arcs fh hs.2) (events_of fh (dt_events hs.2)).
Proof.
  intros [_ Hok] Hk. specialize (Hok fh). unfold view_ok, view, record_at, put_state in *; simpl in *.
  destruct (hs.1 !! fh) as [r|] eqn:Ht, (dt_records hs.2 !! fh) as [r'|] eqn:Hd; try done.
  - exists r, true. split_and!; try done. intros st. simpl. by rewrite lookup_insert_eq, Hd.
  - exists r', false. split_and!; try done. intros st. simpl. by rewrite Ht, lookup_insert_eq.
  - destruct Hok as [He _]. by rewrite He, lookup_empty in Hk.
Qed.

Lemma live_ok next fh (b : bool) r v m :
  v_table v = (if b then Some r else None) → v_detached v = (if b then None else Some r) →
  live next fh b r v m → view_ok next fh v m.
Proof. unfold view_ok. destruct b; intros -> ->; done. Qed.

Lemma size_move m k p p' : m !! k = Some p → size (partial_alter (λ _ : option pc, Some p') k m) = size m.
Proof.
  intros Hk. change (size (<[k := p']> m) = size m). rewrite <- (insert_delete_id m k p) at 2 by done.
  rewrite <- insert_delete_eq. rewrite !map_size_insert_None by apply lookup_delete_eq. done.
Qed.

(** A step of the protocol by a thread that keeps its [Arc]. *)
Lemma records_move next hs hs' pcs pcs' fh k p p' r (b : bool) st ev :
  records_ok next hs pcs → pcs fh !! k = Some p → moved pcs fh k (Some p') pcs' →
  live next fh b r (view fh hs) (pcs fh) →
  p' ≠ Parked → hreach (mkSys st b ev (<[k := p']> (pcs fh))) →
  view fh hs' = mkView (if b then Some (with_state st r) else None) (if b then None else Some (with_state st r)) (arcs fh hs.2) ev →
  elsewhere fh hs hs' → dt_ub hs'.2 = false → records_ok next hs' pcs'.
Proof.
  intros Hok Hk [Hfh Hother] [] Hp' Hreach Hview Helse Hub.
  eapply records_step; [done..|]. apply (live_ok _ _ b (with_state st r)); [by rewrite Hview..|].
  rewrite Hfh, Hview. split; simpl; [done| |done| |].
  - rewrite (size_move _ _ p) by done. done.
  - intros k'. change (<[k := p']> (pcs fh) !! k' ≠ Some Parked). rewrite lookup_insert. case_decide; [congruence|apply l_awake0].
  - intros _ He. by apply insert_non_empty in He.
Qed.

Lemma records_clone next hs pcs fh k :
  records_ok next hs pcs → pcs fh !! k = None →
  match clone_arc fh hs with
  | (Returned (Some _), hs') => ∀ pcs', moved pcs fh k (Some Cloned) pcs' → records_ok next hs' pcs'
  | (Returned None, hs') => hs' = hs
  | _ => False
  end.
Proof.
  intros Hok Hk. unfold clone_arc. destruct (hs.1 !! fh) as [r|] eqn:Ht; [|done].
  intros pcs' [Hfh Hother]. destruct Hok as [Hub Hok]. pose proof (Hok fh) as Hv. unfold view_ok, view in Hv. rewrite Ht in Hv. simpl in Hv.
  destruct (dt_records hs.2 !! fh) as [?|] eqn:Hd; [done|].
  eapply (records_step _ fh hs); [by split|apply elsewhere_arcs|done|done|].
  unfold view_ok, view. simpl. rewrite Ht, Hd, Hfh. destruct Hv as []. split; simpl in *; try done.
  - unfold arcs at 1, add_arcs. simpl. rewrite lookup_insert_eq. simpl. rewrite l_arcs0.
    change (partial_alter _ k (pcs fh)) with (<[k := Cloned]> (pcs fh)). rewrite map_size_insert_None by done. lia.
  - eapply hreach_step; [exact l_reach0|]. by apply step_clone.
  - intros k'. change (<[k := Cloned]> (pcs fh) !! k' ≠ Some Parked). rewrite lookup_insert. case_decide; [congruence|apply l_awake0].
Qed.

Lemma records_detach next hs pcs ino fh k :
  records_ok next hs pcs → pcs fh !! k = None →
  match detach ino fh hs with
  | (Returned (Ok _), hs') => (∀ pcs', moved pcs fh k (Some Removed) pcs' → records_ok next hs' pcs') ∧
      ∃ r, hs.1 !! fh = Some r ∧ hr_node r = ino ∧ hs'.1 = delete fh hs.1
  | (Returned (Err _), hs') => hs' = hs
  | _ => False
  end.
Proof.
  intros Hok Hk. unfold detach. destruct (hs.1 !! fh) as [r|] eqn:Ht; [|done].
  destruct (Z.eqb_spec (hr_node r) ino); simpl; [|done]. split; [|by exists r].
  intros pcs' [Hfh Hother]. destruct Hok as [Hub Hok]. pose proof (Hok fh) as Hv. unfold view_ok, view in Hv. rewrite Ht in Hv. simpl in Hv.
  destruct (dt_records hs.2 !! fh) as [?|] eqn:Hd; [done|].
  eapply (records_step _ fh hs); [by split| |done|done|].
  { intros fh' Hne. unfold view, arcs. simpl. by rewrite lookup_delete_ne, !lookup_insert_ne. }
  unfold view_ok, view. simpl. rewrite lookup_delete_eq, lookup_insert_eq, Hfh. destruct Hv as []. split; simpl in *; try done.
  - unfold arcs at 1. simpl. rewrite lookup_insert_eq. simpl. unfold arcs in *. simpl. rewrite l_arcs0.
    change (partial_alter _ k (pcs fh)) with (<[k := Removed]> (pcs fh)). rewrite map_size_insert_None by done. lia.
  - eapply hreach_step; [exact l_reach0|].
    exact (step_remove (mkSys (hr_state r) true (events_of fh (dt_events hs.2)) (pcs fh)) k eq_refl Hk).
  - intros k'. change (<[k := Removed]> (pcs fh) !! k' ≠ Some Parked). rewrite lookup_insert. case_decide; [congruence|apply l_awake0].
  - intros _ He. by apply insert_non_empty in He.
Qed.

Lemma deref_ub fh (d : Detached T) : dt_ub d = false → events_of fh (dt_events d) = [] → dt_ub (deref fh d) = false.
Proof. intros Hub Hev%consumed_events. simpl. by rewrite Hub, Hev. Qed.

Lemma records_acquire next hs pcs fh k :
  records_ok next hs pcs → pcs fh !! k = Some Cloned →
  match acquire_lease fh hs with
  | (Returned (Some _), hs') => ∀ pcs', moved pcs fh k (Some Leasing) pcs' → records_ok next hs' pcs'
  | (Blocked, _) => False
  | (_, hs') => ∀ pcs', moved pcs fh k (Some Leaving) pcs' → records_ok next hs' pcs'
  end.
Proof.
  intros Hok Hk. destruct (held_record next hs pcs fh k _ Hok Hk) as (r & b & Hr & Hlive & _ & Hput).
  unfold acquire_lease. rewrite Hr. pose proof (l_reach _ _ _ _ _ _ Hlive) as Hreach.
  set (s := mkSys (hr_state r) b (v_events (view fh hs)) (pcs fh)) in *.
  destruct (acquire (hr_state r)) as [[[]| |] st] eqn:Ha.
  - intros pcs' Hm. destruct (Hput st) as [Hub Hview].
    assert (hreach (mkSys st b (v_events (view fh hs)) (<[k := Leasing]> (pcs fh)))) as Hreach'.
    { eapply hreach_step; [exact Hreach|]. by apply (step_acquire s k true st). }
    pose proof (protocol_open _ k Leasing Hreach' (lookup_insert_eq _ _ _) (or_introl eq_refl)) as Hev. simpl in Hev.
    eapply (records_move next hs); [done..| |]; simpl.
    + eapply elsewhere_trans; [apply elsewhere_put|apply (elsewhere_deref _ (put_state fh st hs))].
    + rewrite Hub. apply (f_equal v_events) in Hview. simpl in Hview. rewrite Hev in Hview.
      apply consumed_events in Hview. rewrite Hview. destruct Hok as [-> _]. done.
  - intros pcs' Hm. destruct (Hput st) as [Hub Hview].
    eapply (records_move next hs); [done..| |exact Hview|apply elsewhere_put|rewrite Hub; apply Hok].
    eapply hreach_step; [exact Hreach|]. by apply (step_acquire s k false st).
  - intros pcs' Hm. destruct (Hput st) as [Hub Hview].
    eapply (records_move next hs); [done..| |exact Hview|apply elsewhere_put|rewrite Hub; apply Hok].
    eapply hreach_step; [exact Hreach|]. by apply (step_acquire_panic s k st).
  - unfold acquire in Ha. by repeat case_match.
Qed.

Lemma wake_id (m : gmap nat pc) : (∀ k, m !! k ≠ Some Parked) → wake <$> m = m.
Proof.
  intros Hm. apply map_eq. intros k. rewrite lookup_fmap. specialize (Hm k). by destruct (m !! k) as [[]|].
Qed.

(** The payload is still there while the lease is held, and until it is moved
    out. *)
Lemma records_deref next hs pcs fh k p :
  records_ok next hs pcs → pcs fh !! k = Some p → p = Leasing ∨ p = Taking →
  consumed fh hs.2 = false ∧ records_ok next (hs.1, deref fh hs.2) pcs.
Proof.
  intros Hok Hk Hp. destruct (held_record next hs pcs fh k _ Hok Hk) as (r & b & _ & Hlive & _).
  pose proof (protocol_open _ k p (l_reach _ _ _ _ _ _ Hlive) Hk Hp) as Hev. simpl in Hev. apply consumed_events in Hev.
  split; [done|]. destruct Hok as [Hub Hok]. split; [by simpl; rewrite Hub, Hev|]. exact Hok.
Qed.

Lemma records_end_lease next hs pcs fh k :
  records_ok next hs pcs → pcs fh !! k = Some Leasing →
  match end_lease fh hs with
  | (Returned _, hs') => ∀ pcs', moved pcs fh k (Some Leaving) pcs' → records_ok next hs' pcs'
  | _ => False
  end.
Proof.
  intros Hok Hk. unfold end_lease. destruct (records_deref _ _ _ _ _ _ Hok Hk (or_introl eq_refl)) as [_ Hok'].
  clear Hok. set (hs0 := (hs.1, deref fh hs.2)) in *.
  destruct (held_record next hs0 pcs fh k _ Hok' Hk) as (r & b & Hr & Hlive & _ & Hput).
  unfold on_record. rewrite Hr. destruct (lease_drop (hr_state r)) as [[w| |] st] eqn:Hd; [|done..].
  intros pcs' Hm. destruct (Hput st) as [Hub Hview].
  eapply (records_move next hs0); [done..| |exact Hview|apply elsewhere_put|rewrite Hub; apply Hok'].
  pose proof (hreach_step _ _ (l_reach _ _ _ _ _ _ Hlive) (step_lease_drop (mkSys (hr_state r) b (v_events (view fh hs0)) (pcs fh)) k w st Hk Hd)) as Hreach. simpl in Hreach.
  destruct w; [|done]. rewrite wake_id in Hreach; [done|].
  intros k'. rewrite lookup_insert. case_decide; [done|]. apply (l_awake _ _ _ _ _ _ Hlive).
Qed.

Lemma records_begin next hs pcs fh k :
  records_ok next hs pcs → pcs fh !! k = Some Removed →
  match close_begin fh hs with
  | (Returned b, hs') => ∀ pcs', moved pcs fh k (Some (if b then Taking else Woken)) pcs' → records_ok next hs' pcs'
  | _ => False
  end.
Proof.
  intros Hok Hk. destruct (held_record next hs pcs fh k _ Hok Hk) as (r & b & Hr & Hlive & _ & Hput).
  unfold close_begin, on_record. rewrite Hr.
  destruct (close_test (close_enter (hr_state r))) as [[c| |] st] eqn:Hc;
    [|unfold close_test in Hc; by case_match..].
  intros pcs' Hm. destruct (Hput st) as [Hub Hview].
  eapply (records_move next hs); [done..| | |exact Hview|apply elsewhere_put|rewrite Hub; apply Hok]; [by destruct c|].
  pose proof (hreach_step _ _ (l_reach _ _ _ _ _ _ Hlive) (step_close (mkSys (hr_state r) b (v_events (view fh hs)) (pcs fh)) k c st Hk Hc)) as Hreach.
  destruct c; [done|]. eapply hreach_step in Hreach; [|apply (step_spurious _ k); apply lookup_insert_eq].
  unfold set_thread, set_state in Hreach. simpl in Hreach. by rewrite insert_insert_eq in Hreach.
Qed.

Lemma records_resume next hs pcs fh k :
  records_ok next hs pcs → pcs fh !! k = Some Woken →
  match close_resume fh hs with
  | (Returned _, hs') => ∀ pcs', moved pcs fh k (Some Taking) pcs' → records_ok next hs' pcs'
  | (Blocked, _) => ∃ k', pcs fh !! k' = Some Leasing
  | _ => False
  end.
Proof.
  intros Hok Hk. destruct (held_record next hs pcs fh k _ Hok Hk) as (r & b & Hr & Hlive & _ & Hput).
  unfold close_resume, on_record. rewrite Hr.
  destruct (close_test (hr_state r)) as [[c| |] st] eqn:Hc; [|unfold close_test in Hc; by case_match..].
  pose proof (hreach_step _ _ (l_reach _ _ _ _ _ _ Hlive) (step_retest (mkSys (hr_state r) b (v_events (view fh hs)) (pcs fh)) k c st Hk Hc)) as Hreach.
  destruct c.
  - intros pcs' Hm. destruct (Hput st) as [Hub Hview].
    by eapply (records_move next hs); [done..|exact Hview|apply elsewhere_put|rewrite Hub; apply Hok].
  - pose proof (hreach_inv _ Hreach) as Hinv. destruct (h_ok _ Hinv k Parked (lookup_insert_eq _ _ _)) as (_ & _ & _ & Ha).
    rewrite (h_active _ Hinv) in Ha. apply count_map_witness in Ha as (k' & p & Hk' & ->). exists k'.
    simpl in Hk'. rewrite lookup_insert in Hk'. by case_decide.
Qed.

Lemma records_take next hs pcs fh k :
  records_ok next hs pcs → pcs fh !! k = Some Taking →
  match take_out fh hs with
  | (Returned _, hs') => ∀ pcs', moved pcs fh k (Some Leaving) pcs' → records_ok next hs' pcs'
  | _ => False
  end.
Proof.
  intros Hok Hk. destruct (records_deref _ _ _ _ _ _ Hok Hk (or_intror eq_refl)) as [Hev _].
  destruct (held_record next hs pcs fh k _ Hok Hk) as (r & b & Hr & Hlive & Hb & _).
  unfold take_out. rewrite Hr. intros pcs' Hm.
  eapply (records_move next hs); [done..| | |apply elsewhere_consume|].
  - apply (hreach_step _ _ (l_reach _ _ _ _ _ _ Hlive) (step_take (mkSys (hr_state r) b (v_events (view fh hs)) (pcs fh)) k Hk)).
  - unfold record_at in Hr. destruct Hok as [_ Hok]. specialize (Hok fh). unfold view_ok, view in *. simpl in *.
    rewrite events_of_same. assert (with_state (hr_state r) r = r) as -> by (by destruct r). subst b.
    destruct (hs.1 !! fh) as [r1|]; simplify_eq; simpl.
    + by destruct (dt_records hs.2 !! fh).
    + by rewrite Hr.
  - simpl. rewrite Hev. by destruct Hok as [-> _].
Qed.

Lemma records_drop next hs pcs fh k p :
  records_ok next hs pcs → pcs fh !! k = Some p → p = Leaving ∨ p = Cloned ∨ p = Removed →
  ∃ hs', drop_arc fh hs = (Returned tt, hs') ∧ hs'.1 = hs.1 ∧
    ∀ pcs', moved pcs fh k None pcs' → records_ok next hs' pcs'.
Proof.
  intros Hok Hk Hp. destruct (held_record next hs pcs fh k _ Hok Hk) as (r & b & Hr & Hlive & Hb & _).
  pose proof (l_reach _ _ _ _ _ _ Hlive) as Hreach.
  set (s := mkSys (hr_state r) b (v_events (view fh hs)) (pcs fh)) in *.
  assert (∃ s', hreach s' ∧ s' = set_thread k Leaving s) as (s1 & Hreach1 & Hs1).
  { destruct Hp as [->|[->| ->]].
    - exists s. split; [done|]. unfold set_thread, s. simpl. by rewrite insert_id.
    - eexists. split; [|done]. eapply hreach_step; [exact Hreach|]. by apply step_mismatch.
    - eexists. split; [|done]. eapply hreach_step; [exact Hreach|]. by apply step_abandon. }
  assert (hreach (drop_if_last (mkSys (hr_state r) b (v_events (view fh hs)) (delete k (pcs fh))))) as Hreach2.
  { eapply hreach_step in Hreach1; [|apply (step_leave _ k); subst s1; apply lookup_insert_eq].
    subst s1. simpl in Hreach1. by rewrite delete_insert_eq in Hreach1. }
  assert (Z.of_nat (size (delete k (pcs fh))) = arcs fh hs.2 - 1) as Hsize.
  { pose proof (l_arcs _ _ _ _ _ _ Hlive) as Ha. simpl in Ha. rewrite map_size_delete, Hk. simpl.
    assert (size (pcs fh) ≠ 0%nat); [|lia]. intros Hz%map_size_empty_inv. by rewrite Hz, lookup_empty in Hk. }
  assert (arcs fh (add_arcs fh (-1) hs.2) = arcs fh hs.2 - 1) as Harcs.
  { unfold arcs at 1, add_arcs. simpl. by rewrite lookup_insert_eq. }
  unfold drop_arc. rewrite Harcs.
  destruct (bool_decide (is_Some (hs.1 !! fh)) || negb (arcs fh hs.2 - 1 =? 0)) eqn:Hkeep.
  - eexists. split; [done|]. split; [done|]. intros pcs' [Hfh Hother].
    assert (drop_if_last (mkSys (hr_state r) b (v_events (view fh hs)) (delete k (pcs fh))) =
      mkSys (hr_state r) b (v_events (view fh hs)) (delete k (pcs fh))) as Hd.
    { unfold drop_if_last. simpl. destruct (bool_decide (delete k (pcs fh) = ∅)) eqn:Hem; [|done].
      apply bool_decide_eq_true in Hem. rewrite Hem, map_size_empty in Hsize.
      rewrite (proj2 (Z.eqb_eq _ _)) in Hkeep by lia. rewrite orb_false_r in Hkeep. subst b. by rewrite Hkeep. }
    rewrite Hd in Hreach2. eapply (records_step _ fh hs); [done|apply elsewhere_arcs|done|apply Hok|].
    destruct Hlive. apply (live_ok _ _ b r).
    + destruct Hok as [_ Hok]. specialize (Hok fh). unfold view_ok, record_at, view in *. simpl in *. subst b.
      by destruct (hs.1 !! fh), (dt_records hs.2 !! fh); simplify_eq/=.
    + destruct Hok as [_ Hok]. specialize (Hok fh). unfold view_ok, record_at, view in *. simpl in *. subst b.
      by destruct (hs.1 !! fh), (dt_records hs.2 !! fh); simplify_eq/=.
    + rewrite Hfh. change (partial_alter (λ _, None) k (pcs fh)) with (delete k (pcs fh)). split; simpl; try done.
      * by rewrite Harcs.
      * intros k'. rewrite lookup_delete. case_decide; [done|apply l_awake0].
      * intros ->. rewrite <- Hb in Hkeep. simpl in Hkeep. intros Hem. rewrite Hem, map_size_empty in Hsize.
        by rewrite (proj2 (Z.eqb_eq _ _)) in Hkeep by lia.
  - apply orb_false_iff in Hkeep as [Htab Hz%negb_false_iff%Z.eqb_eq]. rewrite Htab in Hb. subst b.
    assert (delete k (pcs fh) = ∅) as Hem by (apply map_size_empty_inv; lia).
    apply bool_decide_eq_false in Htab. assert (hs.1 !! fh = None) as Ht by (by apply eq_None_not_Some).
    unfold record_at in Hr. rewrite Ht in Hr. simpl. rewrite Hr.
    pose proof (protocol_untaken _ k p Hreach Hk) as Hun. simpl in Hun.
    eexists. split; [done|]. split; [done|]. intros pcs' [Hfh Hother].
    pose proof (protocol_end _ Hreach2) as Hend. unfold drop_if_last in Hend. simpl in Hend. rewrite Hem in Hend.
    rewrite bool_decide_eq_true_2 in Hend by done. simpl in Hend.
    eapply (records_step _ fh hs); [done| |done| |].
    + intros fh' Hne. unfold view, arcs. destruct (taken (hr_state r)); simpl;
        by rewrite lookup_delete_ne, lookup_insert_ne, ?events_of_other.
    + destruct Hok as [Hub _]. destruct (taken (hr_state r)) eqn:Htk; simpl; [done|].
      specialize (Hun eq_refl). apply consumed_events in Hun. unfold consumed in *. simpl. by rewrite Hub, Hun.
    + destruct Hlive. unfold view_ok, view. destruct (taken (hr_state r)) eqn:Htk; simpl;
        rewrite Ht, lookup_delete_eq, Hfh; change (partial_alter (λ _, None) k (pcs fh)) with (delete k (pcs fh));
        (split_and!; [done|unfold arcs; simpl; rewrite lookup_insert_eq; simpl; lia| |lia]).
      * simpl in Hend. specialize (Hend eq_refl eq_refl). lia.
      * rewrite events_of_same. simpl in Hend. specialize (Hend eq_refl eq_refl). simpl in *. lia.
Qed.

(** A new record, under the next number. *)
Lemma records_add next hs pcs node (payload : T) :
  records_ok next hs pcs → 0 < next →
  records_ok (next + 1) (<[next := HandleRecord_new node payload]> hs.1, hs.2) pcs.
Proof.
  intros Hok Hpos. destruct Hok as [Hub Hok]. split; [done|]. intros fh. specialize (Hok fh).
  destruct (decide (fh = next)) as [->|Hne].
  - unfold view_ok, view in *. simpl in *. rewrite lookup_insert_eq.
    destruct (hs.1 !! next) as [r|]; [exfalso; destruct (dt_records hs.2 !! next); [done|destruct Hok; lia]|].
    destruct (dt_records hs.2 !! next) as [r|]; [destruct Hok; lia|].
    destruct Hok as (-> & Ha & _ & Hev). specialize (Hev ltac:(lia)). split; simpl.
    + lia.
    + by rewrite Ha.
    + rewrite Hev. apply rtc_refl.
    + intros k. by rewrite lookup_empty.
    + done.
  - unfold view_ok, view in *. simpl in *. rewrite lookup_insert_ne by done.
    destruct (hs.1 !! fh), (dt_records hs.2 !! fh); try done.
    + destruct Hok. split; try done. lia.
    + destruct Hok. split; try done. lia.
    + destruct Hok as (? & ? & ? & Hev). split_and!; try done. intros. apply Hev. lia.
Qed.

(** Another table took the number. *)
Lemma records_next next hs pcs : records_ok next hs pcs → 0 < next → records_ok (next + 1) hs pcs.
Proof.
  intros [Hub Hok] Hpos. split; [done|]. intros fh. specialize (Hok fh). unfold view_ok in *.
  destruct (v_table _), (v_detached _); try done.
  - destruct Hok. split; try done. lia.
  - destruct Hok. split; try done. lia.
  - destruct Hok as (? & ? & ? & Hev). split_and!; try done. intros. apply Hev. lia.
Qed.
End steps.
End views.
