(* ===== verification/Concurrent.v ===== *)
(** * The invariant of interleaved handlers

    What each thread holds at a moment — node leases, a place at a handle
    record, an open that is counted in the table but not (or no longer) in the
    handle table, lookups that no reply has carried yet — and the invariant that
    ties the shared state to all the threads together. *)

From S2P Require Import Prelude Types NodeTable NodeTableInv HandleRec NodeFs Runtime RuntimeInv RuntimeSpec Threads ThreadLogic ArcInv.

#[local] Arguments exec_op : simpl never.

(** ** What one thread holds *)

(** Lookups counted at an inode, with the generation that was read, if any. *)
Definition token : Type := Z * option Z * Z.

Record cframe := mkCFrame {
  cf_refs : list nat;
  cf_file : option (Z * pc);
  cf_dir : option (Z * pc);
  cf_pend : option Z;
  cf_new : bool;
  cf_toks : list token;
}.

Definition base_frame (toks : list token) : cframe := mkCFrame [] None None None false toks.
Definition hold_ref (κ : nat) f : cframe := mkCFrame (κ :: cf_refs f) (cf_file f) (cf_dir f) (cf_pend f) (cf_new f) (cf_toks f).
Definition at_file (x : option (Z * pc)) f : cframe := mkCFrame (cf_refs f) x (cf_dir f) (cf_pend f) (cf_new f) (cf_toks f).
Definition at_dir (x : option (Z * pc)) f : cframe := mkCFrame (cf_refs f) (cf_file f) x (cf_pend f) (cf_new f) (cf_toks f).
Definition owes (i : option Z) (new : bool) f : cframe := mkCFrame (cf_refs f) (cf_file f) (cf_dir f) i new (cf_toks f).
Definition with_toks (l : list token) f : cframe := mkCFrame (cf_refs f) (cf_file f) (cf_dir f) (cf_pend f) (cf_new f) l.

(** The kernel's account: lookups it was sent and did not give back, with the
    generation it was last told. *)
Abbreviation account := (gmap Z (option Z * Z)).

Definition b2z (b : bool) : Z := if b then 1 else 0.
Definition occ (κ : nat) (l : list nat) : Z := Z.of_nat (length (filter (λ k, k = κ) l)).
Definition tok_count (i : Z) (l : list token) : Z := foldr (λ t n, (if decide (t.1.1 = i) then t.2 else 0) + n) 0 l.
Definition held_of (i : Z) (L : account) : Z := match L !! i with Some (_, c) => c | None => 0 end.
Definition tok_ok (t : token) : Prop := 0 ≤ t.2 ∧ (is_Some t.1.2 → 1 ≤ t.2).

Lemma occ_cons κ k l : occ κ (k :: l) = b2z (bool_decide (k = κ)) + occ κ l.
Proof.
  unfold occ. case_bool_decide.
  - rewrite filter_cons_True by done. simpl. lia.
  - by rewrite filter_cons_False.
Qed.

Lemma occ_nonneg κ l : 0 ≤ occ κ l.
Proof. unfold occ. lia. Qed.

Lemma tok_count_app i l1 l2 : tok_count i (l1 ++ l2) = tok_count i l1 + tok_count i l2.
Proof. induction l1 as [|t l1 IH]; simpl; lia. Qed.

Lemma tok_count_nonneg i l : Forall tok_ok l → 0 ≤ tok_count i l.
Proof. induction 1 as [|t l [Ht _] _ IH]; simpl; [lia|]. case_decide; lia. Qed.

Lemma tok_count_in i og c l : Forall tok_ok l → (i, og, c) ∈ l → c ≤ tok_count i l.
Proof.
  intros Hl. induction Hl as [|t l [Ht _] Hl IH]; [by intros ?%elem_of_nil|]. intros [<-|Hin]%elem_of_cons; simpl.
  - rewrite decide_True by done. pose proof (tok_count_nonneg i l Hl). lia.
  - specialize (IH Hin). case_decide; lia.
Qed.

(** Sums of what is counted for well-formed frames only. *)
Lemma sum_map_pos_in (g : cframe → Z) (F : gmap nat cframe) :
  (∀ k f, F !! k = Some f → 0 ≤ g f) → 0 ≤ sum_map g F ∧ ∀ k f, F !! k = Some f → g f ≤ sum_map g F.
Proof.
  induction F as [|k f F Hk IH] using map_ind; intros Hg.
  - rewrite sum_map_empty. split; [lia|]. intros k f. by rewrite lookup_empty.
  - rewrite sum_map_insert by done. pose proof (Hg k f (lookup_insert_eq _ _ _)).
    destruct IH as [Hnn Hin].
    { intros k' f' Hf'. apply (Hg k' f'). rewrite lookup_insert_ne; [done|]. congruence. }
    split; [lia|]. intros k' f'. rewrite lookup_insert. case_decide; [intros [= <-]; lia|].
    intros Hf'. specialize (Hin k' f' Hf'). lia.
Qed.

(** ** The table's part *)
Section table.
Context {N H D S : Type} `{Libc}.
Implicit Types (rt : Runtime N H D S) (f : cframe) (F : gmap nat cframe) (L : account).

Abbreviation sh rt := (rt_shared rt).
Abbreviation tbl rt := (tbl_map (sh_table (rt_shared rt))).

Definition lookups_at (i : Z) (s : Shared N) : Z :=
  match tbl_map (sh_table s) !! i with Some x => slot_lookups x | None => 0 end.

Definition told (i g : Z) L F : Prop :=
  (∃ c, L !! i = Some (Some g, c)) ∨ ∃ k f c, F !! k = Some f ∧ (i, Some g, c) ∈ cf_toks f.

Definition owed_at (i : Z) f : Z := b2z (bool_decide (cf_pend f = Some i)).

Record TI F L (n : Z) rt : Prop := {
  ti_refs : ∀ κ, b2z (bool_decide (κ ∈ rt_fs_refs rt)) + sum_map (λ f, occ κ (cf_refs f)) F =
    b2z (bool_decide (is_Some (sh_refs (sh rt) !! κ)));
  ti_opens : ∀ i, handle_count i (rt_handles rt) + sum_map (owed_at i) F ≤ opens_at i (sh rt);
  ti_next : 1 ≤ next_fh (rt_handles rt) ∧ next_fh (rt_handles rt) + sum_map (λ f, b2z (cf_new f)) F ≤ n + 1;
  ti_held : ∀ i, held_of i L + sum_map (λ f, tok_count i (cf_toks f)) F ≤ lookups_at i (sh rt);
  ti_gens : ∀ i g, told i g L F → ∃ s, tbl rt !! i = Some s ∧ slot_generation s = g;
  ti_toks : ∀ k f, F !! k = Some f → Forall tok_ok (cf_toks f);
  ti_account : ∀ i og c, L !! i = Some (og, c) → 1 ≤ c;
}.

(** What is told of an inode is counted at it. *)
Lemma held_sum F L i :
  (∀ k f, F !! k = Some f → Forall tok_ok (cf_toks f)) → (∀ i og c, L !! i = Some (og, c) → 1 ≤ c) →
  0 ≤ held_of i L ∧ 0 ≤ sum_map (λ f, tok_count i (cf_toks f)) F.
Proof.
  intros Ht Ha. split.
  - unfold held_of. destruct (L !! i) as [[og c]|] eqn:Hi; [|done]. pose proof (Ha i og c Hi). lia.
  - apply sum_map_pos_in. intros k f Hf. by apply tok_count_nonneg, (Ht k).
Qed.

Lemma told_held F L i g :
  (∀ k f, F !! k = Some f → Forall tok_ok (cf_toks f)) → (∀ i og c, L !! i = Some (og, c) → 1 ≤ c) →
  told i g L F → 1 ≤ held_of i L + sum_map (λ f, tok_count i (cf_toks f)) F.
Proof.
  intros Ht Ha Htold. destruct (held_sum F L i Ht Ha) as [Hl Hs]. destruct Htold as [[c Hc]|(k & f & c & Hf & Hin)].
  - specialize (Ha i _ c Hc). unfold held_of in *. rewrite Hc in *. lia.
  - pose proof (Ht k f Hf) as Hok. pose proof (tok_count_in i _ c _ Hok Hin) as Hle.
    rewrite Forall_forall in Hok. destruct (Hok _ Hin) as [_ Hc]. specialize (Hc ltac:(by eexists)). simpl in Hc.
    destruct (sum_map_pos_in (λ f, tok_count i (cf_toks f)) F) as [_ Hin'].
    { intros k' f' Hf'. by apply tok_count_nonneg, (Ht k'). }
    specialize (Hin' k f Hf). simpl in *. lia.
Qed.

(** ** One step of the table *)
Lemma lookups_exec (op : table_op N) n issued s i :
  inv_but None n issued s → n + 2 < u64_max → (∀ k, op ≠ OpForget i k) → lookups_at i s ≤ lookups_at i (exec_op op s).
Proof.
  intros Hinv Hn Hop. unfold lookups_at. rewrite (lookup_exec op n issued) by done. unfold lookup_after.
  destruct (tbl_map (sh_table s) !! i) as [x|] eqn:Hs.
  - pose proof (slot_after_lookups op i s x Hop). unfold keep. destruct (droppable (slot_after op i s x)) eqn:Hd; [|done].
    apply droppable_true in Hd as (_ & ? & _). lia.
  - destruct op; try done. destruct (alloc _) as [[ino g] t]. case_decide; simpl; lia.
Qed.

Lemma lookups_forget n issued s i k :
  inv_but None n issued s → n + 2 < u64_max → 0 ≤ k → lookups_at i s - k ≤ lookups_at i (exec_op (OpForget i k) s).
Proof.
  intros Hinv Hn Hk. unfold lookups_at. rewrite (lookup_exec (OpForget i k) n issued) by done. unfold lookup_after.
  destruct (tbl_map (sh_table s) !! i) as [x|] eqn:Hs; [|lia].
  simpl. rewrite decide_True by done. unfold keep. destruct (droppable _) eqn:Hd; simpl; [|lia].
  apply droppable_true in Hd as (_ & Hd & _). simpl in Hd. lia.
Qed.

Lemma gens_exec (op : table_op N) n issued s i g x :
  inv_but None n issued s → n + 2 < u64_max → tbl_map (sh_table s) !! i = Some x → slot_generation x = g →
  1 ≤ lookups_at i (exec_op op s) →
  ∃ x', tbl_map (sh_table (exec_op op s)) !! i = Some x' ∧ slot_generation x' = g.
Proof.
  intros Hinv Hn Hx Hg. unfold lookups_at. rewrite (lookup_exec op n issued) by done. unfold lookup_after. rewrite Hx.
  unfold keep. destruct (droppable _); [lia|]. intros _. exists (slot_after op i s x). split; [done|].
  by rewrite slot_after_generation.
Qed.

(** A critical section that only reads, or a step elsewhere. *)
Lemma TI_counted F L n rt : TI F L n rt → TI F L n (with_shared (sh rt) rt).
Proof. by intros []. Qed.

(** ** A step of thread [k], with [F] the others *)
Context (k : nat).

(** What an operation has to show of the counters that the thread's frame
    takes part in. *)
Lemma TI_exec F f f' L n rt op fs' issued :
  F !! k = None → TI (<[k:=f]> F) L n rt → inv_but None n issued (sh rt) → n + 2 < u64_max →
  (∀ κ, b2z (bool_decide (κ ∈ fs')) + occ κ (cf_refs f') + b2z (bool_decide (is_Some (sh_refs (sh rt) !! κ))) =
    b2z (bool_decide (κ ∈ rt_fs_refs rt)) + occ κ (cf_refs f) + b2z (bool_decide (is_Some (sh_refs (exec_op op (sh rt)) !! κ)))) →
  (∀ i, owed_at i f' + opens_at i (sh rt) ≤ owed_at i f + opens_at i (exec_op op (sh rt))) →
  (∀ i, tok_count i (cf_toks f') + lookups_at i (sh rt) ≤ tok_count i (cf_toks f) + lookups_at i (exec_op op (sh rt))) →
  (∀ i g c, (i, Some g, c) ∈ cf_toks f' →
    (∃ c', (i, Some g, c') ∈ cf_toks f) ∨ ∃ s, tbl rt !! i = Some s ∧ slot_generation s = g) →
  Forall tok_ok (cf_toks f') →
  TI (<[k:=f']> F) L (n + 1) (with_fs_refs fs' (with_shared (exec_op op (sh rt)) rt)).
Proof.
  intros Hk HTI Hinv Hn Hrefs Hopens Hheld Hgens Hok.
  assert (∀ k' f1, <[k:=f']> F !! k' = Some f1 → Forall tok_ok (cf_toks f1)) as Htoks.
  { intros k' f1. rewrite lookup_insert. case_decide as Hkk; [by intros [= <-]|]. intros Hf1.
    apply (ti_toks _ _ _ _ HTI k'). by rewrite lookup_insert_ne. }
  assert (∀ i, held_of i L + sum_map (λ f, tok_count i (cf_toks f)) (<[k:=f']> F) ≤ lookups_at i (exec_op op (sh rt))) as Hheld'.
  { intros i. pose proof (ti_held _ _ _ _ HTI i) as Hi. specialize (Hheld i). rewrite sum_map_insert in * by done. lia. }
  split; simpl; try done.
  - intros κ. pose proof (ti_refs _ _ _ _ HTI κ) as Hκ. specialize (Hrefs κ). rewrite sum_map_insert in * by done. lia.
  - intros i. pose proof (ti_opens _ _ _ _ HTI i) as Hi. specialize (Hopens i). rewrite sum_map_insert in * by done. lia.
  - pose proof (ti_next _ _ _ _ HTI) as Hnext. rewrite sum_map_insert in * by done. unfold b2z in *. repeat case_match; lia.
  - intros i g Hg. assert (∃ s, tbl rt !! i = Some s ∧ slot_generation s = g) as (s & Hs & Hsg).
    { destruct Hg as [?|(k' & f1 & c & Hf1 & Hin)]; [by apply (ti_gens _ _ _ _ HTI); left|].
      rewrite lookup_insert in Hf1. case_decide as Hkk; simplify_eq.
      - destruct (Hgens i g c Hin) as [[c' Hin']|?]; [|done]. apply (ti_gens _ _ _ _ HTI). right.
        exists k', f, c'. by rewrite lookup_insert_eq.
      - apply (ti_gens _ _ _ _ HTI). right. exists k', f1, c. by rewrite lookup_insert_ne. }
    apply (gens_exec op n issued _ i g s); [done..|]. specialize (Hheld' i).
    pose proof (told_held _ L i g Htoks (ti_account _ _ _ _ HTI) Hg). lia.
  - apply (ti_account _ _ _ _ HTI).
Qed.

Lemma frame_toks F f L n rt : TI (<[k:=f]> F) L n rt → Forall tok_ok (cf_toks f).
Proof. intros HTI. apply (ti_toks _ _ _ _ HTI k), lookup_insert_eq. Qed.

(** The frame stays, or changes only in its references. *)
Lemma TI_neutral F f L n rt op issued :
  F !! k = None → neutral op → TI (<[k:=f]> F) L n rt → inv_but None n issued (sh rt) → n + 2 < u64_max →
  TI (<[k:=f]> F) L (n + 1) (with_shared (exec_op op (sh rt)) rt).
Proof.
  intros Hk Hop HTI Hinv Hn. destruct (neutral_spec op Hop) as (Hf & Hr & _ & Hrefs).
  apply (TI_exec F f f L n rt op (rt_fs_refs rt) issued); try done.
  - intros κ. rewrite Hrefs. lia.
  - intros i. pose proof (opens_exec op n issued (sh rt) i Hinv Hn (Hr i)). lia.
  - intros i. pose proof (lookups_exec op n issued (sh rt) i Hinv Hn (Hf i)). lia.
  - intros i g c ?. left. by exists c.
  - by eapply frame_toks.
Qed.

Lemma TI_refs F f f' L n rt op fs' issued :
  F !! k = None → TI (<[k:=f]> F) L n rt → inv_but None n issued (sh rt) → n + 2 < u64_max →
  (∃ id, op = OpGet id) ∨ (∃ κ, op = OpDropRef κ) → cf_pend f' = cf_pend f → cf_toks f' = cf_toks f →
  (∀ κ, b2z (bool_decide (κ ∈ fs')) + occ κ (cf_refs f') + b2z (bool_decide (is_Some (sh_refs (sh rt) !! κ))) =
    b2z (bool_decide (κ ∈ rt_fs_refs rt)) + occ κ (cf_refs f) + b2z (bool_decide (is_Some (sh_refs (exec_op op (sh rt)) !! κ)))) →
  TI (<[k:=f']> F) L (n + 1) (with_fs_refs fs' (with_shared (exec_op op (sh rt)) rt)).
Proof.
  intros Hk HTI Hinv Hn Hop Hp Ht Hrefs. apply (TI_exec F f f' L n rt op fs' issued); try done.
  - intros i. pose proof (opens_exec op n issued (sh rt) i Hinv Hn) as Ho. unfold owed_at. rewrite Hp.
    destruct Hop as [[? ->]|[? ->]]; specialize (Ho ltac:(done)); lia.
  - intros i. pose proof (lookups_exec op n issued (sh rt) i Hinv Hn) as Ho. rewrite Ht.
    destruct Hop as [[? ->]|[? ->]]; specialize (Ho ltac:(done)); lia.
  - intros i g c ?. left. exists c. by rewrite <- Ht.
  - rewrite Ht. by eapply frame_toks.
Qed.

Lemma TI_get F f L n rt id l issued :
  F !! k = None → (cx_get id (sh rt)).1 = Returned (Some l) → TI (<[k:=f]> F) L n rt →
  inv_but None n issued (sh rt) → n + 2 < u64_max →
  TI (<[k:=hold_ref (lr_key l) f]> F) L (n + 1) (with_shared (exec_op (OpGet id) (sh rt)) rt) ∧
  TI (<[k:=f]> F) L (n + 1) (with_fs_refs (lr_key l :: rt_fs_refs rt) (with_shared (exec_op (OpGet id) (sh rt)) rt)).
Proof.
  intros Hk Hget HTI Hinv Hn. destruct (exec_refs (OpGet id) (sh rt) l Hget) as [Hkey Hrefs].
  assert (sh_refs (sh rt) !! lr_key l = None) as Hfresh.
  { destruct (sh_refs (sh rt) !! lr_key l) as [r|] eqn:Hr; [|done].
    destruct (inv_refs _ _ _ _ Hinv _ _ Hr) as [? _]. lia. }
  assert (lr_key l ∉ rt_fs_refs rt) as Hnf.
  { intros Hin. pose proof (ti_refs _ _ _ _ HTI (lr_key l)) as Href. rewrite Hfresh, bool_decide_eq_true_2 in Href by done.
    rewrite bool_decide_eq_false_2 in Href by (by intros []). simpl in Href.
    pose proof (sum_map_nonneg (λ f, occ (lr_key l) (cf_refs f)) (<[k:=f]> F) (λ f, occ_nonneg _ _)). lia. }
  assert (∀ κ, b2z (bool_decide (is_Some (sh_refs (exec_op (OpGet id) (sh rt)) !! κ))) =
    b2z (bool_decide (lr_key l = κ)) + b2z (bool_decide (is_Some (sh_refs (sh rt) !! κ)))) as Hins.
  { intros κ. rewrite Hrefs, lookup_insert. case_decide as Hκ.
    - subst κ. rewrite Hfresh, !bool_decide_eq_true_2, bool_decide_eq_false_2 by (by eexists || by intros []). done.
    - by rewrite (bool_decide_eq_false_2 (lr_key l = κ)). }
  split.
  - apply (TI_refs F f _ L n rt (OpGet id) (rt_fs_refs rt) issued); try done; [by left; eexists|].
    intros κ. rewrite Hins. simpl. rewrite occ_cons. lia.
  - apply (TI_refs F f _ L n rt (OpGet id) _ issued); try done; [by left; eexists|].
    intros κ. rewrite Hins. assert (b2z (bool_decide (κ ∈ lr_key l :: rt_fs_refs rt)) =
      b2z (bool_decide (lr_key l = κ)) + b2z (bool_decide (κ ∈ rt_fs_refs rt))) as ->; [|lia].
    unfold b2z. repeat case_bool_decide; set_solver.
Qed.

Lemma dropped_refs κ κ' rt :
  b2z (bool_decide (is_Some (sh_refs (exec_op (OpDropRef κ) (sh rt)) !! κ'))) =
    if decide (κ = κ') then 0 else b2z (bool_decide (is_Some (sh_refs (sh rt) !! κ'))).
Proof.
  rewrite (exec_refs (OpDropRef κ) (sh rt)), lookup_delete. case_decide; [|done].
  by rewrite bool_decide_eq_false_2 by (by intros []).
Qed.

(** A key that the frame, or the filesystem, holds is held by nobody else. *)
Lemma held_key F f L n rt κ :
  F !! k = None → TI (<[k:=f]> F) L n rt →
  b2z (bool_decide (κ ∈ rt_fs_refs rt)) + occ κ (cf_refs f) ≤ b2z (bool_decide (is_Some (sh_refs (sh rt) !! κ))).
Proof.
  intros Hk HTI. pose proof (ti_refs _ _ _ _ HTI κ) as Href. rewrite sum_map_insert in Href by done.
  pose proof (sum_map_nonneg (λ f, occ κ (cf_refs f)) F (λ f, occ_nonneg _ _)). lia.
Qed.

Lemma TI_drop F f L n rt κ issued :
  F !! k = None → TI (<[k:=hold_ref κ f]> F) L n rt → inv_but None n issued (sh rt) → n + 2 < u64_max →
  TI (<[k:=f]> F) L (n + 1) (with_shared (exec_op (OpDropRef κ) (sh rt)) rt).
Proof.
  intros Hk HTI Hinv Hn. apply (TI_refs F (hold_ref κ f) f L n rt (OpDropRef κ) (rt_fs_refs rt) issued); try done;
    [by right; eexists|].
  intros κ'. rewrite dropped_refs. simpl. rewrite occ_cons.
  pose proof (held_key F _ L n rt κ Hk HTI) as Hh. simpl in Hh. rewrite occ_cons, (bool_decide_eq_true_2 (κ = κ)) in Hh by done.
  destruct (decide (κ = κ')) as [<-|Hne]; [|by rewrite (bool_decide_eq_false_2 (κ = κ'))].
  rewrite (bool_decide_eq_true_2 (κ = κ)) by done. pose proof (occ_nonneg κ (cf_refs f)). unfold b2z in *. repeat case_bool_decide; lia.
Qed.

Lemma TI_fs_drop F f L n rt κ issued :
  F !! k = None → TI (<[k:=f]> F) L n rt → κ ∈ rt_fs_refs rt → inv_but None n issued (sh rt) → n + 2 < u64_max →
  TI (<[k:=f]> F) L (n + 1)
    (with_fs_refs (filter (λ j, j ≠ κ) (rt_fs_refs rt)) (with_shared (exec_op (OpDropRef κ) (sh rt)) rt)).
Proof.
  intros Hk HTI Hin Hinv Hn. apply (TI_refs F f f L n rt (OpDropRef κ) _ issued); try done; [by right; eexists|].
  intros κ'. rewrite dropped_refs. pose proof (held_key F _ L n rt κ Hk HTI) as Hh.
  rewrite (bool_decide_eq_true_2 (κ ∈ _)) in Hh by done.
  destruct (decide (κ = κ')) as [<-|Hne].
  - rewrite (bool_decide_eq_true_2 (κ ∈ rt_fs_refs rt)), (bool_decide_eq_false_2 (κ ∈ filter _ _)) by (done || (rewrite list_elem_of_filter; tauto)).
    pose proof (occ_nonneg κ (cf_refs f)). unfold b2z in *. case_bool_decide; lia.
  - assert (bool_decide (κ' ∈ filter (λ j, j ≠ κ) (rt_fs_refs rt)) = bool_decide (κ' ∈ rt_fs_refs rt)) as ->; [|lia].
    apply bool_decide_ext. rewrite list_elem_of_filter. naive_solver.
Qed.

(** A lookup is counted for the thread; [og] is the generation if it was read. *)
Lemma TI_lookup F f L n rt i s og issued :
  F !! k = None → TI (<[k:=f]> F) L n rt → inv_but None n issued (sh rt) → n + 2 < u64_max →
  tbl rt !! i = Some s → slot_lookups s + 1 ≤ u64_max → (∀ g, og = Some g → slot_generation s = g) →
  TI (<[k:=with_toks ((i, og, 1) :: cf_toks f) f]> F) L (n + 1) (with_shared (exec_op (OpLookup i) (sh rt)) rt).
Proof.
  intros Hk HTI Hinv Hn Hs Hmax Hog. pose proof (frame_toks _ _ _ _ _ HTI) as Htoks.
  apply (TI_exec F f _ L n rt (OpLookup i) (rt_fs_refs rt) issued); try done; simpl.
  - intros κ. rewrite (exec_refs (OpLookup i) (sh rt)). simpl. lia.
  - intros j. pose proof (opens_exec (OpLookup i) n issued (sh rt) j Hinv Hn ltac:(done)). unfold owed_at. simpl. lia.
  - intros j. pose proof (lookups_exec (OpLookup i) n issued (sh rt) j Hinv Hn ltac:(done)).
    case_decide as Hij; [subst j|lia]. unfold lookups_at in *. rewrite (lookup_exec (OpLookup i) n issued) by done.
    unfold lookup_after. rewrite Hs. simpl. rewrite decide_True by done. unfold bump. rewrite decide_True by done.
    pose proof (slot_bounds_of _ _ _ _ _ Hinv Hs) as (_ & Hb & _).
    rewrite keep_counted by (right; left; simpl; int_lia). simpl. lia.
  - intros j g c [Heq|Hin]%elem_of_cons; [|left; by exists c]. simplify_eq. right. exists s. auto.
  - apply Forall_cons. split; [split; simpl; [lia|intros _; lia]|done].
Qed.

Lemma tok_count_perm i l l' : l ≡ₚ l' → tok_count i l = tok_count i l'.
Proof. induction 1; simpl; lia. Qed.

Lemma TI_forget F f L n rt i og c l issued :
  F !! k = None → cf_toks f ≡ₚ (i, og, c) :: l → TI (<[k:=f]> F) L n rt → inv_but None n issued (sh rt) → n + 2 < u64_max →
  TI (<[k:=with_toks l f]> F) L (n + 1) (with_shared (exec_op (OpForget i c) (sh rt)) rt).
Proof.
  intros Hk Hl HTI Hinv Hn. pose proof (frame_toks _ _ _ _ _ HTI) as Htoks. rewrite Hl in Htoks.
  apply Forall_cons in Htoks as [[Hc _] Htoks]. simpl in Hc.
  apply (TI_exec F f _ L n rt (OpForget i c) (rt_fs_refs rt) issued); try done; simpl.
  - intros j. pose proof (opens_exec (OpForget i c) n issued (sh rt) j Hinv Hn ltac:(done)). unfold owed_at. simpl. lia.
  - intros j. rewrite (tok_count_perm j _ _ Hl). simpl. case_decide as Hij; [subst j|].
    + pose proof (lookups_forget n issued (sh rt) i c Hinv Hn Hc). lia.
    + pose proof (lookups_exec (OpForget i c) n issued (sh rt) j Hinv Hn ltac:(congruence)). lia.
  - intros j g c' Hin. left. exists c'. rewrite Hl. by apply elem_of_cons; right.
Qed.

Lemma TI_add_open F f L n rt i s issued :
  F !! k = None → cf_pend f = None → TI (<[k:=f]> F) L n rt → inv_but None n issued (sh rt) → n + 2 < u64_max →
  tbl rt !! i = Some s → slot_opens s + 1 ≤ u32_max →
  TI (<[k:=owes (Some i) true f]> F) L (n + 1) (with_shared (exec_op (OpAddOpen i) (sh rt)) rt).
Proof.
  intros Hk Hp HTI Hinv Hn Hs Hmax. pose proof (frame_toks _ _ _ _ _ HTI) as Htoks.
  apply (TI_exec F f _ L n rt (OpAddOpen i) (rt_fs_refs rt) issued); try done; simpl.
  - intros κ. rewrite (exec_refs (OpAddOpen i) (sh rt)). simpl. lia.
  - intros j. pose proof (opens_exec (OpAddOpen i) n issued (sh rt) j Hinv Hn ltac:(done)).
    unfold owed_at. simpl. rewrite Hp, (bool_decide_eq_false_2 (None = Some j)) by done.
    case_bool_decide as Hij; simpl; [simplify_eq|lia]. unfold opens_at in *. rewrite (lookup_exec (OpAddOpen j) n issued) by done.
    unfold lookup_after. rewrite Hs. simpl. rewrite decide_True by done. unfold bump. rewrite decide_True by done.
    pose proof (slot_bounds_of _ _ _ _ _ Hinv Hs) as (_ & _ & Hb & _).
    rewrite keep_counted by (right; right; left; simpl; int_lia). simpl. lia.
  - intros j. pose proof (lookups_exec (OpAddOpen i) n issued (sh rt) j Hinv Hn ltac:(done)). lia.
  - intros j g c ?. left. by exists c.
Qed.

Lemma TI_remove_open F f L n rt i issued :
  F !! k = None → cf_pend f = Some i → TI (<[k:=f]> F) L n rt → inv_but None n issued (sh rt) → n + 2 < u64_max →
  TI (<[k:=owes None false f]> F) L (n + 1) (with_shared (exec_op (OpRemoveOpen i) (sh rt)) rt).
Proof.
  intros Hk Hp HTI Hinv Hn. pose proof (frame_toks _ _ _ _ _ HTI) as Htoks.
  apply (TI_exec F f _ L n rt (OpRemoveOpen i) (rt_fs_refs rt) issued); try done; simpl.
  - intros j. unfold owed_at. simpl. rewrite Hp.
    destruct (decide (i = j)) as [->|Hij].
    + rewrite bool_decide_eq_true_2 by done. pose proof (opens_remove n issued (sh rt) j Hinv Hn). simpl. lia.
    + rewrite bool_decide_eq_false_2 by congruence.
      pose proof (opens_exec (OpRemoveOpen i) n issued (sh rt) j Hinv Hn ltac:(congruence)). simpl. lia.
  - intros j. pose proof (lookups_exec (OpRemoveOpen i) n issued (sh rt) j Hinv Hn ltac:(done)). lia.
  - intros j g c ?. left. by exists c.
Qed.
End table.

(** ** The whole invariant *)

(** The threads at a handle number, and where they stand. *)
Definition here (fh : Z) (x : option (Z * pc)) : option pc :=
  match x with Some (fh', p) => if decide (fh' = fh) then Some p else None | None => None end.
Definition threads_at (sel : cframe → option (Z * pc)) (F : gmap nat cframe) (fh : Z) : gmap nat pc :=
  omap (λ f, here fh (sel f)) F.

Lemma threads_insert sel F k f fh :
  threads_at sel (<[k:=f]> F) fh = partial_alter (λ _, here fh (sel f)) k (threads_at sel F fh).
Proof.
  apply map_eq. intros j. unfold threads_at. rewrite lookup_omap, lookup_insert. destruct (decide (k = j)) as [<-|Hne].
  - rewrite lookup_partial_alter_eq. done.
  - rewrite lookup_partial_alter_ne by done. by rewrite lookup_omap.
Qed.

Lemma threads_same sel F k f f' fh : sel f = sel f' → threads_at sel (<[k:=f]> F) fh = threads_at sel (<[k:=f']> F) fh.
Proof. intros Heq. by rewrite !threads_insert, Heq. Qed.

Lemma threads_move sel F k f f' fh :
  (∀ fh', fh' ≠ fh → here fh' (sel f) = here fh' (sel f')) →
  moved (threads_at sel (<[k:=f]> F)) fh k (here fh (sel f')) (threads_at sel (<[k:=f']> F)).
Proof.
  intros Hother. split.
  - rewrite !threads_insert. by rewrite partial_alter_partial_alter_eq.
  - intros fh' Hne. rewrite !threads_insert. by rewrite Hother.
Qed.

Lemma threads_thread sel F k f fh : threads_at sel (<[k:=f]> F) fh !! k = here fh (sel f).
Proof. by rewrite threads_insert, lookup_partial_alter_eq. Qed.

(** A critical section is at most one operation of the table. *)
Definition one_op {N} (ops : list (table_op N)) : Prop := Forall op_wf ops ∧ (length ops ≤ 1)%nat.

Lemma one_op_nil {N} : one_op (N := N) [].
Proof. split; [done|simpl; lia]. Qed.
Lemma one_op_cons {N} (op : table_op N) : op_wf op → one_op [op].
Proof. intros Hop. split; [by constructor|done]. Qed.

#[export] Hint Resolve one_op_nil one_op_cons : core.

Section whole.
Context {N H D S : Type} `{Libc} {K : Type}.
Implicit Types (f : cframe) (F : gmap nat cframe) (L : account).
Abbreviation CW := (World N H D S (K * Arcs H D)).

Record CI F L (n : Z) (rt : Runtime N H D S) (a : Arcs H D) : Prop := {
  ci_table : TI F L n rt;
  ci_files : records_ok (next_fh (rt_handles rt)) (files (rt_handles rt), arc_files a) (threads_at cf_file F);
  ci_dirs : records_ok (next_fh (rt_handles rt)) (dirs (rt_handles rt), arc_dirs a) (threads_at cf_dir F);
  ci_one : ∀ k f, F !! k = Some f → cf_file f = None ∨ cf_dir f = None;
}.

Definition CIW F L n (w : CW) : Prop := CI F L n (w_rt w) (w_sink w).2.

(** Thread [k] waits at a record that another thread leases. *)
Definition waits (sel : cframe → option (Z * pc)) f F : Prop :=
  ∃ fh k' f', sel f = Some (fh, Woken) ∧ F !! k' = Some f' ∧ sel f' = Some (fh, Leasing).

(** [cstep k f act Q]: thread [k] with frame [f] can take the step [act] in any
    company, and has a frame that satisfies [Q] then.  It may stand still if
    [hang] of the filesystem's state, or to wait for a lease of another thread. *)
Definition cstep (hang : S → Prop) {A} (k : nat) f (act : M CW A) (Q : option A → cframe → Prop) : Prop :=
  ∀ w, ∃ ops, one_op ops ∧ made ops w (act w).2 ∧
    ∀ F L n issued, F !! k = None → inv_but None n issued (sh_of w) → n + Z.of_nat (length ops) + 2 ≤ u64_max →
      CIW (<[k:=f]> F) L n w →
      match act w with
      | (Returned b, w') => ∃ f', Q (Some b) f' ∧ CIW (<[k:=f']> F) L (n + Z.of_nat (length ops)) w'
      | (Panicked, w') => ∃ f', Q None f' ∧ CIW (<[k:=f']> F) L (n + Z.of_nat (length ops)) w'
      | (Blocked, _) => hang (rt_fs (w_rt w)) ∨ waits cf_file f F ∨ waits cf_dir f F
      end.

End whole.

(** A whole thread. *)
Abbreviation safe hang k := (follows (λ B, cstep hang k (A := B))).

Section logic.
Context {N H D S : Type} `{Libc} {K : Type} (hang : S → Prop) (k : nat).
Implicit Types (f : cframe).
Abbreviation CW := (World N H D S (K * Arcs H D)).

Lemma safe_mono {A} (t : thr CW A) f (Post Post' : option A → cframe → Prop) :
  safe hang k t f Post → (∀ r f', Post r f' → Post' r f') → safe hang k t f Post'.
Proof. apply follows_mono. Qed.
Lemma safe_then {A B} (t : thr CW A) (g : option A → thr CW B) f Post :
  safe hang k t f (λ r f', safe hang k (g r) f' Post) → safe hang k (thr_then t g) f Post.
Proof. apply follows_then. Qed.
Lemma safe_bind {A B} (t : thr CW A) (g : A → thr CW B) f Post :
  safe hang k t f (λ r f', match r with Some a => safe hang k (g a) f' Post | None => Post None f' end) →
  safe hang k (t ≫= g) f Post.
Proof. apply follows_bind. Qed.

Lemma safe_try {A B} (t : thr CW (Result Errno A)) (g : A → thr CW (Result Errno B)) f Post :
  safe hang k t f (λ r f', match r with
    | Some (Ok a) => safe hang k (g a) f' Post
    | Some (Err e) => Post (Some (Err e)) f'
    | None => Post None f'
    end) → safe hang k (thr_try t g) f Post.
Proof. intros Ht. apply safe_bind. eapply safe_mono; [exact Ht|]. by intros [[a|e]|]. Qed.

Lemma safe_finally {A} (t : thr CW A) fin f (Post : option A → cframe → Prop) :
  safe hang k t f (λ r f', safe hang k fin f' (λ r' f'', is_Some r' ∧ Post r f'')) →
  safe hang k (thr_finally t fin) f Post.
Proof. apply follows_finally. Qed.
Lemma safe_step {A} (act : M CW A) f Q : cstep hang k f act Q → safe hang k (step act) f Q.
Proof. apply (follows_step (λ B, cstep hang k (A := B))). Qed.

Lemma cstep_mono {A} (act : M CW A) f (Q Q' : option A → cframe → Prop) :
  cstep hang k f act Q → (∀ r f', Q r f' → Q' r f') → cstep hang k f act Q'.
Proof.
  intros Hact HQ w. destruct (Hact w) as (ops & ? & ? & Hs). exists ops. split_and!; [done..|].
  intros F L n issued Hk Hinv Hn HCI. specialize (Hs F L n issued Hk Hinv Hn HCI).
  destruct (act w) as [[b| |] w']; [..|done]; destruct Hs as (f' & ? & ?); exists f'; auto.
Qed.
End logic.
