(* ===== verification/ConcurrentSteps.v ===== *)
(** * The steps of a thread keep the invariant

    Each critical section that occurs in a thread, in any company: what it asks
    of the thread's frame and what it makes of it. *)

From S2P Require Import Prelude Types NodeTable NodeTableInv HandleRec NodeFs Runtime RuntimeInv RuntimeSpec Threads ThreadLogic ArcInv Concurrent.

#[local] Arguments exec_op : simpl never.

Lemma some_and {A} (a : A) (P : Prop) : P → is_Some (Some a) ∧ P.
Proof. intros HP. split; [by exists a|done]. Qed.

Section steps.
Context {N H D S : Type} `{Libc} {K : Type} (hang : S → Prop) (k : nat).
Implicit Types (f : cframe) (F : gmap nat cframe) (L : account).
Abbreviation CW := (World N H D S (K * Arcs H D)).

Definition same_places f f' : Prop := cf_file f' = cf_file f ∧ cf_dir f' = cf_dir f.

Lemma CI_places F f f' L n n' (rt rt' : Runtime N H D S) (a : Arcs H D) :
  F !! k = None → CI (<[k:=f]> F) L n rt a → same_places f f' → rt_handles rt' = rt_handles rt →
  TI (<[k:=f']> F) L n' rt' → CI (<[k:=f']> F) L n' rt' a.
Proof.
  intros Hk [] [Hf Hd] Hh HTI. split; [done|..].
  - rewrite Hh. destruct ci_files as [Hub Hok]. split; [done|]. intros fh.
    rewrite (threads_same cf_file F k f' f fh Hf). apply Hok.
  - rewrite Hh. destruct ci_dirs as [Hub Hok]. split; [done|]. intros fh.
    rewrite (threads_same cf_dir F k f' f fh Hd). apply Hok.
  - intros k' f1. rewrite lookup_insert. case_decide as Hkk.
    + intros [= <-]. rewrite Hf, Hd. apply (ci_one k' f). by subst; rewrite lookup_insert_eq.
    + intros Hf1. apply (ci_one k' f1). by rewrite lookup_insert_ne.
Qed.

Lemma CI_counted F L n (rt : Runtime N H D S) (a : Arcs H D) : CI F L n rt a → CI F L n (with_shared (rt_shared rt) rt) a.
Proof. intros []. split; try done. by apply TI_counted. Qed.

(** ** Steps that change nothing the invariant speaks of *)
Lemma cstep_local {A} (act : M CW A) f (Q : option A → cframe → Prop) :
  (∀ w, made [] w (act w).2) → (∀ w F L n, CIW F L n w → CIW F L n (act w).2) →
  (∀ w, match (act w).1 with Returned a => Q (Some a) f | Panicked => Q None f | Blocked => False end) →
  cstep hang k f act Q.
Proof.
  intros Hmade HCI HQ w. exists []. split_and!; [done|apply Hmade|]. intros F L n issued Hk _ _ Hci. simpl.
  rewrite Z.add_0_r. specialize (HCI w _ _ _ Hci). specialize (HQ w).
  destruct (act w) as [[b| |] w']; simpl in *; [by exists f..|done].
Qed.

Lemma cstep_read {A} (g : Shared N → A) f : cstep hang k f (on_shared (gets g) : M CW A) (λ r f', is_Some r ∧ f' = f).
Proof.
  apply cstep_local.
  - intros w. split; [done|]. unfold steps_of. simpl. lia.
  - intros w F L n Hci. by apply CI_counted.
  - intros w. by apply some_and.
Qed.

(** ** One operation of the table *)
Lemma cstep_shared {A} (m : M (Shared N) A) op f (Q : option A → cframe → Prop) :
  op_wf op → (∀ s, (m s).2 = exec_op op s) → (∀ s, (m s).1 ≠ Blocked) →
  (∀ F L n issued (rt : Runtime N H D S), F !! k = None → TI (<[k:=f]> F) L n rt → inv_but None n issued (rt_shared rt) →
     n + 2 < u64_max → ∃ f', Q (match (m (rt_shared rt)).1 with Returned a => Some a | _ => None end) f' ∧
       same_places f f' ∧ TI (<[k:=f']> F) L (n + 1) (with_shared (exec_op op (rt_shared rt)) rt)) →
  cstep hang k f (on_shared m : M CW A) Q.
Proof.
  intros Hwf Hexec Hnb HQ w. exists [op]. split_and!; [by apply one_op_cons| |].
  - split; [change (run_ops [op] (sh_of w)) with (exec_op op (sh_of w)); rewrite <- Hexec|];
      unfold on_shared, zoom; fold (sh_of w); by destruct (m (sh_of w)).
  - intros F L n issued Hk Hinv Hn Hci. specialize (Hnb (sh_of w)).
    destruct (HQ F L n issued (w_rt w) Hk (ci_table _ _ _ _ _ Hci) Hinv ltac:(simpl in Hn; lia)) as (f' & HQf & Hpl & HTI).
    assert (CI (<[k:=f']> F) L (n + 1) (with_shared (exec_op op (rt_shared (w_rt w))) (w_rt w)) (w_sink w).2) as Hci'
      by (by apply (CI_places F f f' L n (n + 1) (w_rt w))).
    unfold on_shared, zoom. fold (sh_of w). fold (sh_of w) in HQf. fold (sh_of w) in Hci'. rewrite <- Hexec in Hci'.
    destruct (m (sh_of w)) as [[a| |] s']; simpl in *; [by exists f'..|done].
Qed.

Lemma cstep_neutral {A} (m : M (Shared N) A) op f :
  neutral op → (∀ s, (m s).2 = exec_op op s) → (∀ s, (m s).1 ≠ Blocked) → cstep hang k f (on_shared m : M CW A) (λ _ f', f' = f).
Proof.
  intros Hop Hexec Hnb. apply cstep_shared with op; [by apply neutral_spec|done..|].
  intros F L n issued rt Hk HTI Hinv Hn. exists f. split_and!; [done|done|]. by apply (TI_neutral k F f L n rt op issued).
Qed.

Lemma get_unchanged F L n id (rt : Runtime N H D S) :
  (∀ l, (cx_get id (rt_shared rt)).1 ≠ Returned (Some l)) → TI F L n rt →
  TI F L (n + 1) (with_shared (exec_op (OpGet id) (rt_shared rt)) rt).
Proof.
  intros Hl HTI. unfold exec_op. rewrite cx_get_fails by done. destruct HTI. split; simpl in *; try done. lia.
Qed.

(** [Runtime::node]. *)
Lemma cstep_node f ino : cstep hang k f (node ino : M CW _) (λ r f',
  match r with Some (Ok l) => f' = hold_ref (lr_key l) f | _ => f' = f end).
Proof.
  assert (cstep hang k f (on_shared (cx_get ino) : M CW _) (λ r f',
    match r with Some (Some l) => f' = hold_ref (lr_key l) f | _ => f' = f end)) as Hget.
  { apply cstep_shared with (OpGet ino); [done|done| |].
    { intros s. unfold cx_get. by repeat case_match. }
    intros F L n issued rt Hk HTI Hinv Hn.
    destruct (cx_get ino (rt_shared rt)).1 as [[l|]| |] eqn:Hl.
    - exists (hold_ref (lr_key l) f). split_and!; [done|done|]. exact (proj1 (TI_get k F f L n rt ino l issued Hk Hl HTI Hinv Hn)).
    - exists f. split_and!; [done|done|]. apply get_unchanged; [|done]. intros l. by rewrite Hl.
    - exists f. split_and!; [done|done|]. apply get_unchanged; [|done]. intros l. by rewrite Hl.
    - exists f. split_and!; [done|done|]. apply get_unchanged; [|done]. intros l. by rewrite Hl. }
  intros w. destruct (Hget w) as (ops & ? & Hm & Hs). exists ops. unfold node, mbind, M_bind.
  destruct (on_shared (cx_get ino) w) as [[[l|]| |] w'] eqn:Hw; simpl in *; (split_and!; [done..|]);
    intros F L n issued Hk Hinv Hn Hci; exact (Hs F L n issued Hk Hinv Hn Hci).
Qed.

Lemma cstep_drop_ref f κ : cstep hang k (hold_ref κ f) (on_shared (ref_drop κ) : M CW _) (λ r f', is_Some r ∧ f' = f).
Proof.
  apply cstep_shared with (OpDropRef κ); [done|done| |].
  { intros s. by rewrite ref_drop_returns. }
  intros F L n issued rt Hk HTI Hinv Hn. exists f. rewrite ref_drop_returns. split; [by apply some_and|split; [done|]].
  by apply (TI_drop k F f L n rt κ issued).
Qed.

(** ** The filesystem's own leases *)
Lemma cstep_fs_get f id : cstep hang k f (fs_get id : M CW _) (λ _ f', f' = f).
Proof.
  intros w. exists [OpGet id]. unfold fs_get, on_shared, on_rt, modify, zoom, mbind, M_bind, mret, M_ret. split_and!.
  - by apply one_op_cons.
  - split; [|unfold steps_of]; unfold sh_of; simpl; unfold exec_op;
      destruct (cx_get id (rt_shared (w_rt w))) as [[[l|]| |] s]; done.
  - intros F L n issued Hk Hinv Hn Hci. simpl in Hn. unfold sh_of in *.
    pose proof (get_unchanged (<[k:=f]> F) L n id (w_rt w)) as Hsame.
    pose proof (TI_get k F f L n (w_rt w) id) as Hget. unfold exec_op in Hsame, Hget.
    pose proof (ci_table _ _ _ _ _ Hci) as HTI.
    destruct (cx_get id (rt_shared (w_rt w))) as [[[l|]| |] s] eqn:Hl; simpl in *.
    + exists f. split; [done|]. apply (CI_places F f f L n _ (w_rt w)); try done.
      exact (proj2 (Hget l issued Hk eq_refl HTI Hinv ltac:(lia))).
    + exists f. split; [done|]. apply (CI_places F f f L n _ (w_rt w)); try done. by apply Hsame.
    + exists f. split; [done|]. apply (CI_places F f f L n _ (w_rt w)); try done. by apply Hsame.
    + unfold cx_get in Hl. by repeat case_match.
Qed.

Lemma cstep_fs_drop_ref f κ : cstep hang k f (fs_drop_ref κ : M CW _) (λ r f', is_Some r ∧ f' = f).
Proof.
  intros w. unfold fs_drop_ref. case_bool_decide as Hin; cycle 1.
  { exists []. split_and!; [done..|]. intros F L n issued _ _ _ Hci. rewrite Z.add_0_r. exists f. split; [by apply some_and|done]. }
  exists [OpDropRef κ]. unfold on_shared, on_rt, modify, zoom, mbind, M_bind. split_and!; [by apply one_op_cons| |].
  - split; [|unfold steps_of]; unfold sh_of; simpl; unfold exec_op;
      pose proof (ref_drop_returns κ (rt_shared (w_rt w))); by destruct (ref_drop κ (rt_shared (w_rt w))) as [[[]| |] s].
  - intros F L n issued Hk Hinv Hn Hci. simpl in Hn. unfold sh_of in *.
    pose proof (TI_fs_drop k F f L n (w_rt w) κ issued Hk (ci_table _ _ _ _ _ Hci) Hin Hinv ltac:(lia)) as HTI.
    unfold exec_op in HTI. pose proof (ref_drop_returns κ (rt_shared (w_rt w))) as Hr.
    destruct (ref_drop κ (rt_shared (w_rt w))) as [[[]| |] s]; simpl in *; [|done..].
    exists f. split; [by apply some_and|]. by apply (CI_places F f f L n _ (w_rt w)).
Qed.

(** ** Lookups *)
Lemma lookup_exec_same i (s : Shared N) (m : M (Shared N) (Result Errno unit)) : m = retain_lookup i → (m s).2 = exec_op (OpLookup i) s.
Proof. intros ->. apply retain_exec. Qed.

Lemma cstep_take_lookup f i : cstep hang k f (on_shared (take_lookup i) : M CW _) (λ r f',
  match r with Some (Ok g) => f' = with_toks ((i, Some g, 1) :: cf_toks f) f | _ => f' = f end).
Proof.
  apply cstep_shared with (OpLookup i); [done|done| |].
  { intros s. unfold take_lookup. by repeat case_match. }
  intros F L n issued rt Hk HTI Hinv Hn. pose proof (TI_neutral k F f L n rt (OpLookup i) issued Hk I HTI Hinv Hn) as Hsame.
  unfold take_lookup. destruct (tbl_map (sh_table (rt_shared rt)) !! i) as [s|] eqn:Hs; [|by exists f].
  destruct (checked_add u64_max (slot_lookups s) 1) as [c|] eqn:Hc; [|by exists f].
  apply checked_add_Some in Hc as [_ Hc]. eexists. split_and!; [done|done|].
  apply (TI_lookup k F f L n rt i s (Some (slot_generation s)) issued); try done. by intros g [= <-].
Qed.

Lemma cstep_retain_lookup f i : cstep hang k f (on_shared (retain_lookup i) : M CW _) (λ r f',
  match r with Some (Ok _) => f' = with_toks ((i, None, 1) :: cf_toks f) f | _ => f' = f end).
Proof.
  apply cstep_shared with (OpLookup i); [done|apply retain_exec| |].
  { intros s. unfold retain_lookup. by repeat case_match. }
  intros F L n issued rt Hk HTI Hinv Hn. pose proof (TI_neutral k F f L n rt (OpLookup i) issued Hk I HTI Hinv Hn) as Hsame.
  unfold retain_lookup. destruct (tbl_map (sh_table (rt_shared rt)) !! i) as [s|] eqn:Hs; [|by exists f].
  destruct (checked_add u64_max (slot_lookups s) 1) as [c|] eqn:Hc; [|by exists f].
  apply checked_add_Some in Hc as [_ Hc]. eexists. split_and!; [done|done|].
  by apply (TI_lookup k F f L n rt i s None issued).
Qed.

Lemma cstep_forget f i og c l : 0 ≤ c → cf_toks f ≡ₚ (i, og, c) :: l →
  cstep hang k f (on_shared (NodeTable.forget i c) : M CW _) (λ r f', is_Some r ∧ f' = with_toks l f).
Proof.
  intros Hc Hl. apply cstep_shared with (OpForget i c); [done..|].
  intros F L n issued rt Hk HTI Hinv Hn. exists (with_toks l f). split; [by apply some_and|split; [done|]].
  by apply (TI_forget k F f L n rt i og c l issued).
Qed.

(** ** Opens *)
Lemma cstep_add_open f i : cf_pend f = None →
  cstep hang k f (on_shared (add_open i) : M CW _) (λ r f',
    match r with Some (Ok _) => f' = owes (Some i) true f | _ => f' = f end).
Proof.
  intros Hp. apply cstep_shared with (OpAddOpen i); [done|done| |].
  { intros s. unfold add_open. by repeat case_match. }
  intros F L n issued rt Hk HTI Hinv Hn. pose proof (TI_neutral k F f L n rt (OpAddOpen i) issued Hk I HTI Hinv Hn) as Hsame.
  unfold add_open. destruct (tbl_map (sh_table (rt_shared rt)) !! i) as [s|] eqn:Hs; [|by exists f].
  destruct (checked_add u32_max (slot_opens s) 1) as [c|] eqn:Hc; [|by exists f].
  apply checked_add_Some in Hc as [_ Hc]. eexists. split_and!; [done|done|].
  by apply (TI_add_open k F f L n rt i s issued).
Qed.

Lemma cstep_remove_open f i : cf_pend f = Some i →
  cstep hang k f (on_shared (remove_open i) : M CW _) (λ r f', is_Some r ∧ f' = owes None false f).
Proof.
  intros Hp. apply cstep_shared with (OpRemoveOpen i); [done..|].
  intros F L n issued rt Hk HTI Hinv Hn. eexists. split; [by apply some_and|split; [done|]].
  by apply (TI_remove_open k F f L n rt i issued).
Qed.
End steps.

(** ** Handle records

    Files and directories alike: [tab] and [det] are the part of the world that
    holds the records of one kind, [sel] and [put] the place of the frame. *)
Section handle.
Context {N H D S : Type} `{Libc} {K : Type} (hang : S → Prop) (k : nat) {T : Type}.
Implicit Types (f : cframe) (F : gmap nat cframe) (L : account).
Abbreviation CW := (World N H D S (K * Arcs H D)).
Abbreviation Hs := (gmap Z (HandleRecord T) * Detached T)%type.

Definition same_nodes (t t' : gmap Z (HandleRecord T)) : Prop :=
  ∀ i, count_map (λ r, hr_node r = i) t = count_map (λ r, hr_node r = i) t'.

Lemma same_nodes_put fh st (hs : Hs) : same_nodes (put_state fh st hs).1 hs.1.
Proof.
  intros i. unfold put_state. destruct (hs.1 !! fh) as [r|] eqn:Hr; [|by destruct (dt_records hs.2 !! fh)].
  simpl. rewrite (count_map_update _ _ fh r) by done. simpl. case_decide; lia.
Qed.

Definition at_most (fh : Z) (x : option (Z * pc)) : Prop := match x with Some (fh', _) => fh' = fh | None => True end.

Lemma records_ext next (hs : Hs) (pcs pcs' : Z → gmap nat pc) :
  (∀ fh, pcs' fh = pcs fh) → records_ok next hs pcs → records_ok next hs pcs'.
Proof. intros Heq [Hub Hok]. split; [done|]. intros fh. by rewrite Heq. Qed.

(** What a thread may do to the records of one kind: from its place at [fh] to
    the place that [R] gives. *)
Definition record_step {A} (from : option (Z * pc)) (fh : Z) (m : M Hs A) (R : option A → option (Z * pc) → Prop) : Prop :=
  ∀ next (hs : Hs) pcs, records_ok next hs pcs → pcs fh !! k = here fh from →
  match m hs with
  | (Blocked, _) => from = Some (fh, Woken) ∧ ∃ k', pcs fh !! k' = Some Leasing
  | (o, hs') => ∃ x, R (match o with Returned a => Some a | _ => None end) x ∧ at_most fh x ∧ same_nodes hs'.1 hs.1 ∧
      ∀ pcs', moved pcs fh k (here fh x) pcs' → records_ok next hs' pcs'
  end.

Lemma here_eq fh p : here fh (Some (fh, p)) = Some p.
Proof. simpl. by rewrite decide_True. Qed.

Lemma clone_step fh : record_step None fh (clone_arc fh) (λ r x,
  match r with Some (Some _) => x = Some (fh, Cloned) | Some None => x = None | None => False end).
Proof.
  intros next hs pcs Hok Hk. pose proof (records_clone next hs pcs fh k Hok Hk) as Hc.
  unfold clone_arc in *. destruct (hs.1 !! fh) as [r|].
  - exists (Some (fh, Cloned)). split_and!; try done. by rewrite here_eq.
  - exists None. split_and!; try done. intros pcs' [Hfh Hother]. eapply records_ext; [|exact Hok].
    intros fh'. destruct (decide (fh' = fh)) as [->|]; [|auto]. rewrite Hfh. simpl in *.
    rewrite <- Hk. apply partial_alter_self.
Qed.

Lemma drop_step fh p : p = Leaving ∨ p = Cloned ∨ p = Removed →
  record_step (Some (fh, p)) fh (drop_arc fh) (λ r x, is_Some r ∧ x = None).
Proof.
  intros Hp next hs pcs Hok Hk. rewrite here_eq in Hk.
  destruct (records_drop next hs pcs fh k p Hok Hk Hp) as (hs' & -> & Htab & Hpcs).
  exists None. split_and!; try done. by rewrite Htab.
Qed.

Lemma acquire_step fh : record_step (Some (fh, Cloned)) fh (acquire_lease fh) (λ r x,
  match r with Some (Some _) => x = Some (fh, Leasing) | _ => x = Some (fh, Leaving) end).
Proof.
  intros next hs pcs Hok Hk. rewrite here_eq in Hk. pose proof (records_acquire next hs pcs fh k Hok Hk) as Hc.
  unfold acquire_lease in *. destruct (record_at fh hs) as [r|] eqn:Hr; cycle 1.
  { exists (Some (fh, Leaving)). split_and!; try done. by rewrite here_eq. }
  destruct (acquire (hr_state r)) as [[[]| |] st]; [| | |done].
  - exists (Some (fh, Leasing)). rewrite here_eq. split_and!; try done. apply same_nodes_put.
  - exists (Some (fh, Leaving)). rewrite here_eq. split_and!; try done. apply same_nodes_put.
  - exists (Some (fh, Leaving)). rewrite here_eq. split_and!; try done. apply same_nodes_put.
Qed.

Lemma on_record_nodes {A} fh (freed : A) m (hs : Hs) : same_nodes (on_record fh freed m hs).2.1 hs.1.
Proof.
  unfold on_record. destruct (record_at fh hs); [|done]. destruct (m (hr_state h)) as [o st]. apply same_nodes_put.
Qed.

Lemma end_step fh : record_step (Some (fh, Leasing)) fh (end_lease fh) (λ r x, is_Some r ∧ x = Some (fh, Leaving)).
Proof.
  intros next hs pcs Hok Hk. rewrite here_eq in Hk. pose proof (records_end_lease next hs pcs fh k Hok Hk) as Hc.
  unfold end_lease in *. pose proof (on_record_nodes fh false lease_drop (hs.1, deref fh hs.2)) as Hn.
  destruct (on_record _ _ _ _) as [[b| |] hs']; [|done..].
  exists (Some (fh, Leaving)). rewrite here_eq. by split_and!.
Qed.

Lemma begin_step fh : record_step (Some (fh, Removed)) fh (close_begin fh) (λ r x,
  match r with Some b => x = Some (fh, if b then Taking else Woken) | None => False end).
Proof.
  intros next hs pcs Hok Hk. rewrite here_eq in Hk. pose proof (records_begin next hs pcs fh k Hok Hk) as Hc.
  unfold close_begin in *. pose proof (on_record_nodes fh true (λ st, close_test (close_enter st)) hs) as Hn.
  destruct (on_record _ _ _ _) as [[b| |] hs']; [|done..].
  exists (Some (fh, if b then Taking else Woken)). rewrite here_eq. by split_and!.
Qed.

Lemma resume_step fh : record_step (Some (fh, Woken)) fh (close_resume fh) (λ r x, is_Some r ∧ x = Some (fh, Taking)).
Proof.
  intros next hs pcs Hok Hk. rewrite here_eq in Hk. pose proof (records_resume next hs pcs fh k Hok Hk) as Hc.
  unfold close_resume in *. pose proof (on_record_nodes fh true close_test hs) as Hn.
  destruct (on_record _ _ _ _) as [[[]| |] hs']; try (by split).
  exists (Some (fh, Taking)). rewrite here_eq. by split_and!.
Qed.

Lemma take_step fh : record_step (Some (fh, Taking)) fh (take_out fh) (λ r x, is_Some r ∧ x = Some (fh, Leaving)).
Proof.
  intros next hs pcs Hok Hk. rewrite here_eq in Hk. pose proof (records_take next hs pcs fh k Hok Hk) as Hc.
  unfold take_out in *. destruct (record_at fh hs) as [r|]; [|done].
  exists (Some (fh, Leaving)). rewrite here_eq. by split_and!.
Qed.

(** *** In the world *)
Context (tab : Runtime N H D S → gmap Z (HandleRecord T)) (set_tab : gmap Z (HandleRecord T) → Runtime N H D S → Runtime N H D S).
Context (det : Arcs H D → Detached T) (set_det : Detached T → Arcs H D → Arcs H D).
Context (sel : cframe → option (Z * pc)) (put : option (Z * pc) → cframe → cframe) (free : cframe → Prop).
Context (sel_kind : sel = cf_file ∨ sel = cf_dir) (sel_put : ∀ x f, sel (put x f) = x).
Context (set_sh : ∀ t rt, rt_shared (set_tab t rt) = rt_shared rt) (set_steps : ∀ t rt, rt_steps (set_tab t rt) = rt_steps rt).

Definition at_kind {A} : M Hs A → M CW A :=
  zoom (λ w, (tab (w_rt w), det (w_sink w).2)) (λ hs w, mkWorld (set_tab hs.1 (w_rt w)) ((w_sink w).1, set_det hs.2 (w_sink w).2)).

Context (CI_kind : ∀ F L n rt a, CI F L n rt a → records_ok (next_fh (rt_handles rt)) (tab rt, det a) (threads_at sel F)).
Context (CI_put : ∀ F f x L n rt a (hs : Hs), F !! k = None → free f → CI (<[k:=f]> F) L n rt a →
  records_ok (next_fh (rt_handles rt)) hs (threads_at sel (<[k:=put x f]> F)) → same_nodes hs.1 (tab rt) →
  CI (<[k:=put x f]> F) L n (set_tab hs.1 rt) (set_det hs.2 a)).

Lemma moved_put F f x fh : at_most fh (sel f) → at_most fh x →
  moved (threads_at sel (<[k:=f]> F)) fh k (here fh x) (threads_at sel (<[k:=put x f]> F)).
Proof.
  intros Hf Hx. rewrite <- (sel_put x f) at 1. apply threads_move. intros fh' Hne. rewrite sel_put.
  destruct (sel f) as [[fh1 p1]|], x as [[fh2 p2]|]; simpl in *; subst; by rewrite ?decide_False.
Qed.

Lemma made_kind {A} (m : M Hs A) (w : CW) : made [] w (at_kind m w).2.
Proof.
  unfold at_kind, zoom. destruct (m _) as [o hs]. split; unfold sh_of, steps_of; simpl; [by rewrite set_sh|by rewrite set_steps].
Qed.

Lemma cstep_record {A} (m : M Hs A) f fh R :
  free f → at_most fh (sel f) → record_step (sel f) fh m R →
  cstep hang k f (at_kind m : M CW A) (λ r f', ∃ x, R r x ∧ f' = put x f).
Proof.
  intros Hfree Hat Hm w. exists []. split_and!; [done|apply made_kind|]. intros F L n issued Hk _ _ Hci. simpl. rewrite Z.add_0_r.
  specialize (Hm _ _ _ (CI_kind _ _ _ _ _ Hci)). specialize (Hm (threads_thread sel F k f fh)).
  assert (∀ x hs', at_most fh x → same_nodes hs'.1 (tab (w_rt w)) →
    (∀ pcs', moved (threads_at sel (<[k:=f]> F)) fh k (here fh x) pcs' → records_ok (next_fh (rt_handles (w_rt w))) hs' pcs') →
    CI (<[k:=put x f]> F) L n (set_tab hs'.1 (w_rt w)) (set_det hs'.2 (w_sink w).2)) as Hput.
  { intros x hs' Hx Hsame Hpcs. apply (CI_put F f x L n _ _ hs'); try done. by apply Hpcs, moved_put. }
  unfold at_kind, zoom. destruct (m (tab (w_rt w), det (w_sink w).2)) as [[a| |] hs']; simpl in *.
  - destruct Hm as (x & HR & Hx & Hsame & Hpcs). exists (put x f). split; [by exists x|by apply Hput].
  - destruct Hm as (x & HR & Hx & Hsame & Hpcs). exists (put x f). split; [by exists x|by apply Hput].
  - destruct Hm as (Hsel & k' & Hk'). right.
    assert (waits sel f F); [|by destruct sel_kind as [->| ->]; auto].
    exists fh, k'. unfold threads_at in Hk'. rewrite lookup_omap, lookup_insert in Hk'. destruct (decide (k = k')) as [<-|Hne].
    { simpl in Hk'. rewrite Hsel, here_eq in Hk'. done. }
    destruct (F !! k') as [f'|] eqn:Hf'; [|done]. exists f'. split_and!; [done|done|]. simpl in Hk'.
    unfold here in Hk'. destruct (sel f') as [[fh1 p]|]; [|done]. case_decide; by simplify_eq.
Qed.
End handle.

(** ** Files and directories *)
Section kinds.
Context {N H D S : Type} `{Libc} {K : Type} (hang : S → Prop) (k : nat).
Implicit Types (f : cframe) (F : gmap nat cframe) (L : account) (rt : Runtime N H D S) (a : Arcs H D).
Abbreviation CW := (World N H D S (K * Arcs H D)).

Lemma TI_handles F f f' L n rt t' :
  F !! k = None → TI (<[k:=f]> F) L n rt → cf_refs f' = cf_refs f → cf_toks f' = cf_toks f →
  1 ≤ next_fh t' → next_fh t' + b2z (cf_new f') ≤ next_fh (rt_handles rt) + b2z (cf_new f) →
  (∀ i, handle_count i t' + owed_at i f' ≤ handle_count i (rt_handles rt) + owed_at i f) →
  TI (<[k:=f']> F) L n (with_handles t' rt).
Proof.
  intros Hk [] Hr Ht Hpos Hnext Hopens. split; simpl; try done.
  - intros κ. specialize (ti_refs κ). rewrite sum_map_insert in * by done. by rewrite Hr.
  - intros i. specialize (ti_opens i). specialize (Hopens i). rewrite sum_map_insert in * by done. lia.
  - rewrite sum_map_insert in * by done. lia.
  - intros i. specialize (ti_held i). rewrite sum_map_insert in * by done. by rewrite Ht.
  - intros i g Hg. apply ti_gens. destruct Hg as [?|(k' & f1 & c & Hf1 & Hin)]; [by left|right].
    rewrite lookup_insert in Hf1. case_decide as Hkk; simplify_eq.
    + exists k', f, c. rewrite lookup_insert_eq, <- Ht. auto.
    + exists k', f1, c. by rewrite lookup_insert_ne.
  - intros k' f1. rewrite lookup_insert. case_decide as Hkk; [|intros Hf1; apply (ti_toks k'); by rewrite lookup_insert_ne].
    intros [= <-]. rewrite Ht. apply (ti_toks k). apply lookup_insert_eq.
Qed.

Lemma one_place F f f' : 
  (∀ j g, <[k:=f]> F !! j = Some g → cf_file g = None ∨ cf_dir g = None) → (cf_file f' = None ∨ cf_dir f' = None) →
  ∀ j g, <[k:=f']> F !! j = Some g → cf_file g = None ∨ cf_dir g = None.
Proof.
  intros HF Hf' j g. rewrite lookup_insert. case_decide as Hkk; [by intros [= <-]|]. intros Hg. apply (HF j).
  by rewrite lookup_insert_ne.
Qed.

Lemma records_same sel next {T} (hs : gmap Z (HandleRecord T) * Detached T) F f f' :
  sel f' = sel f → records_ok next hs (threads_at sel (<[k:=f]> F)) → records_ok next hs (threads_at sel (<[k:=f']> F)).
Proof. intros Hs. apply records_ext. intros fh. by apply threads_same. Qed.

Lemma CI_put_file F f x L n rt a hs : F !! k = None → cf_dir f = None → CI (<[k:=f]> F) L n rt a →
  records_ok (next_fh (rt_handles rt)) hs (threads_at cf_file (<[k:=at_file x f]> F)) → same_nodes hs.1 (files (rt_handles rt)) →
  CI (<[k:=at_file x f]> F) L n (with_files hs.1 rt) (mkArcs hs.2 (arc_dirs a)).
Proof.
  intros Hk Hfree [] Hok Hsame. split.
  - apply (TI_handles F f); try done; simpl; [by apply (ti_next _ _ _ _ ci_table)|].
    intros i. unfold handle_count. simpl. rewrite (Hsame i). done.
  - by destruct hs.
  - by apply (records_same cf_dir _ _ F f).
  - eapply one_place; [exact ci_one|by right].
Qed.

Lemma CI_put_dir F f x L n rt a hs : F !! k = None → cf_file f = None → CI (<[k:=f]> F) L n rt a →
  records_ok (next_fh (rt_handles rt)) hs (threads_at cf_dir (<[k:=at_dir x f]> F)) → same_nodes hs.1 (dirs (rt_handles rt)) →
  CI (<[k:=at_dir x f]> F) L n (with_dirs hs.1 rt) (mkArcs (arc_files a) hs.2).
Proof.
  intros Hk Hfree [] Hok Hsame. split.
  - apply (TI_handles F f); try done; simpl; [by apply (ti_next _ _ _ _ ci_table)|].
    intros i. unfold handle_count. simpl. rewrite (Hsame i). done.
  - by apply (records_same cf_file _ _ F f).
  - by destruct hs.
  - eapply one_place; [exact ci_one|by left].
Qed.

(** A record that leaves the table leaves an open to be taken off. *)
Lemma delete_count {T} (t : gmap Z (HandleRecord T)) fh r i :
  t !! fh = Some r →
  count_map (λ r, hr_node r = i) (delete fh t) + b2z (bool_decide (Some (hr_node r) = Some i)) = count_map (λ r, hr_node r = i) t.
Proof.
  intros Hr. case_bool_decide as Hi; simpl.
  - simplify_eq. rewrite (count_map_delete_yes _ t fh r) by done. lia.
  - rewrite (count_map_delete_no _ t fh r) by (done || congruence). lia.
Qed.

Lemma cstep_detach_file f ino fh : cf_file f = None → cf_dir f = None → cf_pend f = None →
  cstep hang k f (at_files (detach ino fh) : M CW _) (λ r f',
    match r with Some (Ok _) => f' = owes (Some ino) false (at_file (Some (fh, Removed)) f) | Some (Err _) => f' = f | None => False end).
Proof.
  intros Hf Hd Hp w. exists []. split_and!; [done| |].
  { unfold at_files, zoom. destruct (detach ino fh _) as [o hs]. by split. }
  intros F L n issued Hk _ _ Hci. simpl. rewrite Z.add_0_r. pose proof Hci as [].
  pose proof (records_detach _ _ _ ino fh k ci_files) as Hdet. rewrite threads_thread, Hf in Hdet. specialize (Hdet eq_refl).
  unfold at_files, zoom. fold (files_of w) in Hdet. unfold files_of at 1.
  change (files_of w) with (files (rt_handles (w_rt w)), arc_files (w_sink w).2) in Hdet.
  destruct (detach ino fh _) as [[[[]|e]| |] hs]; simpl in *; [| |done..].
  - destruct Hdet as [Hok (r & Hr & Hnode & Htab)]. eexists. split; [done|]. split; simpl.
    + apply (TI_handles F f); try done; simpl; [by apply (ti_next _ _ _ _ ci_table)|destruct (cf_new f); simpl; lia|].
      intros i. unfold handle_count, owed_at. simpl. rewrite Hp, Htab. subst ino.
      pose proof (delete_count _ fh r i Hr). rewrite (bool_decide_eq_false_2 (None = Some i)) by done. simpl. lia.
    + destruct hs as [t d]. apply Hok. rewrite <- (here_eq fh Removed). by apply (threads_move cf_file F k f); intros fh' Hne;
        rewrite Hf; simpl; rewrite decide_False.
    + by apply (records_same cf_dir _ _ F f).
    + eapply one_place; [exact ci_one|by right].
  - subst hs. exists f. split; [done|]. by destruct w as [[? ? ? [] ? ? ? ?] [? []]].
Qed.

Lemma cstep_detach_dir f ino fh : cf_file f = None → cf_dir f = None → cf_pend f = None →
  cstep hang k f (at_dirs (detach ino fh) : M CW _) (λ r f',
    match r with Some (Ok _) => f' = owes (Some ino) false (at_dir (Some (fh, Removed)) f) | Some (Err _) => f' = f | None => False end).
Proof.
  intros Hf Hd Hp w. exists []. split_and!; [done| |].
  { unfold at_dirs, zoom. destruct (detach ino fh _) as [o hs]. by split. }
  intros F L n issued Hk _ _ Hci. simpl. rewrite Z.add_0_r. pose proof Hci as [].
  pose proof (records_detach _ _ _ ino fh k ci_dirs) as Hdet. rewrite threads_thread, Hd in Hdet. specialize (Hdet eq_refl).
  unfold at_dirs, zoom. unfold dirs_of at 1.
  destruct (detach ino fh _) as [[[[]|e]| |] hs]; simpl in *; [| |done..].
  - destruct Hdet as [Hok (r & Hr & Hnode & Htab)]. eexists. split; [done|]. split; simpl.
    + apply (TI_handles F f); try done; simpl; [by apply (ti_next _ _ _ _ ci_table)|destruct (cf_new f); simpl; lia|].
      intros i. unfold handle_count, owed_at. simpl. rewrite Hp, Htab. subst ino.
      pose proof (delete_count _ fh r i Hr). rewrite (bool_decide_eq_false_2 (None = Some i)) by done. simpl. lia.
    + by apply (records_same cf_file _ _ F f).
    + destruct hs as [t d]. apply Hok. rewrite <- (here_eq fh Removed). by apply (threads_move cf_dir F k f); intros fh' Hne;
        rewrite Hd; simpl; rewrite decide_False.
    + eapply one_place; [exact ci_one|by left].
  - subst hs. exists f. split; [done|]. by destruct w as [[? ? ? [] ? ? ? ?] [? []]].
Qed.

(** A new handle pays for the open that was counted for it. *)
Lemma insert_count {T} (t : gmap Z (HandleRecord T)) fh r i :
  t !! fh = None → count_map (λ r, hr_node r = i) (<[fh:=r]> t) = count_map (λ r, hr_node r = i) t + b2z (bool_decide (Some (hr_node r) = Some i)).
Proof.
  intros Hr. case_bool_decide as Hi; simpl.
  - simplify_eq. by rewrite count_map_insert_yes.
  - rewrite count_map_insert_no by (done || congruence). lia.
Qed.

Lemma fresh_number {T} next (hs : gmap Z (HandleRecord T) * Detached T) pcs : records_ok next hs pcs → hs.1 !! next = None.
Proof.
  intros [_ Hok]. specialize (Hok next). unfold view_ok, view in Hok. simpl in Hok. destruct (hs.1 !! next); [|done].
  destruct (dt_records hs.2 !! next); [done|]. destruct Hok. lia.
Qed.

Lemma cstep_add_file f ino h : cf_pend f = Some ino → cf_new f = true →
  cstep hang k f (on_handles (add_file ino h) : M CW _) (λ r f', is_Some r ∧ f' = owes None false f).
Proof.
  intros Hp Hnew w. exists []. split_and!; [done|done|]. intros F L n issued Hk _ Hn Hci. simpl in *. rewrite Z.add_0_r in *.
  eexists. split; [by apply some_and|]. pose proof Hci as []. destruct (ti_next _ _ _ _ ci_table) as [Hpos Hnext].
  rewrite sum_map_insert, Hnew in Hnext by done.
  pose proof (sum_map_nonneg (λ f, b2z (cf_new f)) F ltac:(intros v; unfold b2z; case_match; lia)). simpl in Hnext.
  pose proof (fresh_number _ _ _ ci_files) as Hfresh. simpl in Hfresh.
  unfold CIW; simpl. rewrite wrapping_add64_small by int_lia. split; simpl.
  - apply (TI_handles F f); try done; simpl; [lia|rewrite Hnew; simpl; lia|].
    intros i. unfold handle_count, owed_at. simpl. rewrite insert_count, Hp by done. simpl. lia.
  - apply (records_same cf_file _ _ F f); [done|]. apply (records_add _ (files (rt_handles (w_rt w)), arc_files (w_sink w).2)); [done|lia].
  - apply (records_same cf_dir _ _ F f); [done|]. apply records_next; [done|lia].
  - eapply one_place; [exact ci_one|]. apply (ci_one k f), lookup_insert_eq.
Qed.

Lemma cstep_add_dir f ino h : cf_pend f = Some ino → cf_new f = true →
  cstep hang k f (on_handles (add_dir ino h) : M CW _) (λ r f', is_Some r ∧ f' = owes None false f).
Proof.
  intros Hp Hnew w. exists []. split_and!; [done|done|]. intros F L n issued Hk _ Hn Hci. simpl in *. rewrite Z.add_0_r in *.
  eexists. split; [by apply some_and|]. pose proof Hci as []. destruct (ti_next _ _ _ _ ci_table) as [Hpos Hnext].
  rewrite sum_map_insert, Hnew in Hnext by done.
  pose proof (sum_map_nonneg (λ f, b2z (cf_new f)) F ltac:(intros v; unfold b2z; case_match; lia)). simpl in Hnext.
  pose proof (fresh_number _ _ _ ci_dirs) as Hfresh. simpl in Hfresh.
  unfold CIW; simpl. rewrite wrapping_add64_small by int_lia. split; simpl.
  - apply (TI_handles F f); try done; simpl; [lia|rewrite Hnew; simpl; lia|].
    intros i. unfold handle_count, owed_at. simpl. rewrite insert_count, Hp by done. simpl. lia.
  - apply (records_same cf_file _ _ F f); [done|]. apply records_next; [done|lia].
  - apply (records_same cf_dir _ _ F f); [done|]. apply (records_add _ (dirs (rt_handles (w_rt w)), arc_dirs (w_sink w).2)); [done|lia].
  - eapply one_place; [exact ci_one|]. apply (ci_one k f), lookup_insert_eq.
Qed.

(** ** Steps on the filesystem's state and on the thread's own sink *)
Lemma cstep_gets {A} (g : CW → A) f : cstep hang k f (gets g) (λ r f', is_Some r ∧ f' = f).
Proof. apply cstep_local; [done|done|]. intros w. by apply some_and. Qed.

Lemma cstep_write_state s f : cstep hang k f (on_rt (modify (with_fs s)) : M CW _) (λ r f', is_Some r ∧ f' = f).
Proof.
  apply cstep_local; [done| |].
  - intros w F L n []. split; simpl; try done. by destruct ci_table.
  - intros w. by apply some_and.
Qed.

Lemma cstep_own {A} (g : S → option (A * S)) f :
  (∀ s, is_Some (g s) ∨ hang s) → cstep hang k f (own_step g : M CW A) (λ r f', is_Some r ∧ f' = f).
Proof.
  intros Hg w. exists []. unfold own_step. destruct (g (rt_fs (w_rt w))) as [[b s]|] eqn:Hs; (split_and!; [done|done|]);
    intros F L n issued _ _ _ Hci; simpl; rewrite ?Z.add_0_r.
  - exists f. split; [by apply some_and|]. destruct Hci. split; simpl; try done. by destruct ci_table.
  - left. destruct (Hg (rt_fs (w_rt w))) as [[? ?]|?]; [congruence|done].
Qed.

Lemma cstep_sink {A} (g : K → A * K) f : cstep hang k f (sink_step g : M CW A) (λ r f', is_Some r ∧ f' = f).
Proof.
  apply cstep_local.
  - intros w. unfold sink_step, on_sink. destruct (w_sink w) as [x d]. by destruct (g x).
  - intros w F L n. unfold CIW, sink_step, on_sink. destruct (w_sink w) as [x d]. by destruct (g x).
  - intros w. unfold sink_step, on_sink. destruct (w_sink w) as [x d]. destruct (g x). by apply some_and.
Qed.

Lemma cstep_block {A} f (Q : option A → cframe → Prop) : (∀ s, hang s) → cstep hang k f (block : M CW A) Q.
Proof. intros Hh w. exists []. split_and!; [done..|]. intros. by left. Qed.
End kinds.
