(* ===== verification/ConcurrentSpec.v ===== *)
(** * Each handler, in any company

    For every request, the thread that serves it takes only steps that keep the
    invariant of [Concurrent], whatever the other threads do between them; when
    it ends it holds no node lease and no place at a handle record, and its
    frame keeps the lookups that its reply tells of. *)

From S2P Require Import Prelude Types NodeTable NodeTableInv HandleRec NodeFs Runtime RuntimeInv RuntimeSpec Requests Threads ThreadLogic ArcInv Concurrent ConcurrentSteps.

#[local] Arguments exec_op : simpl never.

(** ** Scopes *)
Section scopes.
Context {N H D S : Type} `{Libc} {K : Type} (hang : S → Prop) (k : nat).
Implicit Types (f g : cframe).
Abbreviation CW := (World N H D S (K * Arcs H D)).

Lemma safe_after {A B} (act : M CW A) (c : A → thr CW B) f Q Post :
  cstep hang k f act Q → (∀ a f', Q (Some a) f' → safe hang k (c a) f' Post) → (∀ f', Q None f' → Post None f') →
  safe hang k (step act ≫= c) f Post.
Proof.
  intros Hact Hc Hp. apply safe_bind. eapply safe_mono; [by apply safe_step|]. intros [a|] f'; [apply Hc|apply Hp].
Qed.

(** The frame is as it was. *)
Definition still {A} f : option A → cframe → Prop := λ _ f', f' = f.

Lemma safe_node_scope {B} ino (err : Errno → thr CW B) (body : N → thr CW B) f Post :
  (∀ e, safe hang k (err e) f Post) → Post None f →
  (∀ n κ, safe hang k (body n) (hold_ref κ f) (λ r f', ∃ g, f' = hold_ref κ g ∧ Post r g)) →
  safe hang k (node_scope ino err body) f Post.
Proof.
  intros He HP Hb. eapply safe_after; [apply cstep_node| |by intros f' ->].
  intros [l|e] f' ->; [|apply He]. apply safe_finally. eapply safe_mono; [apply Hb|].
  intros r f' (g & -> & Hg). eapply safe_mono; [apply safe_step, cstep_drop_ref|]. by intros r' f' [? ->].
Qed.

(** *** At a handle record, of files or of directories *)
Section scope.
Context {T : Type} (on : ∀ A, M (gmap Z (HandleRecord T) * Detached T) A → M CW A).
Context (sel : cframe → option (Z * pc)) (put : option (Z * pc) → cframe → cframe) (free : cframe → Prop).
Context (sel_put : ∀ x f, sel (put x f) = x) (put_put : ∀ x y f, put x (put y f) = put x f).
Context (put_sel : ∀ f, put (sel f) f = f) (free_put : ∀ x f, free f → free (put x f)).
Context (cstep_on : ∀ A (m : M (gmap Z (HandleRecord T) * Detached T) A) f fh R,
  free f → at_most fh (sel f) → record_step k (sel f) fh m R →
  cstep hang k f (on _ m) (λ r f', ∃ x, R r x ∧ f' = put x f)).

Lemma safe_place {A} (m : M (gmap Z (HandleRecord T) * Detached T) A) x f fh R :
  free f → at_most fh x → record_step k x fh m R →
  safe hang k (step (on _ m)) (put x f) (λ r f', ∃ x', R r x' ∧ f' = put x' f).
Proof.
  intros Hf Hx Hm. apply safe_step. eapply cstep_mono.
  - apply (cstep_on A m _ fh R); [by apply free_put|by rewrite sel_put|by rewrite sel_put].
  - intros r f' (x' & HR & ->). exists x'. by rewrite put_put.
Qed.

Local Ltac place step := eapply safe_mono; [eapply safe_place; [eassumption| |by apply step]; done|].

Lemma safe_drop_arc f fh p : free f → p = Leaving ∨ p = Cloned ∨ p = Removed →
  safe hang k (step (on _ (drop_arc fh))) (put (Some (fh, p)) f) (λ r f', is_Some r ∧ f' = put None f).
Proof.
  intros Hf Hp. place drop_step.
  by intros r f' (x & (? & ->) & ->).
Qed.

Lemma safe_lease f ino fh : free f → sel f = None →
  safe hang k (lease on ino fh) f (λ r f',
    match r with Some (Ok _) => f' = put (Some (fh, Leasing)) f | _ => f' = f end).
Proof.
  intros Hf Hs. assert (put None f = f) as Hn by (by rewrite <- Hs).
  unfold lease. apply safe_bind. rewrite <- Hn at 1.
  place clone_step.
  intros [[node|]|] f' (x & Hx & ->); [| |done]; subst x; [|by rewrite Hn].
  destruct (negb (node =? ino)).
  { apply safe_bind. eapply safe_mono; [apply (safe_drop_arc f fh Cloned Hf); auto|].
    intros r f' [[u ->] ->]. by rewrite Hn. }
  assert (∀ (t : thr CW (Result Errno T)), t = Ret (Err EBADF) ∨ t = Unwind →
    safe hang k (step (on _ (drop_arc fh));; t) (put (Some (fh, Leaving)) f) (λ r f',
      match r with Some (Ok _) => f' = put (Some (fh, Leasing)) f | _ => f' = f end)) as Hleave.
  { intros t Ht. apply safe_bind. eapply safe_mono; [apply (safe_drop_arc f fh Leaving Hf); auto|].
    intros r f' [[u ->] ->]. rewrite Hn. by destruct Ht as [->| ->]. }
  exists (λ r f', ∃ x', match r with Some (Some _) => x' = Some (fh, Leasing) | _ => x' = Some (fh, Leaving) end ∧ f' = put x' f).
  split_and!.
  - eapply cstep_mono.
    + eapply cstep_on; [by apply free_put|..]; rewrite sel_put; [|apply acquire_step]; done.
    + intros r f' (x' & HR & ->). exists x'. by rewrite put_put.
  - intros [payload|] f' (x' & -> & ->); [done|]. apply Hleave; by left.
  - intros f' (x' & -> & ->). apply Hleave; by right.
Qed.

Lemma safe_handle_scope {B} ino fh (err : Errno → thr CW B) (body : T → thr CW B) f Post :
  free f → sel f = None → (∀ e, safe hang k (err e) f Post) → Post None f →
  (∀ h, safe hang k (body h) (put (Some (fh, Leasing)) f) (λ r f', ∃ g, f' = put (Some (fh, Leasing)) g ∧
     free g ∧ sel g = None ∧ Post r g)) →
  safe hang k (handle_scope on ino fh err body) f Post.
Proof.
  intros Hf Hs He HP Hb. apply safe_bind. eapply safe_mono; [by apply safe_lease|].
  intros [[h|e]|] f' ->; [|apply He|done]. apply safe_finally. eapply safe_mono; [apply Hb|].
  intros r f' (g & -> & Hg & Hsg & HPg). apply safe_bind.
  place end_step. intros r' f' (x & ([u ->] & ->) & ->).
  eapply safe_mono; [apply (safe_drop_arc g fh Leaving Hg); auto|].
  intros r'' f' [Hr ->]. assert (put None g = g) as -> by (by rewrite <- Hsg). done.
Qed.

Lemma safe_close f fh : free f →
  safe hang k (close_thread on fh) (put (Some (fh, Removed)) f) (λ r f', is_Some r ∧ f' = put (Some (fh, Leaving)) f).
Proof.
  intros Hf. unfold close_thread. apply safe_bind.
  place begin_step.
  intros [b|] f' (x & Hx & ->); [|done]. subst x. apply safe_bind.
  apply (safe_mono _ _ _ _ (λ r f', is_Some r ∧ f' = put (Some (fh, Taking)) f)).
  - destruct b; [by apply some_and|].
    place resume_step. by intros r f' (x & (? & ->) & ->).
  - intros r f' [[u ->] ->].
    place take_step. by intros r f' (x & (? & ->) & ->).
Qed.
End scope.
End scopes.

(** ** Callbacks *)
Section callbacks.
Context {N H D S : Type} `{Libc} {K : Type} (hang : S → Prop) (k : nat).
Implicit Types (f g : cframe).
Abbreviation CW := (World N H D S (K * Arcs H D)).

(** [I] holds between the steps of the callback, of its accumulator and the
    frame; only [emit] may change the frame. *)
Lemma safe_run_callback {E X A} (emit : E → X → thr CW (bool * X)) (p : prog N S E A) x f (I : X → cframe → Prop) Post :
  (∀ e x f, I x f → safe hang k (emit e x) f (λ r f', match r with Some (_, x') => I x' f' | None => I x f' end)) →
  (∀ a x f, I x f → Post (Some (a, x)) f) → (∀ x f, I x f → Post None f) → stalls_in hang p → I x f →
  safe hang k (run_callback emit p x) f Post.
Proof.
  intros Hemit Hdone Hpanic. revert x f.
  induction p as [a| | |c IH|s p IH|C g c IH|id c IH u IHu|κ p IH|id c IH|n parent c IH|id par p IH|id p IH u IHu|id p IH|e c IH u IHu];
    intros x f Hh HI; simpl in *.
  - by apply Hdone.
  - by eapply Hpanic.
  - exists (λ _ _, False). split_and!; [by apply cstep_block|done..].
  - eexists. split; [apply cstep_gets|]. split.
    + intros s f' [_ ->]. apply IH; naive_solver.
    + intros f' [_ ->]. by eapply Hpanic.
  - eexists. split; [apply cstep_write_state|]. split.
    + intros _ f' [_ ->]. by apply IH.
    + intros f' [_ ->]. by eapply Hpanic.
  - eexists. split; [apply cstep_own; naive_solver|]. split.
    + intros b f' [_ ->]. apply IH; naive_solver.
    + intros f' [_ ->]. by eapply Hpanic.
  - eexists. split; [apply cstep_fs_get|]. split.
    + intros r f' ->. apply IH; naive_solver.
    + intros f' ->. apply IHu; naive_solver.
  - eexists. split; [apply cstep_fs_drop_ref|]. split.
    + intros _ f' [_ ->]. by apply IH.
    + intros f' [_ ->]. by eapply Hpanic.
  - eexists. split; [apply cstep_read|]. split.
    + intros r f' [_ ->]. apply IH; naive_solver.
    + intros f' [_ ->]. by eapply Hpanic.
  - eexists. split; [apply cstep_neutral with (OpInsert n parent); [done|done|]|].
    { intros s. unfold cx_insert. by destruct (alloc (sh_table s)) as [[??]?]. }
    split; [intros id f' ->; apply IH; naive_solver|intros f' ->; by eapply Hpanic].
  - eexists. split; [apply cstep_neutral with (OpReparent id par); [done|done|]|].
    { intros s. unfold cx_reparent. by repeat case_match. }
    split; [intros ? f' ->; by apply IH|intros f' ->; by eapply Hpanic].
  - eexists. split; [apply cstep_neutral with (OpAddLink id); [done|done|]|].
    { intros s. unfold cx_add_link. by repeat case_match. }
    split; [intros ? f' ->; apply IH; naive_solver|intros f' ->; apply IHu; naive_solver].
  - eexists. split; [by apply cstep_neutral with (OpRemoveLink id)|].
    split; [intros ? f' ->; by apply IH|intros f' ->; by eapply Hpanic].
  - apply safe_then. eapply safe_mono; [by apply Hemit|]. intros [[b x']|] f' HI'; [apply IH|apply IHu]; naive_solver.
Qed.

Lemma safe_callback {A} (p : prog N S Empty_set A) f :
  stalls_in hang p → safe hang k (callback p : thr CW A) f (still f).
Proof.
  intros Hp. apply safe_bind.
  by apply (safe_run_callback _ p tt f (λ _ f', f' = f)); [intros []|intros a x f' ->|intros x f' ->|..].
Qed.
End callbacks.

(** ** Handlers *)
Section handlers.
Context {N H D S : Type} `{Libc} {K : Type} (hang : S → Prop) (k : nat).
Implicit Types (f g : cframe).
Abbreviation CW := (World N H D S (K * Arcs H D)).

(** No place at a handle record. *)
Definition free f : Prop := cf_file f = None ∧ cf_dir f = None.

Lemma file_step A (m : M (gmap Z (HandleRecord H) * Detached H) A) f fh R :
  cf_dir f = None → at_most fh (cf_file f) → record_step k (cf_file f) fh m R →
  cstep hang k f (at_files m : M CW A) (λ r f', ∃ x, R r x ∧ f' = at_file x f).
Proof.
  intros Hd Hat Hm. pose proof (cstep_record (K := K) (S := S) (N := N) (D := D) (H := H) hang k
    (λ rt, files (rt_handles rt)) with_files arc_files (λ d a, mkArcs d (arc_dirs a)) cf_file at_file (λ f, cf_dir f = None)) as Hstep.
  refine (Hstep (or_introl eq_refl) _ _ _ _ _ A m f fh R Hd Hat Hm); try done.
  - intros. by eapply ci_files.
  - intros. by apply CI_put_file.
Qed.

Lemma dir_step A (m : M (gmap Z (HandleRecord D) * Detached D) A) f fh R :
  cf_file f = None → at_most fh (cf_dir f) → record_step k (cf_dir f) fh m R →
  cstep hang k f (at_dirs m : M CW A) (λ r f', ∃ x, R r x ∧ f' = at_dir x f).
Proof.
  intros Hd Hat Hm. pose proof (cstep_record (K := K) (S := S) (N := N) (D := D) (H := H) hang k
    (λ rt, dirs (rt_handles rt)) with_dirs arc_dirs (λ d a, mkArcs (arc_files a) d) cf_dir at_dir (λ f, cf_file f = None)) as Hstep.
  refine (Hstep (or_intror eq_refl) _ _ _ _ _ A m f fh R Hd Hat Hm); try done.
  - intros. by eapply ci_dirs.
  - intros. by apply CI_put_dir.
Qed.

Lemma at_file_self f : at_file (cf_file f) f = f.
Proof. by destruct f. Qed.
Lemma at_dir_self f : at_dir (cf_dir f) f = f.
Proof. by destruct f. Qed.

Lemma safe_file_scope {B} ino fh (err : Errno → thr CW B) (body : H → thr CW B) f Post :
  free f → (∀ e, safe hang k (err e) f Post) → Post None f →
  (∀ h, safe hang k (body h) (at_file (Some (fh, Leasing)) f) (λ r f', ∃ g, f' = at_file (Some (fh, Leasing)) g ∧
     cf_dir g = None ∧ cf_file g = None ∧ Post r g)) →
  safe hang k (handle_scope (@at_files _ _ _ _ _) ino fh err body) f Post.
Proof.
  intros [Hf Hd]. apply (safe_handle_scope hang k (@at_files _ _ _ _ _) cf_file at_file (λ f, cf_dir f = None)); try done.
  - apply at_file_self.
  - apply file_step.
Qed.

Lemma safe_dir_scope {B} ino fh (err : Errno → thr CW B) (body : D → thr CW B) f Post :
  free f → (∀ e, safe hang k (err e) f Post) → Post None f →
  (∀ h, safe hang k (body h) (at_dir (Some (fh, Leasing)) f) (λ r f', ∃ g, f' = at_dir (Some (fh, Leasing)) g ∧
     cf_file g = None ∧ cf_dir g = None ∧ Post r g)) →
  safe hang k (handle_scope (@at_dirs _ _ _ _ _) ino fh err body) f Post.
Proof.
  intros [Hf Hd]. apply (safe_handle_scope hang k (@at_dirs _ _ _ _ _) cf_dir at_dir (λ f, cf_file f = None)); try done.
  - apply at_dir_self.
  - apply dir_step.
Qed.

Lemma in_node_still {B} ino (body : N → thr CW (Result Errno B)) f :
  (∀ n g, free g → safe hang k (body n) g (still g)) → free f → safe hang k (in_node ino body) f (still f).
Proof.
  intros Hb Hf. apply safe_node_scope; [done..|]. intros n κ. eapply safe_mono; [by apply Hb|].
  intros r f' ->. by exists f.
Qed.

Lemma in_file_still {B} ino fh (body : H → thr CW (Result Errno B)) f :
  (∀ h g, safe hang k (body h) g (still g)) → free f → safe hang k (in_file ino fh body) f (still f).
Proof.
  intros Hb Hf. apply safe_file_scope; [done..|]. intros h. eapply safe_mono; [apply Hb|].
  intros r f' ->. by exists f; destruct Hf.
Qed.

Lemma in_dir_still {B} ino fh (body : D → thr CW (Result Errno B)) f :
  (∀ h g, safe hang k (body h) g (still g)) → free f → safe hang k (in_dir ino fh body) f (still f).
Proof.
  intros Hb Hf. apply safe_dir_scope; [done..|]. intros h. eapply safe_mono; [apply Hb|].
  intros r f' ->. by exists f; destruct Hf.
Qed.

Lemma in_optional_file_still {B} ino fh (body : option H → thr CW (Result Errno B)) f :
  (∀ h g, safe hang k (body h) g (still g)) → free f → safe hang k (in_optional_file ino fh body) f (still f).
Proof. intros Hb Hf. destruct fh as [fh|]; [|apply Hb]. apply in_file_still; auto. Qed.

(** *** Those that leave the frame as it was *)
Context (fs : NodeFs N H D S) (Hfs : stalling hang fs).
Abbreviation T A := (thr CW (Result Errno A)).

Local Ltac callbacks := destruct Hfs; auto.
Local Ltac serve :=
  repeat first
    [ assumption
    | apply in_node_still; [intros ? ? ?|]
    | apply in_file_still; [intros ? ?|]
    | apply in_dir_still; [intros ? ?|]
    | apply in_optional_file_still; [intros ? ?|]
    | apply safe_callback; callbacks ].

Lemma destroy_safe f : safe hang k (t_destroy fs : thr CW _) f (still f).
Proof. unfold t_destroy. serve. Qed.
Lemma statfs_safe ino caller f : safe hang k (t_statfs fs ino caller : T _) f (still f).
Proof. unfold t_statfs. serve. Qed.
Lemma getattr_safe ino fh caller f : free f → safe hang k (t_getattr fs ino fh caller : T _) f (still f).
Proof. intros Hf. unfold t_getattr. serve. Qed.
Lemma setattr_safe ino fh set caller f : free f → safe hang k (t_setattr fs ino fh set caller : T _) f (still f).
Proof. intros Hf. unfold t_setattr. serve. Qed.
Lemma readlink_safe ino caller f : free f → safe hang k (t_readlink fs ino caller : T _) f (still f).
Proof. intros Hf. unfold t_readlink. serve. Qed.
Lemma access_safe ino mask caller f : free f → safe hang k (t_access fs ino mask caller : T _) f (still f).
Proof. intros Hf. unfold t_access. serve. Qed.
Lemma setxattr_safe ino name value flags caller f : free f → safe hang k (t_setxattr fs ino name value flags caller : T _) f (still f).
Proof. intros Hf. unfold t_setxattr. serve. Qed.
Lemma getxattr_safe ino name size caller f : free f → safe hang k (t_getxattr fs ino name size caller : T _) f (still f).
Proof. intros Hf. unfold t_getxattr. serve. Qed.
Lemma listxattr_safe ino size caller f : free f → safe hang k (t_listxattr fs ino size caller : T _) f (still f).
Proof. intros Hf. unfold t_listxattr. serve. Qed.
Lemma removexattr_safe ino name caller f : free f → safe hang k (t_removexattr fs ino name caller : T _) f (still f).
Proof. intros Hf. unfold t_removexattr. serve. Qed.
Lemma write_safe ino fh data offset caller f : free f → safe hang k (t_write fs ino fh data offset caller : T _) f (still f).
Proof. intros Hf. unfold t_write. serve. Qed.
Lemma flush_safe ino fh caller f : free f → safe hang k (t_flush fs ino fh caller : T _) f (still f).
Proof. intros Hf. unfold t_flush. serve. Qed.
Lemma fsync_safe ino fh datasync caller f : free f → safe hang k (t_fsync fs ino fh datasync caller : T _) f (still f).
Proof. intros Hf. unfold t_fsync. serve. Qed.
Lemma fallocate_safe ino fh mode offset length caller f : free f → safe hang k (t_fallocate fs ino fh mode offset length caller : T _) f (still f).
Proof. intros Hf. unfold t_fallocate. serve. Qed.
Lemma lseek_safe ino fh offset whence caller f : free f → safe hang k (t_lseek fs ino fh offset whence caller : T _) f (still f).
Proof. intros Hf. unfold t_lseek. serve. Qed.
Lemma getlk_safe ino fh owner lock caller f : free f → safe hang k (t_getlk fs ino fh owner lock caller : T _) f (still f).
Proof. intros Hf. unfold t_getlk. serve. Qed.
Lemma setlk_safe ino fh owner lock sleep caller f : free f → safe hang k (t_setlk fs ino fh owner lock sleep caller : T _) f (still f).
Proof. intros Hf. unfold t_setlk. serve. Qed.
Lemma fsyncdir_safe ino fh datasync caller f : free f → safe hang k (t_fsyncdir fs ino fh datasync caller : T _) f (still f).
Proof. intros Hf. unfold t_fsyncdir. serve. Qed.
Lemma unlink_safe parent name caller f : safe hang k (t_unlink fs parent name caller : T _) f (still f).
Proof. unfold t_unlink. serve. Qed.
Lemma rmdir_safe parent name caller f : safe hang k (t_rmdir fs parent name caller : T _) f (still f).
Proof. unfold t_rmdir. serve. Qed.
Lemma rename_safe parent name newparent newname flags caller f : safe hang k (t_rename fs parent name newparent newname flags caller : T _) f (still f).
Proof. unfold t_rename. serve. Qed.
Lemma copy_file_range_safe ino_in off_in ino_out off_out len flags caller f :
  safe hang k (t_copy_file_range fs ino_in off_in ino_out off_out len flags caller : T _) f (still f).
Proof. unfold t_copy_file_range. serve. Qed.
Lemma init_safe conn f : safe hang k (t_init fs conn : thr CW _) f (still f).
Proof. unfold t_init. eapply safe_after; [apply cstep_gets| |by intros f' [_ ->]]. intros b f' [_ ->]. serve. Qed.
Lemma read_safe ino fh offset size caller f : free f → safe hang k (t_read fs ino fh offset size caller Ret : T _) f (still f).
Proof.
  intros Hf. apply (in_node_still ino (λ n, in_file ino fh (λ h, r ← callback (fs_read fs n h offset size caller); Ret r))); [|done].
  intros n g Hg. apply in_file_still; [|done]. intros h g'. apply safe_bind.
  eapply safe_mono; [apply safe_callback; callbacks|]. by intros [r|] f' ->.
Qed.
Lemma readdir_safe add ino fh offset caller f : free f → safe hang k (t_readdir fs add ino fh offset caller : T _) f (still f).
Proof.
  intros Hf. apply in_node_still; [|done]. intros n g Hg. apply safe_try.
  eapply safe_mono; [apply safe_step, cstep_read|]. intros [[parent|e]|] f' [_ ->]; [|done..].
  apply in_dir_still; [|done]. intros h g'. apply safe_bind.
  apply (safe_run_callback _ _ _ _ tt g' (λ _ f', f' = g')); [|by intros [[]|] [] f' ->|by intros [] f' ->|callbacks|done].
  intros e [] f' ->. eapply safe_after; [apply cstep_sink| |by intros f'' [_ ->]]. by intros b f'' [_ ->].
Qed.

(** *** Lookups *)
Definition told_of (e : EntryReply) : token := (er_ino e, Some (er_generation e), 1).

Lemma in_node_change {B} ino (body : N → T B) f (Q : option (Result Errno B) → list token → Prop) :
  (∀ e, Q (Some (Err e)) (cf_toks f)) → Q None (cf_toks f) →
  (∀ n g, (free f → free g) → cf_toks g = cf_toks f →
     safe hang k (body n) g (λ r g', ∃ l, g' = with_toks l g ∧ Q r l)) →
  safe hang k (in_node ino body) f (λ r f', ∃ l, f' = with_toks l f ∧ Q r l).
Proof.
  intros He Hn Hb. assert (f = with_toks (cf_toks f) f) as Hf by (by destruct f).
  apply safe_node_scope; [intros e; by exists (cf_toks f)|by exists (cf_toks f)|].
  intros n κ. eapply safe_mono; [by apply Hb|]. intros r f' (l & -> & HQ). exists (with_toks l f). split; [done|]. by exists l.
Qed.

Lemma entry_for_safe id caller f :
  safe hang k (t_entry_for fs id caller : T _) f (λ r f', ∃ l, f' = with_toks l f ∧
    l = match r with Some (Ok e) => told_of e :: cf_toks f | _ => cf_toks f end).
Proof.
  apply in_node_change; [done..|]. intros n g _ <-. assert (∀ g, g = with_toks (cf_toks g) g) as Heta by (by intros []).
  apply safe_try. eapply safe_mono; [apply safe_callback; callbacks|]. intros [[attr|e]|] g' ->; [|by eexists..].
  apply safe_try. eapply safe_mono; [apply safe_step, cstep_take_lookup|].
  intros [[gen|e]|] g' ->; [by eexists|by exists (cf_toks g)..].
Qed.

Lemma entry_safe p caller f : stalls_in hang p →
  safe hang k (t_entry fs p caller : T _) f (λ r f', ∃ l, f' = with_toks l f ∧
    l = match r with Some (Ok e) => told_of e :: cf_toks f | _ => cf_toks f end).
Proof.
  intros Hp. apply safe_try. eapply safe_mono; [by apply safe_callback|].
  intros [[id|e]|] f' ->; [apply entry_for_safe|exists (cf_toks f); by destruct f..].
Qed.

Lemma lookup_safe parent name caller f :
  safe hang k (t_lookup fs parent name caller : T _) f (λ r f', ∃ l, f' = with_toks l f ∧
    l = match r with Some (Ok (Found e)) => told_of e :: cf_toks f | _ => cf_toks f end).
Proof.
  assert (f = with_toks (cf_toks f) f) as Hf by (by destruct f).
  apply safe_try. eapply safe_mono; [apply safe_callback; callbacks|]. intros [[[id|]|e]|] f' ->; [|by exists (cf_toks f)..].
  apply safe_try. eapply safe_mono; [apply entry_for_safe|]. by intros [[e|e]|] f' (l & -> & ->); eexists.
Qed.

Lemma forget_safe f i og c l : 0 ≤ c → cf_toks f ≡ₚ (i, og, c) :: l →
  safe hang k (t_forget i c : thr CW _) f (λ r f', is_Some r ∧ f' = with_toks l f).
Proof. intros Hc Hl. by eapply safe_step, cstep_forget. Qed.

(** *** Opens *)
Definition idle f : Prop := free f ∧ cf_pend f = None ∧ cf_new f = false.

Lemma register_safe ino add f : idle f →
  (∀ g, cf_pend g = Some ino → cf_new g = true →
     cstep hang k g (on_handles add : M CW _) (λ r g', is_Some r ∧ g' = owes None false g)) →
  safe hang k (register ino add : T Z) f (still f).
Proof.
  intros (_ & Hp & Hn) Hadd. apply safe_try. eapply safe_mono; [by apply safe_step, cstep_add_open|].
  assert (owes None false f = f) as Hf by (destruct f; by simpl in *; subst).
  intros [[[]|e]|] f' ->; [|done..]. eapply safe_after; [by apply Hadd| |by intros f' [_ ->]]. by intros fh f' [_ ->].
Qed.

Lemma open_safe ino flags caller f : idle f → safe hang k (t_open fs ino flags caller : T _) f (still f).
Proof.
  intros Hi. apply safe_node_scope; [done..|]. intros n κ.
  apply (safe_mono _ _ _ _ (still (hold_ref κ f))); [|intros r f' ->; by exists f].
  apply safe_try. eapply safe_mono; [apply safe_callback; callbacks|]. intros [[o|e]|] f' ->; [|done..].
  apply safe_try. eapply safe_mono; [apply register_safe; [exact Hi|intros; by apply cstep_add_file]|].
  by intros [[fh|e]|] f' ->.
Qed.

Lemma opendir_safe ino flags caller f : idle f → safe hang k (t_opendir fs ino flags caller : T _) f (still f).
Proof.
  intros Hi. apply safe_node_scope; [done..|]. intros n κ.
  apply (safe_mono _ _ _ _ (still (hold_ref κ f))); [|intros r f' ->; by exists f].
  apply safe_try. eapply safe_mono; [apply safe_callback; callbacks|]. intros [[o|e]|] f' ->; [|done..].
  apply safe_try. eapply safe_mono; [apply register_safe; [exact Hi|intros; by apply cstep_add_dir]|].
  by intros [[fh|e]|] f' ->.
Qed.

Lemma create_safe parent name mode umask flags caller f : idle f →
  safe hang k (t_create fs parent name mode umask flags caller : T _) f (λ r f', ∃ l, f' = with_toks l f ∧
    match r with Some (Ok (e, _)) => l = told_of e :: cf_toks f | _ => True end).
Proof.
  intros Hi. assert (f = with_toks (cf_toks f) f) as Hf by (by destruct f).
  apply safe_try. eapply safe_mono; [apply safe_callback; callbacks|]. intros [[[id o]|e]|] f' ->; [|by exists (cf_toks f)..].
  apply safe_try. eapply safe_mono; [apply entry_for_safe|]. intros [[e|e]|] f' (l & -> & ->); [|by eexists..].
  apply safe_try. eapply safe_mono; [apply register_safe; [exact Hi|intros; by apply cstep_add_file]|].
  by intros [[fh|e']|] f' ->; eexists.
Qed.

(** *** Releases *)
Lemma file_close fh f : cf_dir f = None →
  safe hang k (close_thread (@at_files _ _ _ _ _) fh : thr CW H) (at_file (Some (fh, Removed)) f)
    (λ r f', is_Some r ∧ f' = at_file (Some (fh, Leaving)) f).
Proof. apply (safe_close hang k (@at_files _ _ _ _ _) cf_file at_file (λ f, cf_dir f = None)); try done. apply file_step. Qed.

Lemma dir_close fh f : cf_file f = None →
  safe hang k (close_thread (@at_dirs _ _ _ _ _) fh : thr CW D) (at_dir (Some (fh, Removed)) f)
    (λ r f', is_Some r ∧ f' = at_dir (Some (fh, Leaving)) f).
Proof. apply (safe_close hang k (@at_dirs _ _ _ _ _) cf_dir at_dir (λ f, cf_file f = None)); try done. apply dir_step. Qed.

Lemma file_drop fh p f : cf_dir f = None → p = Leaving ∨ p = Cloned ∨ p = Removed →
  safe hang k (step (at_files (drop_arc fh)) : thr CW unit) (at_file (Some (fh, p)) f) (λ r f', is_Some r ∧ f' = at_file None f).
Proof. apply (safe_drop_arc hang k (@at_files _ _ _ _ _) cf_file at_file (λ f, cf_dir f = None)); try done. apply file_step. Qed.

Lemma dir_drop fh p f : cf_file f = None → p = Leaving ∨ p = Cloned ∨ p = Removed →
  safe hang k (step (at_dirs (drop_arc fh)) : thr CW unit) (at_dir (Some (fh, p)) f) (λ r f', is_Some r ∧ f' = at_dir None f).
Proof. apply (safe_drop_arc hang k (@at_dirs _ _ _ _ _) cf_dir at_dir (λ f, cf_file f = None)); try done. apply dir_step. Qed.

Lemma release_safe ino fh caller f : idle f →
  safe hang k (t_release fs ino fh caller : T _) f (λ _ f', ∃ i, f' = owes i false f).
Proof.
  intros ((Hf & Hd) & Hp & Hn). assert (f = owes None false f) as Heta by (destruct f; by simpl in *; subst).
  apply safe_try. eapply safe_mono; [by apply safe_step, cstep_detach_file|]. intros [[u|e]|] f' Hd'; [|subst f'; by exists None|done].
  subst f'. apply safe_finally.
  apply (safe_mono _ _ _ _ (λ _ f', ∃ i p, (p = Leaving ∨ p = Cloned ∨ p = Removed) ∧ f' = owes i false (at_file (Some (fh, p)) f))).
  - apply safe_node_scope; [intros e; exists (Some ino), Removed; auto|exists (Some ino), Removed; auto|]. intros n κ.
    eapply safe_after; [by apply cstep_remove_open| |intros f' [[? ?] _]; done].
    intros _ f' [_ ->]. apply safe_bind.
    eapply safe_mono; [exact (file_close fh (owes None false (hold_ref κ f)) Hd)|].
    intros r f' [[h ->] ->]. eapply safe_mono; [apply safe_callback; callbacks|].
    intros r f' ->. exists (owes None false (at_file (Some (fh, Leaving)) f)). split; [done|]. exists None, Leaving. auto.
  - intros r f' (i & p & Hpc & ->).
    eapply safe_mono; [exact (file_drop fh p (owes i false f) Hd Hpc)|].
    intros r' f' [Hr' ->]. split; [done|]. exists i. destruct f; by simpl in *; subst.
Qed.

Lemma releasedir_safe ino fh caller f : idle f →
  safe hang k (t_releasedir fs ino fh caller : T _) f (λ _ f', ∃ i, f' = owes i false f).
Proof.
  intros ((Hf & Hd) & Hp & Hn). assert (f = owes None false f) as Heta by (destruct f; by simpl in *; subst).
  apply safe_try. eapply safe_mono; [by apply safe_step, cstep_detach_dir|]. intros [[u|e]|] f' Hd'; [|subst f'; by exists None|done].
  subst f'. apply safe_finally.
  apply (safe_mono _ _ _ _ (λ _ f', ∃ i p, (p = Leaving ∨ p = Cloned ∨ p = Removed) ∧ f' = owes i false (at_dir (Some (fh, p)) f))).
  - apply safe_node_scope; [intros e; exists (Some ino), Removed; auto|exists (Some ino), Removed; auto|]. intros n κ.
    eapply safe_after; [by apply cstep_remove_open| |intros f' [[? ?] _]; done].
    intros _ f' [_ ->]. apply safe_bind.
    eapply safe_mono; [exact (dir_close fh (owes None false (hold_ref κ f)) Hf)|].
    intros r f' [[h ->] ->]. eapply safe_mono; [apply safe_callback; callbacks|].
    intros r f' ->. exists (owes None false (at_dir (Some (fh, Leaving)) f)). split; [done|]. exists None, Leaving. auto.
  - intros r f' (i & p & Hpc & ->).
    eapply safe_mono; [exact (dir_drop fh p (owes i false f) Hf Hpc)|].
    intros r' f' [Hr' ->]. split; [done|]. exists i. destruct f; by simpl in *; subst.
Qed.

(** *** Entries of a directory *)
Definition counted (id : NodeId) : token := (id, None, 1).

Lemma account_safe inner e ids base f : cf_toks f = reverse (counted <$> ids) ++ base →
  safe hang k (t_account inner e ids : thr CW _) f (λ r f',
    match r with
    | Some (_, ids') => ∃ l, f' = with_toks l f ∧ l = reverse (counted <$> ids') ++ base
    | None => f' = f
    end).
Proof.
  intros Hl. assert (f = with_toks (cf_toks f) f) as Hf by (by destruct f).
  eapply safe_after; [apply cstep_read| |by intros f' [_ ->]].
  intros [g|err] f' [_ ->]; [|by exists (cf_toks f)].
  eapply safe_after; [apply cstep_sink| |by intros f' [_ ->]].
  intros added f' [_ ->]. destruct (negb added); [by exists (cf_toks f)|].
  case_match; [|by exists (cf_toks f)].
  eapply safe_after; [apply cstep_retain_lookup| |by intros f' ->].
  intros [u|err] f' ->; [|by exists (cf_toks f)]. eexists. split; [done|].
  rewrite Hl, fmap_app, reverse_app. done.
Qed.

Lemma forget_all_safe ids base f : cf_toks f = reverse (counted <$> ids) ++ base →
  safe hang k (t_forget_all ids : thr CW _) f (λ r f', is_Some r ∧ ∃ l, f' = with_toks l f).
Proof.
  assert (∀ f, f = with_toks (cf_toks f) f) as Heta by (by intros []).
  revert f. induction ids as [|id ids IH]; intros f Hl; cbn [t_forget_all].
  { split; [by eexists|]. exists (cf_toks f). apply Heta. }
  apply safe_bind. eapply safe_mono; [apply (forget_safe f id None 1 (reverse (counted <$> ids) ++ base)); [done|]|].
  { rewrite Hl. simpl. rewrite reverse_cons. unfold counted. solve_Permutation. }
  intros r f' [[u ->] ->]. eapply safe_mono; [by apply IH|]. intros r f' [Hr [l ->]]. split; [done|]. by exists l.
Qed.

Lemma readdirplus_safe inner ino fh offset caller f : free f →
  safe hang k (t_readdirplus fs inner ino fh offset caller : T _) f (λ r f', ∃ l, f' = with_toks l f ∧
    match r with Some (Ok ids) => l = reverse (counted <$> ids) ++ cf_toks f | _ => True end).
Proof.
  assert (∀ f, f = with_toks (cf_toks f) f) as Heta by (by intros []).
  intros Hf. apply in_node_change; [done..|]. intros n g Hg Ht. specialize (Hg Hf). rewrite <- Ht. clear Ht.
  apply safe_try. eapply safe_mono; [apply safe_step, cstep_read|].
  intros [[parent|e]|] g' [_ ->]; [|by exists (cf_toks g)..].
  apply safe_dir_scope; [done|intros e; by exists (cf_toks g)|by exists (cf_toks g)|]. intros h.
  set (g1 := at_dir (Some (fh, Leasing)) g).
  apply (safe_mono _ _ _ _ (λ r f', ∃ l, f' = with_toks l g1 ∧
    match r with Some (Ok ids) => l = reverse (counted <$> ids) ++ cf_toks g | _ => True end)).
  2: { intros r f' (l & -> & Hr). exists (with_toks l g). destruct Hg. split_and!; [done..|]. by exists l. }
  apply safe_bind.
  apply (safe_run_callback _ _ _ _ [] g1 (λ ids f', ∃ l, f' = with_toks l g1 ∧ l = reverse (counted <$> ids) ++ cf_toks g)).
  - intros e ids f' (l & -> & Hl). eapply safe_mono; [by apply account_safe|].
    intros [[b ids']|] f'; [|intros ->; by exists l]. intros (l' & -> & ->). by eexists.
  - intros r ids f' (l & -> & Hl). destruct r as [u|e]; [by exists l|]. apply safe_bind.
    eapply safe_mono; [by eapply forget_all_safe|]. intros r f' [[u ->] [l' ->]]. by exists l'.
  - intros ids f' (l & -> & _). by exists l.
  - callbacks.
  - exists (cf_toks g). split; [by destruct g|done].
Qed.

(** ** The thread of a request *)

(** The lookups that a reply puts into the kernel's account, and those that a
    request takes out of it. For a listing they are the ones that the runtime
    retained, of which the runtime keeps inodes only; an entry that was sent
    without retaining its lookup is not among them. *)
Definition tokens_of (r : reply) : list token :=
  match r with
  | RepEntry (Ok e) | RepLookup (Ok (Found e)) | RepCreate (Ok (e, _)) => [told_of e]
  | RepPlus (Ok ids) => reverse (counted <$> ids)
  | _ => []
  end.
Definition returned_by (r : request K) : list token :=
  match r with ReqForget ino nlookup => [(ino, None, nlookup)] | _ => [] end.

Definition finished (r : option reply) f : Prop :=
  cf_refs f = [] ∧ free f ∧ ∀ rep, r = Some rep → ∃ l, cf_toks f = tokens_of rep ++ l.

Lemma reply_safe {A} (c : A → reply) (m : thr CW A) f (Post : option A → cframe → Prop) :
  safe hang k m f Post → (∀ a f', Post (Some a) f' → finished (Some (c a)) f') → (∀ f', Post None f' → finished None f') →
  safe hang k (t_reply c m) f finished.
Proof. intros Hm HP HN. apply safe_bind. eapply safe_mono; [exact Hm|]. intros [a|] f'; [apply HP|apply HN]. Qed.

Lemma sink_safe {A} x (m : thr CW A) f Post : safe hang k m f Post → safe hang k (t_sink x m) f Post.
Proof.
  intros Hm. eapply safe_bind, safe_mono; [apply safe_step, cstep_sink|]. by intros r f' [[u ->] ->].
Qed.

(** Frames at the end of a handler. *)
Lemma finished_toks l (r : option reply) :
  (∀ rep, r = Some rep → ∃ l', l = tokens_of rep ++ l') → finished r (with_toks l (base_frame [])).
Proof. done. Qed.

Lemma finished_still (A : Type) (c : A → reply) (m : thr CW A) :
  (∀ a, tokens_of (c a) = []) → safe hang k m (base_frame []) (still (base_frame [])) →
  safe hang k (t_reply c m) (base_frame []) finished.
Proof.
  intros Hc Hm. eapply reply_safe; [exact Hm|..].
  - intros a f' ->. split_and!; [done..|]. intros rep [= <-]. exists []. by rewrite Hc.
  - by intros f' ->.
Qed.

#[local] Hint Resolve destroy_safe statfs_safe getattr_safe setattr_safe readlink_safe access_safe setxattr_safe
  getxattr_safe listxattr_safe removexattr_safe write_safe flush_safe fsync_safe fallocate_safe lseek_safe getlk_safe
  setlk_safe fsyncdir_safe unlink_safe rmdir_safe rename_safe copy_file_range_safe init_safe read_safe readdir_safe
  sink_safe open_safe opendir_safe : served.

Lemma entry_finished (m : T EntryReply) :
  safe hang k m (base_frame []) (λ r f', ∃ l, f' = with_toks l (base_frame []) ∧
    l = match r with Some (Ok e) => [told_of e] | _ => [] end) →
  safe hang k (t_reply RepEntry m) (base_frame []) finished.
Proof.
  intros Hm. eapply reply_safe; [exact Hm|..].
  - intros a f' (l & -> & ->). apply finished_toks. intros rep [= <-]. exists []. by destruct a.
  - intros f' (l & -> & _). by apply finished_toks.
Qed.

Lemma release_finished (m : T unit) :
  safe hang k m (base_frame []) (λ _ f', ∃ i, f' = owes i false (base_frame [])) →
  safe hang k (t_reply RepUnit m) (base_frame []) finished.
Proof.
  intros Hm. eapply reply_safe; [exact Hm|..].
  - intros a f' [i ->]. split_and!; [done..|]. intros rep [= <-]. by exists [].
  - by intros f' [i ->].
Qed.

(** Every request is served safely. *)
Lemma thread_safe (r : request K) : request_wf r →
  safe hang k (thread_of fs r) (base_frame (returned_by r)) finished.
Proof.
  intros Hr. assert (free (base_frame [])) as Hfree by done. assert (idle (base_frame [])) as Hidle by done.
  destruct r; cbn [thread_of returned_by]; lazymatch goal with
  | |- context [t_reply RepEntry] => apply entry_finished, entry_safe; callbacks
  | |- context [t_release] => by apply release_finished, release_safe
  | |- context [t_releasedir] => by apply release_finished, releasedir_safe
  | |- context [t_lookup] => eapply reply_safe; [by apply lookup_safe|..]
  | |- context [t_create] => eapply reply_safe; [by apply create_safe|..]
  | |- context [t_readdirplus] => eapply reply_safe; [by apply sink_safe, readdirplus_safe|..]
  | |- context [t_forget ?i ?c] => eapply reply_safe; [apply (forget_safe _ i None c []); [exact Hr|done]|..]
  | |- _ => apply finished_still; [done|by eauto with served]
  end; clear Hr; try (intros f' (l & -> & _); by apply finished_toks).
  - intros a f' [_ ->]. apply finished_toks. intros rep [= <-]. by exists [].
  - by intros f' [_ ->].
  - intros a f' (l & -> & Hl). apply finished_toks. intros rep [= <-]. destruct a as [ids|e]; [|by exists l].
    exists []. by rewrite Hl.
  - intros a f' (l & -> & ->). apply finished_toks. intros rep [= <-]. exists []. by destruct a as [[]|].
  - intros a f' (l & -> & Hl). apply finished_toks. intros rep [= <-]. destruct a as [[e o]|e]; [|by exists l].
    exists []. by rewrite Hl.
Qed.
End handlers.
