(* ===== verification/Pool.v ===== *)
(** * A pool of request threads over one runtime

    The session's worker threads serve requests at the same time: the pool
    interleaves their steps in any order.  The kernel's side is its account of
    lookups, from which it forgets.  What holds of every pool that can be
    reached is stated here without the threads' frames. *)

From S2P Require Import Prelude Types NodeTable NodeTableInv HandleRec NodeFs Runtime RuntimeInv RuntimeSpec Requests Threads ThreadLogic ArcInv Concurrent ConcurrentSteps ConcurrentSpec.

#[local] Arguments exec_op : simpl never.

(** ** The pool *)
Section pool.
Context {N H D S : Type} `{Libc} {K : Type}.
Abbreviation CW := (World N H D S (K * Arcs H D)).

(** A request in flight: its sink and the rest of its program. *)
Record job := mkJob { j_sink : K; j_thread : thr CW reply }.

(** [p_replies] is a ghost: the answers so far, the latest first; [None] where
    the handler panicked. *)
Record pool := mkPool {
  p_rt : Runtime N H D S;
  p_arcs : Arcs H D;
  p_threads : gmap nat job;
  p_account : account;
  p_replies : list (nat * option reply);
}.

(** The kernel learns of lookups, and gives them back. *)
Definition credit (t : token) (L : account) : account :=
  match L !! t.1.1 with
  | Some (og, c) => <[t.1.1 := (match t.1.2 with Some g => Some g | None => og end, c + t.2)]> L
  | None => <[t.1.1 := (t.1.2, t.2)]> L
  end.
Definition debit (r : request K) (L : account) : option account :=
  match r with
  | ReqForget i c =>
      match L !! i with
      | Some (og, held) =>
          if c <? held then Some (<[i := (og, held - c)]> L)
          else if c =? held then Some (delete i L) else None
      | None => if c =? 0 then Some L else None
      end
  | _ => Some L
  end.

(** One step of a thread that is not blocked. *)
Definition advance {A} (t : thr CW A) (w : CW) : option (thr CW A * CW) :=
  match t with
  | Act act c p =>
      match act w with
      | (Returned b, w') => Some (c b, w')
      | (Panicked, w') => Some (p, w')
      | (Blocked, _) => None
      end
  | _ => None
  end.

Inductive action :=
| Issue (k : nat) (r : request K) (sink : K)
| Run (k : nat)
| Reply (k : nat).

Definition pool_step (fs : NodeFs N H D S) (a : action) (p : pool) : option pool :=
  match a with
  | Issue k r sink =>
      if bool_decide (is_Some (p_threads p !! k)) then None
      else if negb (match r with ReqForget _ c => 0 <=? c | _ => true end) then None
      else match debit r (p_account p) with
           | Some L => Some (mkPool (p_rt p) (p_arcs p) (<[k := mkJob sink (thread_of fs r)]> (p_threads p)) L (p_replies p))
           | None => None
           end
  | Run k =>
      match p_threads p !! k with
      | Some j =>
          match advance (j_thread j) (mkWorld (p_rt p) (j_sink j, p_arcs p)) with
          | Some (t, w) =>
              Some (mkPool (w_rt w) (w_sink w).2 (<[k := mkJob (w_sink w).1 t]> (p_threads p)) (p_account p) (p_replies p))
          | None => None
          end
      | None => None
      end
  | Reply k =>
      match p_threads p !! k with
      | Some (mkJob _ (Ret rep)) =>
          Some (mkPool (p_rt p) (p_arcs p) (delete k (p_threads p)) (foldr credit (p_account p) (tokens_of rep))
            ((k, Some rep) :: p_replies p))
      | Some (mkJob _ Unwind) =>
          Some (mkPool (p_rt p) (p_arcs p) (delete k (p_threads p)) (p_account p) ((k, None) :: p_replies p))
      | _ => None
      end
  end.

Lemma issue_wf (r : request K) : negb (match r with ReqForget _ c => 0 <=? c | _ => true end) = false → request_wf r.
Proof. destruct r; simpl; try done. by intros Hr%negb_false_iff%Z.leb_le. Qed.

Definition pool_new (rt : Runtime N H D S) : pool := mkPool rt Arcs_new ∅ ∅ [].
Definition world_of (p : pool) : World N H D S unit := mkWorld (p_rt p) tt.

(** The pools that a mounted filesystem goes through, in fewer than 2^64 - 2
    critical sections of the table. *)
Inductive pooled (fs : NodeFs N H D S) (s0 : S) : pool → Prop :=
| pooled_new w : Runtime_new fs s0 tt = (Returned tt, w) → few_steps w → pooled fs s0 (pool_new (w_rt w))
| pooled_step a p p' : pooled fs s0 p → pool_step fs a p = Some p' → few_steps (world_of p') → pooled fs s0 p'.

(** A schedule; [None] when a step is not enabled. *)
Fixpoint run_pool (fs : NodeFs N H D S) (l : list action) (p : pool) : option pool :=
  match l with
  | [] => Some p
  | a :: l =>
      match pool_step fs a p with
      | Some p' => if decide (few_steps (world_of p')) then run_pool fs l p' else None
      | None => None
      end
  end.

Lemma pooled_run fs s0 l p p' : pooled fs s0 p → run_pool fs l p = Some p' → pooled fs s0 p'.
Proof.
  revert p. induction l as [|a l IH]; intros p Hp Hrun; simpl in Hrun; [by simplify_eq|].
  destruct (pool_step fs a p) as [p1|] eqn:Hstep; [|done]. destruct (decide _); [|done].
  apply (IH p1); [|done]. by eapply pooled_step.
Qed.

(** ** The account *)
Implicit Types (L : account) (F : gmap nat cframe).

Lemma held_credit i t L : held_of i (credit t L) = held_of i L + (if decide (t.1.1 = i) then t.2 else 0).
Proof.
  unfold credit, held_of. destruct (L !! t.1.1) as [[og c]|] eqn:Hi; rewrite lookup_insert; case_decide; subst; rewrite ?Hi; lia.
Qed.

Lemma held_credits i l L : held_of i (foldr credit L l) = held_of i L + tok_count i l.
Proof. induction l as [|t l IH]; simpl; [lia|]. rewrite held_credit, IH. lia. Qed.

Lemma credits_told i g c l L : foldr credit L l !! i = Some (Some g, c) →
  (∃ c', L !! i = Some (Some g, c')) ∨ ∃ c', (i, Some g, c') ∈ l.
Proof.
  revert c. induction l as [|[[j og] n] l IH]; intros c; simpl; [intros ?; left; by exists c|].
  unfold credit at 1. simpl. assert (∀ c', foldr credit L l !! i = Some (Some g, c') →
    (∃ c', L !! i = Some (Some g, c')) ∨ ∃ c', (i, Some g, c') ∈ (j, og, n) :: l) as IH'.
  { intros c' [?|[c1 ?]]%IH; [by left|right]. exists c1. by right. }
  destruct (foldr credit L l !! j) as [[og' c']|] eqn:Hj; rewrite lookup_insert; (case_decide; [subst j|apply IH']);
    intros [= Heq Hc]; subst.
  - destruct og as [g'|]; [|subst og'; by eapply IH']. simplify_eq. right. eexists. by left.
  - right. eexists. by left.
Qed.

Lemma credits_pos l L :
  (∀ t, t ∈ l → 1 ≤ t.2) → (∀ i og c, L !! i = Some (og, c) → 1 ≤ c) →
  ∀ i og c, foldr credit L l !! i = Some (og, c) → 1 ≤ c.
Proof.
  intros Hl HL. induction l as [|t l IH]; simpl; [done|]. intros i og c. unfold credit at 1.
  assert (1 ≤ t.2) as Ht by (apply Hl; by left).
  specialize (IH ltac:(intros t' ?; apply Hl; by right)).
  destruct (foldr credit L l !! t.1.1) as [[og' c']|] eqn:Hj; rewrite lookup_insert; case_decide as Hti; try apply IH;
    intros [= <- <-]; [|done]. specialize (IH _ _ _ Hj). lia.
Qed.

Lemma tokens_one (rep : reply) t : t ∈ tokens_of rep → t.2 = 1.
Proof.
  destruct rep; simpl; repeat case_match; rewrite ?elem_of_nil, ?list_elem_of_singleton; try done; try by intros ->.
  rewrite elem_of_reverse, list_elem_of_fmap. by intros (id & -> & _).
Qed.
End pool.
