(* ===== verification/PoolInv.v ===== *)
(** * The invariant of a pool of threads

    Every pool that can be reached has frames for its threads that satisfy the
    invariant of [Concurrent], and each thread is safe from its frame on. *)

From S2P Require Import Prelude Types NodeTable NodeTableInv HandleRec NodeFs Runtime RuntimeInv RuntimeSpec Requests Threads ThreadLogic ArcInv Concurrent ConcurrentSteps ConcurrentSpec Pool.

#[local] Arguments exec_op : simpl never.
#[local] Arguments advance : simpl never.

(** ** Threads that start and end *)
Section frames.
Context {N H D S : Type} `{Libc} {K : Type}.
Implicit Types (f : cframe) (F : gmap nat cframe) (L : account) (rt : Runtime N H D S) (a : Arcs H D).

Lemma threads_idle sel F k f fh : F !! k = None → sel f = None → threads_at sel (<[k:=f]> F) fh = threads_at sel F fh.
Proof.
  intros Hk Hs. rewrite threads_insert, Hs. apply map_eq. intros j. destruct (decide (j = k)) as [->|Hne].
  - rewrite lookup_partial_alter_eq. unfold threads_at. by rewrite lookup_omap, Hk.
  - by rewrite lookup_partial_alter_ne.
Qed.

(** A thread without places joins or leaves; [L'] is the account then. *)
Lemma CI_join F f L L' n rt a k :
  F !! k = None → free f → CI F L n rt a → TI (<[k:=f]> F) L' n rt → CI (<[k:=f]> F) L' n rt a.
Proof.
  intros Hk [Hf Hd] [] HTI. split; [done|..].
  - eapply records_ext; [|exact ci_files]. intros fh. by apply threads_idle.
  - eapply records_ext; [|exact ci_dirs]. intros fh. by apply threads_idle.
  - intros k' f'. rewrite lookup_insert. case_decide; [intros [= <-]; by left|apply ci_one].
Qed.

Lemma CI_leave F f L L' n rt a k :
  F !! k = None → free f → CI (<[k:=f]> F) L n rt a → TI F L' n rt → CI F L' n rt a.
Proof.
  intros Hk [Hf Hd] [] HTI. split; [done|..].
  - eapply records_ext; [|exact ci_files]. intros fh. symmetry. by apply threads_idle.
  - eapply records_ext; [|exact ci_dirs]. intros fh. symmetry. by apply threads_idle.
  - intros k' f' Hf'. apply (ci_one k'). rewrite lookup_insert_ne; [done|]. congruence.
Qed.

(** The tokens [l] were taken off the account. *)
Definition taken_off (l : list token) L L' : Prop :=
  (∀ i, held_of i L' + tok_count i l = held_of i L) ∧
  (∀ i g c, L' !! i = Some (Some g, c) → ∃ c', L !! i = Some (Some g, c')) ∧
  ((∀ i og c, L !! i = Some (og, c) → 1 ≤ c) → ∀ i og c, L' !! i = Some (og, c) → 1 ≤ c).

Lemma taken_off_nothing l L : (∀ i, tok_count i l = 0) → taken_off l L L.
Proof. intros Ht. split_and!; [intros i; rewrite Ht; lia|by eauto|done]. Qed.

Lemma debit_spec (r : request K) L L' : request_wf r → debit r L = Some L' → taken_off (returned_by r) L L'.
Proof.
  intros Hr Hd. assert (∀ j c, r = ReqForget j c → taken_off (returned_by r) L L') as Hforget.
  2: { destruct r; simpl in *; first [by eapply Hforget|simplify_eq; by apply taken_off_nothing]. }
  intros j n ->. simpl in *.
  destruct (L !! j) as [[og c]|] eqn:Hj.
  - destruct (Z.ltb_spec n c) as [Hlt|Hge]; [|destruct (Z.eqb_spec n c) as [->|]; [|done]]; injection Hd as <-; split_and!.
    + intros i. unfold held_of. simpl. rewrite lookup_insert. repeat case_decide; try done; subst; rewrite ?Hj; lia.
    + intros i g c'. rewrite lookup_insert. case_decide; [|by eauto]. subst. intros [= -> _]. by exists c.
    + intros HL i og' c'. rewrite lookup_insert. case_decide; [|apply HL]. intros [= <- <-]. lia.
    + intros i. unfold held_of. simpl. rewrite lookup_delete. repeat case_decide; try done; subst; rewrite ?Hj; lia.
    + intros i g c'. rewrite lookup_delete. case_decide; [done|by eauto].
    + intros HL i og' c'. rewrite lookup_delete. case_decide; [done|apply HL].
  - destruct (Z.eqb_spec n 0) as [->|]; [|done]. simplify_eq. apply taken_off_nothing. intros i. simpl. by case_decide.
Qed.

Lemma TI_issue F L L' n rt k (r : request K) :
  F !! k = None → request_wf r → debit r L = Some L' → TI F L n rt → TI (<[k:=base_frame (returned_by r)]> F) L' n rt.
Proof.
  intros Hk Hr Hd []. destruct (debit_spec r L L' Hr Hd) as (Hheld & Hgen & Hpos).
  split; simpl; try done.
  - intros κ. rewrite sum_map_insert by done. apply (ti_refs κ).
  - intros i. rewrite sum_map_insert by done. apply (ti_opens i).
  - by rewrite sum_map_insert by done.
  - intros i. rewrite sum_map_insert by done. specialize (ti_held i). specialize (Hheld i). simpl. lia.
  - intros i g Hg. apply ti_gens. destruct Hg as [[c Hc]|(k' & f & c & Hf & Hin)].
    + left. by eapply Hgen.
    + right. rewrite lookup_insert in Hf. case_decide; [|by exists k', f, c]. injection Hf as <-. exfalso.
      simpl in Hin. destruct r; simpl in Hin; rewrite ?elem_of_nil, ?list_elem_of_singleton in Hin; done.
  - intros k' f. rewrite lookup_insert. case_decide; [|apply ti_toks]. intros [= <-]. simpl.
    destruct r; simpl; repeat constructor; simpl in *; [done|]. by intros [].
  - by apply Hpos.
Qed.

Lemma TI_leave F f L l n rt k :
  F !! k = None → cf_refs f = [] → (∀ t, t ∈ l → t.2 = 1) → (∃ l', cf_toks f = l ++ l') →
  TI (<[k:=f]> F) L n rt → TI F (foldr credit L l) n rt.
Proof.
  intros Hk Hrefs Hone [l' Hl] HTI. pose proof (frame_toks _ _ _ _ _ _ HTI) as Htoks. rewrite Hl in Htoks.
  apply Forall_app in Htoks as [_ Hrest]. destruct HTI. split; simpl; try done.
  - intros κ. specialize (ti_refs κ). by rewrite sum_map_insert, Hrefs in ti_refs.
  - intros i. specialize (ti_opens i). rewrite sum_map_insert in ti_opens by done.
    unfold owed_at at 1, b2z in ti_opens. case_match; lia.
  - rewrite sum_map_insert in ti_next by done. unfold b2z in ti_next at 1. case_match; lia.
  - intros i. specialize (ti_held i). rewrite sum_map_insert, Hl, tok_count_app in ti_held by done. rewrite held_credits.
    pose proof (tok_count_nonneg i l' Hrest). lia.
  - intros i g Hg. apply ti_gens. destruct Hg as [[c [Hc|[c' Hc]]%credits_told]|(k' & f' & c & Hf' & Hin)].
    + by left.
    + right. exists k, f, c'. rewrite lookup_insert_eq, Hl. split; [done|]. apply elem_of_app. by left.
    + right. exists k', f', c. rewrite lookup_insert_ne; [done|]. congruence.
  - intros k' f' Hf'. apply (ti_toks k'). rewrite lookup_insert_ne; [done|]. congruence.
  - apply credits_pos; [|done]. intros t ->%Hone. done.
Qed.
End frames.

(** ** Pools *)
Section pools.
Context {N H D S : Type} `{Libc} {K : Type} (hang : S → Prop) (fs : NodeFs N H D S) (s0 : S) (Hfs : stalling hang fs).
Implicit Types (p : pool (N := N) (H := H) (D := D) (S := S) (K := K)) (F : gmap nat cframe).

(** Each thread has a frame and is safe from it. *)
Definition framed (n : Z) p F : Prop :=
  CI F (p_account p) n (p_rt p) (p_arcs p) ∧
  ∀ k, match p_threads p !! k, F !! k with
       | Some j, Some f => safe hang k (j_thread j) f finished
       | None, None => True
       | _, _ => False
       end.

Definition PI p : Prop :=
  few_steps (world_of p) ∧ ∃ ops F, reached fs s0 (world_of p) ops ∧ framed (Z.of_nat (length ops)) p F.

Lemma framed_thread n p F k j : framed n p F → p_threads p !! k = Some j →
  ∃ f, F = <[k:=f]> (delete k F) ∧ delete k F !! k = None ∧ safe hang k (j_thread j) f finished.
Proof.
  intros [_ Hk] Hj. specialize (Hk k). rewrite Hj in Hk. destruct (F !! k) as [f|] eqn:Hf; [|done].
  exists f. split_and!; [by rewrite insert_delete_id|apply lookup_delete_eq|done].
Qed.

(** A step of the pool that is not a step on the shared state. *)
Lemma PI_same p p' : p_rt p' = p_rt p → (∀ F n, framed n p F → ∃ F', framed n p' F') → PI p → PI p'.
Proof.
  intros Hrt Hstep (Hn & ops & F & Hat & HF). unfold PI, world_of in *. rewrite Hrt. split; [done|].
  destruct (Hstep _ _ HF) as [F' HF']. by exists ops, F'.
Qed.

Lemma PI_issue p p' k r x : pool_step fs (Issue k r x) p = Some p' → PI p → PI p'.
Proof.
  intros Hstep. simpl in Hstep. case_bool_decide as Hk; [done|]. apply eq_None_not_Some in Hk.
  destruct (negb _) eqn:Hr; [done|]. destruct (debit r (p_account p)) as [L|] eqn:Hd; simplify_eq.
  assert (request_wf r) as Hwf by (by apply issue_wf).
  apply PI_same; [done|]. intros F n [HCI Ht]. pose proof (Ht k) as Hkf. rewrite Hk in Hkf.
  destruct (F !! k) as [f|] eqn:Hf; [done|]. exists (<[k:=base_frame (returned_by r)]> F). split; simpl.
  - eapply CI_join; [done|done|done|]. eapply TI_issue; [done..|apply HCI].
  - intros k'. rewrite !lookup_insert. case_decide; [subst|apply Ht]. by apply thread_safe.
Qed.

Lemma PI_reply p p' k : pool_step fs (Reply k) p = Some p' → PI p → PI p'.
Proof.
  intros Hstep. simpl in Hstep. destruct (p_threads p !! k) as [[x t]|] eqn:Hj; [|done].
  assert (∀ l L q, p' = mkPool (p_rt p) (p_arcs p) (delete k (p_threads p)) L q → L = foldr credit (p_account p) l →
    (∀ t, t ∈ l → t.2 = 1) → (∀ f, safe hang k t f finished → finished (match t with Ret a => Some a | _ => None end) f ∧
      ∃ l', cf_toks f = l ++ l') → PI p → PI p') as Hleave.
  { intros l L q -> -> Hone Hfin. apply PI_same; [done|]. intros F n HF.
    destruct (framed_thread _ _ _ _ _ HF Hj) as (f & HFk & Hk & Hsafe). destruct HF as [HCI Ht].
    destruct (Hfin f Hsafe) as [(Hrefs & Hfree & _) Hl]. exists (delete k F). split; simpl.
    - rewrite HFk in HCI. eapply CI_leave; [exact Hk|exact Hfree|exact HCI|]. eapply TI_leave; [done..|]. apply HCI.
    - intros k'. rewrite !lookup_delete. case_decide; [done|apply Ht]. }
  destruct t as [rep| |]; simplify_eq.
  - apply (Hleave (tokens_of rep) _ _ eq_refl eq_refl); [apply tokens_one|]. intros f Hsafe. split; [exact Hsafe|].
    by apply Hsafe.
  - apply (Hleave [] _ _ eq_refl eq_refl); [by intros t ?%elem_of_nil|]. intros f Hsafe. split; [exact Hsafe|]. by exists (cf_toks f).
Qed.

Lemma framed_go n p F k x {B} (act : M _ B) c u f :
  framed n p F → p_threads p !! k = Some (mkJob x (Act act c u)) → F = <[k:=f]> (delete k F) →
  safe hang k (Act act c u) f finished →
  let w := mkWorld (p_rt p) (x, p_arcs p) in
  ∃ ops, one_op ops ∧ made ops w (act w).2 ∧
    ∀ issued, inv_but None n issued (sh_of w) → n + Z.of_nat (length ops) + 2 ≤ u64_max →
      match advance (Act act c u) w with
      | Some (t', w') => ∃ F', framed (n + Z.of_nat (length ops)) (mkPool (w_rt w') (w_sink w').2
          (<[k:=mkJob (w_sink w').1 t']> (p_threads p)) (p_account p) (p_replies p)) F'
      | None => hang (rt_fs (p_rt p)) ∨ waits cf_file f (delete k F) ∨ waits cf_dir f (delete k F)
      end.
Proof.
  intros [HCI Ht] Hj HFk (Q & Hact & Hc & Hu) w. destruct (Hact w) as (ops & Hops & Hmade & Hs).
  exists ops. split_and!; [done..|]. intros issued Hinv Hn. rewrite HFk in HCI.
  specialize (Hs _ _ _ _ (lookup_delete_eq _ _) Hinv Hn HCI).
  assert (∀ f' t' w', CIW (<[k:=f']> (delete k F)) (p_account p) (n + Z.of_nat (length ops)) w' →
    safe hang k t' f' finished →
    ∃ F', framed (n + Z.of_nat (length ops)) (mkPool (w_rt w') (w_sink w').2 (<[k:=mkJob (w_sink w').1 t']> (p_threads p))
      (p_account p) (p_replies p)) F') as Hframe.
  { intros f' t' w' HCI' Hsafe. exists (<[k:=f']> (delete k F)). split; [done|]. intros k'. simpl.
    rewrite !lookup_insert. case_decide; [by subst|]. rewrite lookup_delete_ne by done. apply Ht. }
  unfold advance. destruct (act w) as [[b| |] w']; [..|done]; destruct Hs as (f' & HQ & HCI').
  - apply (Hframe f'); [done|]. by apply Hc.
  - apply (Hframe f'); [done|]. by apply Hu.
Qed.

Lemma PI_run p p' k : pool_step fs (Run k) p = Some p' → few_steps (world_of p') → PI p → PI p'.
Proof.
  intros Hstep Hn' (Hn & ops & F & Hat & HF). split; [done|]. simpl in Hstep.
  destruct (p_threads p !! k) as [[x t]|] eqn:Hj; [|done].
  destruct (framed_thread _ _ _ _ _ HF Hj) as (f & HFk & Hk & Hsafe). simpl in *. destruct t as [| |B act c u]; [done..|].
  destruct (framed_go _ _ _ _ _ _ _ _ _ HF Hj HFk Hsafe) as (ops' & [Hwf' _] & [Hsh Hle] & Hgo).
  destruct (reached_inv fs s0 _ _ Hat Hn) as [issued Hinv]. destruct Hat as (Hwf & Hsh0 & Hle0).
  specialize (Hgo issued Hinv). set (w := mkWorld (p_rt p) (x, p_arcs p)) in *.
  assert (p_rt p' = w_rt (act w).2) as Hrt.
  { unfold advance in Hstep. by destruct (act w) as [[b| |] w']; simplify_eq. }
  unfold few_steps, world_of, steps_of, sh_of in *. simpl in *. rewrite Hrt in *.
  specialize (Hgo ltac:(lia)). destruct (advance (Act act c u) w) as [[t' w']|]; [|done]. simplify_eq.
  destruct Hgo as [F' HF']. exists (ops ++ ops'), F'. split.
  - unfold reached, sh_of, steps_of. simpl in *. split_and!.
    + by apply Forall_app.
    + by rewrite run_ops_app, <- Hsh0.
    + rewrite length_app. lia.
  - by rewrite length_app, Nat2Z.inj_add.
Qed.

(** ** The first pool: nothing runs, nothing is open *)
Lemma run_prog_handles {E A X} (emit : E → M (World N H D S X) bool) (m : prog N S E A) (t : HandleTable H D) :
  (∀ e w, rt_handles (w_rt w) = t → rt_handles (w_rt (emit e w).2) = t) →
  ∀ w, rt_handles (w_rt w) = t → rt_handles (w_rt (run_prog emit m w).2) = t.
Proof.
  intros He. assert (∀ {B C} (a : M (World N H D S X) B) (c : B → M (World N H D S X) C) w,
    rt_handles (w_rt (a w).2) = t → (∀ b w, rt_handles (w_rt w) = t → rt_handles (w_rt (c b w).2) = t) →
    rt_handles (w_rt ((a ≫= c) w).2) = t) as Hbind.
  { intros B C a c w Ha Hc. unfold mbind, M_bind. destruct (a w) as [[b| |] w']; simpl in *; auto. }
  assert (∀ {B C} (a : M (World N H D S X) B) (c : B → M (World N H D S X) C) u w,
    rt_handles (w_rt (a w).2) = t → (∀ b w, rt_handles (w_rt w) = t → rt_handles (w_rt (c b w).2) = t) →
    (∀ w, rt_handles (w_rt w) = t → rt_handles (w_rt (u w).2) = t) → rt_handles (w_rt (attempt a c u w).2) = t) as Htry.
  { intros B C a c u w Ha Hc Hu. unfold attempt. destruct (a w) as [[b| |] w']; simpl in *; auto. }
  assert (∀ {B} (a : M (Shared N) B) (w : World N H D S X), rt_handles (w_rt w) = t → rt_handles (w_rt (on_shared a w).2) = t) as Hsh.
  { intros B a w Hw. unfold on_shared, zoom. by destruct (a _). }
  induction m; intros w Hw; simpl; try (first [apply Hbind|apply Htry]; [|by auto..]); try (by auto).
  - unfold own_step. by repeat case_match.
  - unfold fs_get. apply Hbind; [by auto|]. intros [l|] w' Hw'; [|done]. by apply Hbind; [|intros].
  - unfold fs_drop_ref. case_bool_decide; [|done]. by apply Hbind; [auto|intros].
Qed.

Lemma new_handles w o : Runtime_new fs s0 tt = (o, w) → rt_handles (w_rt w) = HandleTable_new.
Proof.
  intros Hnew. pose proof (run_prog_handles (λ e : Empty_set, match e with end) (fs_populate fs) HandleTable_new ltac:(by intros [])
    (mkWorld (Runtime_start fs s0) tt)) as Hh.
  unfold Runtime_new, call in Hnew. rewrite Hnew in Hh. apply Hh. simpl. unfold Runtime_start. by destruct (fs_root fs s0).
Qed.

Lemma records_new {T} next : records_ok next (∅, Detached_new (T := T)) (threads_at cf_file ∅) ∧
  records_ok next (∅, Detached_new (T := T)) (threads_at cf_dir ∅).
Proof.
  assert (∀ sel fh, threads_at sel ∅ fh = ∅) as He by (intros; unfold threads_at; apply omap_empty).
  split; (split; [done|]); intros fh; rewrite He; unfold view_ok, view, arcs; simpl; rewrite !lookup_empty; split_and!; (done || (simpl; lia)).
Qed.

Lemma PI_new w : Runtime_new fs s0 tt = (Returned tt, w) → few_steps w → PI (pool_new (w_rt w)).
Proof.
  intros Hnew Hn. assert (world_of (pool_new (K := K) (w_rt w)) = w) as Hw by (by destruct w as [? []]). unfold PI. rewrite Hw.
  split; [done|]. destruct (new_step fs s0 tt w Hnew) as (ops & Hat & HRI). exists ops, ∅. split; [done|].
  specialize (HRI Hn). destruct (reached_inv fs s0 _ _ Hat Hn) as [issued Hinv]. pose proof (new_handles _ _ Hnew) as Hh.
  split; [|intros k; simpl; by rewrite !lookup_empty]. unfold pool_new; simpl.
  split; [|rewrite Hh; apply records_new..|by intros k f; rewrite lookup_empty].
  destruct HRI. split; simpl.
  - intros κ. rewrite sum_map_empty. specialize (ri_refs κ). simpl in ri_refs. rewrite elem_of_nil in ri_refs.
    unfold sh_of in *. rewrite Z.add_0_r. f_equal. apply bool_decide_ext. tauto.
  - intros i. rewrite sum_map_empty. specialize (ri_opens i). unfold owed in ri_opens. simpl in *. lia.
  - rewrite sum_map_empty. simpl in ri_next. lia.
  - intros i. rewrite sum_map_empty. unfold held_of, lookups_at. rewrite lookup_empty.
    destruct (tbl_map _ !! i) as [s|] eqn:Hs; [|lia]. pose proof (slot_bounds_of _ _ _ _ _ Hinv Hs) as (_ & ? & _). int_lia.
  - intros i g [[c Hc]|(k & f & c & Hf & _)]; by rewrite lookup_empty in *.
  - intros k f. by rewrite lookup_empty.
  - intros i og c. by rewrite lookup_empty.
Qed.

(** Every pool that can be reached satisfies the invariant. *)
Lemma pooled_PI p : pooled fs s0 p → PI p.
Proof.
  induction 1 as [w Hnew Hn|a p p' _ IH Hstep Hn]; [by apply PI_new|].
  destruct a; [by eapply PI_issue|by eapply PI_run|by eapply PI_reply].
Qed.
End pools.
