(* ===== verification/PoolSpec.v ===== *)
(** * What holds under every interleaving

    For every filesystem and every schedule of requests and of their steps: the
    kernel's lookups stay counted, open handles pin their nodes, a handle's
    payload is used and consumed at most while it is there, nothing is left
    behind, and, when callbacks return, no schedule leaves a request
    unanswered. *)

From S2P Require Import Prelude Types NodeTable NodeTableInv HandleRec NodeFs Runtime RuntimeInv RuntimeSpec Requests Threads ThreadLogic ArcInv Concurrent ConcurrentSteps ConcurrentSpec Pool PoolInv.

#[local] Arguments exec_op : simpl never.
#[local] Arguments advance : simpl never.

(** ** Safety *)
Section safety.
Context {N H D S : Type} `{Libc} {K : Type} (fs : NodeFs N H D S) (s0 : S).
Implicit Types (p : pool (N := N) (H := H) (D := D) (S := S) (K := K)) (F : gmap nat cframe).

(** A filesystem may hang, here. *)
Lemma pooled_frames p : pooled fs s0 p → ∃ n issued F,
  inv_but None n issued (rt_shared (p_rt p)) ∧ framed (λ _, True) n p F.
Proof.
  intros Hp. destruct (pooled_PI (λ _, True) fs s0 (stalling_always fs) p Hp) as (Hn & ops & F & Hat & HF).
  destruct (reached_inv fs s0 _ _ Hat Hn) as [issued Hinv]. by exists (Z.of_nat (length ops)), issued, F.
Qed.

(** A record that the table holds has its payload. *)
Lemma records_table {T} next (hs : gmap Z (HandleRecord T) * Detached T) pcs fh r :
  records_ok next hs pcs → hs.1 !! fh = Some r → 0 < fh < next ∧ events_of fh (dt_events hs.2) = [].
Proof.
  intros [_ Hok] Hr. specialize (Hok fh). unfold view_ok, view in Hok. simpl in Hok. rewrite Hr in Hok.
  destruct (dt_records hs.2 !! fh); [done|]. destruct Hok. split; [done|].
  pose proof (hreach_inv _ l_reach) as Hinv. destruct (h_table _ Hinv eq_refl) as [_ Ht].
  destruct (h_untaken _ Hinv Ht) as [?|(_ & ? & _)]; done.
Qed.

Lemma records_once {T} next (hs : gmap Z (HandleRecord T) * Detached T) pcs fh :
  records_ok next hs pcs → (length (events_of fh (dt_events hs.2)) ≤ 1)%nat.
Proof.
  intros [_ Hok]. specialize (Hok fh). unfold view_ok in Hok.
  assert (∀ b r m, live next fh b r (view fh hs) m → (length (events_of fh (dt_events hs.2)) ≤ 1)%nat) as Hlive.
  { intros b r m []. pose proof (hreach_inv _ l_reach) as Hinv. destruct (taken (hr_state r)) eqn:Ht.
    - destruct (h_taken _ Hinv Ht) as (_ & _ & [[He _]|He]); simpl in He; rewrite He; simpl; lia.
    - destruct (h_untaken _ Hinv Ht) as [He|[He _]]; simpl in He; rewrite He; simpl; lia. }
  destruct (v_table (view fh hs)), (v_detached (view fh hs)); [done|by eapply Hlive..|]. by destruct Hok as (_ & _ & ? & _).
Qed.

Lemma records_quiet {T} next (hs : gmap Z (HandleRecord T) * Detached T) pcs :
  records_ok next hs pcs → (∀ fh, pcs fh = ∅) →
  dt_records hs.2 = ∅ ∧ ∀ fh r, hs.1 !! fh = Some r → active (hr_state r) = 0 ∧ closing (hr_state r) = false.
Proof.
  intros [_ Hok] Hq. split.
  - apply map_eq. intros fh. rewrite lookup_empty. specialize (Hok fh). rewrite Hq in Hok. unfold view_ok, view in Hok. simpl in Hok.
    destruct (hs.1 !! fh), (dt_records hs.2 !! fh); try done. destruct Hok. by destruct (l_held eq_refl).
  - intros fh r Hr. specialize (Hok fh). rewrite Hq in Hok. unfold view_ok, view in Hok. simpl in Hok. rewrite Hr in Hok.
    destruct (dt_records hs.2 !! fh); [done|]. destruct Hok. pose proof (hreach_inv _ l_reach) as Hinv.
    split; [|exact (proj1 (h_table _ Hinv eq_refl))]. pose proof (h_active _ Hinv) as Ha. simpl in Ha. rewrite Ha. apply count_map_empty.
Qed.

(** C4: under every interleaving of the request threads, the lookups of the
    kernel's account are counted. The account gains one lookup with each entry
    reply (of lookup, mknod, mkdir, symlink, link, create), which also sets the
    generation of its inode, and one with each entry of a readdirplus listing
    whose lookup the runtime retained; a forget, for which the kernel has as
    many lookups in its account, takes them out when it is received. Every inode of the account is in the node table with at least as
    many lookups, and with the generation of the last entry reply about it. (Not
    in the account is an entry that a listing sent although its lookup could not
    be retained: see [listing_can_lose_a_lookup] of [PoolSample].) *)
Theorem kernel_lookups_survive_interleaving p i og c :
  pooled fs s0 p → p_account p !! i = Some (og, c) →
  ∃ s, tbl_map (sh_table (rt_shared (p_rt p))) !! i = Some s ∧ 1 ≤ c ≤ slot_lookups s ∧
    ∀ g, og = Some g → slot_generation s = g.
Proof.
  intros Hp Hi. destruct (pooled_frames p Hp) as (n & issued & F & Hinv & [[[] _ _ _] _]).
  pose proof (ti_account i og c Hi) as Hc. specialize (ti_held i).
  destruct (held_sum F (p_account p) i ti_toks ti_account) as [_ Hsum]. unfold held_of, lookups_at in ti_held. rewrite Hi in ti_held.
  destruct (tbl_map _ !! i) as [s|] eqn:Hs; [|lia]. exists s. split_and!; [done|lia|lia|].
  intros g ->. destruct (ti_gens i g) as (s' & Hs' & Hg); [left; by exists c|]. congruence.
Qed.

(** C3: under every interleaving, no thread touches a freed handle record or a payload that was moved out, each handle's payload is consumed (handed to [release] or dropped) at most once, and the payload of a handle that is in the table was not consumed. *)
Theorem handles_survive_interleaving p :
  pooled fs s0 p →
  let a := p_arcs p in let t := rt_handles (p_rt p) in
  (dt_ub (arc_files a) = false ∧ dt_ub (arc_dirs a) = false) ∧
  (∀ fh, (length (events_of fh (dt_events (arc_files a))) ≤ 1)%nat ∧ (length (events_of fh (dt_events (arc_dirs a))) ≤ 1)%nat) ∧
  (∀ fh r, files t !! fh = Some r → events_of fh (dt_events (arc_files a)) = []) ∧
  (∀ fh r, dirs t !! fh = Some r → events_of fh (dt_events (arc_dirs a)) = []).
Proof.
  intros Hp. destruct (pooled_frames p Hp) as (n & issued & F & _ & [[_ Hf Hd _] _]). simpl. split_and!.
  - apply Hf.
  - apply Hd.
  - intros fh. split; [by eapply (records_once _ (_, _))|by eapply (records_once _ (_, _))].
  - intros fh r Hr. by apply (records_table _ _ _ fh r Hf).
  - intros fh r Hr. by apply (records_table _ _ _ fh r Hd).
Qed.

(** C6: under every interleaving, the node of each open handle is in the node table with at least as many opens counted as there are handles on it, so no schedule of drops and forgets removes it. *)
Theorem open_handles_survive_interleaving p i :
  pooled fs s0 p → 0 < handle_count i (rt_handles (p_rt p)) →
  ∃ s, tbl_map (sh_table (rt_shared (p_rt p))) !! i = Some s ∧ handle_count i (rt_handles (p_rt p)) ≤ slot_opens s.
Proof.
  intros Hp Hi. destruct (pooled_frames p Hp) as (n & issued & F & _ & [[[] _ _ _] _]). specialize (ti_opens i).
  pose proof (sum_map_nonneg (owed_at i) F ltac:(intros f; unfold owed_at, b2z; case_match; lia)).
  unfold opens_at in ti_opens. destruct (tbl_map _ !! i) as [s|]; [|lia]. exists s. split; [done|lia].
Qed.

(** C7: whenever no request is in flight, whatever happened before, the node leases that exist are those the filesystem keeps, no handle record lives outside the table, and no handle in the table is leased or closing. *)
Theorem idle_pool_keeps_nothing p :
  pooled fs s0 p → p_threads p = ∅ →
  (∀ κ, is_Some (sh_refs (rt_shared (p_rt p)) !! κ) ↔ κ ∈ rt_fs_refs (p_rt p)) ∧
  dt_records (arc_files (p_arcs p)) = ∅ ∧ dt_records (arc_dirs (p_arcs p)) = ∅ ∧
  (∀ fh r, files (rt_handles (p_rt p)) !! fh = Some r → active (hr_state r) = 0 ∧ closing (hr_state r) = false) ∧
  (∀ fh r, dirs (rt_handles (p_rt p)) !! fh = Some r → active (hr_state r) = 0 ∧ closing (hr_state r) = false).
Proof.
  intros Hp Hth. destruct (pooled_frames p Hp) as (n & issued & F & _ & [[[] Hf Hd _] Hk]).
  assert (F = ∅) as ->.
  { apply map_eq. intros k. specialize (Hk k). rewrite Hth, lookup_empty in Hk. rewrite lookup_empty. by destruct (F !! k). }
  assert (∀ sel fh, threads_at sel ∅ fh = ∅) as He by (intros; unfold threads_at; apply omap_empty).
  destruct (records_quiet _ _ _ Hf (He cf_file)) as [Hrf Hsf]. destruct (records_quiet _ _ _ Hd (He cf_dir)) as [Hrd Hsd].
  split_and!; [|done..]. intros κ. specialize (ti_refs κ). rewrite sum_map_empty, Z.add_0_r in ti_refs.
  unfold b2z in ti_refs. repeat case_bool_decide; tauto || done.
Qed.
End safety.

(** ** Liveness *)

(** A finite map whose entries shrink one at a time, or go. *)
Section shrinking.
Context {A : Type} (lt : A → A → Prop).

Definition map_lt (m' m : gmap nat A) : Prop :=
  ∃ k x, m !! k = Some x ∧ (m' = delete k m ∨ ∃ x', lt x' x ∧ m' = <[k:=x']> m).

Lemma map_lt_insert k x m : Acc lt x → Acc map_lt m → m !! k = None → Acc map_lt (<[k:=x]> m).
Proof.
  intros Hx. revert m. induction Hx as [x Hx IHx]. intros m Hm. induction Hm as [m Hm IHm]. intros Hk.
  constructor. intros m' (k1 & x1 & Hk1 & Hstep). rewrite lookup_insert in Hk1. case_decide as Hkk; simplify_eq.
  - destruct Hstep as [->|(x' & Hlt & ->)]; [rewrite delete_insert_id by done; by constructor|].
    rewrite insert_insert_eq. apply IHx; [done|by constructor|done].
  - assert (map_lt (delete k1 m) m) as Hdel by (exists k1, x1; auto).
    destruct Hstep as [->|(x' & Hlt & ->)].
    + rewrite delete_insert_ne by done. apply IHm; [done|]. by rewrite lookup_delete_ne.
    + rewrite insert_insert_ne by done. apply IHm; [exists k1, x1; naive_solver|]. by rewrite lookup_insert_ne.
Qed.

Lemma map_lt_wf m : (∀ x, Acc lt x) → Acc map_lt m.
Proof.
  intros Hlt. induction m as [|k x m Hk IH] using map_ind; [|by apply map_lt_insert].
  constructor. intros m' (k & x & Hk & _). by rewrite lookup_empty in Hk.
Qed.
End shrinking.

Section liveness.
Context {N H D S : Type} `{Libc} {K : Type} (fs : NodeFs N H D S) (s0 : S).
Implicit Types (p : pool (N := N) (H := H) (D := D) (S := S) (K := K)) (F : gmap nat cframe).

(** Steps that serve the requests in flight. *)
Definition serving (a : action (K := K)) : bool := match a with Issue _ _ _ => false | _ => true end.

Definition thread_lt (j' j : job (N := N) (H := H) (D := D) (S := S) (K := K)) : Prop :=
  match j_thread j with Act act c u => (∃ b, j_thread j' = c b) ∨ j_thread j' = u | _ => False end.

Lemma thread_lt_wf j : Acc thread_lt j.
Proof.
  destruct j as [x t]. revert x. induction t as [a| |B act c IHc u IHu]; intros x; constructor; intros [x' t']; unfold thread_lt; simpl;
    [done|done|]. intros [[b ->]| ->]; auto.
Qed.

(** The requests in flight take finitely many steps, on every schedule. *)
Lemma serving_wf p : Acc (λ p' p, ∃ a, serving a = true ∧ pool_step fs a p = Some p') p.
Proof.
  assert (∀ m, Acc (map_lt thread_lt) m → ∀ p, p_threads p = m →
    Acc (λ p' p, ∃ a, serving a = true ∧ pool_step fs a p = Some p') p) as Hgo; [|by eapply Hgo; [apply map_lt_wf, thread_lt_wf|]].
  clear p. intros m Hm. induction Hm as [m _ IH]. intros p Hp. constructor. intros p' (a & Ha & Hstep).
  apply (IH (p_threads p')); [|done]. subst m. destruct a as [k r x|k|k]; [done|..]; simpl in Hstep;
    destruct (p_threads p !! k) as [j|] eqn:Hj; try done; exists k, j; split; try done.
  - right. destruct j as [x t]. simpl in Hstep. destruct t as [| |B act c u]; try done. unfold advance in Hstep.
    destruct (act _) as [[b| |] w']; simplify_eq; eexists; (split; [|done]); unfold thread_lt; simpl; eauto.
  - left. destruct j as [x [a| |]]; by simplify_eq.
Qed.

Lemma few_more p : Z.of_nat (rt_steps (p_rt p)) + 3 ≤ u64_max → few_steps (world_of p).
Proof. unfold few_steps, steps_of, world_of. simpl. lia. Qed.

(** A pool with a request in flight has a step, unless the filesystem's state
    is one in which its callbacks wait. *)
Lemma pool_progress hang p :
  stalling hang fs → pooled fs s0 p → Z.of_nat (rt_steps (p_rt p)) + 3 ≤ u64_max → p_threads p ≠ ∅ →
  (∃ a p', serving a = true ∧ pool_step fs a p = Some p') ∨ hang (rt_fs (p_rt p)).
Proof.
  intros Ht Hp Hmore Hne. pose proof (few_more p Hmore) as Hn. destruct (pooled_PI hang fs s0 Ht p Hp) as (_ & ops & F & Hat & HF).
  destruct (reached_inv fs s0 _ _ Hat Hn) as [issued Hinv]. destruct Hat as (_ & _ & Hle). unfold steps_of in Hle. simpl in Hle.
  set (steps := (∃ a p', serving a = true ∧ pool_step fs a p = Some p') ∨ hang (rt_fs (p_rt p))).
  (* A thread that is not blocked by a lease has a step. *)
  assert (∀ k j f, p_threads p !! k = Some j → F = <[k:=f]> (delete k F) → safe hang k (j_thread j) f finished →
    steps ∨ waits cf_file f (delete k F) ∨ waits cf_dir f (delete k F)) as Hgo.
  { intros k [x t] f Hj HFk Hsafe. destruct t as [rep| |B act c u].
    - do 2 left. exists (Reply k). simpl. rewrite Hj. by eexists.
    - do 2 left. exists (Reply k). simpl. rewrite Hj. by eexists.
    - destruct (framed_go _ _ _ _ _ _ _ _ _ _ HF Hj HFk Hsafe) as (ops' & [_ Hone] & _ & Hstep).
      specialize (Hstep issued Hinv ltac:(lia)). destruct (advance _ _) as [[t' w']|] eqn:Hadv.
      + do 2 left. exists (Run k). simpl. rewrite Hj. simpl. rewrite Hadv. by eexists.
      + destruct Hstep as [?|[?|?]]; [left; by right|auto..]. }
  destruct (map_choose _ Hne) as (k & j & Hj). destruct (framed_thread _ _ _ _ _ _ HF Hj) as (f & HFk & _ & Hsafe).
  destruct (Hgo _ _ _ Hj HFk Hsafe) as [?|Hwait]; [done|].
  assert (∀ sel, (sel = cf_file ∨ sel = cf_dir) → waits sel f (delete k F) → steps) as Hlease.
  { intros sel Hsel (fh & k' & f' & _ & Hf' & Hl). apply lookup_delete_Some in Hf' as [Hkk Hf'].
    destruct HF as [HCI Hk]. pose proof (Hk k') as Hk'. rewrite Hf' in Hk'. destruct (p_threads p !! k') as [j'|] eqn:Hj'; [|done].
    pose proof (ci_one _ _ _ _ _ HCI k' f' Hf') as Hone.
    assert (F = <[k':=f']> (delete k' F)) as HFk' by (by rewrite insert_delete_id).
    destruct (Hgo _ _ _ Hj' HFk' Hk') as [?|[Hw|Hw]]; [done|..]; exfalso; destruct Hw as (fh' & ? & ? & Hw & _);
      destruct Hsel; subst sel; destruct Hone; congruence. }
  destruct Hwait as [Hw|Hw]; (eapply Hlease; [|exact Hw]; auto).
Qed.

(** The table's steps are only added to. *)
Lemma steps_grow p a p' : pooled fs s0 p → pool_step fs a p = Some p' → (rt_steps (p_rt p) ≤ rt_steps (p_rt p'))%nat.
Proof.
  intros Hp Hstep. destruct (pooled_PI (λ _, True) fs s0 (stalling_always fs) p Hp) as (_ & ops & F & _ & HF).
  destruct a as [k r x|k|k]; simpl in Hstep.
  - case_bool_decide; [done|]. destruct (negb _); [done|]. by destruct (debit _ _); simplify_eq.
  - destruct (p_threads p !! k) as [[x t]|] eqn:Hj; [|done].
    destruct (framed_thread _ _ _ _ _ _ HF Hj) as (f & HFk & _ & Hsafe). simpl in *. destruct t as [| |B act c u]; [done..|].
    destruct (framed_go _ _ _ _ _ _ _ _ _ _ HF Hj HFk Hsafe) as (ops' & _ & [_ Hle] & _). unfold steps_of, advance in *. simpl in *.
    destruct (act _) as [[b| |] w']; simplify_eq; simpl in *; lia.
  - destruct (p_threads p !! k) as [[x [rep| |]]|]; by simplify_eq.
Qed.

(** On every schedule that serves the requests in flight, as long as the pools
    it goes through are [ok], the pool becomes idle. *)
Inductive drains (ok : pool (N := N) (H := H) (D := D) (S := S) (K := K) → Prop) : pool (N := N) (H := H) (D := D) (S := S) (K := K) → Prop :=
| drains_idle p : p_threads p = ∅ → drains ok p
| drains_next p :
    (∃ a p', serving a = true ∧ pool_step fs a p = Some p') →
    (∀ a p', serving a = true → pool_step fs a p = Some p' → ok p' → drains ok p') →
    drains ok p.

(** The table made fewer than 2^64 - 3 steps. *)
Definition early p : Prop := Z.of_nat (rt_steps (p_rt p)) + 3 ≤ u64_max.

(** C5: when the filesystem's callbacks return, the requests in flight are all answered on every schedule of their threads: as long as one is left some thread has a step (no deadlock, in particular of a release that waits for the leases of its handle), and there is no infinite schedule. *)
Theorem every_schedule_answers p :
  terminating fs → pooled fs s0 p → early p → drains early p.
Proof.
  intros Ht. induction (serving_wf p) as [p _ IH]. intros Hp Hmore.
  destruct (decide (p_threads p = ∅)) as [?|Hne]; [by apply drains_idle|].
  apply drains_next.
  - destruct (pool_progress (λ _, False) p (terminating_stalling _ fs Ht) Hp Hmore Hne); done.
  - intros a p' Ha Hstep Hmore'. apply IH; [by exists a| |done]. eapply pooled_step; [done..|]. by apply few_more.
Qed.
End liveness.
