(* ===== verification/Testing.v ===== *)
(** * What the repository's tests are made of

    The tests under [#[cfg(test)]] are programs over the model, which panic when
    an assertion fails; a test passes when it returns.  Those that start threads
    run a pool. *)

From S2P Require Import Prelude Types NodeTable HandleRec NodeFs Runtime RuntimeInv Requests Threads Pool.

(** ** Assertions *)
Section assertions.
Context {W : Type}.

Definition assert (b : bool) : M W unit := if b then mret tt else panic.
Definition assert_eq {A} `{EqDecision A} (x y : A) : M W unit := assert (bool_decide (x = y)).
Definition unwrap {E A} (r : Result E A) : M W A := match r with Ok a => mret a | Err _ => panic end.
Definition unwrap_err {E A} (r : Result E A) : M W E := match r with Ok _ => panic | Err e => mret e end.
Definition expect {A} (o : option A) : M W A := match o with Some a => mret a | None => panic end.

(** [std::panic::catch_unwind]: whether there was one. *)
Definition catch_unwind {A} (m : M W A) : M W bool := attempt m (λ _, mret false) (mret true).

(** [for x in l { m x }] *)
Fixpoint for_each {A} (l : list A) (m : A → M W unit) : M W unit :=
  match l with
  | [] => mret tt
  | x :: l => _ ← m x; for_each l m
  end.
End assertions.

(** A test, from [Runtime::new] on. *)
Definition passes {N H D S K A : Type} (fs : NodeFs N H D S) (s : S) (k : K) (test : M (World N H D S K) A) : bool :=
  match Runtime_new fs s k with
  | (Returned _, w) => match test w with (Returned _, _) => true | _ => false end
  | _ => false
  end.

(** ** Threads *)
Section threads.
Context {N H D S K : Type} `{Libc} (fs : NodeFs N H D S).
Abbreviation P := (pool (N := N) (H := H) (D := D) (S := S) (K := K)).

(** Each thread of [ks] in turn takes a step, if it has one; [n] rounds. *)
Definition turn (p : P) (k : nat) : P :=
  match pool_step fs (Run k) p with
  | Some p' => p'
  | None => default p (pool_step fs (Reply k) p)
  end.
Definition rounds (ks : list nat) (n : nat) (p : P) : P := Nat.iter n (λ p, foldl turn p ks) p.
Definition issue (k : nat) (r : request K) (sink : K) (p : P) : P := default p (pool_step fs (Issue k r sink) p).

(** [thread::spawn]: the request of thread [k]. *)
Definition reply_of (k : nat) (p : P) : option (option reply) :=
  snd <$> find (λ x, bool_decide (x.1 = k)) (p_replies p).

(** A request that runs from start to end, in [n] steps. *)
Definition whole (n k : nat) (r : request K) (sink : K) : list action := Issue k r sink :: repeat (Run k) n ++ [Reply k].
End threads.
