(* ===== verification/PoolSample.v ===== *)
(** * Pools that run

    A small filesystem whose one file can be looked up, opened, read, listed and
    unlinked, and schedules of several requests on it: the theorems of
    [PoolSpec] at a pool where a release waits for a reader, and two schedules
    that show what they do not promise. *)

From S2P Require Import Prelude Types NodeTable NodeTableInv HandleRec NodeFs Runtime RuntimeInv RuntimeSpec Requests Threads ArcInv Concurrent ConcurrentSteps ConcurrentSpec Pool PoolInv PoolSpec.

Section sample.
Local Existing Instance linux_libc.

(** The file's name and inode while it is linked, and how many files there
    were. *)
Abbreviation St := (option (OsString * NodeId) * nat)%type.

(** A file's size tells the files apart. *)
Definition one_attr (n : nat) : NodeAttr := {|
  attr_size := Z.of_nat n; attr_blocks := 0; attr_atime := UNIX_EPOCH; attr_mtime := UNIX_EPOCH;
  attr_ctime := UNIX_EPOCH; attr_crtime := UNIX_EPOCH; attr_kind := FileKind_default; attr_perm := 0; attr_nlink := 0;
  attr_uid := 0; attr_gid := 0; attr_rdev := 0; attr_blksize := 0; attr_flags := 0 |}.

Definition one_lookup (parent : NodeId) (name : OsString) (caller : Caller) :
    prog nat St Empty_set (Result Errno (option NodeId)) :=
  ReadState (λ s, match s with
    | (Some (name', id), _) => Done (Ok (if decide (name = name') then Some id else None))
    | (None, n) => CxInsert (Datatypes.S n) parent (λ id, WriteState (Some (name, id), Datatypes.S n) (Done (Ok (Some id))))
    end).

Definition one_unlink (parent : NodeId) (name : OsString) (caller : Caller) : prog nat St Empty_set (Result Errno unit) :=
  ReadState (λ s, match s with
    | (Some (_, id), n) => WriteState (None, n) (CxRemoveLink id (Done (Ok tt)))
    | (None, _) => Done (Err ENOENT)
    end).

Definition one_readdirplus (node : nat) (this parent : NodeId) (handle : nat) (offset : Z) (caller : Caller) :
    prog nat St PlusEntry (Result Errno unit) :=
  ReadState (λ s, match s with
    | (Some (name, id), n) => Emit (mkPlusEntry name id (one_attr n) 1) (λ _, Done (Ok tt))
    | (None, _) => Done (Ok tt)
    end).

Definition one_fs : NodeFs nat nat nat St := {|
  SUPPORTS_POSIX_LOCKS := false;
  SUPPORTS_READDIRPLUS := true;
  fs_root := λ s, (0%nat, s);
  fs_getattr := λ n h caller, Done (Ok (one_attr n));
  fs_populate := default_populate;
  fs_init := default_init;
  fs_destroy := default_destroy;
  fs_setattr := default_setattr;
  fs_lookup := one_lookup;
  fs_readlink := default_readlink;
  fs_mknod := default_mknod;
  fs_mkdir := default_mkdir;
  fs_symlink := default_symlink;
  fs_unlink := one_unlink;
  fs_rmdir := default_rmdir;
  fs_rename := default_rename;
  fs_link := default_link;
  fs_open := λ n flags caller, Done (Ok (Opened_new n));
  fs_read := default_read;
  fs_write := default_write;
  fs_flush := default_flush;
  fs_release := default_release;
  fs_fsync := default_fsync;
  fs_opendir := λ n flags caller, Done (Ok (Opened_new n));
  fs_readdir := default_readdir;
  fs_readdirplus := one_readdirplus;
  fs_releasedir := default_releasedir;
  fs_fsyncdir := default_fsyncdir;
  fs_statfs := default_statfs;
  fs_setxattr := default_setxattr;
  fs_getxattr := default_getxattr;
  fs_listxattr := default_listxattr;
  fs_removexattr := default_removexattr;
  fs_access := default_access;
  fs_create := default_create;
  fs_fallocate := default_fallocate;
  fs_lseek := default_lseek;
  fs_getlk := default_getlk;
  fs_setlk := default_setlk;
  fs_copy_file_range := default_copy_file_range;
|}.

Lemma one_terminating : terminating one_fs.
Proof. split; intros; simpl; repeat (intros ? || case_match || split); done. Qed.

(** The entries that were passed to the session. *)
Abbreviation Sink := (list EntryReply).
Definition keep (name : OsString) (e : EntryReply) (off : Z) (l : Sink) : bool * Sink := (true, l ++ [e]).

Abbreviation sample_pool := (pool (N := nat) (H := nat) (D := nat) (S := St) (K := Sink)).

Definition pool0 : sample_pool := pool_new (Runtime_start one_fs (None, 0%nat)).
(** A request that runs from start to end, in [n] steps. *)
Definition whole (n k : nat) (r : request Sink) : list (action (K := Sink)) := Issue k r [] :: repeat (Run k) n ++ [Reply k].
Definition after (l : list (action (K := Sink))) : option sample_pool := run_pool one_fs l pool0.

Lemma pool0_pooled : pooled one_fs (None, 0%nat) pool0.
Proof. by apply (pooled_new one_fs (None, 0%nat) (mkWorld (Runtime_start one_fs (None, 0%nat)) tt)). Qed.

Lemma after_pooled l p : after l = Some p → pooled one_fs (None, 0%nat) p.
Proof. apply pooled_run, pool0_pooled. Qed.

Definition pool_of (l : list (action (K := Sink))) : sample_pool := default pool0 (after l).

Lemma pool_of_pooled l : bool_decide (is_Some (after l)) = true → pooled one_fs (None, 0%nat) (pool_of l).
Proof.
  intros [p Hp]%bool_decide_eq_true. unfold pool_of. rewrite Hp. by apply (after_pooled l).
Qed.

Definition who : Caller := Caller_default.
Definition looked_up : list (action (K := Sink)) := whole 6 1 (ReqLookup 1 "f" who).

(** ** A release that waits for a reader *)
Definition opened_file : list (action (K := Sink)) := looked_up ++ whole 4 2 (ReqOpen 2 0 who).
Definition waiting : list (action (K := Sink)) :=
  opened_file ++ (Issue 3 (ReqRead 2 1 0 10 who) [] :: repeat (Run 3) 3) ++ (Issue 4 (ReqRelease 2 1 who) [] :: repeat (Run 4) 4).
(** The read goes first, then the release. *)
Definition released : list (action (K := Sink)) := waiting ++ repeat (Run 3) 3 ++ [Reply 3] ++ repeat (Run 4) 4 ++ [Reply 4].

Lemma waiting_pooled : pooled one_fs (None, 0%nat) (pool_of waiting).
Proof. apply pool_of_pooled. vm_compute. reflexivity. Qed.
Lemma opened_pooled : pooled one_fs (None, 0%nat) (pool_of opened_file).
Proof. apply pool_of_pooled. vm_compute. reflexivity. Qed.
Lemma released_pooled : pooled one_fs (None, 0%nat) (pool_of released).
Proof. apply pool_of_pooled. vm_compute. reflexivity. Qed.

(** The release has no step while the reader holds its lease. *)
Example release_waits : pool_step one_fs (Run 4) (pool_of waiting) = None.
Proof. vm_compute. reflexivity. Qed.

Lemma kernel_lookups_survive_interleaving_witness :
  ∃ s, tbl_map (sh_table (rt_shared (p_rt (pool_of waiting)))) !! 2 = Some s ∧ 1 ≤ 1 ≤ slot_lookups s ∧
    ∀ g, Some 0 = Some g → slot_generation s = g.
Proof.
  apply (kernel_lookups_survive_interleaving one_fs (None, 0%nat) (pool_of waiting) 2 (Some 0) 1); [apply waiting_pooled|].
  vm_compute. reflexivity.
Defined.

(** The record is out of the table, and both threads hold it. *)
Lemma handles_survive_interleaving_witness :
  dt_ub (arc_files (p_arcs (pool_of waiting))) = false ∧ dt_arcs (arc_files (p_arcs (pool_of waiting))) !! 1 = Some 2.
Proof.
  split; [|vm_compute; reflexivity].
  apply (handles_survive_interleaving one_fs (None, 0%nat) (pool_of waiting) waiting_pooled).
Defined.

Lemma open_handles_survive_interleaving_witness :
  ∃ s, tbl_map (sh_table (rt_shared (p_rt (pool_of opened_file)))) !! 2 = Some s ∧
    handle_count 2 (rt_handles (p_rt (pool_of opened_file))) ≤ slot_opens s.
Proof.
  apply (open_handles_survive_interleaving one_fs (None, 0%nat) (pool_of opened_file) 2 opened_pooled).
  vm_compute. reflexivity.
Defined.

Lemma idle_pool_keeps_nothing_witness : dt_records (arc_files (p_arcs (pool_of released))) = ∅.
Proof.
  apply (idle_pool_keeps_nothing one_fs (None, 0%nat) (pool_of released) released_pooled). vm_compute. reflexivity.
Defined.

Lemma every_schedule_answers_witness : drains one_fs early (pool_of waiting).
Proof.
  apply (every_schedule_answers one_fs (None, 0%nat) (pool_of waiting) one_terminating waiting_pooled). by vm_compute.
Defined.

(** ** What the critical sections do not cover together *)

(** A listing has passed the entry of inode 2 on, and is about to count its
    lookup, when the file is unlinked and forgotten. *)
Definition listing : list (action (K := Sink)) :=
  looked_up ++ whole 4 2 (ReqOpendir 1 0 who) ++
  (Issue 3 (ReqReaddirplus [] keep 1 1 0 who) [] :: repeat (Run 3) 8) ++
  whole 3 4 (ReqUnlink 1 "f" who) ++ whole 1 5 (ReqForget 2 1) ++ repeat (Run 3) 4.

(** A lookup of "f" has its inode from the filesystem when "f" is unlinked and
    forgotten, and "g" is created with the same inode number. *)
Definition recycled : list (action (K := Sink)) :=
  looked_up ++ (Issue 2 (ReqLookup 1 "f" who) [] :: repeat (Run 2) 1) ++
  whole 3 3 (ReqUnlink 1 "f" who) ++ whole 1 4 (ReqForget 2 1) ++ whole 6 5 (ReqLookup 1 "g" who) ++ repeat (Run 2) 3 ++ [Reply 2].

(** What a handler that returned answers, and the inodes it passed on. *)
Definition ended (j : job (N := nat) (H := nat) (D := nat) (S := St) (K := Sink)) : option (reply * list Z) :=
  match j_thread j with Ret rep => Some (rep, er_ino <$> j_sink j) | _ => None end.

(** C38: [readdirplus] can answer with an entry whose lookup was not counted: when the file is unlinked and forgotten by other threads between the moment the entry is passed on and the moment its lookup is counted, the failure to count it is ignored, and the kernel is sent the entry of an inode that the table no longer has. *)
Theorem listing_can_lose_a_lookup :
  ∃ p, pooled one_fs (None, 0%nat) p ∧ p_threads p !! 3%nat ≫= ended = Some (RepPlus (Ok []), [2]) ∧
    tbl_map (sh_table (rt_shared (p_rt p))) !! 2 = None ∧ p_account p !! 2 = None.
Proof.
  exists (pool_of listing). split_and!; [apply pool_of_pooled|..]; vm_compute; reflexivity.
Qed.

(** The lookup of "f" is answered with the attributes of "g". *)
Example lookup_can_find_another_file :
  head (p_replies (pool_of recycled)) = Some (2%nat, Some (RepLookup (Ok (Found (mkEntryReply 2 1 (one_attr 2)))))).
Proof. vm_compute. reflexivity. Qed.
End sample.
