(* ===== verification/Alone.v ===== *)
(** * A thread that runs alone is the sequential handler

    The threads of [Threads] are cut into critical sections, the handlers of
    [Runtime] are not: without another thread in between the two agree on the
    reply, on the runtime they leave and on the sink. *)

From S2P Require Import Prelude Types NodeTable HandleRec NodeFs Runtime Requests Threads.

(** ** [alone] commutes with composition *)
Section alone.
Context {W : Type}.

Lemma alone_then {A B} (m : thr W A) (f : option A → thr W B) w :
  alone (thr_then m f) w =
    match alone m w with
    | (Returned a, w') => alone (f (Some a)) w'
    | (Panicked, w') => alone (f None) w'
    | (Blocked, w') => (Blocked, w')
    end.
Proof.
  revert w. induction m as [a| |C act k IHk p IHp]; intros w; simpl; [done..|].
  destruct (act w) as [[b| |] w']; [apply IHk|apply IHp|done].
Qed.

Lemma alone_bind {A B} (m : thr W A) (f : A → thr W B) w : alone (m ≫= f) w = (alone m ≫= λ a, alone (f a)) w.
Proof. unfold mbind, thr_bind, M_bind. rewrite alone_then. by destruct (alone m w) as [[a| |] w']. Qed.

Lemma alone_finally {A} (m : thr W A) fin w :
  alone (thr_finally m fin) w = finally (alone m) (alone fin) w.
Proof.
  unfold thr_finally, finally. rewrite alone_then.
  destruct (alone m w) as [[a| |] w']; [| |done]; rewrite alone_then; by destruct (alone fin w') as [[[]| |] w''].
Qed.

Lemma alone_step {A} (m : M W A) w : alone (step m) w = m w.
Proof. simpl. by destruct (m w) as [[a| |] w']. Qed.

(** One step ahead, on both sides. *)
Lemma bind_eq {A B} (m : M W A) (f : A → M W B) w o w' :
  m w = (o, w') →
  (m ≫= f) w = match o with Returned a => f a w' | Panicked => (Panicked, w') | Blocked => (Blocked, w') end.
Proof. unfold mbind, M_bind. intros ->. by destruct o. Qed.

Lemma alone_eq {A B} (m : M W A) (f : A → thr W B) w o w' :
  m w = (o, w') →
  alone (step m ≫= f) w =
    match o with Returned a => alone (f a) w' | Panicked => (Panicked, w') | Blocked => (Blocked, w') end.
Proof. intros Hm. rewrite alone_bind. by rewrite (bind_eq _ _ w o w') by (by rewrite alone_step). Qed.
End alone.

Section sim.
Context {N H D S : Type} `{Libc} {K : Type}.
Abbreviation W := (World N H D S K).
Abbreviation CW := (World N H D S (K * Arcs H D)).

(** The thread does what the handler does, whatever happens to the detached
    records. *)
Definition sim {A} (t : thr CW A) (m : M W A) : Prop := ∀ rt k a, ∃ o rt' k' a',
  m (mkWorld rt k) = (o, mkWorld rt' k') ∧ alone t (mkWorld rt (k, a)) = (o, mkWorld rt' (k', a')).

(** A step that leaves the detached records alone. *)
Definition same_step {A} (act : M CW A) (m : M W A) : Prop := ∀ rt k a, ∃ o rt' k',
  m (mkWorld rt k) = (o, mkWorld rt' k') ∧ act (mkWorld rt (k, a)) = (o, mkWorld rt' (k', a)).

Lemma sim_ret {A} (a : A) : sim (Ret a) (mret a).
Proof. intros rt k d. by eexists _, _, _, _. Qed.

Lemma sim_ext {A} (t : thr CW A) (m m' : M W A) : (∀ w, m w = m' w) → sim t m → sim t m'.
Proof. intros Heq Ht rt k a. rewrite <- Heq. apply Ht. Qed.

Lemma sim_step {A} (act : M CW A) (m : M W A) : same_step act m → sim (step act) m.
Proof.
  intros Hs rt k a. destruct (Hs rt k a) as (o & rt' & k' & Hm & Hact). exists o, rt', k', a.
  by rewrite alone_step.
Qed.

Lemma sim_bind {A B} (t : thr CW A) (m : M W A) (f : A → thr CW B) (g : A → M W B) :
  sim t m → (∀ a, sim (f a) (g a)) → sim (t ≫= f) (m ≫= g).
Proof.
  intros Ht Hf rt k a. destruct (Ht rt k a) as (o & rt' & k' & a' & Hm & Hal).
  rewrite alone_bind. unfold mbind, M_bind. rewrite Hm, Hal. destruct o as [x| |]; [apply Hf|by eexists _, _, _, _..].
Qed.

Lemma sim_try {A B} (t : thr CW (Result Errno A)) (m : M W (Result Errno A)) (f : A → thr CW (Result Errno B)) g :
  sim t m → (∀ a, sim (f a) (g a)) → sim (thr_try t f) (try_bind m g).
Proof. intros Ht Hf. apply sim_bind; [done|]. intros [a|e]; [apply Hf|apply sim_ret]. Qed.

Lemma sim_finally {A} (t : thr CW A) (m : M W A) fin fin' :
  sim t m → sim fin fin' → sim (thr_finally t fin) (finally m fin').
Proof.
  intros Ht Hf rt k a. destruct (Ht rt k a) as (o & rt' & k' & a' & Hm & Hal).
  rewrite alone_finally. unfold finally. rewrite Hm, Hal.
  destruct (Hf rt' k' a') as ([[]| |] & rt'' & k'' & a'' & -> & ->); destruct o; by eexists _, _, _, _.
Qed.

Lemma same_shared {A} (m : M (Shared N) A) : same_step (on_shared m) (on_shared m).
Proof.
  intros rt k a. unfold on_shared, zoom; simpl. destruct (m (rt_shared rt)) as [o sh]. by eexists _, _, _.
Qed.

Lemma same_handles {A} (f : HandleTable H D → A * HandleTable H D) : same_step (on_handles f) (on_handles f).
Proof. intros rt k a. unfold on_handles; simpl. destruct (f (rt_handles rt)) as [x t]. by eexists _, _, _. Qed.

Lemma same_sink {A} (f : K → A * K) : same_step (sink_step f) (on_sink f).
Proof. intros rt k a. unfold sink_step, on_sink; simpl. destruct (f k) as [x k']. by eexists _, _, _. Qed.

Lemma same_node ino : same_step (node ino) (node ino).
Proof.
  intros rt k a. unfold node, on_shared, zoom, mbind, M_bind; simpl.
  destruct (cx_get ino (rt_shared rt)) as [[r| |] sh]; by eexists _, _, _.
Qed.

(** ** Callbacks

    [inj] puts the callback's own state into the sink of the handler. *)
Definition with_own {A X} (x : X) (o : outcome A) : outcome (A * X) :=
  match o with Returned a => Returned (a, x) | Panicked => Panicked | Blocked => Blocked end.

Section callbacks.
Context {X K2 : Type} (inj : K → X → K2).

Definition sim_own {A} (t : thr CW (A * X)) (m : M (World N H D S K2) A) x : Prop := ∀ rt k a, ∃ o rt' k' x' a',
  m (mkWorld rt (inj k x)) = (o, mkWorld rt' (inj k' x')) ∧
  alone t (mkWorld rt (k, a)) = (with_own x' o, mkWorld rt' (k', a')).

(** The state that a panic leaves is the one the step began with. *)
Definition sim_emit {A} (t : thr CW (A * X)) (m : M (World N H D S K2) A) x : Prop := ∀ rt k a, ∃ o rt' k' x' a',
  m (mkWorld rt (inj k x)) = (o, mkWorld rt' (inj k' x')) ∧
  alone t (mkWorld rt (k, a)) = (with_own x' o, mkWorld rt' (k', a')) ∧ (o = Panicked → x' = x).

Lemma sim_run {E A} (emit : E → X → thr CW (bool * X)) (emit' : E → M (World N H D S K2) bool) (p : prog N S E A) x :
  (∀ e x, sim_emit (emit e x) (emit' e) x) → sim_own (run_callback emit p x) (run_prog emit' p) x.
Proof.
  intros Hemit. revert x. induction p; intros x rt d a0; simpl.
  - by eexists (Returned a), rt, d, x, a0.
  - by eexists Panicked, rt, d, x, a0.
  - by eexists Blocked, rt, d, x, a0.
  - apply H1.
  - apply IHp.
  - unfold own_step, mbind, M_bind; simpl. destruct (f (rt_fs rt)) as [[b s]|]; [apply H1|by eexists Blocked, rt, d, x, a0].
  - unfold fs_get, attempt, on_shared, on_rt, modify, zoom, mbind, M_bind, mret, M_ret; simpl.
    destruct (cx_get id (rt_shared rt)) as [[[r|]| |] sh]; simpl; [apply H1|apply H1|apply IHp|by eexists Blocked, _, d, x, a0].
  - unfold fs_drop_ref, on_shared, on_rt, modify, zoom, mbind, M_bind; simpl. case_bool_decide; [|apply IHp]. simpl.
    destruct (ref_drop key (rt_shared rt)) as [[[]| |] sh]; simpl; [apply IHp|by eexists Panicked, _, d, x, a0|by eexists Blocked, _, d, x, a0].
  - apply H1.
  - unfold on_shared, zoom, mbind, M_bind; simpl.
    destruct (cx_insert p parent (rt_shared rt)) as [[i| |] sh]; simpl; [apply H1|by eexists Panicked, _, d, x, a0|by eexists Blocked, _, d, x, a0].
  - unfold on_shared, zoom, mbind, M_bind; simpl.
    destruct (cx_reparent id new_parent (rt_shared rt)) as [[[]| |] sh]; simpl; [apply IHp|by eexists Panicked, _, d, x, a0|by eexists Blocked, _, d, x, a0].
  - unfold attempt, on_shared, zoom, mbind, M_bind; simpl.
    destruct (cx_add_link id (rt_shared rt)) as [[[]| |] sh]; simpl; [apply IHp1|apply IHp2|by eexists Blocked, _, d, x, a0].
  - unfold on_shared, zoom, mbind, M_bind; simpl. apply IHp.
  - rewrite alone_then. unfold attempt. destruct (Hemit e x rt d a0) as (o & rt' & k' & x' & a' & -> & -> & Hx).
    destruct o as [b| |]; simpl; [apply H1|rewrite Hx by done; apply IHp|by eexists Blocked, _, _, x', _].
Qed.
End callbacks.

Lemma sim_callback {A} (p : prog N S Empty_set A) : sim (callback p) (call p).
Proof.
  unfold callback, call. intros rt k a. rewrite alone_bind.
  destruct (sim_run (λ k _, k) (λ e : Empty_set, match e with end) (λ e : Empty_set, match e with end) p tt
    ltac:(by intros []) rt k a) as (o & rt' & k' & x' & a' & Hm & Hal).
  unfold mbind, M_bind. rewrite Hm, Hal. by destruct o; eexists _, _, _, _.
Qed.

(** ** Scopes *)
Lemma sim_node_scope {B} ino (err : Errno → thr CW B) (err' : Errno → M W B) k k' :
  (∀ e, sim (err e) (err' e)) → (∀ n, sim (k n) (k' n)) →
  sim (node_scope ino err k) (scope_node ino err' k').
Proof.
  intros He Hk. apply sim_bind; [apply sim_step, same_node|]. intros [l|e]; [|apply He].
  apply sim_finally; [apply Hk|apply sim_step, same_shared].
Qed.

Lemma sim_in_node {B} ino k (k' : N → M W (Result Errno B)) :
  (∀ n, sim (k n) (k' n)) → sim (in_node ino k) (with_node ino k').
Proof. intros Hk. apply sim_node_scope; [intros e; apply sim_ret|done]. Qed.

(** Files and directories: [on] and [on'] run a step on their part of the two
    worlds. *)
Section handle.
Context {T : Type}.
Context (tab : Runtime N H D S → gmap Z (HandleRecord T)) (set_tab : gmap Z (HandleRecord T) → Runtime N H D S → Runtime N H D S).
Context (det : Arcs H D → Detached T) (set_det : Detached T → Arcs H D → Arcs H D).
Context (set_tab_id : ∀ rt, set_tab (tab rt) rt = rt) (tab_set : ∀ m rt, tab (set_tab m rt) = m).
Context (set_set : ∀ m m' rt, set_tab m (set_tab m' rt) = set_tab m rt) (det_set : ∀ d a, det (set_det d a) = d).

Definition on {A} : M (gmap Z (HandleRecord T) * Detached T) A → M CW A :=
  zoom (λ w, (tab (w_rt w), det (w_sink w).2)) (λ hs w, mkWorld (set_tab hs.1 (w_rt w)) ((w_sink w).1, set_det hs.2 (w_sink w).2)).
Definition on' {A} : M (gmap Z (HandleRecord T)) A → M W A :=
  zoom (λ w, tab (w_rt w)) (λ m w, mkWorld (set_tab m (w_rt w)) (w_sink w)).

Lemma on_eq {A} (m : M (gmap Z (HandleRecord T) * Detached T) A) rt k a o hs :
  m (tab rt, det a) = (o, hs) → on m (mkWorld rt (k, a)) = (o, mkWorld (set_tab hs.1 rt) (k, set_det hs.2 a)).
Proof. unfold on, zoom. simpl. by intros ->. Qed.

Lemma on'_eq {A} (m : M (gmap Z (HandleRecord T)) A) rt k o t :
  m (tab rt) = (o, t) → on' m (mkWorld rt k) = (o, mkWorld (set_tab t rt) k).
Proof. unfold on', zoom. simpl. by intros ->. Qed.

Lemma drop_arc_table fh (hs : gmap Z (HandleRecord T) * Detached T) : ∃ d, drop_arc fh hs = (Returned tt, (hs.1, d)).
Proof. unfold drop_arc. repeat case_match; by eexists. Qed.

Lemma end_lease_table fh (hs : gmap Z (HandleRecord T) * Detached T) :
  ∃ b d, end_lease fh hs = (Returned b, ((drop_handle fh hs.1).2, d)).
Proof.
  unfold end_lease, on_record, record_at, put_state, drop_handle. simpl.
  destruct (hs.1 !! fh) as [r|] eqn:Hr; simpl; [by eexists _, _|].
  by destruct (dt_records hs.2 !! fh) as [r|]; eexists _, _.
Qed.

Lemma sim_drop_arc fh : sim (step (on (drop_arc fh))) (mret tt).
Proof.
  intros rt k a. rewrite alone_step. destruct (drop_arc_table fh (tab rt, det a)) as [d Hd].
  eexists (Returned tt), rt, k, _. split; [done|]. rewrite (on_eq _ _ _ _ _ _ Hd). simpl. by rewrite set_tab_id.
Qed.

Lemma sim_lease ino fh : sim (lease (@on) ino fh) (on' (find_handle ino fh)).
Proof.
  intros rt k a. unfold lease. rewrite alone_bind. unfold mbind, M_bind. rewrite alone_step.
  unfold on', zoom, find_handle. simpl. destruct (tab rt !! fh) as [r|] eqn:Hr; cycle 1.
  { rewrite (on_eq (clone_arc fh) rt k a (Returned None) (tab rt, det a)) by (unfold clone_arc; simpl; by rewrite Hr).
    simpl. eexists _, _, _, _. split; [done|]. done. }
  rewrite (on_eq (clone_arc fh) rt k a (Returned (Some (hr_node r))) (tab rt, add_arcs fh 1 (det a)))
    by (unfold clone_arc; simpl; by rewrite Hr).
  simpl. rewrite set_tab_id. destruct (negb (hr_node r =? ino)).
  { destruct (drop_arc_table fh (tab rt, add_arcs fh 1 (det a))) as [d Hd].
    simpl. rewrite (on_eq (drop_arc fh) rt k (set_det (add_arcs fh 1 (det a)) a) (Returned tt) (tab rt, d))
      by (by rewrite det_set).
    simpl. by eexists _, _, _, _. }
  simpl. unfold on, zoom at 1. simpl. rewrite det_set. unfold acquire_lease, record_at. simpl. rewrite Hr.
  unfold acquire. destruct (closing (hr_state r)) eqn:Hc; simpl.
  - unfold put_state at 1 2. simpl. rewrite Hr. simpl.
    assert (<[fh:=with_state (hr_state r) r]> (tab rt) = tab rt) as ->
      by (apply insert_id; rewrite Hr; unfold with_state; by destruct r).
    rewrite set_tab_id. unfold zoom. simpl. rewrite det_set.
    destruct (drop_arc_table fh (tab rt, add_arcs fh 1 (det a))) as [d ->]. simpl.
    eexists _, _, _, _. split; [done|]. by rewrite set_tab_id.
  - destruct (checked_add u32_max (active (hr_state r)) 1); simpl; unfold put_state; simpl; rewrite Hr; simpl.
    + eexists _, _, _, _. split; [done|]. done.
    + assert (<[fh:=with_state (hr_state r) r]> (tab rt) = tab rt) as ->
        by (apply insert_id; rewrite Hr; unfold with_state; by destruct r).
      rewrite set_tab_id. unfold zoom. simpl. rewrite det_set.
      destruct (drop_arc_table fh (tab rt, add_arcs fh 1 (det a))) as [d ->]. simpl.
      eexists _, _, _, _. split; [done|]. by rewrite set_tab_id.
Qed.

Lemma sim_handle_scope {B} ino fh (err : Errno → thr CW B) (err' : Errno → M W B) k k' :
  (∀ e, sim (err e) (err' e)) → (∀ h, sim (k h) (k' h)) →
  sim (handle_scope (@on) ino fh err k)
    (r ← on' (find_handle ino fh); match r with Ok h => finally (k' h) (on' (drop_handle fh)) | Err e => err' e end).
Proof.
  intros He Hk. apply sim_bind; [apply sim_lease|]. intros [h|e]; [|apply He].
  apply sim_finally; [apply Hk|]. intros rt d a. rewrite alone_bind. unfold mbind, M_bind. rewrite alone_step.
  destruct (end_lease_table fh (tab rt, det a)) as (b & d1 & He1). rewrite (on_eq _ _ _ _ _ _ He1). simpl.
  set (t := (drop_handle fh (tab rt)).2).
  destruct (drop_arc_table fh (t, d1)) as [d2 Hd2].
  rewrite (on_eq (drop_arc fh) (set_tab t rt) d (set_det d1 a) (Returned tt) (t, d2)) by (by rewrite tab_set, det_set).
  simpl. rewrite set_set. eexists _, _, _, _. split; [|done].
  apply on'_eq. unfold t, drop_handle. by destruct (tab rt !! fh).
Qed.

Context (tab_shared : ∀ sh rt, tab (with_shared sh rt) = tab rt).

(** The closing of a record that left the table. *)
Lemma detached_begin fh r (hs : gmap Z (HandleRecord T) * Detached T) :
  hs.1 !! fh = None → dt_records hs.2 !! fh = Some r → ∃ r' d,
  close_begin fh hs = (Returned (active (hr_state r) =? 0), (hs.1, d)) ∧ dt_records d !! fh = Some r' ∧
  hr_payload r' = hr_payload r ∧ active (hr_state r') = active (hr_state r).
Proof.
  intros Ht Hr. unfold close_begin, on_record, record_at, put_state. rewrite Ht, Hr.
  unfold close_test. simpl. destruct (active (hr_state r) =? 0);
    eexists _, _; (split; [done|]); simpl; rewrite lookup_insert_eq; (split; [done|]); by split.
Qed.

Lemma detached_resume fh r (hs : gmap Z (HandleRecord T) * Detached T) :
  hs.1 !! fh = None → dt_records hs.2 !! fh = Some r → active (hr_state r) ≠ 0 → close_resume fh hs = (Blocked, hs).
Proof.
  intros Ht Hr Ha. unfold close_resume, on_record, record_at. rewrite Ht, Hr. unfold close_test.
  by rewrite (proj2 (Z.eqb_neq _ _)).
Qed.

Lemma detached_take fh r (hs : gmap Z (HandleRecord T) * Detached T) :
  hs.1 !! fh = None → dt_records hs.2 !! fh = Some r →
  take_out fh hs = (Returned (hr_payload r), (hs.1, consume fh Take hs.2)).
Proof. intros Ht Hr. unfold take_out, record_at. by rewrite Ht, Hr. Qed.

Lemma close_alone fh (r : HandleRecord T) rt k a :
  tab rt !! fh = None → dt_records (det a) !! fh = Some r → ∃ o a',
  alone (close_thread (@on) fh) (mkWorld rt (k, a)) = (o, mkWorld rt (k, a')) ∧
  take_payload r (mkWorld rt k) = (o, mkWorld rt k).
Proof.
  intros Ht Hr. unfold close_thread.
  destruct (detached_begin fh r (tab rt, det a) Ht Hr) as (r' & d & Hb & Hr' & Hp & Ha).
  erewrite alone_eq by (by apply on_eq). simpl. rewrite set_tab_id.
  unfold take_payload, close_and_take, close_test. simpl. destruct (Z.eqb_spec (active (hr_state r)) 0) as [H0'|H0'].
  - eexists _, _. split; [|done]. rewrite alone_bind. unfold mbind, M_bind. cbn [alone]. rewrite alone_step, <- Hp.
    rewrite (on_eq (take_out fh) rt k (set_det d a) _ _ (detached_take fh r' (tab rt, det (set_det d a)) Ht ltac:(by rewrite det_set))).
    simpl. by rewrite set_tab_id.
  - eexists _, _. split; [|done].
    rewrite (alone_eq _ _ _ _ _ (on_eq (close_resume fh) rt k (set_det d a) _ _
      (detached_resume fh r' (tab rt, det (set_det d a)) Ht ltac:(by rewrite det_set) ltac:(congruence)))).
    simpl. by rewrite set_tab_id.
Qed.

Lemma release_body ino fh (r : HandleRecord T) (rel : N → T → prog N S Empty_set (Result Errno unit)) rt k a :
  tab rt !! fh = None → dt_records (det a) !! fh = Some r → ∃ o rt' k' a',
  with_node ino (λ node, on_shared (remove_open ino);; h ← take_payload r; call (rel node h)) (mkWorld rt k) =
    (o, mkWorld rt' k') ∧
  alone (in_node ino (λ node, step (on_shared (remove_open ino));; h ← close_thread (@on) fh; callback (rel node h)))
    (mkWorld rt (k, a)) = (o, mkWorld rt' (k', a')).
Proof.
  intros Ht Hr. unfold in_node, node_scope, with_node, scope_node.
  assert (∃ o sh, node ino (mkWorld rt k) = (o, mkWorld (with_shared sh rt) k) ∧
    node ino (mkWorld rt (k, a)) = (o, mkWorld (with_shared sh rt) (k, a))) as (o & sh & Hn & Hcn).
  { unfold node, on_shared, zoom, mbind, M_bind. simpl.
    destruct (cx_get ino (rt_shared rt)) as [[l| |] sh]; by eexists _, _. }
  rewrite (alone_eq _ _ _ _ _ Hcn), (bind_eq _ _ _ _ _ Hn).
  destruct o as [[l|e]| |]; [|by eexists _, _, _, _..].
  set (rt2 := with_shared sh rt) in *. assert (tab rt2 !! fh = None) as Ht2 by (unfold rt2; by rewrite tab_shared).
  clearbody rt2. clear Hn Hcn.
  set (rt3 := with_shared (remove_open ino (rt_shared rt2)).2 rt2).
  assert (tab rt3 !! fh = None) as Ht3 by (unfold rt3; by rewrite tab_shared).
  rewrite alone_finally. unfold finally.
  rewrite (alone_eq (on_shared (remove_open ino)) _ _ (Returned tt) (mkWorld rt3 (k, a))) by done.
  rewrite (bind_eq (on_shared (remove_open ino)) _ _ (Returned tt) (mkWorld rt3 k)) by done.
  destruct (close_alone fh r rt3 k a Ht3 Hr) as (o3 & a2 & Hc & Ht').
  rewrite alone_bind, (bind_eq _ _ _ _ _ Hc), (bind_eq _ _ _ _ _ Ht').
  destruct o3 as [h| |]; [| |by eexists _, _, _, _].
  - destruct (sim_callback (rel (node_payload l) h) rt3 k a2) as (o & rt' & k' & a' & -> & ->).
    destruct (sim_step _ _ (same_shared (ref_drop (lr_key l))) rt' k' a') as (o' & rt'' & k'' & a'' & -> & ->).
    destruct o as [x| |]; [..|by eexists _, _, _, _]; by destruct o'; eexists _, _, _, _.
  - destruct (sim_step _ _ (same_shared (ref_drop (lr_key l))) rt3 k a2) as (o' & rt'' & k'' & a'' & -> & ->).
    by destruct o'; eexists _, _, _, _.
Qed.

(** [release] and [releasedir]. *)
Lemma sim_release ino fh (rel : N → T → prog N S Empty_set (Result Errno unit)) :
  sim
    (_ ←! step (on (detach ino fh));
     thr_finally
       (in_node ino (λ node, step (on_shared (remove_open ino));; h ← close_thread (@on) fh; callback (rel node h)))
       (step (on (drop_arc fh))))
    (record ←? on' (remove_handle ino fh);
     with_node ino (λ node, on_shared (remove_open ino);; h ← take_payload record; call (rel node h))).
Proof.
  intros rt k a. unfold thr_try, try_bind.
  destruct (tab rt !! fh) as [r|] eqn:Hr; cycle 1.
  { erewrite alone_eq by (apply on_eq; unfold detach; simpl; by rewrite Hr).
    erewrite bind_eq by (apply on'_eq; unfold remove_handle; by rewrite Hr). by eexists _, _, _, _. }
  destruct (negb (hr_node r =? ino)) eqn:Hino.
  { erewrite alone_eq by (apply on_eq; unfold detach; simpl; by rewrite Hr, Hino).
    erewrite bind_eq by (apply on'_eq; unfold remove_handle; by rewrite Hr, Hino). by eexists _, _, _, _. }
  erewrite alone_eq by (apply on_eq; unfold detach; simpl; by rewrite Hr, Hino).
  erewrite bind_eq by (apply on'_eq; unfold remove_handle; by rewrite Hr, Hino). cbv beta iota zeta. cbn [fst snd].
  set (rt1 := set_tab (delete fh (tab rt)) rt).
  set (a1 := set_det _ a).
  assert (tab rt1 !! fh = None) as Ht1 by (unfold rt1; rewrite tab_set; apply lookup_delete_eq).
  assert (dt_records (det a1) !! fh = Some r) as Hr1
    by (unfold a1; rewrite det_set; simpl; apply lookup_insert_eq).
  clearbody rt1 a1. rewrite alone_finally. unfold finally.
  destruct (release_body ino fh r rel rt1 k a1 Ht1 Hr1) as (o & rt' & k' & a' & -> & ->).
  destruct (sim_drop_arc fh rt' k' a') as (o' & rt'' & k'' & a'' & [= <- <- <-] & ->).
  destruct o as [x| |]; by eexists _, _, _, _.
Qed.
End handle.

Lemma sim_in_file {B} ino fh k (k' : H → M W (Result Errno B)) :
  (∀ h, sim (k h) (k' h)) → sim (in_file ino fh k) (with_file ino fh k').
Proof.
  intros Hk. apply (sim_handle_scope (λ rt, files (rt_handles rt)) with_files arc_files (λ d a, mkArcs d (arc_dirs a)));
    try done; [by intros [? ? ? []]|intros e; apply sim_ret].
Qed.

Lemma sim_in_dir {B} ino fh k (k' : D → M W (Result Errno B)) :
  (∀ h, sim (k h) (k' h)) → sim (in_dir ino fh k) (with_dir ino fh k').
Proof.
  intros Hk. apply (sim_handle_scope (λ rt, dirs (rt_handles rt)) with_dirs arc_dirs (λ d a, mkArcs (arc_files a) d));
    try done; [by intros [? ? ? []]|intros e; apply sim_ret].
Qed.

Lemma sim_optional_file {B} ino fh k (k' : option H → M W (Result Errno B)) :
  (∀ h, sim (k h) (k' h)) → sim (in_optional_file ino fh k) (with_optional_file ino fh k').
Proof. intros Hk. destruct fh; [by apply sim_in_file|apply Hk]. Qed.

(** ** Handlers *)
Context (fs : NodeFs N H D S).

Lemma sim_entry_for id caller : sim (t_entry_for fs id caller) (entry_for fs id caller).
Proof.
  apply sim_in_node. intros n. apply sim_try; [apply sim_callback|]. intros attr.
  apply sim_try; [apply sim_step, same_shared|]. intros g. apply sim_ret.
Qed.

Lemma sim_entry p caller : sim (t_entry fs p caller) (id ←? call p; entry_for fs id caller).
Proof. apply sim_try; [apply sim_callback|]. intros id. apply sim_entry_for. Qed.

(** [register] is a tail of its own only in the threads. *)
Lemma sim_register {B} ino (add : HandleTable H D → Z * HandleTable H D) (F : Z → B) :
  sim (fh ←! register ino add; Ret (Ok (F fh)))
    (_ ←? on_shared (add_open ino); fh ← on_handles add; mret (Ok (F fh))).
Proof.
  apply (sim_ext _ (fh ←? (_ ←? on_shared (add_open ino); fh ← on_handles add; mret (Ok fh)); mret (Ok (F fh)))).
  - intros w. unfold try_bind, mbind, M_bind, mret, M_ret. destruct (on_shared (add_open ino) w) as [[[[]|e]| |] w1]; [|done..].
    by destruct (on_handles add w1) as [[fh| |] w2].
  - apply sim_try; [|intros fh; apply sim_ret]. apply sim_try; [apply sim_step, same_shared|]. intros u.
    apply sim_bind; [apply sim_step, same_handles|]. intros fh. apply sim_ret.
Qed.

Lemma sim_account (inner : OsString → EntryReply → Z → K → bool * K) e l :
  sim_emit (λ k l, (k, l)) (t_account inner e l) (accounting_add inner e) l.
Proof.
  intros rt k a. unfold t_account, accounting_add, plus_entry, try_bind.
  unfold on_shared, on_sink, sink_step, on_sink, read_generation, gets, zoom, mbind, M_bind, mret, M_ret. simpl.
  destruct (slot_generation <$> _) as [g|]; simpl; cycle 1.
  { by eexists (Returned false), _, k, l, a. }
  destruct (inner (pe_name e) (mkEntryReply (pe_id e) g (pe_attr e)) (pe_next_offset e) k) as [b k1]. simpl. destruct b; simpl; [|by eexists (Returned false), _, k1, l, a].
  destruct (bool_decide (pe_name e ≠ ".") && bool_decide (pe_name e ≠ "..")); simpl; [|by eexists (Returned true), _, k1, l, a].
  unfold retain_lookup. simpl. destruct (tbl_map _ !! _) as [s|]; simpl; [|by eexists (Returned true), _, k1, l, a].
  destruct (checked_add _ _ _); simpl; [by eexists (Returned true), _, k1, _, a|by eexists Panicked, _, k1, l, a].
Qed.

Lemma sim_forget_all ids : sim (t_forget_all ids) (forget_all ids).
Proof.
  induction ids as [|i ids IH]; [apply sim_ret|].
  apply (sim_bind (t_forget i 1) (forget i 1)); [apply sim_step, same_shared|done].
Qed.

Lemma sim_readdirplus inner ino fh offset caller :
  sim (t_readdirplus fs inner ino fh offset caller) (readdirplus fs inner ino fh offset caller).
Proof.
  apply sim_in_node. intros n. apply sim_try; [apply sim_step, same_shared|]. intros parent.
  apply sim_in_dir. intros h. apply sim_bind.
  - intros rt k a. unfold with_accounting. simpl.
    destruct (sim_run (λ k l, (k, l)) (t_account inner) (accounting_add inner) (fs_readdirplus fs n ino parent h offset caller) []
      (sim_account inner) rt k a) as (o & rt' & k' & l & a' & -> & ->).
    by destruct o; eexists _, _, _, _.
  - intros [[u|e] l]; [apply sim_ret|]. apply sim_bind; [apply sim_forget_all|]. intros _. apply sim_ret.
Qed.

Lemma sim_readdir add ino fh offset caller :
  sim (t_readdir fs add ino fh offset caller) (readdir fs add ino fh offset caller).
Proof.
  apply sim_in_node. intros n. apply sim_try; [apply sim_step, same_shared|]. intros parent.
  apply sim_in_dir. intros h rt k a. rewrite alone_bind.
  destruct (sim_run (λ k _, k) (λ e (_ : unit), b ← step (sink_step (add e)); Ret (b, tt)) (λ e, on_sink (add e))
    (fs_readdir fs n ino parent h offset caller) tt) with rt k a as (o & rt' & k' & [] & a' & Hm & Hal).
  { intros e [] rt1 k1 a1. destruct (same_sink (add e) rt1 k1 a1) as (o & rt' & k' & Hm & Hc).
    rewrite (alone_eq _ _ _ _ _ Hc), Hm. by destruct o; eexists _, _, _, tt, _. }
  rewrite Hm, (bind_eq _ _ _ _ _ Hal). by destruct o; eexists _, _, _, _.
Qed.

Lemma sim_reply {A} (c : A → reply) t (m : M W A) : sim t m → sim (t_reply c t) (reply_with c m).
Proof. intros Ht. apply sim_bind; [done|]. intros x. apply sim_ret. Qed.

Lemma sim_sink {A} s t (m : M W A) : sim t m → sim (t_sink s t) (with_sink s m).
Proof. intros Ht rt k a. unfold t_sink. erewrite alone_eq by done. apply (Ht rt s a). Qed.

Local Ltac serve :=
  repeat first
    [ apply sim_callback | apply sim_ret | apply sim_entry_for | apply sim_entry | apply sim_readdir | apply sim_readdirplus
    | apply sim_sink | apply sim_in_node; intros ? | apply sim_in_file; intros ? | apply sim_in_dir; intros ?
    | apply sim_optional_file; intros ? | apply sim_register ].

Lemma sim_request r : sim (thread_of fs r) (exec_request fs r).
Proof.
  destruct r; apply sim_reply; serve.
  - apply sim_bind; [apply sim_step; intros rt k a; by eexists _, _, _|]. intros b. apply sim_callback.
  - apply sim_step, same_shared.
  - apply sim_try; [apply sim_callback|intros opened; serve].
  - apply sim_bind; [apply sim_callback|intros x; serve].
  - apply (sim_release (λ rt, files (rt_handles rt)) with_files arc_files (λ d a, mkArcs d (arc_dirs a)));
      try done; by intros [? ? ? []].
  - apply sim_try; [apply sim_callback|intros opened; serve].
  - apply (sim_release (λ rt, dirs (rt_handles rt)) with_dirs arc_dirs (λ d a, mkArcs (arc_files a) d));
      try done; by intros [? ? ? []].
  - apply sim_try; [apply sim_callback|]. intros [i|]; [|apply sim_ret]. apply sim_try; [apply sim_entry_for|]. intros x; serve.
  - apply sim_try; [apply sim_callback|]. intros [i opened]. apply sim_try; [apply sim_entry_for|]. intros x. serve.
Qed.

(** The two models of the handlers agree: a request that no other one interrupts is served as [exec_request]
    says: cut into its critical sections, each handler gives the same reply and
    leaves the same runtime and the same sink as the handler that runs in one
    piece, whatever handle records are still referenced by others. *)
Theorem alone_is_sequential r rt k a : ∃ a',
  alone (thread_of fs r) (mkWorld rt (k, a)) =
    let '(o, w') := (exec_request fs r : M W reply) (mkWorld rt k) in (o, mkWorld (w_rt w') (w_sink w', a') : CW).
Proof.
  destruct (sim_request r rt k a) as (o & rt' & k' & a' & -> & ->). by exists a'.
Qed.
End sim.
