(* ===== verification/Namespace.v ===== *)
(** * The path namespace ([typed_fuse_core/src/path_fs.rs], [Dentry] and [Namespace])

    The names that a path filesystem's nodes are known by: the map from
    directory entries to nodes, its inverse, the keys that identify a node
    when its inode number is reused, and the paths rebuilt from them. *)

From S2P Require Import Prelude Types.
From Stdlib Require Import Ascii.
From Stdlib Require String.

(** ** Data *)

Record PathNode := mkPathNode { key : Z }.

Record Dentry := mkDentry { d_parent : NodeId; d_name : OsString }.

#[export] Instance Dentry_eq_dec : EqDecision Dentry.
Proof. solve_decision. Defined.
#[export] Instance Dentry_countable : Countable Dentry.
Proof.
  apply (inj_countable' (λ d, (d_parent d, d_name d)) (λ p, mkDentry p.1 p.2)). by intros [].
Defined.

(** The derived [Ord]: by parent, then by the bytes of the name. *)
Definition dentry_compare (a b : Dentry) : comparison :=
  match d_parent a ?= d_parent b with
  | Eq => String.compare (d_name a) (d_name b)
  | c => c
  end.

(** [BTreeSet<Dentry>]: a list in increasing order. *)
Fixpoint set_insert (d : Dentry) (l : list Dentry) : list Dentry :=
  match l with
  | [] => [d]
  | x :: l' => match dentry_compare d x with
               | Lt => d :: l
               | Eq => l
               | Gt => x :: set_insert d l'
               end
  end.
Definition set_remove (d : Dentry) (l : list Dentry) : list Dentry := filter (λ x, x ≠ d) l.

Record Namespace := mkNamespace {
  by_name : gmap Dentry NodeId;
  aliases : gmap Z (list Dentry);
  keys : gmap Z NodeId;
  next_key : Z;
}.

(** ** [impl Namespace] *)

Definition Namespace_new : Namespace := mkNamespace ∅ ∅ {[1 := ROOT]} 2.

Definition id_for_node (ns : Namespace) (node : PathNode) : option NodeId := keys ns !! key node.

(** [PathBuf::push]: an absolute name replaces the path. *)
Definition starts_with_slash (s : string) : bool :=
  match s with String c _ => Ascii.eqb c "/"%char | EmptyString => false end.
Fixpoint ends_with_slash (s : string) : bool :=
  match s with
  | EmptyString => false
  | String c EmptyString => Ascii.eqb c "/"%char
  | String _ s' => ends_with_slash s'
  end.
Definition push (path name : PathBuf) : PathBuf :=
  if starts_with_slash name then name
  else if String.eqb path "" || ends_with_slash path then (path ++ name)%string
  else (path ++ "/" ++ name)%string.

(** [path_for] recurses along the parents of the first aliases. The fuel
    bounds the recursion: [None] is a recursion deeper than the fuel. *)
Fixpoint path_for (fuel : nat) (ns : Namespace) (id : NodeId) : option (option PathBuf) :=
  match fuel with
  | O => None
  | S fuel =>
      if id =? ROOT then Some (Some "/"%string)
      else match aliases ns !! id with
           | Some (alias :: _) =>
               match path_for fuel ns (d_parent alias) with
               | Some (Some parent) => Some (Some (push parent (d_name alias)))
               | r => r
               end
           | _ => Some None
           end
  end.

(** Enough fuel for every recursion that ends (see [path_for_total]). *)
Definition path_fuel (ns : Namespace) : nat := S (size (aliases ns)).

(** [aliases.entry(id).or_default().insert(dentry)] *)
Definition insert_alias (id : NodeId) (d : Dentry) (m : gmap Z (list Dentry)) : gmap Z (list Dentry) :=
  <[id := set_insert d (default [] (m !! id))]> m.

Definition remove (ns : Namespace) (d : Dentry) : option NodeId * Namespace :=
  match by_name ns !! d with
  | None => (None, ns)
  | Some id =>
      let m := match aliases ns !! id with
               | Some l => match set_remove d l with
                           | [] => delete id (aliases ns)
                           | l' => <[id := l']> (aliases ns)
                           end
               | None => aliases ns
               end in
      (Some id, mkNamespace (delete d (by_name ns)) m (keys ns) (next_key ns))
  end.

Definition add_alias (ns : Namespace) (id : NodeId) (d : Dentry) : Namespace :=
  mkNamespace (<[d := id]> (by_name ns)) (insert_alias id d (aliases ns)) (keys ns) (next_key ns).

(** [insert], split at the call of [Cx::insert]: [None] when the entry is
    already known, otherwise the key of the new node; then the records of the
    new node. [checked_add] panics on the last key. *)
Definition insert_find (ns : Namespace) (d : Dentry) : option NodeId := by_name ns !! d.
Definition insert_key (ns : Namespace) : option (Z * Namespace) :=
  match checked_add u64_max (next_key ns) 1 with
  | Some k => Some (next_key ns, mkNamespace (by_name ns) (aliases ns) (keys ns) k)
  | None => None
  end.
Definition insert_node (ns : Namespace) (k : Z) (id : NodeId) (d : Dentry) : Namespace :=
  mkNamespace (<[d := id]> (by_name ns)) (insert_alias id d (aliases ns)) (<[k := id]> (keys ns)) (next_key ns).

(** The namespace side of [PathNodeFs::rename]: the node that is moved and the
    node that is replaced. *)
Definition rename_entries (ns : Namespace) (old new : Dentry) : option (NodeId * option NodeId) * Namespace :=
  match by_name ns !! old with
  | None => (None, ns)
  | Some source =>
      if bool_decide (by_name ns !! new = Some source) then (None, ns)
      else
        let '(replaced, ns) := remove ns new in
        let '(_, ns) := remove ns old in
        (Some (source, replaced), add_alias ns source new)
  end.

(** ** Order of the sets *)

Lemma dentry_compare_refl d : dentry_compare d d = Eq.
Proof.
  unfold dentry_compare. rewrite Z.compare_refl.
  induction (d_name d) as [|c s IH]; simpl; [done|].
  unfold Ascii.compare. by rewrite N.compare_refl.
Qed.

Lemma dentry_compare_eq a b : dentry_compare a b = Eq → a = b.
Proof.
  unfold dentry_compare. destruct (Z.compare_spec (d_parent a) (d_parent b)); try done.
  intros Heq%String.compare_eq_iff. destruct a, b; simpl in *; congruence.
Qed.

Lemma elem_of_set_insert d x l : x ∈ set_insert d l ↔ x = d ∨ x ∈ l.
Proof.
  induction l as [|y l IH]; simpl; [rewrite list_elem_of_singleton, elem_of_nil; tauto|].
  destruct (dentry_compare d y) eqn:Hc.
  - apply dentry_compare_eq in Hc as ->. rewrite !elem_of_cons. tauto.
  - rewrite !elem_of_cons. tauto.
  - rewrite !elem_of_cons, IH. tauto.
Qed.

Lemma set_insert_non_empty d l : set_insert d l ≠ [].
Proof. destruct l as [|y l]; simpl; [done|]. by destruct (dentry_compare d y). Qed.

Lemma elem_of_set_remove d x l : x ∈ set_remove d l ↔ x ≠ d ∧ x ∈ l.
Proof. unfold set_remove. by rewrite list_elem_of_filter. Qed.

(** ** Rebuilding paths *)

(** The recursion of [path_for] as a relation: the nodes it visits, from [id]
    up, and its result. *)
Inductive path_eval (ns : Namespace) : NodeId → list NodeId → option PathBuf → Prop :=
| eval_root : path_eval ns ROOT [] (Some "/"%string)
| eval_unnamed id :
    id ≠ ROOT → default [] (aliases ns !! id) = [] → path_eval ns id [] None
| eval_alias id d l ids r :
    id ≠ ROOT → aliases ns !! id = Some (d :: l) → path_eval ns (d_parent d) ids r →
    path_eval ns id (id :: ids) ((λ p, push p (d_name d)) <$> r).

Lemma path_eval_det ns id ids1 r1 : path_eval ns id ids1 r1 →
  ∀ ids2 r2, path_eval ns id ids2 r2 → ids1 = ids2 ∧ r1 = r2.
Proof.
  induction 1 as [|id Hne Hu|id d l ids r Hne Ha Hp IH]; intros ids2 r2 H2; inversion H2; subst; try done.
  - by simplify_map_eq/=.
  - by simplify_map_eq/=.
  - simplify_map_eq/=. by edestruct IH as [-> ->].
Qed.

Lemma path_eval_suffix ns id ids r : path_eval ns id ids r →
  ∀ x, x ∈ ids → ∃ ids' r', path_eval ns x ids' r' ∧ (length ids' ≤ length ids)%nat.
Proof.
  induction 1 as [|id Hne Hu|id d l ids r Hne Ha Hp IH]; intros x Hx; [by apply elem_of_nil in Hx..|].
  apply elem_of_cons in Hx as [->|Hx].
  - eexists (id :: ids), _. split; [by econstructor|done].
  - destruct (IH x Hx) as (ids' & r' & ? & ?). exists ids', r'. simpl. auto.
Qed.

(** The recursion visits no node twice. *)
Lemma path_eval_NoDup ns id ids r : path_eval ns id ids r → NoDup ids.
Proof.
  induction 1 as [|id Hne Hu|id d l ids r Hne Ha Hp IH]; [constructor..|].
  constructor; [|done]. intros Hin.
  destruct (path_eval_suffix _ _ _ _ Hp id Hin) as (ids' & r' & Hp' & Hlen).
  assert (path_eval ns id (id :: ids) ((λ p, push p (d_name d)) <$> r)) as Hfull by (by econstructor).
  destruct (path_eval_det _ _ _ _ Hfull _ _ Hp') as [<- _]. simpl in Hlen. lia.
Qed.

Lemma path_eval_dom ns id ids r : path_eval ns id ids r → ∀ x, x ∈ ids → x ∈ dom (aliases ns).
Proof.
  induction 1 as [|id Hne Hu|id d l ids r Hne Ha Hp IH]; intros x Hx; [by apply elem_of_nil in Hx..|].
  apply elem_of_cons in Hx as [->|Hx]; [|auto]. apply elem_of_dom. by eexists.
Qed.

Lemma path_eval_length ns id ids r : path_eval ns id ids r → (length ids < path_fuel ns)%nat.
Proof.
  intros He. unfold path_fuel.
  assert (size (list_to_set ids : gset Z) ≤ size (dom (aliases ns)))%nat as Hle.
  { apply subseteq_size. intros x. rewrite elem_of_list_to_set. by apply (path_eval_dom ns id ids r). }
  rewrite size_list_to_set in Hle by (by eapply path_eval_NoDup). rewrite size_dom in Hle. lia.
Qed.

Lemma path_for_eval n ns id r :
  path_for n ns id = Some r ↔ ∃ ids, path_eval ns id ids r ∧ (length ids < n)%nat.
Proof.
  revert id r. induction n as [|n IH]; intros id r; simpl; [split; [done|intros (? & _ & ?); lia]|].
  destruct (Z.eqb_spec id ROOT) as [->|Hne].
  { split; [intros [= <-]; exists []; split; [constructor|simpl; lia]|].
    intros (ids & He & _). by inversion He. }
  destruct (aliases ns !! id) as [[|d l]|] eqn:Ha.
  - split; [intros [= <-]; exists []; split; [by constructor; rewrite ?Ha|simpl; lia]|].
    intros (ids & He & _). by inversion He; simplify_map_eq/=.
  - destruct (path_for n ns (d_parent d)) as [r'|] eqn:Hp.
    + apply IH in Hp as (ids & He & Hlen).
      assert (path_eval ns id (id :: ids) ((λ p, push p (d_name d)) <$> r')) as He' by (by econstructor).
      split.
      * intros Hr. exists (id :: ids). simpl. split; [|lia]. destruct r'; by injection Hr as <-.
      * intros (ids' & He'' & _). destruct (path_eval_det _ _ _ _ He' _ _ He'') as [_ <-]. by destruct r'.
    + split; [done|]. intros (ids & He & Hlen). inversion He; simplify_map_eq/=.
      assert (path_for n ns (d_parent d) = Some r0) by (apply IH; eexists; split; [done|lia]). congruence.
  - split; [intros [= <-]; exists []; split; [by constructor; rewrite ?Ha|simpl; lia]|].
    intros (ids & He & _). by inversion He; simplify_map_eq/=.
Qed.

(** The recursion of [path_for] is never deeper than the number of named
    nodes: if it returns at all, whatever the depth, it returns the same with
    the fuel of the model. *)
Theorem path_for_fuel n ns id r :
  path_for n ns id = Some r → path_for (path_fuel ns) ns id = Some r.
Proof.
  rewrite !path_for_eval. intros (ids & He & _). exists ids. split; [done|]. by eapply path_eval_length.
Qed.

(** The names on the way from the root to a node, by its first aliases. *)
Inductive named (ns : Namespace) : NodeId → list OsString → Prop :=
| named_root : named ns ROOT []
| named_alias id d l names :
    id ≠ ROOT → aliases ns !! id = Some (d :: l) → named ns (d_parent d) names →
    named ns id (names ++ [d_name d]).

(** Names as the kernel sends them: not empty, without a separator. *)
Fixpoint has_slash (s : string) : bool :=
  match s with
  | EmptyString => false
  | String c s' => Ascii.eqb c "/" || has_slash s'
  end.
Definition valid_name (s : OsString) : Prop := s ≠ ""%string ∧ has_slash s = false.

Fixpoint join (names : list OsString) : string :=
  match names with
  | [] => ""
  | n :: l => "/" ++ n ++ join l
  end%string.
Definition absolute (names : list OsString) : PathBuf :=
  match names with [] => "/"%string | _ => join names end.

#[local] Arguments String.append : simpl nomatch.

Lemma string_app_assoc (a b c : string) : ((a ++ b) ++ c = a ++ (b ++ c))%string.
Proof. induction a; simpl; congruence. Qed.
Lemma string_app_nil (a : string) : (a ++ "")%string = a.
Proof. induction a; simpl; congruence. Qed.

Lemma join_app l1 l2 : join (l1 ++ l2) = (join l1 ++ join l2)%string.
Proof. induction l1 as [|n l IH]; simpl; [done|]. by rewrite IH, !string_app_assoc. Qed.

Lemma ends_with_slash_app a b : b ≠ ""%string → ends_with_slash (a ++ b) = ends_with_slash b.
Proof.
  intros Hb. induction a as [|c a IH]; simpl; [done|].
  destruct (a ++ b)%string eqn:Hab; [|done]. destruct a; simpl in Hab; [by subst|done].
Qed.

Lemma valid_no_end s : valid_name s → ends_with_slash s = false.
Proof.
  intros [Hne Hs]. induction s as [|c s IH]; simpl in *; [done|].
  apply orb_false_iff in Hs as [Hc Hs]. destruct s; [done|]. by apply IH.
Qed.

Lemma push_absolute names n :
  Forall valid_name names → valid_name n → push (absolute names) n = absolute (names ++ [n]).
Proof.
  intros Hnames Hn. unfold push. pose proof Hn as [Hne Hs].
  assert (starts_with_slash n = false) as ->.
  { destruct n; [done|]. simpl in *. by apply orb_false_iff in Hs as [-> _]. }
  destruct names as [|x names]; simpl; [by rewrite string_app_nil|].
  assert (ends_with_slash ("/" ++ x ++ join names) = false) as Hend.
  { apply Forall_cons in Hnames as [Hx Hnames]. rewrite ends_with_slash_app; [|destruct x; [by destruct Hx|done]].
    destruct names as [|y names _] using rev_ind; simpl; [rewrite string_app_nil; by apply valid_no_end|].
    apply Forall_app in Hnames as [_ [Hy _]%Forall_cons].
    rewrite join_app. simpl. rewrite string_app_nil.
    assert (("/" ++ y)%string ≠ "") by done.
    rewrite <- string_app_assoc, ends_with_slash_app by done.
    change (String "/" y) with ("/" ++ y)%string. rewrite ends_with_slash_app by (by destruct Hy).
    by apply valid_no_end. }
  simpl in Hend. rewrite Hend. rewrite join_app. simpl. by rewrite string_app_nil, !string_app_assoc.
Qed.

(** The names, pushed one after the other onto the root. *)
Definition push_all (names : list OsString) : PathBuf := fold_left push names "/"%string.

Lemma push_all_snoc names n : push_all (names ++ [n]) = push (push_all names) n.
Proof. unfold push_all. by rewrite fold_left_app. Qed.

Lemma push_all_valid names : Forall valid_name names → push_all names = absolute names.
Proof.
  induction names as [|n names IH] using rev_ind; intros Hv; [done|].
  apply Forall_app in Hv as [Hv [Hn _]%Forall_cons]. by rewrite push_all_snoc, IH, push_absolute.
Qed.

Lemma path_eval_named ns id ids r :
  path_eval ns id ids r → ∀ p, r = Some p → ∃ names, named ns id names ∧ p = push_all names.
Proof.
  induction 1 as [|id Hne Hu|id d l ids r Hne Ha Hp IH]; intros p Hr; [|done|].
  - injection Hr as <-. exists []. split; [constructor|done].
  - destruct r as [q|]; [|done]. injection Hr as <-.
    destruct (IH q eq_refl) as (names & ? & ->).
    exists (names ++ [d_name d]). split; [by econstructor|by rewrite push_all_snoc].
Qed.

Lemma named_path_eval ns id names :
  named ns id names → ∃ ids, path_eval ns id ids (Some (push_all names)).
Proof.
  induction 1 as [|id d l names Hne Ha Hn [ids IH]]; [exists []; constructor|].
  exists (id :: ids). rewrite push_all_snoc.
  exact (eval_alias ns id d l ids (Some (push_all names)) Hne Ha IH).
Qed.

(** C28: a node has a path exactly when its first aliases lead up to the root,
    and the path handed to the path filesystem is then the root onto which the
    names on the way down are pushed, one after the other. Names such as the
    kernel sends them (not empty, without a separator) give the absolute path
    made of the names, separated by single slashes. A listing of the path
    filesystem may bring in any name: the path then starts over at the last
    name that is absolute, as [PathBuf::push] replaces what was there. *)
Theorem path_for_spec ns id :
  (∀ p, path_for (path_fuel ns) ns id = Some (Some p) ↔ ∃ names, named ns id names ∧ p = push_all names) ∧
  (∀ names, Forall valid_name names → push_all names = absolute names) ∧
  (∀ above name below, starts_with_slash name = true →
     push_all (above ++ name :: below) = fold_left push below name).
Proof.
  split_and!.
  - intros p. rewrite path_for_eval. split.
    + intros (ids & He & _). by eapply path_eval_named.
    + intros (names & Hn & ->). destruct (named_path_eval ns id names Hn) as [ids He].
      exists ids. split; [done|]. by eapply path_eval_length.
  - apply push_all_valid.
  - intros above name below Hs. unfold push_all. rewrite fold_left_app. simpl. unfold push at 2. by rewrite Hs.
Qed.

(** ** Consistency of the two maps *)

Record ns_wf (ns : Namespace) : Prop := {
  nw_alias : ∀ d id, by_name ns !! d = Some id ↔ d ∈ default [] (aliases ns !! id);
  nw_nonempty : ∀ id, aliases ns !! id ≠ Some [];
  nw_keys : ∀ k id, keys ns !! k = Some id → 1 ≤ k < next_key ns;
  nw_next : 1 ≤ next_key ns;
}.

Lemma Namespace_new_wf : ns_wf Namespace_new.
Proof.
  split; simpl.
  - intros d id. rewrite !lookup_empty. simpl. rewrite elem_of_nil. done.
  - intros id. by rewrite lookup_empty.
  - intros k id [<- _]%lookup_singleton_Some. lia.
  - lia.
Qed.

Lemma aliases_insert id d m x :
  default [] (insert_alias id d m !! x) =
    if decide (id = x) then set_insert d (default [] (m !! id)) else default [] (m !! x).
Proof. unfold insert_alias. rewrite lookup_insert. by case_decide. Qed.

Lemma add_alias_wf ns id d :
  ns_wf ns → by_name ns !! d = None ∨ by_name ns !! d = Some id → ns_wf (add_alias ns id d).
Proof.
  intros [Ha Hn Hk Hnk] Hd. split; simpl; [| |done|done].
  - intros x i. rewrite aliases_insert, lookup_insert.
    destruct (decide (d = x)) as [->|Hdx], (decide (id = i)) as [->|Hi].
    + rewrite elem_of_set_insert. split; auto.
    + split; [congruence|]. intros Hx%Ha. destruct Hd; congruence.
    + rewrite elem_of_set_insert, <- Ha. split; [auto|]. intros [?|?]; [congruence|done].
    + apply Ha.
  - intros i. unfold insert_alias. rewrite lookup_insert. case_decide; [|apply Hn].
    intros [= Hnil]. by apply set_insert_non_empty in Hnil.
Qed.

Lemma insert_node_wf ns k id d :
  ns_wf ns → by_name ns !! d = None → 1 ≤ k < next_key ns → ns_wf (insert_node ns k id d).
Proof.
  intros Hwf Hd Hk. destruct (add_alias_wf ns id d Hwf (or_introl Hd)) as [Ha Hn Hks Hnk].
  split; simpl in *; [done|done| |done]. intros k' i. rewrite lookup_insert.
  case_decide; [naive_solver|apply Hks].
Qed.

Lemma remove_lookup ns d x :
  by_name (remove ns d).2 !! x = if decide (d = x) then None else by_name ns !! x.
Proof.
  unfold remove. destruct (by_name ns !! d) as [id|] eqn:Hd; simpl; [apply lookup_delete|].
  case_decide; [by subst|done].
Qed.

Lemma remove_fst ns d : (remove ns d).1 = by_name ns !! d.
Proof. unfold remove. by destruct (by_name ns !! d). Qed.

Lemma remove_wf ns d : ns_wf ns → ns_wf (remove ns d).2.
Proof.
  intros [Ha Hn Hk Hnk]. unfold remove. destruct (by_name ns !! d) as [id|] eqn:Hd; [|by split]. simpl.
  set (m := match aliases ns !! id with Some _ => _ | None => _ end).
  assert (∀ i, default [] (m !! i) = if decide (id = i) then set_remove d (default [] (aliases ns !! i))
                                     else default [] (aliases ns !! i)) as Hm.
  { intros i. subst m. destruct (aliases ns !! id) as [l|] eqn:Hl.
    - destruct (set_remove d l) as [|y l'] eqn:Hr; [rewrite lookup_delete|rewrite lookup_insert];
        case_decide; try done; subst i; by rewrite Hl.
    - case_decide; [subst i; by rewrite Hl|done]. }
  split; simpl.
  - intros x i. rewrite lookup_delete, Hm. destruct (decide (d = x)) as [->|Hx].
    + split; [done|]. case_decide as Hi; [rewrite elem_of_set_remove; tauto|].
      intros Hin%Ha. congruence.
    + rewrite Ha. case_decide; [|done]. rewrite elem_of_set_remove. naive_solver.
  - intros i. subst m. destruct (aliases ns !! id) as [l|] eqn:Hl; [|apply Hn].
    destruct (set_remove d l) as [|y l'] eqn:Hr; [rewrite lookup_delete|rewrite lookup_insert];
      case_decide; try done; apply Hn.
  - done.
  - done.
Qed.

Lemma remove_pair ns d : remove ns d = (by_name ns !! d, (remove ns d).2).
Proof. rewrite <- remove_fst. by destruct (remove ns d). Qed.

Lemma rename_entries_step ns old new source :
  by_name ns !! old = Some source → by_name ns !! new ≠ Some source →
  rename_entries ns old new =
    (Some (source, by_name ns !! new), add_alias (remove (remove ns new).2 old).2 source new).
Proof.
  intros Hold Hnew. unfold rename_entries. rewrite Hold, bool_decide_eq_false_2 by done.
  rewrite (remove_pair ns new), (remove_pair (remove ns new).2 old). done.
Qed.

Lemma rename_entries_wf ns old new : ns_wf ns → ns_wf (rename_entries ns old new).2.
Proof.
  intros Hwf. destruct (by_name ns !! old) as [source|] eqn:Hold; cycle 1.
  { unfold rename_entries. by rewrite Hold. }
  destruct (decide (by_name ns !! new = Some source)) as [Hnew|Hnew].
  { unfold rename_entries. by rewrite Hold, bool_decide_eq_true_2. }
  rewrite (rename_entries_step _ _ _ source) by done. simpl.
  apply add_alias_wf; [by do 2 apply remove_wf|]. left. rewrite !remove_lookup. by repeat case_decide.
Qed.

(** C26: what a rename that the filesystem performed does to the names. If the
    old name is known, it moves exactly one name: the new name leads to the
    node that was moved, the old one to nothing, every other name is untouched,
    and the node that had the new name is reported (so that its link is
    dropped). If the old name is not known (the filesystem renamed something
    that was never looked up or listed), or the new name already leads to the
    same node, no name changes and nothing is reported. In each case the two
    maps stay inverse to each other and no key changes. *)
Theorem rename_entries_spec ns old new :
  ns_wf ns →
  let '(o, ns') := rename_entries ns old new in
  ns_wf ns' ∧ next_key ns' = next_key ns ∧ keys ns' = keys ns ∧
  match by_name ns !! old with
  | None => o = None ∧ ns' = ns
  | Some source =>
      if decide (by_name ns !! new = Some source) then o = None ∧ ns' = ns
      else o = Some (source, by_name ns !! new) ∧
        ∀ d, by_name ns' !! d =
          if decide (d = new) then Some source else if decide (d = old) then None else by_name ns !! d
  end.
Proof.
  intros Hwf. pose proof (rename_entries_wf ns old new Hwf) as Hwf'.
  destruct (by_name ns !! old) as [source|] eqn:Hold; [|by unfold rename_entries in *; rewrite Hold in *].
  case_decide as Hnew; [unfold rename_entries in *; rewrite Hold, bool_decide_eq_true_2 in * by done; done|].
  assert (∀ n d, next_key (remove n d).2 = next_key n ∧ keys (remove n d).2 = keys n) as Hk.
  { intros n d. unfold remove. by destruct (by_name n !! d). }
  rewrite (rename_entries_step _ _ _ source) in * by done. simpl in *. split_and!; [done| | |done|].
  - destruct (Hk (remove ns new).2 old) as [-> _]. apply Hk.
  - destruct (Hk (remove ns new).2 old) as [_ ->]. apply Hk.
  - intros d. rewrite lookup_insert, !remove_lookup. repeat case_decide; congruence.
Qed.

Lemma key_fresh ns k ns' : insert_key ns = Some (k, ns') → ns_wf ns →
  k = next_key ns ∧ next_key ns' = k + 1 ∧ by_name ns' = by_name ns ∧ aliases ns' = aliases ns ∧
  keys ns' = keys ns.
Proof.
  unfold insert_key. destruct (checked_add _ _ _) as [x|] eqn:Hx; [|done].
  apply checked_add_Some in Hx as [-> _]. by intros [= <- <-].
Qed.

(** A new entry gets a key of its own: the keys tell apart nodes that were
    given the same inode number, and no recorded key changes its meaning. *)
Theorem insert_key_fresh ns d k ns' id :
  ns_wf ns → by_name ns !! d = None → insert_key ns = Some (k, ns') →
  keys ns !! k = None ∧
  ns_wf (insert_node ns' k id d) ∧
  by_name (insert_node ns' k id d) !! d = Some id ∧
  id_for_node (insert_node ns' k id d) (mkPathNode k) = Some id ∧
  ∀ k' id', keys ns !! k' = Some id' → id_for_node (insert_node ns' k id d) (mkPathNode k') = Some id'.
Proof.
  intros Hwf Hd Hk. pose proof Hwf as [Ha Hn Hks Hnk].
  destruct (key_fresh ns k ns' Hk Hwf) as (-> & Hnext & Hby & Hal & Hke).
  assert (keys ns !! next_key ns = None) as Hfresh.
  { destruct (keys ns !! next_key ns) as [i|] eqn:Hi; [|done]. specialize (Hks _ _ Hi). lia. }
  assert (ns_wf (insert_node ns' (next_key ns) id d)) as Hw.
  { apply insert_node_wf; [|by rewrite Hby|lia].
    split; rewrite ?Hby, ?Hal, ?Hke, ?Hnext; [done|done| |lia].
    intros k' i Hi. specialize (Hks _ _ Hi). lia. }
  unfold id_for_node. simpl. rewrite Hby, Hke. split_and!.
  - done.
  - done.
  - by rewrite lookup_insert_eq.
  - by rewrite lookup_insert_eq.
  - intros k' id' Hk'. rewrite lookup_insert_ne; [done|]. congruence.
Qed.

(** A namespace with [/a] (node 2) and [/a/b] (node 3). *)
Definition sample_ns : Namespace :=
  let ns := insert_node (mkNamespace ∅ ∅ (keys Namespace_new) 4) 2 2 (mkDentry 1 "a") in
  insert_node ns 3 3 (mkDentry 2 "b").

Lemma sample_ns_wf : ns_wf sample_ns.
Proof.
  apply insert_node_wf; [apply insert_node_wf|vm_compute; reflexivity|simpl; lia]; [|vm_compute; reflexivity|simpl; lia].
  split; simpl; [|intros id; by rewrite lookup_empty| |lia].
  - intros d id. rewrite !lookup_empty. simpl. by rewrite elem_of_nil.
  - intros k id [<- _]%lookup_singleton_Some. lia.
Qed.

Lemma sample_ns_aliases id l :
  aliases sample_ns !! id = Some l → l = [mkDentry 1 "a"] ∨ l = [mkDentry 2 "b"].
Proof.
  change (aliases sample_ns) with (<[3 := [mkDentry 2 "b"]]> (<[2 := [mkDentry 1 "a"]]> (∅ : gmap Z (list Dentry)))).
  rewrite !lookup_insert, lookup_empty. repeat case_decide; naive_solver.
Qed.

Lemma path_for_fuel_witness : path_for (path_fuel sample_ns) sample_ns 3 = Some (Some "/a/b"%string).
Proof. apply (path_for_fuel 10). vm_compute. reflexivity. Defined.

Lemma path_for_spec_witness : ∃ names, named sample_ns 3 names ∧ "/a/b"%string = push_all names.
Proof. apply (path_for_spec sample_ns 3). vm_compute. reflexivity. Defined.

(** Moving [/a/b] over nothing, to [/c]; then a name that is not known. *)
Lemma rename_entries_spec_witness :
  let '(o, ns') := rename_entries sample_ns (mkDentry 2 "b") (mkDentry 1 "c") in
  o = Some (3, None) ∧ by_name ns' !! mkDentry 1 "c" = Some 3 ∧
  (rename_entries sample_ns (mkDentry 1 "x") (mkDentry 1 "a")).1 = None.
Proof.
  pose proof (rename_entries_spec sample_ns (mkDentry 2 "b") (mkDentry 1 "c") sample_ns_wf) as Hb.
  pose proof (rename_entries_spec sample_ns (mkDentry 1 "x") (mkDentry 1 "a") sample_ns_wf) as Hx.
  destruct (rename_entries sample_ns (mkDentry 2 "b") (mkDentry 1 "c")) as [o ns'].
  destruct (rename_entries sample_ns (mkDentry 1 "x") (mkDentry 1 "a")) as [o' ns''].
  destruct Hb as (_ & _ & _ & -> & Hd). destruct Hx as (_ & _ & _ & -> & _).
  split_and!; [reflexivity|by rewrite Hd|reflexivity].
Defined.

Lemma insert_key_fresh_witness :
  let ns' := mkNamespace (by_name sample_ns) (aliases sample_ns) (keys sample_ns) 5 in
  keys sample_ns !! 4 = None ∧
  ns_wf (insert_node ns' 4 2 (mkDentry 1 "d")) ∧
  by_name (insert_node ns' 4 2 (mkDentry 1 "d")) !! mkDentry 1 "d" = Some 2 ∧
  id_for_node (insert_node ns' 4 2 (mkDentry 1 "d")) (mkPathNode 4) = Some 2 ∧
  ∀ k' id', keys sample_ns !! k' = Some id' →
    id_for_node (insert_node ns' 4 2 (mkDentry 1 "d")) (mkPathNode k') = Some id'.
Proof.
  apply (insert_key_fresh sample_ns (mkDentry 1 "d") 4 _ 2);
    [apply sample_ns_wf|vm_compute; reflexivity|vm_compute; reflexivity].
Defined.

(** C27: recording a new name for a node, as [link] does, keeps the two maps
    inverse to each other exactly when the name is unknown or already the
    node's: a name that another node has stays among that node's aliases. *)
Theorem link_over_known_name (ns : Namespace) (id : NodeId) (d : Dentry) (Hns : ns_wf ns) :
  ns_wf (add_alias ns id d) ↔ by_name ns !! d = None ∨ by_name ns !! d = Some id.
Proof.
  split; [|by apply add_alias_wf]. intros [Ha _ _ _].
  destruct (by_name ns !! d) as [old|] eqn:Hd; [right|by left].
  apply (nw_alias ns Hns) in Hd. destruct (decide (id = old)) as [->|Hne]; [done|].
  assert (d ∈ default [] (aliases (add_alias ns id d) !! old)) as Hr%Ha.
  { simpl. rewrite aliases_insert. by rewrite decide_False. }
  simpl in Hr. by rewrite lookup_insert_eq in Hr.
Qed.

(** The old node keeps a path that is not its own. *)
Lemma link_over_known_name_witness :
  ns_wf sample_ns ∧ ¬ ns_wf (add_alias sample_ns 3 (mkDentry 1 "a")) ∧
  path_for (path_fuel sample_ns) (add_alias sample_ns 3 (mkDentry 1 "a")) 2 = Some (Some "/a"%string).
Proof.
  split; [exact sample_ns_wf|]. split; [|vm_compute; reflexivity].
  intros Hwf. apply (link_over_known_name sample_ns 3 (mkDentry 1 "a") sample_ns_wf) in Hwf.
  vm_compute in Hwf. destruct Hwf as [Hwf|Hwf]; discriminate Hwf.
Defined.
