(* ===== verification/PathFs.v ===== *)
(** * Path filesystems ([typed_fuse_core/src/path_fs.rs])

    The path-based interface [PathFilesystem] with its default methods, and the
    adapter [PathNodeFs] that makes a node filesystem of it: every callback of
    the adapter, with its guards on the two locks (the read-write lock
    [operations] and the mutex of the namespace) and its accesses to the
    namespace and to the node table. *)

From S2P Require Import Prelude Types NodeTable NodeFs Namespace.
From Stdlib Require String.

(** ** Programs of a path filesystem

    As [prog], but without access to the node table. *)
Inductive pprog (T E A : Type) : Type :=
| PDone (a : A)
| PCrash
| PHang
| PRead (k : T → pprog T E A)
| PWrite (t : T) (k : pprog T E A)
| PCritical {B : Type} (f : T → option (B * T)) (k : B → pprog T E A)
| PEmit (e : E) (k : bool → pprog T E A).
Arguments PDone {T E A}.
Arguments PCrash {T E A}.
Arguments PHang {T E A}.
Arguments PRead {T E A}.
Arguments PWrite {T E A}.
Arguments PCritical {T E A B}.
Arguments PEmit {T E A}.

(** What [PathDirSink::add] and [PathPlusDirSink::add] are given. *)
Record PathDirEntry := mkPathDirEntry { pd_name : OsString; pd_kind : FileKind; pd_next_offset : Z }.
Record PathPlusEntry := mkPathPlusEntry { pp_name : OsString; pp_attr : NodeAttr; pp_next_offset : Z }.

(** ** The trait: [T] is the state behind [&self] *)
Record PathFilesystem (H D T : Type) := {
  P_SUPPORTS_POSIX_LOCKS : bool;
  P_SUPPORTS_READDIRPLUS : bool;
  p_init : ConnInfo → pprog T Empty_set ConnInfo;
  p_destroy : pprog T Empty_set unit;
  p_lookup : PathBuf → OsString → Caller → pprog T Empty_set (Result Errno (option NodeAttr));
  p_getattr : option PathBuf → option H → Caller → pprog T Empty_set (Result Errno NodeAttr);
  p_setattr : option PathBuf → option H → SetAttr → Caller → pprog T Empty_set (Result Errno NodeAttr);
  p_readlink : PathBuf → Caller → pprog T Empty_set (Result Errno PathBuf);
  p_mknod : PathBuf → OsString → Z → Z → Z → Caller → pprog T Empty_set (Result Errno NodeAttr);
  p_mkdir : PathBuf → OsString → Z → Z → Caller → pprog T Empty_set (Result Errno NodeAttr);
  p_symlink : PathBuf → OsString → PathBuf → Caller → pprog T Empty_set (Result Errno NodeAttr);
  p_unlink : PathBuf → OsString → Caller → pprog T Empty_set (Result Errno unit);
  p_rmdir : PathBuf → OsString → Caller → pprog T Empty_set (Result Errno unit);
  p_rename : PathBuf → OsString → PathBuf → OsString → Caller → pprog T Empty_set (Result Errno unit);
  p_link : PathBuf → PathBuf → OsString → Caller → pprog T Empty_set (Result Errno NodeAttr);
  p_open : PathBuf → Z → Caller → pprog T Empty_set (Result Errno (Opened H));
  p_read : option PathBuf → H → Z → Z → Caller → pprog T Empty_set (Result Errno bytes);
  p_write : option PathBuf → H → bytes → Z → Caller → pprog T Empty_set (Result Errno Z);
  p_flush : option PathBuf → H → Caller → pprog T Empty_set (Result Errno unit);
  p_release : option PathBuf → H → Caller → pprog T Empty_set (Result Errno unit);
  p_fsync : option PathBuf → H → bool → Caller → pprog T Empty_set (Result Errno unit);
  p_opendir : PathBuf → Z → Caller → pprog T Empty_set (Result Errno (Opened D));
  p_readdir : PathBuf → D → Z → Caller → pprog T PathDirEntry (Result Errno unit);
  p_readdirplus : PathBuf → D → Z → Caller → pprog T PathPlusEntry (Result Errno unit);
  p_releasedir : option PathBuf → D → Caller → pprog T Empty_set (Result Errno unit);
  p_fsyncdir : option PathBuf → D → bool → Caller → pprog T Empty_set (Result Errno unit);
  p_statfs : PathBuf → Caller → pprog T Empty_set (Result Errno StatFs);
  p_setxattr : PathBuf → OsString → bytes → Z → Caller → pprog T Empty_set (Result Errno unit);
  p_getxattr : PathBuf → OsString → Z → Caller → pprog T Empty_set (Result Errno XattrReply);
  p_listxattr : PathBuf → Z → Caller → pprog T Empty_set (Result Errno XattrReply);
  p_removexattr : PathBuf → OsString → Caller → pprog T Empty_set (Result Errno unit);
  p_access : PathBuf → Z → Caller → pprog T Empty_set (Result Errno unit);
  p_create : PathBuf → OsString → Z → Z → Z → Caller → pprog T Empty_set (Result Errno (NodeAttr * Opened H));
  p_fallocate : option PathBuf → H → Z → Z → Z → Caller → pprog T Empty_set (Result Errno unit);
  p_lseek : option PathBuf → H → Z → Z → Caller → pprog T Empty_set (Result Errno Z);
  p_getlk : option PathBuf → H → Z → FileLock → Caller → pprog T Empty_set (Result Errno FileLock);
  p_setlk : option PathBuf → H → Z → FileLock → bool → Caller → pprog T Empty_set (Result Errno unit);
}.
Arguments P_SUPPORTS_POSIX_LOCKS {H D T}.
Arguments P_SUPPORTS_READDIRPLUS {H D T}.
Arguments p_init {H D T}.
Arguments p_destroy {H D T}.
Arguments p_lookup {H D T}.
Arguments p_getattr {H D T}.
Arguments p_setattr {H D T}.
Arguments p_readlink {H D T}.
Arguments p_mknod {H D T}.
Arguments p_mkdir {H D T}.
Arguments p_symlink {H D T}.
Arguments p_unlink {H D T}.
Arguments p_rmdir {H D T}.
Arguments p_rename {H D T}.
Arguments p_link {H D T}.
Arguments p_open {H D T}.
Arguments p_read {H D T}.
Arguments p_write {H D T}.
Arguments p_flush {H D T}.
Arguments p_release {H D T}.
Arguments p_fsync {H D T}.
Arguments p_opendir {H D T}.
Arguments p_readdir {H D T}.
Arguments p_readdirplus {H D T}.
Arguments p_releasedir {H D T}.
Arguments p_fsyncdir {H D T}.
Arguments p_statfs {H D T}.
Arguments p_setxattr {H D T}.
Arguments p_getxattr {H D T}.
Arguments p_listxattr {H D T}.
Arguments p_removexattr {H D T}.
Arguments p_access {H D T}.
Arguments p_create {H D T}.
Arguments p_fallocate {H D T}.
Arguments p_lseek {H D T}.
Arguments p_getlk {H D T}.
Arguments p_setlk {H D T}.

(** ** The default methods *)
Section defaults.
Context {H D T : Type} `{Libc}.

Definition path_default_init (conn : ConnInfo) : pprog T Empty_set ConnInfo := PDone conn.
Definition path_default_destroy : pprog T Empty_set unit := PDone tt.
Definition path_default_lookup (parent : PathBuf) (name : OsString) (caller : Caller) :
    pprog T Empty_set (Result Errno (option NodeAttr)) :=
  PDone (Err ENOSYS).
Definition path_default_setattr (path : option PathBuf) (handle : option H) (set : SetAttr) (caller : Caller) :
    pprog T Empty_set (Result Errno NodeAttr) :=
  PDone (Err ENOSYS).
Definition path_default_readlink (path : PathBuf) (caller : Caller) :
    pprog T Empty_set (Result Errno PathBuf) :=
  PDone (Err ENOSYS).
Definition path_default_mknod (parent : PathBuf) (name : OsString) (mode : Z) (rdev : Z) (umask : Z) (caller : Caller) :
    pprog T Empty_set (Result Errno NodeAttr) :=
  PDone (Err ENOSYS).
Definition path_default_mkdir (parent : PathBuf) (name : OsString) (mode : Z) (umask : Z) (caller : Caller) :
    pprog T Empty_set (Result Errno NodeAttr) :=
  PDone (Err ENOSYS).
Definition path_default_symlink (parent : PathBuf) (name : OsString) (target : PathBuf) (caller : Caller) :
    pprog T Empty_set (Result Errno NodeAttr) :=
  PDone (Err ENOSYS).
Definition path_default_unlink (parent : PathBuf) (name : OsString) (caller : Caller) :
    pprog T Empty_set (Result Errno unit) :=
  PDone (Err ENOSYS).
Definition path_default_rmdir (parent : PathBuf) (name : OsString) (caller : Caller) :
    pprog T Empty_set (Result Errno unit) :=
  PDone (Err ENOSYS).
Definition path_default_rename (parent : PathBuf) (name : OsString) (newparent : PathBuf) (newname : OsString) (caller : Caller) :
    pprog T Empty_set (Result Errno unit) :=
  PDone (Err ENOSYS).
Definition path_default_link (path : PathBuf) (newparent : PathBuf) (newname : OsString) (caller : Caller) :
    pprog T Empty_set (Result Errno NodeAttr) :=
  PDone (Err ENOSYS).
Definition path_default_open (path : PathBuf) (flags : Z) (caller : Caller) :
    pprog T Empty_set (Result Errno (Opened H)) :=
  PDone (Err ENOSYS).
Definition path_default_read (path : option PathBuf) (handle : H) (offset : Z) (size : Z) (caller : Caller) :
    pprog T Empty_set (Result Errno bytes) :=
  PDone (Err ENOSYS).
Definition path_default_write (path : option PathBuf) (handle : H) (data : bytes) (offset : Z) (caller : Caller) :
    pprog T Empty_set (Result Errno Z) :=
  PDone (Err ENOSYS).
Definition path_default_flush (path : option PathBuf) (handle : H) (caller : Caller) :
    pprog T Empty_set (Result Errno unit) :=
  PDone (Ok tt).
Definition path_default_release (path : option PathBuf) (handle : H) (caller : Caller) :
    pprog T Empty_set (Result Errno unit) :=
  PDone (Ok tt).
Definition path_default_fsync (path : option PathBuf) (handle : H) (datasync : bool) (caller : Caller) :
    pprog T Empty_set (Result Errno unit) :=
  PDone (Ok tt).
Definition path_default_opendir (path : PathBuf) (flags : Z) (caller : Caller) :
    pprog T Empty_set (Result Errno (Opened D)) :=
  PDone (Err ENOSYS).
Definition path_default_readdir (path : PathBuf) (handle : D) (offset : Z) (caller : Caller) :
    pprog T PathDirEntry (Result Errno unit) :=
  PDone (Err ENOSYS).
Definition path_default_readdirplus (path : PathBuf) (handle : D) (offset : Z) (caller : Caller) :
    pprog T PathPlusEntry (Result Errno unit) :=
  PDone (Err ENOSYS).
Definition path_default_releasedir (path : option PathBuf) (handle : D) (caller : Caller) :
    pprog T Empty_set (Result Errno unit) :=
  PDone (Ok tt).
Definition path_default_fsyncdir (path : option PathBuf) (handle : D) (datasync : bool) (caller : Caller) :
    pprog T Empty_set (Result Errno unit) :=
  PDone (Ok tt).
Definition path_default_statfs (path : PathBuf) (caller : Caller) :
    pprog T Empty_set (Result Errno StatFs) :=
  PDone (Ok {|
    sfs_blocks := 0; sfs_bfree := 0; sfs_bavail := 0; sfs_files := 0; sfs_ffree := 0;
    sfs_bsize := 512; sfs_namelen := 255; sfs_frsize := 0 |}).
Definition path_default_setxattr (path : PathBuf) (name : OsString) (value : bytes) (flags : Z) (caller : Caller) :
    pprog T Empty_set (Result Errno unit) :=
  PDone (Err ENOSYS).
Definition path_default_getxattr (path : PathBuf) (name : OsString) (size : Z) (caller : Caller) :
    pprog T Empty_set (Result Errno XattrReply) :=
  PDone (Err ENOSYS).
Definition path_default_listxattr (path : PathBuf) (size : Z) (caller : Caller) :
    pprog T Empty_set (Result Errno XattrReply) :=
  PDone (Err ENOSYS).
Definition path_default_removexattr (path : PathBuf) (name : OsString) (caller : Caller) :
    pprog T Empty_set (Result Errno unit) :=
  PDone (Err ENOSYS).
Definition path_default_access (path : PathBuf) (mask : Z) (caller : Caller) :
    pprog T Empty_set (Result Errno unit) :=
  PDone (Ok tt).
Definition path_default_create (parent : PathBuf) (name : OsString) (mode : Z) (umask : Z) (flags : Z) (caller : Caller) :
    pprog T Empty_set (Result Errno (NodeAttr * Opened H)) :=
  PDone (Err ENOSYS).
Definition path_default_fallocate (path : option PathBuf) (handle : H) (mode : Z) (offset : Z) (length : Z) (caller : Caller) :
    pprog T Empty_set (Result Errno unit) :=
  PDone (Err ENOSYS).
Definition path_default_lseek (path : option PathBuf) (handle : H) (offset : Z) (whence : Z) (caller : Caller) :
    pprog T Empty_set (Result Errno Z) :=
  PDone (Err ENOSYS).
Definition path_default_getlk (path : option PathBuf) (handle : H) (owner : Z) (lock : FileLock) (caller : Caller) :
    pprog T Empty_set (Result Errno FileLock) :=
  PDone (Err ENOSYS).
Definition path_default_setlk (path : option PathBuf) (handle : H) (owner : Z) (lock : FileLock) (sleep : bool) (caller : Caller) :
    pprog T Empty_set (Result Errno unit) :=
  PDone (Err ENOSYS).

(** A path filesystem that implements only the required method. *)
Definition default_PathFilesystem
    (getattr : option PathBuf → option H → Caller → pprog T Empty_set (Result Errno NodeAttr)) :
    PathFilesystem H D T := {|
  P_SUPPORTS_POSIX_LOCKS := false;
  P_SUPPORTS_READDIRPLUS := false;
  p_getattr := getattr;
  p_init := path_default_init;
  p_destroy := path_default_destroy;
  p_lookup := path_default_lookup;
  p_setattr := path_default_setattr;
  p_readlink := path_default_readlink;
  p_mknod := path_default_mknod;
  p_mkdir := path_default_mkdir;
  p_symlink := path_default_symlink;
  p_unlink := path_default_unlink;
  p_rmdir := path_default_rmdir;
  p_rename := path_default_rename;
  p_link := path_default_link;
  p_open := path_default_open;
  p_read := path_default_read;
  p_write := path_default_write;
  p_flush := path_default_flush;
  p_release := path_default_release;
  p_fsync := path_default_fsync;
  p_opendir := path_default_opendir;
  p_readdir := path_default_readdir;
  p_readdirplus := path_default_readdirplus;
  p_releasedir := path_default_releasedir;
  p_fsyncdir := path_default_fsyncdir;
  p_statfs := path_default_statfs;
  p_setxattr := path_default_setxattr;
  p_getxattr := path_default_getxattr;
  p_listxattr := path_default_listxattr;
  p_removexattr := path_default_removexattr;
  p_access := path_default_access;
  p_create := path_default_create;
  p_fallocate := path_default_fallocate;
  p_lseek := path_default_lseek;
  p_getlk := path_default_getlk;
  p_setlk := path_default_setlk;
|}.
End defaults.

(** ** The adapter *)

(** [RwLock<()>]: who is in. *)
Inductive RwLock := Readers (n : nat) | Writer.

(** The state of [PathNodeFs]; [ps_busy] is the mutex of the namespace. *)
Record PathState (T : Type) := mkPathState {
  ps_inner : T;
  ps_operations : RwLock;
  ps_busy : bool;
  ps_namespace : Namespace;
}.
Arguments mkPathState {T}.
Arguments ps_inner {T}.
Arguments ps_operations {T}.
Arguments ps_busy {T}.
Arguments ps_namespace {T}.

Section state.
Context {T : Type}.
Implicit Types (s : PathState T).

Definition with_inner (t : T) s := mkPathState t (ps_operations s) (ps_busy s) (ps_namespace s).
Definition with_operations (o : RwLock) s := mkPathState (ps_inner s) o (ps_busy s) (ps_namespace s).
Definition with_busy (b : bool) s := mkPathState (ps_inner s) (ps_operations s) b (ps_namespace s).
Definition with_ns (ns : Namespace) s := mkPathState (ps_inner s) (ps_operations s) (ps_busy s) ns.

(** [RwLock::read], [RwLock::write] and [Mutex::lock], poisoned or not, and the
    drops of their guards.  A lock is taken when it is free. *)
Definition read_acquire s : option (PathState T) :=
  match ps_operations s with
  | Readers n => Some (with_operations (Readers (S n)) s)
  | Writer => None
  end.
Definition read_release s : PathState T :=
  match ps_operations s with
  | Readers n => with_operations (Readers (pred n)) s
  | Writer => s
  end.
Definition write_acquire s : option (PathState T) :=
  match ps_operations s with
  | Readers 0 => Some (with_operations Writer s)
  | _ => None
  end.
Definition write_release s : PathState T := with_operations (Readers 0) s.
Definition mutex_acquire s : option (PathState T) := if ps_busy s then None else Some (with_busy true s).
Definition mutex_release s : PathState T := with_busy false s.
End state.

Section adapter.
Context {H D T : Type} `{Libc} (inner : PathFilesystem H D T).

Abbreviation St := (PathState T).
Abbreviation pr E A := (prog PathNode St E A).
Abbreviation cb A := (prog PathNode St Empty_set (Result Errno A)).

Definition PathNodeFs_new (t : T) : St := mkPathState t (Readers 0) false Namespace_new.
Definition into_inner (s : St) : T := ps_inner s.

(** A step on the adapter's state. *)
Definition own {E A} (f : St → A * St) : pr E A := Critical (λ s, Some (f s)) Done.

(** The scope of a guard. *)
Definition locked {E A} (acquire : St → option St) (release : St → St) (m : pr E A) : pr E A :=
  Critical (λ s, s ← acquire s; Some (tt, s)) (λ _,
    prog_finally m (λ B p, prog_bind (own (λ s, (tt, release s))) (λ _, p))).

Definition read_lock {E A} : pr E A → pr E A := locked read_acquire read_release.
Definition write_lock {E A} : pr E A → pr E A := locked write_acquire write_release.
Definition mutex {E A} : pr E A → pr E A := locked mutex_acquire mutex_release.

(** What is done with the namespace under its mutex. *)
Definition get_ns {E} : pr E Namespace := ReadState (λ s, Done (ps_namespace s)).
Definition put_ns {E} (ns : Namespace) : pr E unit := own (λ s, (tt, with_ns ns s)).

(** A call of the inner filesystem. The adapter sink turns each entry into a
    program and collects the names it inserted. *)
Fixpoint inner_sink {E E' A} (add : list Dentry → E → pr E' (bool * list Dentry))
    (inserted : list Dentry) (p : pprog T E A) : pr E' (A * list Dentry) :=
  match p with
  | PDone a => Done (a, inserted)
  | PCrash => Crash
  | PHang => Hang
  | PRead k => ReadState (λ s, inner_sink add inserted (k (ps_inner s)))
  | PWrite t k => prog_bind (own (λ s, (tt, with_inner t s))) (λ _, inner_sink add inserted k)
  | PCritical f k =>
      Critical (λ s, '(b, t) ← f (ps_inner s); Some (b, with_inner t s)) (λ b, inner_sink add inserted (k b))
  | PEmit e k => prog_bind (add inserted e) (λ '(b, inserted), inner_sink add inserted (k b))
  end.

Fixpoint inner_call {A} (p : pprog T Empty_set A) : pr Empty_set A :=
  match p with
  | PDone a => Done a
  | PCrash => Crash
  | PHang => Hang
  | PRead k => ReadState (λ s, inner_call (k (ps_inner s)))
  | PWrite t k => prog_bind (own (λ s, (tt, with_inner t s))) (λ _, inner_call k)
  | PCritical f k => Critical (λ s, '(b, t) ← f (ps_inner s); Some (b, with_inner t s)) (λ b, inner_call (k b))
  | PEmit e k => match e with end
  end.

(** [Namespace::path_for]; a recursion that never ends does not get past this
    step. *)
Definition ns_path {E} (id : NodeId) : pr E (option PathBuf) :=
  Critical (λ s, let ns := ps_namespace s in p ← path_for (path_fuel ns) ns id; Some (p, s)) Done.

Definition node_id {E} (node : PathNode) : pr E (option NodeId) :=
  mutex (prog_bind get_ns (λ ns, Done (id_for_node ns node))).
Definition node_path {E} (node : PathNode) : pr E (option PathBuf) :=
  prog_bind (node_id node) (λ id,
    match id with
    | Some id => mutex (ns_path id)
    | None => Done None
    end).
Definition path {E} (id : NodeId) : pr E (Result Errno PathBuf) :=
  prog_bind (mutex (ns_path id)) (λ p, Done (ok_or p ENOENT)).
(** [self.node_path(node).ok_or(Errno::ENOENT)?] *)
Definition required_path {E} (node : PathNode) : pr E (Result Errno PathBuf) :=
  prog_bind (node_path node) (λ p, Done (ok_or p ENOENT)).

(** [Namespace::insert], under the guard of its caller. *)
Definition ns_insert {E} (parent : NodeId) (name : OsString) : pr E (NodeId * bool) :=
  let d := mkDentry parent name in
  prog_bind get_ns (λ ns,
    match insert_find ns d with
    | Some id => Done (id, false)
    | None =>
        match insert_key ns with
        | None => Crash
        | Some (k, ns) =>
            prog_bind (put_ns ns) (λ _,
            CxInsert (mkPathNode k) parent (λ id,
              prog_bind (put_ns (insert_node ns k id d)) (λ _, Done (id, true))))
        end
    end).

Definition add_node {E} (parent : NodeId) (name : OsString) : pr E NodeId :=
  prog_bind (mutex (ns_insert parent name)) (λ r, Done r.1).

Definition add_enumerated_node {E} (parent : NodeId) (name : OsString) : pr E (NodeId * option Dentry) :=
  prog_bind (mutex (ns_insert parent name)) (λ '(id, inserted),
    Done (id, if (inserted : bool) then Some (mkDentry parent name) else None)).

(** [if let Some(id) = mutex(&self.namespace).remove(dentry) { cx.remove_link(id) }]:
    the guard lives to the end of the statement. *)
Definition rollback_dentry {E} (d : Dentry) : pr E unit :=
  mutex (prog_bind get_ns (λ ns,
    let '(id, ns) := remove ns d in
    prog_bind (put_ns ns) (λ _,
      match id with
      | Some id => CxRemoveLink id (Done tt)
      | None => Done tt
      end))).

(** [BasicSink::rollback] and [PlusSink::rollback]: in reverse order. *)
Fixpoint rollback {E} (inserted : list Dentry) : pr E unit :=
  match inserted with
  | [] => Done tt
  | d :: l => prog_bind (rollback l) (λ _, rollback_dentry d)
  end.

(** [BasicSink::add] and [PlusSink::add], with the entry to pass on. *)
Definition sink_add {E} (this parent : NodeId) (mk : NodeId → E) (name : OsString)
    (inserted : list Dentry) : pr E (bool * list Dentry) :=
  prog_bind
    (if String.eqb name "." then Done (this, None)
     else if String.eqb name ".." then Done (parent, None)
     else add_enumerated_node this name)
    (λ '(id, d),
      Emit (mk id) (λ accepted,
        match d with
        | Some d =>
            if accepted then Done (true, inserted ++ [d])
            else prog_bind (rollback_dentry d) (λ _, Done (false, inserted))
        | None => Done (accepted, inserted)
        end)).

Definition basic_add (this parent : NodeId) (inserted : list Dentry) (e : PathDirEntry) :
    pr DirEntry (bool * list Dentry) :=
  sink_add this parent (λ id, mkDirEntry (pd_name e) id (pd_kind e) (pd_next_offset e)) (pd_name e) inserted.
Definition plus_add (this parent : NodeId) (inserted : list Dentry) (e : PathPlusEntry) :
    pr PlusEntry (bool * list Dentry) :=
  sink_add this parent (λ id, mkPlusEntry (pp_name e) id (pp_attr e) (pp_next_offset e)) (pp_name e) inserted.

(** ** The callbacks *)

Definition path_lookup (parent : NodeId) (name : OsString) (caller : Caller) : cb (option NodeId) :=
  read_lock (prog_try (path parent) (λ parent_path,
  prog_try (inner_call (p_lookup inner parent_path name caller)) (λ attr,
    match attr with
    | None => Done (Ok None)
    | Some _ => prog_bind (add_node parent name) (λ id, Done (Ok (Some id)))
    end))).

(** [mknod], [mkdir], [symlink]: the inner call, then the new name. *)
Definition path_make {A} (parent : NodeId) (name : OsString)
    (call : PathBuf → pprog T Empty_set (Result Errno A)) : cb NodeId :=
  write_lock (prog_try (path parent) (λ parent_path,
  prog_try (inner_call (call parent_path)) (λ _,
  prog_bind (add_node parent name) (λ id, Done (Ok id))))).

Definition path_mknod (parent : NodeId) (name : OsString) (mode rdev umask : Z) (caller : Caller) : cb NodeId :=
  path_make parent name (λ p, p_mknod inner p name mode rdev umask caller).
Definition path_mkdir (parent : NodeId) (name : OsString) (mode umask : Z) (caller : Caller) : cb NodeId :=
  path_make parent name (λ p, p_mkdir inner p name mode umask caller).
Definition path_symlink (parent : NodeId) (name : OsString) (target : PathBuf) (caller : Caller) : cb NodeId :=
  path_make parent name (λ p, p_symlink inner p name target caller).

Definition remove_entry (parent : NodeId) (name : OsString) (caller : Caller) (directory : bool) : cb unit :=
  write_lock (prog_try (path parent) (λ parent_path,
  prog_try (inner_call (if directory then p_rmdir inner parent_path name caller
                        else p_unlink inner parent_path name caller)) (λ _,
  prog_bind (rollback_dentry (mkDentry parent name)) (λ _, Done (Ok tt))))).

Definition path_unlink (parent : NodeId) (name : OsString) (caller : Caller) : cb unit :=
  remove_entry parent name caller false.
Definition path_rmdir (parent : NodeId) (name : OsString) (caller : Caller) : cb unit :=
  remove_entry parent name caller true.

Definition path_rename (parent : NodeId) (name : OsString) (newparent : NodeId) (newname : OsString)
    (flags : Z) (caller : Caller) : cb unit :=
  if negb (flags =? 0) then Done (Err EOPNOTSUPP)
  else
    write_lock (
    prog_try (path parent) (λ old_parent_path,
    prog_try (path newparent) (λ new_parent_path,
    prog_try (inner_call (p_rename inner old_parent_path name new_parent_path newname caller)) (λ _,
    mutex (prog_bind get_ns (λ ns,
      let '(moved, ns) := rename_entries ns (mkDentry parent name) (mkDentry newparent newname) in
      prog_bind (put_ns ns) (λ _,
        match moved with
        | None => Done (Ok tt)
        | Some (source, replaced) =>
            let tail := CxReparent source newparent (Done (Ok tt)) in
            match replaced with
            | Some replaced => CxRemoveLink replaced tail
            | None => tail
            end
        end))))))).

Definition path_link (id newparent : NodeId) (newname : OsString) (caller : Caller) : cb NodeId :=
  write_lock (prog_try (path id) (λ source,
  prog_try (path newparent) (λ parent,
  prog_try (inner_call (p_link inner source parent newname caller)) (λ _,
  prog_bind (mutex (prog_bind get_ns (λ ns, put_ns (add_alias ns id (mkDentry newparent newname))))) (λ _,
  CxAddLink id (Done (Ok id))))))).

Definition path_create (parent : NodeId) (name : OsString) (mode umask flags : Z) (caller : Caller) :
    cb (NodeId * Opened H) :=
  write_lock (prog_try (path parent) (λ parent_path,
  prog_try (inner_call (p_create inner parent_path name mode umask flags caller)) (λ '(_, opened),
  prog_bind (add_node parent name) (λ id, Done (Ok (id, opened)))))).

Definition path_readdir (node : PathNode) (this parent : NodeId) (handle : D) (offset : Z) (caller : Caller) :
    pr DirEntry (Result Errno unit) :=
  read_lock (prog_try (required_path node) (λ p,
  prog_bind (inner_sink (basic_add this parent) [] (p_readdir inner p handle offset caller)) (λ '(r, inserted),
    match r with
    | Ok _ => Done r
    | Err _ => prog_bind (rollback inserted) (λ _, Done r)
    end))).
Definition path_readdirplus (node : PathNode) (this parent : NodeId) (handle : D) (offset : Z) (caller : Caller) :
    pr PlusEntry (Result Errno unit) :=
  read_lock (prog_try (required_path node) (λ p,
  prog_bind (inner_sink (plus_add this parent) [] (p_readdirplus inner p handle offset caller)) (λ '(r, inserted),
    match r with
    | Ok _ => Done r
    | Err _ => prog_bind (rollback inserted) (λ _, Done r)
    end))).

(** The callbacks on a node that need its path, or take it if there is one. *)
Definition path_getattr (node : PathNode) (handle : option H) (caller : Caller) : cb NodeAttr :=
  read_lock (prog_bind (node_path node) (λ p, inner_call (p_getattr inner p handle caller))).
Definition path_setattr (node : PathNode) (handle : option H) (set : SetAttr) (caller : Caller) : cb NodeAttr :=
  read_lock (prog_bind (node_path node) (λ p, inner_call (p_setattr inner p handle set caller))).
Definition path_readlink (node : PathNode) (caller : Caller) : cb PathBuf :=
  read_lock (prog_try (required_path node) (λ p, inner_call (p_readlink inner p caller))).
Definition path_open (node : PathNode) (flags : Z) (caller : Caller) : cb (Opened H) :=
  read_lock (prog_try (required_path node) (λ p, inner_call (p_open inner p flags caller))).
Definition path_read (node : PathNode) (handle : H) (offset : Z) (size : Z) (caller : Caller) : cb bytes :=
  read_lock (prog_bind (node_path node) (λ p, inner_call (p_read inner p handle offset size caller))).
Definition path_write (node : PathNode) (handle : H) (data : bytes) (offset : Z) (caller : Caller) : cb Z :=
  read_lock (prog_bind (node_path node) (λ p, inner_call (p_write inner p handle data offset caller))).
Definition path_flush (node : PathNode) (handle : H) (caller : Caller) : cb unit :=
  read_lock (prog_bind (node_path node) (λ p, inner_call (p_flush inner p handle caller))).
Definition path_release (node : PathNode) (handle : H) (caller : Caller) : cb unit :=
  read_lock (prog_bind (node_path node) (λ p, inner_call (p_release inner p handle caller))).
Definition path_fsync (node : PathNode) (handle : H) (datasync : bool) (caller : Caller) : cb unit :=
  read_lock (prog_bind (node_path node) (λ p, inner_call (p_fsync inner p handle datasync caller))).
Definition path_opendir (node : PathNode) (flags : Z) (caller : Caller) : cb (Opened D) :=
  read_lock (prog_try (required_path node) (λ p, inner_call (p_opendir inner p flags caller))).
Definition path_releasedir (node : PathNode) (handle : D) (caller : Caller) : cb unit :=
  read_lock (prog_bind (node_path node) (λ p, inner_call (p_releasedir inner p handle caller))).
Definition path_fsyncdir (node : PathNode) (handle : D) (datasync : bool) (caller : Caller) : cb unit :=
  read_lock (prog_bind (node_path node) (λ p, inner_call (p_fsyncdir inner p handle datasync caller))).
Definition path_setxattr (node : PathNode) (name : OsString) (value : bytes) (flags : Z) (caller : Caller) : cb unit :=
  read_lock (prog_try (required_path node) (λ p, inner_call (p_setxattr inner p name value flags caller))).
Definition path_getxattr (node : PathNode) (name : OsString) (size : Z) (caller : Caller) : cb XattrReply :=
  read_lock (prog_try (required_path node) (λ p, inner_call (p_getxattr inner p name size caller))).
Definition path_listxattr (node : PathNode) (size : Z) (caller : Caller) : cb XattrReply :=
  read_lock (prog_try (required_path node) (λ p, inner_call (p_listxattr inner p size caller))).
Definition path_removexattr (node : PathNode) (name : OsString) (caller : Caller) : cb unit :=
  read_lock (prog_try (required_path node) (λ p, inner_call (p_removexattr inner p name caller))).
Definition path_access (node : PathNode) (mask : Z) (caller : Caller) : cb unit :=
  read_lock (prog_try (required_path node) (λ p, inner_call (p_access inner p mask caller))).
Definition path_fallocate (node : PathNode) (handle : H) (mode : Z) (offset : Z) (length : Z) (caller : Caller) : cb unit :=
  read_lock (prog_bind (node_path node) (λ p, inner_call (p_fallocate inner p handle mode offset length caller))).
Definition path_lseek (node : PathNode) (handle : H) (offset : Z) (whence : Z) (caller : Caller) : cb Z :=
  read_lock (prog_bind (node_path node) (λ p, inner_call (p_lseek inner p handle offset whence caller))).
Definition path_getlk (node : PathNode) (handle : H) (owner : Z) (lock : FileLock) (caller : Caller) : cb FileLock :=
  read_lock (prog_bind (node_path node) (λ p, inner_call (p_getlk inner p handle owner lock caller))).
Definition path_setlk (node : PathNode) (handle : H) (owner : Z) (lock : FileLock) (sleep : bool) (caller : Caller) : cb unit :=
  read_lock (prog_bind (node_path node) (λ p, inner_call (p_setlk inner p handle owner lock sleep caller))).
Definition path_statfs (caller : Caller) : cb StatFs := read_lock (inner_call (p_statfs inner "/"%string caller)).
Definition path_init (conn : ConnInfo) : pr Empty_set ConnInfo := inner_call (p_init inner conn).
Definition path_destroy : pr Empty_set unit := inner_call (p_destroy inner).

(** [impl NodeFs for PathNodeFs] *)
Definition PathNodeFs : NodeFs PathNode H D St := {|
  SUPPORTS_POSIX_LOCKS := P_SUPPORTS_POSIX_LOCKS inner;
  SUPPORTS_READDIRPLUS := P_SUPPORTS_READDIRPLUS inner;
  fs_root := λ s, (mkPathNode 1, s);
  fs_populate := default_populate;
  fs_init := path_init;
  fs_destroy := path_destroy;
  fs_lookup := path_lookup;
  fs_getattr := path_getattr;
  fs_setattr := path_setattr;
  fs_readlink := path_readlink;
  fs_mknod := path_mknod;
  fs_mkdir := path_mkdir;
  fs_symlink := path_symlink;
  fs_unlink := path_unlink;
  fs_rmdir := path_rmdir;
  fs_rename := path_rename;
  fs_link := path_link;
  fs_open := path_open;
  fs_read := path_read;
  fs_write := path_write;
  fs_flush := path_flush;
  fs_release := path_release;
  fs_fsync := path_fsync;
  fs_opendir := path_opendir;
  fs_readdir := path_readdir;
  fs_readdirplus := path_readdirplus;
  fs_releasedir := path_releasedir;
  fs_fsyncdir := path_fsyncdir;
  fs_statfs := path_statfs;
  fs_setxattr := path_setxattr;
  fs_getxattr := path_getxattr;
  fs_listxattr := path_listxattr;
  fs_removexattr := path_removexattr;
  fs_access := path_access;
  fs_create := path_create;
  fs_fallocate := path_fallocate;
  fs_lseek := path_lseek;
  fs_getlk := path_getlk;
  fs_setlk := path_setlk;
  fs_copy_file_range := default_copy_file_range;
|}.
End adapter.

(** ** What the adapter keeps *)
Section safety.
Context {H D T : Type} `{Libc} (inner : PathFilesystem H D T).
Abbreviation St := (PathState T).

(** The namespace is consistent. *)
Definition consistent (s : St) : Prop := ns_wf (ps_namespace s).

Lemma keeps_get_ns {E A} (k : Namespace → prog PathNode St E A) :
  (∀ ns, ns_wf ns → keeps consistent (k ns)) → keeps consistent (prog_bind get_ns k).
Proof. intros Hk s Hs. by apply Hk. Qed.

Lemma keeps_own {E A} (f : St → A * St) :
  (∀ s, consistent s → consistent (f s).2) → keeps consistent (own f : prog PathNode St E A).
Proof. intros Hf s a s' Hs [= Heq]. split; [|done]. specialize (Hf s Hs). by rewrite Heq in Hf. Qed.

Lemma keeps_put_ns {E} ns : ns_wf ns → keeps consistent (put_ns ns : prog PathNode St E unit).
Proof. intros Hwf. by apply keeps_own. Qed.

Lemma keeps_locked {E A} acquire release (m : prog PathNode St E A) :
  (∀ s s', acquire s = Some s' → ps_namespace s' = ps_namespace s) → (∀ s, ps_namespace (release s) = ps_namespace s) →
  keeps consistent m → keeps consistent (locked acquire release m).
Proof.
  intros Ha Hr Hm s u s' Hs Hacq. split.
  - destruct (acquire s) as [s1|] eqn:Hs1; [|done]. injection Hacq as _ <-. unfold consistent. by rewrite (Ha s s1 Hs1).
  - apply keeps_finally; [|done]. intros B p Hp. apply keeps_bind; [|done]. apply keeps_own. intros s1 Hs1.
    unfold consistent in *. simpl. by rewrite Hr.
Qed.

Lemma keeps_read_lock {E A} (m : prog PathNode St E A) : keeps consistent m → keeps consistent (read_lock m).
Proof.
  apply keeps_locked; [intros s s'; unfold read_acquire|intros s; unfold read_release]; by case_match; intros; simplify_eq.
Qed.
Lemma keeps_write_lock {E A} (m : prog PathNode St E A) : keeps consistent m → keeps consistent (write_lock m).
Proof. apply keeps_locked; [intros s s'; unfold write_acquire; repeat case_match; intros; by simplify_eq|done]. Qed.
Lemma keeps_mutex {E A} (m : prog PathNode St E A) : keeps consistent m → keeps consistent (mutex m).
Proof. apply keeps_locked; [intros s s'; unfold mutex_acquire; by case_match; intros; simplify_eq|done]. Qed.

Lemma keeps_inner_critical {E A B} (f : T → option (B * T)) (k : B → prog PathNode St E A) :
  (∀ b, keeps consistent (k b)) → keeps consistent (Critical (λ s, '(b, t) ← f (ps_inner s); Some (b, with_inner t s)) k).
Proof. intros Hk s b s' Hs Hf. destruct (f (ps_inner s)) as [[b' t]|]; [|done]. by injection Hf as <- <-. Qed.

Lemma keeps_inner_call {A} (p : pprog T Empty_set A) : keeps consistent (inner_call p).
Proof.
  induction p; simpl; auto; [|by apply keeps_inner_critical|by destruct e].
  apply (keeps_bind _ (own _)); [by apply keeps_own|done].
Qed.

Lemma keeps_inner_sink {E E' A} (add : list Dentry → E → prog PathNode St E' (bool * list Dentry))
    (p : pprog T E A) : ∀ inserted,
  (∀ inserted e, keeps consistent (add inserted e)) → keeps consistent (inner_sink add inserted p).
Proof.
  induction p; simpl; intros inserted Hadd; auto.
  - apply (keeps_bind _ (own _)); [by apply keeps_own|auto].
  - apply keeps_inner_critical. auto.
  - apply keeps_bind; [apply Hadd|]. intros [b l]. by apply H1.
Qed.

Lemma keeps_ns_path {E} id : keeps consistent (ns_path id : prog PathNode St E _).
Proof. intros s p s' Hs. cbv zeta. destruct (path_for (path_fuel (ps_namespace s)) _ _); [|done]. by intros [= _ <-]. Qed.

Lemma keeps_path {E} id : keeps consistent (path id : prog PathNode St E _).
Proof. apply keeps_bind; [|done]. apply keeps_mutex, keeps_ns_path. Qed.

Lemma keeps_node_path {E} node : keeps consistent (node_path node : prog PathNode St E _).
Proof.
  apply keeps_bind; [by apply keeps_mutex, keeps_get_ns|]. intros [id|]; [|done].
  apply keeps_mutex, keeps_ns_path.
Qed.

Lemma keeps_required_path {E} node : keeps consistent (required_path node : prog PathNode St E _).
Proof. apply keeps_bind; [apply keeps_node_path|done]. Qed.

Lemma keeps_ns_insert {E} parent name : keeps consistent (ns_insert parent name : prog PathNode St E _).
Proof.
  apply keeps_get_ns. intros ns Hns. destruct (insert_find ns (mkDentry parent name)) as [id|] eqn:Hf; [done|].
  destruct (insert_key ns) as [[k ns']|] eqn:Hk; [|done].
  destruct (key_fresh ns k ns' Hk Hns) as (-> & Hnext & Hby & Hal & Hke).
  destruct Hns as [Ha Hn Hks Hnk].
  assert (ns_wf ns') as Hns'.
  { split; rewrite ?Hby, ?Hal, ?Hke, ?Hnext; [done|done| |lia]. intros k' i Hi. specialize (Hks _ _ Hi). lia. }
  apply keeps_bind; [by apply keeps_put_ns|]. intros _ id.
  apply keeps_bind; [|done]. apply keeps_put_ns. apply insert_node_wf; [done|by rewrite Hby|lia].
Qed.

Lemma keeps_rollback_dentry {E} d : keeps consistent (rollback_dentry d : prog PathNode St E _).
Proof.
  apply keeps_mutex, keeps_get_ns. intros ns Hns. pose proof (remove_wf ns d Hns).
  destruct (remove ns d) as [id ns']. apply keeps_bind; [by apply keeps_put_ns|]. by intros _; destruct id.
Qed.

Lemma keeps_rollback {E} l : keeps consistent (rollback l : prog PathNode St E _).
Proof.
  induction l; simpl; [done|]. apply keeps_bind; [done|]. intros _. apply keeps_rollback_dentry.
Qed.

Lemma keeps_sink_add {E} this parent (mk : NodeId → E) name inserted :
  keeps consistent (sink_add this parent mk name inserted : prog PathNode St E _).
Proof.
  apply keeps_bind.
  - repeat case_match; try done. apply keeps_bind; [apply keeps_mutex, keeps_ns_insert|]. by intros [].
  - intros [id d]. split; [|done]. intros b. destruct d; [|done]. destruct b; [done|].
    apply keeps_bind; [apply keeps_rollback_dentry|done].
Qed.
End safety.
