(* ===== verification/FsInv.v ===== *)
(** * Invariants of a filesystem's own state

    If no callback of a filesystem writes a state outside an invariant, no
    sequence of requests leads the runtime there; with it, the namespace of
    the path adapter stays consistent. *)

From S2P Require Import Prelude Types NodeTable HandleRec NodeFs Runtime RuntimeInv RuntimeSpec Requests Threads ThreadLogic.
From S2P Require Import Namespace PathFs.

(** Every callback but [link], which is apart, keeps the invariant. *)
Abbreviation fs_keeps I := (each_callback (λ E A, keeps I)).

Section preserved.
Context {N H D S K : Type} `{Libc} (I : S → Prop).
Abbreviation W K := (World N H D S K).

Definition holds {K} (w : W K) : Prop := I (rt_fs (w_rt w)).

(** [m] keeps the invariant, however it ends. *)
Definition preserves {K A} (m : M (W K) A) : Prop := ∀ w, holds w → holds (m w).2.

Lemma preserves_ret {K' A} (a : A) : preserves (mret a : M (W K') A).
Proof. by intros w. Qed.

Lemma preserves_bind {K' A B} (m : M (W K') A) (k : A → M (W K') B) :
  preserves m → (∀ a, preserves (k a)) → preserves (m ≫= k).
Proof.
  intros Hm Hk w Hw. unfold mbind, M_bind. specialize (Hm w Hw). destruct (m w) as [[a| |] w']; [|done..].
  by apply Hk.
Qed.

Lemma preserves_attempt {K' A B} (m : M (W K') A) (k : A → M (W K') B) u :
  preserves m → (∀ a, preserves (k a)) → preserves u → preserves (attempt m k u).
Proof.
  intros Hm Hk Hu w Hw. unfold attempt. specialize (Hm w Hw). destruct (m w) as [[a| |] w']; [by apply Hk|by apply Hu|done].
Qed.

Lemma preserves_try {K' A B} (m : M (W K') (Result Errno A)) (k : A → M (W K') (Result Errno B)) :
  preserves m → (∀ a, preserves (k a)) → preserves (try_bind m k).
Proof. intros Hm Hk. apply preserves_bind; [done|]. intros [a|e]; [apply Hk|apply preserves_ret]. Qed.

Lemma preserves_finally {K' A} (m : M (W K') A) fin :
  preserves m → preserves fin → preserves (finally m fin).
Proof.
  intros Hm Hf w Hw. unfold finally. specialize (Hm w Hw).
  destruct (m w) as [[a| |] w']; [| |done]; specialize (Hf w' Hm); by destruct (fin w') as [[]].
Qed.

Lemma preserves_shared {K' A} (m : M (Shared N) A) : preserves (on_shared m : M (W K') A).
Proof. intros w Hw. unfold on_shared, zoom. by destruct (m _). Qed.
Lemma preserves_files {K' A} (m : M (gmap Z (HandleRecord H)) A) : preserves (on_files m : M (W K') A).
Proof. intros w Hw. unfold on_files, zoom. by destruct (m _). Qed.
Lemma preserves_dirs {K' A} (m : M (gmap Z (HandleRecord D)) A) : preserves (on_dirs m : M (W K') A).
Proof. intros w Hw. unfold on_dirs, zoom. by destruct (m _). Qed.
Lemma preserves_handles {K' A} (f : HandleTable H D → A * HandleTable H D) : preserves (on_handles f : M (W K') A).
Proof. intros w Hw. unfold on_handles. by destruct (f _). Qed.
Lemma preserves_sink {K' A} (f : K' → A * K') : preserves (on_sink f : M (W K') A).
Proof. intros w Hw. unfold on_sink. by destruct (f _). Qed.
Lemma preserves_payload {K' T} (r : HandleRecord T) : preserves (take_payload r : M (W K') T).
Proof. intros w Hw. unfold take_payload. by destruct (close_and_take _) as [[]]. Qed.

Lemma preserves_prog {K' E A} (emit : E → M (W K') bool) (p : prog N S E A) :
  keeps I p → (∀ e, preserves (emit e)) → preserves (run_prog emit p).
Proof.
  intros Hp He. induction p; simpl in *;
    lazymatch goal with
    | |- preserves (gets _ ≫= _) => idtac
    | |- preserves (own_step _ ≫= _) => idtac
    | |- preserves (_ ≫= _) => apply preserves_bind; [|intros ?; naive_solver]
    | |- preserves (attempt _ _ _) => apply preserves_attempt; [|intros ?; naive_solver|naive_solver]
    | _ => idtac
    end; try apply preserves_shared.
  - apply preserves_ret.
  - by intros w.
  - by intros w.
  - intros w Hw. apply H1; [|done]. by apply Hp.
  - intros w _. by destruct Hp.
  - intros w Hw. unfold mbind, M_bind, own_step. destruct (f (rt_fs (w_rt w))) as [[b s]|] eqn:Hs; [|done].
    destruct (Hp _ _ _ Hw Hs) as [Hs' Hk]. by apply H1.
  - apply preserves_bind; [apply preserves_shared|]. intros [l|]; [|apply preserves_ret].
    apply preserves_bind; [by intros w|intros _; apply preserves_ret].
  - intros w Hw. unfold fs_drop_ref. case_bool_decide; [|done].
    apply preserves_bind; [apply preserves_shared|by intros _ w'|done].
  - apply He.
Qed.

Lemma preserves_call {K' A} (p : prog N S Empty_set A) : keeps I p → preserves (call p : M (W K') A).
Proof. intros Hp. apply preserves_prog; [done|]. by intros []. Qed.
End preserved.



Section requests.
Context {N H D S K : Type} `{Libc} (I : S → Prop) (fs : NodeFs N H D S) (Hfs : fs_keeps I fs).
Abbreviation W K := (World N H D S K).

Lemma preserves_scope_node {K' B} ino (err : Errno → M (W K') B) (k : N → M (W K') B) :
  (∀ e, preserves I (err e)) → (∀ n, preserves I (k n)) → preserves I (scope_node ino err k).
Proof.
  intros He Hk. unfold scope_node, node. apply preserves_bind.
  - apply preserves_bind; [apply preserves_shared|intros r; apply preserves_ret].
  - intros [l|e]; [|apply He]. apply preserves_finally; [apply Hk|apply preserves_shared].
Qed.

Lemma preserves_scope_file {K' B} ino fh (err : Errno → M (W K') B) (k : H → M (W K') B) :
  (∀ e, preserves I (err e)) → (∀ n, preserves I (k n)) → preserves I (scope_file ino fh err k).
Proof.
  intros He Hk. unfold scope_file, file. apply preserves_bind; [apply preserves_files|].
  intros [h|e]; [|apply He]. apply preserves_finally; [apply Hk|apply preserves_files].
Qed.

Lemma preserves_scope_dir {K' B} ino fh (err : Errno → M (W K') B) (k : D → M (W K') B) :
  (∀ e, preserves I (err e)) → (∀ n, preserves I (k n)) → preserves I (scope_dir ino fh err k).
Proof.
  intros He Hk. unfold scope_dir, dir. apply preserves_bind; [apply preserves_dirs|].
  intros [h|e]; [|apply He]. apply preserves_finally; [apply Hk|apply preserves_dirs].
Qed.

(** [pres]: goes through the structure of a handler; callbacks are closed by
    the assumption on the filesystem. *)
Local Ltac pres :=
  repeat (intros;
    first
    [ apply preserves_ret
    | apply preserves_shared | apply preserves_files | apply preserves_dirs
    | apply preserves_handles | apply preserves_sink | apply preserves_payload
    | apply preserves_call; solve [destruct Hfs; auto]
    | apply preserves_scope_node | apply preserves_scope_file | apply preserves_scope_dir
    | apply preserves_try | apply preserves_finally | apply preserves_bind
    | match goal with |- preserves _ (match ?x with _ => _ end) => destruct x end
    | match goal with |- preserves _ (let '(_, _) := ?x in _) => destruct x end ]).

Lemma preserves_entry_for {K'} id caller : preserves I (entry_for fs id caller : M (W K') _).
Proof. unfold entry_for, with_node, fail. pres. Qed.

Lemma preserves_accounting inner e :
  preserves I (accounting_add inner e : M (World N H D S (K * list NodeId)) bool).
Proof. unfold accounting_add, plus_entry. pres. Qed.

Lemma preserves_forget_all ids : preserves I (forget_all ids : M (W K) unit).
Proof. induction ids; simpl; [apply preserves_ret|]. unfold forget. pres. done. Qed.

Lemma preserves_readdirplus inner ino fh offset caller :
  preserves I (readdirplus fs inner ino fh offset caller : M (W K) _).
Proof.
  unfold readdirplus, with_node, with_dir, fail.
  apply preserves_scope_node; [intros; apply preserves_ret|intros n].
  apply preserves_try; [apply preserves_shared|intros parent].
  apply preserves_scope_dir; [intros; apply preserves_ret|intros h].
  apply preserves_bind.
  - intros w Hw. unfold with_accounting.
    pose proof (preserves_prog I (accounting_add inner) (fs_readdirplus fs n ino parent h offset caller)
      ltac:(destruct Hfs; auto) ltac:(apply preserves_accounting) (mkWorld (w_rt w) (w_sink w, [])) Hw) as Hp.
    by destruct (run_prog _ _ _) as [[]].
  - intros [[u|e] ids]; [apply preserves_ret|].
    apply preserves_bind; [apply preserves_forget_all|intros _; apply preserves_ret].
Qed.

Definition is_link (r : request K) : bool :=
  match r with ReqLink _ _ _ _ => true | _ => false end.

Lemma preserves_request (r : request K) :
  is_link r = false →
  preserves I (exec_request fs r : M (W K) reply).
Proof.
  intros Hlink. destruct r; unfold exec_request, reply_with;
    (apply preserves_bind; [|intros ?; apply preserves_ret]);
    unfold init, destroy, forget, statfs, getattr, setattr, readlink, access, setxattr, getxattr, listxattr,
      removexattr, open, read, write, flush, fsync, fallocate, lseek, getlk, setlk, release, opendir,
      fsyncdir, releasedir, lookup, mknod, mkdir, symlink, unlink, rmdir, rename, create, copy_file_range,
      with_optional_file, with_node, with_file, with_dir, fail.
  all: try solve [pres; try apply preserves_entry_for].
  - apply preserves_bind; [by intros w|]. pres.
  - intros w Hw. unfold with_sink.
    assert (preserves I (readdir fs add ino fh offset caller : M (W K) _)) as Hp.
    { unfold readdir, with_node, with_dir, fail. pres. intros h.
      apply preserves_prog; [destruct Hfs; auto|intros e; apply preserves_sink]. }
    by apply (Hp (mkWorld (w_rt w) sink)).
  - intros w Hw. unfold with_sink. by apply (preserves_readdirplus add ino fh offset caller (mkWorld (w_rt w) sink)).
  - done.
Qed.

Lemma preserves_link ino newparent newname caller :
  (∀ x0 x1 x2 x3, keeps I (fs_link fs x0 x1 x2 x3)) →
  preserves I (exec_request fs (ReqLink ino newparent newname caller) : M (W K) reply).
Proof.
  intros Hl. unfold exec_request, reply_with, link. apply preserves_bind; [|intros ?; apply preserves_ret].
  apply preserves_try; [by apply preserves_call|intros id; apply preserves_entry_for].
Qed.

(** What the filesystem's constructor establishes, no request destroys; [link]
    is excepted unless it keeps the invariant as well. *)
Lemma serves_holds s0 k0 history w :
  serves fs s0 k0 history w → I (fs_root fs s0).2 →
  (∀ x0 x1 x2 x3, keeps I (fs_link fs x0 x1 x2 x3)) ∨ Forall (λ p, is_link p.1 = false) history →
  I (rt_fs (w_rt w)).
Proof.
  intros Hs Hroot. induction Hs as [w Hnew|history w r o w' Hs IH Hwf Hexec Ho]; intros Hlink.
  - unfold Runtime_new in Hnew.
    assert (holds I (call (fs_populate fs) (mkWorld (Runtime_start fs s0) k0)).2) as Hh.
    { apply preserves_call; [destruct Hfs; auto|]. unfold holds, Runtime_start. by destruct (fs_root fs s0). }
    by rewrite Hnew in Hh.
  - assert (preserves I (exec_request fs r : M (W K) reply) ∧
      ((∀ x0 x1 x2 x3, keeps I (fs_link fs x0 x1 x2 x3)) ∨ Forall (λ p, is_link p.1 = false) history)) as [Hp Hrest].
    { destruct Hlink as [Hl|Hl].
      - split; [|by left]. destruct (is_link r) eqn:Hr; [|by apply preserves_request].
        destruct r; try done. by apply preserves_link.
      - apply Forall_cons in Hl as [Hl ?]. split; [by apply preserves_request|by right]. }
    specialize (Hp w (IH Hrest)). by rewrite Hexec in Hp.
Qed.
End requests.

(** ** The path adapter *)
Section path_adapter.
Context {H D T K : Type} `{Libc} (inner : PathFilesystem H D T).

Local Ltac kept :=
  repeat (intros;
    first
    [ lazymatch goal with
      | |- keeps _ (read_lock _) => apply keeps_read_lock
      | |- keeps _ (write_lock _) => apply keeps_write_lock
      | |- keeps _ (mutex _) => apply keeps_mutex
      | |- keeps _ (Done _) => exact I
      end
    | apply keeps_inner_call | apply keeps_path | apply keeps_node_path | apply keeps_required_path
    | apply keeps_ns_insert | apply keeps_rollback_dentry | apply keeps_rollback
    | apply keeps_get_ns | apply keeps_try | apply keeps_bind | done ]).

Lemma keeps_make {A} parent name (c : PathBuf → pprog T Empty_set (Result Errno A)) :
  keeps consistent (path_make parent name c).
Proof. unfold path_make, add_node. kept. Qed.

Lemma keeps_remove_entry parent name caller directory :
  keeps consistent (remove_entry inner parent name caller directory).
Proof. unfold remove_entry. kept. Qed.

Lemma keeps_rename parent name newparent newname flags caller :
  keeps consistent (path_rename inner parent name newparent newname flags caller).
Proof.
  unfold path_rename. destruct (negb _); [done|]. kept. intros ns Hns.
  pose proof (rename_entries_wf ns (mkDentry parent name) (mkDentry newparent newname) Hns) as Hwf.
  destruct (rename_entries _ _ _) as [moved ns']. apply keeps_bind; [by apply keeps_put_ns|].
  intros _. by destruct moved as [[source [replaced|]]|].
Qed.

Lemma path_adapter_keeps : fs_keeps consistent (PathNodeFs inner).
Proof.
  split; intros; cbn [fs_root fs_populate fs_init fs_destroy fs_getattr fs_setattr fs_lookup fs_readlink fs_mknod fs_mkdir fs_symlink fs_unlink fs_rmdir fs_rename fs_link fs_open fs_read fs_write fs_flush fs_release fs_fsync fs_opendir fs_readdir fs_readdirplus fs_releasedir fs_fsyncdir fs_statfs fs_setxattr fs_getxattr fs_listxattr fs_removexattr fs_access fs_create fs_fallocate fs_lseek fs_getlk fs_setlk fs_copy_file_range PathNodeFs];
    try solve [apply keeps_make | apply keeps_remove_entry | apply keeps_rename | done];
    unfold path_init, path_destroy, path_getattr, path_setattr, path_lookup, path_readlink, path_open, path_read, path_write, path_flush, path_release, path_fsync, path_opendir, path_readdir, path_readdirplus, path_releasedir, path_fsyncdir, path_statfs, path_setxattr, path_getxattr, path_listxattr, path_removexattr, path_access, path_create, path_fallocate, path_lseek, path_getlk, path_setlk, add_node; kept.
  - intros [attr|]; kept.
  - apply keeps_inner_sink. intros l e. apply keeps_sink_add.
  - intros [[u|e] l]; kept.
  - apply keeps_inner_sink. intros l e. apply keeps_sink_add.
  - intros [[u|e] l]; kept.
  - intros [attr opened]. kept.
Qed.

(** Through any requests but [link], whatever the inner path filesystem
    does, the namespace of the adapter stays consistent: its two maps are
    inverse to each other, no node is left with an empty set of names, and the
    recorded keys stay below the next one. *)
Theorem path_namespace_consistent (t : T) (k0 : K) history w :
  serves (PathNodeFs inner) (PathNodeFs_new t) k0 history w →
  Forall (λ p, is_link p.1 = false) history →
  ns_wf (ps_namespace (rt_fs (w_rt w))).
Proof.
  intros Hs Hlink. apply (serves_holds consistent (PathNodeFs inner) path_adapter_keeps _ k0 history w Hs).
  - apply Namespace_new_wf.
  - by right.
Qed.
End path_adapter.

(** A path filesystem that has every file one asks for. *)
Section sample.
Local Existing Instance linux_libc.

Definition sample_inner : PathFilesystem unit unit unit := {|
  P_SUPPORTS_POSIX_LOCKS := false;
  P_SUPPORTS_READDIRPLUS := false;
  p_getattr := λ path h caller, PDone (Ok NodeAttr_default);
  p_lookup := λ parent name caller, PDone (Ok (Some NodeAttr_default));
  p_init := path_default_init;
  p_destroy := path_default_destroy;
  p_setattr := path_default_setattr;
  p_readlink := path_default_readlink;
  p_mknod := path_default_mknod;
  p_mkdir := path_default_mkdir;
  p_symlink := path_default_symlink;
  p_unlink := path_default_unlink;
  p_rmdir := path_default_rmdir;
  p_rename := path_default_rename;
  p_link := path_default_link;
  p_open := path_default_open;
  p_read := path_default_read;
  p_write := path_default_write;
  p_flush := path_default_flush;
  p_release := path_default_release;
  p_fsync := path_default_fsync;
  p_opendir := path_default_opendir;
  p_readdir := path_default_readdir;
  p_readdirplus := path_default_readdirplus;
  p_releasedir := path_default_releasedir;
  p_fsyncdir := path_default_fsyncdir;
  p_statfs := path_default_statfs;
  p_setxattr := path_default_setxattr;
  p_getxattr := path_default_getxattr;
  p_listxattr := path_default_listxattr;
  p_removexattr := path_default_removexattr;
  p_access := path_default_access;
  p_create := path_default_create;
  p_fallocate := path_default_fallocate;
  p_lseek := path_default_lseek;
  p_getlk := path_default_getlk;
  p_setlk := path_default_setlk;
|}.

Definition path_start : World PathNode unit unit (PathState unit) unit :=
  mkWorld (Runtime_start (PathNodeFs sample_inner) (PathNodeFs_new tt)) tt.
Definition path_looked_up : World PathNode unit unit (PathState unit) unit :=
  (exec_request (PathNodeFs sample_inner) (ReqLookup 1 "a" who) path_start).2.
Definition path_history : list (request unit * outcome reply) :=
  [(ReqLookup 1 "a" who, Returned (RepLookup (Ok (Found (mkEntryReply 2 0 NodeAttr_default)))))].

Lemma path_serves : serves (PathNodeFs sample_inner) (PathNodeFs_new tt) tt path_history path_looked_up.
Proof.
  apply (serves_request _ _ _ [] path_start); [|done|vm_compute; reflexivity|done].
  by apply serves_new.
Qed.

Lemma path_namespace_consistent_witness : ns_wf (ps_namespace (rt_fs (w_rt path_looked_up))).
Proof.
  apply (path_namespace_consistent sample_inner tt tt path_history path_looked_up);
    [apply path_serves|repeat constructor].
Defined.
End sample.
