(* ===== verification/PathLocks.v ===== *)
(** * The path adapter's locks, its names and the node table

    What a thread holds while it runs a callback of [PathNodeFs]: a guard on
    [operations], the mutex of the namespace, and a link that the node table
    counts for a name that is not recorded yet, or not any more.  The invariant
    ties the two locks, the namespace and the node table to what all threads
    hold together; the critical sections of the adapter and of the handlers
    keep it. *)

From S2P Require Import Prelude Types NodeTable NodeTableInv HandleRec NodeFs Runtime RuntimeInv Requests Threads ThreadLogic.
From S2P Require Import Namespace PathFs.

#[local] Arguments exec_op : simpl never.

(** ** Links in the table *)
Section links.
Context {N : Type} `{Libc}.
Implicit Types (sh : Shared N).

Definition links_of (id : NodeId) sh : Z :=
  match tbl_map (sh_table sh) !! id with Some s => slot_links s | None => 0 end.

Lemma links_keep id (x : option (Slot N)) sh sh' :
  tbl_map (sh_table sh') !! id = x ≫= keep → links_of id sh' = match x with Some s => slot_links s | None => 0 end.
Proof.
  unfold links_of. intros ->. destruct x as [s|]; simpl; [|done]. unfold keep.
  destruct (droppable s) eqn:Hd; [|done]. by apply droppable_true in Hd as (? & _).
Qed.

Lemma links_exec (op : table_op N) n issued sh id :
  inv_but None n issued sh → n + 2 < u64_max →
  (∀ p parent, op ≠ OpInsert p parent) → (∀ i, op ≠ OpAddLink i) → (∀ i, op ≠ OpRemoveLink i) →
  links_of id (exec_op op sh) = links_of id sh.
Proof.
  intros Hinv Hn Hi Ha Hr. pose proof (lookup_exec op n issued sh id Hn Hinv) as Hl.
  rewrite lookup_after_eq in Hl by done. unfold links_of at 2.
  destruct (tbl_map (sh_table sh) !! id) as [s|] eqn:Hs; cycle 1.
  { unfold links_of. by rewrite Hl. }
  rewrite (links_keep id (Some (slot_after op id sh s)) sh) by done.
  destruct op; simpl; repeat case_match; try done; naive_solver.
Qed.

Lemma links_insert p parent n issued sh :
  inv_but None n issued sh → n + 2 < u64_max → ∃ ino,
  (cx_insert p parent sh).1 = Returned ino ∧ tbl_map (sh_table sh) !! ino = None ∧
  ∀ id, links_of id (exec_op (OpInsert p parent) sh) = links_of id sh + (if decide (id = ino) then 1 else 0).
Proof.
  intros Hinv Hn. pose proof (alloc_spec n issued sh Hn Hinv) as Ha. unfold exec_op, cx_insert, links_of.
  destruct (alloc (sh_table sh)) as [[ino g] t]. destruct Ha as (_ & Hnone & Hmap & _). exists ino. simpl.
  split_and!; [done|done|]. intros id. rewrite lookup_insert, Hmap. repeat case_decide; subst; rewrite ?Hnone; simpl; try done. lia.
Qed.

Lemma links_remove i n issued sh :
  inv_but None n issued sh → n + 2 < u64_max → 1 ≤ links_of i sh →
  ∀ id, links_of id (exec_op (OpRemoveLink i) sh) = links_of id sh - (if decide (id = i) then 1 else 0).
Proof.
  intros Hinv Hn Hone id. pose proof (lookup_exec (OpRemoveLink i) n issued sh id Hn Hinv) as Hl.
  rewrite lookup_after_eq in Hl by done. unfold links_of in *.
  destruct (tbl_map (sh_table sh) !! id) as [s|] eqn:Hs; cycle 1.
  { rewrite Hl. simpl. case_decide; [subst; by rewrite Hs in Hone|lia]. }
  fold (links_of id (exec_op (OpRemoveLink i) sh)).
  rewrite (links_keep id (Some (slot_after (OpRemoveLink i) id sh s)) sh) by done. simpl.
  destruct (decide (i = id)) as [<-|]; simpl; [|rewrite decide_False by congruence; lia].
  rewrite decide_True by done. rewrite Hs in Hone. lia.
Qed.
End links.

(** ** What a thread holds *)
Inductive guard := NoGuard | Reading | Writing.
#[export] Instance guard_eq_dec : EqDecision guard.
Proof. solve_decision. Defined.

(** [h_ns] is the namespace that the mutex protects, [h_debt] the node with one
    link more than it has names. *)
Record held := mkHeld { h_guard : guard; h_ns : option Namespace; h_debt : option NodeId }.
Definition nothing : held := mkHeld NoGuard None None.
Definition guarding (g : guard) (h : held) : held := mkHeld g (h_ns h) (h_debt h).
Definition knowing (ns : option Namespace) (h : held) : held := mkHeld (h_guard h) ns (h_debt h).
Definition owing (d : option NodeId) (h : held) : held := mkHeld (h_guard h) (h_ns h) d.

Definition one (P : Prop) `{Decision P} : Z := if decide P then 1 else 0.
Definition reads (h : held) : Z := one (h_guard h = Reading).
Definition writes (h : held) : Z := one (h_guard h = Writing).
Definition locks (h : held) : Z := one (is_Some (h_ns h)).
Definition debt (id : NodeId) (h : held) : Z := one (h_debt h = Some id).

(** The names that lead to a node. *)
Definition names_of (ns : Namespace) (id : NodeId) : Z := count_map (λ i, i = id) (by_name ns).

(** The locks, the names and the links, with [G] what the threads hold and
    [links] the links that the node table counts. *)
Record PathInv {T : Type} (G : gmap nat held) (s : PathState T) (links : NodeId → Z) : Prop := {
  pi_readers : sum_map reads G = match ps_operations s with Readers n => Z.of_nat n | Writer => 0 end;
  pi_writers : sum_map writes G = match ps_operations s with Readers _ => 0 | Writer => 1 end;
  pi_mutex : sum_map locks G = if ps_busy s then 1 else 0;
  pi_known : ∀ k h ns, G !! k = Some h → h_ns h = Some ns → ps_namespace s = ns;
  pi_wf : ns_wf (ps_namespace s);
  pi_links : ∀ id, id ≠ ROOT → names_of (ps_namespace s) id + sum_map (debt id) G = links id;
  pi_root : names_of (ps_namespace s) ROOT = 0 ∧ sum_map (debt ROOT) G = 0 ∧ 1 ≤ links ROOT;
}.

Definition readers_of (o : RwLock) : Z := match o with Readers n => Z.of_nat n | Writer => 0 end.
Definition writers_of (o : RwLock) : Z := match o with Readers _ => 0 | Writer => 1 end.
Definition busy_of (b : bool) : Z := if b then 1 else 0.

Lemma one_bounds (P : Prop) `{Decision P} : 0 ≤ one P ≤ 1.
Proof. unfold one. case_decide; lia. Qed.
Lemma one_true (P : Prop) `{Decision P} : P → one P = 1.
Proof. intros. unfold one. by rewrite decide_True. Qed.
Lemma one_false (P : Prop) `{Decision P} : ¬ P → one P = 0.
Proof. intros. unfold one. by rewrite decide_False. Qed.

Section inv.
Context {T : Type}.
Implicit Types (h : held) (s : PathState T) (G O : gmap nat held) (links : NodeId → Z).

(** The mutex has one owner at most. *)
Lemma mutex_owner O k h s links :
  O !! k = None → PathInv (<[k:=h]> O) s links → is_Some (h_ns h) → ∀ k' h', O !! k' = Some h' → h_ns h' = None.
Proof.
  intros Hk [] Hh k' h' Hh'. rewrite sum_map_insert in pi_mutex0 by done. unfold locks at 1 in pi_mutex0. rewrite one_true in pi_mutex0 by done.
  pose proof (sum_map_ge locks O k' h' ltac:(intros; unfold locks; pose proof (one_bounds (is_Some (h_ns v))); lia) Hh') as Hge.
  destruct (h_ns h') eqn:Hns; [|done]. unfold locks in Hge at 1. rewrite one_true in Hge by (rewrite Hns; by eexists).
  destruct (ps_busy s); lia.
Qed.

(** A step of thread [k]: what it changes of the sums it changes of the state. *)
Lemma PathInv_step O k h h' s s' links links' :
  O !! k = None → PathInv (<[k:=h]> O) s links →
  readers_of (ps_operations s') - readers_of (ps_operations s) = reads h' - reads h →
  writers_of (ps_operations s') - writers_of (ps_operations s) = writes h' - writes h →
  busy_of (ps_busy s') - busy_of (ps_busy s) = locks h' - locks h →
  ps_namespace s' = ps_namespace s ∨ is_Some (h_ns h) →
  (∀ ns, h_ns h' = Some ns → ps_namespace s' = ns) →
  ns_wf (ps_namespace s') →
  (∀ id, id ≠ ROOT → names_of (ps_namespace s') id - names_of (ps_namespace s) id + debt id h' - debt id h = links' id - links id) →
  names_of (ps_namespace s') ROOT = 0 → debt ROOT h' = debt ROOT h → 1 ≤ links' ROOT →
  PathInv (<[k:=h']> O) s' links'.
Proof.
  intros Hk HPI Hr Hw Hb Hns Hknown Hwf Hlinks Hroot Hdebt Hlinks0. pose proof (mutex_owner _ _ _ _ _ Hk HPI) as Howner. destruct HPI.
  rewrite sum_map_insert in pi_readers0, pi_writers0, pi_mutex0 by done.
  setoid_rewrite (sum_map_insert _ O k h Hk) in pi_links0. rewrite (sum_map_insert _ O k h Hk) in pi_root0.
  split; rewrite ?sum_map_insert by done; unfold readers_of, writers_of, busy_of in *.
  - lia.
  - lia.
  - lia.
  - intros k' h1 ns. rewrite lookup_insert. case_decide; [intros [= <-]; apply Hknown|]. intros Hh1 Hns1.
    destruct Hns as [->|Hns]; [|by rewrite (Howner Hns k' h1 Hh1) in Hns1].
    apply (pi_known0 k' h1); [by rewrite lookup_insert_ne|done].
  - done.
  - intros id Hid. rewrite sum_map_insert by done. specialize (Hlinks id Hid). specialize (pi_links0 id Hid). lia.
  - destruct pi_root0 as (_ & ? & _). split_and!; [done|lia|done].
Qed.

(** Nothing of the adapter's changes. *)
Lemma PathInv_links O k h s s' links links' :
  O !! k = None → PathInv (<[k:=h]> O) s links → ps_operations s' = ps_operations s → ps_busy s' = ps_busy s →
  ps_namespace s' = ps_namespace s → (∀ id, links' id = links id) → PathInv (<[k:=h]> O) s' links'.
Proof.
  intros Hk HPI Ho Hb Hns Hl. pose proof HPI as [].
  apply (PathInv_step O k h h s s' links links'); rewrite ?Ho, ?Hb, ?Hns, ?Hl; try done; try lia; try tauto.

  - intros ns Hh. apply (pi_known0 k h); [apply lookup_insert_eq|done].
  - intros id _. rewrite Hl. lia.
Qed.

(** Only the debt and the table change. *)
Lemma PathInv_debt O k h d s links links' :
  O !! k = None → PathInv (<[k:=h]> O) s links →
  (∀ id, id ≠ ROOT → debt id (owing d h) - debt id h = links' id - links id) →
  debt ROOT (owing d h) = debt ROOT h → 1 ≤ links' ROOT → PathInv (<[k:=owing d h]> O) s links'.
Proof.
  intros Hk HPI Hl Hd H1. pose proof HPI as []. destruct pi_root0 as (? & _ & _).
  apply (PathInv_step O k h _ s s links links'); try done; try (unfold reads, writes, locks; simpl; lia).
  - by left.
  - intros ns Hns. by apply (pi_known0 k h); [apply lookup_insert_eq|].
  - intros id Hid. specialize (Hl id Hid). lia.
Qed.
End inv.

(** ** Steps *)
Section steps.
Context {H D T K : Type} `{Libc} (hang : PathState T → Prop) (k : nat).
Abbreviation CW := (World PathNode H D (PathState T) (K * Arcs H D)).
Abbreviation St := (PathState T).
Implicit Types (h : held) (s : St) (O : gmap nat held) (w : CW).

Definition fs_of w : St := rt_fs (w_rt w).
Abbreviation WInv G w := (PathInv G (fs_of w) (λ id, links_of id (sh_of w))).

(** A thread may wait when it holds nothing, for the mutex, or while [hang]. *)
Definition may_wait h s : Prop := h = nothing ∨ (h_ns h = None ∧ ps_busy s = true) ∨ hang s.

Definition pstep {B} h (act : M CW B) (Q : option B → held → Prop) : Prop :=
  ∀ w O n issued, O !! k = None → inv_but None n issued (sh_of w) → n + 2 < u64_max → WInv (<[k:=h]> O) w →
  match act w with
  | (Returned b, w') => ∃ h', Q (Some b) h' ∧ WInv (<[k:=h']> O) w'
  | (Panicked, w') => ∃ h', Q None h' ∧ WInv (<[k:=h']> O) w'
  | (Blocked, _) => may_wait h (fs_of w)
  end.

(** The handlers' own sections. *)
Lemma between_apart {B} (act : M CW B) w n issued :
  between _ act → inv_but None n issued (sh_of w) → n + 2 < u64_max →
  fs_of (act w).2 = fs_of w ∧ ∀ id, links_of id (sh_of (act w).2) = links_of id (sh_of w).
Proof.
  intros Hact Hinv Hn. unfold fs_of, sh_of in *. destruct Hact.
  - unfold node, on_shared, zoom, mbind, M_bind, mret, M_ret.
    pose proof (λ id, links_exec (OpGet ino) n issued (rt_shared (w_rt w)) id Hinv Hn) as Hl. unfold exec_op in Hl.
    destruct (cx_get ino (rt_shared (w_rt w))) as [[r| |] sh]; (split; [done|]); intros id; by apply Hl.
  - pose proof (λ id, links_exec op n issued (rt_shared (w_rt w)) id Hinv Hn) as Hl.
    specialize (H1 (rt_shared (w_rt w))). unfold on_shared, zoom. destruct (m (rt_shared (w_rt w))) as [r sh]. simpl in *. subst sh.
    split; [done|]. intros id. by apply Hl.
  - done.
  - unfold at_files, zoom. by destruct (m _).
  - unfold at_dirs, zoom. by destruct (m _).
  - unfold on_handles. by destruct (g _).
  - unfold sink_step, on_sink. destruct (w_sink w) as [x d]. by destruct (g x).
  - done.
Qed.

Lemma WInv_apart O h w w' : O !! k = None → WInv (<[k:=h]> O) w →
  fs_of w' = fs_of w → (∀ id, links_of id (sh_of w') = links_of id (sh_of w)) → WInv (<[k:=h]> O) w'.
Proof. intros Hk HW Hfs Hl. by apply (PathInv_links O k h (fs_of w) (fs_of w') _ _ Hk HW); rewrite ?Hfs. Qed.

Lemma pstep_between {B} (act : M CW B) h :
  between _ act → h = nothing ∨ (∀ w, (act w).1 ≠ Blocked) → pstep h act (λ _ h', h' = h).
Proof.
  intros Hact Hb w O n issued Hk Hinv Hn HW. destruct (between_apart act w n issued Hact Hinv Hn) as [Hfs Hl].
  pose proof (WInv_apart O h w (act w).2 Hk HW Hfs Hl) as HW'.
  destruct (act w) as [[b| |] w'] eqn:Ha; simpl in *; [by exists h..|].
  destruct Hb as [?|Hb]; [by left|]. specialize (Hb w). by rewrite Ha in Hb.
Qed.

Lemma follows_gentle {A} (t : thr CW A) h : gentle t → follows (@pstep) t h (λ _ h', h' = h).
Proof.
  induction t as [| |B act c IHc p IHp]; [done..|]. intros (Hact & Hb & Hc & Hp).
  exists (λ _ h', h' = h). split_and!; [apply pstep_between; auto|intros b f' ->; auto|intros f' ->; auto].
Qed.

(** *** Steps of the adapter *)
Definition own_ok {B} h (f : St → option (B * St)) (Q : B → held → Prop) : Prop :=
  ∀ s O links, O !! k = None → PathInv (<[k:=h]> O) s links →
  match f s with
  | Some (b, s') => ∃ h', Q b h' ∧ PathInv (<[k:=h']> O) s' links
  | None => may_wait h s
  end.

Lemma pstep_own {B} h (f : St → option (B * St)) Q :
  own_ok h f Q → pstep h (own_step f) (λ r h', ∃ b, r = Some b ∧ Q b h').
Proof.
  intros Hf w O n issued Hk Hinv Hn HW. specialize (Hf _ _ _ Hk HW). unfold own_step, fs_of in *.
  destruct (f (rt_fs (w_rt w))) as [[b s]|]; [|done]. destruct Hf as (h' & HQ & HI). exists h'. split; [by exists b|done].
Qed.

Lemma pstep_read h : pstep h (gets (λ w, fs_of w)) (λ r h', ∃ s, r = Some s ∧ h' = h ∧ ∀ ns, h_ns h = Some ns → ps_namespace s = ns).
Proof.
  intros w O n issued Hk Hinv Hn HW. exists h. split; [|done]. exists (fs_of w). split_and!; [done|done|].
  intros ns Hns. apply (pi_known _ _ _ HW k h); [apply lookup_insert_eq|done].
Qed.

(** A debt is settled or made by the table. *)
Lemma pstep_insert h p parent ns : h_ns h = Some ns → h_debt h = None →
  pstep h (on_shared (cx_insert p parent)) (λ r h', ∃ id, r = Some id ∧ id ≠ ROOT ∧ names_of ns id = 0 ∧ h' = owing (Some id) h).
Proof.
  intros Hns Hd w O n issued Hk Hinv Hn HW.
  destruct (links_insert p parent n issued (sh_of w) Hinv Hn) as (ino & Hret & Hnone & Hl).
  assert (ps_namespace (fs_of w) = ns) as Hfs by (apply (pi_known _ _ _ HW k h); [apply lookup_insert_eq|done]).
  assert (links_of ino (sh_of w) = 0) as Hzero by (unfold links_of; by rewrite Hnone).
  assert (ino ≠ ROOT) as Hino by (intros ->; destruct (pi_root _ _ _ HW) as (_ & _ & ?); lia).
  unfold on_shared, zoom. change (rt_shared (w_rt w)) with (sh_of w). unfold exec_op in Hl.
  destruct (cx_insert p parent (sh_of w)) as [o sh]. simpl in *. subst o. exists (owing (Some ino) h). split.
  - exists ino. split_and!; [done|done| |done]. pose proof (pi_links _ _ _ HW ino Hino) as Hlinks. rewrite <- Hfs.
    pose proof (sum_map_nonneg (debt ino) (<[k:=h]> O) ltac:(intros; unfold debt; pose proof (one_bounds (h_debt v = Some ino)); lia)).
    pose proof (count_map_nonneg (λ i, i = ino) (by_name (ps_namespace (fs_of w)))). unfold names_of in *. lia.
  - apply (PathInv_debt O k h _ (fs_of w) (λ id, links_of id (sh_of w))); [done|done|..].
    + intros id Hid. unfold sh_of at 1. simpl. rewrite Hl. unfold debt, one. simpl. rewrite Hd. repeat case_decide; simplify_eq; try lia; congruence.
    + unfold debt, one. simpl. rewrite Hd. repeat case_decide; congruence.
    + unfold sh_of at 1. simpl. rewrite Hl. destruct (pi_root _ _ _ HW) as (_ & _ & ?). case_decide; lia.
Qed.

Lemma pstep_reparent h id parent : pstep h (on_shared (cx_reparent id parent)) (λ r h', is_Some r ∧ h' = h).
Proof.
  assert (∀ sh : Shared PathNode, (cx_reparent id parent sh).1 = Returned tt) as Hret by (intros sh; unfold cx_reparent; by case_match).
  intros w O n issued Hk Hinv Hn HW. destruct (between_apart (on_shared (cx_reparent id parent) : M CW _) w n issued) as [Hfs Hl]; [|done..|].
  { apply between_table with (OpReparent id parent); try done. intros sh. by rewrite Hret. }
  pose proof (WInv_apart O h w _ Hk HW Hfs Hl) as HW'. specialize (Hret (rt_shared (w_rt w))). unfold on_shared, zoom in *.
  destruct (cx_reparent id parent (rt_shared (w_rt w))) as [o sh]. simpl in *. subst o. exists h. by split; [split; [eexists|]|].
Qed.

Lemma pstep_remove_link h id : h_debt h = Some id → id ≠ ROOT →
  pstep h (on_shared (cx_remove_link id)) (λ r h', is_Some r ∧ h' = owing None h).
Proof.
  intros Hd Hid w O n issued Hk Hinv Hn HW.
  assert (1 ≤ links_of id (sh_of w)) as Hone.
  { rewrite <- (pi_links _ _ _ HW id Hid), sum_map_insert by done. unfold debt at 1. rewrite one_true by done.
    pose proof (sum_map_nonneg (debt id) O ltac:(intros; unfold debt; pose proof (one_bounds (h_debt v = Some id)); lia)).
    pose proof (count_map_nonneg (λ i, i = id) (by_name (ps_namespace (fs_of w)))). unfold names_of. lia. }
  pose proof (links_remove id n issued (sh_of w) Hinv Hn Hone) as Hl. unfold exec_op in Hl.
  unfold on_shared, zoom. change (rt_shared (w_rt w)) with (sh_of w).
  assert ((cx_remove_link id (sh_of w)).1 = Returned tt) as Hret by done.
  destruct (cx_remove_link id (sh_of w)) as [o sh]. simpl in *. subst o. exists (owing None h). split; [by split; [eexists|]|].
  apply (PathInv_debt O k h _ (fs_of w) (λ id, links_of id (sh_of w))); [done|done|..].
  - intros i Hi. unfold sh_of at 1. simpl. rewrite Hl. unfold debt, one. simpl. rewrite Hd. repeat case_decide; simplify_eq; try lia; congruence.
  - unfold debt, one. simpl. rewrite Hd. repeat case_decide; congruence.
  - unfold sh_of at 1. simpl. rewrite Hl. destruct (pi_root _ _ _ HW) as (_ & _ & ?). case_decide; [congruence|lia].
Qed.
End steps.
