(* ===== verification/PathRules.v ===== *)
(** * The callbacks of the path adapter keep the invariant

    [disc p h Post]: with [h] held, the program [p] of a callback takes only
    steps that the invariant of [PathLocks] allows, and ends with something held
    that satisfies [Post].  The rules for the adapter's guards and for its
    accesses to the namespace, and each callback. *)

From S2P Require Import Prelude Types NodeTable NodeTableInv HandleRec NodeFs Runtime RuntimeInv Requests Threads ThreadLogic.
From S2P Require Import Namespace PathFs PathLocks.

Section rules.
Context {H D T K : Type} `{Libc} (hang : PathState T → Prop) (k : nat).
Abbreviation CW := (World PathNode H D (PathState T) (K * Arcs H D)).
Abbreviation St := (PathState T).
Abbreviation pr E A := (prog PathNode St E A).
Implicit Types (h : held) (s : St).

(** The adapter takes no leases, and adds no links. *)
Fixpoint disc {E A} (p : pr E A) h (Post : option A → held → Prop) : Prop :=
  match p with
  | Done a => Post (Some a) h
  | Crash => Post None h
  | ReadState c => ∀ s, (∀ ns, h_ns h = Some ns → ps_namespace s = ns) → disc (c s) h Post
  | Critical f c => ∃ Q, own_ok hang k h f Q ∧ ∀ b h', Q b h' → disc (c b) h' Post
  | CxInsert _ _ c => ∃ ns, h_ns h = Some ns ∧ h_debt h = None ∧
      ∀ id, id ≠ ROOT → names_of ns id = 0 → disc (c id) (owing (Some id) h) Post
  | CxReparent _ _ c => disc c h Post
  | CxRemoveLink id c => h_debt h = Some id ∧ id ≠ ROOT ∧ disc c (owing None h) Post
  | TryEmit _ c u => (∀ b, disc (c b) h Post) ∧ disc u h Post
  | Hang => ∀ s, hang s
  | WriteState _ _ | CxTryGet _ _ _ | CxDropRef _ _ | CxContains _ _ | CxTryAddLink _ _ _ => False
  end.

Lemma disc_mono {E A} (p : pr E A) h (Post Post' : option A → held → Prop) :
  disc p h Post → (∀ r h', Post r h' → Post' r h') → disc p h Post'.
Proof. intros Hp HP. revert h Hp. induction p; intros h; simpl; naive_solver. Qed.

Lemma disc_bind {E A B} (p : pr E A) (c : A → pr E B) h Post :
  disc p h (λ r h', match r with Some a => disc (c a) h' Post | None => Post None h' end) → disc (prog_bind p c) h Post.
Proof. revert h. induction p; intros h; simpl; naive_solver. Qed.

Lemma disc_finally {E A} (p : pr E A) (fin : ∀ {B}, pr E B → pr E B) h Post :
  disc p h (λ r h', disc (fin (match r with Some a => Done a | None => Crash end)) h' Post) →
  disc (prog_finally p (@fin)) h Post.
Proof. revert h. induction p; intros h; simpl; naive_solver. Qed.

Definition still {A} h : option A → held → Prop := λ _ h', h' = h.

Lemma disc_try {E A B} (p : pr E (Result Errno A)) (c : A → pr E (Result Errno B)) h :
  disc p h (still h) → (∀ a, disc (c a) h (still h)) → disc (prog_try p c) h (still h).
Proof. intros Hp Hc. apply disc_bind. eapply disc_mono; [exact Hp|]. by intros [[a|e]|] h' ->. Qed.
Lemma disc_seq {E A B} (p : pr E A) (c : A → pr E B) h :
  disc p h (still h) → (∀ a, disc (c a) h (still h)) → disc (prog_bind p c) h (still h).
Proof. intros Hp Hc. apply disc_bind. eapply disc_mono; [exact Hp|]. by intros [a|] h' ->. Qed.

(** A disciplined callback is a disciplined thread. *)
Lemma follows_disc {E X A} (emit : E → X → thr CW (bool * X)) (p : pr E A) x h Post :
  (∀ e x, gentle (emit e x)) → disc p h Post →
  follows (λ B, pstep hang k (B := B)) (run_callback emit p x) h (λ r h', Post (fst <$> r) h').
Proof.
  intros He. revert x h. induction p; intros x h; simpl; try done.
  - intros Hh. exists (λ _ _, False). split_and!; [|done..]. intros w O n issued _ _ _ _. right; right. apply Hh.
  - intros Hc. eexists. split_and!; [apply pstep_read|..].
    + intros s h' (s' & [= <-] & -> & Hs). auto.
    + by intros h' (s & ? & _).
  - intros (Q & Hf & Hc). eexists. split_and!; [by apply pstep_own|..].
    + intros b h' (b' & [= <-] & HQ). auto.
    + by intros h' (b & ? & _).
  - intros (ns & Hns & Hd & Hc). eexists. split_and!; [by eapply pstep_insert|..].
    + intros id h' (id' & [= <-] & Hroot & Hz & ->). auto.
    + by intros h' (id & ? & _).
  - intros Hc. eexists. split_and!; [by apply pstep_reparent|..].
    + intros [] h' [_ ->]. auto.
    + by intros h' [[? ?] _].
  - intros (Hd & Hid & Hc). eexists. split_and!; [by apply pstep_remove_link|..].
    + intros [] h' [_ ->]. auto.
    + by intros h' [[? ?] _].
  - intros [Hc Hu]. apply follows_then. eapply follows_mono; [by apply follows_gentle|].
    intros [[b x']|] h' ->; auto.
Qed.

(** ** The adapter's steps *)
Lemma own_ok_apart {B} h (f : St → B * St) :
  (∀ s, ps_operations (f s).2 = ps_operations s ∧ ps_busy (f s).2 = ps_busy s ∧ ps_namespace (f s).2 = ps_namespace s) →
  own_ok hang k h (λ s, Some (f s)) (λ _ h', h' = h).
Proof.
  intros Hf s O links Hk HI. destruct (Hf s) as (Ho & Hb & Hns). destruct (f s) as [b s']. exists h. split; [done|].
  by apply (PathInv_links O k h s s' links links).
Qed.

Lemma disc_own {E A} h (f : St → A * St) :
  (∀ s, ps_operations (f s).2 = ps_operations s ∧ ps_busy (f s).2 = ps_busy s ∧ ps_namespace (f s).2 = ps_namespace s) →
  disc (own f : pr E A) h (still h).
Proof. intros Hf. exists (λ _ h', h' = h). split; [by apply own_ok_apart|]. by intros b h' ->. Qed.

Lemma disc_get_ns {E A} ns (c : Namespace → pr E A) h Post :
  h_ns h = Some ns → disc (c ns) h Post → disc (prog_bind get_ns c) h Post.
Proof. intros Hns Hc s Hs. by rewrite (Hs ns Hns). Qed.

Lemma disc_put_ns {E A} ns ns' d (c : unit → pr E A) h Post :
  h_ns h = Some ns → ns_wf ns' → (names_of ns ROOT = 0 → names_of ns' ROOT = 0) →
  (∀ id, id ≠ ROOT → names_of ns' id + debt id (owing d h) = names_of ns id + debt id h) →
  debt ROOT (owing d h) = debt ROOT h →
  disc (c tt) (knowing (Some ns') (owing d h)) Post → disc (prog_bind (put_ns ns') c) h Post.
Proof.
  intros Hns Hwf Hroot Hl Hd Hc. exists (λ _ h', h' = knowing (Some ns') (owing d h)). split; [|by intros [] h' ->].
  intros s O links Hk HI. exists (knowing (Some ns') (owing d h)). split; [done|].
  assert (ps_namespace s = ns) as Hs by (apply (pi_known _ _ _ HI k h); [apply lookup_insert_eq|done]).
  destruct (pi_root _ _ _ HI) as (? & _ & ?). rewrite Hs in *.
  apply (PathInv_step O k h _ s _ links links); simpl; try done.
  - unfold reads. simpl. lia.
  - unfold writes. simpl. lia.
  - unfold locks. simpl. rewrite !one_true; [lia|rewrite Hns|]; by eexists.
  - right. rewrite Hns. by eexists.
  - by intros ns1 [= <-].
  - intros id Hid. specialize (Hl id Hid). rewrite Hs. unfold debt in *. simpl in *. lia.
  - auto.
Qed.

(** *** Guards *)
Lemma disc_locked {E A} acquire release (m : pr E A) h (P : held → Prop) Post :
  own_ok hang k h (λ s, s ← acquire s; Some (tt, s)) (λ _ h', P h') →
  (∀ h1, P h1 → disc m h1 (λ r h2, ∃ h3, own_ok hang k h2 (λ s, Some (tt, release s)) (λ _ h', h' = h3) ∧ Post r h3)) →
  disc (locked acquire release m) h Post.
Proof.
  intros Ha Hm. exists (λ _ h', P h'). split; [done|]. intros _ h1 HP. apply disc_finally. eapply disc_mono; [by apply Hm|].
  intros r h2 (h3 & Hr & HPost). exists (λ _ h', h' = h3). split; [done|]. intros b h' ->. by destruct r.
Qed.

Lemma acquired (acquire : St → option St) h g :
  (∀ s, acquire s = None → may_wait hang h s) →
  (∀ s s' O links, acquire s = Some s' → O !! k = None → PathInv (<[k:=h]> O) s links → PathInv (<[k:=g]> O) s' links) →
  own_ok hang k h (λ s, s ← acquire s; Some (tt, s)) (λ _ h', h' = g).
Proof.
  intros Hw Ha s O links Hk HI. destruct (acquire s) as [s'|] eqn:Hs; [|by apply Hw]. exists g. split; [done|].
  by apply (Ha s s').
Qed.

(** The guard on [operations] is taken by a thread that holds nothing. *)
Lemma PathInv_guard g g' o s O links :
  O !! k = None → PathInv (<[k:=guarding g nothing]> O) s links →
  readers_of o - readers_of (ps_operations s) = reads (guarding g' nothing) - reads (guarding g nothing) →
  writers_of o - writers_of (ps_operations s) = writes (guarding g' nothing) - writes (guarding g nothing) →
  PathInv (<[k:=guarding g' nothing]> O) (with_operations o s) links.
Proof.
  intros Hk HI Hr Hw. destruct (pi_root _ _ _ HI) as (? & _ & ?).
  apply (PathInv_step O k (guarding g nothing) _ s _ links links); simpl; try done.
  - unfold locks. simpl. lia.
  - by left.
  - apply HI.
  - intros id _. unfold debt. simpl. lia.
Qed.

Lemma disc_read_lock {E A} (m : pr E A) :
  disc m (guarding Reading nothing) (still (guarding Reading nothing)) → disc (read_lock m) nothing (still nothing).
Proof.
  intros Hm. apply disc_locked with (λ h', h' = guarding Reading nothing).
  - apply acquired; [by left|]. unfold read_acquire. intros s s' O links Hs Hk HI.
    destruct (ps_operations s) as [n|] eqn:Ho; [|done]. injection Hs as <-.
    apply (PathInv_guard NoGuard Reading); [done|done|..]; rewrite Ho; unfold reads, writes, one; simpl; lia.
  - intros h1 ->. eapply disc_mono; [exact Hm|]. intros r h' ->. exists nothing. split; [|done].
    intros s O links Hk HI. exists nothing. split; [done|]. unfold read_release.
    pose proof (pi_readers _ _ _ HI) as Hr. pose proof (pi_writers _ _ _ HI) as Hw.
    rewrite sum_map_insert in Hr, Hw by done. change (reads (guarding Reading nothing)) with 1 in Hr.
    change (writes (guarding Reading nothing)) with 0 in Hw.
    pose proof (sum_map_nonneg reads O ltac:(intros v; unfold reads; pose proof (one_bounds (h_guard v = Reading)); lia)).
    destruct (ps_operations s) as [n|] eqn:Ho; [|lia].
    apply (PathInv_guard Reading NoGuard); [done|done|..]; rewrite Ho; unfold reads, writes, one; simpl; lia.
Qed.

Lemma disc_write_lock {E A} (m : pr E A) :
  disc m (guarding Writing nothing) (still (guarding Writing nothing)) → disc (write_lock m) nothing (still nothing).
Proof.
  intros Hm. apply disc_locked with (λ h', h' = guarding Writing nothing).
  - apply acquired; [by left|]. unfold write_acquire. intros s s' O links Hs Hk HI.
    destruct (ps_operations s) as [[|n]|] eqn:Ho; [|done..]. injection Hs as <-.
    apply (PathInv_guard NoGuard Writing); [done|done|..]; rewrite Ho; unfold reads, writes, one; simpl; lia.
  - intros h1 ->. eapply disc_mono; [exact Hm|]. intros r h' ->. exists nothing. split; [|done].
    intros s O links Hk HI. exists nothing. split; [done|]. unfold write_release.
    pose proof (pi_writers _ _ _ HI) as Hw. rewrite sum_map_insert in Hw by done.
    change (writes (guarding Writing nothing)) with 1 in Hw.
    pose proof (sum_map_nonneg writes O ltac:(intros v; unfold writes; pose proof (one_bounds (h_guard v = Writing)); lia)).
    destruct (ps_operations s) as [n|] eqn:Ho; [lia|].
    apply (PathInv_guard Writing NoGuard); [done|done|..]; rewrite Ho; unfold reads, writes, one; simpl; lia.
Qed.

(** The mutex gives its namespace to the thread that takes it. *)
Lemma disc_mutex {E A} (m : pr E A) h Post :
  h_ns h = None →
  (∀ ns, ns_wf ns → names_of ns ROOT = 0 →
    disc m (knowing (Some ns) h) (λ r h', (∃ ns', h' = knowing (Some ns') h) ∧ Post r h)) →
  disc (mutex m) h Post.
Proof.
  intros Hh Hm. assert (knowing None h = h) as Hself by (rewrite <- Hh; by destruct h).
  assert (∀ ns, locks (knowing (Some ns) h) = 1) as Hl1 by (intros ns; unfold locks; by apply one_true).
  assert (locks h = 0) as Hl0 by (unfold locks; rewrite one_false; [done|rewrite Hh; by intros [? ?]]).
  apply disc_locked with (λ h', ∃ ns, h' = knowing (Some ns) h ∧ ns_wf ns ∧ names_of ns ROOT = 0).
  - intros s O links Hk HI. unfold mutex_acquire. destruct (ps_busy s) eqn:Hb; [right; left; auto|]. simpl.
    destruct (pi_root _ _ _ HI) as (? & ? & ?). exists (knowing (Some (ps_namespace s)) h). split; [eexists; split_and!; [done|apply HI|done]|].
    apply (PathInv_step O k h _ s _ links links); simpl; rewrite ?Hl1, ?Hl0, ?Hb; try done; try (unfold reads, writes; simpl; lia).
    + by left.
    + by intros ns [= <-].
    + apply HI.
    + intros id _. unfold debt. simpl. lia.
  - intros h1 (ns & -> & Hwf & Hz). eapply disc_mono; [by apply Hm|]. intros r h' [[ns' ->] HP]. exists h. split; [|done].
    intros s O links Hk HI. destruct (pi_root _ _ _ HI) as (? & _ & ?). exists h. split; [done|].
    pose proof (pi_mutex _ _ _ HI) as Hb. rewrite sum_map_insert in Hb by done. rewrite Hl1 in Hb.
    pose proof (sum_map_nonneg locks O ltac:(intros v; unfold locks; pose proof (one_bounds (is_Some (h_ns v))); lia)).
    apply (PathInv_step O k (knowing (Some ns') h) h s _ links links); simpl; rewrite ?Hl1, ?Hl0; try done; try (unfold reads, writes; simpl; lia).
    + unfold busy_of. destruct (ps_busy s); lia.
    + by left.
    + by rewrite Hh.
    + apply HI.
    + intros id _. unfold debt. simpl. lia.
Qed.
End rules.

(** ** Names *)
Lemma names_nonneg ns id : 0 ≤ names_of ns id.
Proof. apply count_map_nonneg. Qed.

Lemma names_by ns ns' id : by_name ns' = by_name ns → names_of ns' id = names_of ns id.
Proof. unfold names_of. by intros ->. Qed.

Lemma names_add ns ns' d id i : by_name ns !! d = None → by_name ns' = <[d:=id]> (by_name ns) →
  names_of ns' i = names_of ns i + one (i = id).
Proof.
  intros Hd Hby. unfold names_of, one. rewrite Hby. case_decide.
  - by rewrite count_map_insert_yes.
  - rewrite count_map_insert_no; [lia|done|congruence].
Qed.

Lemma names_delete ns ns' d i : by_name ns' = delete d (by_name ns) →
  names_of ns' i = names_of ns i - one (by_name ns !! d = Some i).
Proof.
  intros Hby. unfold names_of, one. rewrite Hby. destruct (by_name ns !! d) as [id|] eqn:Hd.
  - case_decide as Hi.
    + injection Hi as ->. by apply count_map_delete_yes with i.
    + rewrite count_map_delete_no with (v := id); [lia|done|congruence].
  - rewrite delete_id by done. rewrite decide_False by done. lia.
Qed.

Lemma remove_by_name ns d : by_name (remove ns d).2 = delete d (by_name ns).
Proof. apply map_eq. intros x. rewrite remove_lookup, lookup_delete. done. Qed.

Lemma names_remove ns d i : names_of (remove ns d).2 i = names_of ns i - one (by_name ns !! d = Some i).
Proof. apply names_delete, remove_by_name. Qed.

(** A rename moves one name, and drops at most one. *)
Lemma names_rename ns old new source i :
  by_name ns !! old = Some source → by_name ns !! new ≠ Some source →
  names_of (rename_entries ns old new).2 i = names_of ns i - one (by_name ns !! new = Some i).
Proof.
  intros Hold Hnew. rewrite (rename_entries_step _ _ _ source) by done. simpl.
  assert (old ≠ new) as Hne by congruence.
  rewrite (names_add (remove (remove ns new).2 old).2 _ new source), !names_remove; [|by rewrite !remove_lookup, decide_False, decide_True by congruence|done].
  rewrite remove_lookup, decide_False by congruence. rewrite Hold. unfold one. repeat case_decide; simplify_eq; lia.
Qed.

Lemma named_not_root ns d id : names_of ns ROOT = 0 → by_name ns !! d = Some id → id ≠ ROOT.
Proof.
  intros Hz Hd ->. unfold names_of in Hz. pose proof (count_map_pos (λ i, i = ROOT) (by_name ns) d ROOT Hd eq_refl). lia.
Qed.

(** ** The adapter's procedures *)
Section procedures.
Context {T : Type} `{Libc} (hang : PathState T → Prop) (k : nat).
Context (Hpaths : ∀ s id, path_for (path_fuel (ps_namespace s)) (ps_namespace s) id = None → hang s).
Abbreviation St := (PathState T).
Abbreviation pr E A := (prog PathNode St E A).
Abbreviation disc := (disc hang k).
Implicit Types (h : held) (s : St).

Lemma disc_ns_path {E} id h : disc (ns_path id : pr E _) h (still h).
Proof.
  exists (λ _ h', h' = h). split; [|by intros b h' ->]. intros s O links Hk HI. cbv zeta.
  destruct (path_for (path_fuel (ps_namespace s)) (ps_namespace s) id) as [p|] eqn:Hp; [by exists h|].
  right; right. by eapply Hpaths.
Qed.

(** Under the mutex, without changing the namespace. *)
Lemma disc_look {E A} (m : pr E A) h :
  h_ns h = None → (∀ ns, disc m (knowing (Some ns) h) (still (knowing (Some ns) h))) → disc (mutex m) h (still h).
Proof.
  intros Hh Hm. apply disc_mutex; [done|]. intros ns Hwf Hz. eapply disc_mono; [apply Hm|].
  intros r h' ->. split; [by eexists|done].
Qed.

Lemma disc_path {E} id h : h_ns h = None → disc (path id : pr E _) h (still h).
Proof. intros Hh. apply disc_seq; [apply disc_look; [done|]; intros ns; apply disc_ns_path|done]. Qed.

Lemma disc_node_path {E} node h : h_ns h = None → disc (node_path node : pr E _) h (still h).
Proof.
  intros Hh. apply disc_seq.
  - apply disc_look; [done|]. intros ns. by apply (disc_get_ns hang k ns).
  - intros [id|]; [|done]. apply disc_look; [done|]. intros ns. apply disc_ns_path.
Qed.

Lemma disc_required_path {E} node h : h_ns h = None → disc (required_path node : pr E _) h (still h).
Proof. intros Hh. apply disc_seq; [by apply disc_node_path|done]. Qed.

(** With the mutex, and no debt before or after. *)
Definition settled {A} h : option A → held → Prop := λ _ h', ∃ ns', h' = knowing (Some ns') h.

Lemma owing_self h d : h_debt h = d → owing d h = h.
Proof. intros <-. by destruct h. Qed.

Lemma settled_knowing {A} h h' (r : option A) : h_guard h' = h_guard h → h_debt h' = h_debt h → is_Some (h_ns h') → settled h r h'.
Proof. destruct h, h'; simpl. intros -> -> [ns ->]. by exists ns. Qed.

Lemma disc_ns_insert {E} parent name ns h :
  ns_wf ns → names_of ns ROOT = 0 → h_debt h = None →
  disc (ns_insert parent name : pr E _) (knowing (Some ns) h) (settled h).
Proof.
  intros Hwf Hz Hd. unfold ns_insert. apply (disc_get_ns hang k ns); [done|].
  destruct (insert_find ns (mkDentry parent name)) as [id|] eqn:Hf; [by exists ns|].
  destruct (insert_key ns) as [[key ns']|] eqn:Hk; [|by exists ns].
  destruct (key_fresh ns key ns' Hk Hwf) as (-> & Hnext & Hby & Hal & Hke).
  assert (ns_wf ns') as Hwf'.
  { destruct Hwf as [Ha Hn Hks Hnk]. split; rewrite ?Hby, ?Hal, ?Hke, ?Hnext; [done|done| |lia]. intros k' i Hi. specialize (Hks _ _ Hi). lia. }
  assert (by_name ns' !! mkDentry parent name = None) as Hnone by (by rewrite Hby).
  apply disc_put_ns with ns None; [done|done|by rewrite (names_by ns ns')| |by unfold debt; simpl; rewrite Hd|].
  { intros id Hid. rewrite (names_by ns ns') by done. unfold debt. simpl. by rewrite Hd. }
  exists ns'. split_and!; [done|done|]. intros id Hid Hzero.
  assert (∀ i, names_of (insert_node ns' (next_key ns) id (mkDentry parent name)) i = names_of ns' i + one (i = id)) as Hnames
    by (intros i; by apply (names_add ns' _ (mkDentry parent name) id)).
  apply disc_put_ns with ns' None; [done| | | | |].
  - destruct Hwf. apply insert_node_wf; [done|done|lia].
  - intros _. rewrite Hnames, (names_by ns ns') by done. rewrite Hz, one_false; [done|congruence].
  - intros i Hi. rewrite Hnames. unfold debt. simpl. unfold one. repeat case_decide; simplify_eq; lia.
  - unfold debt. simpl. rewrite !one_false; [done|congruence|done].
  - by apply settled_knowing.
Qed.

Lemma disc_insert {E} parent name h : h_ns h = None → h_debt h = None → disc (mutex (ns_insert parent name) : pr E _) h (still h).
Proof.
  intros Hh Hd. apply disc_mutex; [done|]. intros ns Hwf Hz. eapply disc_mono; [by apply disc_ns_insert|].
  intros r h' Hs. split; [exact Hs|done].
Qed.

Lemma disc_rollback_dentry {E} d h : h_ns h = None → h_debt h = None → disc (rollback_dentry d : pr E _) h (still h).
Proof.
  intros Hh Hd. apply disc_mutex; [done|]. intros ns Hwf Hz. apply (disc_get_ns hang k ns); [done|]. rewrite remove_pair.
  pose proof (remove_wf ns d Hwf) as Hwf'. pose proof (names_remove ns d) as Hnames.
  assert (names_of (remove ns d).2 ROOT = 0) as Hz'.
  { pose proof (names_nonneg (remove ns d).2 ROOT). rewrite Hnames in *. pose proof (one_bounds (by_name ns !! d = Some ROOT)). lia. }
  apply disc_put_ns with ns (by_name ns !! d); [done|done|done| | |].
  - intros i Hi. rewrite Hnames. unfold debt. simpl. rewrite Hd, (one_false (None = Some i)) by done. lia.
  - unfold debt. simpl. rewrite Hd, (one_false (None = Some ROOT)) by done. apply one_false. intros Hi. by apply (named_not_root ns d ROOT).
  - destruct (by_name ns !! d) as [id|] eqn:Hid.
    + split_and!; [done|by apply (named_not_root ns d)|]. split; [by apply (settled_knowing (A := unit) _ _ (Some tt))|done].
    + split; [by apply (settled_knowing (A := unit) _ _ (Some tt))|done].
Qed.

Lemma disc_rollback {E} l h : h_ns h = None → h_debt h = None → disc (rollback l : pr E _) h (still h).
Proof.
  intros Hh Hd. induction l; simpl; [done|]. apply disc_seq; [done|]. intros _. by apply disc_rollback_dentry.
Qed.

Lemma disc_sink_add {E} this parent (mk : NodeId → E) name inserted h :
  h_ns h = None → h_debt h = None → disc (sink_add this parent mk name inserted : pr E _) h (still h).
Proof.
  intros Hh Hd. apply disc_seq.
  - repeat case_match; try done. apply disc_seq; [by apply disc_insert|by intros []].
  - intros [id d]. split; [|done]. intros b. destruct d; [|done]. destruct b; [done|].
    apply disc_seq; [by apply disc_rollback_dentry|done].
Qed.
End procedures.

(** ** Path filesystems whose callbacks return (or panic) *)
Fixpoint p_returns {T E A} (p : pprog T E A) : Prop :=
  match p with
  | PDone _ | PCrash => True
  | PHang => False
  | PRead c => ∀ t, p_returns (c t)
  | PWrite _ c => p_returns c
  | PCritical f c => (∀ t, is_Some (f t)) ∧ ∀ b, p_returns (c b)
  | PEmit _ c => ∀ b, p_returns (c b)
  end.

Record path_terminating {H D T : Type} (inner : PathFilesystem H D T) : Prop := {
  t_init : ∀ x0, p_returns (p_init inner x0);
  t_destroy : p_returns (p_destroy inner);
  t_lookup : ∀ x0 x1 x2, p_returns (p_lookup inner x0 x1 x2);
  t_getattr : ∀ x0 x1 x2, p_returns (p_getattr inner x0 x1 x2);
  t_setattr : ∀ x0 x1 x2 x3, p_returns (p_setattr inner x0 x1 x2 x3);
  t_readlink : ∀ x0 x1, p_returns (p_readlink inner x0 x1);
  t_mknod : ∀ x0 x1 x2 x3 x4 x5, p_returns (p_mknod inner x0 x1 x2 x3 x4 x5);
  t_mkdir : ∀ x0 x1 x2 x3 x4, p_returns (p_mkdir inner x0 x1 x2 x3 x4);
  t_symlink : ∀ x0 x1 x2 x3, p_returns (p_symlink inner x0 x1 x2 x3);
  t_unlink : ∀ x0 x1 x2, p_returns (p_unlink inner x0 x1 x2);
  t_rmdir : ∀ x0 x1 x2, p_returns (p_rmdir inner x0 x1 x2);
  t_rename : ∀ x0 x1 x2 x3 x4, p_returns (p_rename inner x0 x1 x2 x3 x4);
  t_link : ∀ x0 x1 x2 x3, p_returns (p_link inner x0 x1 x2 x3);
  t_open : ∀ x0 x1 x2, p_returns (p_open inner x0 x1 x2);
  t_read : ∀ x0 x1 x2 x3 x4, p_returns (p_read inner x0 x1 x2 x3 x4);
  t_write : ∀ x0 x1 x2 x3 x4, p_returns (p_write inner x0 x1 x2 x3 x4);
  t_flush : ∀ x0 x1 x2, p_returns (p_flush inner x0 x1 x2);
  t_release : ∀ x0 x1 x2, p_returns (p_release inner x0 x1 x2);
  t_fsync : ∀ x0 x1 x2 x3, p_returns (p_fsync inner x0 x1 x2 x3);
  t_opendir : ∀ x0 x1 x2, p_returns (p_opendir inner x0 x1 x2);
  t_readdir : ∀ x0 x1 x2 x3, p_returns (p_readdir inner x0 x1 x2 x3);
  t_readdirplus : ∀ x0 x1 x2 x3, p_returns (p_readdirplus inner x0 x1 x2 x3);
  t_releasedir : ∀ x0 x1 x2, p_returns (p_releasedir inner x0 x1 x2);
  t_fsyncdir : ∀ x0 x1 x2 x3, p_returns (p_fsyncdir inner x0 x1 x2 x3);
  t_statfs : ∀ x0 x1, p_returns (p_statfs inner x0 x1);
  t_setxattr : ∀ x0 x1 x2 x3 x4, p_returns (p_setxattr inner x0 x1 x2 x3 x4);
  t_getxattr : ∀ x0 x1 x2 x3, p_returns (p_getxattr inner x0 x1 x2 x3);
  t_listxattr : ∀ x0 x1 x2, p_returns (p_listxattr inner x0 x1 x2);
  t_removexattr : ∀ x0 x1 x2, p_returns (p_removexattr inner x0 x1 x2);
  t_access : ∀ x0 x1 x2, p_returns (p_access inner x0 x1 x2);
  t_create : ∀ x0 x1 x2 x3 x4 x5, p_returns (p_create inner x0 x1 x2 x3 x4 x5);
  t_fallocate : ∀ x0 x1 x2 x3 x4 x5, p_returns (p_fallocate inner x0 x1 x2 x3 x4 x5);
  t_lseek : ∀ x0 x1 x2 x3 x4, p_returns (p_lseek inner x0 x1 x2 x3 x4);
  t_getlk : ∀ x0 x1 x2 x3 x4, p_returns (p_getlk inner x0 x1 x2 x3 x4);
  t_setlk : ∀ x0 x1 x2 x3 x4 x5, p_returns (p_setlk inner x0 x1 x2 x3 x4 x5);
}.

(** ** The callbacks *)
Section callbacks.
Context {H D T : Type} `{Libc} (inner : PathFilesystem H D T) (hang : PathState T → Prop) (k : nat).
Context (Hpaths : ∀ s id, path_for (path_fuel (ps_namespace s)) (ps_namespace s) id = None → hang s).
Context (Hinner : (∀ s, hang s) ∨ path_terminating inner).
Abbreviation St := (PathState T).
Abbreviation pr E A := (prog PathNode St E A).
Abbreviation disc := (disc hang k).
Implicit Types (h : held) (s : St).

Definition returns {E A} (p : pprog T E A) : Prop := (∀ s, hang s) ∨ p_returns p.

Lemma disc_inner_critical {E A B} (f : T → option (B * T)) (c : B → pr E A) h Post :
  (∀ s, hang s) ∨ (∀ t, is_Some (f t)) → (∀ b, disc (c b) h Post) →
  disc (Critical (λ s, '(b, t) ← f (ps_inner s); Some (b, with_inner t s)) c) h Post.
Proof.
  intros Hf Hc. exists (λ _ h', h' = h). split; [|by intros b h' ->]. intros s O links Hk HI.
  destruct (f (ps_inner s)) as [[b t]|] eqn:Ht; simpl.
  - exists h. split; [done|]. by apply (PathInv_links O k h s _ links links).
  - right; right. destruct Hf as [?|Hf]; [done|]. destruct (Hf (ps_inner s)). congruence.
Qed.

Lemma disc_inner_call {A} (p : pprog T Empty_set A) h : returns p → disc (inner_call p) h (still h).
Proof.
  unfold returns. induction p; simpl; intros Hp; try done.
  - by destruct Hp.
  - intros s _. naive_solver.
  - apply (disc_seq hang k (own _)); [by apply disc_own|naive_solver].
  - apply disc_inner_critical; naive_solver.
Qed.

Lemma disc_inner_sink {E E' A} (add : list Dentry → E → pr E' (bool * list Dentry)) (p : pprog T E A) inserted h :
  (∀ l e, disc (add l e) h (still h)) → returns p → disc (inner_sink add inserted p) h (still h).
Proof.
  unfold returns. intros Hadd. revert inserted. induction p; simpl; intros inserted Hp; try done.
  - by destruct Hp.
  - intros s _. naive_solver.
  - apply (disc_seq hang k (own _)); [by apply disc_own|naive_solver].
  - apply disc_inner_critical; naive_solver.
  - apply disc_seq; [apply Hadd|]. intros [b l]. naive_solver.
Qed.

(** A callback starts and ends with nothing held. *)
Definition clean {E A} (p : pr E A) : Prop := disc p nothing (still nothing).

Local Ltac waits := unfold returns; destruct Hinner as [?|[]]; [by left|right; solve [auto]].
Local Ltac adapter :=
  repeat (intros;
    first
    [ lazymatch goal with |- disc (Done _) _ _ => reflexivity end
    | apply disc_inner_call; waits
    | apply disc_path; [done|reflexivity] | apply disc_node_path; [done|reflexivity]
    | apply disc_required_path; [done|reflexivity]
    | apply disc_insert; reflexivity | apply disc_rollback_dentry; reflexivity | apply disc_rollback; reflexivity
    | apply disc_sink_add; reflexivity
    | apply disc_inner_sink; [|waits]
    | apply disc_try | apply disc_seq ]).
Local Ltac read := unfold clean; apply disc_read_lock; adapter.
Local Ltac write := unfold clean; apply disc_write_lock; adapter.

Lemma clean_make {A} parent name (c : PathBuf → pprog T Empty_set (Result Errno A)) :
  (∀ p, returns (c p)) → clean (path_make parent name c).
Proof. intros Hc. unfold path_make, add_node. write. by apply disc_inner_call. Qed.

Lemma clean_remove parent name caller directory : clean (remove_entry inner parent name caller directory).
Proof. unfold remove_entry. write. destruct directory; adapter. Qed.

(** The mutex is held from the change of the names to the last call of [Cx]. *)
Lemma clean_rename parent name newparent newname flags caller :
  clean (path_rename inner parent name newparent newname flags caller).
Proof.
  unfold path_rename. destruct (negb _); [reflexivity|]. write. intros _. apply disc_mutex; [done|]. intros ns Hwf Hz.
  apply (disc_get_ns hang k ns); [done|]. set (old := mkDentry parent name). set (new := mkDentry newparent newname).
  pose proof (rename_entries_wf ns old new Hwf) as Hwf'.
  assert (∀ c : pr Empty_set (Result Errno unit), c = Done (Ok tt) →
    disc (prog_bind (put_ns ns) (λ _, c)) (knowing (Some ns) (guarding Writing nothing))
      (λ r h', (∃ ns', h' = knowing (Some ns') (guarding Writing nothing)) ∧ still (guarding Writing nothing) r (guarding Writing nothing))) as Hsame.
  { intros c ->. apply disc_put_ns with ns None; try done. by split; [exists ns|]. }
  destruct (by_name ns !! old) as [source|] eqn:Hold; cycle 1.
  { unfold rename_entries. rewrite Hold. by apply Hsame. }
  destruct (decide (by_name ns !! new = Some source)) as [Hnew|Hnew].
  { unfold rename_entries. rewrite Hold, bool_decide_eq_true_2 by done. by apply Hsame. }
  pose proof (λ i, names_rename ns old new source i Hold Hnew) as Hnames.
  assert (∀ i, by_name ns !! new = Some i → i ≠ ROOT) as Hroot by (intros i; by apply named_not_root).
  rewrite (rename_entries_step _ _ _ source) in * by done. simpl in Hwf', Hnames.
  apply disc_put_ns with ns (by_name ns !! new); [done|done| | | |].
  - intros _. rewrite Hnames, Hz, one_false; [done|]. intros Hi. by apply (Hroot ROOT).
  - intros i Hi. rewrite Hnames. unfold debt. simpl. rewrite (one_false (None = Some i)) by done. lia.
  - unfold debt. simpl. rewrite !one_false; [done|done|]. intros Hi. by apply (Hroot ROOT).
  - destruct (by_name ns !! new) as [replaced|] eqn:Hr; simpl.
    + split_and!; [done|by apply Hroot|by eexists|done].
    + split; [by eexists|done].
Qed.

Lemma clean_readdir node this parent handle offset caller :
  clean (path_readdir inner node this parent handle offset caller).
Proof. unfold path_readdir, basic_add. read. intros [[u|e] l]; adapter. Qed.
Lemma clean_readdirplus node this parent handle offset caller :
  clean (path_readdirplus inner node this parent handle offset caller).
Proof. unfold path_readdirplus, plus_add. read. intros [[u|e] l]; adapter. Qed.
Lemma clean_lookup parent name caller : clean (path_lookup inner parent name caller).
Proof. unfold path_lookup, add_node. read. destruct a0; adapter. Qed.
Lemma clean_create parent name mode umask flags caller : clean (path_create inner parent name mode umask flags caller).
Proof. unfold path_create, add_node. write. destruct a0. adapter. Qed.

Lemma adapter_clean : each_callback (λ E A, clean) (PathNodeFs inner).
Proof.
  split; intros; cbn [fs_root fs_populate fs_init fs_destroy fs_getattr fs_setattr fs_lookup fs_readlink fs_mknod fs_mkdir fs_symlink fs_unlink fs_rmdir fs_rename fs_link fs_open fs_read fs_write fs_flush fs_release fs_fsync fs_opendir fs_readdir fs_readdirplus fs_releasedir fs_fsyncdir fs_statfs fs_setxattr fs_getxattr fs_listxattr fs_removexattr fs_access fs_create fs_fallocate fs_lseek fs_getlk fs_setlk fs_copy_file_range PathNodeFs];
    try solve
      [ reflexivity | apply clean_make; intros; waits | apply clean_remove | apply clean_rename | apply clean_readdir
      | apply clean_readdirplus | apply clean_lookup | apply clean_create ];
    unfold path_init, path_destroy, path_getattr, path_setattr, path_readlink, path_open, path_read, path_write, path_flush, path_release, path_fsync, path_opendir, path_releasedir, path_fsyncdir, path_statfs, path_setxattr, path_getxattr, path_listxattr, path_removexattr, path_access, path_fallocate, path_lseek, path_getlk, path_setlk;
    first [apply disc_inner_call; waits|read].
Qed.
End callbacks.
