(* ===== verification/PathPool.v ===== *)
(** * The path adapter on every schedule

    The names of the adapter and the node table agree whatever the interleaving
    of the requests, and the adapter's locks leave no request unanswered. *)

From S2P Require Import Prelude Types NodeTable NodeTableInv HandleRec NodeFs Runtime RuntimeInv RuntimeSpec Requests Threads ThreadLogic ArcInv Concurrent ConcurrentSteps ConcurrentSpec Pool PoolInv PoolSpec.
From S2P Require Import Namespace PathFs FsInv PathLocks PathRules.

#[local] Arguments advance : simpl never.

(** ** Threads *)
Section threads.
Context {H D T K : Type} `{Libc} (inner : PathFilesystem H D T) (hang : PathState T → Prop) (k : nat).
Context (Hpaths : ∀ s id, path_for (path_fuel (ps_namespace s)) (ps_namespace s) id = None → hang s).
Context (Hinner : (∀ s, hang s) ∨ path_terminating inner).
Abbreviation CW := (World PathNode H D (PathState T) (K * Arcs H D)).

(** From a frame to the end of the thread, where nothing is held. *)
Definition obeys {A} (h : held) (t : thr CW A) : Prop :=
  follows (λ B, pstep hang k (B := B)) t h (λ _ h', h' = nothing).

#[local] Instance obeys_closed : Closed (λ A, @obeys A nothing).
Proof.
  split; [done|done| |].
  - intros A B act c p Hact Hc Hp. exists (λ _ h', h' = nothing).
    split; [apply (pstep_between hang k act nothing Hact); by left|]. split; [intros b f' ->; apply Hc|by intros f' ->].
  - intros A B m g Hm Hg. apply follows_then. eapply follows_mono; [exact Hm|]. intros r h' ->. apply Hg.
Qed.

Lemma clean_called E A (p : prog PathNode (PathState T) E A) : clean hang k p → called (λ A, @obeys A nothing) E A p.
Proof. intros Hp X emit x He. by apply (follows_disc hang k emit p x nothing (λ _ h', h' = nothing)). Qed.

Lemma thread_obeys (r : request K) : request_wf r → is_link r = false → obeys nothing (thread_of (PathNodeFs inner) r).
Proof.
  intros Hwf Hl. apply (thread_closed (λ A, @obeys A nothing)); [|done|by intros ? ? ? ? ->].
  eapply each_callback_mono; [|by apply (adapter_clean inner hang k)]. intros E A p. apply clean_called.
Qed.
End threads.

(** ** Pools *)
Section pools.
Context {H D T K : Type} `{Libc} (inner : PathFilesystem H D T) (hang : PathState T → Prop) (t0 : T).
Context (Hpaths : ∀ s id, path_for (path_fuel (ps_namespace s)) (ps_namespace s) id = None → hang s).
Context (Hinner : (∀ s, hang s) ∨ path_terminating inner).
Abbreviation fs := (PathNodeFs inner).
Abbreviation s0 := (PathNodeFs_new t0).
Implicit Types (p : pool (N := PathNode) (H := H) (D := D) (S := PathState T) (K := K)) (G : gmap nat held).

Definition adapter_of p : PathState T := rt_fs (p_rt p).
Definition table_links p (id : NodeId) : Z := links_of id (rt_shared (p_rt p)).

(** What each thread holds. *)
Definition holding p G : Prop :=
  PathInv G (adapter_of p) (table_links p) ∧
  ∀ k, match p_threads p !! k, G !! k with
       | Some j, Some h => obeys hang k h (j_thread j)
       | None, None => True
       | _, _ => False
       end.

Lemma holding_thread p G k j : holding p G → p_threads p !! k = Some j →
  ∃ h, G = <[k:=h]> (delete k G) ∧ delete k G !! k = None ∧ obeys hang k h (j_thread j).
Proof.
  intros [_ Hk] Hj. specialize (Hk k). rewrite Hj in Hk. destruct (G !! k) as [h|] eqn:Hh; [|done].
  exists h. split_and!; [by rewrite insert_delete_id|apply lookup_delete_eq|done].
Qed.

Lemma holding_none p G k : holding p G → p_threads p !! k = None → G !! k = None.
Proof. intros [_ Hk] Hj. specialize (Hk k). rewrite Hj in Hk. by destruct (G !! k). Qed.

(** A thread that holds nothing comes or goes. *)
Lemma PathInv_idle G k (s : PathState T) links : G !! k = None → PathInv G s links ↔ PathInv (<[k:=nothing]> G) s links.
Proof.
  intros Hk. assert (∀ g : held → Z, g nothing = 0 → sum_map g (<[k:=nothing]> G) = sum_map g G) as Hsum.
  { intros g Hg. rewrite sum_map_insert by done. lia. }
  split; intros []; rewrite ?(Hsum reads), ?(Hsum writes), ?(Hsum locks), ?(Hsum (debt ROOT)) in * by done; split; try done;
    rewrite ?(Hsum reads), ?(Hsum writes), ?(Hsum locks), ?(Hsum (debt ROOT)) by done; try done.
  - intros k' h ns. rewrite lookup_insert. case_decide; [by intros [= <-]|apply pi_known].
  - intros id Hid. rewrite Hsum by done. auto.
  - intros k' h ns Hh. apply (pi_known k'). rewrite lookup_insert_ne; congruence.
  - intros id Hid. rewrite <- (Hsum (debt id)) by done. auto.
Qed.

Lemma pooled_table p : pooled fs s0 p → early p → ∃ n issued,
  inv_but None n issued (rt_shared (p_rt p)) ∧ n + 2 < u64_max.
Proof.
  intros Hp He. destruct (pooled_PI (λ _, True) fs s0 (stalling_always fs) p Hp) as (Hn & ops & F & Hat & _).
  destruct (reached_inv fs s0 _ _ Hat Hn) as [issued Hinv]. destruct Hat as (_ & _ & Hle). exists (Z.of_nat (length ops)), issued.
  split; [done|]. unfold early, steps_of in *. simpl in *. lia.
Qed.

(** What a step of a thread makes of what it holds. *)
Lemma holding_act p G k x {B} (act : M _ B) c u h :
  pooled fs s0 p → early p → holding p G → p_threads p !! k = Some (mkJob x (Act act c u)) →
  G = <[k:=h]> (delete k G) → obeys hang k h (Act act c u) →
  match advance (Act act c u) (mkWorld (p_rt p) (x, p_arcs p)) with
  | Some (t', w') => ∃ G', holding (mkPool (w_rt w') (w_sink w').2 (<[k:=mkJob (w_sink w').1 t']> (p_threads p))
      (p_account p) (p_replies p)) G'
  | None => may_wait hang h (adapter_of p)
  end.
Proof.
  intros Hp He [HI Ht] Hj HG (Q & Hact & Hc & Hu). destruct (pooled_table p Hp He) as (n & issued & Hinv & Hn). rewrite HG in HI.
  specialize (Hact (mkWorld (p_rt p) (x, p_arcs p)) (delete k G) n issued (lookup_delete_eq _ _) Hinv Hn HI). unfold advance.
  assert (∀ h' t' (w' : World PathNode H D (PathState T) (K * Arcs H D)), obeys hang k h' t' →
    PathInv (<[k:=h']> (delete k G)) (fs_of w') (λ id, links_of id (sh_of w')) →
    ∃ G', holding (mkPool (w_rt w') (w_sink w').2 (<[k:=mkJob (w_sink w').1 t']> (p_threads p)) (p_account p) (p_replies p)) G') as Hnext.
  { intros h' t' w' Ho HI'. exists (<[k:=h']> (delete k G)). split; [done|]. intros k'. simpl.
    rewrite !lookup_insert. case_decide; [by subst|]. rewrite lookup_delete_ne by done. apply Ht. }
  destruct (act _) as [[b| |] w']; [..|done]; destruct Hact as (h' & HQ & HI').
  - apply (Hnext h'); [by apply Hc|done].
  - apply (Hnext h'); [by apply Hu|done].
Qed.

Definition linkless (a : action (K := K)) : bool := match a with Issue _ r _ => negb (is_link r) | _ => true end.

Lemma holding_step p G a p' :
  pooled fs s0 p → early p' → holding p G → linkless a = true → pool_step fs a p = Some p' → ∃ G', holding p' G'.
Proof.
  intros Hp He' HG Hl Hstep. pose proof (steps_grow fs s0 p a p' Hp Hstep) as Hle.
  assert (early p) as He by (unfold early in *; lia). destruct a as [k r x|k|k]; simpl in Hstep.
  - case_bool_decide as Hk; [done|]. apply eq_None_not_Some in Hk. destruct (negb (match r with _ => _ end)) eqn:Hr; [done|].
    destruct (debit _ _); simplify_eq. pose proof (holding_none p G k HG Hk) as HGk. destruct HG as [HI Ht].
    exists (<[k:=nothing]> G). split; [by apply PathInv_idle|]. intros k'. simpl. rewrite !lookup_insert. case_decide; [|apply Ht].
    apply thread_obeys; [done|done|by apply issue_wf|by apply negb_true_iff].
  - destruct (p_threads p !! k) as [[x t]|] eqn:Hj; [|done]. destruct (holding_thread _ _ _ _ HG Hj) as (h & HGk & _ & Ho).
    simpl in *. destruct t as [| |B act c u]; [done..|]. pose proof (holding_act p G k x act c u h Hp He HG Hj HGk Ho) as Hgo.
    destruct (advance _ _) as [[t' w']|]; [|done]. by simplify_eq.
  - destruct (p_threads p !! k) as [[x t]|] eqn:Hj; [|done]. destruct (holding_thread _ _ _ _ HG Hj) as (h & HGk & Hn & Ho).
    assert (h = nothing → ∃ G', PathInv G' (adapter_of p) (table_links p) ∧
      ∀ k', match delete k (p_threads p) !! k', G' !! k' with
            | Some j, Some h => obeys hang k' h (j_thread j) | None, None => True | _, _ => False end) as Hleave.
    { intros ->. destruct HG as [HI Ht]. exists (delete k G). split; [rewrite HGk in HI; by apply PathInv_idle in HI|].
      intros k'. rewrite !lookup_delete. case_decide; [done|apply Ht]. }
    destruct t as [rep| |]; simplify_eq; (destruct (Hleave Ho) as (G' & ? & ?); by exists G').
Qed.

Lemma holding_start : holding (pool_new (Runtime_start fs s0)) ∅.
Proof.
  assert (∀ id, id ≠ ROOT → table_links (pool_new (K := K) (Runtime_start fs s0)) id = 0) as Hl.
  { intros id Hid. unfold table_links, links_of. simpl. rewrite lookup_insert_ne by done. by rewrite lookup_empty. }
  split; [|by intros k; simpl; rewrite !lookup_empty]. split; rewrite ?sum_map_empty; try done.
  - apply Namespace_new_wf.
  - intros id Hid. by rewrite sum_map_empty, Hl.
Qed.

Lemma pooled_start : pooled fs s0 (pool_new (K := K) (Runtime_start fs s0)).
Proof. apply (pooled_new fs s0 (mkWorld (Runtime_start fs s0) tt)); [done|by vm_compute]. Qed.
End pools.

(** ** Where the adapter waits: at a lock that is taken, or for a path that does
    not end *)
Section stalls.
Context {H D T : Type} `{Libc} (inner : PathFilesystem H D T) (Hinner : path_terminating inner).
Abbreviation St := (PathState T).
Abbreviation pr E A := (prog PathNode St E A).

Definition cyclic (s : St) : Prop := ∃ id, path_for (path_fuel (ps_namespace s)) (ps_namespace s) id = None.
Definition waiting (s : St) : Prop := cyclic s ∨ ps_operations s ≠ Readers 0 ∨ ps_busy s = true.
Abbreviation stalls := (stalls_in waiting).

Lemma stalls_try {E A B} (m : pr E (Result Errno A)) (f : A → pr E (Result Errno B)) :
  stalls m → (∀ a, stalls (f a)) → stalls (prog_try m f).
Proof. intros Hm Hf. apply stalls_bind; [done|]. by intros [a|e]. Qed.

Lemma stalls_own {E A} (f : St → A * St) : stalls (own f : pr E A).
Proof. split; [intros s; left; by eexists|done]. Qed.

Lemma stalls_locked {E A} acquire release (m : pr E A) :
  (∀ s, is_Some (acquire s) ∨ waiting s) → stalls m → stalls (locked acquire release m).
Proof.
  intros Ha Hm. split; [intros s; destruct (Ha s) as [[s' ->]|?]; [left; by eexists|by right]|]. intros _.
  apply stalls_finally; [|done]. intros B p Hp. apply stalls_bind; [apply stalls_own|done].
Qed.
Lemma stalls_read_lock {E A} (m : pr E A) : stalls m → stalls (read_lock m).
Proof.
  apply stalls_locked. intros s. unfold read_acquire. destruct (ps_operations s) eqn:Ho; [left; by eexists|].
  right; right; left. by rewrite Ho.
Qed.
Lemma stalls_write_lock {E A} (m : pr E A) : stalls m → stalls (write_lock m).
Proof.
  apply stalls_locked. intros s. unfold write_acquire.
  destruct (ps_operations s) as [[|n]|] eqn:Ho; [left; by eexists|right; right; left; by rewrite Ho..].
Qed.
Lemma stalls_mutex {E A} (m : pr E A) : stalls m → stalls (mutex m).
Proof.
  apply stalls_locked. intros s. unfold mutex_acquire. destruct (ps_busy s) eqn:Hb; [by do 3 right|left; by eexists].
Qed.

Lemma stalls_ns_path {E} id : stalls (ns_path id : pr E _).
Proof.
  split; [|done]. intros s. cbv zeta. destruct (path_for _ _ id) as [p|] eqn:Hp; [left; by eexists|].
  right; left. by exists id.
Qed.

Lemma stalls_inner_call {A} (p : pprog T Empty_set A) : p_returns p → stalls (inner_call p).
Proof.
  induction p; simpl; intros Hp; try done; auto.
  - split; [|naive_solver]. intros s. left. destruct (proj1 Hp (ps_inner s)) as [[b t] ->]. by eexists.
Qed.

Lemma stalls_inner_sink {E E' A} (add : list Dentry → E → pr E' (bool * list Dentry)) (p : pprog T E A) inserted :
  (∀ l e, stalls (add l e)) → p_returns p → stalls (inner_sink add inserted p).
Proof.
  intros Hadd. revert inserted. induction p; simpl; intros inserted Hp; try done; auto.
  - split; [|naive_solver]. intros s. left. destruct (proj1 Hp (ps_inner s)) as [[b t] ->]. by eexists.
  - apply stalls_bind; [apply Hadd|]. intros [b l]. auto.
Qed.

Lemma stalls_ns_insert {E} parent name : stalls (ns_insert parent name : pr E _).
Proof. intros s. cbn. repeat case_match; try done. split; [intros ?; left; by eexists|]. intros ? ?. by split; [intros ?; left; by eexists|]. Qed.

Lemma stalls_rollback_dentry {E} d : stalls (rollback_dentry d : pr E unit).
Proof.
  apply stalls_mutex. intros s. cbn. destruct (remove _ d) as [[id|] ns]; (split; [intros ?; left; by eexists|done]).
Qed.

Lemma stalls_rollback {E} l : stalls (rollback l : pr E unit).
Proof. induction l; [done|]. apply stalls_bind; [done|]. intros _. apply stalls_rollback_dentry. Qed.

Local Ltac adapter :=
  repeat (intros;
    first
    [ lazymatch goal with |- stalls_in _ (Done _) => exact I | |- True => exact I end
    | apply stalls_inner_call; solve [destruct Hinner; auto]
    | apply stalls_inner_sink; [|solve [destruct Hinner; auto]]
    | apply stalls_read_lock | apply stalls_write_lock | apply stalls_mutex
    | apply stalls_ns_path | apply stalls_ns_insert | apply stalls_rollback_dentry | apply stalls_rollback | apply stalls_own | by intros ?
    | apply stalls_try | apply stalls_bind
    | lazymatch goal with
      | |- stalls_in _ (match ?x with _ => _ end) => destruct x
      | |- stalls_in _ (ReadState _) => intros ?; cbn beta iota
      | |- stalls_in _ (CxReparent _ _ _) => cbn [stalls_in]
      | |- stalls_in _ (CxRemoveLink _ _) => cbn [stalls_in]
      | |- stalls_in _ (CxTryAddLink _ _ _) => split; [|exact I]
      | |- stalls_in _ (TryEmit _ _ _) => split; [|exact I]
      end ]).

Lemma adapter_stalls : stalling waiting (PathNodeFs inner).
Proof.
  split; intros; cbn [fs_root fs_populate fs_init fs_destroy fs_getattr fs_setattr fs_lookup fs_readlink fs_mknod fs_mkdir fs_symlink fs_unlink fs_rmdir fs_rename fs_link fs_open fs_read fs_write fs_flush fs_release fs_fsync fs_opendir fs_readdir fs_readdirplus fs_releasedir fs_fsyncdir fs_statfs fs_setxattr fs_getxattr fs_listxattr fs_removexattr fs_access fs_create fs_fallocate fs_lseek fs_getlk fs_setlk fs_copy_file_range PathNodeFs];
    try exact I;
    unfold path_init, path_destroy, path_getattr, path_setattr, path_readlink, path_open, path_read, path_write, path_flush, path_release, path_fsync, path_opendir, path_releasedir, path_fsyncdir, path_statfs, path_setxattr, path_getxattr, path_listxattr, path_removexattr, path_access, path_fallocate, path_lseek, path_getlk, path_setlk,
      path_lookup, path_mknod, path_mkdir, path_symlink, path_make, path_unlink, path_rmdir, remove_entry, path_rename, path_link, path_create,
      path_readdir, path_readdirplus, basic_add, plus_add, sink_add, add_enumerated_node, add_node, required_path, path, node_path, node_id, get_ns, put_ns;
    adapter.
Qed.
End stalls.
