(* ===== verification/PathPoolSpec.v ===== *)
(** * The path adapter under every interleaving

    Whatever the path filesystem does and however the requests interleave, the
    names of the adapter lead to nodes that the node table keeps, and once no
    request is in flight the table counts one link for each name; when the path
    filesystem's callbacks return, the adapter's two locks deadlock on no
    schedule.  Hard links, whose name is recorded before their link, are left
    out. *)

From S2P Require Import Prelude Types NodeTable NodeTableInv HandleRec NodeFs Runtime RuntimeInv RuntimeSpec Requests Threads ThreadLogic ArcInv Concurrent ConcurrentSteps ConcurrentSpec Pool PoolInv PoolSpec.
From S2P Require Import Namespace PathFs FsInv PathLocks PathRules PathPool.

#[local] Arguments advance : simpl never.

Section schedules.
Context {H D T K : Type} `{Libc} (inner : PathFilesystem H D T) (t0 : T).
Abbreviation fs := (PathNodeFs inner).
Abbreviation s0 := (PathNodeFs_new t0).
Implicit Types (p : pool (N := PathNode) (H := H) (D := D) (S := PathState T) (K := K)) (G : gmap nat held).

(** The pools of the schedules without hard links. *)
Definition scheduled (l : list (action (K := K))) p : Prop :=
  Forall (λ a, linkless a = true) l ∧ run_pool fs l (pool_new (Runtime_start fs s0)) = Some p.

Lemma scheduled_pooled l p : scheduled l p → pooled fs s0 p.
Proof. intros [_ Hrun]. eapply pooled_run; [apply pooled_start|exact Hrun]. Qed.

Lemma scheduled_holding hang l p :
  (∀ s id, path_for (path_fuel (ps_namespace s)) (ps_namespace s) id = None → hang s) →
  (∀ s, hang s) ∨ path_terminating inner → scheduled l p → early p → ∃ G, holding hang p G.
Proof.
  intros Hpaths Hinner [Hl Hrun] He.
  assert (∀ p0, pooled fs s0 p0 → (∃ G, holding hang p0 G) → run_pool fs l p0 = Some p →
    (∃ G, holding hang p G) ∧ (rt_steps (p_rt p0) ≤ rt_steps (p_rt p))%nat) as Hgo; cycle 1.
  { apply (Hgo (pool_new (Runtime_start fs s0))); [apply pooled_start|exists ∅; apply holding_start|done]. }
  clear Hrun. induction Hl as [|a l Ha Hl IH]; intros p0 Hp HG Hrun; simpl in Hrun; [by simplify_eq|].
  destruct (pool_step fs a p0) as [p1|] eqn:Hstep; [|done]. destruct (decide _) as [Hfew|]; [|done].
  pose proof (pooled_step _ _ _ _ _ Hp Hstep Hfew) as Hp1. pose proof (steps_grow _ _ _ _ _ Hp Hstep) as Hle.
  assert ((rt_steps (p_rt p1) ≤ rt_steps (p_rt p))%nat) as Hle1.
  { clear -Hp1 Hrun. revert p1 Hp1 Hrun. induction l as [|a l IH]; intros p1 Hp1 Hrun; simpl in Hrun; [by simplify_eq|].
    destruct (pool_step fs a p1) as [p2|] eqn:Hstep; [|done]. destruct (decide _) as [Hfew|]; [|done].
    pose proof (steps_grow _ _ _ _ _ Hp1 Hstep). etrans; [done|]. eapply IH; [|done]. by eapply pooled_step. }
  destruct HG as [G HG]. split; [|lia]. apply (IH p1); [done| |done].
  eapply (holding_step inner hang t0 Hpaths Hinner p0 G a p1); try done. unfold early in *. lia.
Qed.

(** C8: under every interleaving of requests without hard links, whatever the path filesystem does: the adapter's name maps are inverse to each other, every name leads to a node of the node table that has at least as many links as names, so that no schedule makes a name lead to a reclaimed or recycled inode; and once no request is in flight both locks are free and each node but the root has exactly one link per name. *)
Theorem names_lead_to_nodes l p :
  scheduled l p → early p →
  let s := rt_fs (p_rt p) in let ns := ps_namespace s in let table := tbl_map (sh_table (rt_shared (p_rt p))) in
  ns_wf ns ∧
  (∀ d id, by_name ns !! d = Some id → id ≠ ROOT ∧ ∃ slot, table !! id = Some slot ∧ names_of ns id ≤ slot_links slot) ∧
  (p_threads p = ∅ →
    ps_operations s = Readers 0 ∧ ps_busy s = false ∧
    ∀ id slot, id ≠ ROOT → table !! id = Some slot → slot_links slot = names_of ns id).
Proof.
  intros Hs He. destruct (scheduled_holding (λ _, True) l p) as [G [HI Ht]]; [done|by left|done..|].
  cbv zeta. destruct HI. unfold adapter_of, table_links in *. split_and!; [done| |].
  - intros d id Hd. assert (1 ≤ names_of (ps_namespace (rt_fs (p_rt p))) id) as Hone.
    { pose proof (count_map_pos (λ i, i = id) _ d id Hd eq_refl). unfold names_of. lia. }
    assert (id ≠ ROOT) as Hid by (intros ->; lia). split; [done|]. specialize (pi_links id Hid). unfold links_of in pi_links.
    pose proof (sum_map_nonneg (debt id) G ltac:(intros; unfold debt; pose proof (one_bounds (h_debt v = Some id)); lia)).
    destruct (tbl_map _ !! id) as [slot|]; [|lia]. exists slot. split; [done|lia].
  - intros Hidle. assert (G = ∅) as ->.
    { apply map_eq. intros k. specialize (Ht k). rewrite Hidle, lookup_empty in Ht. rewrite lookup_empty. by destruct (G !! k). }
    rewrite !sum_map_empty in *. split_and!.
    + destruct (ps_operations _) as [n|]; [|done]. f_equal. lia.
    + by destruct (ps_busy _).
    + intros id slot Hid Hslot. specialize (pi_links id Hid). unfold links_of in pi_links. rewrite Hslot, sum_map_empty in pi_links. lia.
Qed.
(** *** Liveness *)
Context (Hinner : path_terminating inner).

(** A thread that holds a lock has a step, unless a path does not end. *)
Lemma owner_steps p G k h :
  pooled fs s0 p → early p → holding cyclic p G → ¬ cyclic (adapter_of p) → G !! k = Some h →
  is_Some (h_ns h) ∨ (h_guard h ≠ NoGuard ∧ ps_busy (adapter_of p) = false) →
  ∃ a p', serving a = true ∧ pool_step fs a p = Some p'.
Proof.
  intros Hp He HG Hc Hh Hown. pose proof (proj2 HG k) as Hk. rewrite Hh in Hk.
  destruct (p_threads p !! k) as [[x t]|] eqn:Hj; [|done].
  assert (h ≠ nothing) as Hne by (intros ->; destruct Hown as [[ns ?]|[? _]]; done).
  destruct t as [rep| |B act c u]; [done..|]. simpl in Hk. exists (Run k). simpl. rewrite Hj. simpl.
  assert (G = <[k:=h]> (delete k G)) as HGk by (by rewrite insert_delete_id).
  pose proof (holding_act inner cyclic t0 p G k x act c u h Hp He HG Hj HGk Hk) as Hgo.
  destruct (advance _ _) as [[t' w']|]; [by eexists|]. exfalso. destruct Hgo as [?|[[Hns Hb]|?]]; [done| |done].
  unfold adapter_of in *. destruct Hown as [[ns Hs]|[_ Hb']]; congruence.
Qed.

Lemma path_progress p G :
  pooled fs s0 p → early p → holding cyclic p G → ¬ cyclic (adapter_of p) → p_threads p ≠ ∅ →
  ∃ a p', serving a = true ∧ pool_step fs a p = Some p'.
Proof.
  intros Hp He HG Hc Hne. destruct (pool_progress fs s0 waiting p (adapter_stalls inner Hinner) Hp He Hne) as [?|[?|Hw]]; [done..|].
  fold (adapter_of p) in Hw. pose proof (proj1 HG) as HI. destruct (ps_busy (adapter_of p)) eqn:Hb.
  - destruct (sum_map_witness locks G) as (k & h & Hh & Hl); [rewrite (pi_mutex _ _ _ HI), Hb; done|].
    apply (owner_steps p G k h); try done. left. unfold locks, one in Hl. by case_decide.
  - destruct Hw as [Hw|?]; [|done].
    assert (∃ k h, G !! k = Some h ∧ h_guard h ≠ NoGuard) as (k & h & Hh & Hg); [|by apply (owner_steps p G k h); try done; right].
    destruct (ps_operations (adapter_of p)) as [[|n]|] eqn:Ho; [done|..].
    + destruct (sum_map_witness reads G) as (k & h & Hh & Hl); [rewrite (pi_readers _ _ _ HI), Ho; done|].
      exists k, h. split; [done|]. unfold reads, one in Hl. case_decide as Hr; [by rewrite Hr|done].
    + destruct (sum_map_witness writes G) as (k & h & Hh & Hl); [rewrite (pi_writers _ _ _ HI), Ho; done|].
      exists k, h. split; [done|]. unfold writes, one in Hl. case_decide as Hr; [by rewrite Hr|done].
Qed.

(** The schedule goes on while the table has steps to make and every path ends. *)
Definition goes_on p : Prop := early p ∧ ¬ cyclic (adapter_of p).

(** C9: the adapter's read-write lock and the mutex of its namespace never deadlock: when the callbacks of the path filesystem return, on every schedule of the requests in flight (without hard links) some thread has a step as long as one is left and no schedule is infinite, so they are all answered, while no directory was moved into itself (a path that does not end). *)
Theorem path_requests_answered l p : scheduled l p → goes_on p → drains fs goes_on p.
Proof.
  intros Hs [He Hc]. destruct (scheduled_holding cyclic l p) as [G HG]; [by intros s id Hp; exists id|by right|done..|].
  pose proof (scheduled_pooled l p Hs) as Hp. clear Hs. revert G Hp He Hc HG.
  induction (serving_wf fs p) as [p _ IH]. intros G Hp He Hc HG.
  destruct (decide (p_threads p = ∅)) as [?|Hne]; [by apply drains_idle|].
  apply drains_next; [by apply (path_progress p G)|]. intros a p' Ha Hstep [He' Hc'].
  destruct (holding_step inner cyclic t0 ltac:(by intros s id Hnone; exists id) ltac:(by right) p G a p') as [G' HG']; try done.
  { by destruct a. }
  apply (IH p') with G'; [by exists a| |done..]. eapply pooled_step; [done..|]. by apply few_more.
Qed.
End schedules.
