(* ===== verification/PathTests.v ===== *)
(** * The tests of the path adapter ([typed_fuse_core/src/path_fs.rs])

    The module [tests] with its recording filesystem, and on that filesystem the
    theorems of [PathPoolSpec] at a pool where a listing is under way, and what
    becomes of a name that a failed listing takes back. *)

From S2P Require Import Prelude Types NodeTable NodeTableInv HandleRec NodeFs Runtime RuntimeInv RuntimeSpec Requests Threads ThreadLogic Pool PoolInv PoolSpec Testing.
From S2P Require Import Namespace PathFs FsInv PathLocks PathRules PathPool PathPoolSpec.

Section tests.
Local Existing Instance linux_libc.

(** [getattr_paths] *)
Abbreviation Paths := (list (option PathBuf)).

Definition recording_lookup (parent : PathBuf) (name : OsString) (caller : Caller) :
    pprog Paths Empty_set (Result Errno (option NodeAttr)) :=
  PDone (Ok (Some NodeAttr_default)).
Definition recording_getattr (path : option PathBuf) (handle : option unit) (caller : Caller) :
    pprog Paths Empty_set (Result Errno NodeAttr) :=
  PCritical (λ paths, Some (tt, paths ++ [path])) (λ _, PDone (Ok NodeAttr_default)).
Definition recording_rename (parent : PathBuf) (name : OsString) (newparent : PathBuf) (newname : OsString) (caller : Caller) :
    pprog Paths Empty_set (Result Errno unit) :=
  PDone (Ok tt).
Definition recording_link (path newparent : PathBuf) (newname : OsString) (caller : Caller) :
    pprog Paths Empty_set (Result Errno NodeAttr) :=
  PDone (Ok NodeAttr_default).
Definition recording_unlink (parent : PathBuf) (name : OsString) (caller : Caller) :
    pprog Paths Empty_set (Result Errno unit) :=
  PDone (Ok tt).
Definition recording_open (path : PathBuf) (flags : Z) (caller : Caller) :
    pprog Paths Empty_set (Result Errno (Opened unit)) :=
  PDone (Ok (Opened_new tt)).
Definition recording_readdir (path : PathBuf) (handle : unit) (offset : Z) (caller : Caller) :
    pprog Paths PathDirEntry (Result Errno unit) :=
  PEmit (mkPathDirEntry "enumerated" RegularFile 1) (λ accepted, if accepted then PDone (Err EIO) else PCrash).

Definition RecordingFs : PathFilesystem unit unit Paths := {|
  P_SUPPORTS_POSIX_LOCKS := false;
  P_SUPPORTS_READDIRPLUS := false;
  p_getattr := recording_getattr;
  p_lookup := recording_lookup;
  p_init := path_default_init;
  p_destroy := path_default_destroy;
  p_setattr := path_default_setattr;
  p_readlink := path_default_readlink;
  p_mknod := path_default_mknod;
  p_mkdir := path_default_mkdir;
  p_symlink := path_default_symlink;
  p_unlink := recording_unlink;
  p_rmdir := path_default_rmdir;
  p_rename := recording_rename;
  p_link := recording_link;
  p_open := recording_open;
  p_read := path_default_read;
  p_write := path_default_write;
  p_flush := path_default_flush;
  p_release := path_default_release;
  p_fsync := path_default_fsync;
  p_opendir := recording_open;
  p_readdir := recording_readdir;
  p_readdirplus := path_default_readdirplus;
  p_releasedir := path_default_releasedir;
  p_fsyncdir := path_default_fsyncdir;
  p_statfs := path_default_statfs;
  p_setxattr := path_default_setxattr;
  p_getxattr := path_default_getxattr;
  p_listxattr := path_default_listxattr;
  p_removexattr := path_default_removexattr;
  p_access := path_default_access;
  p_create := path_default_create;
  p_fallocate := path_default_fallocate;
  p_lseek := path_default_lseek;
  p_getlk := path_default_getlk;
  p_setlk := path_default_setlk;
|}.

Abbreviation fs := (PathNodeFs RecordingFs).
Abbreviation W := (World PathNode unit unit (PathState Paths) unit).

Definition caller : Caller := Caller_default.
Definition found (reply : LookupReply) : M W Z :=
  match reply with Found entry => mret (er_ino entry) | Negative => panic end.
Definition lookup_id (parent : Z) (name : OsString) : M W Z :=
  r ← lookup fs parent name caller; reply ← unwrap r; found reply.
(** [mutex(&paths).last().unwrap()] *)
Definition last_path : M W (option PathBuf) :=
  paths ← gets (λ w, ps_inner (rt_fs (w_rt w))); expect (last paths).
Definition passing (test : M W unit) : bool := passes fs (PathNodeFs_new []) tt test.

Definition moving_directory_updates_descendant_paths_without_rewriting_children : M W unit :=
  directory ← lookup_id 1 "old";
  child ← lookup_id directory "child";
  r ← rename fs 1 "old" 1 "new" 0 caller; _ ← unwrap r;
  r ← getattr fs child None caller; _ ← unwrap r;
  path ← last_path;
  assert_eq path (Some "/new/child"%string).

Definition overwritten_open_destination_continues_without_a_path : M W unit :=
  source ← lookup_id 1 "source";
  destination ← lookup_id 1 "destination";
  r ← open fs destination 0 caller; open ← unwrap r;
  r ← rename fs 1 "source" 1 "destination" 0 caller; _ ← unwrap r;
  r ← getattr fs destination (Some (or_fh open)) caller; _ ← unwrap r;
  path ← last_path; _ ← assert_eq path None;
  id ← lookup_id 1 "destination"; assert_eq id source.

Definition hard_link_alias_survives_unlink_of_original_name : M W unit :=
  original ← lookup_id 1 "original";
  r ← link fs original 1 "alias" caller; _ ← unwrap r;
  r ← unlink fs 1 "original" caller; _ ← unwrap r;
  r ← getattr fs original None caller; _ ← unwrap r;
  path ← last_path;
  assert_eq path (Some "/alias"%string).

(** [AcceptingSink] *)
Definition accepting (e : DirEntry) (x : unit) : bool * unit := (true, x).

Definition failed_readdir_rolls_back_new_namespace_entries : M W unit :=
  r ← opendir fs 1 0 caller; open ← unwrap r;
  r ← readdir fs accepting 1 (or_fh open) 0 caller; e ← unwrap_err r; _ ← assert_eq e EIO;
  r ← lookup fs 1 "enumerated" caller;
  assert (match r with Ok (Found _) => true | _ => false end).

Example sequential_tests_pass : forallb passing
  [moving_directory_updates_descendant_paths_without_rewriting_children;
   overwritten_open_destination_continues_without_a_path; hard_link_alias_survives_unlink_of_original_name;
   failed_readdir_rolls_back_new_namespace_entries] = true.
Proof. vm_compute. reflexivity. Qed.

(** ** Threads *)
Abbreviation Pool := (pool (N := PathNode) (H := unit) (D := unit) (S := PathState Paths) (K := unit)).
Definition start : Pool := pool_new (Runtime_start fs (PathNodeFs_new [])).

(** Twelve threads, step by step in turn. *)
Definition concurrent_lookup_deduplicates_node_identity : bool :=
  let workers := seq 0 12 in
  let p := rounds fs workers 120 (foldl (λ p k, issue fs k (ReqLookup 1 "same" caller) tt p) start workers) in
  let ids := (λ k, match reply_of k p with Some (Some (RepLookup (Ok (Found e)))) => Some (er_ino e) | _ => None end : option Z) <$> workers in
  match ids with Some id :: _ => forallb (λ i, bool_decide (i = Some id)) ids | _ => false end.

Example concurrent_test_passes : concurrent_lookup_deduplicates_node_identity = true.
Proof. vm_compute. reflexivity. Qed.

(** ** A listing under way *)

(** The listing of the root has passed "enumerated" on when another request
    looks that name up. *)
Definition listing : list (action (K := unit)) :=
  whole 12 1 (ReqOpendir 1 0 caller) tt ++
  Issue 2 (ReqReaddir tt accepting 1 1 0 caller) tt :: repeat (Run 2) 19 ++
  whole 20 3 (ReqLookup 1 "enumerated" caller) tt.
Definition pool_after (l : list (action (K := unit))) : Pool := default start (run_pool fs l start).
Definition under_way : Pool := pool_after listing.

Lemma recording_terminating : path_terminating RecordingFs.
Proof. split; intros; simpl; repeat (intros ? || case_match || split); done. Qed.

Lemma ran {A} (d : A) (x : option A) : bool_decide (is_Some x) = true → x = Some (default d x).
Proof. intros [y ->]%bool_decide_eq_true. done. Qed.

Lemma listing_scheduled : scheduled RecordingFs [] listing under_way.
Proof. split; [by repeat constructor|]. apply (ran start). vm_compute. reflexivity. Qed.

(** When every name is in the root, every path ends. *)
Lemma flat_acyclic (s : PathState Paths) :
  bool_decide (map_Forall (λ _ l, Forall (λ d, d_parent d = ROOT) l) (aliases (ps_namespace s))) = true → ¬ cyclic s.
Proof.
  intros Hflat%bool_decide_eq_true [id Hid]. unfold path_fuel in Hid. simpl in Hid. case_match; [done|].
  destruct (aliases _ !! id) as [[|d l]|] eqn:Hl; [done| |done].
  pose proof (Hflat id _ Hl) as [Hd _]%Forall_cons. destruct (size (aliases _)) as [|n] eqn:Hn.
  - apply map_size_empty_iff in Hn. by rewrite Hn, lookup_empty in Hl.
  - simpl in Hid. by rewrite Hd in Hid.
Qed.

Lemma names_lead_to_nodes_witness : ∃ slot,
  tbl_map (sh_table (rt_shared (p_rt under_way))) !! 2 = Some slot ∧ names_of (ps_namespace (rt_fs (p_rt under_way))) 2 ≤ slot_links slot.
Proof.
  destruct (names_lead_to_nodes RecordingFs [] listing under_way listing_scheduled) as (_ & Hnames & _); [by vm_compute|].
  apply (Hnames (mkDentry 1 "enumerated") 2). vm_compute. reflexivity.
Defined.

Lemma path_requests_answered_witness : drains fs goes_on under_way.
Proof.
  apply (path_requests_answered RecordingFs [] recording_terminating listing under_way listing_scheduled).
  split; [by vm_compute|]. apply flat_acyclic. vm_compute. reflexivity.
Defined.

(** The listing fails and takes its name back: the node that the lookup was
    answered with has no path any more, and the next lookup makes another node
    of the same file. *)
Definition taken_back : Pool := pool_after (listing ++ repeat (Run 2) 9 ++ [Reply 2] ++
  whole 11 4 (ReqGetattr 2 None caller) tt ++ whole 23 5 (ReqLookup 1 "enumerated" caller) tt).

Example failed_listing_takes_a_looked_up_name_back :
  (λ r, match r with Some (RepLookup (Ok (Found e))) => er_ino e | _ => 0 end) ∘ snd <$> filter (λ x, x.1 = 3%nat ∨ x.1 = 5%nat) (p_replies taken_back)
    = [3; 2] ∧
  ps_inner (rt_fs (p_rt taken_back)) = [Some "/enumerated"%string; None; Some "/enumerated"%string].
Proof. vm_compute. split; reflexivity. Qed.
End tests.
