(* ===== verification/RuntimeTests.v ===== *)
(** * The tests of the runtime ([typed_fuse_core/src/runtime.rs])

    The module [tests]: its filesystems as [NodeFs], its sequential tests as
    programs over the handlers of [Runtime], and those that start threads as
    pools, with the standard library's [Barrier]. *)

From S2P Require Import Prelude Types Std NodeTable HandleRec NodeFs Runtime RuntimeInv Requests Threads Pool Testing.

Section tests.
Local Existing Instance linux_libc.

Definition caller : Caller := Caller_default.

(** ** [Mini]

    The nodes' locks are in a heap, a node is a reference into it; no writer
    panics, so no lock is poisoned. *)
Inductive Data := DataDir (e : gmap string NodeId) | DataFile (v : bytes).
Definition Node : Type := nat.
Abbreviation Heap := (list Data).

(** [Node(RwLock::new(data))], [n.0.read().unwrap()] and [n.0.write().unwrap()]. *)
Definition new_node {E A} (data : Data) (k : Node → prog Node Heap E A) : prog Node Heap E A :=
  Critical (λ s, Some (length s, s ++ [data])) k.
Definition read_node {E A} (n : Node) (k : Data → prog Node Heap E A) : prog Node Heap E A :=
  Critical (λ s, data ← s !! n; Some (data, s)) k.
Definition write_node {E A B} (n : Node) (f : Data → B * Data) (k : B → prog Node Heap E A) : prog Node Heap E A :=
  Critical (λ s, data ← s !! n; let '(b, data) := f data in Some (b, <[n:=data]> s)) k.

Definition mini_root (s : Heap) : Node * Heap := (length s, s ++ [DataDir ∅]).

Definition mini_getattr (n : Node) (handle : option unit) (caller : Caller) :
    prog Node Heap Empty_set (Result Errno NodeAttr) :=
  read_node n (λ data, Done (Ok {|
    attr_size := 0; attr_blocks := 0; attr_atime := UNIX_EPOCH; attr_mtime := UNIX_EPOCH; attr_ctime := UNIX_EPOCH;
    attr_crtime := UNIX_EPOCH; attr_kind := match data with DataDir _ => Directory | DataFile _ => RegularFile end;
    attr_perm := 0; attr_nlink := 1; attr_uid := 0; attr_gid := 0; attr_rdev := 0; attr_blksize := 0; attr_flags := 0 |})).

Definition mini_create (parent : NodeId) (name : OsString) (mode umask flags : Z) (caller : Caller) :
    prog Node Heap Empty_set (Result Errno (NodeId * Opened unit)) :=
  new_node (DataFile []) (λ n,
  CxInsert n parent (λ id,
  with_get parent
    (λ p,
      write_node p (λ data,
        match data with DataDir e => (tt, DataDir (<[to_string_lossy name := id]> e)) | _ => (tt, data) end) (λ _,
      Done (Ok (id, Opened_new tt))))
    (Done (Err ENOENT)))).

Definition mini_unlink (parent : NodeId) (name : OsString) (caller : Caller) :
    prog Node Heap Empty_set (Result Errno unit) :=
  with_get parent
    (λ p,
      write_node p (λ data,
        match data with
        | DataDir e => (ok_or (e !! to_string_lossy name) ENOENT, DataDir (delete (to_string_lossy name) e))
        | _ => (Err ENOTDIR, data)
        end) (λ r,
      match r with
      | Ok id => CxRemoveLink id (Done (Ok tt))
      | Err e => Done (Err e)
      end))
    (Done (Err ENOENT)).

Definition mini_read (n : Node) (handle : unit) (off size : Z) (caller : Caller) :
    prog Node Heap Empty_set (Result Errno bytes) :=
  read_node n (λ data,
    match data with
    | DataFile v => Done (Ok (bytes_at v off size))
    | _ => Done (Err EISDIR)
    end).

Definition Mini : NodeFs Node unit unit Heap := {|
  SUPPORTS_POSIX_LOCKS := false;
  SUPPORTS_READDIRPLUS := false;
  fs_root := mini_root;
  fs_getattr := mini_getattr;
  fs_populate := default_populate;
  fs_init := default_init;
  fs_destroy := default_destroy;
  fs_setattr := default_setattr;
  fs_lookup := default_lookup;
  fs_readlink := default_readlink;
  fs_mknod := default_mknod;
  fs_mkdir := default_mkdir;
  fs_symlink := default_symlink;
  fs_unlink := mini_unlink;
  fs_rmdir := default_rmdir;
  fs_rename := default_rename;
  fs_link := default_link;
  fs_open := default_open;
  fs_read := mini_read;
  fs_write := default_write;
  fs_flush := default_flush;
  fs_release := default_release;
  fs_fsync := default_fsync;
  fs_opendir := default_opendir;
  fs_readdir := default_readdir;
  fs_readdirplus := default_readdirplus;
  fs_releasedir := default_releasedir;
  fs_fsyncdir := default_fsyncdir;
  fs_statfs := default_statfs;
  fs_setxattr := default_setxattr;
  fs_getxattr := default_getxattr;
  fs_listxattr := default_listxattr;
  fs_removexattr := default_removexattr;
  fs_access := default_access;
  fs_create := mini_create;
  fs_fallocate := default_fallocate;
  fs_lseek := default_lseek;
  fs_getlk := default_getlk;
  fs_setlk := default_setlk;
  fs_copy_file_range := default_copy_file_range;
|}.

Abbreviation MW := (World Node unit unit Heap unit).

Definition counts {N H D S K} (ino : Z) : M (World N H D S K) (option (Z * Z * Z * Z)) :=
  gets (λ w, (λ s, (slot_links s, slot_lookups s, slot_opens s, slot_leases s)) <$> tbl_map (sh_table (rt_shared (w_rt w))) !! ino).
Definition mini_create_file (name : OsString) : M MW (EntryReply * OpenReply) :=
  r ← create Mini 1 name 0 0 0 caller; unwrap r.

Definition lifetime_and_generation : M MW unit :=
  '(e, o) ← mini_create_file "f";
  c ← counts (er_ino e); _ ← assert_eq c (Some (1, 1, 1, 0));
  r ← unlink Mini 1 "f" caller; _ ← unwrap r;
  _ ← forget (er_ino e) 1;
  r ← release Mini (er_ino e) (or_fh o) caller; _ ← unwrap r;
  c ← counts (er_ino e); _ ← assert_eq c None;
  '(e2, _) ← mini_create_file "g";
  _ ← assert_eq (er_ino e2) (er_ino e);
  assert_eq (er_generation e2) 1.

Definition handles_are_bound_to_their_opening_node : M MW unit :=
  '(entry, open) ← mini_create_file "f";
  r ← getattr Mini 1 (Some (or_fh open)) caller; e ← unwrap_err r; _ ← assert_eq e EBADF;
  r ← release Mini 1 (or_fh open) caller; e ← unwrap_err r; _ ← assert_eq e EBADF;
  r ← release Mini (er_ino entry) (or_fh open) caller; unwrap r.

Definition node_lease_defers_reuse : M MW unit :=
  '(e, o) ← mini_create_file "f";
  r ← node (er_ino e); lease ← unwrap r;
  r ← unlink Mini 1 "f" caller; _ ← unwrap r;
  _ ← forget (er_ino e) 1;
  r ← release Mini (er_ino e) (or_fh o) caller; _ ← unwrap r;
  c ← counts (er_ino e); _ ← assert (bool_decide (is_Some c));
  _ ← on_shared (ref_drop (lr_key lease));
  c ← counts (er_ino e); assert (bool_decide (c = None)).

Example mini_tests_pass :
  forallb (passes Mini [] tt) [lifetime_and_generation; handles_are_bound_to_their_opening_node; node_lease_defers_reuse] = true.
Proof. vm_compute. reflexivity. Qed.
(** ** [PlusFs]

    The state is [child]. *)
Definition plus_populate : prog unit (option NodeId) Empty_set unit :=
  CxInsert tt ROOT (λ id, WriteState (Some id) (Done tt)).
Definition plus_getattr (node : unit) (handle : option unit) (caller : Caller) :
    prog unit (option NodeId) Empty_set (Result Errno NodeAttr) :=
  Done (Ok NodeAttr_default).
Definition plus_opendir (node : unit) (flags : Z) (caller : Caller) :
    prog unit (option NodeId) Empty_set (Result Errno (Opened unit)) :=
  Done (Ok (Opened_new tt)).
Definition plus_readdirplus (fail_after_emit : bool) (node : unit) (this parent : NodeId) (handle : unit) (offset : Z)
    (caller : Caller) : prog unit (option NodeId) PlusEntry (Result Errno unit) :=
  ReadState (λ child, match child with
    | None => Crash
    | Some id =>
        Emit (mkPlusEntry "ÿname" id NodeAttr_default 1) (λ added,
          if negb added then Done (Ok tt)
          else if fail_after_emit then Done (Err EIO) else Done (Ok tt))
    end).

Definition PlusFs (fail_after_emit : bool) : NodeFs unit unit unit (option NodeId) := {|
  SUPPORTS_POSIX_LOCKS := false;
  SUPPORTS_READDIRPLUS := true;
  fs_root := λ s, (tt, s);
  fs_getattr := plus_getattr;
  fs_populate := plus_populate;
  fs_init := default_init;
  fs_destroy := default_destroy;
  fs_setattr := default_setattr;
  fs_lookup := default_lookup;
  fs_readlink := default_readlink;
  fs_mknod := default_mknod;
  fs_mkdir := default_mkdir;
  fs_symlink := default_symlink;
  fs_unlink := default_unlink;
  fs_rmdir := default_rmdir;
  fs_rename := default_rename;
  fs_link := default_link;
  fs_open := default_open;
  fs_read := default_read;
  fs_write := default_write;
  fs_flush := default_flush;
  fs_release := default_release;
  fs_fsync := default_fsync;
  fs_opendir := plus_opendir;
  fs_readdir := default_readdir;
  fs_readdirplus := plus_readdirplus fail_after_emit;
  fs_releasedir := default_releasedir;
  fs_fsyncdir := default_fsyncdir;
  fs_statfs := default_statfs;
  fs_setxattr := default_setxattr;
  fs_getxattr := default_getxattr;
  fs_listxattr := default_listxattr;
  fs_removexattr := default_removexattr;
  fs_access := default_access;
  fs_create := default_create;
  fs_fallocate := default_fallocate;
  fs_lseek := default_lseek;
  fs_getlk := default_getlk;
  fs_setlk := default_setlk;
  fs_copy_file_range := default_copy_file_range;
|}.

(** [CollectPlus] *)
Definition collect_plus (accept : bool) (name : OsString) (e : EntryReply) (off : Z) (x : unit) : bool * unit := (accept, x).

Definition readdirplus_case (accept fail : bool) (expected : Z) : M (World unit unit unit (option NodeId) unit) unit :=
  child ← gets (λ w, rt_fs (w_rt w)); child ← expect child;
  r ← opendir (PlusFs fail) 1 0 caller; dir ← unwrap r;
  result ← readdirplus (PlusFs fail) (collect_plus accept) 1 (or_fh dir) 0 caller;
  _ ← assert_eq (is_ok result) (negb fail);
  c ← counts child; c ← expect c;
  assert_eq c.1.1.2 expected.
Definition readdirplus_retains_only_accepted_entries_and_rolls_back_errors : bool :=
  forallb (λ '(accept, fail, expected), passes (PlusFs fail) None tt (readdirplus_case accept fail expected))
    [(true, false, 1); (false, false, 0); (true, true, 0)].

Example plus_tests_pass : readdirplus_retains_only_accepted_entries_and_rolls_back_errors = true.
Proof. vm_compute. reflexivity. Qed.

(** ** [PanicOnce] *)
Definition panic_once_getattr (node : unit) (handle : option unit) (caller : Caller) :
    prog unit bool Empty_set (Result Errno NodeAttr) :=
  Critical (λ armed, Some (armed, false)) (λ armed, if armed then Crash else Done (Ok NodeAttr_default)).
Definition PanicOnce : NodeFs unit unit unit bool := default_NodeFs (λ s, (tt, s)) panic_once_getattr.

Definition panic_drops_node_lease_and_runtime_remains_usable : M (World unit unit unit bool unit) unit :=
  panicked ← catch_unwind (getattr PanicOnce 1 None caller); _ ← assert panicked;
  r ← getattr PanicOnce 1 None caller; _ ← assert (is_ok r);
  c ← counts 1; c ← expect c;
  assert_eq c.2 0.

Example panic_test_passes : passes PanicOnce true tt panic_drops_node_lease_and_runtime_remains_usable = true.
Proof. vm_compute. reflexivity. Qed.

(** ** Barriers *)

(** [std::sync::Barrier]: how many threads it is for, how many have arrived,
    and how often it has been passed. *)
Record Barrier := mkBarrier { b_threads : nat; b_count : nat; b_generation : nat }.
Definition Barrier_new (n : nat) : Barrier := mkBarrier n 0 0.
(** The last to arrive goes on ([None]), the others wait for the generation to
    pass. *)
Definition arrive (b : Barrier) : option nat * Barrier :=
  if Nat.ltb (S (b_count b)) (b_threads b)
  then (Some (b_generation b), mkBarrier (b_threads b) (S (b_count b)) (b_generation b))
  else (None, mkBarrier (b_threads b) 0 (S (b_generation b))).
Definition passed (generation : nat) (b : Barrier) : bool := negb (Nat.eqb (b_generation b) generation).

(** [Barrier::wait], of the barrier that [get] finds. *)
Definition wait {N S E A} (get : S → Barrier) (set : Barrier → S → S) (k : prog N S E A) : prog N S E A :=
  Critical (λ s, let '(w, b) := arrive (get s) in Some (w, set b s)) (λ w,
    match w with
    | None => k
    | Some generation => Critical (λ s, if passed generation (get s) then Some (tt, s) else None) (λ _, k)
    end).

(** ** [Overlap] *)
Definition overlap_getattr (node : unit) (handle : option unit) (caller : Caller) :
    prog unit Barrier Empty_set (Result Errno NodeAttr) :=
  wait (λ b, b) (λ b _, b) (Done (Ok NodeAttr_default)).
Definition Overlap : NodeFs unit unit unit Barrier := default_NodeFs (λ s, (tt, s)) overlap_getattr.

(** Each callback waits for the other: neither would return alone. *)
Definition callbacks_really_overlap : bool :=
  let start := pool_new (Runtime_start Overlap (Barrier_new 2)) in
  let p := rounds Overlap [1; 2]%nat 12%nat (issue Overlap 2 (ReqGetattr 1 None caller) tt (issue Overlap 1 (ReqGetattr 1 None caller) tt start)) in
  forallb (λ k, match reply_of k p with Some (Some (RepAttr (Ok _))) => true | _ => false end) [1; 2]%nat.

Example overlap_test_passes : callbacks_really_overlap = true.
Proof. vm_compute. reflexivity. Qed.

(** ** [HandleOverlap]

    A handle is a pair of [Arc]s to the filesystem's own barriers. *)
Record HandleOverlapState := mkHandleOverlap { ho_entered : Barrier; ho_finish : Barrier; ho_releases : nat }.
Inductive BlockingHandle := ClonedBarriers.
Definition set_entered (b : Barrier) (s : HandleOverlapState) := mkHandleOverlap b (ho_finish s) (ho_releases s).
Definition set_finish (b : Barrier) (s : HandleOverlapState) := mkHandleOverlap (ho_entered s) b (ho_releases s).

Abbreviation ho_prog A := (prog unit HandleOverlapState Empty_set (Result Errno A)).
Definition overlap_handle_getattr (node : unit) (handle : option BlockingHandle) (caller : Caller) : ho_prog NodeAttr :=
  Done (Ok NodeAttr_default).
Definition overlap_handle_open (node : unit) (flags : Z) (caller : Caller) : ho_prog (Opened BlockingHandle) :=
  Done (Ok (Opened_new ClonedBarriers)).
Definition overlap_handle_read (node : unit) (h : BlockingHandle) (off size : Z) (caller : Caller) : ho_prog bytes :=
  wait ho_entered set_entered (wait ho_finish set_finish (Done (Ok []))).
Definition overlap_handle_release (node : unit) (h : BlockingHandle) (caller : Caller) : ho_prog unit :=
  Critical (λ s, Some (tt, mkHandleOverlap (ho_entered s) (ho_finish s) (S (ho_releases s)))) (λ _, Done (Ok tt)).

Definition HandleOverlap : NodeFs unit BlockingHandle unit HandleOverlapState := {|
  SUPPORTS_POSIX_LOCKS := false;
  SUPPORTS_READDIRPLUS := false;
  fs_root := λ s, (tt, s);
  fs_getattr := overlap_handle_getattr;
  fs_populate := default_populate;
  fs_init := default_init;
  fs_destroy := default_destroy;
  fs_setattr := default_setattr;
  fs_lookup := default_lookup;
  fs_readlink := default_readlink;
  fs_mknod := default_mknod;
  fs_mkdir := default_mkdir;
  fs_symlink := default_symlink;
  fs_unlink := default_unlink;
  fs_rmdir := default_rmdir;
  fs_rename := default_rename;
  fs_link := default_link;
  fs_open := overlap_handle_open;
  fs_read := overlap_handle_read;
  fs_write := default_write;
  fs_flush := default_flush;
  fs_release := overlap_handle_release;
  fs_fsync := default_fsync;
  fs_opendir := default_opendir;
  fs_readdir := default_readdir;
  fs_readdirplus := default_readdirplus;
  fs_releasedir := default_releasedir;
  fs_fsyncdir := default_fsyncdir;
  fs_statfs := default_statfs;
  fs_setxattr := default_setxattr;
  fs_getxattr := default_getxattr;
  fs_listxattr := default_listxattr;
  fs_removexattr := default_removexattr;
  fs_access := default_access;
  fs_create := default_create;
  fs_fallocate := default_fallocate;
  fs_lseek := default_lseek;
  fs_getlk := default_getlk;
  fs_setlk := default_setlk;
  fs_copy_file_range := default_copy_file_range;
|}.

Abbreviation HPool := (pool (N := unit) (H := BlockingHandle) (D := unit) (S := HandleOverlapState) (K := unit)).
Definition ho_state (p : HPool) : HandleOverlapState := rt_fs (p_rt p).
(** The main thread arrives at a barrier, the last to do so. *)
Definition main_arrives (get : HandleOverlapState → Barrier) (set : Barrier → HandleOverlapState → HandleOverlapState)
    (p : HPool) : option HPool :=
  let s := ho_state p in
  match arrive (get s) with
  | (None, b) => Some (mkPool (with_fs (set b s) (p_rt p)) (p_arcs p) (p_threads p) (p_account p) (p_replies p))
  | _ => None
  end.

(** Thread 1 reads, thread 2 releases, the barriers are the main thread's. *)
Definition release_waits_for_same_handle_callback_and_consumes_once : bool :=
  let serve := rounds HandleOverlap in
  let start := pool_new (Runtime_start HandleOverlap (mkHandleOverlap (Barrier_new 2) (Barrier_new 2) 0)) in
  let p := serve [0]%nat 20%nat (issue HandleOverlap 0 (ReqOpen 1 0 caller) tt start) in
  match reply_of 0 p with
  | Some (Some (RepOpen (Ok open))) =>
      let p := serve [1]%nat 20%nat (issue HandleOverlap 1 (ReqRead 1 (or_fh open) 0 1 caller) tt p) in
      match main_arrives ho_entered set_entered p with
      | Some p =>
          let p := serve [1; 2]%nat 20%nat (issue HandleOverlap 2 (ReqRelease 1 (or_fh open) caller) tt p) in
          bool_decide (reply_of 2 p = None) &&
          match main_arrives ho_finish set_finish p with
          | Some p =>
              let p := serve [1; 2]%nat 20%nat p in
              let p := serve [3]%nat 20%nat (issue HandleOverlap 3 (ReqRelease 1 (or_fh open) caller) tt p) in
              match reply_of 1 p, reply_of 2 p, reply_of 3 p with
              | Some (Some (RepData (Ok _))), Some (Some (RepUnit (Ok _))), Some (Some (RepUnit (Err e))) =>
                  Nat.eqb (ho_releases (ho_state p)) 1 && bool_decide (e = EBADF)
              | _, _, _ => false
              end
          | None => false
          end
      | None => false
      end
  | _ => false
  end.

Example release_test_passes : release_waits_for_same_handle_callback_and_consumes_once = true.
Proof. vm_compute. reflexivity. Qed.
End tests.
