(* ===== verification/Ffi.v ===== *)
(** * Wrappers of the raw libfuse structures ([fuse3/src/ffi.rs])

    The accessors of [fuse_file_info] and [fuse_conn_info], and the directory
    buffer that the runtime fills through its sinks. libfuse's own entry
    encoders are a parameter, class [Direntries]. *)

From S2P Require Import Prelude Types Conv NodeFs Runtime.

(** ** Data of libfuse *)

(** The fields of [fuse_file_info] the code reads or writes. *)
Record fuse_file_info := mkFileInfo {
  fi_flags_ : Z; fi_fh_ : Z; fi_lock_owner : Z;
  fi_direct_io : Z; fi_keep_cache : Z; fi_nonseekable : Z; fi_cache_readdir : Z;
  fi_parallel_direct_writes : Z;
}.

(** The fields of [fuse_conn_info] the code reads or writes. *)
Record fuse_conn_info := mkFuseConn {
  fc_proto_major : Z; fc_proto_minor : Z; fc_max_write : Z; fc_max_readahead : Z;
  fc_capable : Z; fc_want : Z;
}.

(** [fuse_add_direntry] and [fuse_add_direntry_plus]: called on a memory area,
    empty for a null pointer, they return the size the entry needs, and the
    area afterwards. *)
Class Direntries := {
  raw_add_direntry : bytes → OsString → option stat → Z → Z * bytes;
  raw_add_direntry_plus : bytes → OsString → fuse_entry_param → Z → Z * bytes;
}.

(** What libfuse documents: the size depends on the name alone; an area that
    is large enough receives the entry at its start; one that is too small is
    left alone. *)
Class DirentriesOk `{Direntries} := {
  direntry_size : OsString → nat;
  direntry_bytes : OsString → option stat → Z → bytes;
  direntry_plus_size : OsString → nat;
  direntry_plus_bytes : OsString → fuse_entry_param → Z → bytes;
  direntry_length name st off : length (direntry_bytes name st off) = direntry_size name;
  direntry_plus_length name e off : length (direntry_plus_bytes name e off) = direntry_plus_size name;
  raw_add_direntry_spec area name st off :
    raw_add_direntry area name st off =
      (Z.of_nat (direntry_size name),
       if decide (direntry_size name ≤ length area)%nat
       then direntry_bytes name st off ++ drop (direntry_size name) area else area);
  raw_add_direntry_plus_spec area name e off :
    raw_add_direntry_plus area name e off =
      (Z.of_nat (direntry_plus_size name),
       if decide (direntry_plus_size name ≤ length area)%nat
       then direntry_plus_bytes name e off ++ drop (direntry_plus_size name) area else area);
}.

(** A kernel that reads a [readdirplus] buffer finds the entries that were put
    into it: their names, inodes and generations. *)
Class PlusReader `{DirentriesOk} := {
  read_plus : bytes → list (OsString * Z * Z);
  read_plus_spec (es : list (OsString * fuse_entry_param * Z)) :
    read_plus (concat ((λ e, direntry_plus_bytes e.1.1 e.1.2 e.2) <$> es)) =
      (λ e, (e.1.1, ep_ino e.1.2, ep_generation e.1.2)) <$> es;
}.

(** [CString::new] fails on a string with an interior NUL. *)
Definition cstring_new (s : string) : option string :=
  if bool_decide (Ascii.zero ∈ String.list_ascii_of_string s) then None else Some s.

(** [resize(len, 0)] on a longer length. *)
Definition zeros (n : nat) : bytes := replicate n 0.

(** ** [fuse_file_info]; a null pointer is [None] *)

Definition fi_fh (fi : option fuse_file_info) : Z :=
  match fi with None => 0 | Some fi => fi_fh_ fi end.

Definition fi_fh_opt (fi : option fuse_file_info) : option Z :=
  match fi with None => None | Some fi => Some (fi_fh_ fi) end.

Definition fi_flags (fi : option fuse_file_info) : Z :=
  match fi with None => 0 | Some fi => fi_flags_ fi end.

Definition bool_to_u32 (b : bool) : Z := if b then 1 else 0.

(** With [cfg(has_parallel_direct_writes)]. *)
Definition apply_open (fi : option fuse_file_info) (fh : Z) (hints : OpenHints) : option fuse_file_info :=
  match fi with
  | None => None
  | Some fi => Some {|
      fi_flags_ := fi_flags_ fi;
      fi_fh_ := fh;
      fi_lock_owner := fi_lock_owner fi;
      fi_direct_io := bool_to_u32 (direct_io hints);
      fi_keep_cache := bool_to_u32 (keep_cache hints);
      fi_nonseekable := bool_to_u32 (nonseekable hints);
      fi_cache_readdir := bool_to_u32 (cache_readdir hints);
      fi_parallel_direct_writes := bool_to_u32 (direct_io hints && parallel_direct_writes hints);
    |}
  end.

(** ** [fuse_conn_info] *)

Definition conn_read (conn : fuse_conn_info) : ConnInfo :=
  conn_from_raw (fc_proto_major conn) (fc_proto_minor conn) (fc_max_write conn)
    (fc_max_readahead conn) (fc_capable conn) (fc_want conn).

Definition conn_apply (conn : fuse_conn_info) (info : ConnInfo) : fuse_conn_info := {|
  fc_proto_major := fc_proto_major conn;
  fc_proto_minor := fc_proto_minor conn;
  fc_max_write := max_write info;
  fc_max_readahead := max_readahead info;
  fc_capable := fc_capable conn;
  fc_want := want_bits info;
|}.

(** ** [DirBuffer] *)

Inductive Format := Plain | Plus.

Record DirBuffer := mkDirBuffer {
  db_capacity : Z; db_buf : bytes; db_format : Format; db_ttl : Duration }.

Definition DirBuffer_new (size : Z) : DirBuffer := mkDirBuffer size [] Plain 0.
Definition DirBuffer_new_plus (size : Z) (ttl : Duration) : DirBuffer := mkDirBuffer size [] Plus ttl.
Definition as_slice (self : DirBuffer) : bytes := db_buf self.
Definition with_buf (buf : bytes) (self : DirBuffer) : DirBuffer :=
  mkDirBuffer (db_capacity self) buf (db_format self) (db_ttl self).

Section dir_buffer.
Context `{Libc, Direntries}.

(** [DirSink::add]; [None] is the panic of [unreachable!]. The second call of
    the encoder gets the freshly zeroed end of the buffer. *)
Definition DirSink_add (name : OsString) (id : NodeId) (kind : FileKind) (next_offset : Z)
    (self : DirBuffer) : option (bool * DirBuffer) :=
  match cstring_new name with
  | None => Some (true, self)
  | Some cname =>
      let st := mkStat id (kind_to_mode_bits kind) 0 0 0 0 0 0 0 (0, 0) (0, 0) (0, 0) in
      match db_format self with
      | Plain =>
          let entry_size := (raw_add_direntry [] cname None 0).1 in
          if db_capacity self <? Z.of_nat (length (db_buf self)) + entry_size then Some (false, self)
          else
            let area := zeros (Z.to_nat entry_size) in
            let area := (raw_add_direntry area cname (Some st) (as_i64 next_offset)).2 in
            Some (true, with_buf (db_buf self ++ area) self)
      | Plus => None
      end
  end.

(** [RuntimePlusSink::add]. *)
Definition RuntimePlusSink_add (name : OsString) (entry : EntryReply) (next_offset : Z)
    (self : DirBuffer) : bool * DirBuffer :=
  match cstring_new name with
  | None => (true, self)
  | Some cname =>
      let param := entry_to_entry_param (er_ino entry) (er_generation entry) (er_attr entry) (db_ttl self) in
      let entry_size := (raw_add_direntry_plus [] cname param 0).1 in
      if db_capacity self <? Z.of_nat (length (db_buf self)) + entry_size then (false, self)
      else
        let area := zeros (Z.to_nat entry_size) in
        let area := (raw_add_direntry_plus area cname param (as_i64 next_offset)).2 in
        (true, with_buf (db_buf self ++ area) self)
  end.
End dir_buffer.

(** ** Filling a buffer

    [offer add es b] is a filesystem listing [es]: it pushes entries until the
    sink refuses one. The result is the entries accepted and the buffer. *)
Section offer.
Context {E : Type} (add : E → DirBuffer → bool * DirBuffer) (encode : DirBuffer → E → bytes).

Fixpoint offer (es : list E) (b : DirBuffer) : list E * DirBuffer :=
  match es with
  | [] => ([], b)
  | e :: es =>
      let '(accepted, b') := add e b in
      if accepted : bool then let '(l, b'') := offer es b' in (e :: l, b'') else ([], b')
  end.

(** An entry that fits is appended; one that does not leaves the buffer as it is. *)
Definition appends_or_refuses (fmt : Format) : Prop := ∀ e b,
  db_format b = fmt → Z.of_nat (length (db_buf b)) ≤ db_capacity b →
  add e b = if decide (Z.of_nat (length (db_buf b ++ encode b e)) ≤ db_capacity b)
            then (true, with_buf (db_buf b ++ encode b e) b) else (false, b).

Definition same_settings (b b' : DirBuffer) : Prop :=
  db_capacity b' = db_capacity b ∧ db_format b' = db_format b ∧ db_ttl b' = db_ttl b.

Lemma offer_spec fmt es : ∀ b accepted b',
  appends_or_refuses fmt → (∀ b b', same_settings b b' → encode b' = encode b) →
  db_format b = fmt → Z.of_nat (length (db_buf b)) ≤ db_capacity b →
  offer es b = (accepted, b') →
  same_settings b b' ∧
  db_buf b' = db_buf b ++ concat (encode b <$> accepted) ∧
  Z.of_nat (length (db_buf b')) ≤ db_capacity b' ∧
  (accepted = es ∨ ∃ e rest, es = accepted ++ e :: rest ∧
     db_capacity b' < Z.of_nat (length (db_buf b' ++ encode b e))).
Proof.
  induction es as [|e es IH]; intros b accepted b' Hadd Hsame Hfmt Hb Ho; simpl in Ho.
  - injection Ho as <- <-. rewrite app_nil_r. unfold same_settings. naive_solver.
  - rewrite (Hadd e b Hfmt Hb) in Ho. case_decide as Hfit; cycle 1.
    { injection Ho as <- <-. rewrite app_nil_r. unfold same_settings.
      split_and!; try done. right. exists e, es. split; [done|lia]. }
    destruct (offer es _) as [l b''] eqn:Hrec. injection Ho as <- <-.
    destruct (IH (with_buf (db_buf b ++ encode b e) b) l b'' Hadd Hsame Hfmt Hfit Hrec) as (Hset & Hbuf & Hcap & Hrest).
    rewrite (Hsame b (with_buf (db_buf b ++ encode b e) b)) in Hbuf, Hrest by done.
    split_and!; [done| |done|].
    + rewrite Hbuf. simpl. by rewrite <- app_assoc.
    + destruct Hrest as [->|(e' & rest & -> & ?)]; [by left|right; by exists e', rest].
Qed.
End offer.

Section buffers.
Context `{Libc, Hd : Direntries, Hok : !DirentriesOk}.

(** The bytes of an entry; a name with an interior NUL has none. *)
Definition plain_encode (b : DirBuffer) (e : DirEntry) : bytes :=
  match cstring_new (de_name e) with
  | None => []
  | Some cname =>
      direntry_bytes cname
        (Some (mkStat (de_id e) (kind_to_mode_bits (de_kind e)) 0 0 0 0 0 0 0 (0, 0) (0, 0) (0, 0)))
        (as_i64 (de_next_offset e))
  end.

Definition plus_encode (b : DirBuffer) (e : OsString * EntryReply * Z) : bytes :=
  let '(name, entry, next_offset) := e in
  match cstring_new name with
  | None => []
  | Some cname =>
      direntry_plus_bytes cname
        (entry_to_entry_param (er_ino entry) (er_generation entry) (er_attr entry) (db_ttl b))
        (as_i64 next_offset)
  end.

(** The two sinks as the runtime uses them. *)
Definition plain_sink (e : DirEntry) (b : DirBuffer) : bool * DirBuffer :=
  match DirSink_add (de_name e) (de_id e) (de_kind e) (de_next_offset e) b with
  | Some r => r
  | None => (false, b)
  end.
Definition plus_sink (e : OsString * EntryReply * Z) (b : DirBuffer) : bool * DirBuffer :=
  let '(name, entry, next_offset) := e in RuntimePlusSink_add name entry next_offset b.

Lemma zeros_length n : length (zeros n) = n.
Proof. apply length_replicate. Qed.

Lemma with_buf_id b : with_buf (db_buf b) b = b.
Proof. by destruct b. Qed.

Lemma plain_sink_spec : appends_or_refuses plain_sink plain_encode Plain.
Proof.
  intros e b Hfmt Hb. unfold plain_sink, plain_encode, DirSink_add.
  destruct (cstring_new _) as [cname|]; cycle 1.
  { rewrite app_nil_r, with_buf_id. by rewrite decide_True. }
  rewrite Hfmt, !raw_add_direntry_spec. simpl.
  rewrite Nat2Z.id, zeros_length, decide_True by done.
  rewrite drop_ge by (by rewrite zeros_length). rewrite app_nil_r, length_app, direntry_length.
  case_decide; destruct (Z.ltb_spec (db_capacity b)
    (Z.of_nat (length (db_buf b)) + Z.of_nat (direntry_size cname))); try lia; done.
Qed.

Lemma plus_sink_spec fmt : appends_or_refuses plus_sink plus_encode fmt.
Proof.
  intros [[name entry] off] b _ Hb. unfold plus_sink, plus_encode, RuntimePlusSink_add.
  destruct (cstring_new _) as [cname|]; cycle 1.
  { rewrite app_nil_r, with_buf_id. by rewrite decide_True. }
  rewrite !raw_add_direntry_plus_spec. simpl.
  rewrite Nat2Z.id, zeros_length, decide_True by done.
  rewrite drop_ge by (by rewrite zeros_length). rewrite app_nil_r, length_app, direntry_plus_length.
  case_decide; destruct (Z.ltb_spec (db_capacity b)
    (Z.of_nat (length (db_buf b)) + Z.of_nat (direntry_plus_size cname))); try lia; done.
Qed.

(** [DirSink::add] panics only on a buffer for [readdirplus], which [readdir]
    never has. *)
Lemma plain_sink_total e b : db_format b = Plain →
  ∃ r, DirSink_add (de_name e) (de_id e) (de_kind e) (de_next_offset e) b = Some r.
Proof. intros Hf. unfold DirSink_add. rewrite Hf. repeat case_match; eauto. Qed.

(** C29: a [readdir] or [readdirplus] buffer of size [size] ends up holding
    exactly the encodings of the entries it accepted, in order, and never more
    than [size] bytes; the entries accepted are all of them, or those before
    the first one that no longer fits (a name with an interior NUL takes no
    space). *)
Theorem listing_fills_buffer (size : Z) (ttl : Duration) plain_entries plus_entries :
  0 ≤ size →
  (let '(accepted, b) := offer plain_sink plain_entries (DirBuffer_new size) in
   as_slice b = concat (plain_encode (DirBuffer_new size) <$> accepted) ∧
   Z.of_nat (length (as_slice b)) ≤ size ∧
   (accepted = plain_entries ∨ ∃ e rest, plain_entries = accepted ++ e :: rest ∧
      size < Z.of_nat (length (as_slice b ++ plain_encode (DirBuffer_new size) e)))) ∧
  (let '(accepted, b) := offer plus_sink plus_entries (DirBuffer_new_plus size ttl) in
   as_slice b = concat (plus_encode (DirBuffer_new_plus size ttl) <$> accepted) ∧
   Z.of_nat (length (as_slice b)) ≤ size ∧
   (accepted = plus_entries ∨ ∃ e rest, plus_entries = accepted ++ e :: rest ∧
      size < Z.of_nat (length (as_slice b ++ plus_encode (DirBuffer_new_plus size ttl) e)))).
Proof.
  intros Hsize. split.
  - destruct (offer _ _ _) as [accepted b] eqn:Ho.
    eapply offer_spec in Ho as ((Hc & _ & _) & Hbuf & Hcap & Hrest);
      [|apply plain_sink_spec|done|done|done].
    unfold as_slice. rewrite Hc in *. by split_and!.
  - destruct (offer _ _ _) as [accepted b] eqn:Ho.
    eapply offer_spec with (fmt := Plus) in Ho as ((Hc & _ & _) & Hbuf & Hcap & Hrest);
      [|apply plus_sink_spec| |done|done].
    + unfold as_slice. rewrite Hc in *. by split_and!.
    + intros b1 b2 (_ & _ & Httl). unfold plus_encode. by rewrite Httl.
Qed.
End buffers.

(** A sample encoder: the offset, the inode, and the name; for [readdirplus]
    the generation as well, and the length of the name before it. *)
Definition name_bytes (name : OsString) : bytes :=
  (λ c, Z.of_nat (Ascii.nat_of_ascii c)) <$> String.list_ascii_of_string name.
Definition bytes_name (l : bytes) : OsString :=
  String.string_of_list_ascii ((λ c, Ascii.ascii_of_nat (Z.to_nat c)) <$> l).
Definition sample_bytes (name : OsString) (ino off : Z) : bytes := off :: ino :: name_bytes name.
Definition sample_size (name : OsString) : nat := 2 + length (name_bytes name).
Definition sample_plus_bytes (name : OsString) (e : fuse_entry_param) (off : Z) : bytes :=
  off :: ep_ino e :: ep_generation e :: Z.of_nat (length (name_bytes name)) :: name_bytes name.
Definition sample_plus_size (name : OsString) : nat := 4 + length (name_bytes name).
Definition sample_write (area entry : bytes) : Z * bytes :=
  (Z.of_nat (length entry),
   if decide (length entry ≤ length area)%nat then entry ++ drop (length entry) area else area).

Definition sample_direntries : Direntries := {|
  raw_add_direntry area name st off :=
    sample_write area (sample_bytes name (match st with Some st => st_ino st | None => 0 end) off);
  raw_add_direntry_plus area name e off := sample_write area (sample_plus_bytes name e off);
|}.

Definition sample_direntries_ok : @DirentriesOk sample_direntries :=
  @Build_DirentriesOk sample_direntries sample_size
    (λ name st off, sample_bytes name (match st with Some st => st_ino st | None => 0 end) off)
    sample_plus_size sample_plus_bytes
    (λ name _ off, eq_refl) (λ name _ off, eq_refl) (λ area name _ off, eq_refl) (λ area name _ off, eq_refl).

(** Each entry takes four bytes and more. *)
Fixpoint sample_read (fuel : nat) (l : bytes) : list (OsString * Z * Z) :=
  match fuel, l with
  | S fuel, _ :: ino :: gen :: len :: l =>
      (bytes_name (take (Z.to_nat len) l), ino, gen) :: sample_read fuel (drop (Z.to_nat len) l)
  | _, _ => []
  end.

Lemma bytes_name_bytes name : bytes_name (name_bytes name) = name.
Proof.
  unfold bytes_name, name_bytes. rewrite <- list_fmap_compose.
  rewrite <- (String.string_of_list_ascii_of_string name) at 2. f_equal.
  induction (String.list_ascii_of_string name) as [|c l IH]; simpl; [done|].
  rewrite Nat2Z.id, Ascii.ascii_nat_embedding. by f_equal.
Qed.

Lemma sample_read_spec es : ∀ fuel,
  (length (concat ((λ e : OsString * fuse_entry_param * Z, sample_plus_bytes e.1.1 e.1.2 e.2) <$> es)) ≤ fuel)%nat →
  sample_read fuel (concat ((λ e, sample_plus_bytes e.1.1 e.1.2 e.2) <$> es)) =
    (λ e, (e.1.1, ep_ino e.1.2, ep_generation e.1.2)) <$> es.
Proof.
  induction es as [|[[name e] off] es IH]; intros fuel Hf; [by destruct fuel|].
  rewrite !fmap_cons in *. cbn [List.concat fst snd] in *. rewrite length_app in Hf.
  unfold sample_plus_bytes at 1 in Hf. unfold sample_plus_bytes at 1. cbn [app] in *. simpl length in Hf.
  destruct fuel as [|fuel]; [lia|]. cbn [sample_read].
  rewrite Nat2Z.id, take_app_length, drop_app_length, bytes_name_bytes, IH by lia. done.
Qed.

Definition sample_reader : @PlusReader sample_direntries sample_direntries_ok :=
  @Build_PlusReader sample_direntries sample_direntries_ok (λ l, sample_read (length l) l)
    (λ es, sample_read_spec es _ (le_n _)).

Definition sample_listing : list DirEntry :=
  [mkDirEntry "." 1 Directory 1; mkDirEntry "hello" 7 RegularFile 2; mkDirEntry "x" 8 RegularFile 3].

Lemma listing_fills_buffer_witness :
  0 ≤ 10 ∧
  (offer (@plain_sink linux_libc sample_direntries) sample_listing (DirBuffer_new 10)).1 = take 2 sample_listing ∧
  Z.of_nat (length (as_slice (offer (@plain_sink linux_libc sample_direntries) sample_listing (DirBuffer_new 10)).2)) ≤ 10.
Proof.
  split; [lia|]. split; [vm_compute; reflexivity|].
  pose proof (@listing_fills_buffer linux_libc sample_direntries sample_direntries_ok 10 0
    sample_listing [] ltac:(lia)) as [Hp _].
  destruct (offer _ _ _) as [l b]. apply Hp.
Defined.
