(* ===== verification/Session.v ===== *)
(** * The session's callbacks ([fuse3/src/session.rs], lines 135 to 981)

    Every trampoline of the [fuse_lowlevel_ops] table: it decodes the C
    arguments, runs the runtime under [catch_unwind], and answers the kernel.
    libfuse's reply functions are recorded in a log. *)

From S2P Require Import Prelude Types Conv FileLocks NodeTable NodeFs Runtime Ffi.

(** ** Requests and replies of libfuse *)

(** [fuse_ctx]. *)
Record fuse_ctx := mkCtx { ctx_uid : Z; ctx_gid : Z; ctx_pid : Z; ctx_umask : Z }.

(** A call of a reply function, with what it sends. *)
Inductive reply_event :=
| ReplyErr (code : Z)
| ReplyNone
| ReplyEntry (e : fuse_entry_param)
| ReplyAttr (st : stat) (timeout : Duration)
| ReplyReadlink (target : string)
| ReplyOpen (fi : option fuse_file_info)
| ReplyCreate (e : fuse_entry_param) (fi : option fuse_file_info)
| ReplyBuf (data : bytes)
| ReplyWrite (count : Z)
| ReplyStatfs (st : statvfs)
| ReplyXattr (size : Z)
| ReplyLock (lock : flock)
| ReplyLseek (off : Z).

(** A request in flight: the caller's credentials, and what a reply function
    called for it returns (not 0 when the kernel did not take the reply). *)
Record fuse_req := mkReq { req_ctx : fuse_ctx; req_send : reply_event → Z }.

(** What the callbacks share with libfuse besides the runtime: the directory
    buffer of the current request and the log of the replies, latest last. *)
Record Link := mkLink { ln_buf : DirBuffer; ln_log : list reply_event }.

Definition caller_of (req : fuse_req) : Caller := {|
  caller_uid := as_u32 (ctx_uid (req_ctx req));
  caller_gid := as_u32 (ctx_gid (req_ctx req));
  caller_pid := as_u32 (ctx_pid (req_ctx req));
  caller_umask := as_u32 (ctx_umask (req_ctx req));
|}.

(** A C string is the text before its NUL. *)
Definition c_os_str (ptr : string) : OsString := ptr.

(** [fuse_forget_data]. *)
Record fuse_forget_data := mkForget { fg_ino : Z; fg_nlookup : Z }.

Definition fi_owner (fi : option fuse_file_info) : Z :=
  match fi with None => 0 | Some fi => fi_lock_owner fi end.

Definition lock_from_raw `{Libc} (raw : flock) : Result Errno FileLock :=
  let owned := mkFlock (l_type raw) (l_whence raw) (l_start raw) (l_len raw) (l_pid raw) in
  from_flock owned.

Definition lock_to_raw `{Libc} (lock : FileLock) : Result Errno flock :=
  Result_bind (to_flock lock) (λ owned,
    Ok (mkFlock (l_type owned) (l_whence owned) (l_start owned) (l_len owned) (l_pid owned))).

(** ** The operation table

    A call of libfuse into the table, with its C arguments; [init] and [destroy]
    carry no request. *)
Inductive callback :=
| CbLookup (parent : Z) (name : string)
| CbForget (ino nlookup : Z)
| CbForgetMulti (forgets : list fuse_forget_data)
| CbGetattr (ino : Z) (fi : option fuse_file_info)
| CbSetattr (ino : Z) (attr : option stat) (to_set : Z) (fi : option fuse_file_info)
| CbReadlink (ino : Z)
| CbMknod (parent : Z) (name : string) (mode rdev : Z)
| CbMkdir (parent : Z) (name : string) (mode : Z)
| CbUnlink (parent : Z) (name : string)
| CbRmdir (parent : Z) (name : string)
| CbSymlink (link : string) (parent : Z) (name : string)
| CbRename (parent : Z) (name : string) (newparent : Z) (newname : string) (flags : Z)
| CbLink (ino newparent : Z) (newname : string)
| CbOpen (ino : Z) (fi : option fuse_file_info)
| CbRead (ino size off : Z) (fi : option fuse_file_info)
| CbWrite (ino : Z) (data : bytes) (off : Z) (fi : option fuse_file_info)
| CbFlush (ino : Z) (fi : option fuse_file_info)
| CbRelease (ino : Z) (fi : option fuse_file_info)
| CbFsync (ino datasync : Z) (fi : option fuse_file_info)
| CbOpendir (ino : Z) (fi : option fuse_file_info)
| CbReaddir (ino size off : Z) (fi : option fuse_file_info)
| CbReaddirplus (ino size off : Z) (fi : option fuse_file_info)
| CbReleasedir (ino : Z) (fi : option fuse_file_info)
| CbFsyncdir (ino datasync : Z) (fi : option fuse_file_info)
| CbStatfs (ino : Z)
| CbSetxattr (ino : Z) (name : string) (value : bytes) (flags : Z)
| CbGetxattr (ino : Z) (name : string) (size : Z)
| CbListxattr (ino size : Z)
| CbRemovexattr (ino : Z) (name : string)
| CbAccess (ino mask : Z)
| CbCreate (parent : Z) (name : string) (mode : Z) (fi : option fuse_file_info)
| CbFallocate (ino mode offset length : Z) (fi : option fuse_file_info)
| CbLseek (ino off whence : Z) (fi : option fuse_file_info)
| CbGetlk (ino : Z) (fi : option fuse_file_info) (raw : flock)
| CbSetlk (ino : Z) (fi : option fuse_file_info) (raw : flock) (sleep : Z)
| CbCopyFileRange (ino_in off_in : Z) (fi_in : option fuse_file_info) (ino_out off_out : Z) (fi_out : option fuse_file_info) (len flags : Z).

Section session.
Context {N H D S : Type} `{Libc, FuseSys, Direntries}.
Abbreviation W := (World N H D S Link).
Context (fs : NodeFs N H D S).

Definition ttl : M W Duration := gets (λ w, rt_ttl (w_rt w)).
Definition negative_ttl : M W Duration := gets (λ w, rt_negative_ttl (w_rt w)).

(** Calling one of libfuse's reply functions. *)
Definition send (req : fuse_req) (ev : reply_event) : M W Z :=
  on_sink (λ l, (req_send req ev, mkLink (ln_buf l) (ln_log l ++ [ev]))).

(** The request's [DirBuffer]. *)
Definition new_buffer (b : DirBuffer) : M W unit := on_sink (λ l, (tt, mkLink b (ln_log l))).
Definition buffer : M W bytes := gets (λ w, as_slice (ln_buf (w_sink w))).
Definition on_buffer {A} (f : DirBuffer → A * DirBuffer) (l : Link) : A * Link :=
  let '(a, b) := f (ln_buf l) in (a, mkLink b (ln_log l)).

(** ** Helpers *)

Definition catch_unwind {A} (f : M W (Result Errno A)) : M W (Result Errno A) := λ w,
  match f w with
  | (Panicked, w) => (Returned (Err EIO), w)
  | r => r
  end.

(** [None] when the callback panicked. *)
Definition catch_unwind_unit {A} (f : M W A) : M W (option A) := λ w,
  match f w with
  | (Returned a, w) => (Returned (Some a), w)
  | (Panicked, w) => (Returned None, w)
  | (Blocked, w) => (Blocked, w)
  end.

Definition call_fs {A} (req : fuse_req) (f : Caller → M W (Result Errno A)) : M W (Result Errno A) :=
  let caller := caller_of req in
  catch_unwind (f caller).

Definition reply_err (req : fuse_req) (errno : Errno) : M W unit := send req (ReplyErr (raw errno));; mret tt.
Definition reply_ok (req : fuse_req) : M W unit := send req (ReplyErr 0);; mret tt.

Definition reply_entry (req : fuse_req) (entry : EntryReply) (ttl : Duration) : M W unit :=
  let param := entry_to_entry_param (er_ino entry) (er_generation entry) (er_attr entry) ttl in
  send req (ReplyEntry param);; mret tt.

Definition reply_negative (req : fuse_req) (ttl : Duration) : M W unit :=
  let param := negative_entry_param ttl in
  send req (ReplyEntry param);; mret tt.

Definition reply_attr (req : fuse_req) (ino : Z) (attr : NodeAttr) (ttl : Duration) : M W unit :=
  let st := attr_to_stat ino attr in
  send req (ReplyAttr st ttl);; mret tt.

Definition reply_dir_buf (req : fuse_req) (data : bytes) : M W Z :=
  match data with
  | [] => send req (ReplyBuf [])
  | _ => send req (ReplyBuf data)
  end.

Definition reply_xattr (req : fuse_req) (reply : XattrReply) (requested_size : Z) : M W unit :=
  match reply with
  | XattrSize len =>
      if requested_size =? 0 then send req (ReplyXattr len);; mret tt else reply_err req EIO
  | XattrData data =>
      let len := Z.of_nat (length data) in
      if requested_size =? 0 then send req (ReplyXattr len);; mret tt
      else if requested_size <? len then reply_err req ERANGE
      else send req (ReplyBuf data);; mret tt
  end.

(** Shapes that many trampolines end in. *)
Definition answer {A} (req : fuse_req) (r : Result Errno A) (ok : A → M W unit) : M W unit :=
  match r with Ok a => ok a | Err e => reply_err req e end.
Definition answer_unit (req : fuse_req) (r : Result Errno unit) : M W unit :=
  answer req r (λ _, reply_ok req).
Definition answer_entry (req : fuse_req) (r : Result Errno EntryReply) : M W unit :=
  answer req r (λ entry, ttl ← ttl; reply_entry req entry ttl).
Definition answer_attr (req : fuse_req) (ino : Z) (r : Result Errno NodeAttr) : M W unit :=
  answer req r (λ attr, ttl ← ttl; reply_attr req ino attr ttl).
Definition answer_open (req : fuse_req) (fi : option fuse_file_info) (r : Result Errno OpenReply) : M W unit :=
  answer req r (λ reply,
    let fi := apply_open fi (or_fh reply) (or_hints reply) in
    send req (ReplyOpen fi);; mret tt).

(** ** Trampolines *)

(** [partial] is what a filesystem whose [init] panics has made of the
    connection by then. *)
Definition init_shim (partial : ConnInfo → ConnInfo) (conn : fuse_conn_info) : M W fuse_conn_info :=
  let info := conn_read conn in
  r ← catch_unwind_unit (init fs info);
  mret (conn_apply conn (match r with Some info => info | None => partial info end)).

Definition destroy_shim : M W unit := catch_unwind_unit (destroy fs);; mret tt.

Definition lookup_shim (req : fuse_req) (parent : Z) (name : string) : M W unit :=
  let name := c_os_str name in
  r ← call_fs req (λ c, lookup fs parent name c);
  match r with
  | Ok (Found entry) => ttl ← ttl; reply_entry req entry ttl
  | Ok Negative => ttl ← negative_ttl; reply_negative req ttl
  | Err e => reply_err req e
  end.

Definition forget_shim (req : fuse_req) (ino nlookup : Z) : M W unit :=
  catch_unwind_unit (forget ino nlookup);;
  send req ReplyNone;; mret tt.

Fixpoint forget_each (entries : list fuse_forget_data) : M W unit :=
  match entries with
  | [] => mret tt
  | entry :: entries => forget (fg_ino entry) (fg_nlookup entry);; forget_each entries
  end.

Definition forget_multi_shim (req : fuse_req) (forgets : list fuse_forget_data) : M W unit :=
  catch_unwind_unit (forget_each forgets);;
  send req ReplyNone;; mret tt.

Definition getattr_shim (req : fuse_req) (ino : Z) (fi : option fuse_file_info) : M W unit :=
  r ← call_fs req (λ c, getattr fs ino (fi_fh_opt fi) c);
  answer_attr req ino r.

(** [setattr_from_raw] runs outside [catch_unwind]. *)
Definition setattr_shim_impl (req : fuse_req) (ino : Z) (attr : option stat) (to_set : Z)
    (fi : option fuse_file_info) : M W unit :=
  match setattr_from_raw attr to_set with
  | None => panic
  | Some set =>
      r ← call_fs req (λ c, setattr fs ino (fi_fh_opt fi) set c);
      answer_attr req ino r
  end.
Definition setattr_shim := setattr_shim_impl.

Definition readlink_shim (req : fuse_req) (ino : Z) : M W unit :=
  r ← call_fs req (λ c, readlink fs ino c);
  answer req r (λ target,
    match cstring_new target with
    | Some c => send req (ReplyReadlink c);; mret tt
    | None => reply_err req EINVAL
    end).

Definition mknod_shim (req : fuse_req) (parent : Z) (name : string) (mode rdev : Z) : M W unit :=
  let name := c_os_str name in
  r ← call_fs req (λ c, mknod fs parent name (as_u32 mode) (as_u32 rdev) (caller_umask c) c);
  answer_entry req r.

Definition mkdir_shim (req : fuse_req) (parent : Z) (name : string) (mode : Z) : M W unit :=
  let name := c_os_str name in
  r ← call_fs req (λ c, mkdir fs parent name (as_u32 mode) (caller_umask c) c);
  answer_entry req r.

Definition unlink_shim (req : fuse_req) (parent : Z) (name : string) : M W unit :=
  let name := c_os_str name in
  r ← call_fs req (λ c, unlink fs parent name c);
  answer_unit req r.

Definition rmdir_shim (req : fuse_req) (parent : Z) (name : string) : M W unit :=
  let name := c_os_str name in
  r ← call_fs req (λ c, rmdir fs parent name c);
  answer_unit req r.

Definition symlink_shim (req : fuse_req) (link : string) (parent : Z) (name : string) : M W unit :=
  let link := c_os_str link in
  let name := c_os_str name in
  r ← call_fs req (λ c, symlink fs parent name link c);
  answer_entry req r.

Definition rename_shim (req : fuse_req) (parent : Z) (name : string) (newparent : Z) (newname : string)
    (flags : Z) : M W unit :=
  let name := c_os_str name in
  let newname := c_os_str newname in
  r ← call_fs req (λ c, rename fs parent name newparent newname flags c);
  answer_unit req r.

Definition link_shim (req : fuse_req) (ino newparent : Z) (newname : string) : M W unit :=
  let newname := c_os_str newname in
  r ← call_fs req (λ c, link fs ino newparent newname c);
  answer_entry req r.

Definition open_shim (req : fuse_req) (ino : Z) (fi : option fuse_file_info) : M W unit :=
  let flags := fi_flags fi in
  r ← call_fs req (λ c, open fs ino flags c);
  answer_open req fi r.

(** The reply is sent while the leases of the read are held. *)
Definition read_shim (req : fuse_req) (ino size off : Z) (fi : option fuse_file_info) : M W unit :=
  let fh := fi_fh fi in
  let caller := caller_of req in
  result ← catch_unwind_unit (read fs ino fh (as_u64 off) size caller (λ result,
    match result with
    | Ok data =>
        let len := Z.min (Z.of_nat (length data)) size in
        send req (ReplyBuf (take (Z.to_nat len) data));; mret tt
    | Err e => reply_err req e
    end));
  match result with
  | None => reply_err req EIO
  | Some _ => mret tt
  end.

Definition write_shim (req : fuse_req) (ino : Z) (data : bytes) (off : Z) (fi : option fuse_file_info) :
    M W unit :=
  let fh := fi_fh fi in
  r ← call_fs req (λ c, write fs ino fh data (as_u64 off) c);
  answer req r (λ count, send req (ReplyWrite count);; mret tt).

Definition flush_shim (req : fuse_req) (ino : Z) (fi : option fuse_file_info) : M W unit :=
  let fh := fi_fh fi in
  r ← call_fs req (λ c, flush fs ino fh c);
  answer_unit req r.

Definition release_shim (req : fuse_req) (ino : Z) (fi : option fuse_file_info) : M W unit :=
  let fh := fi_fh fi in
  r ← call_fs req (λ c, release fs ino fh c);
  answer_unit req r.

Definition fsync_shim (req : fuse_req) (ino datasync : Z) (fi : option fuse_file_info) : M W unit :=
  let fh := fi_fh fi in
  r ← call_fs req (λ c, fsync fs ino fh (negb (datasync =? 0)) c);
  answer_unit req r.

Definition opendir_shim (req : fuse_req) (ino : Z) (fi : option fuse_file_info) : M W unit :=
  let flags := fi_flags fi in
  r ← call_fs req (λ c, opendir fs ino flags c);
  answer_open req fi r.

Definition readdir_shim (req : fuse_req) (ino size off : Z) (fi : option fuse_file_info) : M W unit :=
  if off <? 0 then reply_err req EINVAL
  else
    let fh := fi_fh fi in
    new_buffer (DirBuffer_new size);;
    r ← call_fs req (λ c, readdir fs (λ e, on_buffer (plain_sink e)) ino fh (as_u64 off) c);
    answer req r (λ _, data ← buffer; reply_dir_buf req data;; mret tt).

Fixpoint forget_retained (retained : list NodeId) : M W unit :=
  match retained with
  | [] => mret tt
  | id :: retained => forget id 1;; forget_retained retained
  end.

Definition readdirplus_shim (req : fuse_req) (ino size off : Z) (fi : option fuse_file_info) : M W unit :=
  if off <? 0 then reply_err req EINVAL
  else
    let fh := fi_fh fi in
    ttl ← ttl;
    new_buffer (DirBuffer_new_plus size ttl);;
    r ← call_fs req (λ c,
      readdirplus fs (λ name entry next, on_buffer (RuntimePlusSink_add name entry next)) ino fh (as_u64 off) c);
    answer req r (λ retained,
      data ← buffer;
      rc ← reply_dir_buf req data;
      if negb (rc =? 0) then forget_retained retained else mret tt).

Definition releasedir_shim (req : fuse_req) (ino : Z) (fi : option fuse_file_info) : M W unit :=
  let fh := fi_fh fi in
  r ← call_fs req (λ c, releasedir fs ino fh c);
  answer_unit req r.

Definition fsyncdir_shim (req : fuse_req) (ino datasync : Z) (fi : option fuse_file_info) : M W unit :=
  let fh := fi_fh fi in
  r ← call_fs req (λ c, fsyncdir fs ino fh (negb (datasync =? 0)) c);
  answer_unit req r.

Definition statfs_shim (req : fuse_req) (ino : Z) : M W unit :=
  r ← call_fs req (λ c, statfs fs ino c);
  answer req r (λ stats, let raw := statfs_to_raw stats in send req (ReplyStatfs raw);; mret tt).

Definition setxattr_shim_impl (req : fuse_req) (ino : Z) (name : string) (value : bytes) (flags : Z) : M W unit :=
  let name := c_os_str name in
  r ← call_fs req (λ c, setxattr fs ino name value flags c);
  answer_unit req r.
Definition setxattr_shim := setxattr_shim_impl.

Definition getxattr_shim_impl (req : fuse_req) (ino : Z) (name : string) (size : Z) : M W unit :=
  let name := c_os_str name in
  r ← call_fs req (λ c, getxattr fs ino name size c);
  answer req r (λ reply, reply_xattr req reply size).
Definition getxattr_shim := getxattr_shim_impl.

Definition listxattr_shim (req : fuse_req) (ino size : Z) : M W unit :=
  r ← call_fs req (λ c, listxattr fs ino size c);
  answer req r (λ reply, reply_xattr req reply size).

Definition removexattr_shim (req : fuse_req) (ino : Z) (name : string) : M W unit :=
  let name := c_os_str name in
  r ← call_fs req (λ c, removexattr fs ino name c);
  answer_unit req r.

Definition access_shim (req : fuse_req) (ino mask : Z) : M W unit :=
  r ← call_fs req (λ c, access fs ino mask c);
  answer_unit req r.

Definition create_shim (req : fuse_req) (parent : Z) (name : string) (mode : Z) (fi : option fuse_file_info) :
    M W unit :=
  let name := c_os_str name in
  let flags := fi_flags fi in
  r ← call_fs req (λ c, create fs parent name (as_u32 mode) (caller_umask c) flags c);
  answer req r (λ '(entry, reply),
    let fi := apply_open fi (or_fh reply) (or_hints reply) in
    ttl ← ttl;
    let param := entry_to_entry_param (er_ino entry) (er_generation entry) (er_attr entry) ttl in
    send req (ReplyCreate param fi);; mret tt).

Definition fallocate_shim (req : fuse_req) (ino mode offset length : Z) (fi : option fuse_file_info) : M W unit :=
  let fh := fi_fh fi in
  r ← call_fs req (λ c, fallocate fs ino fh mode (as_u64 offset) (as_u64 length) c);
  answer_unit req r.

Definition lseek_shim (req : fuse_req) (ino off whence : Z) (fi : option fuse_file_info) : M W unit :=
  let fh := fi_fh fi in
  r ← call_fs req (λ c, lseek fs ino fh (as_u64 off) whence c);
  answer req r (λ new_off, send req (ReplyLseek (as_i64 new_off));; mret tt).

Definition getlk_shim (req : fuse_req) (ino : Z) (fi : option fuse_file_info) (raw : flock) : M W unit :=
  match lock_from_raw raw with
  | Err e => reply_err req e
  | Ok requested =>
      let fh := fi_fh fi in
      let owner := fi_owner fi in
      r ← call_fs req (λ c, getlk fs ino fh owner requested c);
      answer req (Result_bind r lock_to_raw) (λ reply, send req (ReplyLock reply);; mret tt)
  end.

Definition setlk_shim (req : fuse_req) (ino : Z) (fi : option fuse_file_info) (raw : flock) (sleep : Z) : M W unit :=
  match lock_from_raw raw with
  | Err e => reply_err req e
  | Ok requested =>
      let fh := fi_fh fi in
      let owner := fi_owner fi in
      r ← call_fs req (λ c, setlk fs ino fh owner requested (negb (sleep =? 0)) c);
      answer_unit req r
  end.

Definition copy_file_range_shim (req : fuse_req) (ino_in off_in : Z) (fi_in : option fuse_file_info)
    (ino_out off_out : Z) (fi_out : option fuse_file_info) (len flags : Z) : M W unit :=
  r ← call_fs req (λ c, copy_file_range fs ino_in (as_u64 off_in) ino_out (as_u64 off_out) (as_u64 len) flags c);
  answer req r (λ count, send req (ReplyWrite count);; mret tt).
(** ** [make_ops] *)

(** An entry that is not in the table is [None]: libfuse answers [ENOSYS]. *)
Definition make_ops (cb : callback) : option (fuse_req → M W unit) :=
  match cb with
  | CbLookup parent name => Some (λ req, lookup_shim req parent name)
  | CbForget ino nlookup => Some (λ req, forget_shim req ino nlookup)
  | CbForgetMulti forgets => Some (λ req, forget_multi_shim req forgets)
  | CbGetattr ino fi => Some (λ req, getattr_shim req ino fi)
  | CbSetattr ino attr to_set fi => Some (λ req, setattr_shim req ino attr to_set fi)
  | CbReadlink ino => Some (λ req, readlink_shim req ino)
  | CbMknod parent name mode rdev => Some (λ req, mknod_shim req parent name mode rdev)
  | CbMkdir parent name mode => Some (λ req, mkdir_shim req parent name mode)
  | CbUnlink parent name => Some (λ req, unlink_shim req parent name)
  | CbRmdir parent name => Some (λ req, rmdir_shim req parent name)
  | CbSymlink link parent name => Some (λ req, symlink_shim req link parent name)
  | CbRename parent name newparent newname flags => Some (λ req, rename_shim req parent name newparent newname flags)
  | CbLink ino newparent newname => Some (λ req, link_shim req ino newparent newname)
  | CbOpen ino fi => Some (λ req, open_shim req ino fi)
  | CbRead ino size off fi => Some (λ req, read_shim req ino size off fi)
  | CbWrite ino data off fi => Some (λ req, write_shim req ino data off fi)
  | CbFlush ino fi => Some (λ req, flush_shim req ino fi)
  | CbRelease ino fi => Some (λ req, release_shim req ino fi)
  | CbFsync ino datasync fi => Some (λ req, fsync_shim req ino datasync fi)
  | CbOpendir ino fi => Some (λ req, opendir_shim req ino fi)
  | CbReaddir ino size off fi => Some (λ req, readdir_shim req ino size off fi)
  | CbReaddirplus ino size off fi => if SUPPORTS_READDIRPLUS fs then Some (λ req, readdirplus_shim req ino size off fi) else None
  | CbReleasedir ino fi => Some (λ req, releasedir_shim req ino fi)
  | CbFsyncdir ino datasync fi => Some (λ req, fsyncdir_shim req ino datasync fi)
  | CbStatfs ino => Some (λ req, statfs_shim req ino)
  | CbSetxattr ino name value flags => Some (λ req, setxattr_shim req ino name value flags)
  | CbGetxattr ino name size => Some (λ req, getxattr_shim req ino name size)
  | CbListxattr ino size => Some (λ req, listxattr_shim req ino size)
  | CbRemovexattr ino name => Some (λ req, removexattr_shim req ino name)
  | CbAccess ino mask => Some (λ req, access_shim req ino mask)
  | CbCreate parent name mode fi => Some (λ req, create_shim req parent name mode fi)
  | CbFallocate ino mode offset length fi => Some (λ req, fallocate_shim req ino mode offset length fi)
  | CbLseek ino off whence fi => Some (λ req, lseek_shim req ino off whence fi)
  | CbGetlk ino fi raw => if SUPPORTS_POSIX_LOCKS fs then Some (λ req, getlk_shim req ino fi raw) else None
  | CbSetlk ino fi raw sleep => if SUPPORTS_POSIX_LOCKS fs then Some (λ req, setlk_shim req ino fi raw sleep) else None
  | CbCopyFileRange ino_in off_in fi_in ino_out off_out fi_out len flags => Some (λ req, copy_file_range_shim req ino_in off_in fi_in ino_out off_out fi_out len flags)
  end.
End session.
