(* ===== verification/SessionSpec.v ===== *)
(** * What the session promises the kernel

    The callbacks of [Session] against the requests of [Requests]: each
    callback decodes its arguments to one request, serves it, and answers it
    with exactly one reply that its result determines. *)

From S2P Require Import Prelude Types Conv FileLocks NodeTable NodeFs Runtime RuntimeInv Requests Ffi Session.

(** ** Code that leaves a part of the sink alone

    [quiet π m]: [m] does not change [π] of the sink, however it ends. *)
Section quiet.
Context {N H D S K X : Type} `{Libc} (π : K → X).
Abbreviation W := (World N H D S K).

Definition quiet {A} (m : M W A) : Prop := ∀ w, π (w_sink (m w).2) = π (w_sink w).

Lemma quiet_ret {A} (a : A) : quiet (mret a).
Proof. by intros w. Qed.
Lemma quiet_gets {A} (f : W → A) : quiet (gets f).
Proof. by intros w. Qed.
Lemma quiet_panic {A} : quiet (panic : M W A).
Proof. by intros w. Qed.
Lemma quiet_block {A} : quiet (block : M W A).
Proof. by intros w. Qed.

Lemma quiet_bind {A B} (m : M W A) (k : A → M W B) : quiet m → (∀ a, quiet (k a)) → quiet (m ≫= k).
Proof.
  intros Hm Hk w. specialize (Hm w). unfold mbind, M_bind.
  destruct (m w) as [[a| |] w']; simpl in *; [by rewrite (Hk a w')|done|done].
Qed.

Lemma quiet_attempt {A B} (m : M W A) (k : A → M W B) u : quiet m → (∀ a, quiet (k a)) → quiet u → quiet (attempt m k u).
Proof.
  intros Hm Hk Hu w. specialize (Hm w). unfold attempt.
  destruct (m w) as [[a| |] w']; simpl in *; [by rewrite (Hk a w')|by rewrite (Hu w')|done].
Qed.

Lemma quiet_try {A B} (m : M W (Result Errno A)) (k : A → M W (Result Errno B)) :
  quiet m → (∀ a, quiet (k a)) → quiet (try_bind m k).
Proof. intros Hm Hk. apply quiet_bind; [done|]. intros [a|e]; [apply Hk|apply quiet_ret]. Qed.

Lemma quiet_finally {A} (m : M W A) (fin : M W unit) : quiet m → quiet fin → quiet (finally m fin).
Proof.
  intros Hm Hf w. specialize (Hm w). unfold finally.
  destruct (m w) as [[a| |] w']; simpl in *; [| |done];
    specialize (Hf w'); destruct (fin w') as [[?| |] w'']; simpl in *; congruence.
Qed.

Lemma quiet_on_rt {A} (m : M (Runtime N H D S) A) : quiet (on_rt m).
Proof. intros w. unfold on_rt, zoom. by destruct (m _). Qed.
Lemma quiet_on_shared {A} (m : M (Shared N) A) : quiet (on_shared m).
Proof. intros w. unfold on_shared, zoom. by destruct (m _). Qed.
Lemma quiet_on_files {A} (m : M _ A) : quiet (on_files m).
Proof. intros w. unfold on_files, zoom. by destruct (m _). Qed.
Lemma quiet_on_dirs {A} (m : M _ A) : quiet (on_dirs m).
Proof. intros w. unfold on_dirs, zoom. by destruct (m _). Qed.
Lemma quiet_on_handles {A} (f : _ → A * _) : quiet (on_handles f).
Proof. intros w. unfold on_handles. by destruct (f _). Qed.
Lemma quiet_on_sink {A} (f : K → A * K) : (∀ k, π (f k).2 = π k) → quiet (on_sink f).
Proof. intros Hf w. specialize (Hf (w_sink w)). unfold on_sink. by destruct (f _). Qed.
Lemma quiet_take_payload {T} (r : HandleRec.HandleRecord T) : quiet (take_payload r).
Proof. intros w. unfold take_payload. by destruct (HandleRec.close_and_take _) as [[]]. Qed.

Lemma quiet_scope_node {B} ino (err : Errno → M W B) (k : N → M W B) :
  (∀ e, quiet (err e)) → (∀ n, quiet (k n)) → quiet (scope_node ino err k).
Proof.
  intros He Hk. apply quiet_bind.
  - apply quiet_bind; [apply quiet_on_shared|intros; apply quiet_ret].
  - intros [l|e]; [apply quiet_finally; [apply Hk|apply quiet_on_shared]|apply He].
Qed.
Lemma quiet_scope_file {B} ino fh (err : Errno → M W B) (k : H → M W B) :
  (∀ e, quiet (err e)) → (∀ n, quiet (k n)) → quiet (scope_file ino fh err k).
Proof.
  intros He Hk. apply quiet_bind; [apply quiet_on_files|].
  intros [l|e]; [apply quiet_finally; [apply Hk|apply quiet_on_files]|apply He].
Qed.
Lemma quiet_scope_dir {B} ino fh (err : Errno → M W B) (k : D → M W B) :
  (∀ e, quiet (err e)) → (∀ n, quiet (k n)) → quiet (scope_dir ino fh err k).
Proof.
  intros He Hk. apply quiet_bind; [apply quiet_on_dirs|].
  intros [l|e]; [apply quiet_finally; [apply Hk|apply quiet_on_dirs]|apply He].
Qed.
Lemma quiet_with_node {B} ino (k : N → M W (Result Errno B)) : (∀ n, quiet (k n)) → quiet (with_node ino k).
Proof. intros Hk. apply quiet_scope_node; [intros; apply quiet_ret|done]. Qed.
Lemma quiet_with_file {B} ino fh (k : H → M W (Result Errno B)) : (∀ n, quiet (k n)) → quiet (with_file ino fh k).
Proof. intros Hk. apply quiet_scope_file; [intros; apply quiet_ret|done]. Qed.
Lemma quiet_with_dir {B} ino fh (k : D → M W (Result Errno B)) : (∀ n, quiet (k n)) → quiet (with_dir ino fh k).
Proof. intros Hk. apply quiet_scope_dir; [intros; apply quiet_ret|done]. Qed.

Lemma quiet_run_prog {E A} (emit : E → M W bool) (p : prog N S E A) :
  (∀ e, quiet (emit e)) → quiet (run_prog emit p).
Proof.
  intros He. induction p; simpl;
    try (first [apply quiet_bind|apply quiet_attempt];
      [first [apply quiet_on_shared|apply quiet_on_rt|apply quiet_gets|apply He|idtac]|done..]).
  - apply quiet_ret.
  - apply quiet_panic.
  - apply quiet_block.
  - intros w. unfold own_step. by case_match; [case_match|].
  - apply quiet_bind; [apply quiet_on_shared|].
    intros [?|]; [apply quiet_bind; [apply quiet_on_rt|intros; apply quiet_ret]|apply quiet_ret].
  - intros w. unfold fs_drop_ref. case_bool_decide; [|done].
    apply quiet_bind; [apply quiet_on_shared|intros; apply quiet_on_rt].
Qed.

Lemma quiet_call {A} (p : prog N S Empty_set A) : quiet (call p).
Proof. apply quiet_run_prog. intros []. Qed.
End quiet.

Create HintDb quiet discriminated.
#[export] Hint Resolve quiet_ret quiet_gets quiet_panic quiet_bind quiet_try quiet_on_shared quiet_on_files
  quiet_on_dirs quiet_on_handles quiet_take_payload quiet_with_node quiet_with_file quiet_with_dir
  quiet_call quiet_run_prog quiet_scope_node quiet_scope_file : quiet.

(** The tactic runs the lemmas above; [simpl] is kept away from the handlers. *)
Ltac quiet_step :=
  first
  [ done
  | apply quiet_ret | apply quiet_call | apply quiet_on_shared | apply quiet_on_handles
  | apply quiet_on_files | apply quiet_on_dirs | apply quiet_take_payload | apply quiet_gets
  | apply quiet_with_node; intro | apply quiet_with_file; intro | apply quiet_with_dir; intro
  | apply quiet_scope_node; intro | apply quiet_scope_file; intro
  | apply quiet_try; [|intro] | apply quiet_bind; [|intro]
  | case_match ].
Ltac quiet_solve := repeat quiet_step.

Section handlers_quiet.
Context {N H D S K X : Type} `{Libc} (π : K → X) (fs : NodeFs N H D S).
Abbreviation W := (World N H D S K).

Lemma entry_for_quiet id caller : quiet π (entry_for fs id caller : M W _).
Proof. unfold entry_for. quiet_solve. Qed.
Lemma init_quiet conn : quiet π (init fs conn : M W _).
Proof. unfold init. quiet_solve. Qed.
Lemma optional_file_quiet {B} ino fh (k : option H → M W (Result Errno B)) :
  (∀ h, quiet π (k h)) → quiet π (with_optional_file ino fh k).
Proof. intros Hk. unfold with_optional_file. destruct fh; [apply quiet_with_file; intro|]; apply Hk. Qed.
Lemma open_quiet ino flags caller : quiet π (open fs ino flags caller : M W _).
Proof. unfold open. quiet_solve. Qed.
Lemma opendir_quiet ino flags caller : quiet π (opendir fs ino flags caller : M W _).
Proof. unfold opendir. quiet_solve. Qed.
Lemma release_quiet ino fh caller : quiet π (release fs ino fh caller : M W _).
Proof. unfold release. quiet_solve. Qed.
Lemma releasedir_quiet ino fh caller : quiet π (releasedir fs ino fh caller : M W _).
Proof. unfold releasedir. quiet_solve. Qed.
Lemma read_quiet {R} ino fh offset size caller (reply : Result Errno bytes → M W R) :
  (∀ r, quiet π (reply r)) → quiet π (read fs ino fh offset size caller reply).
Proof. intros Hr. unfold read. quiet_solve; apply Hr. Qed.
Lemma lookup_quiet parent name caller : quiet π (lookup fs parent name caller : M W _).
Proof. unfold lookup. quiet_solve. Qed.
Lemma create_quiet parent name mode umask flags caller :
  quiet π (create fs parent name mode umask flags caller : M W _).
Proof. unfold create. quiet_solve. Qed.

Lemma readdir_quiet add ino fh offset caller :
  (∀ e k, π (add e k).2 = π k) → quiet π (readdir fs add ino fh offset caller : M W _).
Proof.
  intros Ha. unfold readdir. quiet_solve. apply quiet_run_prog. intros e. apply quiet_on_sink, Ha.
Qed.

Lemma forget_all_quiet ids : quiet π (forget_all ids : M W _).
Proof. induction ids; simpl; [apply quiet_ret|]. apply quiet_bind; [apply quiet_on_shared|done]. Qed.

Lemma accounting_quiet inner e :
  (∀ n e o k, π (inner n e o k).2 = π k) →
  quiet (λ kl : K * list NodeId, π kl.1) (accounting_add inner e : M (World N H D S (K * list NodeId)) bool).
Proof.
  intros Hi. unfold accounting_add, plus_entry.
  apply quiet_bind; [quiet_solve|]. intros [entry|]; [|apply quiet_ret].
  apply quiet_bind.
  - apply quiet_on_sink. intros [k l]. specialize (Hi (pe_name e) entry (pe_next_offset e) k).
    by destruct (inner _ _ _ _).
  - intros accepted. destruct (negb accepted); [apply quiet_ret|].
    case_match; [|apply quiet_ret]. apply quiet_bind; [apply quiet_on_shared|].
    intros [?|?]; [|apply quiet_ret]. apply quiet_on_sink. by intros [k l].
Qed.

Lemma with_accounting_quiet {A} (m : M (World N H D S (K * list NodeId)) A) :
  quiet (λ kl : K * list NodeId, π kl.1) m → quiet π (with_accounting m).
Proof.
  intros Hm w. specialize (Hm (mkWorld (w_rt w) (w_sink w, []))). unfold with_accounting.
  by destruct (m _) as [[] w'].
Qed.

Lemma readdirplus_quiet inner ino fh offset caller :
  (∀ n e o k, π (inner n e o k).2 = π k) → quiet π (readdirplus fs inner ino fh offset caller : M W _).
Proof.
  intros Hi. unfold readdirplus. apply quiet_with_node; intro.
  apply quiet_try; [apply quiet_on_shared|intro]. apply quiet_with_dir; intro.
  apply quiet_bind; [by apply with_accounting_quiet, quiet_run_prog; intro; apply accounting_quiet|].
  intros [[?|?] ids]; [apply quiet_ret|].
  apply quiet_bind; [apply forget_all_quiet|intros; apply quiet_ret].
Qed.

(** A directory request brings its own sink. *)
Definition sink_quiet (r : request K) (k : K) : Prop :=
  match r with
  | ReqReaddir sink add _ _ _ _ => π sink = π k ∧ ∀ e k, π (add e k).2 = π k
  | ReqReaddirplus sink add _ _ _ _ => π sink = π k ∧ ∀ n e o k, π (add n e o k).2 = π k
  | _ => True
  end.

Lemma reply_with_quiet {A} (c : A → reply) (m : M W A) : quiet π m → quiet π (reply_with c m).
Proof. intros Hm. apply quiet_bind; [done|intros; apply quiet_ret]. Qed.

Lemma exec_request_quiet (r : request K) w :
  sink_quiet r (w_sink w) → π (w_sink (exec_request fs r w).2) = π (w_sink w).
Proof.
  intros Hr. destruct r; unfold exec_request;
    first
    [ by apply reply_with_quiet, init_quiet
    | by apply reply_with_quiet, quiet_call
    | by apply reply_with_quiet, quiet_on_shared
    | by apply reply_with_quiet, quiet_with_node; intro; apply optional_file_quiet; intro; apply quiet_call
    | by apply reply_with_quiet, quiet_with_node; intro; apply quiet_call
    | by apply reply_with_quiet, open_quiet
    | by apply reply_with_quiet, read_quiet; intro; apply quiet_ret
    | by apply reply_with_quiet, quiet_with_node; intro; apply quiet_with_file; intro; apply quiet_call
    | by apply reply_with_quiet, release_quiet
    | by apply reply_with_quiet, opendir_quiet
    | by apply reply_with_quiet, quiet_with_node; intro; apply quiet_with_dir; intro; apply quiet_call
    | by apply reply_with_quiet, releasedir_quiet
    | by apply reply_with_quiet, lookup_quiet
    | by apply reply_with_quiet, quiet_try; [apply quiet_call|intro; apply entry_for_quiet]
    | by apply reply_with_quiet, create_quiet
    | idtac ].
  - destruct Hr as [Hs Ha]. rewrite <- Hs.
    apply (reply_with_quiet _ _ (readdir_quiet add ino fh offset caller Ha) (mkWorld (w_rt w) sink)).
  - destruct Hr as [Hs Ha]. rewrite <- Hs.
    apply (reply_with_quiet _ _ (readdirplus_quiet add ino fh offset caller Ha) (mkWorld (w_rt w) sink)).
Qed.
End handlers_quiet.

(** ** What a callback asks, and what it must answer *)
Section contract.
Context {N H D S : Type} `{Libc, FuseSys, Direntries}.
Abbreviation W := (World N H D S Link).

(** The request behind a callback, or the error that its arguments deserve;
    [None] for [setattr] with a time that cannot be represented, and for
    [forget_multi], which is several requests. *)
Definition decode (req : fuse_req) (cb : callback) (w : W) : option (Result Errno (request Link)) :=
  let c := caller_of req in
  let sink b := mkLink b (ln_log (w_sink w)) in
  match cb with
  | CbLookup parent name => Some (Ok (ReqLookup parent name c))
  | CbForget ino nlookup => Some (Ok (ReqForget ino nlookup))
  | CbForgetMulti _ => None
  | CbGetattr ino fi => Some (Ok (ReqGetattr ino (fi_fh_opt fi) c))
  | CbSetattr ino attr to_set fi =>
      set ← setattr_from_raw attr to_set; Some (Ok (ReqSetattr ino (fi_fh_opt fi) set c))
  | CbReadlink ino => Some (Ok (ReqReadlink ino c))
  | CbMknod parent name mode rdev => Some (Ok (ReqMknod parent name (as_u32 mode) (as_u32 rdev) (caller_umask c) c))
  | CbMkdir parent name mode => Some (Ok (ReqMkdir parent name (as_u32 mode) (caller_umask c) c))
  | CbUnlink parent name => Some (Ok (ReqUnlink parent name c))
  | CbRmdir parent name => Some (Ok (ReqRmdir parent name c))
  | CbSymlink target parent name => Some (Ok (ReqSymlink parent name target c))
  | CbRename parent name newparent newname flags => Some (Ok (ReqRename parent name newparent newname flags c))
  | CbLink ino newparent newname => Some (Ok (ReqLink ino newparent newname c))
  | CbOpen ino fi => Some (Ok (ReqOpen ino (fi_flags fi) c))
  | CbRead ino size off fi => Some (Ok (ReqRead ino (fi_fh fi) (as_u64 off) size c))
  | CbWrite ino data off fi => Some (Ok (ReqWrite ino (fi_fh fi) data (as_u64 off) c))
  | CbFlush ino fi => Some (Ok (ReqFlush ino (fi_fh fi) c))
  | CbRelease ino fi => Some (Ok (ReqRelease ino (fi_fh fi) c))
  | CbFsync ino datasync fi => Some (Ok (ReqFsync ino (fi_fh fi) (negb (datasync =? 0)) c))
  | CbOpendir ino fi => Some (Ok (ReqOpendir ino (fi_flags fi) c))
  | CbReaddir ino size off fi =>
      Some (if off <? 0 then Err EINVAL
            else Ok (ReqReaddir (sink (DirBuffer_new size)) (λ e, on_buffer (plain_sink e)) ino (fi_fh fi) (as_u64 off) c))
  | CbReaddirplus ino size off fi =>
      Some (if off <? 0 then Err EINVAL
            else Ok (ReqReaddirplus (sink (DirBuffer_new_plus size (rt_ttl (w_rt w))))
                       (λ n e o, on_buffer (RuntimePlusSink_add n e o)) ino (fi_fh fi) (as_u64 off) c))
  | CbReleasedir ino fi => Some (Ok (ReqReleasedir ino (fi_fh fi) c))
  | CbFsyncdir ino datasync fi => Some (Ok (ReqFsyncdir ino (fi_fh fi) (negb (datasync =? 0)) c))
  | CbStatfs ino => Some (Ok (ReqStatfs ino c))
  | CbSetxattr ino name value flags => Some (Ok (ReqSetxattr ino name value flags c))
  | CbGetxattr ino name size => Some (Ok (ReqGetxattr ino name size c))
  | CbListxattr ino size => Some (Ok (ReqListxattr ino size c))
  | CbRemovexattr ino name => Some (Ok (ReqRemovexattr ino name c))
  | CbAccess ino mask => Some (Ok (ReqAccess ino mask c))
  | CbCreate parent name mode fi => Some (Ok (ReqCreate parent name (as_u32 mode) (caller_umask c) (fi_flags fi) c))
  | CbFallocate ino mode offset len fi =>
      Some (Ok (ReqFallocate ino (fi_fh fi) mode (as_u64 offset) (as_u64 len) c))
  | CbLseek ino off whence fi => Some (Ok (ReqLseek ino (fi_fh fi) (as_u64 off) whence c))
  | CbGetlk ino fi raw =>
      Some (Result_map (λ lock, ReqGetlk ino (fi_fh fi) (fi_owner fi) lock c) (lock_from_raw raw))
  | CbSetlk ino fi raw sleep =>
      Some (Result_map (λ lock, ReqSetlk ino (fi_fh fi) (fi_owner fi) lock (negb (sleep =? 0)) c) (lock_from_raw raw))
  | CbCopyFileRange ino_in off_in _ ino_out off_out _ len flags =>
      Some (Ok (ReqCopyFileRange ino_in (as_u64 off_in) ino_out (as_u64 off_out) (as_u64 len) flags c))
  end.

(** The error in a reply. *)
Definition reply_error (rep : reply) : option Errno :=
  match rep with
  | RepUnit (Err e) | RepStatfs (Err e) | RepAttr (Err e) | RepPath (Err e) | RepXattr (Err e)
  | RepOpen (Err e) | RepData (Err e) | RepCount (Err e) | RepLock (Err e) | RepEntry (Err e)
  | RepLookup (Err e) | RepCreate (Err e) | RepPlus (Err e) => Some e
  | _ => None
  end.

(** The two-phase protocol of [getxattr] and [listxattr]: a size of 0 asks for
    the length; otherwise the value must fit. *)
Definition xattr_event (size : Z) (x : XattrReply) : reply_event :=
  match x with
  | XattrSize len => if size =? 0 then ReplyXattr len else ReplyErr (raw EIO)
  | XattrData data =>
      if size =? 0 then ReplyXattr (Z.of_nat (length data))
      else if size <? Z.of_nat (length data) then ReplyErr (raw ERANGE) else ReplyBuf data
  end.

Definition entry_event (e : EntryReply) (ttl : Duration) : reply_event :=
  ReplyEntry (entry_to_entry_param (er_ino e) (er_generation e) (er_attr e) ttl).
Definition opened_file (fi : option fuse_file_info) (o : OpenReply) : option fuse_file_info :=
  apply_open fi (or_fh o) (or_hints o).

(** The answer to a callback, from the outcome of its request and the state
    that the request ended in. A panic is [EIO]. *)
Definition event_of (cb : callback) (o : outcome reply) (w : W) : reply_event :=
  let ttl := rt_ttl (w_rt w) in
  let listing := ReplyBuf (as_slice (ln_buf (w_sink w))) in
  match o with
  | Panicked | Blocked => ReplyErr (raw EIO)
  | Returned rep =>
      match reply_error rep with
      | Some e => ReplyErr (raw e)
      | None =>
          match rep, cb with
          | RepUnit _, CbReaddir _ _ _ _ => listing
          | RepUnit _, _ => ReplyErr 0
          | RepStatfs (Ok s), _ => ReplyStatfs (statfs_to_raw s)
          | RepAttr (Ok a), (CbGetattr ino _ | CbSetattr ino _ _ _) => ReplyAttr (attr_to_stat ino a) ttl
          | RepPath (Ok target), _ =>
              match cstring_new target with Some c => ReplyReadlink c | None => ReplyErr (raw EINVAL) end
          | RepXattr (Ok x), (CbGetxattr _ _ size | CbListxattr _ size) => xattr_event size x
          | RepOpen (Ok o), (CbOpen _ fi | CbOpendir _ fi) => ReplyOpen (opened_file fi o)
          | RepData (Ok data), CbRead _ size _ _ => ReplyBuf (take (Z.to_nat size) data)
          | RepCount (Ok n), CbLseek _ _ _ _ => ReplyLseek (as_i64 n)
          | RepCount (Ok n), _ => ReplyWrite n
          | RepLock (Ok l), _ =>
              match lock_to_raw l with Ok raw => ReplyLock raw | Err e => ReplyErr (raw e) end
          | RepEntry (Ok e), _ => entry_event e ttl
          | RepLookup (Ok (Found e)), _ => entry_event e ttl
          | RepLookup (Ok Negative), _ => ReplyEntry (negative_entry_param (rt_negative_ttl (w_rt w)))
          | RepCreate (Ok (e, o)), CbCreate _ _ _ fi =>
              ReplyCreate (entry_to_entry_param (er_ino e) (er_generation e) (er_attr e) ttl) (opened_file fi o)
          | RepPlus (Ok _), _ => listing
          | _, _ => ReplyNone
          end
      end
  end.

(** One more reply in the log. *)
Definition logged (ev : reply_event) (w : W) : W :=
  mkWorld (w_rt w) (mkLink (ln_buf (w_sink w)) (ln_log (w_sink w) ++ [ev])).

(** A [readdirplus] listing that did not reach the kernel gives back the
    lookups it retained. *)
Definition settled (req : fuse_req) (cb : callback) (o : outcome reply) (ev : reply_event) (w : W) : W :=
  match cb, o with
  | CbReaddirplus _ _ _ _, Returned (RepPlus (Ok ids)) =>
      if req_send req ev =? 0 then w else (forget_retained ids w).2
  | _, _ => w
  end.
End contract.

(** ** Callbacks refine requests *)
Section refinement.
Context {N H D S : Type} `{Libc, FuseSys, Direntries} (fs : NodeFs N H D S).
Abbreviation W := (World N H D S Link).
Implicit Types (w : W).

Lemma send_run req ev w : send req ev w = (Returned (req_send req ev), logged ev w).
Proof. done. Qed.

Lemma reply_dir_buf_run req data w :
  reply_dir_buf req data w = (Returned (req_send req (ReplyBuf data)), logged (ReplyBuf data) w).
Proof. by destruct data. Qed.

Lemma reply_xattr_run req x size w :
  reply_xattr req x size w = (Returned tt, logged (xattr_event size x) w).
Proof. unfold reply_xattr, xattr_event. repeat case_match; done. Qed.

Lemma forget_retained_run ids : ∀ w, forget_retained ids w = (Returned tt, (forget_retained ids w).2).
Proof. induction ids as [|id ids IH]; intros w; simpl; [done|]. apply IH. Qed.

(** A trampoline runs its request and then answers: it is enough to answer
    each result, and [EIO]. *)
Lemma shim_answers {A} (c : Result Errno A → reply) (m : M W (Result Errno A))
    (k : Result Errno A → M W unit) (Q : outcome reply → W → outcome unit * W → Prop) w :
  (∀ r w', m w = (Returned r, w') → Q (Returned (c r)) w' (k r w')) →
  (∀ w', m w = (Panicked, w') → Q Panicked w' (k (Err EIO) w')) →
  (∀ w', m w = (Blocked, w') → Q Blocked w' (Blocked, w')) →
  Q (reply_with c m w).1 (reply_with c m w).2 ((catch_unwind m ≫= k) w).
Proof.
  intros Hr Hp Hb. unfold reply_with, catch_unwind, mbind, M_bind.
  destruct (m w) as [[r| |] w'] eqn:Hm; simpl; [by apply Hr|by apply Hp|by apply Hb].
Qed.

(** [answered req cb o w1 res]: the callback answered outcome [o], reached in
    [w1], as [event_of] says, and ended in [res]. *)
Definition answered (req : fuse_req) (cb : callback) (o : outcome reply) (w1 : W)
    (res : outcome unit * W) : Prop :=
  match o with
  | Blocked => res = (Blocked, w1)
  | _ => let ev := event_of cb o w1 in res = (Returned tt, settled req cb o ev (logged ev w1))
  end.



(** [read] answers inside the scope of its leases; their release does not
    touch the log. *)
Lemma drop_node_logged key ev w :
  on_shared (ref_drop key) (logged ev w) =
    (Returned tt, logged ev (on_shared (ref_drop key) w).2).
Proof.
  unfold on_shared, zoom. simpl. pose proof (ref_drop_returns key (rt_shared (w_rt w))) as Hr.
  destruct (ref_drop key _) as [o sh]. simpl in Hr. by subst o.
Qed.

Lemma drop_node_run key w : ∃ w', on_shared (ref_drop key) w = (Returned tt, w').
Proof.
  unfold on_shared, zoom. pose proof (ref_drop_returns key (rt_shared (w_rt w))) as Hr.
  destruct (ref_drop key _) as [o sh]. simpl in Hr. subst o. by eexists.
Qed.

Lemma drop_file_logged fh ev w :
  on_files (drop_handle fh) (logged ev w) = (Returned tt, logged ev (on_files (drop_handle fh) w).2).
Proof. unfold on_files, zoom, drop_handle. simpl. by destruct (_ !! fh). Qed.

Lemma drop_file_run fh w : ∃ w', on_files (drop_handle fh) w = (Returned tt, w').
Proof. unfold on_files, zoom, drop_handle. simpl. destruct (_ !! fh); by eexists. Qed.

Lemma read_logged ino fh offset size caller (reply : Result Errno bytes → M W unit) ev w :
  (∀ r w, reply r w = (Returned tt, logged (ev r) w)) →
  read fs ino fh offset size caller reply w =
    match read fs ino fh offset size caller mret w with
    | (Returned r, w') => (Returned tt, logged (ev r) w')
    | (Panicked, w') => (Panicked, w')
    | (Blocked, w') => (Blocked, w')
    end.
Proof.
  intros Hr. unfold read, scope_node, scope_file, mbind, M_bind, finally.
  destruct (node ino w) as [[[l|e]| |] w1]; [|by rewrite Hr|done..].
  destruct (file ino fh w1) as [[[h|e]| |] w2].
  - destruct (call _ w2) as [[r| |] w3]; [| |done];
      destruct (drop_file_run fh w3) as [w4 Hf]; destruct (drop_node_run (lr_key l) w4) as [w5 Hn].
    + rewrite Hr, drop_file_logged, drop_node_logged, Hf. simpl.
      rewrite Hn. rewrite Hf. rewrite Hn. done.
    + by rewrite Hf, Hn.
  - destruct (drop_node_run (lr_key l) w2) as [w3 Hn].
    rewrite Hr, drop_node_logged, Hn.
    simpl. by rewrite Hn.
  - destruct (drop_node_run (lr_key l) w2) as [w3 Hn]. by rewrite Hn.
  - done.
Qed.

Lemma read_answers req ino size off fi w :
  0 ≤ size →
  let cb := CbRead ino size off fi in
  let m := exec_request fs (ReqRead ino (fi_fh fi) (as_u64 off) size (caller_of req)) in
  answered req cb (m w).1 (m w).2 (read_shim fs req ino size off fi w).
Proof.
  intros Hsize. simpl. unfold reply_with, read_shim, catch_unwind_unit, mbind, M_bind.
  rewrite read_logged with (ev := λ r,
    match r with Ok data => ReplyBuf (take (Z.to_nat size) data) | Err e => ReplyErr (raw e) end).
  - destruct (read _ _ _ _ _ _ mret w) as [[[data|e]| |] w']; reflexivity.
  - intros [data|e] w'; [|done]. unfold mbind, M_bind. rewrite send_run.
    assert (take (Z.to_nat (Z.min (Z.of_nat (length data)) size)) data = take (Z.to_nat size) data) as ->; [|done].
    destruct (Z.min_spec (Z.of_nat (length data)) size) as [[? ->]|[? ->]]; [|done].
    rewrite !take_ge; [done|lia..].
Qed.

(** [usize] arguments. *)
Definition callback_wf (cb : callback) : Prop :=
  match cb with CbRead _ size _ _ => 0 ≤ size | _ => True end.

Lemma readdirplus_answers req ino size off fi w :
  (off <? 0) = false →
  let cb := CbReaddirplus ino size off fi in
  let b := DirBuffer_new_plus size (rt_ttl (w_rt w)) in
  let m := exec_request fs (ReqReaddirplus (mkLink b (ln_log (w_sink w)))
    (λ n e o, on_buffer (RuntimePlusSink_add n e o)) ino (fi_fh fi) (as_u64 off) (caller_of req)) in
  answered req cb (m w).1 (m w).2 (readdirplus_shim fs req ino size off fi w).
Proof.
  intros Hoff. simpl. unfold readdirplus_shim. rewrite Hoff.
  apply (shim_answers RepPlus (readdirplus fs _ ino (fi_fh fi) (as_u64 off) (caller_of req))
    _ (answered req (CbReaddirplus ino size off fi)) (mkWorld (w_rt w) (mkLink _ _)));
    [|by intros|by intros].
  intros [ids|e] w' _; [|reflexivity]. unfold answer, mbind, M_bind, buffer, gets. simpl.
  rewrite reply_dir_buf_run. unfold settled, event_of. simpl.
  destruct (req_send _ _ =? 0); simpl; [done|]. apply forget_retained_run.
Qed.

(** The trampolines that end in one reply on each branch. *)
Ltac answers :=
  match goal with
  | |- answered ?req ?cb _ _ _ =>
      apply (shim_answers _ _ _ (answered req cb));
      [intros [?|?] ? _; first [reflexivity|apply reply_xattr_run|idtac]|by intros|by intros]
  end.

Lemma callback_answered req cb shim r w :
  callback_wf cb → make_ops fs cb = Some shim → decode req cb w = Some (Ok r) →
  answered req cb (exec_request fs r w).1 (exec_request fs r w).2 (shim req w).
Proof.
  intros Hwf Hshim Hr. destruct cb; simpl in Hshim; repeat case_match; simplify_eq;
    unfold decode in Hr;
    try (injection Hr as <-; unfold exec_request; first [reflexivity|by apply read_answers|answers; done]).
  - injection Hr as <-. unfold exec_request. answers. by destruct a.
  - simpl in Hr. unfold setattr_shim, setattr_shim_impl.
    destruct (setattr_from_raw attr to_set) as [set|]; [|done]. simpl in Hr. injection Hr as <-.
    unfold exec_request. answers.
  - injection Hr as <-. unfold exec_request. answers. unfold answer, answered, event_of. simpl.
    by destruct (cstring_new a).
  - destruct (off <? 0) eqn:Hoff; [done|]. injection Hr as <-. unfold exec_request, readdir_shim. rewrite Hoff.
    apply (shim_answers RepUnit (readdir fs _ ino (fi_fh fi) (as_u64 off) (caller_of req))
      _ (answered req (CbReaddir ino size off fi)) (mkWorld (w_rt w) (mkLink _ _))); [|by intros|by intros].
    intros [[]|e] w' _; [|reflexivity]. unfold answer, mbind, M_bind, buffer, gets. by rewrite reply_dir_buf_run.
  - destruct (off <? 0) eqn:Hoff; [done|]. injection Hr as <-. by apply readdirplus_answers.
  - injection Hr as <-. unfold exec_request. answers. by destruct a as [e o].
  - unfold getlk_shim. destruct (lock_from_raw raw) as [lock|e]; [|done]. injection Hr as <-.
    unfold exec_request. answers. unfold answered, event_of. simpl. by destruct (lock_to_raw a).
  - unfold setlk_shim. destruct (lock_from_raw raw) as [lock|e]; [|done]. injection Hr as <-.
    unfold exec_request. answers.
Qed.

(** [forget_multi] is one [forget] after another. *)
Definition forget_in_turn (forgets : list fuse_forget_data) (w : W) : W :=
  foldl (λ w f, (exec_request fs (ReqForget (fg_ino f) (fg_nlookup f)) w).2) w forgets.

Lemma forget_each_run forgets : ∀ w, forget_each forgets w = (Returned tt, forget_in_turn forgets w).
Proof. induction forgets as [|f forgets IH]; intros w; simpl; [done|]. apply IH. Qed.

Lemma decode_error req cb shim w e :
  make_ops fs cb = Some shim → decode req cb w = Some (Err e) →
  shim req w = (Returned tt, logged (ReplyErr (raw e)) w).
Proof.
  intros Hshim He. destruct cb; simpl in Hshim; repeat case_match; simplify_eq;
    unfold decode in He; simplify_eq.
  - by destruct (setattr_from_raw attr to_set).
  - unfold readdir_shim. by destruct (off <? 0); simplify_eq.
  - unfold readdirplus_shim. by destruct (off <? 0); simplify_eq.
  - unfold getlk_shim. by destruct (lock_from_raw raw); simplify_eq/=.
  - unfold setlk_shim. by destruct (lock_from_raw raw); simplify_eq/=.
Qed.

Lemma decode_none req cb shim w :
  make_ops fs cb = Some shim → decode req cb w = None →
  match cb with
  | CbForgetMulti forgets => shim req w = (Returned tt, logged ReplyNone (forget_in_turn forgets w))
  | CbSetattr _ attr to_set _ => setattr_from_raw attr to_set = None ∧ shim req w = (Panicked, w)
  | _ => False
  end.
Proof.
  intros Hshim He. destruct cb; simpl in Hshim; repeat case_match; simplify_eq;
    unfold decode in He; simplify_eq.
  - unfold forget_multi_shim, catch_unwind_unit, mbind, M_bind. by rewrite forget_each_run.
  - unfold setattr_shim, setattr_shim_impl. by destruct (setattr_from_raw attr to_set).
Qed.

Lemma request_log req cb r w :
  decode req cb w = Some (Ok r) →
  ln_log (w_sink (exec_request fs r w).2) = ln_log (w_sink w).
Proof.
  intros Hr. apply exec_request_quiet. assert (∀ {A} (f : DirBuffer → A * DirBuffer) l,
    ln_log (on_buffer f l).2 = ln_log l) as Hb.
  { intros A f l. unfold on_buffer. by destruct (f _). }
  destruct cb; unfold decode in Hr; try (injection Hr as <-; done); simpl in Hr; try done.
  - by destruct (setattr_from_raw attr to_set); simplify_eq/=.
  - destruct (off <? 0); simplify_eq. split; [done|]. intros; apply Hb.
  - destruct (off <? 0); simplify_eq. split; [done|]. intros; apply Hb.
  - by destruct (lock_from_raw raw); simplify_eq/=.
  - by destruct (lock_from_raw raw); simplify_eq/=.
Qed.

Lemma settled_log req cb o ev w : ln_log (w_sink (settled req cb o ev w)) = ln_log (w_sink w).
Proof.
  assert (∀ ids w, ln_log (w_sink (forget_retained ids w).2) = ln_log (w_sink w)) as Hf.
  { intros ids. induction ids as [|id ids IH]; intros w1; [done|]. etrans; [apply IH|done]. }
  unfold settled. repeat case_match; try done; apply Hf.
Qed.

(** C11: each entry of the operation table implements the request that its
    arguments decode to: it serves that request once and sends the kernel the
    answer its outcome calls for, [EIO] if the filesystem panicked, with the
    lookups of a [readdirplus] listing given back when the reply fails;
    arguments that deserve an error get it without the filesystem being called;
    [forget_multi] is its [forget]s in turn. The one exception is a [setattr]
    with a time out of range, which panics outside [catch_unwind]. *)
Theorem callbacks_implement_requests req cb shim w :
  callback_wf cb → make_ops fs cb = Some shim →
  match decode req cb w with
  | Some (Ok r) => let '(o, w1) := exec_request fs r w in answered req cb o w1 (shim req w)
  | Some (Err e) => shim req w = (Returned tt, logged (ReplyErr (raw e)) w)
  | None =>
      match cb with
      | CbForgetMulti forgets => shim req w = (Returned tt, logged ReplyNone (forget_in_turn forgets w))
      | CbSetattr _ attr to_set _ => setattr_from_raw attr to_set = None ∧ shim req w = (Panicked, w)
      | _ => False
      end
  end.
Proof.
  intros Hwf Hshim. destruct (decode req cb w) as [[r|e]|] eqn:Hd.
  - pose proof (callback_answered req cb shim r w Hwf Hshim Hd) as Ha. by destruct (exec_request fs r w).
  - by eapply decode_error.
  - by eapply decode_none.
Qed.

(** C12: every callback that comes back has answered its request exactly once,
    whatever the filesystem did, and no panic crosses into C except that of a
    [setattr] whose time is out of range; a callback that hangs in the
    filesystem has not answered yet. *)
Theorem exactly_one_reply req cb shim w :
  callback_wf cb → make_ops fs cb = Some shim →
  match shim req w with
  | (Returned _, w') => ∃ ev, ln_log (w_sink w') = ln_log (w_sink w) ++ [ev]
  | (Panicked, _) => ∃ ino attr to_set fi, cb = CbSetattr ino attr to_set fi ∧ setattr_from_raw attr to_set = None
  | (Blocked, w') => ln_log (w_sink w') = ln_log (w_sink w)
  end.
Proof.
  intros Hwf Hshim. destruct (decode req cb w) as [[r|e]|] eqn:Hd.
  - pose proof (callback_answered req cb shim r w Hwf Hshim Hd) as Ha.
    pose proof (request_log req cb r w Hd) as Hlog.
    destruct (exec_request fs r w) as [[rep| |] w1]; simpl in *; rewrite Ha; [| |done];
      rewrite settled_log; simpl; rewrite Hlog; by eexists.
  - rewrite (decode_error req cb shim w e Hshim Hd). simpl. by eexists.
  - pose proof (decode_none req cb shim w Hshim Hd) as Hn. destruct cb; try done.
    + rewrite Hn. simpl. exists ReplyNone. f_equal. unfold forget_in_turn.
      clear. revert w. induction forgets as [|f forgets IH]; intros w; simpl; [done|]. by rewrite IH.
    + destruct Hn as [? ->]. by eexists _, _, _, _.
Qed.
End refinement.

(** ** The callbacks on a sample filesystem *)
Section sample.
Local Existing Instances linux_libc linux_fuse_sys sample_direntries.

Definition sample_world : World nat nat nat (option NodeId) Link :=
  mkWorld (Runtime_start sample_fs None) (mkLink (DirBuffer_new 0) []).
Definition sample_req : fuse_req := mkReq (mkCtx 1000 1000 42 18) (λ _, 0).

Lemma callbacks_implement_requests_witness :
  lookup_shim sample_fs sample_req 1 "f" sample_world =
    (Returned tt,
     logged (ReplyEntry (entry_to_entry_param 2 0 NodeAttr_default nanos_per_sec))
       (exec_request sample_fs (ReqLookup 1 "f" (caller_of sample_req)) sample_world).2).
Proof.
  pose proof (callbacks_implement_requests sample_fs sample_req (CbLookup 1 "f")
    (λ req, lookup_shim sample_fs req 1 "f") sample_world I eq_refl) as Hc.
  simpl decode in Hc. cbv iota in Hc.
  destruct (exec_request sample_fs (ReqLookup 1 "f" (caller_of sample_req)) sample_world) as [o w1] eqn:He.
  assert (o = Returned (RepLookup (Ok (Found (mkEntryReply 2 0 NodeAttr_default))))) as ->.
  { transitivity (exec_request sample_fs (ReqLookup 1 "f" (caller_of sample_req)) sample_world).1;
      [by rewrite He|vm_compute; reflexivity]. }
  assert (rt_ttl (w_rt w1) = nanos_per_sec) as Ht.
  { transitivity (rt_ttl (w_rt (exec_request sample_fs (ReqLookup 1 "f" (caller_of sample_req)) sample_world).2));
      [by rewrite He|vm_compute; reflexivity]. }
  unfold answered, settled, event_of, entry_event in Hc. simpl in Hc. by rewrite Ht in Hc.
Defined.

Lemma exactly_one_reply_witness :
  ∃ ev, ln_log (w_sink (getattr_shim sample_fs sample_req 1 None sample_world).2) = [ev].
Proof.
  pose proof (exactly_one_reply sample_fs sample_req (CbGetattr 1 None)
    (λ req, getattr_shim sample_fs req 1 None) sample_world I eq_refl) as Hc.
  cbv beta in Hc. destruct (getattr_shim _ _ _ _ _) as [[[]| |] w'] eqn:Hg; [exact Hc|..];
    assert (Hf : (getattr_shim sample_fs sample_req 1 None sample_world).1 = Returned tt)
      by (vm_compute; reflexivity); rewrite Hg in Hf; discriminate Hf.
Defined.
End sample.
