(* ===== verification/SessionRefs.v ===== *)
(** * The kernel's references across a session

    A kernel counts the lookups of the replies it received, and only those: a
    reply that libfuse could not deliver teaches it nothing. This file serves
    callbacks one after another and follows the kernel's ledger. *)

From S2P Require Import Prelude Types NodeTable NodeTableInv NodeFs Runtime RuntimeInv RuntimeSpec Requests.
From S2P Require Import Conv Ffi Session SessionSpec.

Section refs.
Context {N H D S : Type} `{Libc, FuseSys, Hdir : Direntries, Hok : !DirentriesOk, Hread : !PlusReader}.
Context (fs : NodeFs N H D S) (s0 : S).
Abbreviation W := (World N H D S Link).
Abbreviation tbl w := (tbl_map (sh_table (sh_of w))).
Implicit Types (w : W) (L : ledger).

(** ** What the kernel sees

    A callback of libfuse, the reply it sent, and whether the kernel received
    that. *)
Record exchange := mkExchange { ex_callback : callback; ex_reply : reply_event; ex_received : bool }.

(** The inodes that a reply makes known, with their generations: its entry,
    unless it is a negative one, or the entries of a [readdirplus] buffer other
    than "." and "..", as the kernel reads its bytes. *)
Definition entries_of (cb : callback) (ev : reply_event) : list (Z * Z) :=
  match ev with
  | ReplyEntry e | ReplyCreate e _ => if ep_ino e =? 0 then [] else [(ep_ino e, ep_generation e)]
  | ReplyBuf data => match cb with CbReaddirplus _ _ _ _ => counted_entries (read_plus data) | _ => [] end
  | _ => []
  end.

(** The kernel gives lookups back with [forget] and [forget_multi], which have
    no answer; of the rest it counts what it received. *)
Definition exchanged (x : exchange) (L : ledger) : ledger :=
  match ex_callback x with
  | CbForget ino nlookup => ledger_forget ino nlookup L
  | CbForgetMulti forgets => foldl (λ L f, ledger_forget (fg_ino f) (fg_nlookup f) L) L forgets
  | cb => if ex_received x then ledger_adds (entries_of cb (ex_reply x)) L else L
  end.

(** The lookups that it holds; the latest exchange comes first. *)
Definition kernel_holds (history : list exchange) : ledger := foldr exchanged ∅ history.

(** Arguments of unsigned types. *)
Definition args_wf (cb : callback) : Prop :=
  match cb with
  | CbForget _ nlookup => 0 ≤ nlookup
  | CbForgetMulti forgets => Forall (λ f, 0 ≤ fg_nlookup f) forgets
  | CbRead _ size _ _ | CbReaddirplus _ size _ _ => 0 ≤ size
  | _ => True
  end.

(** The callbacks that a session has served since its runtime was built.
    Those that hang do not come back, and a panic outside [catch_unwind] ends
    the process. *)
Inductive session_serves (k0 : Link) : list exchange → W → Prop :=
| session_new w : Runtime_new fs s0 k0 = (Returned tt, w) → session_serves k0 [] w
| session_callback history w req cb shim ev w' :
    session_serves k0 history w → args_wf cb → make_ops fs cb = Some shim →
    shim req w = (Returned tt, w') → ln_log (w_sink w') = ln_log (w_sink w) ++ [ev] →
    session_serves k0 (mkExchange cb ev (req_send req ev =? 0) :: history) w'.

(** ** The buffer of [readdirplus] shows what it accepted *)
Definition link_shows (l : Link) : list (OsString * Z * Z) := read_plus (as_slice (ln_buf l)).
Definition link_good (l : Link) : Prop :=
  Z.of_nat (length (db_buf (ln_buf l))) ≤ db_capacity (ln_buf l) ∧
  ∃ es : list (OsString * fuse_entry_param * Z),
    db_buf (ln_buf l) = concat ((λ e, direntry_plus_bytes e.1.1 e.1.2 e.2) <$> es).

Lemma cstring_same name cname : cstring_new name = Some cname → cname = name.
Proof. unfold cstring_new. case_bool_decide; congruence. Qed.

Lemma plus_honest : honest (λ n e o, on_buffer (RuntimePlusSink_add n e o)) link_shows link_good.
Proof.
  intros name e off [b log] [Hcap (es & Hes)]. simpl in *.
  pose proof (plus_sink_spec (db_format b) (name, e, off) b eq_refl Hcap) as Hadd. unfold plus_sink in Hadd.
  unfold on_buffer. simpl. rewrite Hadd. unfold plus_encode.
  destruct (cstring_new name) as [cname|] eqn:Hc; cycle 1.
  { rewrite app_nil_r, with_buf_id, decide_True by done.
    split; [split; [done|by exists es]|by left]. }
  apply cstring_same in Hc as ->. match goal with |- context [if ?d then _ else _] => destruct d as [Hfit|_] end; cycle 1.
  { split; [split; [done|by exists es]|by left]. }
  set (p := entry_to_entry_param _ _ _ _).
  assert (db_buf b ++ direntry_plus_bytes name p (as_i64 off) =
    concat ((λ e, direntry_plus_bytes e.1.1 e.1.2 e.2) <$> es ++ [(name, p, as_i64 off)])) as Hbuf.
  { rewrite Hes, fmap_app, concat_app. simpl. by rewrite app_nil_r. }
  split; [split; [done|by eexists]|]. right. split; [done|]. unfold link_shows, as_slice. simpl.
  rewrite Hbuf, Hes, !read_plus_spec, fmap_app. done.
Qed.

Lemma decode_sink req cb r w : args_wf cb → decode req cb w = Some (Ok r) → sink_wf link_shows r.
Proof.
  intros Hwf Hd. destruct cb; unfold decode in Hd; try (injection Hd as <-; done); simpl in Hd; try done.
  - by destruct (setattr_from_raw attr to_set); simplify_eq/=.
  - by destruct (off <? 0); simplify_eq.
  - destruct (off <? 0); simplify_eq. exists link_good. split_and!; [|exact (read_plus_spec [])|apply plus_honest].
    split; [done|]. by exists [].
  - by destruct (lock_from_raw raw); simplify_eq/=.
  - by destruct (lock_from_raw raw); simplify_eq/=.
Qed.

(** *** An answer tells what the request's reply told *)
Lemma entry_told e L :
  ledger_adds (if ep_ino e =? 0 then [] else [(ep_ino e, ep_generation e)]) L = L ∨
  ledger_adds (if ep_ino e =? 0 then [] else [(ep_ino e, ep_generation e)]) L = ledger_add (ep_ino e) (ep_generation e) L.
Proof. destruct (ep_ino e =? 0); [by left|by right]. Qed.

Lemma event_told cb o w1 L :
  ledger_adds (entries_of cb (event_of cb o w1)) L = L ∨
  ledger_adds (entries_of cb (event_of cb o w1)) L = learn_reply link_shows o (w_sink w1) L.
Proof.
  destruct o as [rep| |]; [|by left..]. unfold event_of.
  destruct (reply_error rep) as [e|] eqn:He; [by left|].
  destruct rep as [|c|r|r|r|r|r|r|r|r|r|r|r|r|r]; try destruct r as [x|e]; try done.
  all: try (by left).
  - destruct cb; by left.
  - destruct cb; by left.
  - left. by destruct (cstring_new x).
  - left. destruct cb; try done; simpl; unfold xattr_event; by repeat case_match.
  - destruct cb; by left.
  - destruct cb; by left.
  - destruct cb; by left.
  - left. by destruct (lock_to_raw x).
  - apply (entry_told (entry_to_entry_param (er_ino x) (er_generation x) (er_attr x) (rt_ttl (w_rt w1)))).
  - destruct x as [e|]; [|by left].
    apply (entry_told (entry_to_entry_param (er_ino e) (er_generation e) (er_attr e) (rt_ttl (w_rt w1)))).
  - destruct x as [e x]. destruct cb; try (by left).
    apply (entry_told (entry_to_entry_param (er_ino e) (er_generation e) (er_attr e) (rt_ttl (w_rt w1)))).
  - destruct cb; try (by left). by right.
Qed.

(** ** The invariant survives a lost answer *)

Lemma at_step_rt w w' L : w_rt w = w_rt w' → at_step fs s0 w L → at_step fs s0 w' L.
Proof. unfold at_step, reached, few_steps, steps_of, RIL, sh_of. by intros ->. Qed.

Lemma budget_learn (r : request Link) o L k L' n w :
  pays link_shows r o L k L' → RIL idle_frame L' n w → budget (learn link_shows r o k L) [] L'.
Proof. intros [[->|?] _] HRI; [by eapply RI_budget|done]. Qed.

Definition is_forget (r : request Link) : bool := match r with ReqForget _ _ => true | _ => false end.
Lemma learn_other (r : request Link) o k L : is_forget r = false → learn link_shows r o k L = learn_reply link_shows o k L.
Proof. by destruct r. Qed.

(** An answer other than to [forget] only adds to what the kernel held. *)
Lemma gains_budget (r : request Link) o L L' n w :
  is_forget r = false → gains r o L L' → RIL idle_frame L' n w → budget L (retained o) L'.
Proof.
  intros Hr Hg HRI.
  assert (L' = L → retained o = [] → budget L (retained o) L') as Hsame.
  { intros -> ->. by eapply RI_budget. }
  destruct r; try done; destruct o as [[]| |]; simpl in *; repeat case_match; auto.
Qed.

Lemma forget_retained_all ids w : forget_retained ids w = forget_all ids w.
Proof.
  revert w. induction ids as [|id ids IH]; intros w; simpl; [done|].
  unfold mbind, M_bind. destruct (forget id 1 w) as [[]]; auto.
Qed.

(** Giving the retained lookups back, after a listing that was lost. *)
Lemma lost_step w L L' ids :
  (few_steps w → budget L ids L') → at_step fs s0 w L' → at_step fs s0 (forget_retained ids w).2 L.
Proof.
  intros Hb (ops & Hat & HRI). rewrite forget_retained_all.
  destruct (forget_all ids w) as [o w'] eqn:Hall.
  destruct (reached_triple fs s0 _ _ _ _ _ _ _ _ (forget_all_triple True idle_frame L ids) Hall Hat) as (ops' & Hat' & Hq).
  exists ops'. split; [done|]. intros Hn. destruct (Hq Hn) as [Hn0 Hq'].
  specialize (Hq' (ex_intro _ L' (conj (Hb Hn0) (HRI Hn0)))).
  pose proof (forget_retained_run ids w) as Hrun. rewrite forget_retained_all, Hall in Hrun. simpl in Hrun.
  by destruct o; [apply Hq'|..].
Qed.

Lemma settled_cases req cb (o : outcome reply) ev w :
  settled req cb o ev w = w ∨
  (req_send req ev =? 0) = false ∧ settled req cb o ev w = (forget_retained (retained o) w).2 ∧
    ∃ ino size off fi, cb = CbReaddirplus ino size off fi.
Proof.
  unfold settled. destruct cb; auto. destruct o as [[]| |]; auto. destruct r; auto.
  destruct (req_send req ev =? 0); auto. right. split_and!; [done..|]. by eexists _, _, _, _.
Qed.

(** One callback that decoded to a request. *)
Lemma callback_step req cb shim r o w w1 w2 ev L :
  at_step fs s0 w L → args_wf cb → make_ops fs cb = Some shim →
  decode req cb w = Some (Ok r) → exec_request fs r w = (o, w1) → shim req w = (Returned tt, w2) →
  ln_log (w_sink w2) = ln_log (w_sink w) ++ [ev] →
  at_step fs s0 w2 (exchanged (mkExchange cb ev (req_send req ev =? 0)) L).
Proof.
  intros Hat Hcb Hshim Hd Hexec Hrun Hlog.
  assert (callback_wf cb) as Hcwf by by destruct cb.
  assert (request_wf r) as Hr.
  { clear - Hcb Hd. destruct cb; unfold decode in Hd; try (injection Hd as <-; done); simpl in Hd; try done;
      repeat (case_match; simplify_eq/=); try done.
    - by destruct (setattr_from_raw attr to_set); simplify_eq/=.
    - by destruct (lock_from_raw raw); simplify_eq/=.
    - by destruct (lock_from_raw raw); simplify_eq/=. }
  pose proof (callback_answered fs req cb shim r w Hcwf Hshim Hd) as Ha.
  pose proof (request_log fs req cb r w Hd) as Hlog1. rewrite Hexec, Hrun in *. simpl in *.
  assert (o ≠ Blocked) as Ho by (intros ->; discriminate).
  assert (w2 = settled req cb o (event_of cb o w1) (logged (event_of cb o w1) w1)) as -> by (destruct o; congruence).
  rewrite settled_log in Hlog. simpl in Hlog. rewrite Hlog1 in Hlog. apply app_inv_head in Hlog. injection Hlog as <-.
  set (ev := event_of cb o w1) in *. clear Ha.
  destruct (request_step fs s0 link_shows w L r o w1 Hat Hr (decode_sink req cb r w Hcb Hd) Hexec Ho) as (L' & Hat' & Hp).
  pose proof (pays_learn fs s0 link_shows w1 r o L (w_sink w1) L' Hp Hat') as Hlearn.
  apply (at_step_rt w1 (logged ev w1)) in Hlearn, Hat'; [|done..].
  destruct (is_forget r) eqn:Hf.
  { destruct r; try done. destruct cb; simpl in Hd; repeat case_match; simplify_eq/=; try exact Hlearn.
    all: try by destruct (setattr_from_raw attr to_set).
    all: by destruct (lock_from_raw raw). }
  assert (few_steps (logged ev w1) → budget L (retained o) L') as Hb.
  { intros Hn. destruct Hat' as (ops & _ & HRI). eapply gains_budget; [done|by apply Hp|by apply HRI]. }
  assert (at_step fs s0 (logged ev w1) L) as Hsame.
  { eapply at_step_weaken; [|exact Hat']. intros Hn. by eapply budget_nil, Hb. }
  rewrite learn_other in Hlearn by done.
  assert (exchanged (mkExchange cb ev (req_send req ev =? 0)) L =
    if req_send req ev =? 0 then ledger_adds (entries_of cb ev) L else L) as ->.
  { unfold exchanged. simpl. destruct cb; try done; simpl in Hd; simplify_eq/=. }
  destruct (settled_cases req cb o ev (logged ev w1)) as [->|(Hs & -> & _)].
  - destruct (req_send req ev =? 0); [|done]. destruct (event_told cb o w1 L) as [Hev|Hev]; fold ev in Hev; by rewrite Hev.
  - rewrite Hs. eapply lost_step; [exact Hb|done].
Qed.

Lemma forgets_step forgets : ∀ w L,
  at_step fs s0 w L → Forall (λ f, 0 ≤ fg_nlookup f) forgets →
  at_step fs s0 (forget_in_turn fs forgets w) (foldl (λ L f, ledger_forget (fg_ino f) (fg_nlookup f) L) L forgets).
Proof.
  induction forgets as [|f forgets IH]; intros w L Hat Hf; [done|].
  apply Forall_cons in Hf as [Hf1 Hf].
  set (r := ReqForget (fg_ino f) (fg_nlookup f) : request Link).
  destruct (request_step fs s0 link_shows w L r (Returned RepNone) (exec_request fs r w).2 Hat Hf1 I eq_refl)
    as (L1 & Hat1 & Hp); [done|]. simpl.
  apply (IH (exec_request fs r w).2); [|done]. exact (pays_learn fs s0 link_shows _ r _ L _ L1 Hp Hat1).
Qed.

Lemma session_step k0 history w : session_serves k0 history w → at_step fs s0 w (kernel_holds history).
Proof.
  induction 1 as [w Hnew|history w req cb shim ev w2 _ Hat Hcb Hshim Hrun Hlog]; [by eapply new_step|].
  simpl. destruct (decode req cb w) as [[r|e]|] eqn:Hd.
  - destruct (exec_request fs r w) as [o w1] eqn:Hexec. by eapply callback_step.
  - rewrite (decode_error fs req cb shim w e Hshim Hd) in Hrun. injection Hrun as <-.
    apply app_inv_head in Hlog. injection Hlog as <-.
    assert (exchanged (mkExchange cb (ReplyErr (raw e)) (req_send req (ReplyErr (raw e)) =? 0)) (kernel_holds history)
      = kernel_holds history) as ->; [|by eapply at_step_rt].
    unfold exchanged. simpl. destruct cb; simpl in Hd; simplify_eq; by destruct (req_send _ _ =? 0).
  - pose proof (decode_none fs req cb shim w Hshim Hd) as Hn. destruct cb; try done.
    + rewrite Hn in Hrun. injection Hrun as <-. eapply at_step_rt; [|by apply forgets_step]. done.
    + destruct Hn as [_ Hn]. rewrite Hn in Hrun. discriminate.
Qed.

End refs.

(** ** A session that lists a directory *)
Section sample.
Local Existing Instances linux_libc linux_fuse_sys sample_direntries sample_direntries_ok sample_reader.

Abbreviation LW := (World nat nat nat (option NodeId) Link).
Definition sample_link : Link := mkLink (DirBuffer_new 0) [].
Definition listing_world : LW := mkWorld (Runtime_start listing_fs None) sample_link.
Definition dir_info : option fuse_file_info := Some (mkFileInfo 0 1 0 0 0 0 0 0).

(** lookup f; opendir /; readdirplus / *)
Definition session_callbacks : list callback :=
  [CbLookup 1 "f"; CbOpendir 1 dir_info; CbReaddirplus 1 64 0 dir_info].
Definition called (cb : callback) (w : LW) : LW :=
  match make_ops listing_fs cb with Some shim => (shim sample_req w).2 | None => w end.
Definition session_world : LW := foldl (λ w cb, called cb w) listing_world session_callbacks.
Definition session_history : list exchange :=
  rev (zip_with (λ cb ev, mkExchange cb ev true) session_callbacks (ln_log (w_sink session_world))).

Lemma sample_session : session_serves listing_fs None sample_link session_history session_world.
Proof.
  assert (∀ cb shim ev w, make_ops listing_fs cb = Some shim → args_wf cb → (shim sample_req w).1 = Returned tt →
    ln_log (w_sink (called cb w)) = ln_log (w_sink w) ++ [ev] → ∀ history,
    session_serves listing_fs None sample_link history w →
    session_serves listing_fs None sample_link (mkExchange cb ev true :: history) (called cb w)) as Hcall.
  { intros cb shim ev w Hshim Hwf Hret Hlog history Hs. unfold called in *. rewrite Hshim in *.
    apply (session_callback listing_fs None sample_link history w sample_req cb shim ev); try done.
    destruct (shim sample_req w); simpl in *. by rewrite Hret. }
  set (w1 := called (CbLookup 1 "f") listing_world). set (w2 := called (CbOpendir 1 dir_info) w1).
  change session_world with (called (CbReaddirplus 1 64 0 dir_info) w2).
  assert (session_history = [mkExchange (CbReaddirplus 1 64 0 dir_info) (List.nth 2 (ln_log (w_sink session_world)) ReplyNone) true;
    mkExchange (CbOpendir 1 dir_info) (List.nth 1 (ln_log (w_sink session_world)) ReplyNone) true;
    mkExchange (CbLookup 1 "f") (List.nth 0 (ln_log (w_sink session_world)) ReplyNone) true]) as -> by (vm_compute; reflexivity).
  eapply Hcall; [reflexivity|done|vm_compute; reflexivity|vm_compute; reflexivity|].
  eapply Hcall; [reflexivity|done|vm_compute; reflexivity|vm_compute; reflexivity|].
  eapply Hcall; [reflexivity|done|vm_compute; reflexivity|vm_compute; reflexivity|].
  apply session_new. vm_compute. reflexivity.
Qed.

End sample.
