(* ===== verification/SessionLife.v ===== *)
(** * The life of a session ([fuse3/src/session.rs], lines 983 to 1291)

    Mount options, the thread pool configuration, and [Session] from creation
    to drop. The calls into libfuse are recorded in a log, and their results
    are a parameter (its loops may never return); a protocol automaton says
    which logs use every resource properly. *)

From S2P Require Import Prelude Types Conv NodeTable NodeFs Runtime Requests Ffi Session.

(** ** [MountOption] *)

Inductive MountOption :=
| ReadOnly | AllowOther | AutoUnmount | DefaultPermissions
| FsName (name : string) | Subtype (name : string) | Custom (opt : string).

Definition render (self : MountOption) : string :=
  match self with
  | ReadOnly => "ro"
  | AllowOther => "allow_other"
  | AutoUnmount => "auto_unmount"
  | DefaultPermissions => "default_permissions"
  | FsName name => "fsname=" ++ name
  | Subtype name => "subtype=" ++ name
  | Custom opt => opt
  end%string.

(** ** [Error] *)

Inductive Error :=
| SessionNew | Mount | SignalHandlers | Loop (rc : Z) | InvalidMountpoint (mp : string)
| InvalidThreadPool (message : string) | LoopConfigAllocation.

(** ** Configuration *)

Record ThreadPoolConfig := mkPool {
  max_threads : Z; max_idle_threads : option Z; clone_fd : bool }.
Inductive ThreadingMode := SingleThreaded | MultiThreaded (pool : ThreadPoolConfig).
Record SessionConfig := mkConfig { threading : ThreadingMode }.

Definition ThreadPoolConfig_default : ThreadPoolConfig := mkPool 10 None false.
Definition SessionConfig_default : SessionConfig := mkConfig (MultiThreaded ThreadPoolConfig_default).

Definition MAX_THREADS : Z := 100000.

Definition validate (self : ThreadPoolConfig) : Result Error ThreadPoolConfig :=
  if MAX_THREADS <? max_threads self then Err (InvalidThreadPool "max_threads exceeds 100000") else Ok self.

(** ** libfuse *)

(** A call, with what it returned. *)
Inductive ffi_call :=
| RuntimeIntoRaw
| RuntimeFromRaw
| SessionNewCall (argv : list string) (ok : bool)
| OptFreeArgs
| SessionMount (mountpoint : string) (rc : Z)
| SessionUnmount
| SessionDestroy
| SetSignalHandlers (rc : Z)
| RemoveSignalHandlers
| SessionLoop (rc : Z)
| SessionLoopMt (rc : Z)
| LoopCfgCreate (ok : bool)
| LoopCfgSetMaxThreads (n : Z)
| LoopCfgSetIdleThreads (n : Z)
| LoopCfgSetCloneFd (on : Z)
| LoopCfgDestroy.

(** What libfuse answers. The loops run the callbacks, so they change the
    runtime; [None] when they never return. *)
Record Libfuse (R : Type) := {
  fuse_session_new : list string → bool;
  fuse_session_mount : string → Z;
  fuse_set_signal_handlers : Z;
  fuse_session_loop : R → option (Z * R);
  session_loop_mt_312 : R → option (Z * R);
  loop_cfg_create_312 : bool;
}.
Arguments fuse_session_new {R}.
Arguments fuse_session_mount {R}.
Arguments fuse_set_signal_handlers {R}.
Arguments fuse_session_loop {R}.
Arguments session_loop_mt_312 {R}.
Arguments loop_cfg_create_312 {R}.

(** The log of the calls, latest last, and the boxed runtime that [Session]
    and libfuse point to. *)
Record Sys (R : Type) := mkSys { sys_calls : list ffi_call; sys_runtime : option R }.
Arguments mkSys {R}.
Arguments sys_calls {R}.
Arguments sys_runtime {R}.

(** The raw pointers of a [Session] stand for the one session and the one
    runtime of [Sys]. *)
Record Session := mkSession { mounted : bool; arg_storage : list string; config : SessionConfig }.

Section life.
Context {N H D S : Type} `{Libc}.
Abbreviation R := (Runtime N H D S).
Context (lib : Libfuse R) (fs : NodeFs N H D S) (s0 : S) (display : PathBuf → string).

Definition ffi (c : ffi_call) : M (Sys R) unit := λ y,
  (Returned tt, mkSys (sys_calls y ++ [c]) (sys_runtime y)).
Definition set_runtime (r : option R) : M (Sys R) unit := modify (λ y, mkSys (sys_calls y) r).

(** [Box::into_raw(Box::new(runtime))] and [drop(Box::from_raw(runtime))]. *)
Definition into_raw (rt : R) : M (Sys R) unit := set_runtime (Some rt);; ffi RuntimeIntoRaw.
Definition drop_from_raw : M (Sys R) unit := ffi RuntimeFromRaw;; set_runtime None.

(** A libfuse loop, on the boxed runtime. *)
Definition run_loop (loop : R → option (Z * R)) (c : Z → ffi_call) : M (Sys R) Z := λ y,
  match sys_runtime y with
  | Some rt =>
      match loop rt with
      | Some (rc, rt) => (Returned rc, mkSys (sys_calls y ++ [c rc]) (Some rt))
      | None => (Blocked, y)
      end
  | None => (Panicked, y)
  end.

(** ** [LoopConfig] *)

Definition LoopConfig_new (pool : ThreadPoolConfig) : M (Sys R) (Result Error unit) :=
  pool ←? mret (validate pool);
  ffi (LoopCfgCreate (loop_cfg_create_312 lib));;
  if negb (loop_cfg_create_312 lib) then mret (Err LoopConfigAllocation)
  else
    ffi (LoopCfgSetMaxThreads (max_threads pool));;
    match max_idle_threads pool with
    | Some idle => ffi (LoopCfgSetIdleThreads idle)
    | None => mret tt
    end;;
    ffi (LoopCfgSetCloneFd (bool_to_u32 (clone_fd pool)));;
    mret (Ok tt).

Definition LoopConfig_drop : M (Sys R) unit := ffi LoopCfgDestroy.

(** ** [Session] *)

(** [CString::new] on every argument; [None] is the panic of [expect]. *)
Fixpoint arg_cstrings (args : list string) : option (list string) :=
  match args with
  | [] => Some []
  | s :: args => c ← cstring_new s; cs ← arg_cstrings args; Some (c :: cs)
  end.

Definition arg_strings (options : list MountOption) : list string :=
  match options with
  | [] => ["fuse3"]
  | _ => ["fuse3"; "-o"; String.concat "," (render <$> options)]
  end.

Definition is_multi (mode : ThreadingMode) : bool :=
  match mode with MultiThreaded _ => true | SingleThreaded => false end.

(** [Runtime::new(fs)], before the runtime is boxed. *)
Definition new_runtime : M (Sys R) R := λ y,
  match Runtime_new fs s0 tt with
  | (Returned _, w) => (Returned (w_rt w), y)
  | (Panicked, _) => (Panicked, y)
  | (Blocked, _) => (Blocked, y)
  end.

Definition new_with_config (options : list MountOption) (config : SessionConfig) :
    M (Sys R) (Result Error Session) :=
  _ ←? mret (match threading config with
             | MultiThreaded pool => Result_map (λ _, tt) (validate pool)
             | SingleThreaded => Ok tt
             end);
  match arg_cstrings (arg_strings options) with
  | None => panic
  | Some argv =>
      runtime ← new_runtime;
      let runtime := set_parallel_dirops (is_multi (threading config)) runtime in
      into_raw runtime;;
      ffi (SessionNewCall argv (fuse_session_new lib argv));;
      ffi OptFreeArgs;;
      if negb (fuse_session_new lib argv) then
        drop_from_raw;; mret (Err SessionNew)
      else mret (Ok (mkSession false argv config))
  end.

Definition new (options : list MountOption) : M (Sys R) (Result Error Session) :=
  new_with_config options SessionConfig_default.

(** [&mut self] methods return the session they leave behind. *)
Definition mount (self : Session) (mountpoint : PathBuf) : M (Sys R) (Result Error unit * Session) :=
  match cstring_new mountpoint with
  | None => mret (Err (InvalidMountpoint (display mountpoint)), self)
  | Some c_mountpoint =>
      let rc := fuse_session_mount lib c_mountpoint in
      ffi (SessionMount c_mountpoint rc);;
      if negb (rc =? 0) then mret (Err Mount, self)
      else mret (Ok tt, mkSession true (arg_storage self) (config self))
  end.

(** The loop configuration is dropped when the arm that made it ends. *)
Definition run (self : Session) : M (Sys R) (Result Error unit) :=
  ffi (SetSignalHandlers (fuse_set_signal_handlers lib));;
  if negb (fuse_set_signal_handlers lib =? 0) then mret (Err SignalHandlers)
  else
    r ← match threading (config self) with
        | SingleThreaded => rc ← run_loop (fuse_session_loop lib) SessionLoop; mret (Ok rc)
        | MultiThreaded pool =>
            cfg ← LoopConfig_new pool;
            match cfg with
            | Ok _ =>
                rc ← run_loop (session_loop_mt_312 lib) SessionLoopMt;
                LoopConfig_drop;; mret (Ok rc)
            | Err error => ffi RemoveSignalHandlers;; mret (Err error)
            end
        end;
    match r with
    | Err error => mret (Err error)
    | Ok rc =>
        ffi RemoveSignalHandlers;;
        if negb (rc =? 0) then mret (Err (Loop rc)) else mret (Ok tt)
    end.

(** [Drop for Session]. *)
Definition Session_drop (self : Session) : M (Sys R) unit :=
  (if mounted self then ffi SessionUnmount else mret tt);;
  ffi SessionDestroy;;
  drop_from_raw.

Definition mount_and_run_with_config (mountpoint : PathBuf) (options : list MountOption)
    (config : SessionConfig) : M (Sys R) (Result Error unit) :=
  session ←? new_with_config options config;
  '(r, session) ← mount session mountpoint;
  match r with
  | Err error => Session_drop session;; mret (Err error)
  | Ok _ => r ← run session; Session_drop session;; mret r
  end.

Definition mount_and_run (mountpoint : PathBuf) (options : list MountOption) : M (Sys R) (Result Error unit) :=
  session ←? new options;
  '(r, session) ← mount session mountpoint;
  match r with
  | Err error => Session_drop session;; mret (Err error)
  | Ok _ => r ← run session; Session_drop session;; mret r
  end.
End life.

(** ** The protocol

    What is held, and the calls that are allowed: nothing is used before it is
    acquired or after it is released, and a session is destroyed unmounted,
    without its signal handlers, before its runtime is freed. *)
Record held := mkHeld {
  h_runtime : bool; h_session : bool; h_mounted : bool; h_signals : bool; h_cfg : bool }.
Definition nothing : held := mkHeld false false false false false.

Definition guard_held (b : bool) (h : held) : option held := if b then Some h else None.

Definition protocol_step (h : held) (c : ffi_call) : option held :=
  let '(mkHeld rt se mo si cf) := h in
  match c with
  | RuntimeIntoRaw => guard_held (negb rt) (mkHeld true se mo si cf)
  | RuntimeFromRaw => guard_held (rt && negb se) (mkHeld false se mo si cf)
  | SessionNewCall _ ok => guard_held (rt && negb se) (mkHeld rt ok mo si cf)
  | OptFreeArgs => Some h
  | SessionMount _ rc => guard_held (se && negb mo) (mkHeld rt se (rc =? 0) si cf)
  | SessionUnmount => guard_held mo (mkHeld rt se false si cf)
  | SessionDestroy => guard_held (rt && se && negb mo && negb si) (mkHeld rt false mo si cf)
  | SetSignalHandlers rc => guard_held (se && negb si) (mkHeld rt se mo (rc =? 0) cf)
  | RemoveSignalHandlers => guard_held (se && si) (mkHeld rt se mo false cf)
  | SessionLoop _ => guard_held (rt && se && mo && si) h
  | SessionLoopMt _ => guard_held (rt && se && mo && si && cf) h
  | LoopCfgCreate ok => guard_held (negb cf) (mkHeld rt se mo si ok)
  | LoopCfgSetMaxThreads _ | LoopCfgSetIdleThreads _ | LoopCfgSetCloneFd _ => guard_held cf h
  | LoopCfgDestroy => guard_held cf (mkHeld rt se mo si false)
  end.

Fixpoint protocol (h : held) (cs : list ffi_call) : option held :=
  match cs with
  | [] => Some h
  | c :: cs => h ← protocol_step h c; protocol h cs
  end.

Section theorems.
Context {N H D S : Type} `{Libc}.
Abbreviation R := (Runtime N H D S).
Context (lib : Libfuse R) (fs : NodeFs N H D S) (s0 : S) (display : PathBuf → string).

Lemma protocol_app h cs cs' : protocol h (cs ++ cs') = protocol h cs ≫= λ h', protocol h' cs'.
Proof.
  revert h. induction cs as [|c cs IH]; intros h; simpl; [done|].
  destruct (protocol_step h c); simpl; [apply IH|done].
Qed.

(** The runtime is boxed exactly while it is held. *)
Definition boxed (h : held) (y : Sys R) : Prop :=
  protocol nothing (sys_calls y) = Some h ∧ (is_Some (sys_runtime y) ↔ h_runtime h = true).

(** Inside a loop that never returns: everything is held. *)
Definition running (cfg : bool) : held := mkHeld true true true true cfg.
Definition looping (y : Sys R) : Prop := ∃ cfg rt,
  boxed (running cfg) y ∧ sys_runtime y = Some rt ∧
  (if cfg then session_loop_mt_312 lib rt else fuse_session_loop lib rt) = None.

(** [moves h m Q]: from a log that leaves [h] held, [m] makes allowed calls
    only; [Q] holds of its result and of what is held in the end. It never
    panics, and hangs only in the loop. *)
Definition moves {A} (h : held) (m : M (Sys R) A) (Q : A → held → Prop) : Prop := ∀ y,
  boxed h y →
  match m y with
  | (Returned a, y') => ∃ h', boxed h' y' ∧ Q a h'
  | (Panicked, _) => False
  | (Blocked, y') => looping y'
  end.

Lemma moves_ret {A} h (a : A) (Q : A → held → Prop) : Q a h → moves h (mret a) Q.
Proof. intros HQ y Hy. by exists h. Qed.

Lemma moves_bind {A B} h (m : M (Sys R) A) (k : A → M (Sys R) B) Q Q' :
  moves h m Q → (∀ a h', Q a h' → moves h' (k a) Q') → moves h (m ≫= k) Q'.
Proof.
  intros Hm Hk y Hy. specialize (Hm y Hy). unfold mbind, M_bind.
  destruct (m y) as [[a| |] y']; [|done..]. destruct Hm as (h' & Hy' & HQ). by apply (Hk a h' HQ).
Qed.

Lemma moves_ffi h c (Q : unit → held → Prop) :
  match protocol_step h c with
  | Some h' => h_runtime h' = h_runtime h ∧ Q tt h'
  | None => False
  end → moves h (ffi c) Q.
Proof.
  destruct (protocol_step h c) as [h'|] eqn:Hs; [|done]. intros [Hr HQ] y [Hp Hb].
  exists h'. split; [|done]. split; simpl.
  - rewrite protocol_app, Hp. simpl. by rewrite Hs.
  - by rewrite Hr.
Qed.

Lemma moves_loop (cfg : bool) (loop : R → option (Z * R)) (c : Z → ffi_call) (Q : Z → held → Prop) :
  loop = (if cfg then session_loop_mt_312 lib else fuse_session_loop lib) →
  (∀ rc, protocol_step (running cfg) (c rc) = Some (running cfg) ∧ Q rc (running cfg)) →
  moves (running cfg) (run_loop loop c) Q.
Proof.
  intros -> Hc y [Hp Hb]. unfold run_loop. destruct (sys_runtime y) as [rt|] eqn:Hrt; cycle 1.
  { destruct Hb as [_ Hb]. by destruct (Hb eq_refl). }
  destruct ((if cfg then _ else _) rt) as [[rc rt']|] eqn:Hloop; cycle 1.
  { exists cfg, rt. split_and!; [split; [done|by rewrite Hrt]|done|by destruct cfg]. }
  destruct (Hc rc) as [Hs HQ]. exists (running cfg). split; [|done].
  split; cbn [sys_calls sys_runtime]; [|split; [done|by eexists]].
  rewrite protocol_app, Hp. cbn [mbind option_bind protocol]. by rewrite Hs.
Qed.

(** Boxing the runtime and recording it are one step, as are freeing it and
    forgetting it. *)
Lemma moves_box rt h (Q : unit → held → Prop) :
  h_runtime h = false → Q tt (mkHeld true (h_session h) (h_mounted h) (h_signals h) (h_cfg h)) →
  moves h (into_raw rt) Q.
Proof.
  intros Hr HQ y [Hp Hb]. eexists. split; [|exact HQ]. split; simpl.
  - rewrite protocol_app, Hp. simpl. destruct h; simpl in *. by subst.
  - split; [done|by eexists].
Qed.

Lemma moves_free h (Q : unit → held → Prop) :
  h_runtime h = true → h_session h = false →
  Q tt (mkHeld false (h_session h) (h_mounted h) (h_signals h) (h_cfg h)) →
  moves h drop_from_raw Q.
Proof.
  intros Hr Hs HQ y [Hp Hb]. eexists. split; [|exact HQ]. split; simpl.
  - rewrite protocol_app, Hp. simpl. destruct h; simpl in *. by subst.
  - split; [by intros []|done].
Qed.

Definition live (m : bool) : held := mkHeld true true m false false.

Lemma moves_drop (s : Session) : moves (live (mounted s)) (Session_drop s) (λ _ h', h' = nothing).
Proof.
  unfold Session_drop. destruct (mounted s).
  - eapply moves_bind; [by apply moves_ffi with (Q := λ _ h', h' = live false)|]. intros _ h' ->.
    eapply moves_bind; [by apply moves_ffi with (Q := λ _ h', h' = mkHeld true false false false false)|].
    intros _ h' ->. by apply moves_free.
  - eapply moves_bind; [by apply moves_ret with (Q := λ _ h', h' = live false)|]. intros _ h' ->.
    eapply moves_bind; [by apply moves_ffi with (Q := λ _ h', h' = mkHeld true false false false false)|].
    intros _ h' ->. by apply moves_free.
Qed.

Lemma moves_loop_config pool :
  moves (running false) (LoopConfig_new lib pool) (λ r h', h' = running (is_ok r)).
Proof.
  unfold LoopConfig_new, validate. case_match; [by apply moves_ret|].
  eapply moves_bind; [by apply moves_ret with (Q := λ r h', r = Ok pool ∧ h' = running false)|].
  intros r h' [-> ->].
  eapply moves_bind.
  { by apply moves_ffi with (Q := λ _ h', h' = running (loop_cfg_create_312 lib)). }
  intros _ h' ->. destruct (loop_cfg_create_312 lib); simpl; [|by apply moves_ret].
  eapply moves_bind; [by apply moves_ffi with (Q := λ _ h', h' = running true)|]. intros _ h' ->.
  eapply moves_bind with (Q := λ _ h', h' = running true).
  { destruct (max_idle_threads pool); [by apply moves_ffi|by apply moves_ret]. }
  intros _ h' ->. eapply moves_bind; [by apply moves_ffi with (Q := λ _ h', h' = running true)|].
  intros _ h' ->. by apply moves_ret.
Qed.

Lemma moves_run (s : Session) : moves (live true) (run lib s) (λ _ h', h' = live true).
Proof.
  unfold run. eapply moves_bind.
  { by apply moves_ffi with
      (Q := λ _ h', h' = mkHeld true true true (fuse_set_signal_handlers lib =? 0) false). }
  intros _ h' ->. destruct (fuse_set_signal_handlers lib =? 0); simpl; [|by apply moves_ret].
  eapply moves_bind with (Q := λ r h', h' = if is_ok r then running false else live true).
  - destruct (threading (config s)) as [|pool].
    + eapply moves_bind; [by apply moves_loop with (Q := λ _ h', h' = running false)|].
      intros rc h' ->. by apply moves_ret.
    + eapply moves_bind; [apply moves_loop_config|]. intros [[]|e] h' ->; simpl.
      * eapply moves_bind; [by apply moves_loop with (Q := λ _ h', h' = running true)|]. intros rc h' ->.
        eapply moves_bind; [by apply moves_ffi with (Q := λ _ h', h' = running false)|].
        intros _ h' ->. by apply moves_ret.
      * eapply moves_bind; [by apply moves_ffi with (Q := λ _ h', h' = live true)|].
        intros _ h' ->. by apply moves_ret.
  - intros [rc|e] h' ->; simpl; [|by apply moves_ret].
    eapply moves_bind; [by apply moves_ffi with (Q := λ _ h', h' = live true)|].
    intros _ h' ->. destruct (rc =? 0); by apply moves_ret.
Qed.

Lemma moves_mount (s : Session) mp :
  mounted s = false → moves (live false) (mount lib display s mp) (λ '(r, s') h',
    h' = live (mounted s') ∧ mounted s' = is_ok r).
Proof.
  intros Hs. unfold mount. destruct (cstring_new mp) as [c|]; [|apply moves_ret; by rewrite Hs].
  eapply moves_bind; [by apply moves_ffi with (Q := λ _ h', h' = live (fuse_session_mount lib c =? 0))|].
  intros _ h' ->. destruct (fuse_session_mount lib c =? 0); simpl; apply moves_ret; simpl; [done|by rewrite Hs].
Qed.

(** What follows the creation of a session, in both entry points. *)
Lemma moves_body (s : Session) mp :
  mounted s = false →
  moves (live false)
    ('(r, session) ← mount lib display s mp;
     match r with
     | Err error => Session_drop session;; mret (Err error)
     | Ok _ => r ← run lib session; Session_drop session;; mret r
     end) (λ _ h', h' = nothing).
Proof.
  intros Hs. eapply moves_bind; [by apply moves_mount|]. intros [[[]|e] s'] h' [-> Hm]; simpl in Hm.
  - eapply moves_bind; [rewrite Hm; apply moves_run|]. intros r h' ->. rewrite <- Hm.
    eapply moves_bind; [apply moves_drop|]. intros _ h' ->. by apply moves_ret.
  - eapply moves_bind; [apply moves_drop|]. intros _ h' ->. by apply moves_ret.
Qed.

(** An option with a NUL. *)
Definition has_nul (s : string) : Prop := Ascii.zero ∈ String.list_ascii_of_string s.
#[local] Instance has_nul_dec s : Decision (has_nul s) := _.

Lemma list_ascii_app s t : String.list_ascii_of_string (s ++ t) = String.list_ascii_of_string s ++ String.list_ascii_of_string t.
Proof. induction s as [|c s IH]; simpl; [done|]. f_equal. exact IH. Qed.

Lemma concat_nul (l : list string) : has_nul (String.concat "," l) → Exists has_nul l.
Proof.
  induction l as [|s [|t l] IH]; [by intros ?%elem_of_nil|by left|].
  intros Hn. change (has_nul (s ++ "," ++ String.concat "," (t :: l))) in Hn. unfold has_nul in Hn.
  rewrite !list_ascii_app in Hn. apply elem_of_app in Hn as [?|[Hn|?]%elem_of_app]; [by left| |right; by apply IH].
  simpl in Hn. by apply elem_of_cons in Hn as [?|?%elem_of_nil].
Qed.

Lemma arg_cstrings_none options :
  arg_cstrings (arg_strings options) = None → Exists (λ o, has_nul (render o)) options.
Proof.
  unfold arg_strings. destruct options as [|o options]; [done|]. intros Ha.
  change (arg_cstrings ["fuse3"; "-o"; String.concat "," (render <$> o :: options)]%string = None) in Ha.
  assert (cstring_new (String.concat "," (render <$> o :: options)) = None) as Hc.
  { revert Ha. generalize (String.concat "," (render <$> o :: options)). intros x Ha.
    cbn [arg_cstrings] in Ha. rewrite (eq_refl : cstring_new "fuse3" = Some "fuse3"%string) in Ha.
    rewrite (eq_refl : cstring_new "-o" = Some "-o"%string) in Ha. destruct (cstring_new x); [discriminate Ha|done]. }
  unfold cstring_new in Hc. case_bool_decide as Hn; [|done]. 
  apply concat_nul in Hn. by rewrite Exists_fmap in Hn.
Qed.

(** The creation itself: it panics or hangs before any call, for one of two
    reasons, or it leaves nothing behind when it fails. *)
Definition unborn {A} (options : list MountOption) (res : outcome A * Sys R) : Prop :=
  match res.1 with
  | Returned _ => False
  | Panicked => Exists (λ o, has_nul (render o)) options ∨ (Runtime_new fs s0 tt).1 = Panicked
  | Blocked => (Runtime_new fs s0 tt).1 = Blocked
  end ∧ res.2 = mkSys [] None.

Lemma new_moves options config :
  let res := new_with_config lib fs s0 options config (mkSys [] None) in
  unborn options res ∨
  ∃ r h', res.1 = Returned r ∧ boxed h' res.2 ∧
    match r with Ok s => h' = live false ∧ mounted s = false | Err _ => h' = nothing end.
Proof.
  assert (boxed nothing (mkSys [] None : Sys R)) as Hstart by (split; [done|split; [by intros []|done]]).
  unfold new_with_config.
  destruct (match threading config with MultiThreaded _ => _ | _ => _ end) as [[]|e];
    [|right; by exists (Err e), nothing].
  destruct (arg_cstrings _) as [argv|] eqn:Hargs; [|left; split; [left; by apply arg_cstrings_none|done]].
  unfold try_bind, new_runtime, unborn, mbind, M_bind. simpl.
  destruct (Runtime_new fs s0 tt) as [[[]| |] w]; [|left; split; [by right|done]|left; by split]. right.
  destruct (fuse_session_new lib argv); simpl.
  - eexists _, (live false). split_and!; [done| |done]. split; simpl; [done|split; [done|by eexists]].
  - eexists _, nothing. split_and!; [done| |done]. split; simpl; [done|split; [by intros []|done]].
Qed.

(** How a session ends: it came back and holds nothing, or it was not even
    created, or it is still in a loop that never returns. *)
Definition session_ends {A} (options : list MountOption) (res : outcome A * Sys R) : Prop :=
  match res with
  | (Returned _, y) => protocol nothing (sys_calls y) = Some nothing ∧ sys_runtime y = None
  | (Panicked, y) => unborn options res
  | (Blocked, y) => unborn options res ∨ looping y
  end.

Lemma entry_point {B} options (m : M (Sys R) (Result Error Session)) (body : Session → M (Sys R) (Result Error B)) :
  (unborn options (m (mkSys [] None)) ∨
   ∃ r h', (m (mkSys [] None)).1 = Returned r ∧ boxed h' (m (mkSys [] None)).2 ∧
     match r with Ok s => h' = live false ∧ mounted s = false | Err _ => h' = nothing end) →
  (∀ s, mounted s = false → moves (live false) (body s) (λ _ h', h' = nothing)) →
  session_ends options (try_bind m body (mkSys [] None)).
Proof.
  intros Hm Hbody.
  assert (∀ y : Sys R, boxed nothing y → protocol nothing (sys_calls y) = Some nothing ∧ sys_runtime y = None)
    as Hend.
  { intros y [Hp [Hrt _]]. split; [done|]. destruct (sys_runtime y); [|done]. discriminate Hrt. by eexists. }
  unfold try_bind, mbind, M_bind. destruct (m (mkSys [] None)) as [o y]. destruct Hm as [Hu|(r & h' & Hr & Hb & Hs)].
  - destruct o; [by destruct Hu|done|by left].
  - simpl in Hr, Hb. subst o. destruct r as [s|e].
    + destruct Hs as [-> Hs]. specialize (Hbody s Hs y Hb).
      destruct (body s y) as [[a| |] y']; [|done|by right]. destruct Hbody as (h' & Hb' & ->). by apply Hend.
    + simpl. subst h'. by apply Hend.
Qed.

(** C19: [mount_and_run] and [mount_and_run_with_config] use libfuse properly
    whatever libfuse answers: when they return, with success or with an error,
    their calls follow the protocol (no call on something not held; the session
    destroyed unmounted and without signal handlers, before its runtime is
    freed) and nothing is still held: the runtime is freed exactly once, every
    mount is unmounted, signal handlers and loop configuration are gone. They
    panic only over a NUL in an option or in the filesystem's own set-up, and
    before any call; and when they do not return, it is the set-up that hangs,
    before any call, or libfuse's loop, in which the session is mounted, its
    handlers are installed and its runtime is alive. *)
Theorem session_releases_everything mountpoint options config :
  session_ends options (mount_and_run_with_config lib fs s0 display mountpoint options config (mkSys [] None)) ∧
  session_ends options (mount_and_run lib fs s0 display mountpoint options (mkSys [] None)).
Proof. split; (apply entry_point; [apply new_moves|intros; by apply moves_body]). Qed.

Lemma new_with_config_flag options config y s y' rt :
  new_with_config lib fs s0 options config y = (Returned (Ok s), y') → sys_runtime y' = Some rt →
  rt_parallel_dirops rt = is_multi (threading config).
Proof.
  unfold new_with_config. destruct (match threading config with MultiThreaded _ => _ | _ => _ end) as [[]|e]; [|done].
  destruct (arg_cstrings _) as [argv|]; [|done].
  unfold try_bind, new_runtime, mbind, M_bind. simpl.
  destruct (Runtime_new fs s0 tt) as [[[]| |] w]; [|done..].
  destruct (fuse_session_new lib argv); simpl; [|done]. unfold mret, M_ret.
  intros ? Hrt. by simplify_eq/=.
Qed.

(** C37: parallel directory operations are requested exactly when they are safe
    and possible: for a filesystem that leaves [init] at its default, the
    [init] callback of a session turns on bit 18 of the connection's wanted
    capabilities if the session is multi-threaded and the kernel has the
    capability, and changes nothing else in the connection or the runtime. *)
Theorem init_requests_parallel_dirops options config y s y' rt link partial conn :
  new_with_config lib fs s0 options config y = (Returned (Ok s), y') → sys_runtime y' = Some rt →
  fs_init fs = default_init →
  let want := fc_want conn in
  init_shim fs partial conn (mkWorld rt link) =
    (Returned (mkFuseConn (fc_proto_major conn) (fc_proto_minor conn) (fc_max_write conn)
       (fc_max_readahead conn) (fc_capable conn)
       (if is_multi (threading config) && Z.testbit (fc_capable conn) 18 then Z.lor want (2 ^ 18) else want)),
     mkWorld rt link).
Proof.
  intros Hnew Hrt Hinit. pose proof (new_with_config_flag _ _ _ _ _ _ Hnew Hrt) as Hflag.
  unfold init_shim, catch_unwind_unit, init, gets, mbind, M_bind.
  cbn [w_rt]. rewrite Hflag, Hinit. destruct (is_multi _); cbn [andb]; [|by destruct conn].
  unfold set_enabled. rewrite capability_bit_pow2, land_pow2_zero by done.
  change (conn_capable (conn_read conn)) with (fc_capable conn). change (capability_index _) with 18.
  destruct (Z.testbit (fc_capable conn) 18); [done|by destruct conn].
Qed.
End theorems.

(** ** A session on the sample filesystem *)
Section sample.
Local Existing Instance linux_libc.

Definition sample_lib : Libfuse (Runtime nat nat nat (option NodeId)) := {|
  fuse_session_new := λ _, true;
  fuse_session_mount := λ _, 0;
  fuse_set_signal_handlers := 0;
  fuse_session_loop := λ rt, Some (0, rt);
  session_loop_mt_312 := λ rt, Some (0, rt);
  loop_cfg_create_312 := true;
|}.

Definition sample_conn : fuse_conn_info := mkFuseConn 7 38 4096 65536 (2 ^ 18 + 1) 1.
Definition sample_runtime : Runtime nat nat nat (option NodeId) :=
  set_parallel_dirops true (Runtime_start sample_fs None).

Lemma init_requests_parallel_dirops_witness :
  init_shim sample_fs id sample_conn (mkWorld sample_runtime (mkLink (DirBuffer_new 0) [])) =
    (Returned (mkFuseConn 7 38 4096 65536 (2 ^ 18 + 1) (2 ^ 18 + 1)),
     mkWorld sample_runtime (mkLink (DirBuffer_new 0) [])).
Proof.
  apply (init_requests_parallel_dirops sample_lib sample_fs None [ReadOnly] SessionConfig_default (mkSys [] None)
    (mkSession false ["fuse3"; "-o"; "ro"] SessionConfig_default)
    (mkSys [RuntimeIntoRaw; SessionNewCall ["fuse3"; "-o"; "ro"] true; OptFreeArgs] (Some sample_runtime))
    sample_runtime (mkLink (DirBuffer_new 0) []) id sample_conn);
    vm_compute; reflexivity.
Defined.
End sample.
