(* ===== verification/Passthrough.v ===== *)
(** * Helpers for passthrough filesystems ([fuse3/src/passthrough.rs])

    Attributes of backing files, the no-follow extended attribute wrappers,
    the [utimens] permission check, and the wrappers that change modes, owners
    and times. The system calls are a parameter, class [Syscalls]. *)

From S2P Require Import Prelude Types Conv Ffi.

(** ** Attribute conversions *)

(** [std::fs::Metadata] wraps the [struct stat] of the system call; the birth
    time may be unsupported. *)
Record Metadata := mkMetadata { md_stat : stat; md_created : option SystemTime }.

Record timespec := mkTimespec { tv_sec : Z; tv_nsec : Z }.

#[export] Instance timespec_eq_dec : EqDecision timespec.
Proof. solve_decision. Defined.

Section attributes.
Context `{Libc}.

(** The [FileType] predicates compare the masked mode. *)
Definition file_type_is (metadata : Metadata) (bits : Z) : bool :=
  Z.land (st_mode (md_stat metadata)) (as_u32 libc_S_IFMT) =? as_u32 bits.

Definition file_type_from_metadata (metadata : Metadata) : FileKind :=
  let ft := file_type_is metadata in
  if ft libc_S_IFDIR then Directory
  else if ft libc_S_IFLNK then Symlink
  else if ft libc_S_IFBLK then BlockDevice
  else if ft libc_S_IFCHR then CharDevice
  else if ft libc_S_IFIFO then NamedPipe
  else if ft libc_S_IFSOCK then Socket
  else RegularFile.

(** [None] is a panic: of [Duration::new], or of [+] on times. *)
Definition system_time_from_secs (secs nanos : Z) : option SystemTime :=
  if 0 <=? secs then
    d ← duration_new (as_u64 secs) (as_u32 nanos);
    time_checked_add UNIX_EPOCH d
  else
    duration ← (if nanos =? 0 then duration_new (Z.abs secs) 0
                else duration_new (Z.abs secs - 1) (as_u32 (1000000000 - as_u32 nanos)));
    Some (default UNIX_EPOCH (time_checked_sub UNIX_EPOCH duration)).

Definition file_attr_from_metadata (metadata : Metadata) (size : Z) : option NodeAttr :=
  let st := md_stat metadata in
  atime ← system_time_from_secs (st_atim st).1 (st_atim st).2;
  mtime ← system_time_from_secs (st_mtim st).1 (st_mtim st).2;
  ctime ← system_time_from_secs (st_ctim st).1 (st_ctim st).2;
  Some {|
    attr_size := size;
    attr_blocks := as_u64 (st_blocks st);
    attr_atime := atime;
    attr_mtime := mtime;
    attr_ctime := ctime;
    attr_crtime := default UNIX_EPOCH (md_created metadata);
    attr_kind := file_type_from_metadata metadata;
    attr_perm := as_u16 (Z.land (st_mode st) 4095);
    attr_nlink := as_u32 (st_nlink st);
    attr_uid := st_uid st;
    attr_gid := st_gid st;
    attr_rdev := as_u32 (st_rdev st);
    attr_flags := 0;
    attr_blksize := as_u32 (as_u64 (st_blksize st));
  |}.

(** [u64::div_ceil]. *)
Definition div_ceil (x y : Z) : Z := if x `mod` y =? 0 then x `div` y else x `div` y + 1.

Definition synthetic_file_attr (size : Z) (mtime : SystemTime) (perm uid gid : Z) : NodeAttr := {|
  attr_size := size;
  attr_blocks := div_ceil size 512;
  attr_atime := mtime;
  attr_mtime := mtime;
  attr_ctime := mtime;
  attr_crtime := mtime;
  attr_kind := RegularFile;
  attr_perm := perm;
  attr_nlink := 1;
  attr_uid := uid;
  attr_gid := gid;
  attr_rdev := 0;
  attr_flags := 0;
  attr_blksize := 4096;
|}.

Definition to_timespec (t : option SystemTime) : timespec :=
  match t with
  | Some ts =>
      let d := match duration_since ts UNIX_EPOCH with Ok d => d | Err _ => 0 end in
      mkTimespec (as_i64 (as_secs d)) (subsec_nanos d)
  | None => mkTimespec 0 libc_UTIME_OMIT
  end.

Definition c_path (path : PathBuf) : Result Errno string := ok_or (cstring_new path) EINVAL.
Definition c_name (name : OsString) : Result Errno string := ok_or (cstring_new name) EINVAL.

Definition is_apple_xattr (name : string) : bool := String.prefix "com.apple." name.
End attributes.

(** ** System calls

    Each returns what the C function returns, with the buffer it filled where
    it has one; [errno] is [std::io::Error::last_os_error]. *)
Class Syscalls (OS : Type) := {
  lsetxattr : string → string → bytes → Z → M OS Z;
  lgetxattr : string → string → bytes → Z → M OS (Z * bytes);
  llistxattr : string → bytes → Z → M OS (Z * bytes);
  lremovexattr : string → string → M OS Z;
  getuid : M OS Z;
  getgid : M OS Z;
  fchown : Z → Z → Z → M OS Z;
  chown : string → Z → Z → M OS Z;
  lchown : string → Z → Z → M OS Z;
  fchmod : Z → Z → M OS Z;
  set_permissions : PathBuf → Z → M OS (Result io_error unit);
  futimens : Z → timespec * timespec → M OS Z;
  utimensat : Z → string → timespec * timespec → Z → M OS Z;
  mkfifo : string → Z → M OS Z;
  sys_mknod : string → Z → Z → M OS Z;
  errno : M OS io_error;
  now : M OS SystemTime;
  AT_FDCWD : Z;
  AT_SYMLINK_NOFOLLOW : Z;
}.

Section syscalls.
Context {OS : Type} `{Libc, Syscalls OS}.

Definition last_errno : M OS Errno := e ← errno; mret (errno_of_io_error e).

(** [if ret == 0 { Ok(()) } else { Err(last_os_error) }]. *)
Definition check_zero (ret : Z) : M OS (Result Errno unit) :=
  if ret =? 0 then mret (Ok tt) else e ← last_errno; mret (Err e).

Definition setxattr_nofollow (path name : string) (value : bytes) (flags : Z) : M OS (Result Errno unit) :=
  ret ← lsetxattr path name value flags;
  check_zero ret.

(** The buffer is passed by reference: the result comes with its contents. An
    empty buffer is passed as a null pointer. *)
Definition getxattr_nofollow (path name : string) (buf : bytes) : M OS (Result Errno Z * bytes) :=
  let size := Z.of_nat (length buf) in
  '(ret, buf) ← lgetxattr path name buf size;
  if ret <? 0 then e ← last_errno; mret (Err e, buf) else mret (Ok ret, buf).

Definition getxattr_value_nofollow (path name : string) : M OS (Result Errno bytes) :=
  '(size, _) ← getxattr_nofollow path name [];
  match size with
  | Err e => mret (Err e)
  | Ok size =>
      '(len, value) ← getxattr_nofollow path name (zeros (Z.to_nat size));
      match len with
      | Err e => mret (Err e)
      | Ok len => mret (Ok (take (Z.to_nat len) value))
      end
  end.

Definition listxattr_nofollow (path : string) (buf : bytes) : M OS (Result Errno Z * bytes) :=
  let size := Z.of_nat (length buf) in
  '(ret, buf) ← llistxattr path buf size;
  if ret <? 0 then e ← last_errno; mret (Err e, buf) else mret (Ok ret, buf).

(** [slice::split] on a predicate: one more piece than there are separators. *)
Fixpoint split_zero (buf : bytes) : list bytes :=
  match buf with
  | [] => [[]]
  | c :: buf =>
      match split_zero buf with
      | piece :: pieces => if c =? 0 then [] :: piece :: pieces else (c :: piece) :: pieces
      | [] => []
      end
  end.

(** [c_char] is signed: [c as u8] maps it back to a byte. *)
Definition listxattr_names_nofollow (path : string) : M OS (Result Errno (list bytes)) :=
  '(size, _) ← listxattr_nofollow path [];
  match size with
  | Err e => mret (Err e)
  | Ok size =>
      '(len, buf) ← listxattr_nofollow path (zeros (Z.to_nat size));
      match len with
      | Err e => mret (Err e)
      | Ok len =>
          let buf := take (Z.to_nat len) buf in
          mret (Ok (map (map (as_unsigned 8)) (filter (λ name, name ≠ []) (split_zero buf))))
      end
  end.

Definition removexattr_nofollow (path name : string) : M OS (Result Errno unit) :=
  ret ← lremovexattr path name;
  check_zero ret.

(** ** The permission check of [utimens] *)

Definition near_now (now t : SystemTime) : bool :=
  let max := (u64_max + 1) * nanos_per_sec - 1 in
  let or_max (r : Result Duration Duration) := match r with Ok d => d | Err _ => max end in
  (or_max (duration_since now t) <? 10000000) || (or_max (duration_since t now) <? 10000000).

Definition is_none_or (t : option SystemTime) (f : SystemTime → bool) : bool :=
  match t with None => true | Some t => f t end.

Definition utimens_permission_check (caller : Caller) (file_uid file_gid mode : Z)
    (atime mtime : option SystemTime) : M OS (Result Errno unit) :=
  if caller_uid caller =? 0 then mret (Ok tt)
  else if caller_uid caller =? file_uid then mret (Ok tt)
  else
    let setting_atime := bool_decide (is_Some atime) in
    let setting_mtime := bool_decide (is_Some mtime) in
    if negb setting_atime && negb setting_mtime then mret (Ok tt)
    else
      now ← now;
      let setting_to_current := is_none_or atime (near_now now) && is_none_or mtime (near_now now) in
      if setting_to_current : bool then
        let has_write :=
          ((caller_uid caller =? file_uid) && negb (Z.land mode 128 =? 0))
          || ((caller_gid caller =? file_gid) && negb (Z.land mode 16 =? 0))
          || negb (Z.land mode 2 =? 0) in
        if has_write : bool then mret (Ok tt) else mret (Err EACCES)
      else mret (Err EPERM).

(** ** Ownership, modes and times *)

(** A failed change of owner is an error unless it is [EPERM]. *)
Definition unless_eperm (ret : Z) : M OS (Result Errno unit) :=
  if ret =? -1 then
    err ← errno;
    match err with
    | OsError code => if code =? libc_EPERM then mret (Ok tt) else mret (Err (errno_of_io_error err))
    | CustomError => mret (Err (errno_of_io_error err))
    end
  else mret (Ok tt).

Definition set_ownership_fd (fd : Z) (caller : Caller) : M OS (Result Errno unit) :=
  uid ← getuid;
  gid ← getgid;
  if (caller_uid caller =? uid) && (caller_gid caller =? gid) then mret (Ok tt)
  else ret ← fchown fd (caller_uid caller) (caller_gid caller); unless_eperm ret.

Definition set_ownership_path (path : PathBuf) (caller : Caller) : M OS (Result Errno unit) :=
  uid ← getuid;
  gid ← getgid;
  if (caller_uid caller =? uid) && (caller_gid caller =? gid) then mret (Ok tt)
  else
    c_path ←? mret (c_path path);
    ret ← chown c_path (caller_uid caller) (caller_gid caller); unless_eperm ret.

Definition chmod_fd (fd mode : Z) : M OS (Result Errno unit) :=
  ret ← fchmod fd mode; check_zero ret.

Definition chmod_path (path : PathBuf) (mode : Z) : M OS (Result Errno unit) :=
  r ← set_permissions path mode;
  mret (match r with Ok _ => Ok tt | Err e => Err (errno_of_io_error e) end).

Definition chown_fd (fd : Z) (uid gid : option Z) : M OS (Result Errno unit) :=
  ret ← fchown fd (default u32_max uid) (default u32_max gid); check_zero ret.

Definition chown_path (path : PathBuf) (uid gid : option Z) : M OS (Result Errno unit) :=
  c_path ←? mret (c_path path);
  ret ← lchown c_path (default u32_max uid) (default u32_max gid); check_zero ret.

Definition utimens_fd (fd : Z) (atime mtime : option SystemTime) : M OS (Result Errno unit) :=
  let times := (to_timespec atime, to_timespec mtime) in
  ret ← futimens fd times; check_zero ret.

Definition utimens_path (path : PathBuf) (atime mtime : option SystemTime) : M OS (Result Errno unit) :=
  c_path ←? mret (c_path path);
  let times := (to_timespec atime, to_timespec mtime) in
  ret ← utimensat AT_FDCWD c_path times AT_SYMLINK_NOFOLLOW; check_zero ret.

Definition mknod (path : PathBuf) (mode rdev : Z) : M OS (Result Errno unit) :=
  c_path ←? mret (c_path path);
  let mode_t := mode in
  let mode_bits := Z.land mode_t libc_S_IFMT in
  if mode_bits =? libc_S_IFIFO then ret ← mkfifo c_path mode_t; check_zero ret
  else if (mode_bits =? libc_S_IFCHR) || (mode_bits =? libc_S_IFBLK) || (mode_bits =? libc_S_IFSOCK)
  then ret ← sys_mknod c_path mode_t rdev; check_zero ret
  else mret (Err EINVAL).
End syscalls.

(** ** Timestamps and attributes of backing files *)

Lemma system_time_from_secs_exact secs nanos :
  is_i64 secs → 0 ≤ nanos < nanos_per_sec →
  system_time_from_secs secs nanos = Some (secs * nanos_per_sec + nanos).
Proof.
  intros Hs Hn. unfold system_time_from_secs.
  assert (as_u32 nanos = nanos) as Hnanos by (apply as_u32_small; time_lia). rewrite !Hnanos.
  destruct (Z.leb_spec 0 secs).
  - rewrite as_u64_small by int_lia. rewrite duration_new_ok by time_lia. simpl.
    by rewrite time_checked_add_ok by time_lia.
  - destruct (Z.eqb_spec nanos 0) as [->|].
    + rewrite duration_new_ok by time_lia. simpl.
      rewrite time_checked_sub_ok by time_lia. simpl. f_equal. time_lia.
    + rewrite as_u32_small by time_lia. rewrite duration_new_ok by time_lia. simpl.
      rewrite time_checked_sub_ok by time_lia. simpl. f_equal. time_lia.
Qed.

(** The two conversions of a C timestamp to a [SystemTime], that of the
    passthrough helpers and that of the session, agree on every normalised
    timestamp, never panic, and are inverted by the conversion that replies
    use: a backing file's times reach the kernel unchanged, before the epoch
    too. *)
Theorem backing_times_survive (secs nanos : Z) (Hs : is_i64 secs) (Hn : 0 ≤ nanos < nanos_per_sec) :
  system_time_from_secs secs nanos = secs_nsecs_to_system_time secs nanos ∧
  ∃ t, system_time_from_secs secs nanos = Some t ∧ is_system_time t ∧
    system_time_to_secs_nsecs t = (secs, nanos).
Proof.
  rewrite system_time_from_secs_exact, secs_nsecs_total by done. split; [done|].
  eexists. split; [done|]. assert (is_system_time (secs * nanos_per_sec + nanos)) by time_lia.
  split; [done|]. rewrite system_time_floor by done. f_equal; time_lia.
Qed.

Lemma backing_times_survive_witness :
  is_i64 (-1) ∧ 0 ≤ 500000000 < nanos_per_sec ∧
  ∃ t, system_time_from_secs (-1) 500000000 = Some t ∧ is_system_time t ∧
    system_time_to_secs_nsecs t = (-1, 500000000).
Proof.
  assert (is_i64 (-1)) as Hs by int_lia.
  assert (0 ≤ 500000000 < nanos_per_sec) as Hn by (unfold nanos_per_sec; lia).
  split_and!; [exact Hs|apply Hn|apply Hn|]. apply (backing_times_survive (-1) 500000000 Hs Hn).
Defined.

Section backing.
Context `{LibcModeOk}.

(** What the kernel may put in a [struct stat]. *)
Definition backing_ok (st : stat) : Prop :=
  stat_times_ok st ∧ is_u32 (st_mode st) ∧ is_u32 (st_nlink st) ∧ is_u32 (st_rdev st) ∧
  is_u32 (st_blksize st) ∧ 0 ≤ st_blocks st ≤ i64_max ∧ 0 ≤ st_size st ≤ i64_max ∧
  ∃ kind, Z.land (st_mode st) (as_u32 libc_S_IFMT) = kind_to_mode_bits kind.

Lemma file_type_of_kind md kind :
  Z.land (st_mode (md_stat md)) (as_u32 libc_S_IFMT) = kind_to_mode_bits kind →
  file_type_from_metadata md = kind.
Proof.
  intros Hk. unfold file_type_from_metadata, file_type_is. rewrite Hk.
  repeat match goal with
  | |- context [kind_to_mode_bits kind =? as_u32 ?b] =>
      destruct (Z.eqb_spec (kind_to_mode_bits kind) (as_u32 b)) as [Heq|?]; cbv iota;
      [apply kind_bits_inj; rewrite Heq; reflexivity|]
  end.
  destruct kind; try done;
    match goal with Hne : kind_to_mode_bits ?k ≠ ?b |- _ => by destruct (Hne eq_refl) end.
Qed.

(** C32: the attributes of a backing file survive the way to the kernel: the
    [stat] that a reply carries, made from the [Metadata] of a file whose
    fields fit, has the backing file's type and permission bits, links, owner,
    device, blocks and times, the inode of the mount, and the size that the
    filesystem chose. *)
Theorem backing_attributes_survive (ino size : Z) (md : Metadata)
    (Hmd : backing_ok (md_stat md)) (Hsize : 0 ≤ size ≤ i64_max) :
  let st := md_stat md in
  ∃ attr, file_attr_from_metadata md size = Some attr ∧
    attr_to_stat ino attr = {|
      st_ino := ino;
      st_mode := Z.lor (Z.land (st_mode st) (as_u32 libc_S_IFMT)) (Z.land (st_mode st) 4095);
      st_nlink := st_nlink st; st_uid := st_uid st; st_gid := st_gid st; st_rdev := st_rdev st;
      st_size := size; st_blocks := st_blocks st; st_blksize := st_blksize st;
      st_atim := st_atim st; st_mtim := st_mtim st; st_ctim := st_ctim st;
    |}.
Proof.
  destruct Hmd as ((Ha & Hm & Hc) & Hmode & Hnl & Hrd & Hbs & Hbl & Hsz & kind & Hk).
  assert (∀ ts : Z * Z, is_i64 ts.1 ∧ 0 ≤ ts.2 < nanos_per_sec →
    ∃ t, system_time_from_secs ts.1 ts.2 = Some t ∧ system_time_to_secs_nsecs t = ts) as Ht.
  { intros [s n] [Hs Hn]. simpl in Hs, Hn. exists (s * nanos_per_sec + n). simpl. rewrite system_time_from_secs_exact by done.
    split; [done|]. rewrite system_time_floor by time_lia. f_equal; time_lia. }
  destruct (Ht _ Ha) as (ta & Hta & Ha'), (Ht _ Hm) as (tm & Htm & Hm'), (Ht _ Hc) as (tc & Htc & Hc').
  unfold file_attr_from_metadata. rewrite Hta, Htm, Htc. simpl. eexists. split; [done|].
  unfold attr_to_stat. simpl. rewrite Ha', Hm', Hc', (file_type_of_kind md kind Hk), <- Hk.
  assert (as_u16 (Z.land (st_mode (md_stat md)) 4095) = Z.land (st_mode (md_stat md)) 4095) as ->.
  { unfold as_u16, as_unsigned. apply Z.mod_small. change 4095 with (Z.ones 12). rewrite Z.land_ones by lia.
    pose proof (Z.mod_pos_bound (st_mode (md_stat md)) (2 ^ 12)). lia. }
  rewrite <- Z.land_assoc. change (Z.land 4095 4095) with 4095.
  rewrite (as_u64_small (st_blksize _)), (as_u64_small (st_blocks _)) by int_lia.
  rewrite (as_u32_small (st_nlink _)), (as_u32_small (st_rdev _)), (as_u32_small (st_blksize _)) by done.
  by rewrite !as_i64_small by int_lia.
Qed.
End backing.

Definition sample_backing : Metadata :=
  mkMetadata (mkStat 99 33188 2 1000 1000 0 12 8 4096 (100, 250) (-2, 500000000) (0, 0)) None.

Lemma backing_attributes_survive_witness :
  ∃ attr, file_attr_from_metadata sample_backing 7 = Some attr ∧
    attr_to_stat 42 attr = mkStat 42 33188 2 1000 1000 0 7 8 4096 (100, 250) (-2, 500000000) (0, 0).
Proof.
  destruct (backing_attributes_survive 42 7 sample_backing) as (attr & Ha & Hst).
  - unfold backing_ok, stat_times_ok, sample_backing; simpl. unfold nanos_per_sec.
    split_and!; try int_lia. exists RegularFile. reflexivity.
  - int_lia.
  - exists attr. split; [exact Ha|]. exact Hst.
Defined.

(** ** Times sent to the backing file *)

(** [to_timespec] loses nothing from the epoch on: the C time it makes is
    read back as the same time; a time before the epoch is clamped to the
    epoch itself, and only [None] is the marker that leaves the timestamp
    alone. *)
Theorem to_timespec_spec `{Libc} (t : SystemTime) (Ht : is_system_time t) :
  let ts := to_timespec (Some t) in
  (0 ≤ t → system_time_from_secs (tv_sec ts) (tv_nsec ts) = Some t) ∧
  (t < 0 → ts = mkTimespec 0 0) ∧
  0 ≤ tv_nsec ts < nanos_per_sec ∧
  tv_nsec (to_timespec None) = libc_UTIME_OMIT.
Proof.
  simpl. unfold to_timespec, duration_since, UNIX_EPOCH. split_and!; try done.
  - intros Hp. rewrite decide_True by done. simpl.
    rewrite as_i64_small by time_lia. rewrite system_time_from_secs_exact; [f_equal|..]; time_lia.
  - intros Hn. by rewrite decide_False by lia.
  - case_decide; simpl; time_lia.
  - case_decide; simpl; time_lia.
Qed.

Lemma to_timespec_spec_witness :
  is_system_time (-1500000000) ∧ to_timespec (Some (-1500000000)) = mkTimespec 0 0.
Proof.
  assert (is_system_time (-1500000000)) as Ht by (vm_compute; split; congruence).
  split; [exact Ht|]. apply (to_timespec_spec (-1500000000) Ht). reflexivity.
Defined.

(** ** The permission check *)
Section permission.
Context {OS : Type} `{Libc, !Syscalls OS}.

Definition asks_for_now (now : SystemTime) (t : option SystemTime) : Prop :=
  match t with Some t => Z.abs (now - t) < 10000000 | None => True end.

#[export] Instance asks_for_now_dec now t : Decision (asks_for_now now t).
Proof. unfold asks_for_now. destruct t; apply _. Defined.

Lemma near_now_spec now t : near_now now t = bool_decide (Z.abs (now - t) < 10000000).
Proof.
  unfold near_now, duration_since, nanos_per_sec, u64_max. repeat case_decide; case_bool_decide;
    repeat match goal with |- context [?a <? ?b] => destruct (Z.ltb_spec a b) end; simpl; try done; lia.
Qed.

Lemma is_none_or_spec now t : is_none_or t (near_now now) = bool_decide (asks_for_now now t).
Proof. destruct t; [apply near_now_spec|done]. Qed.

(** C36: the permission check of [utimens] on every branch: root, the owner, and
    a caller that changes nothing may; another caller may set times to within
    10 ms of the clock if the file is writable by the caller's group, when it
    is the file's, or by everyone, and gets [EACCES] if it is not; any explicit
    time gives it [EPERM]. The clock is the only thing the check consults. *)
Theorem utimens_permission_spec caller file_uid file_gid mode atime mtime os os' t
    (Hnow : now os = (Returned t, os')) :
  let privileged := caller_uid caller = 0 ∨ caller_uid caller = file_uid in
  let unchanged := atime = None ∧ mtime = None in
  let current := asks_for_now t atime ∧ asks_for_now t mtime in
  let writable := (caller_gid caller = file_gid ∧ Z.testbit mode 4 = true) ∨ Z.testbit mode 1 = true in
  let r := utimens_permission_check caller file_uid file_gid mode atime mtime os in
  (privileged ∨ unchanged → r = (Returned (Ok tt), os)) ∧
  (¬ privileged → ¬ unchanged → current → writable → r = (Returned (Ok tt), os')) ∧
  (¬ privileged → ¬ unchanged → current → ¬ writable → r = (Returned (Err EACCES), os')) ∧
  (¬ privileged → ¬ unchanged → ¬ current → r = (Returned (Err EPERM), os')).
Proof.
  cbv zeta. unfold utimens_permission_check.
  destruct (Z.eqb_spec (caller_uid caller) 0); [by split_and!; intros; try tauto|].
  destruct (Z.eqb_spec (caller_uid caller) file_uid); [by split_and!; intros; try tauto|].
  assert (negb (bool_decide (is_Some atime)) && negb (bool_decide (is_Some mtime)) =
    bool_decide (atime = None ∧ mtime = None)) as ->.
  { destruct atime, mtime; by repeat case_bool_decide; naive_solver. }
  case_bool_decide as Hun; [by split_and!; intros; try tauto|].
  unfold mbind, M_bind. rewrite Hnow, !is_none_or_spec, <- bool_decide_and.
  pose proof (land_pow2_zero mode 4 ltac:(lia)) as H4. change (2 ^ 4) with 16 in H4.
  pose proof (land_pow2_zero mode 1 ltac:(lia)) as H1. change (2 ^ 1) with 2 in H1.
  rewrite H4, H1, !negb_involutive. clear H4 H1.
  rewrite andb_false_l, orb_false_l.
  case_bool_decide as Hcur; [|by split_and!; intros; try tauto].
  destruct (Z.eqb_spec (caller_gid caller) file_gid), (Z.testbit mode 4) eqn:?, (Z.testbit mode 1) eqn:?;
    simpl; split_and!; intros; try done; exfalso; first [tauto|destruct_or!; destruct_and?; congruence].
Qed.
End permission.

(** ** Extended attributes *)
Section xattr.
Context {OS : Type} `{Libc, !Syscalls OS}.

(** The name list of a file as the kernel writes it: signed characters, a NUL
    after each name. *)
Definition name_list (names : list bytes) : bytes :=
  concat ((λ name, map (as_signed 8) name ++ [0]) <$> names).

(** [llistxattr] as documented: size 0 probes the length; a buffer that is
    large enough receives the list; the file does not change meanwhile. *)
Definition lists_names (path : string) (os : OS) (names : list bytes) : Prop := ∀ buf,
  let list := name_list names in
  llistxattr path buf (Z.of_nat (length buf)) os =
    (Returned
       (if decide (buf = []) then (Z.of_nat (length list), buf)
        else if decide (length list ≤ length buf)%nat
        then (Z.of_nat (length list), list ++ drop (length list) buf) else (-1, buf)), os).

Lemma split_zero_ne buf : split_zero buf ≠ [].
Proof. induction buf as [|c buf IH]; simpl; [done|]. destruct (split_zero buf); [done|]. by destruct (c =? 0). Qed.

Lemma split_zero_name name rest :
  Forall (λ c, c ≠ 0) name → split_zero (name ++ 0 :: rest) = name :: split_zero rest.
Proof.
  induction 1 as [|c name Hc _ IH]; simpl.
  - destruct (split_zero rest) eqn:Hs; [by apply split_zero_ne in Hs|done].
  - rewrite IH. by destruct (Z.eqb_spec c 0).
Qed.

Definition xattr_name (name : bytes) : Prop := name ≠ [] ∧ Forall (λ c, 0 < c ≤ u8_max) name.

Lemma signed_byte c : 0 < c ≤ u8_max → as_signed 8 c ≠ 0 ∧ as_unsigned 8 (as_signed 8 c) = c.
Proof. int_lia. Qed.

Lemma name_list_cons name names : name_list (name :: names) = map (as_signed 8) name ++ 0 :: name_list names.
Proof. unfold name_list. rewrite fmap_cons. simpl. by rewrite <- app_assoc. Qed.

Lemma split_name_list names :
  Forall xattr_name names → split_zero (name_list names) = map (map (as_signed 8)) names ++ [[]].
Proof.
  induction 1 as [|name names [_ Hname] _ IH]; [done|].
  rewrite name_list_cons, split_zero_name; [by rewrite IH|].
  apply Forall_fmap. eapply Forall_impl; [exact Hname|]. intros c Hc. by apply signed_byte.
Qed.

(** The names come back from the pieces. *)
Lemma decode_names names :
  Forall xattr_name names →
  map (map (as_unsigned 8)) (filter (λ name, name ≠ []) (split_zero (name_list names))) = names.
Proof.
  intros Hn. rewrite split_name_list by done.
  induction Hn as [|name names [Hne Hname] _ IH]; [done|]. simpl.
  rewrite filter_cons_True by (by destruct name). simpl. rewrite IH. f_equal.
  clear IH Hne. induction Hname as [|c name Hc _ IH]; simpl; [done|].
  rewrite IH. f_equal. by apply signed_byte.
Qed.

(** C35: listing the extended attributes of a file returns exactly its names,
    in the kernel's order, each without its terminator and with its bytes as
    they are, ASCII or not. *)
Theorem listxattr_names_exact (path : string) (os : OS) (names : list bytes)
    (Hos : lists_names path os names) (Hnames : Forall xattr_name names) :
  listxattr_names_nofollow path os = (Returned (Ok names), os).
Proof.
  unfold listxattr_names_nofollow, listxattr_nofollow, mbind, M_bind.
  rewrite Hos. rewrite decide_True by done. simpl.
  destruct (Z.ltb_spec (Z.of_nat (length (name_list names))) 0); [lia|]. simpl. rewrite Nat2Z.id.
  specialize (Hos (zeros (length (name_list names)))). rewrite zeros_length in Hos. rewrite zeros_length, Hos.
  case_decide as Hz.
  - pose proof (f_equal length Hz) as Hlen. rewrite zeros_length in Hlen. simpl in Hlen.
    pose proof (decode_names names Hnames) as Hd. rewrite (nil_length_inv _ Hlen) in Hd. simpl in Hd.
    rewrite Hlen. simpl. unfold mret, M_ret. by rewrite <- Hd.
  - rewrite decide_True by done. destruct (Z.ltb_spec (Z.of_nat (length (name_list names))) 0); [lia|].
    simpl. rewrite Nat2Z.id, take_app_length. unfold mret, M_ret. by rewrite decode_names.
Qed.
End xattr.

(** A system with one file, whose attribute names are [names]. *)
Definition sample_syscalls (names : list bytes) : Syscalls unit := {|
  lsetxattr _ _ _ _ := mret 0; lgetxattr _ _ buf _ := mret (0, buf);
  llistxattr _ buf size :=
    let list := name_list names in
    mret (if decide (buf = []) then (Z.of_nat (length list), buf)
          else if decide (length list ≤ length buf)%nat
          then (Z.of_nat (length list), list ++ drop (length list) buf) else (-1, buf));
  lremovexattr _ _ := mret 0; getuid := mret 0; getgid := mret 0; fchown _ _ _ := mret 0; chown _ _ _ := mret 0;
  lchown _ _ _ := mret 0; fchmod _ _ := mret 0; set_permissions _ _ := mret (Ok tt); futimens _ _ := mret 0;
  utimensat _ _ _ _ := mret 0; mkfifo _ _ := mret 0; sys_mknod _ _ _ := mret 0; errno := mret CustomError;
  now := mret 5000000000; AT_FDCWD := -100; AT_SYMLINK_NOFOLLOW := 256;
|}.

Section sample.
Local Existing Instance linux_libc.

(** "user.a" with a byte above 127, and "b". *)
Definition sample_names : list bytes := [[117; 115; 200]; [98]].
Local Instance sample_sys : Syscalls unit := sample_syscalls sample_names.

Lemma listxattr_names_exact_witness :
  lists_names "f" tt sample_names ∧ Forall xattr_name sample_names ∧
  listxattr_names_nofollow "f" tt = (Returned (Ok sample_names), tt).
Proof.
  assert (lists_names "f" tt sample_names) as Hos by (intros buf; reflexivity).
  assert (Forall xattr_name sample_names) as Hn.
  { repeat constructor; try done; int_lia. }
  split; [exact Hos|]. split; [exact Hn|]. exact (listxattr_names_exact "f" tt sample_names Hos Hn).
Defined.

Definition sample_other : Caller := {| caller_uid := 2000; caller_gid := 2000; caller_pid := 1; caller_umask := 0 |}.

Lemma utimens_permission_spec_witness :
  utimens_permission_check sample_other 1000 1000 292 (Some 5000000000) (Some 5000000001) tt
    = (Returned (Err EACCES), tt).
Proof.
  assert (now (OS := unit) tt = (Returned 5000000000, tt)) as Hnow by reflexivity.
  destruct (utimens_permission_spec sample_other 1000 1000 292 (Some 5000000000) (Some 5000000001) tt tt 5000000000
    Hnow) as (_ & _ & Hdenied & _).
  apply Hdenied; simpl; [lia|naive_solver|lia|intros [[? ?]|?]; [lia|discriminate]].
Defined.
End sample.
