(* ===== verification/Reference.v ===== *)
(** * A reference runtime without leases

    What [Runtime] promises to a filesystem and to the kernel, without its
    mechanism: a node is there as long as a link, a lookup or an open refers to
    it.  There are no leases of nodes or handles, no record addresses, no inode
    allocator and no free list.  The reference is a predicate transformer per
    request, for requests on which the filesystem neither panics nor hangs and
    no counter overflows; [exec_request] refines it. *)

From S2P Require Import Prelude Types NodeTable NodeTableInv HandleRec NodeFs Runtime RuntimeInv Requests.

(** ** Predicate transformers *)
Definition wp (St A : Type) : Type := (A → St → Prop) → St → Prop.

#[export] Instance wp_ret {St} : MRet (wp St) := λ A a Q s, Q a s.
#[export] Instance wp_bind {St} : MBind (wp St) := λ A B k m Q s, m (λ a s', k a Q s') s.

Definition wp_try {St A B} (m : wp St (Result Errno A)) (k : A → wp St (Result Errno B)) :
    wp St (Result Errno B) :=
  r ← m; match r with Ok a => k a | Err e => mret (Err e) end.

(** ** State *)
Record RefNode (N : Type) := mkRefNode {
  v_payload : N; v_generation : Z; v_links : Z; v_lookups : Z; v_opens : Z; v_parent : NodeId }.
Arguments mkRefNode {N}.
Arguments v_payload {N}.
Arguments v_generation {N}.
Arguments v_links {N}.
Arguments v_lookups {N}.
Arguments v_opens {N}.
Arguments v_parent {N}.

Definition unreferenced {N} (v : RefNode N) : bool :=
  (v_links v =? 0) && (v_lookups v =? 0) && (v_opens v =? 0).

(** [s_held]: the leases that the running callback has not dropped yet. *)
Record RefState (N H D S K : Type) := mkRef {
  s_nodes : gmap Z (RefNode N);
  s_fs : S;
  s_held : list nat;
  s_files : gmap Z (NodeId * H);
  s_dirs : gmap Z (NodeId * D);
  s_next : Z;
  s_sink : K;
  s_parallel : bool;
}.
Arguments mkRef {N H D S K}.
Arguments s_nodes {N H D S K}.
Arguments s_fs {N H D S K}.
Arguments s_held {N H D S K}.
Arguments s_files {N H D S K}.
Arguments s_dirs {N H D S K}.
Arguments s_next {N H D S K}.
Arguments s_sink {N H D S K}.
Arguments s_parallel {N H D S K}.

Section reference.
Context {N H D S : Type} `{Libc}.

Definition put_nodes {K} V (s : RefState N H D S K) : RefState N H D S K := mkRef V (s_fs s) (s_held s) (s_files s) (s_dirs s) (s_next s) (s_sink s) (s_parallel s).
Definition put_fs {K} x (s : RefState N H D S K) : RefState N H D S K := mkRef (s_nodes s) x (s_held s) (s_files s) (s_dirs s) (s_next s) (s_sink s) (s_parallel s).
Definition put_held {K} l (s : RefState N H D S K) : RefState N H D S K := mkRef (s_nodes s) (s_fs s) l (s_files s) (s_dirs s) (s_next s) (s_sink s) (s_parallel s).
Definition put_files {K} m n (s : RefState N H D S K) : RefState N H D S K := mkRef (s_nodes s) (s_fs s) (s_held s) m (s_dirs s) n (s_sink s) (s_parallel s).
Definition put_dirs {K} m n (s : RefState N H D S K) : RefState N H D S K := mkRef (s_nodes s) (s_fs s) (s_held s) (s_files s) m n (s_sink s) (s_parallel s).
Definition put_sink {K K'} k (s : RefState N H D S K) : RefState N H D S K' := mkRef (s_nodes s) (s_fs s) (s_held s) (s_files s) (s_dirs s) (s_next s) k (s_parallel s).

Definition v_with_links n (v : RefNode N) : RefNode N := mkRefNode (v_payload v) (v_generation v) n (v_lookups v) (v_opens v) (v_parent v).
Definition v_with_lookups n (v : RefNode N) : RefNode N := mkRefNode (v_payload v) (v_generation v) (v_links v) n (v_opens v) (v_parent v).
Definition v_with_opens n (v : RefNode N) : RefNode N := mkRefNode (v_payload v) (v_generation v) (v_links v) (v_lookups v) n (v_parent v).
Definition v_with_parent p (v : RefNode N) : RefNode N := mkRefNode (v_payload v) (v_generation v) (v_links v) (v_lookups v) (v_opens v) p.

(** Nodes that nothing refers to any more go at the end of a request. *)
Definition reap {K} (s : RefState N H D S K) : RefState N H D S K :=
  put_nodes (filter (λ kv, unreferenced kv.2 = false) (s_nodes s)) s.

(** ** Operations *)
Section operations.
Context {K : Type}.
Abbreviation sp := (wp (RefState N H D S K)).

Definition sp_node_at (id : NodeId) : sp (option (RefNode N)) := λ Q s,
  match s_nodes s !! id with
  | Some v => unreferenced v = false ∧ Q (Some v) s
  | None => Q None s
  end.

Definition sp_alter (id : NodeId) (f : RefNode N → RefNode N) : sp unit := λ Q s,
  Q tt (put_nodes (alter f id (s_nodes s)) s).

(** A counter that must not overflow. *)
Definition sp_count (id : NodeId) (get : RefNode N → Z) (put : Z → RefNode N → RefNode N) (max : Z) :
    sp (Result Errno (RefNode N)) :=
  o ← sp_node_at id;
  match o return sp (Result Errno (RefNode N)) with
  | None => mret (Err ENOENT)
  | Some v => λ Q s, get v < max ∧ Q (Ok v) (put_nodes (<[id := put (get v + 1) v]> (s_nodes s)) s)
  end.

Definition sp_take_lookup (id : NodeId) : sp (Result Errno Z) :=
  r ← sp_count id v_lookups v_with_lookups u64_max; mret (Result_map v_generation r).
Definition sp_retain_lookup (id : NodeId) : sp (Result Errno unit) :=
  r ← sp_count id v_lookups v_with_lookups u64_max; mret (Result_map (λ _, tt) r).
Definition sp_add_open (id : NodeId) : sp (Result Errno unit) :=
  r ← sp_count id v_opens v_with_opens u32_max; mret (Result_map (λ _, tt) r).
Definition sp_add_link (id : NodeId) : sp unit :=
  r ← sp_count id v_links v_with_links u32_max; mret tt.
Definition sp_contains (id : NodeId) : sp bool :=
  o ← sp_node_at id; mret (bool_decide (is_Some o)).
Definition sp_generation (id : NodeId) : sp (Result Errno Z) :=
  o ← sp_node_at id; mret (ok_or (v_generation <$> o) ENOENT).
Definition sp_parent (id : NodeId) : sp (Result Errno NodeId) :=
  o ← sp_node_at id; mret (ok_or (v_parent <$> o) ENOENT).
Definition sp_remove_open (id : NodeId) : sp unit :=
  sp_alter id (λ v, v_with_opens (Z.max 0 (v_opens v - 1)) v).
Definition sp_forget (id n : Z) : sp unit :=
  sp_alter id (λ v, v_with_lookups (Z.max 0 (v_lookups v - n)) v).

(** A new node gets an inode that no other node has. *)
Definition sp_insert (p : N) (parent : NodeId) : sp NodeId := λ Q s,
  ∀ id g, (∀ v, s_nodes s !! id = Some v → unreferenced v = true) →
    Q id (put_nodes (<[id := mkRefNode p g 1 0 0 parent]> (s_nodes s)) s).

(** A reference to a node, as the callback sees it: only its payload and the
    freshness of its key are known. *)
Definition sp_get (id : NodeId) : sp (option (LiveRef N)) :=
  o ← sp_node_at id;
  match o return sp (option (LiveRef N)) with
  | None => mret None
  | Some v => λ Q s,
      (length (s_held s) < 1000)%nat ∧
      ∀ l, payload (arc_val (nr_record (lr_ref l))) = v_payload v → lr_key l ∉ s_held s →
        Q (Some l) (put_held (lr_key l :: s_held s) s)
  end.

Definition sp_drop_ref (key : nat) : sp unit := λ Q s,
  Q tt (put_held (filter (λ k, k ≠ key) (s_held s)) s).

Fixpoint sp_prog {E A} (emit : E → sp bool) (p : prog N S E A) : sp A :=
  match p with
  | Done a => mret a
  | Crash | Hang => λ _ _, False
  | ReadState k => λ Q s, sp_prog emit (k (s_fs s)) Q s
  | WriteState x k => λ Q s, sp_prog emit k Q (put_fs x s)
  | Critical f k => λ Q s,
      match f (s_fs s) with Some (b, x) => sp_prog emit (k b) Q (put_fs x s) | None => False end
  | CxTryGet id k _ => r ← sp_get id; sp_prog emit (k r)
  | CxDropRef key k => sp_drop_ref key;; sp_prog emit k
  | CxContains id k => b ← sp_contains id; sp_prog emit (k b)
  | CxInsert p parent k => id ← sp_insert p parent; sp_prog emit (k id)
  | CxReparent id p k => sp_alter id (v_with_parent p);; sp_prog emit k
  | CxTryAddLink id k _ => sp_add_link id;; sp_prog emit k
  | CxRemoveLink id k => sp_alter id (λ v, v_with_links (Z.max 0 (v_links v - 1)) v);; sp_prog emit k
  | TryEmit e k _ => b ← emit e; sp_prog emit (k b)
  end.

(** A callback drops the references that it took. *)
Definition sp_run {E A} (emit : E → sp bool) (p : prog N S E A) : sp A := λ Q s,
  sp_prog emit p (λ a s', s_held s' = [] ∧ Q a s') s.
Definition sp_call {A} (p : prog N S Empty_set A) : sp A :=
  sp_run (λ e : Empty_set, match e with end) p.

Definition sp_scope_node {B} (ino : Z) (err : Errno → sp B) (k : N → sp B) : sp B :=
  o ← sp_node_at ino;
  match o with Some v => k (v_payload v) | None => err ENOENT end.

Definition sp_find {T} (get : RefState N H D S K → gmap Z (NodeId * T)) (ino fh : Z) : sp (Result Errno T) := λ Q s,
  match get s !! fh with
  | Some (node, h) => if negb (node =? ino) then Q (Err EBADF) s else Q (Ok h) s
  | None => Q (Err EBADF) s
  end.
Definition sp_scope_file {B} (ino fh : Z) (err : Errno → sp B) (k : H → sp B) : sp B :=
  r ← sp_find s_files ino fh; match r with Ok h => k h | Err e => err e end.
Definition sp_scope_dir {B} (ino fh : Z) (err : Errno → sp B) (k : D → sp B) : sp B :=
  r ← sp_find s_dirs ino fh; match r with Ok h => k h | Err e => err e end.

Definition sp_fail {B} (e : Errno) : sp (Result Errno B) := mret (Err e).
Definition sp_with_node {B} (ino : Z) := @sp_scope_node (Result Errno B) ino sp_fail.
Definition sp_with_file {B} (ino fh : Z) := @sp_scope_file (Result Errno B) ino fh sp_fail.
Definition sp_with_dir {B} (ino fh : Z) := @sp_scope_dir (Result Errno B) ino fh sp_fail.
Definition sp_optional_file {B} (ino : Z) (fh : option Z) (k : option H → sp (Result Errno B)) :
    sp (Result Errno B) :=
  match fh with Some fh => sp_with_file ino fh (λ h, k (Some h)) | None => k None end.

Definition sp_add_file (ino : NodeId) (h : H) : sp Z := λ Q s,
  Q (s_next s) (put_files (<[s_next s := (ino, h)]> (s_files s)) (wrapping_add64 (s_next s) 1) s).
Definition sp_add_dir (ino : NodeId) (h : D) : sp Z := λ Q s,
  Q (s_next s) (put_dirs (<[s_next s := (ino, h)]> (s_dirs s)) (wrapping_add64 (s_next s) 1) s).
Definition sp_remove_file (ino fh : Z) : sp (Result Errno H) :=
  wp_try (sp_find s_files ino fh) (λ h, λ Q s, Q (Ok h) (put_files (delete fh (s_files s)) (s_next s) s)).
Definition sp_remove_dir (ino fh : Z) : sp (Result Errno D) :=
  wp_try (sp_find s_dirs ino fh) (λ h, λ Q s, Q (Ok h) (put_dirs (delete fh (s_dirs s)) (s_next s) s)).

Definition sp_on_sink {A} (f : K → A * K) : sp A := λ Q s, let '(a, k) := f (s_sink s) in Q a (put_sink k s).
End operations.

(** ** Requests *)
Section requests.
Context {K : Type} (fs : NodeFs N H D S).
Abbreviation sp := (wp (RefState N H D S K)).

Definition sp_entry_for (id : NodeId) (caller : Caller) : sp (Result Errno EntryReply) :=
  sp_with_node id (λ node,
    wp_try (sp_call (fs_getattr fs node None caller)) (λ attr,
    wp_try (sp_take_lookup id) (λ generation,
    mret (Ok (mkEntryReply id generation attr))))).

Definition sp_on_node {B} (ino : Z) (p : N → prog N S Empty_set (Result Errno B)) : sp (Result Errno B) :=
  sp_with_node ino (λ n, sp_call (p n)).
Definition sp_on_file {B} (ino fh : Z) (p : N → H → prog N S Empty_set (Result Errno B)) : sp (Result Errno B) :=
  sp_with_node ino (λ n, sp_with_file ino fh (λ h, sp_call (p n h))).

Definition sp_init (conn : ConnInfo) : sp ConnInfo := λ Q s,
  let conn := if s_parallel s then (set_enabled conn ParallelDirectoryOperations true).2 else conn in
  sp_call (fs_init fs conn) Q s.

Definition sp_open (ino flags : Z) (caller : Caller) : sp (Result Errno OpenReply) :=
  sp_with_node ino (λ node,
    wp_try (sp_call (fs_open fs node flags caller)) (λ opened,
    wp_try (sp_add_open ino) (λ _,
    fh ← sp_add_file ino (opened_handle opened);
    mret (Ok (mkOpenReply fh (opened_hints opened)))))).

Definition sp_opendir (ino flags : Z) (caller : Caller) : sp (Result Errno OpenReply) :=
  sp_with_node ino (λ node,
    wp_try (sp_call (fs_opendir fs node flags caller)) (λ opened,
    wp_try (sp_add_open ino) (λ _,
    fh ← sp_add_dir ino (opened_handle opened);
    mret (Ok (mkOpenReply fh (opened_hints opened)))))).

Definition sp_release (ino fh : Z) (caller : Caller) : sp (Result Errno unit) :=
  wp_try (sp_remove_file ino fh) (λ handle,
  sp_with_node ino (λ node,
    sp_remove_open ino;;
    sp_call (fs_release fs node handle caller))).

Definition sp_releasedir (ino fh : Z) (caller : Caller) : sp (Result Errno unit) :=
  wp_try (sp_remove_dir ino fh) (λ handle,
  sp_with_node ino (λ node,
    sp_remove_open ino;;
    sp_call (fs_releasedir fs node handle caller))).

Definition sp_readdir (add : DirEntry → K → bool * K) (ino fh offset : Z) (caller : Caller) :
    sp (Result Errno unit) :=
  sp_with_node ino (λ node,
    wp_try (sp_parent ino) (λ parent,
    sp_with_dir ino fh (λ h,
      sp_run (λ e, sp_on_sink (add e)) (fs_readdir fs node ino parent h offset caller)))).

Definition sp_lookup (parent : Z) (name : OsString) (caller : Caller) : sp (Result Errno LookupReply) :=
  wp_try (sp_call (fs_lookup fs parent name caller)) (λ found,
  match found with
  | Some id => wp_try (sp_entry_for id caller) (λ entry, mret (Ok (Found entry)))
  | None => mret (Ok Negative)
  end).

Definition sp_new_entry (p : prog N S Empty_set (Result Errno NodeId)) (caller : Caller) :
    sp (Result Errno EntryReply) :=
  wp_try (sp_call p) (λ id, sp_entry_for id caller).

Definition sp_create (parent : Z) (name : OsString) (mode umask flags : Z) (caller : Caller) :
    sp (Result Errno (EntryReply * OpenReply)) :=
  wp_try (sp_call (fs_create fs parent name mode umask flags caller)) (λ '(id, opened),
  wp_try (sp_entry_for id caller) (λ entry,
  wp_try (sp_add_open id) (λ _,
  fh ← sp_add_file id (opened_handle opened);
  mret (Ok (entry, mkOpenReply fh (opened_hints opened)))))).
End requests.

Section readdirplus.
Context {K : Type} (fs : NodeFs N H D S).
Context (inner : OsString → EntryReply → Z → K → bool * K).
Abbreviation spa := (wp (RefState N H D S (K * list NodeId))).

Definition sp_accounting_add (e : PlusEntry) : spa bool :=
  entry ← wp_try (sp_generation (pe_id e)) (λ g, mret (Ok (mkEntryReply (pe_id e) g (pe_attr e))));
  match entry with
  | Err _ => mret false
  | Ok entry =>
      accepted ← sp_on_sink (λ '(k, l),
        let '(b, k) := inner (pe_name e) entry (pe_next_offset e) k in
        (b, (k, l)));
      if negb accepted then mret false
      else if bool_decide (pe_name e ≠ ".") && bool_decide (pe_name e ≠ "..") then
        r ← sp_retain_lookup (pe_id e);
        match r with
        | Ok _ => sp_on_sink (λ '(k, l), (true, (k, l ++ [pe_id e])))
        | Err _ => mret true
        end
      else mret true
  end.

Definition sp_with_accounting {A} (m : spa A) : wp (RefState N H D S K) (A * list NodeId) := λ Q s,
  m (λ a s', Q (a, (s_sink s').2) (put_sink (s_sink s').1 s')) (put_sink (s_sink s, []) s).

Fixpoint sp_forget_all (ids : list NodeId) : wp (RefState N H D S K) unit :=
  match ids with
  | [] => mret tt
  | id :: ids => sp_forget id 1;; sp_forget_all ids
  end.

Definition sp_readdirplus (ino fh offset : Z) (caller : Caller) :
    wp (RefState N H D S K) (Result Errno (list NodeId)) :=
  sp_with_node ino (λ node,
    wp_try (sp_parent ino) (λ parent,
    sp_with_dir ino fh (λ h,
      '(r, accepted) ←
        sp_with_accounting (sp_run sp_accounting_add (fs_readdirplus fs node ino parent h offset caller));
      match r with
      | Ok _ => mret (Ok accepted)
      | Err e => sp_forget_all accepted;; mret (Err e)
      end))).
End readdirplus.

Section exec.
Context {K : Type} (fs : NodeFs N H D S).
Abbreviation sp := (wp (RefState N H D S K)).

Definition sp_reply {A} (c : A → reply) (m : sp A) : sp reply := r ← m; mret (c r).
Definition sp_with_sink {A} (k : K) (m : sp A) : sp A := λ Q s, m Q (put_sink k s).

Definition sp_handler (r : request K) : sp reply :=
  match r with
  | ReqInit conn => sp_reply RepConn (sp_init fs conn)
  | ReqDestroy => sp_reply (λ _, RepNone) (sp_call (fs_destroy fs))
  | ReqForget ino nlookup => sp_reply (λ _, RepNone) (sp_forget ino nlookup)
  | ReqStatfs ino caller => sp_reply RepStatfs (sp_call (fs_statfs fs caller))
  | ReqGetattr ino fh caller =>
      sp_reply RepAttr (sp_with_node ino (λ n, sp_optional_file ino fh (λ h, sp_call (fs_getattr fs n h caller))))
  | ReqSetattr ino fh set caller =>
      sp_reply RepAttr (sp_with_node ino (λ n, sp_optional_file ino fh (λ h, sp_call (fs_setattr fs n h set caller))))
  | ReqReadlink ino caller => sp_reply RepPath (sp_on_node ino (λ n, fs_readlink fs n caller))
  | ReqAccess ino mask caller => sp_reply RepUnit (sp_on_node ino (λ n, fs_access fs n mask caller))
  | ReqSetxattr ino name value flags caller => sp_reply RepUnit (sp_on_node ino (λ n, fs_setxattr fs n name value flags caller))
  | ReqGetxattr ino name size caller => sp_reply RepXattr (sp_on_node ino (λ n, fs_getxattr fs n name size caller))
  | ReqListxattr ino size caller => sp_reply RepXattr (sp_on_node ino (λ n, fs_listxattr fs n size caller))
  | ReqRemovexattr ino name caller => sp_reply RepUnit (sp_on_node ino (λ n, fs_removexattr fs n name caller))
  | ReqOpen ino flags caller => sp_reply RepOpen (sp_open fs ino flags caller)
  | ReqRead ino fh offset size caller => sp_reply RepData (sp_on_file ino fh (λ n h, fs_read fs n h offset size caller))
  | ReqWrite ino fh data offset caller => sp_reply RepCount (sp_on_file ino fh (λ n h, fs_write fs n h data offset caller))
  | ReqFlush ino fh caller => sp_reply RepUnit (sp_on_file ino fh (λ n h, fs_flush fs n h caller))
  | ReqFsync ino fh datasync caller => sp_reply RepUnit (sp_on_file ino fh (λ n h, fs_fsync fs n h datasync caller))
  | ReqFallocate ino fh mode offset length caller =>
      sp_reply RepUnit (sp_on_file ino fh (λ n h, fs_fallocate fs n h mode offset length caller))
  | ReqLseek ino fh offset whence caller => sp_reply RepCount (sp_on_file ino fh (λ n h, fs_lseek fs n h offset whence caller))
  | ReqGetlk ino fh owner lock caller => sp_reply RepLock (sp_on_file ino fh (λ n h, fs_getlk fs n h owner lock caller))
  | ReqSetlk ino fh owner lock sleep caller => sp_reply RepUnit (sp_on_file ino fh (λ n h, fs_setlk fs n h owner lock sleep caller))
  | ReqRelease ino fh caller => sp_reply RepUnit (sp_release fs ino fh caller)
  | ReqOpendir ino flags caller => sp_reply RepOpen (sp_opendir fs ino flags caller)
  | ReqReaddir sink add ino fh offset caller => sp_reply RepUnit (sp_with_sink sink (sp_readdir fs add ino fh offset caller))
  | ReqReaddirplus sink add ino fh offset caller => sp_reply RepPlus (sp_with_sink sink (sp_readdirplus fs add ino fh offset caller))
  | ReqFsyncdir ino fh datasync caller =>
      sp_reply RepUnit (sp_with_node ino (λ n, sp_with_dir ino fh (λ h, sp_call (fs_fsyncdir fs n h datasync caller))))
  | ReqReleasedir ino fh caller => sp_reply RepUnit (sp_releasedir fs ino fh caller)
  | ReqLookup parent name caller => sp_reply RepLookup (sp_lookup fs parent name caller)
  | ReqMknod parent name mode rdev umask caller => sp_reply RepEntry (sp_new_entry fs (fs_mknod fs parent name mode rdev umask caller) caller)
  | ReqMkdir parent name mode umask caller => sp_reply RepEntry (sp_new_entry fs (fs_mkdir fs parent name mode umask caller) caller)
  | ReqSymlink parent name target caller => sp_reply RepEntry (sp_new_entry fs (fs_symlink fs parent name target caller) caller)
  | ReqLink ino newparent newname caller => sp_reply RepEntry (sp_new_entry fs (fs_link fs ino newparent newname caller) caller)
  | ReqUnlink parent name caller => sp_reply RepUnit (sp_call (fs_unlink fs parent name caller))
  | ReqRmdir parent name caller => sp_reply RepUnit (sp_call (fs_rmdir fs parent name caller))
  | ReqRename parent name newparent newname flags caller => sp_reply RepUnit (sp_call (fs_rename fs parent name newparent newname flags caller))
  | ReqCreate parent name mode umask flags caller => sp_reply RepCreate (sp_create fs parent name mode umask flags caller)
  | ReqCopyFileRange ino_in off_in ino_out off_out len flags caller =>
      sp_reply RepCount (sp_call (fs_copy_file_range fs ino_in off_in ino_out off_out len flags caller))
  end.

(** A request ends by reaping what it left unreferenced. *)
Definition sp_request (r : request K) : sp reply := λ Q s,
  sp_handler r (λ rep s', s_held s' = [] ∧ Q rep (reap s')) s.
End exec.
End reference.
