(* ===== verification/RefMono.v ===== *)
(** * The transformers of the reference are monotone

    A weaker postcondition is promised wherever a stronger one is. *)

From S2P Require Import Prelude Types NodeTable NodeTableInv HandleRec NodeFs Runtime RuntimeInv Requests Reference.

Definition mono {St A} (m : wp St A) : Prop :=
  ∀ Q Q' : A → St → Prop, (∀ a s, Q a s → Q' a s) → ∀ s, m Q s → m Q' s.

Create HintDb mono discriminated.

Lemma mono_ret {St A} (a : A) : mono (mret a : wp St A).
Proof. intros Q Q' HQ s. apply HQ. Qed.
Lemma mono_bind {St A B} (m : wp St A) (k : A → wp St B) : mono m → (∀ a, mono (k a)) → mono (m ≫= k).
Proof. intros Hm Hk Q Q' HQ. apply Hm. intros a. by apply Hk. Qed.

Lemma mono_try {St A B} (m : wp St (Result Errno A)) (k : A → wp St (Result Errno B)) :
  mono m → (∀ a, mono (k a)) → mono (wp_try m k).
Proof. intros Hm Hk. apply mono_bind; [done|]. intros [a|e]; [done|apply mono_ret]. Qed.

Section mono.
Context {N H D S K : Type} `{Libc}.
Abbreviation sp := (wp (RefState N H D S K)).

Lemma mono_node_at id : mono (sp_node_at id : sp _).
Proof. intros Q Q' HQ s. unfold sp_node_at. case_match; naive_solver. Qed.
Lemma mono_alter id f : mono (sp_alter id f : sp unit).
Proof. intros Q Q' HQ s. apply HQ. Qed.
Lemma mono_count id get put max : mono (sp_count id get put max : sp _).
Proof.
  apply mono_bind; [apply mono_node_at|]. intros [v|]; [|apply mono_ret]. intros Q Q' HQ s [? ?]. split; [done|]. by apply HQ.
Qed.
Hint Resolve mono_node_at mono_alter mono_count : mono.

Lemma mono_add_link id : mono (sp_add_link id : sp unit).
Proof. apply mono_bind; [apply mono_count|]. intros r. apply mono_ret. Qed.
Lemma mono_insert p parent : mono (sp_insert p parent : sp NodeId).
Proof. intros Q Q' HQ s Hs id g Hfresh. by apply HQ, Hs. Qed.
Lemma mono_get id : mono (sp_get id : sp _).
Proof.
  apply mono_bind; [apply mono_node_at|]. intros [v|]; [|apply mono_ret]. intros Q Q' HQ s [? Hl]. split; [done|]. auto.
Qed.
Hint Resolve mono_add_link mono_insert mono_get : mono.

Lemma mono_prog {E A} (emit : E → sp bool) (p : prog N S E A) : (∀ e, mono (emit e)) → mono (sp_prog emit p).
Proof.
  intros He. induction p; cbn; try solve [intros Q Q' HQ s0; try done; by apply HQ].
  - intros Q Q' HQ s0. by apply (H1 (s_fs s0)).
  - intros Q Q' HQ s0. by apply IHp.
  - intros Q Q' HQ s0. destruct (f (s_fs s0)) as [[b x]|]; [by apply H1|done].
  - apply mono_bind; [apply mono_get|done].
  - apply mono_bind; [|done]. intros Q Q' HQ s0. apply HQ.
  - apply mono_bind; [|done]. apply mono_bind; [apply mono_node_at|]. intros o. apply mono_ret.
  - apply mono_bind; [apply mono_insert|done].
  - apply mono_bind; [apply mono_alter|done].
  - apply mono_bind; [apply mono_add_link|done].
  - apply mono_bind; [apply mono_alter|done].
  - apply mono_bind; [apply He|done].
Qed.

Lemma mono_run {E A} (emit : E → sp bool) (p : prog N S E A) : (∀ e, mono (emit e)) → mono (sp_run emit p).
Proof. intros He Q Q' HQ s. apply mono_prog; [done|]. intros a s' [? ?]. auto. Qed.
Lemma mono_call {A} (p : prog N S Empty_set A) : mono (sp_call p : sp A).
Proof. by apply mono_run. Qed.
Hint Resolve mono_call mono_run : mono.

Lemma mono_find {T} (get : RefState N H D S K → gmap Z (NodeId * T)) ino fh : mono (sp_find get ino fh : sp _).
Proof. intros Q Q' HQ s. unfold sp_find. repeat case_match; auto. Qed.
Hint Resolve mono_find : mono.

Lemma mono_scope_node {B} ino (err : Errno → sp B) (k : N → sp B) :
  (∀ e, mono (err e)) → (∀ n, mono (k n)) → mono (sp_scope_node ino err k).
Proof. intros He Hk. apply mono_bind; [apply mono_node_at|]. intros [v|]; [apply Hk|apply He]. Qed.
Lemma mono_scope_file {B} ino fh (err : Errno → sp B) (k : H → sp B) :
  (∀ e, mono (err e)) → (∀ n, mono (k n)) → mono (sp_scope_file ino fh err k).
Proof. intros He Hk. apply mono_bind; [apply mono_find|]. intros [v|e]; [apply Hk|apply He]. Qed.
Lemma mono_scope_dir {B} ino fh (err : Errno → sp B) (k : D → sp B) :
  (∀ e, mono (err e)) → (∀ n, mono (k n)) → mono (sp_scope_dir ino fh err k).
Proof. intros He Hk. apply mono_bind; [apply mono_find|]. intros [v|e]; [apply Hk|apply He]. Qed.
Lemma mono_optional_file {B} ino fh (k : option H → sp (Result Errno B)) :
  (∀ o, mono (k o)) → mono (sp_optional_file ino fh k).
Proof. intros Hk. destruct fh; [|apply Hk]. apply mono_scope_file; [intros e; apply mono_ret|intros n; apply Hk]. Qed.
Lemma mono_sink {A} (f : K → A * K) : mono (sp_on_sink f : sp A).
Proof. intros Q Q' HQ s. unfold sp_on_sink. destruct (f _). apply HQ. Qed.
Lemma mono_state {A} (f : RefState N H D S K → A) g : mono (λ Q s, Q (f s) (g s) : Prop).
Proof. intros Q Q' HQ s. apply HQ. Qed.
Lemma mono_fail {B} e : mono (sp_fail e : sp (Result Errno B)).
Proof. apply mono_ret. Qed.
End mono.
#[export] Hint Resolve mono_node_at mono_alter mono_count mono_add_link mono_insert mono_get mono_call mono_run mono_find
  mono_sink mono_fail : mono.

(** The composite transformers, by their structure. *)
Ltac mono :=
  repeat (intros;
    match goal with
    | |- mono (mret _) => apply mono_ret
    | |- mono (wp_try _ _) => apply mono_try
    | |- mono (_ ≫= _) => apply mono_bind
    | |- mono (sp_scope_node _ _ _) => apply mono_scope_node
    | |- mono (sp_with_node _ _) => apply mono_scope_node
    | |- mono (sp_scope_file _ _ _ _) => apply mono_scope_file
    | |- mono (sp_with_file _ _ _) => apply mono_scope_file
    | |- mono (sp_scope_dir _ _ _ _) => apply mono_scope_dir
    | |- mono (sp_with_dir _ _ _) => apply mono_scope_dir
    | |- mono (sp_optional_file _ _ _) => apply mono_optional_file
    | |- mono (match ?x with _ => _ end) => destruct x
    | |- mono _ => solve [auto with mono]
    end).

Section handlers.
Context {N H D S K : Type} `{Libc} (fs : NodeFs N H D S).
Abbreviation sp := (wp (RefState N H D S K)).

Lemma mono_entry_for id caller : mono (sp_entry_for fs id caller : sp _).
Proof. unfold sp_entry_for, sp_with_node, sp_take_lookup. mono. Qed.

Hint Resolve mono_entry_for : mono.

Lemma mono_on_node {B} ino (p : N → prog N S Empty_set (Result Errno B)) : mono (sp_on_node ino p : sp _).
Proof. unfold sp_on_node. mono. Qed.
Lemma mono_on_file {B} ino fh (p : N → H → prog N S Empty_set (Result Errno B)) : mono (sp_on_file ino fh p : sp _).
Proof. unfold sp_on_file. mono. Qed.
Lemma mono_new_entry p caller : mono (sp_new_entry fs p caller : sp _).
Proof. unfold sp_new_entry. mono. Qed.
Lemma mono_sp_init conn : mono (sp_init fs conn : sp _).
Proof. intros Q Q' HQ s. by apply mono_call. Qed.
Lemma mono_forget ino n : mono (sp_forget ino n : sp _).
Proof. apply mono_alter. Qed.
Hint Resolve mono_on_node mono_on_file mono_new_entry mono_sp_init mono_forget : mono.

Lemma mono_add_open id : mono (sp_add_open id : sp _).
Proof. unfold sp_add_open. mono. Qed.
Lemma mono_add_file id h : mono (sp_add_file id h : sp _).
Proof. intros Q Q' HQ s. apply HQ. Qed.
Lemma mono_add_dir id h : mono (sp_add_dir id h : sp _).
Proof. intros Q Q' HQ s. apply HQ. Qed.
Lemma mono_remove_file id fh : mono (sp_remove_file id fh : sp _).
Proof. apply mono_try; [apply mono_find|]. intros h Q Q' HQ s. apply HQ. Qed.
Lemma mono_remove_dir id fh : mono (sp_remove_dir id fh : sp _).
Proof. apply mono_try; [apply mono_find|]. intros h Q Q' HQ s. apply HQ. Qed.
Lemma mono_remove_open id : mono (sp_remove_open id : sp _).
Proof. apply mono_alter. Qed.
Lemma mono_parent id : mono (sp_parent id : sp _).
Proof. unfold sp_parent. mono. Qed.
Hint Resolve mono_add_open mono_add_file mono_add_dir mono_remove_file mono_remove_dir mono_remove_open mono_parent : mono.

Lemma mono_with_sink {A} k (m : sp A) : mono m → mono (sp_with_sink k m).
Proof. intros Hm Q Q' HQ s. by apply Hm. Qed.

Lemma mono_readdir add ino fh offset caller : mono (sp_readdir fs add ino fh offset caller : sp _).
Proof. unfold sp_readdir. mono. Qed.

Lemma mono_accounting inner (e : PlusEntry) : mono (sp_accounting_add inner e : wp (RefState N H D S (K * list NodeId)) bool).
Proof. unfold sp_accounting_add, sp_generation, sp_retain_lookup. mono. Qed.

Lemma mono_forget_all ids : mono (sp_forget_all ids : sp unit).
Proof. induction ids; simpl; mono. Qed.

Lemma mono_readdirplus inner ino fh offset caller : mono (sp_readdirplus fs inner ino fh offset caller : sp _).
Proof.
  unfold sp_readdirplus. apply mono_scope_node; [mono|]. intros n. apply mono_try; [mono|]. intros p.
  apply mono_scope_dir; [mono|]. intros d. apply mono_bind.
  - intros Q Q' HQ s. unfold sp_with_accounting. apply mono_run; [apply mono_accounting|]. intros a s'. apply HQ.
  - intros [r ids]. destruct r; [apply mono_ret|]. apply mono_bind; [apply mono_forget_all|]. intros _. apply mono_ret.
Qed.
Hint Resolve mono_readdir mono_readdirplus mono_with_sink : mono.

Lemma mono_handler (r : request K) : mono (sp_handler fs r).
Proof.
  destruct r; unfold sp_handler, sp_reply; try solve [mono];
    unfold sp_open, sp_opendir, sp_release, sp_releasedir, sp_lookup, sp_create; mono.
Qed.
End handlers.
