(* ===== verification/RefLogic.v ===== *)
(** * Running a concrete filesystem on the reference

    The reference's transformer for a callback, reduced to what a callback can
    see: the nodes and its own state. [runs d p Q V m]: with at most [d] leases
    held, [p] started on [V] and [m] ends, drops what it leased, and satisfies
    [Q] of its result and of the nodes and the state that it leaves.  After it,
    what the example filesystems' contracts share: replies by their kind, and
    the scopes of nodes and handles. *)

From S2P Require Import Prelude Types NodeTable NodeFs Runtime Requests Reference RefMono.

Section logic.
Context {N H D S K : Type} `{Libc}.
Abbreviation ref := (RefState N H D S K).
Abbreviation nodes := (gmap Z (RefNode N)).
Abbreviation pr := (prog N S Empty_set).

Definition no_event : Empty_set → wp ref bool := λ e, match e with end.

Lemma sp_prog_mono {A} (p : pr A) (Q Q' : A → ref → Prop) s :
  (∀ a s, Q a s → Q' a s) → sp_prog no_event p Q s → sp_prog no_event p Q' s.
Proof. intros HQ. by apply mono_prog. Qed.

Lemma sp_prog_bind {A B} (p : pr A) (k : A → pr B) (Q : B → ref → Prop) s :
  sp_prog no_event p (λ a s', sp_prog no_event (k a) Q s') s → sp_prog no_event (p ≫= k) Q s.
Proof.
  change (p ≫= k) with (prog_bind p k).
  revert s. induction p; cbn; intros s0; try done; try naive_solver.
  - destruct (f (s_fs s0)) as [[b x]|]; naive_solver.
  - apply mono_get. naive_solver.
  - apply mono_node_at. cbn. naive_solver.
  - unfold mbind, wp_bind, sp_insert. eauto.
  - apply mono_add_link. naive_solver.
Qed.

(** A lease whose scope ends. *)
Lemma sp_prog_drop {A} (p : pr A) key (Q : A → ref → Prop) s :
  sp_prog no_event p (λ a s', Q a (put_held (filter (λ k, k ≠ key) (s_held s')) s')) s →
  sp_prog no_event (prog_finally p (λ B, CxDropRef key)) Q s.
Proof.
  revert s. induction p; cbn; intros s0; try done; try naive_solver.
  - destruct (f (s_fs s0)) as [[b x]|]; naive_solver.
  - apply mono_get. naive_solver.
  - apply mono_node_at. cbn. naive_solver.
  - unfold mbind, wp_bind, sp_insert. eauto.
  - apply mono_add_link. naive_solver.
Qed.

Definition runs (d : nat) {A} (p : pr A) (Q : A → nodes → S → Prop) (V : nodes) (m : S) : Prop :=
  ∀ s, s_nodes s = V → s_fs s = m → (length (s_held s) ≤ d)%nat →
    sp_prog no_event p (λ a s', ∃ V' m', Q a V' m' ∧ s' = put_fs m' (put_nodes V' s)) s.

(** ** Rules *)
Section rules.
Context (d : nat).

Lemma runs_done {A} (a : A) (Q : A → nodes → S → Prop) V m : Q a V m → runs d (Done a) Q V m.
Proof. intros HQ s <- <- _. exists (s_nodes s), (s_fs s). by destruct s. Qed.

Lemma runs_mono {A} (p : pr A) (Q Q' : A → nodes → S → Prop) V m :
  runs d p Q V m → (∀ a V m, Q a V m → Q' a V m) → runs d p Q' V m.
Proof. intros Hp HQ s HV Hm Hd. eapply sp_prog_mono; [|by apply Hp]. naive_solver. Qed.

Lemma runs_bind {A B} (p : pr A) (k : A → pr B) Q V m :
  runs d p (λ a V m, runs d (k a) Q V m) V m → runs d (p ≫= k) Q V m.
Proof.
  intros Hp s HV Hm Hd. apply sp_prog_bind. eapply sp_prog_mono; [|by apply Hp].
  intros a s' (V' & m' & Hk & ->). eapply sp_prog_mono; [|by apply Hk].
  intros b s'' (V'' & m'' & HQ & ->). by exists V'', m''.
Qed.

Lemma runs_try {A B} (p : pr (Result Errno A)) (k : A → pr (Result Errno B)) Q V m :
  runs d p (λ r V m, match r with Ok a => runs d (k a) Q V m | Err e => Q (Err e) V m end) V m →
  runs d (prog_try p k) Q V m.
Proof. intros Hp. apply runs_bind. eapply runs_mono; [done|]. intros [a|e] V' m' HQ; [done|by apply runs_done]. Qed.

Lemma runs_atomically {A} (f : M S A) Q V m a m' :
  f m = (Returned a, m') → Q a V m' → runs d (atomically f) Q V m.
Proof. intros Hf HQ s <- <- _. cbn. rewrite Hf. by exists (s_nodes s), m'. Qed.

Lemma runs_with_get {A} id (some : N → pr A) none Q V m :
  (d < 999)%nat →
  (∀ v, V !! id = Some v → unreferenced v = false ∧ runs (Datatypes.S d) (some (v_payload v)) Q V m) →
  (V !! id = None → runs d none Q V m) → runs d (with_get id some none) Q V m.
Proof.
  intros Hd Hsome Hnone s HV Hm Hl. cbn. unfold sp_get, sp_node_at, mbind, wp_bind. rewrite HV.
  destruct (V !! id) as [v|] eqn:Hv; [|by apply Hnone].
  destruct (Hsome v eq_refl) as [Href Hrun]. split; [done|]. split; [lia|]. intros l Hp Hkey. rewrite Hp.
  apply sp_prog_drop. eapply sp_prog_mono; [|apply Hrun; [done..|simpl; lia]].
  intros a s' (V' & m' & HQ & ->). exists V', m'. split; [done|].
  unfold put_held, put_fs, put_nodes. simpl. f_equal. rewrite filter_cons_False by naive_solver.
  by apply filter_absent.
Qed.

Lemma runs_insert {A} n parent (k : NodeId → pr A) Q V m :
  (∀ id g, (∀ v, V !! id = Some v → unreferenced v = true) →
     runs d (k id) Q (<[id := mkRefNode n g 1 0 0 parent]> V) m) →
  runs d (CxInsert n parent k) Q V m.
Proof.
  intros Hk s <- <- Hd id g Hfresh. eapply sp_prog_mono; [|by apply (Hk id g)].
  intros a s' (V' & m' & HQ & ->). by exists V', m'.
Qed.

Lemma runs_reparent {A} id p (k : pr A) Q V m :
  runs d k Q (alter (v_with_parent p) id V) m → runs d (CxReparent id p k) Q V m.
Proof.
  intros Hk s <- <- Hd. cbn. eapply sp_prog_mono; [|by apply Hk]. intros a s' (V' & m' & HQ & ->). by exists V', m'.
Qed.

Lemma runs_remove_link {A} id (k : pr A) Q V m :
  runs d k Q (alter (λ v, v_with_links (Z.max 0 (v_links v - 1)) v) id V) m → runs d (CxRemoveLink id k) Q V m.
Proof.
  intros Hk s <- <- Hd. cbn. eapply sp_prog_mono; [|by apply Hk]. intros a s' (V' & m' & HQ & ->). by exists V', m'.
Qed.

Lemma runs_add_link {A} id v (k : pr A) Q V m :
  V !! id = Some v → unreferenced v = false → v_links v < u32_max →
  runs d k Q (<[id := v_with_links (v_links v + 1) v]> V) m → runs d (CxAddLink id k) Q V m.
Proof.
  intros Hv Href Hlinks Hk s <- <- Hd. cbn. unfold sp_add_link, sp_count, sp_node_at, mbind, wp_bind. rewrite Hv.
  split; [done|]. split; [done|]. eapply sp_prog_mono; [|by apply Hk].
  intros a s' (V' & m' & HQ & ->). by exists V', m'.
Qed.
End rules.

(** A callback that a request makes. *)
Lemma runs_call {A} (p : pr A) (Q : A → nodes → S → Prop) (R : A → ref → Prop) s :
  s_held s = [] → runs 0 p Q (s_nodes s) (s_fs s) →
  (∀ a V m, Q a V m → R a (put_fs m (put_nodes V s))) → sp_call p R s.
Proof.
  intros Hheld Hp HR. unfold sp_call, sp_run. eapply sp_prog_mono; [|apply Hp; try done; by rewrite Hheld].
  intros a s' (V & m & HQ & ->). by auto.
Qed.

(** ** Nodes and handles *)

(** Every node is referred to: the state between two requests. *)
Definition live (V : nodes) : Prop := ∀ i v, V !! i = Some v → unreferenced v = false.

Lemma live_insert (V : nodes) id v : live V → unreferenced v = false → live (<[id := v]> V).
Proof. intros HV Hv j w. rewrite lookup_insert. case_decide; [by intros [= <-]|apply HV]. Qed.

Lemma sp_node_at_live (s : ref) id (Q : option (RefNode N) → ref → Prop) :
  live (s_nodes s) → Q (s_nodes s !! id) s → sp_node_at id Q s.
Proof. intros Hlive HQ. unfold sp_node_at. destruct (s_nodes s !! id) eqn:Hv; [|done]. split; [by eapply Hlive|done]. Qed.

Definition file_of (s : ref) : Z → option NodeId := λ fh, fst <$> s_files s !! fh.
Definition dir_of (s : ref) : Z → option NodeId := λ fh, fst <$> s_dirs s !! fh.

(** The handle that a request names is one of its node. *)
Definition handle_fits (F : Z → option NodeId) (ino : Z) (fh : option Z) : bool :=
  match fh with Some fh => bool_decide (F fh = Some ino) | None => true end.

Lemma with_file_ok {B} (s : ref) ino fh (k : H → wp ref (Result Errno B)) (Q : Result Errno B → ref → Prop) :
  (if handle_fits (file_of s) ino (Some fh) then ∀ hd, k hd Q s else Q (Err EBADF) s) → sp_with_file ino fh k Q s.
Proof.
  intros HQ. unfold sp_with_file, sp_scope_file, mbind, wp_bind, sp_find. unfold handle_fits, file_of in HQ.
  destruct (s_files s !! fh) as [[node hd]|]; simpl in *; [|done].
  destruct (Z.eqb_spec node ino) as [->|Hne]; simpl.
  - by rewrite bool_decide_true in HQ by done.
  - rewrite bool_decide_false in HQ by congruence. done.
Qed.

Lemma optional_file_ok {B} (s : ref) ino fh (k : option H → wp ref (Result Errno B)) (Q : Result Errno B → ref → Prop) :
  (if handle_fits (file_of s) ino fh then ∀ hd, k hd Q s else Q (Err EBADF) s) → sp_optional_file ino fh k Q s.
Proof.
  intros HQ. destruct fh as [fh|]; [|by apply (HQ None)]. apply with_file_ok. destruct (handle_fits _ _ _); [|done]. by intros.
Qed.
End logic.

(** ** Replies by their kind *)
Definition rep_unit (rep : reply) (P : Result Errno unit → Prop) : Prop := match rep with RepUnit x => P x | _ => False end.
Definition rep_attr (rep : reply) (P : Result Errno NodeAttr → Prop) : Prop := match rep with RepAttr x => P x | _ => False end.
Definition rep_path (rep : reply) (P : Result Errno PathBuf → Prop) : Prop := match rep with RepPath x => P x | _ => False end.
Definition rep_open (rep : reply) (P : Result Errno OpenReply → Prop) : Prop := match rep with RepOpen x => P x | _ => False end.
Definition rep_data (rep : reply) (P : Result Errno bytes → Prop) : Prop := match rep with RepData x => P x | _ => False end.
Definition rep_count (rep : reply) (P : Result Errno Z → Prop) : Prop := match rep with RepCount x => P x | _ => False end.
Definition rep_entry (rep : reply) (P : Result Errno EntryReply → Prop) : Prop := match rep with RepEntry x => P x | _ => False end.
Definition rep_lookup (rep : reply) (P : Result Errno LookupReply → Prop) : Prop := match rep with RepLookup x => P x | _ => False end.
Definition rep_create (rep : reply) (P : Result Errno (EntryReply * OpenReply) → Prop) : Prop := match rep with RepCreate x => P x | _ => False end.
