(* ===== verification/Refinement.v ===== *)
(** * The runtime refines the reference

    [rel] relates a world to a state of [Reference]: the table holds the nodes
    that are referred to, up to their lease counts, addresses and the nodes that
    only a lease still keeps; the handle table and the filesystem agree.  Each
    operation of [Runtime] implements the operation of [Reference] with its
    name, and so does each request. *)

From S2P Require Import Prelude Types NodeTable NodeTableInv HandleRec NodeFs Runtime RuntimeInv RuntimeSpec Requests Reference RefMono RefLogic.

#[local] Arguments exec_op : simpl never.

Section relation.
Context {N H D S : Type} `{Libc}.
Implicit Types (f : frame).

Definition strip (x : Slot N) : RefNode N :=
  mkRefNode (payload (arc_val (slot_record x))) (slot_generation x) (slot_links x) (slot_lookups x)
    (slot_opens x) (slot_parent x).

(** The table against the nodes of the reference. *)
Definition nodes_rel (V : gmap Z (RefNode N)) (sh : Shared N) : Prop :=
  (∀ i x, tbl_map (sh_table sh) !! i = Some x → V !! i = Some (strip x)) ∧
  (∀ i v, V !! i = Some v → unreferenced v = false → is_Some (tbl_map (sh_table sh) !! i)).

Definition as_record {T} (leased : bool) (p : NodeId * T) : HandleRecord T :=
  mkHandleRecord p.1 p.2 (leased_state leased).

Record rel {K} f (s : RefState N H D S K) (w : World N H D S K) : Prop := {
  r_nodes : nodes_rel (s_nodes s) (sh_of w);
  r_fs : rt_fs (w_rt w) = s_fs s;
  r_sink : w_sink w = s_sink s;
  r_refs : ∀ k, is_Some (sh_refs (sh_of w) !! k) ↔ k ∈ s_held s ∨ k ∈ f_refs f;
  r_disjoint : ∀ k, k ∈ s_held s → k ∉ f_refs f;
  r_nodup : NoDup (f_refs f);
  r_held : ∀ k, k ∈ rt_fs_refs (w_rt w) ↔ k ∈ s_held s;
  r_len : (length (s_held s) ≤ 1000 ∧ length (f_refs f) ≤ 8)%nat;
  r_files : ∀ fh, files (rt_handles (w_rt w)) !! fh =
    as_record (bool_decide (f_file f = Some fh)) <$> s_files s !! fh;
  r_dirs : ∀ fh, dirs (rt_handles (w_rt w)) !! fh =
    as_record (bool_decide (f_dir f = Some fh)) <$> s_dirs s !! fh;
  r_next : next_fh (rt_handles (w_rt w)) = s_next s;
  r_parallel : rt_parallel_dirops (w_rt w) = s_parallel s;
}.

(** [m] implements [σ] in frame [f]: from a state on which [σ] promises [Q],
    [m] returns, neither panicking nor blocking, in a state with [Q]. *)
Definition implements {K A} f (m : M (World N H D S K) A) (σ : wp (RefState N H D S K) A) : Prop :=
  ∀ Q, triple False (λ n w, ∃ s, σ Q s ∧ rel f s w) m
         (λ o n w, ∃ a s, o = Returned a ∧ Q a s ∧ rel f s w).

Lemma unreferenced_true (v : RefNode N) :
  unreferenced v = true ↔ v_links v = 0 ∧ v_lookups v = 0 ∧ v_opens v = 0.
Proof. unfold unreferenced. rewrite !andb_true_iff, !Z.eqb_eq. tauto. Qed.

Lemma droppable_unreferenced (x : Slot N) : droppable x = true → unreferenced (strip x) = true.
Proof. rewrite droppable_true, unreferenced_true. simpl. tauto. Qed.

(** ** Table steps *)
Section step.
Context (V : gmap Z (RefNode N)) (sh : Shared N) (n : Z) (issued : list (Z * Z)).
Context (Hrel : nodes_rel V sh) (Hinv : inv_but None n issued sh) (Hn : n + 2 < u64_max).

(** A step that changes at most the slot of one inode. *)
Lemma nodes_rel_step op id (g : RefNode N → RefNode N) :
  (∀ p parent, op ≠ OpInsert p parent) →
  (∀ x, tbl_map (sh_table sh) !! id = Some x → strip (slot_after op id sh x) = g (strip x)) →
  (∀ i x, i ≠ id → strip (slot_after op i sh x) = strip x) →
  (∀ v, V !! id = Some v → unreferenced v = true → unreferenced (g v) = true) →
  nodes_rel (alter g id V) (exec_op op sh).
Proof.
  intros Hop Hid Hother Hzero. destruct Hrel as [Hnodes Hlive].
  assert (∀ i, tbl_map (sh_table (exec_op op sh)) !! i =
    tbl_map (sh_table sh) !! i ≫= λ x, keep (slot_after op i sh x)) as Hlk.
  { intros i. by rewrite (lookup_exec op n issued), lookup_after_eq. }
  assert (∀ i x, tbl_map (sh_table sh) !! i = Some x →
    alter g id V !! i = Some (strip (slot_after op i sh x))) as Hv.
  { intros i x Hx. destruct (decide (i = id)) as [->|Hne].
    - rewrite lookup_alter_eq, (Hnodes _ _ Hx), Hid by done. done.
    - rewrite lookup_alter_ne by done. rewrite (Hnodes _ _ Hx), Hother; done. }
  split.
  - intros i x. rewrite Hlk, bind_Some. intros (x0 & Hx0 & Hk). unfold keep in Hk.
    destruct (droppable _); [done|]. injection Hk as <-. by apply Hv.
  - intros i v Hi Hu.
    assert (∃ v0, V !! i = Some v0 ∧ unreferenced v0 = false) as (v0 & Hv0 & Hu0).
    { destruct (decide (i = id)) as [->|Hne].
      - rewrite lookup_alter_eq in Hi. destruct (V !! id) as [v0|]; [|done].
        simpl in Hi. injection Hi as <-. exists v0. split; [done|].
        destruct (unreferenced v0) eqn:Hz; [|done]. by rewrite (Hzero v0) in Hu.
      - rewrite lookup_alter_ne in Hi by done. by exists v. }
    destruct (Hlive i v0 Hv0 Hu0) as [x Hx]. rewrite Hlk, Hx. simpl. unfold keep.
    destruct (droppable (slot_after op i sh x)) eqn:Hd; [|done].
    apply droppable_unreferenced in Hd. rewrite (Hv i x Hx) in Hi. congruence.
Qed.

Lemma alter_same i : alter (λ v, v) i V = V.
Proof. apply map_eq. intros j. rewrite lookup_alter. case_decide; [subst|done]. by destruct (V !! _). Qed.

(** Steps on the leases are not visible. *)
Lemma nodes_rel_lease op :
  (match op with OpGet _ | OpDropRef _ => True | _ => False end) → nodes_rel V (exec_op op sh).
Proof.
  intros Hop. destruct op; try done.
  - rewrite <- (alter_same id). apply nodes_rel_step; try done; intros.
    + simpl. by case_decide.
    + simpl. by case_decide.
  - rewrite <- (alter_same 0). apply nodes_rel_step; try done; intros; simpl;
      destruct (sh_refs sh !! k); try done; by case_decide.
Qed.

(** Incrementing a counter of a live node. *)
Lemma nodes_rel_insert p parent :
  (∀ v, V !! (alloc (sh_table sh)).1.1 = Some v → unreferenced v = true) ∧
  nodes_rel (<[(alloc (sh_table sh)).1.1 := mkRefNode p (alloc (sh_table sh)).1.2 1 0 0 parent]> V)
    (exec_op (OpInsert p parent) sh).
Proof.
  destruct Hrel as [Hnodes Hlive]. pose proof (alloc_spec n issued sh Hn Hinv) as Ha.
  assert (∀ i, tbl_map (sh_table (exec_op (OpInsert p parent) sh)) !! i = lookup_after (OpInsert p parent) i sh) as Hlk.
  { intros i. by apply (lookup_exec _ n issued). }
  unfold lookup_after in Hlk. destruct (alloc (sh_table sh)) as [[ino g] t]. simpl in *.
  destruct Ha as (_ & Hnone & _). split.
  { intros v Hv. destruct (unreferenced v) eqn:Hu; [done|]. destruct (Hlive ino v Hv Hu). congruence. }
  split.
  - intros i x. rewrite Hlk, lookup_insert. case_decide as Hi; [subst i|].
    + rewrite Hnone. intros [= <-]. done.
    + destruct (tbl_map (sh_table sh) !! i) as [y|] eqn:Hy; [|done].
      rewrite (keep_live _ _ _ _ _ Hinv Hy). intros [= <-]. by apply Hnodes.
  - intros i v. rewrite Hlk, lookup_insert. case_decide as Hi; [subst i; by rewrite Hnone|].
    intros Hv Hu. destruct (Hlive i v Hv Hu) as [y Hy]. rewrite Hy, (keep_live _ _ _ _ _ Hinv Hy). by eexists.
Qed.

(** A node that is referred to is in the table. *)
Lemma nodes_rel_lookup id v :
  V !! id = Some v → unreferenced v = false → ∃ x, tbl_map (sh_table sh) !! id = Some x ∧ strip x = v.
Proof.
  intros Hv Hu. destruct Hrel as [Hnodes Hlive]. destruct (Hlive id v Hv Hu) as [x Hx].
  exists x. split; [done|]. specialize (Hnodes id x Hx). congruence.
Qed.
Lemma nodes_rel_none id : V !! id = None → tbl_map (sh_table sh) !! id = None.
Proof.
  intros Hv. destruct Hrel as [Hnodes _]. destruct (tbl_map (sh_table sh) !! id) as [x|] eqn:Hx; [|done].
  specialize (Hnodes id x Hx). congruence.
Qed.

(** Without leases nothing unreferenced is left in the table. *)
Lemma nodes_rel_reap :
  sh_refs sh = ∅ → nodes_rel (filter (λ kv, unreferenced kv.2 = false) V) sh.
Proof.
  intros Hrefs. destruct Hrel as [Hnodes Hlive]. split.
  - intros i x Hx. apply map_lookup_filter_Some. split; [by apply Hnodes|]. simpl.
    destruct (unreferenced (strip x)) eqn:Hu; [|done].
    pose proof (inv_clean _ _ _ _ Hinv i x Hx ltac:(done)) as Hd.
    pose proof (inv_leases _ _ _ _ Hinv i x Hx) as Hl. unfold lease_count in Hl.
    rewrite Hrefs, count_map_empty in Hl. apply unreferenced_true in Hu. simpl in Hu.
    assert (droppable x = true) by (apply droppable_true; tauto). congruence.
  - intros i v [Hv Hu]%map_lookup_filter_Some ?. by eapply Hlive.
Qed.
End step.
End relation.

(** ** Composition *)
Section composition.
Context {N H D S K : Type} `{Libc}.
Abbreviation W := (World N H D S K).
Abbreviation sp := (wp (RefState N H D S K)).
Implicit Types (w : W) (s : RefState N H D S K) (f : frame).

Lemma impl_ret {A} f (a : A) : implements f (mret a : M W A) (mret a).
Proof. intros Q. apply triple_ret. intros n w (s & HQ & HR). by exists a, s. Qed.

Lemma impl_bind {A B} f (m : M W A) (σ : sp A) (k : A → M W B) (κ : A → sp B) :
  implements f m σ → (∀ a, implements f (k a) (κ a)) → implements f (m ≫= k) (σ ≫= κ).
Proof.
  intros Hm Hk Q. eapply triple_bind with (R := λ a n w, ∃ s, κ a Q s ∧ rel f s w).
  - eapply triple_conseq; [apply (Hm (λ a s, κ a Q s))|done|].
    intros o n w (a & s & -> & HQ & HR). by exists s.
  - intros a. apply Hk.
Qed.

(** The reference does not panic. *)
Lemma impl_attempt {A B} f (m : M W A) (σ : sp A) (k : A → M W B) (κ : A → sp B) u (υ : sp B) :
  implements f m σ → (∀ a, implements f (k a) (κ a)) → implements f u υ →
  implements f (attempt m k u) (σ ≫= κ).
Proof.
  intros Hm Hk Hu Q. eapply triple_attempt with (R := λ a n w, ∃ s, κ a Q s ∧ rel f s w) (R' := λ _ _, False).
  - eapply triple_conseq; [apply (Hm (λ a s, κ a Q s))|done|].
    intros o n w (a & s & -> & HQ & HR). by exists s.
  - intros a. apply Hk.
  - by eapply triple_conseq; [apply (Hu Q)|..].
Qed.

Lemma impl_try {A B} f (m : M W (Result Errno A)) (σ : sp (Result Errno A)) (k : A → M W (Result Errno B)) κ :
  implements f m σ → (∀ a, implements f (k a) (κ a)) → implements f (try_bind m k) (wp_try σ κ).
Proof.
  intros Hm Hk. unfold try_bind, wp_try. apply impl_bind; [done|]. intros [a|e]; [apply Hk|apply impl_ret].
Qed.

(** A step of the world that no other thread could see in part. *)
Lemma impl_local {A} f (m : M W A) (σ : sp A) :
  (∀ w, made [] w (m w).2) → (∀ w, (m w).1 ≠ Blocked) →
  (∀ Q s w, σ Q s → rel f s w → ∃ a s', (m w).1 = Returned a ∧ Q a s' ∧ rel f s' (m w).2) →
  implements f m σ.
Proof. intros Hsh Hnb Hm Q. apply triple_local; [done..|]. intros n w (s & Hs & HR). by eapply Hm. Qed.

Lemma rel_shared f s w sh' V :
  rel f s w → nodes_rel V sh' → sh_refs sh' = sh_refs (sh_of w) →
  rel f (put_nodes V s) (mkWorld (with_shared sh' (w_rt w)) (w_sink w)).
Proof. intros [] HV Hrefs. split; simpl; try done. intros k. unfold sh_of in *. simpl. by rewrite Hrefs. Qed.

(** A critical section that only reads. *)
Lemma rel_counted f s w : rel f s w → rel f s (mkWorld (with_shared (sh_of w) (w_rt w)) (w_sink w)).
Proof. by intros []. Qed.

(** A table operation that moves counters. *)
Lemma impl_table {A} f (m : M (Shared N) A) (op : table_op N) (σ : sp A) :
  neutral op ∨ (∃ id n, op = OpForget id n ∧ 0 ≤ n) ∨ (∃ id, op = OpRemoveOpen id) →
  (∀ sh, (m sh).2 = exec_op op sh) → (∀ sh, (m sh).1 ≠ Blocked) →
  (∀ Q s n issued sh, σ Q s → nodes_rel (s_nodes s) sh → inv_but None n issued sh → n + 2 < u64_max →
     ∃ a V, (m sh).1 = Returned a ∧ Q a (put_nodes V s) ∧ nodes_rel V (exec_op op sh)) →
  implements f (on_shared m) σ.
Proof.
  intros Hop Hexec Hnb Hm Q.
  assert (op_wf op ∧ ∀ sh, sh_refs (exec_op op sh) = sh_refs sh) as [Hwf Hrefs].
  { destruct Hop as [Hop|[(id & k & -> & ?)|(id & ->)]]; [by destruct (neutral_spec op Hop) as (_ & _ & ? & ?)|done..]. }
  apply triple_step with op; [done..|]. intros n issued w Hinv Hn (s & Hs & HR).
  destruct (Hm Q s n issued (sh_of w) Hs (r_nodes _ _ _ HR) Hinv Hn) as (a & V & Ho & HQ & HV).
  exists a, (put_nodes V s). split_and!; [done..|]. by apply rel_shared.
Qed.

Lemma impl_table_read {A} f (g : Shared N → A) (σ : sp A) :
  (∀ Q s sh, σ Q s → nodes_rel (s_nodes s) sh → Q (g sh) s) → implements f (on_shared (gets g)) σ.
Proof.
  intros Hg Q. apply triple_read. intros n w (s & Hs & HR). exists (g (sh_of w)), s.
  split_and!; [done| |by apply rel_counted]. by apply Hg; [|apply HR].
Qed.

Local Ltac rel_slot :=
  match goal with
  | Hnode : s_nodes ?s !! ?id = Some ?v, Hu : unreferenced ?v = false, HR : nodes_rel (s_nodes ?s) ?sh |- _ =>
      destruct (nodes_rel_lookup _ _ HR id v Hnode Hu) as (x & Hx & Hstrip)
  | Hnode : s_nodes ?s !! ?id = None, HR : nodes_rel (s_nodes ?s) ?sh |- _ =>
      pose proof (nodes_rel_none _ _ HR id Hnode) as Hx
  end.

Lemma impl_ext {A} f (m : M W A) (σ σ' : sp A) :
  (∀ Q s, σ' Q s → σ Q s) → implements f m σ → implements f m σ'.
Proof.
  intros Hσ Hm Q. eapply triple_conseq; [apply (Hm Q)|intros n w (s & ? & ?); exists s; auto|done].
Qed.

(** The counters that must not overflow: each is one table operation. *)
Lemma impl_count {A} f id (m : M (Shared N) A) get put max op
    (wget : Slot N → Z) (wput : Z → Slot N → Slot N) (out : Result Errno (RefNode N) → A) :
  neutral op → (∀ p parent, op ≠ OpInsert p parent) →
  (∀ x, get (strip x) = wget x) → (∀ k x, strip (wput k x) = put k (strip x)) →
  (∀ i sh x, slot_after op i sh x = if decide (id = i) then wput (bump max (wget x)) x else x) →
  (∀ sh, m sh = (match tbl_map (sh_table sh) !! id with
     | None => Returned (out (Err ENOENT))
     | Some x => match checked_add max (wget x) 1 with
                 | None => Panicked
                 | Some _ => Returned (out (Ok (strip x)))
                 end
     end, exec_op op sh)) →
  implements f (on_shared m) (sp_count id get put max ≫= λ r, mret (out r) : sp _).
Proof.
  intros Hneutral Hop Hget Hput Hafter Hm. apply impl_table with op; [by left|intros sh..|].
  - by rewrite Hm.
  - rewrite Hm. by repeat case_match.
  - intros Q s n issued sh Hs HR Hinv Hn. unfold sp_count, sp_node_at, mbind, wp_bind in Hs.
    rewrite Hm. simpl. destruct (s_nodes s !! id) as [v|] eqn:Hv.
    + destruct Hs as (Hu & Hmax & HQ). rel_slot. rewrite Hx, <- Hget, Hstrip.
      assert (checked_add max (get v) 1 = Some (get v + 1)) as -> by (apply checked_add_Some; lia).
      eexists _, _. split_and!; [done|exact HQ|].
      replace (<[id:=put (get v + 1) v]> (s_nodes s)) with (alter (λ v, put (get v + 1) v) id (s_nodes s)); cycle 1.
      { apply map_eq. intros i. rewrite lookup_alter, lookup_insert. case_decide; [subst; by rewrite Hv|done]. }
      eapply nodes_rel_step; [done..| | |].
      * intros y Hy. assert (y = x) as -> by congruence.
        rewrite Hafter, decide_True, Hput, <- Hget, Hstrip by done. unfold bump. by rewrite decide_True by lia.
      * intros i y Hi. rewrite Hafter. by rewrite decide_False by congruence.
      * intros v' Hv' Hu'. congruence.
    + rel_slot. rewrite Hx. exists (out (Err ENOENT)), (s_nodes s). split_and!; [done|by destruct s|].
      rewrite <- (alter_same (s_nodes s) id). eapply nodes_rel_step; [done..| | |].
      * intros y Hy. congruence.
      * intros i y Hi. rewrite Hafter. by rewrite decide_False by congruence.
      * intros v' Hv' ?. congruence.
Qed.

Lemma impl_alter f id (m : M (Shared N) unit) op (g : RefNode N → RefNode N) :
  neutral op ∨ (∃ id n, op = OpForget id n ∧ 0 ≤ n) ∨ (∃ id, op = OpRemoveOpen id) →
  (∀ p parent, op ≠ OpInsert p parent) →
  (∀ sh, m sh = (Returned tt, exec_op op sh)) →
  (∀ i sh x, strip (slot_after op i sh x) = if decide (id = i) then g (strip x) else strip x) →
  (∀ v, unreferenced v = true → unreferenced (g v) = true) →
  implements f (on_shared m) (sp_alter id g : sp unit).
Proof.
  intros Hop Hins Hm Hafter Hg. apply impl_table with op; [done|intros sh; by rewrite Hm..|].
  intros Q s n issued sh Hs HR Hinv Hn. eexists tt, _. split_and!; [by rewrite Hm|exact Hs|].
  eapply nodes_rel_step; [done..| | |].
  - intros x _. by rewrite Hafter, decide_True.
  - intros i x Hi. by rewrite Hafter, decide_False by congruence.
  - intros v _. apply Hg.
Qed.
(** ** Node references *)

Lemma size_keys {V} (m : gmap nat V) (l : list nat) :
  (∀ k, is_Some (m !! k) → k ∈ l) → (size m ≤ length l)%nat.
Proof.
  intros Hm. rewrite <- length_map_to_list, <- (length_fmap fst). apply submseteq_length.
  apply NoDup_submseteq; [apply NoDup_fst_map_to_list|].
  intros k ([k' v] & -> & Hk)%list_elem_of_fmap. apply Hm. apply elem_of_map_to_list in Hk. by eexists.
Qed.

Lemma rel_get f s w n issued id v :
  rel f s w → inv_but None n issued (sh_of w) → n + 2 < u64_max →
  s_nodes s !! id = Some v → unreferenced v = false →
  ∃ l, (cx_get id (sh_of w)).1 = Returned (Some l) ∧
    payload (arc_val (nr_record (lr_ref l))) = v_payload v ∧ lr_key l ∉ s_held s ∧ lr_key l ∉ f_refs f ∧
    nodes_rel (s_nodes s) (exec_op (OpGet id) (sh_of w)) ∧
    ∀ k, is_Some (sh_refs (exec_op (OpGet id) (sh_of w)) !! k) ↔ k = lr_key l ∨ k ∈ s_held s ∨ k ∈ f_refs f.
Proof.
  intros HR Hinv Hn Hv Hu.
  destruct (nodes_rel_lookup _ _ (r_nodes _ _ _ HR) id v Hv Hu) as (x & Hx & Hstrip).
  assert (∃ l, (cx_get id (sh_of w)).1 = Returned (Some l) ∧ lr_ref l = mkNodeRef id (slot_record x)) as (l & Hl & Href).
  { unfold cx_get. rewrite Hx.
    assert (checked_add u32_max (slot_leases x) 1 = Some (slot_leases x + 1)) as ->; [|by eexists].
    apply checked_add_Some. split; [done|].
    rewrite (inv_leases _ _ _ _ Hinv _ _ Hx). unfold lease_count.
    pose proof (count_map_le_size (λ r, nr_id r = id) (sh_refs (sh_of w))).
    pose proof (size_keys (sh_refs (sh_of w)) (s_held s ++ f_refs f)) as Hsize.
    rewrite length_app in Hsize. pose proof (r_len _ _ _ HR).
    specialize (Hsize ltac:(intros k Hk; apply elem_of_app, (r_refs _ _ _ HR), Hk)). int_lia. }
  destruct (exec_refs (OpGet id) (sh_of w) l Hl) as [Hkey Hrefs].
  assert (sh_refs (sh_of w) !! lr_key l = None) as Hfresh.
  { destruct (sh_refs (sh_of w) !! lr_key l) as [r|] eqn:Hr; [|done].
    destruct (inv_refs _ _ _ _ Hinv _ _ Hr) as [? _]. lia. }
  pose proof (r_refs _ _ _ HR (lr_key l)) as Hiff. rewrite Hfresh in Hiff.
  exists l. split_and!; [done| | | | |].
  - by rewrite Href, <- Hstrip.
  - intros Hin. destruct (proj2 Hiff (or_introl Hin)). done.
  - intros Hin. destruct (proj2 Hiff (or_intror Hin)). done.
  - by eapply nodes_rel_lease; [apply HR|..].
  - intros k. rewrite Hrefs, lookup_insert_is_Some, (r_refs _ _ _ HR k).
    destruct (decide (lr_key l = k)); naive_solver.
Qed.

Lemma rel_get_none f s w id :
  rel f s w → s_nodes s !! id = None → cx_get id (sh_of w) = (Returned None, sh_of w).
Proof. intros HR Hv. unfold cx_get. by rewrite (nodes_rel_none _ _ (r_nodes _ _ _ HR) id Hv). Qed.

(** The drop of a reference, of the callback or of the handler. *)
Lemma rel_drop f s w n issued key :
  rel f s w → inv_but None n issued (sh_of w) → n + 2 < u64_max →
  nodes_rel (s_nodes s) (exec_op (OpDropRef key) (sh_of w)) ∧
  ∀ k, is_Some (sh_refs (exec_op (OpDropRef key) (sh_of w)) !! k) ↔ k ≠ key ∧ (k ∈ s_held s ∨ k ∈ f_refs f).
Proof.
  intros HR Hinv Hn. split; [by eapply nodes_rel_lease; [apply HR|..]|].
  intros k. rewrite (exec_refs (OpDropRef key) (sh_of w)), lookup_delete_is_Some, (r_refs _ _ _ HR k).
  split; intros [? ?]; split; auto.
Qed.

Lemma cx_get_not_blocked id (sh : Shared N) : (cx_get id sh).1 ≠ Blocked.
Proof. unfold cx_get. by repeat case_match. Qed.

Lemma impl_fs_get f id : implements f (fs_get id : M W _) (sp_get id).
Proof.
  intros Q. unfold fs_get.
  eapply triple_bind with (R := λ r n w, ∃ s, match r with
    | Some l => Q (Some l) (put_held (lr_key l :: s_held s) s) ∧
        rel f (put_held (lr_key l :: s_held s) s) (mkWorld (with_fs_refs (lr_key l :: rt_fs_refs (w_rt w)) (w_rt w)) (w_sink w))
    | None => Q None s ∧ rel f s w
    end).
  - apply triple_step with (OpGet id); [done|done|apply cx_get_not_blocked|].
    intros n issued w Hinv Hn (s & Hs & HR). unfold sp_get, sp_node_at, mbind, wp_bind in Hs.
    destruct (s_nodes s !! id) as [v|] eqn:Hv.
    + destruct Hs as (Hu & Hlen & HQ).
      destruct (rel_get f s w n issued id v HR Hinv Hn Hv Hu) as (l & -> & Hp & Hh & Hf & HV & Hrefs).
      exists s. split; [by apply HQ|]. destruct HR. split; simpl; try done.
      * intros k. unfold sh_of. simpl. rewrite Hrefs, elem_of_cons. tauto.
      * intros k [->|Hk]%elem_of_cons; [done|auto].
      * intros k. rewrite !elem_of_cons, r_held0. done.
      * lia.
    + rewrite (rel_get_none f s w id HR Hv). simpl. exists s. split; [done|].
      unfold exec_op. rewrite (rel_get_none f s w id HR Hv). simpl. by apply rel_counted.
  - intros [l|]; cycle 1.
    { apply triple_ret. intros n w (s & HQ & HR). by exists None, s. }
    eapply triple_bind with (R := λ _ n w, ∃ s, Q (Some l) s ∧ rel f s w).
    + apply triple_local; [done..|]. intros n w (s & HQ & HR). by eexists.
    + intros _. apply triple_ret. intros n w (s & HQ & HR). by exists (Some l), s.
Qed.

Lemma triple_if {A} B P (c : W → bool) (m : M W A) (a : A) Q :
  triple B (λ n w, P n w ∧ c w = true) m Q → (∀ n w, P n w → c w = false → Q (Returned a) n w) →
  triple B P (λ w, if c w then m w else (Returned a, w)) Q.
Proof.
  intros Hm Ha w. destruct (c w) eqn:Hc.
  - destruct (Hm w) as (ops & ? & ? & Hq). exists ops. split_and!; [done..|]. intros. by eapply Hq.
  - exists []. split_and!; [done..|]. intros n issued _ _ Hp. rewrite Z.add_0_r. by apply Ha.
Qed.

Lemma impl_fs_drop_ref f key : implements f (fs_drop_ref key : M W _) (sp_drop_ref key).
Proof.
  intros Q. unfold fs_drop_ref. apply triple_if.
  - eapply triple_bind with (R := λ _ n w, ∃ s, sp_drop_ref key Q s ∧
      rel f (put_held (filter (λ k, k ≠ key) (s_held s)) s)
        (mkWorld (with_fs_refs (filter (λ k, k ≠ key) (rt_fs_refs (w_rt w))) (w_rt w)) (w_sink w))).
    + apply triple_step with (OpDropRef key); [done|done|intros sh; by rewrite ref_drop_returns|].
      intros n issued w Hinv Hn [(s & Hs & HR) Hkey%bool_decide_eq_true].
      rewrite ref_drop_returns. exists s. split; [done|].
      destruct (rel_drop f s w n issued key HR Hinv Hn) as [HV Hrefs]. destruct HR. split; simpl; try done.
      * intros k. unfold sh_of. simpl. rewrite Hrefs, list_elem_of_filter. split; [naive_solver|].
        intros [[? ?]|Hk]; [tauto|]. split; [|auto]. intros ->. apply (r_disjoint0 key); [by apply r_held0|done].
      * intros k [_ Hk]%list_elem_of_filter. auto.
      * intros k. rewrite !list_elem_of_filter, r_held0. done.
      * split; [|tauto]. pose proof (length_filter (λ k, k ≠ key) (s_held s)). lia.
    + intros _. apply triple_local; [done..|]. intros n w (s & Hs & HR). by eexists tt, _.
  - intros n w (s & Hs & HR) Hkey%bool_decide_eq_false. eexists tt, _. split_and!; [done|exact Hs|].
    replace (filter (λ k, k ≠ key) (s_held s)) with (s_held s); [by destruct s|].
    assert (key ∉ s_held s) as Hnin by (by rewrite <- (r_held _ _ _ HR)).
    symmetry. by apply filter_absent.
Qed.

(** ** The operations on the table *)
Lemma impl_node_read {A} f id (g : option (Slot N) → A) (h : option (RefNode N) → A) :
  (∀ o, g o = h (strip <$> o)) →
  implements f (on_shared (gets (λ sh, g (tbl_map (sh_table sh) !! id))) : M W A)
    (o ← sp_node_at id; mret (h o)).
Proof.
  intros Hg. apply impl_table_read. intros Q s sh Hs HR. unfold sp_node_at, mbind, wp_bind in Hs. rewrite Hg.
  destruct (s_nodes s !! id) as [v|] eqn:Hv.
  - destruct Hs as [Hu Hs]. destruct (nodes_rel_lookup _ _ HR id v Hv Hu) as (x & -> & <-). exact Hs.
  - by rewrite (nodes_rel_none _ _ HR id Hv).
Qed.

Lemma impl_contains f id : implements f (on_shared (cx_contains id) : M W _) (sp_contains id).
Proof. apply (impl_node_read f id (λ o : option (Slot N), @bool_decide _ (is_Some_dec o)) (λ o : option (RefNode N), @bool_decide _ (is_Some_dec o))). by intros [x|]. Qed.
Lemma impl_generation f id : implements f (on_shared (read_generation id) : M W _) (sp_generation id).
Proof. apply (impl_node_read f id (λ o, ok_or (slot_generation <$> o) ENOENT)). by intros [x|]. Qed.
Lemma impl_parent f id : implements f (on_shared (read_parent id) : M W _) (sp_parent id).
Proof. apply (impl_node_read f id (λ o, ok_or (slot_parent <$> o) ENOENT)). by intros [x|]. Qed.

Lemma impl_add_link f id : implements f (on_shared (cx_add_link id) : M W _) (sp_add_link id).
Proof.
  apply impl_count with (OpAddLink id) slot_links with_links; try done.
  intros sh. unfold exec_op, cx_add_link. by repeat case_match.
Qed.
Lemma impl_take_lookup f id : implements f (on_shared (take_lookup id) : M W _) (sp_take_lookup id).
Proof.
  apply impl_count with (OpLookup id) slot_lookups with_lookups; try done.
  intros sh. unfold exec_op, take_lookup. by repeat case_match.
Qed.
Lemma impl_retain_lookup f id : implements f (on_shared (retain_lookup id) : M W _) (sp_retain_lookup id).
Proof.
  apply impl_count with (OpLookup id) slot_lookups with_lookups; try done.
  intros sh. rewrite <- retain_exec. unfold retain_lookup. by repeat case_match.
Qed.
Lemma impl_add_open f id : implements f (on_shared (add_open id) : M W _) (sp_add_open id).
Proof.
  apply impl_count with (OpAddOpen id) slot_opens with_opens; try done.
  intros sh. unfold exec_op, add_open. by repeat case_match.
Qed.

Lemma impl_forget f ino k : 0 ≤ k → implements f (forget ino k : M W unit) (sp_forget ino k).
Proof.
  intros Hk. apply impl_alter with (OpForget ino k); [right; left; eauto|done|done| |].
  - intros i sh x. simpl. by case_decide.
  - intros v. rewrite !unreferenced_true. simpl. lia.
Qed.
Lemma impl_remove_open f ino : implements f (on_shared (remove_open ino) : M W unit) (sp_remove_open ino).
Proof.
  apply impl_alter with (OpRemoveOpen ino); [right; right; eauto|done|done| |].
  - intros i sh x. simpl. by case_decide.
  - intros v. rewrite !unreferenced_true. simpl. lia.
Qed.

(** ** Callbacks *)
Lemma impl_prog {E A} f (emit : E → M W bool) (σ : E → sp bool) (p : prog N S E A) :
  (∀ e, implements f (emit e) (σ e)) → implements f (run_prog emit p) (sp_prog σ p).
Proof.
  intros He. induction p; simpl;
    lazymatch goal with
    | |- implements _ (_ ≫= _) (_ ≫= _) => apply impl_bind
    | |- implements _ (attempt _ _ (run_prog _ ?u)) (_ ≫= _) => apply impl_attempt with (υ := sp_prog σ u); [|done|done]
    | _ => idtac
    end.
  - apply impl_ret.
  - intros Q w. exists []. split_and!; [done..|]. by intros n issued _ _ (s & [] & _).
  - intros Q w. exists []. split_and!; [done..|]. by intros n issued _ _ (s & [] & _).
  - intros Q. eapply triple_bind with (R := λ x n w, ∃ s, sp_prog σ (k x) Q s ∧ rel f s w); [|intros x; apply H1].
    apply triple_local; [done..|]. intros n w (s & Hs & HR). exists s. by rewrite (r_fs _ _ _ HR).
  - intros Q. eapply triple_bind with (R := λ _ n w, ∃ s, sp_prog σ p Q s ∧ rel f s w); [|intros _; apply IHp].
    apply triple_local; [done..|]. intros n w (x & Hs & HR). exists (put_fs s x). split; [done|].
    destruct HR. by split.
  - intros Q. eapply triple_bind with (R := λ b n w, ∃ s, sp_prog σ (k b) Q s ∧ rel f s w); [|intros b; apply H1].
    intros w. exists []. unfold own_step.
    destruct (f0 (rt_fs (w_rt w))) as [[b x]|] eqn:Hf; (split_and!; [done|split; [done|unfold steps_of; simpl; lia]|]);
      intros n issued _ _ (s & Hs & HR); pose proof (r_fs _ _ _ HR) as Hfs; rewrite <- Hfs, Hf in Hs; [|done].
    exists (put_fs x s). split; [done|]. destruct HR. by split.
  - apply impl_fs_get.
  - apply impl_fs_drop_ref.
  - done.
  - apply impl_contains.
  - done.
  - apply impl_table with (OpInsert p parent); [by left|done|intros sh; unfold cx_insert; by destruct (alloc _) as [[]]|].
    intros Q s n issued sh Hs HR Hinv Hn.
    destruct (nodes_rel_insert _ sh n issued HR Hinv Hn p parent) as [Hfresh HV].
    eexists _, _. split_and!; [|by apply Hs|exact HV].
    unfold cx_insert. by destruct (alloc (sh_table sh)) as [[]].
  - done.
  - apply impl_alter with (OpReparent id new_parent); [by left|done| | |done].
    + intros sh. unfold exec_op, cx_reparent. by case_match.
    + intros i sh x. simpl. by case_decide.
  - done.
  - apply impl_add_link.
  - apply impl_alter with (OpRemoveLink id); [by left|done|done| |].
    + intros i sh x. simpl. by case_decide.
    + intros v. rewrite !unreferenced_true. simpl. lia.
  - done.
  - apply He.
Qed.

Lemma impl_run {E A} f (emit : E → M W bool) (σ : E → sp bool) (p : prog N S E A) :
  (∀ e, implements f (emit e) (σ e)) → implements f (run_prog emit p) (sp_run σ p).
Proof.
  intros He Q. eapply triple_conseq; [apply (impl_prog f emit σ p He (λ a s', s_held s' = [] ∧ Q a s'))|done|].
  intros o n w (a & s & ? & [_ ?] & ?). by exists a, s.
Qed.
Lemma impl_call {A} f (p : prog N S Empty_set A) : implements f (call p : M W A) (sp_call p).
Proof. apply impl_run. by intros []. Qed.
(** ** Scopes *)

Lemma rel_push f s w sh' key :
  rel f s w → nodes_rel (s_nodes s) sh' → key ∉ s_held s → key ∉ f_refs f → (length (f_refs f) < 8)%nat →
  (∀ k, is_Some (sh_refs sh' !! k) ↔ k = key ∨ k ∈ s_held s ∨ k ∈ f_refs f) →
  rel (push_ref key f) s (mkWorld (with_shared sh' (w_rt w)) (w_sink w)).
Proof.
  intros [] HV Hh Hf Hlen Hrefs. split; simpl; try done.
  - intros k. unfold sh_of. simpl. rewrite Hrefs, elem_of_cons. tauto.
  - intros k Hk. rewrite not_elem_of_cons. split; [by intros ->|auto].
  - by constructor.
  - lia.
Qed.

Lemma rel_pop f s w n issued key :
  rel (push_ref key f) s w → inv_but None n issued (sh_of w) → n + 2 < u64_max →
  rel f s (mkWorld (with_shared (exec_op (OpDropRef key) (sh_of w)) (w_rt w)) (w_sink w)).
Proof.
  intros HR Hinv Hn. destruct (rel_drop _ s w n issued key HR Hinv Hn) as [HV Hrefs].
  destruct HR. simpl in *. apply NoDup_cons in r_nodup0 as [Hk Hnd]. split; simpl; try done.
  - intros k. unfold sh_of at 1. simpl. rewrite Hrefs, elem_of_cons. split; [naive_solver|].
    intros [Hin|Hin]; (split; [|auto]); intros ->; [|done]. apply (r_disjoint0 key Hin). by left.
  - intros k Hk' Hin. apply (r_disjoint0 k Hk'). by right.
  - lia.
Qed.

Lemma impl_scope_node {A} f ino (err : Errno → M W A) σerr (k : N → M W A) (κ : N → sp A) :
  (length (f_refs f) < 8)%nat → (∀ e, implements f (err e) (σerr e)) →
  (∀ key p, implements (push_ref key f) (k p) (κ p)) →
  implements f (scope_node ino err k) (sp_scope_node ino σerr κ).
Proof.
  intros Hlen Herr Hk Q. unfold scope_node, node.
  eapply triple_bind with (R := λ r n w, ∃ s, match r with
    | Ok l => κ (node_payload l) Q s ∧ rel (push_ref (lr_key l) f) s w
    | Err e => σerr e Q s ∧ rel f s w
    end).
  - eapply triple_bind with (R := λ r n w, ∃ s, match r with
      | Some l => κ (node_payload l) Q s ∧ rel (push_ref (lr_key l) f) s w
      | None => σerr ENOENT Q s ∧ rel f s w
      end).
    + apply triple_step with (OpGet ino); [done|done|apply cx_get_not_blocked|].
      intros n issued w Hinv Hn (s & Hs & HR). unfold sp_scope_node, sp_node_at, mbind, wp_bind in Hs.
      destruct (s_nodes s !! ino) as [v|] eqn:Hv.
      * destruct Hs as (Hu & HQ).
        destruct (rel_get f s w n issued ino v HR Hinv Hn Hv Hu) as (l & -> & Hp & Hh & Hf & HV & Hrefs).
        exists s. unfold node_payload. rewrite Hp. split; [done|]. by apply rel_push.
      * rewrite (rel_get_none f s w ino HR Hv). simpl. exists s. split; [done|].
        unfold exec_op. rewrite (rel_get_none f s w ino HR Hv). simpl. by apply rel_counted.
    + intros [l|]; apply triple_ret; intros n w (s & ? & ?); by exists s.
  - intros [l|e]; [|apply Herr].
    eapply triple_finally; [apply (Hk (lr_key l))|]. intros o _.
    apply triple_step with (OpDropRef (lr_key l)); [done|done|intros sh; by rewrite ref_drop_returns|].
    intros n issued w Hinv Hn (a & s & -> & HQ & HR). split; [apply ref_drop_returns|].
    exists a, s. split_and!; [done..|]. by eapply rel_pop.
Qed.

(** *** Handles *)
Lemma record_leased {T} b (p : NodeId * T) :
  mkHandleRecord (hr_node (as_record b p)) (hr_payload (as_record b p)) (leased_state true) = as_record true p.
Proof. done. Qed.

Lemma rel_lease_file f s w fh p :
  rel f s w → f_file f = None → s_files s !! fh = Some p →
  rel (lease_file fh f) s (mkWorld (with_files (<[fh := as_record true p]> (files (rt_handles (w_rt w)))) (w_rt w)) (w_sink w)).
Proof.
  intros [] Hf Hp. split; simpl; try done. intros fh'. rewrite lookup_insert. case_decide as Heq.
  - subst fh'. rewrite Hp, bool_decide_eq_true_2; done.
  - rewrite r_files0, Hf, !bool_decide_eq_false_2 by congruence. done.
Qed.
Lemma rel_lease_dir f s w fh p :
  rel f s w → f_dir f = None → s_dirs s !! fh = Some p →
  rel (lease_dir fh f) s (mkWorld (with_dirs (<[fh := as_record true p]> (dirs (rt_handles (w_rt w)))) (w_rt w)) (w_sink w)).
Proof.
  intros [] Hf Hp. split; simpl; try done. intros fh'. rewrite lookup_insert. case_decide as Heq.
  - subst fh'. rewrite Hp, bool_decide_eq_true_2; done.
  - rewrite r_dirs0, Hf, !bool_decide_eq_false_2 by congruence. done.
Qed.

Lemma lease_drop_leased : (lease_drop (leased_state true)).2 = leased_state false.
Proof. reflexivity. Qed.

Lemma rel_unlease_file f s w fh :
  rel (lease_file fh f) s w → f_file f = None →
  rel f s (mkWorld (with_files (drop_handle fh (files (rt_handles (w_rt w)))).2 (w_rt w)) (w_sink w)).
Proof.
  intros [] Hf. split; simpl; try done. intros fh'. unfold drop_handle. simpl in r_files0.
  rewrite (r_files0 fh). rewrite (bool_decide_eq_true_2 (Some fh = Some fh)) by done. rewrite Hf, (bool_decide_eq_false_2 (None = _)) by done.
  destruct (s_files s !! fh) as [p|] eqn:Hp; simpl.
  - rewrite lookup_insert. case_decide as Heq; [subst fh'; by rewrite Hp|].
    by rewrite r_files0, bool_decide_eq_false_2 by congruence.
  - rewrite r_files0. destruct (decide (fh = fh')) as [->|]; [by rewrite Hp|].
    by rewrite bool_decide_eq_false_2 by congruence.
Qed.
Lemma rel_unlease_dir f s w fh :
  rel (lease_dir fh f) s w → f_dir f = None →
  rel f s (mkWorld (with_dirs (drop_handle fh (dirs (rt_handles (w_rt w)))).2 (w_rt w)) (w_sink w)).
Proof.
  intros [] Hf. split; simpl; try done. intros fh'. unfold drop_handle. simpl in r_dirs0.
  rewrite (r_dirs0 fh). rewrite (bool_decide_eq_true_2 (Some fh = Some fh)) by done. rewrite Hf, (bool_decide_eq_false_2 (None = _)) by done.
  destruct (s_dirs s !! fh) as [p|] eqn:Hp; simpl.
  - rewrite lookup_insert. case_decide as Heq; [subst fh'; by rewrite Hp|].
    by rewrite r_dirs0, bool_decide_eq_false_2 by congruence.
  - rewrite r_dirs0. destruct (decide (fh = fh')) as [->|]; [by rewrite Hp|].
    by rewrite bool_decide_eq_false_2 by congruence.
Qed.

Lemma same_files (w : W) : mkWorld (with_files (files (rt_handles (w_rt w))) (w_rt w)) (w_sink w) = w.
Proof. by destruct w as [[? ? ? []] ?]. Qed.
Lemma same_dirs (w : W) : mkWorld (with_dirs (dirs (rt_handles (w_rt w))) (w_rt w)) (w_sink w) = w.
Proof. by destruct w as [[? ? ? []] ?]. Qed.

Lemma impl_scope_file {A} f ino fh (err : Errno → M W A) σerr (k : H → M W A) (κ : H → sp A) :
  f_file f = None → (∀ e, implements f (err e) (σerr e)) →
  (∀ h, implements (lease_file fh f) (k h) (κ h)) →
  implements f (scope_file ino fh err k) (sp_scope_file ino fh σerr κ).
Proof.
  intros Hf Herr Hk Q. unfold scope_file, file.
  eapply triple_bind with (R := λ r n w, ∃ s, match r with
    | Ok h => κ h Q s ∧ rel (lease_file fh f) s w
    | Err e => σerr e Q s ∧ rel f s w
    end).
  - apply triple_local.
    + intros w. unfold on_files, zoom. by destruct (find_handle ino fh _).
    + intros w. unfold on_files, zoom, find_handle. repeat case_match; by simplify_eq/=.
    + intros n w (s & Hs & HR). unfold sp_scope_file, sp_find, mbind, wp_bind in Hs.
      unfold on_files, zoom, find_handle. rewrite (r_files _ _ _ HR), Hf, bool_decide_eq_false_2 by done.
      destruct (s_files s !! fh) as [[node h]|] eqn:Hp; simpl; [|by rewrite same_files; exists s].
      destruct (negb _); simpl; [by rewrite same_files; exists s|].
      change (acquire (leased_state false)) with (Returned true : outcome bool, leased_state true). simpl.
      exists s. split; [done|]. by apply (rel_lease_file f s w fh (node, h)).
  - intros [h|e]; [|apply Herr].
    eapply triple_finally; [apply (Hk h)|]. intros o Ho. apply triple_local.
    + intros w. unfold on_files, zoom. by destruct (drop_handle fh _).
    + intros w. unfold on_files, zoom, drop_handle. by repeat case_match; simplify_eq/=.
    + intros n w (a & s & -> & HQ & HR). apply rel_unlease_file in HR; [|done].
      unfold on_files, zoom. unfold drop_handle in *.
      destruct (files (rt_handles (w_rt w)) !! fh); (split; [done|]); by exists a, s.
Qed.
Lemma impl_scope_dir {A} f ino fh (err : Errno → M W A) σerr (k : D → M W A) (κ : D → sp A) :
  f_dir f = None → (∀ e, implements f (err e) (σerr e)) →
  (∀ h, implements (lease_dir fh f) (k h) (κ h)) →
  implements f (scope_dir ino fh err k) (sp_scope_dir ino fh σerr κ).
Proof.
  intros Hf Herr Hk Q. unfold scope_dir, dir.
  eapply triple_bind with (R := λ r n w, ∃ s, match r with
    | Ok h => κ h Q s ∧ rel (lease_dir fh f) s w
    | Err e => σerr e Q s ∧ rel f s w
    end).
  - apply triple_local.
    + intros w. unfold on_dirs, zoom. by destruct (find_handle ino fh _).
    + intros w. unfold on_dirs, zoom, find_handle. repeat case_match; by simplify_eq/=.
    + intros n w (s & Hs & HR). unfold sp_scope_dir, sp_find, mbind, wp_bind in Hs.
      unfold on_dirs, zoom, find_handle. rewrite (r_dirs _ _ _ HR), Hf, bool_decide_eq_false_2 by done.
      destruct (s_dirs s !! fh) as [[node h]|] eqn:Hp; simpl; [|by rewrite same_dirs; exists s].
      destruct (negb _); simpl; [by rewrite same_dirs; exists s|].
      change (acquire (leased_state false)) with (Returned true : outcome bool, leased_state true). simpl.
      exists s. split; [done|]. by apply (rel_lease_dir f s w fh (node, h)).
  - intros [h|e]; [|apply Herr].
    eapply triple_finally; [apply (Hk h)|]. intros o Ho. apply triple_local.
    + intros w. unfold on_dirs, zoom. by destruct (drop_handle fh _).
    + intros w. unfold on_dirs, zoom, drop_handle. by repeat case_match; simplify_eq/=.
    + intros n w (a & s & -> & HQ & HR). apply rel_unlease_dir in HR; [|done].
      unfold on_dirs, zoom. unfold drop_handle in *.
      destruct (dirs (rt_handles (w_rt w)) !! fh); (split; [done|]); by exists a, s.
Qed.
Lemma impl_add_file f ino h :
  f_file f = None → implements f (on_handles (add_file ino h) : M W Z) (sp_add_file ino h).
Proof.
  intros Hf. apply impl_local; [done..|]. intros Q s w Hs HR. eexists _, _. split_and!; [|exact Hs|].
  - simpl. by rewrite (r_next _ _ _ HR).
  - destruct HR. split; simpl; try done; [|by rewrite r_next0].
    intros fh. rewrite r_next0, !lookup_insert. case_decide; [by rewrite Hf|done].
Qed.
Lemma impl_add_dir f ino h :
  f_dir f = None → implements f (on_handles (add_dir ino h) : M W Z) (sp_add_dir ino h).
Proof.
  intros Hf. apply impl_local; [done..|]. intros Q s w Hs HR. eexists _, _. split_and!; [|exact Hs|].
  - simpl. by rewrite (r_next _ _ _ HR).
  - destruct HR. split; simpl; try done; [|by rewrite r_next0].
    intros fh. rewrite r_next0, !lookup_insert. case_decide; [by rewrite Hf|done].
Qed.

(** A record leaves its table idle. *)
Lemma impl_remove_file f ino fh :
  f_file f = None →
  implements f (on_files (remove_handle ino fh) : M W _)
    (r ← sp_remove_file ino fh; mret (Result_map (λ h, as_record false (ino, h)) r)).
Proof.
  intros Hf. apply impl_local.
  - intros w. unfold on_files, zoom. by destruct (remove_handle ino fh _).
  - intros w. unfold on_files, zoom, remove_handle. by repeat case_match; simplify_eq/=.
  - intros Q s w Hs HR. unfold sp_remove_file, wp_try, sp_find, mbind, wp_bind in Hs.
    unfold on_files, zoom, remove_handle. rewrite (r_files _ _ _ HR), Hf, bool_decide_eq_false_2 by done.
    destruct (s_files s !! fh) as [[node h]|] eqn:Hp; simpl.
    + destruct (Z.eqb_spec node ino) as [->|Hne]; simpl in *.
      * eexists _, _. split_and!; [done|exact Hs|]. destruct HR. split; simpl; try done.
        intros fh'. rewrite !lookup_delete. by case_decide.
      * eexists _, s. split_and!; [done|exact Hs|]. by rewrite same_files.
    + eexists _, s. split_and!; [done|exact Hs|]. by rewrite same_files.
Qed.
Lemma impl_remove_dir f ino fh :
  f_dir f = None →
  implements f (on_dirs (remove_handle ino fh) : M W _)
    (r ← sp_remove_dir ino fh; mret (Result_map (λ h, as_record false (ino, h)) r)).
Proof.
  intros Hf. apply impl_local.
  - intros w. unfold on_dirs, zoom. by destruct (remove_handle ino fh _).
  - intros w. unfold on_dirs, zoom, remove_handle. by repeat case_match; simplify_eq/=.
  - intros Q s w Hs HR. unfold sp_remove_dir, wp_try, sp_find, mbind, wp_bind in Hs.
    unfold on_dirs, zoom, remove_handle. rewrite (r_dirs _ _ _ HR), Hf, bool_decide_eq_false_2 by done.
    destruct (s_dirs s !! fh) as [[node h]|] eqn:Hp; simpl.
    + destruct (Z.eqb_spec node ino) as [->|Hne]; simpl in *.
      * eexists _, _. split_and!; [done|exact Hs|]. destruct HR. split; simpl; try done.
        intros fh'. rewrite !lookup_delete. by case_decide.
      * eexists _, s. split_and!; [done|exact Hs|]. by rewrite same_dirs.
    + eexists _, s. split_and!; [done|exact Hs|]. by rewrite same_dirs.
Qed.

(** An idle record gives its payload without waiting. *)
Lemma impl_take_payload {T} f (r : HandleRecord T) :
  implements f (take_payload r : M W T) (λ Q s, hr_state r = leased_state false ∧ Q (hr_payload r) s).
Proof.
  intros Q w. exists []. split_and!; [done|unfold take_payload; by repeat case_match|].
  intros n issued _ _ (s & [Hr HQ] & HR). unfold take_payload. rewrite Hr. simpl.
  by exists (hr_payload r), s.
Qed.

Lemma impl_sink {A} f (g : K → A * K) : implements f (on_sink g : M W A) (sp_on_sink g).
Proof.
  apply impl_local.
  - intros w. unfold on_sink. by destruct (g _).
  - intros w. unfold on_sink. by destruct (g _).
  - intros Q s w Hs HR. unfold on_sink. unfold sp_on_sink in Hs. rewrite (r_sink _ _ _ HR).
    destruct (g (s_sink s)) as [a k]. eexists _, _. split_and!; [done|exact Hs|]. destruct HR. by split.
Qed.

Lemma impl_with_sink {A} f k (m : M W A) σ :
  implements f m σ → implements f (with_sink k m) (sp_with_sink k σ).
Proof.
  intros Hm Q w. destruct (Hm Q (mkWorld (w_rt w) k)) as (ops & ? & ? & Hq). exists ops. split_and!; [done..|].
  intros n issued Hinv Hn (s & Hs & HR). apply (Hq n issued); [done..|]. exists (put_sink k s). split; [done|].
  destruct HR. by split.
Qed.

Lemma impl_reply {A} f (c : A → reply) (m : M W A) σ :
  implements f m σ → implements f (reply_with c m) (sp_reply c σ).
Proof. intros Hm. apply impl_bind; [done|]. intros a. apply impl_ret. Qed.
End composition.

(** ** Requests *)
Section requests.
Context {N H D S K : Type} `{Libc} (fs : NodeFs N H D S).
Abbreviation W := (World N H D S K).
Abbreviation sp := (wp (RefState N H D S K)).

(** [impl]: goes through a handler, operation by operation. *)
Local Ltac impl :=
  repeat (intros;
    first
    [ apply impl_ret | apply impl_call | apply impl_parent | apply impl_generation
    | apply impl_take_lookup | apply impl_retain_lookup | apply impl_add_open | apply impl_remove_open
    | apply impl_add_file; done | apply impl_add_dir; done | apply impl_sink
    | apply impl_scope_node; [simpl; lia| |]
    | apply impl_scope_file; [done| |] | apply impl_scope_dir; [done| |]
    | apply impl_run | apply impl_try | apply impl_bind
    | match goal with |- implements _ (match ?x with _ => _ end) _ => destruct x end ]).

Lemma impl_entry_for (id : NodeId) caller :
  implements idle_frame (entry_for fs id caller : M W _) (sp_entry_for fs id caller).
Proof. unfold entry_for, sp_entry_for, with_node, sp_with_node, fail, sp_fail. impl. Qed.

Lemma impl_on_node {B} ino (p : N → prog N S Empty_set (Result Errno B)) :
  implements idle_frame (with_node ino (λ n, call (p n)) : M W _) (sp_on_node ino p).
Proof. unfold sp_on_node, with_node, sp_with_node, fail, sp_fail. impl. Qed.

Lemma impl_on_file {B} ino fh (p : N → H → prog N S Empty_set (Result Errno B)) :
  implements idle_frame (with_node ino (λ n, with_file ino fh (λ h, call (p n h))) : M W _) (sp_on_file ino fh p).
Proof.
  unfold sp_on_file, with_node, sp_with_node, with_file, sp_with_file, fail, sp_fail. impl.
Qed.

Lemma impl_optional_file {B} f ino fh (k : option H → M W (Result Errno B)) κ :
  f_file f = None → (∀ f h, implements f (k h) (κ h)) →
  implements f (with_optional_file ino fh k) (sp_optional_file ino fh κ).
Proof.
  intros Hf Hk. unfold with_optional_file, sp_optional_file, with_file, sp_with_file, fail, sp_fail.
  destruct fh; [|apply Hk]. apply impl_scope_file; [done|intros; apply impl_ret|intros; apply Hk].
Qed.

Lemma impl_read {R} ino fh offset size caller (reply : Result Errno bytes → M W R) σ :
  (∀ f r, implements f (reply r) (σ r)) →
  implements idle_frame (read fs ino fh offset size caller reply)
    (sp_scope_node ino (λ e, σ (Err e)) (λ n, sp_scope_file ino fh (λ e, σ (Err e)) (λ h,
       r ← sp_call (fs_read fs n h offset size caller); σ r))).
Proof.
  intros Hr. unfold read. apply impl_scope_node; [simpl; lia|by intros|]. intros key n.
  apply impl_scope_file; [done|by intros|]. intros h. apply impl_bind; [apply impl_call|by intros].
Qed.

Lemma impl_release ino fh caller :
  implements idle_frame (release fs ino fh caller : M W _) (sp_release fs ino fh caller).
Proof.
  eapply impl_ext; [|apply impl_try; [by apply impl_remove_file|intros record;
    apply impl_scope_node; [simpl; lia|intros; apply impl_ret|intros key n;
      apply impl_bind; [apply impl_remove_open|intros u;
        apply impl_bind; [apply impl_take_payload|intros handle; apply impl_call]]]]].
  intros Q s. unfold sp_release, sp_remove_file, wp_try, sp_find, sp_with_node, sp_scope_node, sp_node_at, mbind, wp_bind.
  destruct (s_files s !! fh) as [[node h]|]; [|done]. destruct (negb _); [done|].
  unfold mret, wp_ret. simpl. destruct (s_nodes s !! ino); [|done]. intros [? Hs]. split; [done|].
  exact (conj eq_refl Hs).
Qed.

Lemma impl_releasedir ino fh caller :
  implements idle_frame (releasedir fs ino fh caller : M W _) (sp_releasedir fs ino fh caller).
Proof.
  eapply impl_ext; [|apply impl_try; [by apply impl_remove_dir|intros record;
    apply impl_scope_node; [simpl; lia|intros; apply impl_ret|intros key n;
      apply impl_bind; [apply impl_remove_open|intros u;
        apply impl_bind; [apply impl_take_payload|intros handle; apply impl_call]]]]].
  intros Q s. unfold sp_releasedir, sp_remove_dir, wp_try, sp_find, sp_with_node, sp_scope_node, sp_node_at, mbind, wp_bind.
  destruct (s_dirs s !! fh) as [[node h]|]; [|done]. destruct (negb _); [done|].
  unfold mret, wp_ret. simpl. destruct (s_nodes s !! ino); [|done]. intros [? Hs]. split; [done|].
  exact (conj eq_refl Hs).
Qed.

Lemma impl_accounting inner f e :
  implements f (accounting_add inner e : M (World N H D S (K * list NodeId)) bool) (sp_accounting_add inner e).
Proof.
  unfold accounting_add, plus_entry, sp_accounting_add.
  apply impl_bind; [impl|]. intros [entry|?]; [|apply impl_ret].
  apply impl_bind; [apply impl_sink|]. intros accepted. impl.
Qed.

Lemma impl_with_accounting {A} f (m : M (World N H D S (K * list NodeId)) A) σ :
  implements f m σ → implements f (with_accounting m) (sp_with_accounting σ).
Proof.
  intros Hm Q w.
  destruct (Hm (λ a s', Q (a, (s_sink s').2) (put_sink (s_sink s').1 s')) (mkWorld (w_rt w) (w_sink w, [])))
    as (ops & ? & Hsh & Hq).
  exists ops. unfold with_accounting. split_and!; [done| |].
  - unfold sh_of in *. by destruct (m _) as [[]].
  - intros n issued Hinv Hn (s & Hs & HR).
    specialize (Hq n issued Hinv Hn).
    destruct (m (mkWorld (w_rt w) (w_sink w, []))) as [o w']. simpl in Hq |- *.
    assert (∃ a s', o = Returned a ∧ Q (a, (s_sink s').2) (put_sink (s_sink s').1 s') ∧ rel f s' w')
      as (a & s' & -> & HQ & HR').
    { assert (∃ s0 : RefState N H D S (K * list Z), σ (λ a s', Q (a, (s_sink s').2) (put_sink (s_sink s').1 s')) s0 ∧
        rel f s0 (mkWorld (w_rt w) (w_sink w, []))) as Hpre.
      { exists (put_sink (s_sink s, []) s). split; [exact Hs|]. destruct HR. split; simpl; try done. by rewrite r_sink0. }
      specialize (Hq Hpre). by destruct o. }
    exists (a, (s_sink s').2), (put_sink (s_sink s').1 s'). destruct HR'. rewrite r_sink0.
    split_and!; [done..|]. by split.
Qed.

Lemma impl_forget_all f ids : implements f (forget_all ids : M W unit) (sp_forget_all ids).
Proof.
  induction ids; simpl; [apply impl_ret|]. apply impl_bind; [by apply impl_forget|done].
Qed.

Lemma impl_readdirplus inner ino fh offset caller :
  implements idle_frame (readdirplus fs inner ino fh offset caller : M W _) (sp_readdirplus fs inner ino fh offset caller).
Proof.
  unfold readdirplus, sp_readdirplus, with_node, with_dir, sp_with_node, sp_with_dir, fail, sp_fail.
  apply impl_scope_node; [simpl; lia|intros; apply impl_ret|intros key n].
  apply impl_try; [apply impl_parent|intros parent].
  apply impl_scope_dir; [done|intros; apply impl_ret|intros h].
  apply impl_bind; [apply impl_with_accounting, impl_run, impl_accounting|].
  intros [[[]|e] ids]; [apply impl_ret|].
  apply impl_bind; [apply impl_forget_all|intros; apply impl_ret].
Qed.

Lemma impl_init conn : implements idle_frame (init fs conn : M W _) (sp_init fs conn).
Proof.
  intros Q. unfold init. eapply triple_bind with (R := λ (b : bool) n w, ∃ s,
    sp_call (fs_init fs (if b then (set_enabled conn ParallelDirectoryOperations true).2 else conn)) Q s ∧
    rel idle_frame s w).
  - apply triple_local; [done..|]. intros n w (s & Hs & HR). exists s. by rewrite (r_parallel _ _ _ HR).
  - intros b. apply impl_call.
Qed.

Lemma impl_handler (r : request K) :
  request_wf r → implements idle_frame (exec_request fs r : M W _) (sp_handler fs r).
Proof.
  intros Hwf. destruct r; unfold exec_request, sp_handler; apply impl_reply;
    unfold destroy, statfs, getattr, setattr, readlink, access, setxattr, getxattr, listxattr,
      removexattr, write, flush, fsync, fallocate, lseek, getlk, setlk, unlink, rmdir, rename, copy_file_range;
    try solve [apply impl_init | apply impl_call | by apply impl_forget | apply impl_on_node | apply impl_on_file
      | apply impl_release | apply impl_releasedir | apply impl_with_sink, impl_readdirplus].
  - unfold with_node, sp_with_node, fail, sp_fail. apply impl_scope_node; [simpl; lia|intros; apply impl_ret|].
    intros key n. apply impl_optional_file; [done|intros; apply impl_call].
  - unfold with_node, sp_with_node, fail, sp_fail. apply impl_scope_node; [simpl; lia|intros; apply impl_ret|].
    intros key n. apply impl_optional_file; [done|intros; apply impl_call].
  - unfold open, sp_open, with_node, sp_with_node, fail, sp_fail. impl.
  - eapply impl_ext; [|apply (impl_read _ _ _ _ _ mret mret); intros; apply impl_ret].
    intros Q s Hs. exact Hs.
  - unfold opendir, sp_opendir, with_node, sp_with_node, fail, sp_fail. impl.
  - apply impl_with_sink. unfold readdir, sp_readdir, with_node, with_dir, sp_with_node, sp_with_dir, fail, sp_fail. impl.
  - unfold fsyncdir, with_node, with_dir, sp_with_node, sp_with_dir, fail, sp_fail. impl.
  - unfold lookup, sp_lookup. apply impl_try; [apply impl_call|]. intros [id|]; [|apply impl_ret].
    apply impl_try; [apply impl_entry_for|intros; apply impl_ret].
  - apply impl_try; [apply impl_call|intros; apply impl_entry_for].
  - apply impl_try; [apply impl_call|intros; apply impl_entry_for].
  - apply impl_try; [apply impl_call|intros; apply impl_entry_for].
  - apply impl_try; [apply impl_call|intros; apply impl_entry_for].
  - unfold create, sp_create. apply impl_try; [apply impl_call|]. intros [id opened].
    apply impl_try; [apply impl_entry_for|intros entry]. impl.
Qed.

Lemma rel_reap (s : RefState N H D S K) (w : W) n issued :
  rel idle_frame s w → s_held s = [] → inv_but None n issued (sh_of w) → rel idle_frame (reap s) w.
Proof.
  intros [] Hheld Hinv. split; simpl; try done. eapply nodes_rel_reap; [done|exact Hinv|].
  apply map_empty. intros k. destruct (sh_refs (sh_of w) !! k) eqn:Hk; [|done].
  specialize (proj1 (r_refs0 k) (mk_is_Some _ _ Hk)). rewrite Hheld. simpl. intros [?%elem_of_nil|?%elem_of_nil]; done.
Qed.
End requests.

(** ** Served requests *)
Section served.
Context {N H D S K : Type} `{Libc} (fs : NodeFs N H D S) (s0 : S) (k0 : K).
Abbreviation W := (World N H D S K).
Abbreviation ref := (RefState N H D S K).

Definition ref_start : ref :=
  mkRef {[1 := mkRefNode (fs_root fs s0).1 0 1 0 0 ROOT]} (fs_root fs s0).2 [] ∅ ∅ 1 k0 false.

Lemma start_rel : rel idle_frame ref_start (mkWorld (Runtime_start fs s0) k0).
Proof.
  unfold Runtime_start, ref_start. destruct (fs_root fs s0) as [root s]. simpl.
  split; simpl; try done; try (by constructor).
  - split; unfold sh_of; simpl; intros i x; rewrite insert_empty, !lookup_singleton; case_decide; try done.
    by intros [= <-].
  - intros k. unfold sh_of. simpl. rewrite lookup_empty, !elem_of_nil. split; [by intros []|tauto].
  - by intros k ?%elem_of_nil.
  - lia.
Qed.

Lemma impl_request (r : request K) (Q : reply → ref → Prop) :
  request_wf r →
  triple False (λ n w, ∃ s, sp_request fs r Q s ∧ rel idle_frame s w) (exec_request fs r : M W reply)
    (λ o n w, ∃ rep s, o = Returned rep ∧ Q rep (reap s) ∧ s_held s = [] ∧ rel idle_frame s w).
Proof.
  intros Hwf. eapply triple_conseq;
    [apply (impl_handler fs r Hwf (λ rep s, s_held s = [] ∧ Q rep (reap s)))|done|].
  intros o n w (rep & s & -> & [? ?] & ?). by exists rep, s.
Qed.

(** One more request of a run. *)
Lemma request_refines (w w' : W) (r : request K) o ops (Q : reply → ref → Prop) :
  reached fs s0 w ops → request_wf r → exec_request fs r w = (o, w') →
  ∃ ops', reached fs s0 w' ops' ∧ (few_steps w' → few_steps w ∧
    ∀ s, rel idle_frame s w → sp_request fs r Q s →
    ∃ rep s', o = Returned rep ∧ Q rep s' ∧ rel idle_frame s' w').
Proof.
  intros Hat Hr Hexec.
  destruct (reached_triple fs s0 _ _ _ _ _ _ _ _ (impl_request r Q Hr) Hexec Hat) as (ops' & Hat' & Hq).
  exists ops'. split; [done|]. intros Hn. destruct (Hq Hn) as [Hn0 Hq']. split; [done|]. intros s HR Hs.
  destruct (reached_inv fs s0 w' ops' Hat' Hn) as [issued' Hinv'].
  specialize (Hq' (ex_intro _ s (conj Hs HR))).
  assert (∃ rep s, o = Returned rep ∧ Q rep (reap s) ∧ s_held s = [] ∧ rel idle_frame s w')
    as (rep & s' & -> & HQ & Hheld & HR') by (by destruct o).
  exists rep, (reap s'). split_and!; [done..|]. by eapply rel_reap.
Qed.

(** Runs of requests that each satisfy [A] when they are made. *)
Inductive served_by (A : request K → W → Prop) : list (request K * outcome reply) → W → Prop :=
| by_new w : Runtime_new fs s0 k0 = (Returned tt, w) → served_by A [] w
| by_request history w r o w' :
    served_by A history w → request_wf r → A r w → exec_request fs r w = (o, w') → o ≠ Blocked →
    served_by A ((r, o) :: history) w'.

Lemma served_by_serves A history w : served_by A history w → serves fs s0 k0 history w.
Proof. induction 1; [by constructor|by econstructor]. Qed.

(** What the reference keeps, the runtime keeps; and it answers. *)
Lemma reference_invariant (A : request K → W → Prop) (I : Z → ref → Prop) (max : Z) history w :
  sp_call (fs_populate fs) (λ _ s, I 0 s) ref_start →
  (∀ h r w s, 0 ≤ h < max → I h s → rel idle_frame s w → request_wf r → A r w → sp_request fs r (λ _ s', I (h + 1) s') s) →
  served_by A history w → Z.of_nat (length history) ≤ max → few_steps w →
  Forall (λ p, ∃ rep, p.2 = Returned rep) history ∧ ∃ s, I (Z.of_nat (length history)) s ∧ rel idle_frame s w.
Proof.
  intros Hstart Hstep Hserved Hmax. cut (∃ ops, reached fs s0 w ops ∧ (few_steps w →
    Forall (λ p, ∃ rep, p.2 = Returned rep) history ∧ ∃ s, I (Z.of_nat (length history)) s ∧ rel idle_frame s w)).
  { intros (ops & _ & Hq). exact Hq. }
  induction Hserved as [w Hnew|history w r o w' Hs IHs Hr HA Hexec Ho].
  - destruct (reached_triple fs s0 _ _ _ _ _ _ _ _ (impl_call idle_frame (fs_populate fs) (λ _ s, I 0 s)) Hnew
      (start_reached fs s0 k0)) as (ops & Hat & Hq).
    exists ops. split; [done|]. intros Hn. split; [done|].
    destruct (proj2 (Hq Hn)) as (a & s & _ & HI & HR); [|by exists s].
    exists ref_start. split; [done|apply start_rel].
  - simpl in Hmax. destruct (IHs ltac:(lia)) as (ops & Hat & IH).
    destruct (request_refines w w' r o ops (λ _ s', I (Z.of_nat (length history) + 1) s') Hat Hr Hexec) as (ops' & Hat' & Hq).
    exists ops'. split; [done|]. intros Hn. destruct (Hq Hn) as [Hn0 Hq'].
    destruct (IH Hn0) as (Hret & s & HI & HR). destruct (Hq' s HR) as (rep & s' & -> & HI' & HR').
    { eapply Hstep; [lia|done..]. }
    split; [constructor; [by eexists|done]|]. exists s'. split; [|done].
    by assert (Z.of_nat (length ((r, Returned rep : outcome reply) :: history)) = Z.of_nat (length history) + 1) as ->
      by (simpl; lia).
Qed.

(** C10: the runtime refines the reference, which knows neither leases nor
    record addresses nor an inode allocator: in any state that requests lead to
    and that is related to a state of the reference, a request on which the
    reference promises a postcondition returns, with a reply and a related
    state that satisfy it. *)
Theorem runtime_refines_reference history (w w' : W) (r : request K) o (Q : reply → ref → Prop) s :
  serves fs s0 k0 history w → request_wf r → exec_request fs r w = (o, w') → few_steps w' →
  rel idle_frame s w → sp_request fs r Q s →
  ∃ rep s', o = Returned rep ∧ Q rep s' ∧ rel idle_frame s' w'.
Proof.
  intros Hs Hr Hexec Hn HR HQ. destruct (serves_step fs s0 k0 history w Hs) as (L & ops & Hat & _).
  destruct (request_refines w w' r o ops Q Hat Hr Hexec) as (ops' & _ & Hq).
  by apply (proj2 (Hq Hn) s).
Qed.
End served.

(** ** What a related state shows of the world *)
Section worlds.
Context {N H D S K : Type} `{Libc}.
Abbreviation W := (World N H D S K).
Abbreviation ref := (RefState N H D S K).

(** The nodes in the runtime's table, and the nodes of the open handles. *)
Definition nodes_of (w : W) : gmap Z (RefNode N) := strip <$> tbl_map (sh_table (sh_of w)).
Definition file_at (w : W) : Z → option NodeId := λ fh, hr_node <$> files (rt_handles (w_rt w)) !! fh.
Definition dir_handle_at (w : W) : Z → option NodeId := λ fh, hr_node <$> dirs (rt_handles (w_rt w)) !! fh.

Lemma rel_nodes (s : ref) w : live (s_nodes s) → rel idle_frame s w → s_nodes s = nodes_of w.
Proof.
  intros Hs HR. destruct (r_nodes _ _ _ HR) as [Hn Hl]. apply map_eq. intros i. unfold nodes_of. rewrite lookup_fmap.
  destruct (tbl_map (sh_table (sh_of w)) !! i) as [x|] eqn:Hx; simpl; [by apply Hn|].
  destruct (s_nodes s !! i) as [v|] eqn:Hv; [|done].
  destruct (Hl i v Hv) as [y Hy]; [by eapply Hs|]. congruence.
Qed.

Lemma rel_files (s : ref) w fh : rel idle_frame s w → file_of s fh = file_at w fh.
Proof. intros HR. unfold file_of, file_at. rewrite (r_files _ _ _ HR). by destruct (s_files s !! fh). Qed.

Lemma rel_dirs (s : ref) w fh : rel idle_frame s w → dir_of s fh = dir_handle_at w fh.
Proof. intros HR. unfold dir_of, dir_handle_at. rewrite (r_dirs _ _ _ HR). by destruct (s_dirs s !! fh). Qed.
End worlds.
