(* ===== verification/MemoryFs.v ===== *)
(** * The in-memory filesystem ([fuse3/examples/memory_fs.rs])

    A full read-write filesystem written against [NodeFs]: the file trees,
    contents and attributes live in the nodes, each behind its own [RwLock].
    The nodes are shared objects with interior mutability, so the model keeps
    them in a heap and a node payload is a reference into it.  A guard's scope
    is one critical section on the heap; a panic inside a write guard poisons
    the lock, and every later access to that node panics. *)

From S2P Require Import Prelude Types Std NodeTable NodeFs.

(** ** Data *)
Record DirEntry := mkEntry { ent_id : NodeId; ent_kind : FileKind }.

Inductive Content :=
| Dir (entries : gmap string DirEntry)
| File (content : bytes)
| Sym (target : PathBuf)
| Special.

Record NodeData := mkNodeData {
  nd_kind : FileKind;
  nd_content : Content;
  nd_perm : Z;
  nd_uid : Z;
  nd_gid : Z;
  nd_rdev : Z;
  nd_nlink : Z;
  nd_atime : SystemTime;
  nd_mtime : SystemTime;
  nd_ctime : SystemTime;
  nd_crtime : SystemTime;
  nd_xattrs : gmap string bytes;
}.

(** [RwLock<NodeData>]: the data, and whether a writer panicked. *)
Record RwLock := mkRwLock { lock_poisoned : bool; lock_data : NodeData }.

(** [inner] is the address of the node's lock. *)
Record Node := mkNode { inner : Z }.

#[export] Instance DirEntry_eq_dec : EqDecision DirEntry.
Proof. solve_decision. Defined.
#[export] Instance Node_eq_dec : EqDecision Node.
Proof. solve_decision. Defined.

(** What the nodes' locks hold; [mem_tick] counts the readings of the clock. *)
Record Mem := mkMem { mem_heap : gmap Z RwLock; mem_next : Z; mem_tick : nat }.

Record MemoryFs := mkMemoryFs { fs_uid : Z; fs_gid : Z }.

(** Field updates. *)
Definition set_content c (d : NodeData) : NodeData := mkNodeData (nd_kind d) c (nd_perm d) (nd_uid d) (nd_gid d) (nd_rdev d) (nd_nlink d) (nd_atime d) (nd_mtime d) (nd_ctime d) (nd_crtime d) (nd_xattrs d).
Definition set_perm x (d : NodeData) : NodeData := mkNodeData (nd_kind d) (nd_content d) x (nd_uid d) (nd_gid d) (nd_rdev d) (nd_nlink d) (nd_atime d) (nd_mtime d) (nd_ctime d) (nd_crtime d) (nd_xattrs d).
Definition set_uid_ x (d : NodeData) : NodeData := mkNodeData (nd_kind d) (nd_content d) (nd_perm d) x (nd_gid d) (nd_rdev d) (nd_nlink d) (nd_atime d) (nd_mtime d) (nd_ctime d) (nd_crtime d) (nd_xattrs d).
Definition set_gid_ x (d : NodeData) : NodeData := mkNodeData (nd_kind d) (nd_content d) (nd_perm d) (nd_uid d) x (nd_rdev d) (nd_nlink d) (nd_atime d) (nd_mtime d) (nd_ctime d) (nd_crtime d) (nd_xattrs d).
Definition set_nlink x (d : NodeData) : NodeData := mkNodeData (nd_kind d) (nd_content d) (nd_perm d) (nd_uid d) (nd_gid d) (nd_rdev d) x (nd_atime d) (nd_mtime d) (nd_ctime d) (nd_crtime d) (nd_xattrs d).
Definition set_atime_ x (d : NodeData) : NodeData := mkNodeData (nd_kind d) (nd_content d) (nd_perm d) (nd_uid d) (nd_gid d) (nd_rdev d) (nd_nlink d) x (nd_mtime d) (nd_ctime d) (nd_crtime d) (nd_xattrs d).
Definition set_mtime_ x (d : NodeData) : NodeData := mkNodeData (nd_kind d) (nd_content d) (nd_perm d) (nd_uid d) (nd_gid d) (nd_rdev d) (nd_nlink d) (nd_atime d) x (nd_ctime d) (nd_crtime d) (nd_xattrs d).
Definition set_ctime_ x (d : NodeData) : NodeData := mkNodeData (nd_kind d) (nd_content d) (nd_perm d) (nd_uid d) (nd_gid d) (nd_rdev d) (nd_nlink d) (nd_atime d) (nd_mtime d) x (nd_crtime d) (nd_xattrs d).
Definition set_xattrs x (d : NodeData) : NodeData := mkNodeData (nd_kind d) (nd_content d) (nd_perm d) (nd_uid d) (nd_gid d) (nd_rdev d) (nd_nlink d) (nd_atime d) (nd_mtime d) (nd_ctime d) (nd_crtime d) x.

(** ** [impl NodeData] *)
Definition nd_size (d : NodeData) : Z :=
  match nd_content d with
  | File v => Z.of_nat (length v)
  | Sym s => Z.of_nat (String.length s)
  | _ => 0
  end.

Definition nd_attr (d : NodeData) : NodeAttr := {|
  attr_size := nd_size d; attr_blocks := 0;
  attr_atime := nd_atime d; attr_mtime := nd_mtime d; attr_ctime := nd_ctime d; attr_crtime := nd_crtime d;
  attr_kind := nd_kind d; attr_perm := nd_perm d; attr_nlink := nd_nlink d;
  attr_uid := nd_uid d; attr_gid := nd_gid d; attr_rdev := nd_rdev d; attr_blksize := 0; attr_flags := 0;
|}.

Definition touch (now : SystemTime) (d : NodeData) : NodeData := set_ctime_ now (set_mtime_ now d).

Section memory_fs.
Context `{Libc}.

(** The readings of the clock ([SystemTime::now]) in their order. *)
Variable clock : nat → SystemTime.

(** ** Critical sections *)
Definition now : M Mem SystemTime := λ s,
  (Returned (clock (mem_tick s)), mkMem (mem_heap s) (mem_next s) (S (mem_tick s))).

(** [Node::new]: the data behind a lock of its own. *)
Definition alloc_lock (d : NodeData) : M Mem Node := λ s,
  (Returned (mkNode (mem_next s)),
   mkMem (<[mem_next s := mkRwLock false d]> (mem_heap s)) (mem_next s + 1) (mem_tick s)).

Definition Node_new (kind : FileKind) (content : Content) (perm uid gid rdev : Z) : M Mem Node :=
  now ← now;
  let nlink := if decide (kind = Directory) then 2 else 1 in
  alloc_lock (mkNodeData kind content perm uid gid rdev nlink now now now now ∅).

(** [Node::read]: the data under a read guard. [unwrap] panics on poison. *)
Definition read (node : Node) : M Mem NodeData := λ s,
  match mem_heap s !! inner node with
  | Some l => if lock_poisoned l then (Panicked, s) else (Returned (lock_data l), s)
  | None => (Panicked, s)
  end.

(** The scope of a write guard ([Node::write]). *)
Definition set_lock (node : Node) (l : RwLock) (s : Mem) : Mem :=
  mkMem (<[inner node := l]> (mem_heap s)) (mem_next s) (mem_tick s).
Definition write {A} (node : Node) (body : NodeData → M Mem (A * NodeData)) : M Mem A := λ s,
  match mem_heap s !! inner node with
  | Some l =>
      if lock_poisoned l then (Panicked, s)
      else match body (lock_data l) s with
           | (Returned (a, d), s') => (Returned a, set_lock node (mkRwLock false d) s')
           | (Panicked, s') => (Panicked, set_lock node (mkRwLock true (lock_data l)) s')
           | (Blocked, s') => (Blocked, s')
           end
  | None => (Panicked, s)
  end.

Definition unwrap {A} (o : option A) : M Mem A :=
  match o with Some a => mret a | None => panic end.

(** ** Callbacks as programs *)
Section callbacks.
Context {E : Type}.
Abbreviation pr := (prog Node Mem E).

(** [if let Some(node) = cx.get(id) { let mut node = node.write(); .. }] *)
Definition update (id : NodeId) (f : NodeData → NodeData) : pr unit :=
  with_get id (λ node, atomically (write node (λ d, mret (tt, f d)))) (Done tt).

(** ** [impl MemoryFs] *)

Definition check_new_entry (parent : NodeId) (name : OsString) : pr (Result Errno unit) :=
  with_get parent
    (λ node,
      node ← atomically (read node);
      match nd_content node with
      | Dir entries => if decide (is_Some (entries !! name)) then Done (Err EEXIST) else Done (Ok tt)
      | _ => Done (Err ENOTDIR)
      end)
    (Done (Err ENOENT)).

Definition entry (parent : NodeId) (name : OsString) : pr (Result Errno DirEntry) :=
  with_get parent
    (λ node,
      node ← atomically (read node);
      match nd_content node with
      | Dir entries => Done (ok_or (entries !! name) ENOENT)
      | _ => Done (Err ENOTDIR)
      end)
    (Done (Err ENOENT)).

Definition kind (id : NodeId) : pr (Result Errno FileKind) :=
  with_get id (λ node, d ← atomically (read node); Done (Ok (nd_kind d))) (Done (Err ENOENT)).

Definition insert_entry (name : OsString) (e : DirEntry) (d : NodeData) : NodeData :=
  match nd_content d with
  | Dir entries => set_content (Dir (<[name := e]> entries)) d
  | _ => d
  end.
Definition remove_entry (name : OsString) (d : NodeData) : NodeData :=
  match nd_content d with
  | Dir entries => set_content (Dir (delete name entries)) d
  | _ => d
  end.

(** [nlink += 1] wraps in a release build. *)
Definition inc_nlink (d : NodeData) : NodeData := set_nlink (as_u32 (nd_nlink d + 1)) d.
Definition dec_nlink (d : NodeData) : NodeData := set_nlink (saturating_sub (nd_nlink d) 1) d.

Definition link_into (parent : NodeId) (name : OsString) (e : DirEntry) (now : SystemTime) : pr unit :=
  update parent (λ d,
    let d := insert_entry name e d in
    let d := if decide (ent_kind e = Directory) then inc_nlink d else d in
    touch now d).

Definition create_child (self : MemoryFs) (parent : NodeId) (name : OsString) (kind : FileKind)
    (content : Content) (perm rdev : Z) : pr (Result Errno NodeId) :=
  prog_try (check_new_entry parent name) (λ _,
    node ← atomically (Node_new kind content perm (fs_uid self) (fs_gid self) rdev);
    CxInsert node parent (λ id,
      now ← atomically now;
      link_into parent name (mkEntry id kind) now;;
      Done (Ok id))).

(** ** [impl NodeFs for MemoryFs] *)

Definition mem_getattr (node : Node) (h : option unit) (c : Caller) : pr (Result Errno NodeAttr) :=
  d ← atomically (read node); Done (Ok (nd_attr d)).

Definition mem_opendir (node : Node) (flags : Z) (c : Caller) : pr (Result Errno (Opened unit)) :=
  d ← atomically (read node);
  if decide (nd_kind d ≠ Directory) then Done (Err ENOTDIR) else Done (Ok (Opened_new tt)).

(** 0o7777 *)
Definition mode_bits (mode : Z) : Z := as_u16 (Z.land mode 4095).

Definition time_or_now (t : TimeOrNow) (now : SystemTime) : SystemTime :=
  match t with SpecificTime t => t | Now => now end.

Definition apply {A} (o : option A) (f : A → NodeData → NodeData) (p : NodeData * bool) : NodeData * bool :=
  match o with Some a => (f a p.1, true) | None => p end.

Definition mem_setattr (node : Node) (h : option unit) (set : SetAttr) (c : Caller) :
    pr (Result Errno NodeAttr) :=
  atomically (write node (λ node,
    now ← now;
    let st := (node, false) in
    let st := apply (set_mode set) (λ mode, set_perm (mode_bits mode)) st in
    let st := apply (set_uid set) set_uid_ st in
    let st := apply (set_gid set) set_gid_ st in
    st ← match set_size set with
         | Some size =>
             match nd_content st.1 with
             | File content =>
                 content ← unwrap (vec_resize content size);
                 mret (set_content (File content) st.1, true)
             | _ => mret (st.1, true)
             end
         | None => mret st
         end;
    let st := apply (set_atime set) (λ t, set_atime_ (time_or_now t now)) st in
    let st := apply (set_mtime set) (λ t, set_mtime_ (time_or_now t now)) st in
    let '(node, changed) := st in
    let node := match set_ctime set with
                | Some ctime => set_ctime_ ctime node
                | None => if (changed : bool) then set_ctime_ now node else node
                end in
    mret (Ok (nd_attr node), node))).

Definition mem_readlink (node : Node) (c : Caller) : pr (Result Errno PathBuf) :=
  d ← atomically (read node);
  match nd_content d with
  | Sym target => Done (Ok target)
  | _ => Done (Err EINVAL)
  end.

Definition mem_lookup (parent : NodeId) (name : OsString) (c : Caller) :
    pr (Result Errno (option NodeId)) :=
  r ← entry parent name;
  match r with
  | Ok e => Done (Ok (Some (ent_id e)))
  | Err e => if decide (e = ENOENT) then Done (Ok None) else Done (Err e)
  end.

Definition mem_mknod (self : MemoryFs) (parent : NodeId) (name : OsString) (mode rdev umask : Z)
    (c : Caller) : pr (Result Errno NodeId) :=
  let x := Z.land mode libc_S_IFMT in
  prog_try (Done (
    if x =? libc_S_IFREG then Ok (RegularFile, File [])
    else if x =? libc_S_IFIFO then Ok (NamedPipe, Special)
    else if x =? libc_S_IFSOCK then Ok (Socket, Special)
    else if x =? libc_S_IFCHR then Ok (CharDevice, Special)
    else if x =? libc_S_IFBLK then Ok (BlockDevice, Special)
    else Err EINVAL)) (λ '(kind, content),
  create_child self parent name kind content (mode_bits mode) rdev).

Definition mem_mkdir (self : MemoryFs) (parent : NodeId) (name : OsString) (mode umask : Z)
    (c : Caller) : pr (Result Errno NodeId) :=
  create_child self parent name Directory (Dir ∅) (mode_bits mode) 0.

Definition mem_symlink (self : MemoryFs) (parent : NodeId) (name : OsString) (target : PathBuf)
    (c : Caller) : pr (Result Errno NodeId) :=
  create_child self parent name Symlink (Sym target) 511 0.

Definition mem_create (self : MemoryFs) (parent : NodeId) (name : OsString) (mode umask flags : Z)
    (c : Caller) : pr (Result Errno (NodeId * Opened unit)) :=
  prog_try (create_child self parent name RegularFile (File []) (mode_bits mode) 0) (λ id,
  Done (Ok (id, Opened_new tt))).

Definition mem_unlink (parent : NodeId) (name : OsString) (c : Caller) : pr (Result Errno unit) :=
  prog_try (entry parent name) (λ e,
  let id := ent_id e in
  prog_try (kind id) (λ k,
  if decide (k = Directory) then Done (Err EISDIR)
  else
    now ← atomically now;
    update parent (λ d, touch now (remove_entry name d));;
    update id (λ d, set_ctime_ now (dec_nlink d));;
    CxRemoveLink id (Done (Ok tt)))).

Definition mem_rmdir (parent : NodeId) (name : OsString) (c : Caller) : pr (Result Errno unit) :=
  prog_try (entry parent name) (λ e,
  let id := ent_id e in
  with_get id
    (λ child,
      child ← atomically (read child);
      match nd_content child with
      | Dir entries =>
          if decide (entries = ∅) then
            now ← atomically now;
            update parent (λ d, touch now (dec_nlink (remove_entry name d)));;
            update id (λ d, set_ctime_ now (set_nlink 0 d));;
            CxRemoveLink id (Done (Ok tt))
          else Done (Err ENOTEMPTY)
      | _ => Done (Err ENOTDIR)
      end)
    (Done (Err ENOENT))).

(** The entry that a rename replaces must suit the one that is moved. [Ok true]
    stops the rename: both names lead to the same node. *)
Definition check_replaced (newparent : NodeId) (newname : OsString) (target : NodeId) (target_is_dir : bool) :
    pr (Result Errno bool) :=
  r ← entry newparent newname;
  match r with
  | Err e => if decide (e = ENOENT) then Done (Ok false) else Done (Err e)
  | Ok existing =>
      if decide (ent_id existing = target) then Done (Ok true)
      else with_get (ent_id existing)
        (λ existing_node,
          existing_node ← atomically (read existing_node);
          match nd_content existing_node with
          | Dir entries =>
              if negb target_is_dir then Done (Err EISDIR)
              else if decide (entries = ∅) then Done (Ok false) else Done (Err ENOTEMPTY)
          | _ => if target_is_dir then Done (Err ENOTDIR) else Done (Ok false)
          end)
        (Done (Err ENOENT))
  end.

(** The new name is recorded; [Ok] carries the entry it had before. *)
Definition replace_entry (newparent : NodeId) (newname : OsString) (e : DirEntry) :
    pr (Result Errno (option DirEntry)) :=
  with_get newparent
    (λ node, atomically (write node (λ d,
      match nd_content d with
      | Dir entries => mret (Ok (entries !! newname), insert_entry newname e d)
      | _ => mret (Err ENOTDIR, d)
      end)))
    (Done (Ok None)).

(** The node that lost its name. *)
Definition drop_replaced (newparent : NodeId) (replaced : DirEntry) (now : SystemTime) : pr unit :=
  (if decide (ent_kind replaced = Directory) then update newparent dec_nlink else Done tt);;
  update (ent_id replaced) (λ d,
    set_ctime_ now (if decide (ent_kind replaced = Directory) then set_nlink 0 d else dec_nlink d));;
  CxRemoveLink (ent_id replaced) (Done tt).

Definition mem_rename (parent : NodeId) (name : OsString) (newparent : NodeId) (newname : OsString)
    (flags : Z) (c : Caller) : pr (Result Errno unit) :=
  prog_try (entry parent name) (λ e,
  let target := ent_id e in
  prog_try (kind target) (λ target_kind,
  let target_is_dir := bool_decide (target_kind = Directory) in
  prog_try (check_replaced newparent newname target target_is_dir) (λ same,
  if (same : bool) then Done (Ok tt)
  else
    now ← atomically now;
    update parent (λ d, touch now (remove_entry name d));;
    prog_try (replace_entry newparent newname (mkEntry target target_kind)) (λ replaced,
    update newparent (touch now);;
    (if target_is_dir && negb (parent =? newparent) then
       CxReparent target newparent (
         update parent dec_nlink;;
         update newparent inc_nlink)
     else Done tt);;
    match replaced with
    | Some replaced => drop_replaced newparent replaced now
    | None => Done tt
    end;;
    Done (Ok tt))))).

Definition mem_link (id newparent : NodeId) (newname : OsString) (c : Caller) : pr (Result Errno NodeId) :=
  prog_try (kind id) (λ k,
  if decide (k = Directory) then Done (Err EPERM)
  else
    prog_try (check_new_entry newparent newname) (λ _,
    now ← atomically now;
    prog_try (kind id) (λ kind,
    link_into newparent newname (mkEntry id kind) now;;
    CxAddLink id (
      update id (λ d, set_ctime_ now (inc_nlink d));;
      Done (Ok id))))).

Definition mem_open (node : Node) (flags : Z) (c : Caller) : pr (Result Errno (Opened unit)) :=
  d ← atomically (read node);
  if decide (nd_kind d = Directory) then Done (Err EISDIR) else Done (Ok (Opened_new tt)).

(** [offset + size] and [offset + data.len()] wrap in a release build. *)
Definition read_content (content : bytes) (offset size : Z) : option bytes :=
  let offset := as_u64 offset in
  if Z.of_nat (length content) <=? offset then Some []
  else
    let stop := Z.min (as_u64 (offset + size)) (Z.of_nat (length content)) in
    slice content offset stop.

Definition mem_read (node : Node) (h : unit) (offset size : Z) (c : Caller) : pr (Result Errno bytes) :=
  atomically (
    node ← read node;
    match nd_content node with
    | File content => data ← unwrap (read_content content offset size); mret (Ok data)
    | _ => mret (Err EISDIR)
    end).

Definition write_content (content data : bytes) (offset : Z) : option bytes :=
  let offset := as_u64 offset in
  let stop := as_u64 (offset + Z.of_nat (length data)) in
  match (if Z.of_nat (length content) <? stop then vec_resize content stop else Some content) with
  | Some content => copy_from_slice content offset stop data
  | None => None
  end.

Definition mem_write (node : Node) (h : unit) (data : bytes) (offset : Z) (c : Caller) : pr (Result Errno Z) :=
  now ← atomically now;
  atomically (write node (λ d,
    match nd_content d with
    | File content =>
        content ← unwrap (write_content content data offset);
        mret (Ok (Z.of_nat (length data)), touch now (set_content (File content) d))
    | _ => mret (Err EISDIR, d)
    end)).

Definition mem_setxattr (node : Node) (name : OsString) (value : bytes) (flags : Z) (c : Caller) :
    pr (Result Errno unit) :=
  atomically (write node (λ d,
    let exists_ := bool_decide (is_Some (nd_xattrs d !! name)) in
    if negb (Z.land flags libc_XATTR_CREATE =? 0) && exists_ then mret (Err EEXIST, d)
    else if negb (Z.land flags libc_XATTR_REPLACE =? 0) && negb exists_ then mret (Err ENODATA, d)
    else
      let d := set_xattrs (<[name := value]> (nd_xattrs d)) d in
      now ← now;
      mret (Ok tt, set_ctime_ now d))).

Definition mem_getxattr (node : Node) (name : OsString) (size : Z) (c : Caller) :
    pr (Result Errno XattrReply) :=
  d ← atomically (read node);
  match nd_xattrs d !! name with
  | None => Done (Err ENODATA)
  | Some value =>
      if size =? 0 then Done (Ok (XattrSize (Z.of_nat (length value)))) else Done (Ok (XattrData value))
  end.

Definition xattr_names (xattrs : gmap string bytes) : bytes :=
  mjoin ((λ name, os_bytes name ++ [0]) <$> bt_keys xattrs).

Definition mem_listxattr (node : Node) (size : Z) (c : Caller) : pr (Result Errno XattrReply) :=
  d ← atomically (read node);
  let names := xattr_names (nd_xattrs d) in
  if size =? 0 then Done (Ok (XattrSize (Z.of_nat (length names)))) else Done (Ok (XattrData names)).

Definition mem_removexattr (node : Node) (name : OsString) (c : Caller) : pr (Result Errno unit) :=
  atomically (write node (λ d,
    match nd_xattrs d !! name with
    | None => mret (Err ENODATA, d)
    | Some _ =>
        let d := set_xattrs (delete name (nd_xattrs d)) d in
        now ← now;
        mret (Ok tt, set_ctime_ now d)
    end)).
End callbacks.

(** [readdir]: "." and "..", then the entries from the cursor on; the next
    offset of the entry at index [i] is [i + 3]. *)
Fixpoint emit_entries (l : list (string * DirEntry)) (i : Z) :
    prog Node Mem NodeFs.DirEntry (Result Errno unit) :=
  match l with
  | [] => Done (Ok tt)
  | (name, e) :: l =>
      Emit (mkDirEntry name (ent_id e) (ent_kind e) (as_u64 (i + 3))) (λ accepted,
        if (accepted : bool) then emit_entries l (i + 1) else Done (Ok tt))
  end.

Definition mem_readdir (node : Node) (this parent : NodeId) (dh : unit) (offset : Z) (c : Caller) :
    prog Node Mem NodeFs.DirEntry (Result Errno unit) :=
  node ← atomically (read node);
  match nd_content node with
  | Dir entries =>
      let from (cursor : Z) :=
        let skip := cursor - 2 in
        emit_entries (drop (Z.to_nat skip) (bt_iter entries)) skip in
      let dotdot (cursor : Z) :=
        if cursor <? 2
        then Emit (mkDirEntry ".." parent Directory 2) (λ accepted,
               if (accepted : bool) then from 2 else Done (Ok tt))
        else from cursor in
      if offset <? 1
      then Emit (mkDirEntry "." this Directory 1) (λ accepted,
             if (accepted : bool) then dotdot 1 else Done (Ok tt))
      else dotdot offset
  | _ => Done (Err ENOTDIR)
  end.

(** [root]: the state before holds no node. *)
Definition mem_root (self : MemoryFs) (s : Mem) : Node * Mem :=
  match Node_new Directory (Dir ∅) 493 (fs_uid self) (fs_gid self) 0 s with
  | (Returned n, s) => (n, s)
  | (_, s) => (mkNode (mem_next s), s)
  end.

Definition Mem_new : Mem := mkMem ∅ 0 0.

(** The callbacks that the source does not write are the trait's defaults. *)
Definition MemoryFs_NodeFs (self : MemoryFs) : NodeFs Node unit unit Mem := {|
  SUPPORTS_POSIX_LOCKS := false;
  SUPPORTS_READDIRPLUS := false;
  fs_root := mem_root self;
  fs_populate := default_populate;
  fs_init := default_init;
  fs_destroy := default_destroy;
  fs_getattr := mem_getattr;
  fs_setattr := mem_setattr;
  fs_lookup := mem_lookup;
  fs_readlink := mem_readlink;
  fs_mknod := mem_mknod self;
  fs_mkdir := mem_mkdir self;
  fs_symlink := mem_symlink self;
  fs_unlink := mem_unlink;
  fs_rmdir := mem_rmdir;
  fs_rename := mem_rename;
  fs_link := mem_link;
  fs_open := mem_open;
  fs_read := mem_read;
  fs_write := mem_write;
  fs_flush := default_flush;
  fs_release := default_release;
  fs_fsync := default_fsync;
  fs_opendir := mem_opendir;
  fs_readdir := mem_readdir;
  fs_readdirplus := default_readdirplus;
  fs_releasedir := default_releasedir;
  fs_fsyncdir := default_fsyncdir;
  fs_statfs := default_statfs;
  fs_setxattr := mem_setxattr;
  fs_getxattr := mem_getxattr;
  fs_listxattr := mem_listxattr;
  fs_removexattr := mem_removexattr;
  fs_access := default_access;
  fs_create := mem_create self;
  fs_fallocate := default_fallocate;
  fs_lseek := default_lseek;
  fs_getlk := default_getlk;
  fs_setlk := default_setlk;
  fs_copy_file_range := default_copy_file_range;
|}.
End memory_fs.
