(* ===== verification/MemoryInv.v ===== *)
(** * Invariants of the in-memory filesystem's data

    What holds of the nodes' data whatever is requested ([memory_typed]), and
    the invariant of the tree of names with the steps that the callbacks are
    made of: recording and removing a name, counting links, making a node. *)

From stdpp Require Import sorting.
From S2P Require Import Prelude Types Std NodeTable HandleRec NodeFs Runtime RuntimeInv RuntimeSpec Requests FsInv.
From S2P Require Import MemoryFs.

(** ** Types *)

(** The content a node has is the one its kind calls for. *)
Definition kind_matches (kind : FileKind) (content : Content) : Prop :=
  match kind, content with
  | Directory, Dir _ | RegularFile, File _ | Symlink, Sym _
  | NamedPipe, Special | Socket, Special | CharDevice, Special | BlockDevice, Special => True
  | _, _ => False
  end.

Definition content_fits (content : Content) : Prop :=
  match content with File v => Z.of_nat (length v) ≤ i64_max | _ => True end.

Definition data_typed (d : NodeData) : Prop :=
  kind_matches (nd_kind d) (nd_content d) ∧ content_fits (nd_content d) ∧
  0 ≤ nd_perm d ≤ 4095 ∧ is_u32 (nd_nlink d).

Definition mem_typed (m : Mem) : Prop := ∀ a l, mem_heap m !! a = Some l → data_typed (lock_data l).

Section types.
Context `{Libc} (clock : nat → SystemTime) (self : MemoryFs).

Lemma mode_bits_bound mode : 0 ≤ mode_bits mode ≤ 4095.
Proof.
  unfold mode_bits, as_u16, as_unsigned.
  assert (Z.land mode 4095 = mode `mod` 4096) as -> by (apply (Z.land_ones mode 12); lia).
  pose proof (Z.mod_pos_bound mode 4096 ltac:(lia)). rewrite Z.mod_small; int_lia.
Qed.

(** Critical sections keep the types. *)
Definition sec_keeps {A} (m : M Mem A) : Prop := ∀ s, mem_typed s → mem_typed (m s).2.

Lemma keeps_atomically {E A} (m : M Mem A) : sec_keeps m → keeps mem_typed (atomically m : prog Node Mem E A).
Proof. intros Hm s b s' Hs. specialize (Hm s Hs). destruct (m s) as [[a| |] s1]; intros; simplify_eq/=; done. Qed.

Lemma sec_now : sec_keeps (now clock).
Proof. by intros s. Qed.

Lemma sec_read node : sec_keeps (read node).
Proof. intros s Hs. unfold read. by repeat case_match. Qed.

Lemma sec_bind {A B} (m : M Mem A) (k : A → M Mem B) :
  sec_keeps m → (∀ a, sec_keeps (k a)) → sec_keeps (m ≫= k).
Proof.
  intros Hm Hk s Hs. unfold mbind, M_bind. specialize (Hm s Hs). destruct (m s) as [[a| |] s']; [|done..].
  by apply Hk.
Qed.
Lemma sec_ret {A} (a : A) : sec_keeps (mret a).
Proof. by intros s. Qed.
Lemma sec_unwrap {A} (o : option A) : sec_keeps (unwrap o).
Proof. intros s. by destruct o. Qed.

Lemma mem_typed_lock node l s : data_typed (lock_data l) → mem_typed s → mem_typed (set_lock node l s).
Proof.
  intros Hl Hs a l' Ha. unfold set_lock in Ha. simpl in Ha. rewrite lookup_insert in Ha.
  case_decide; [by simplify_eq|by eapply Hs].
Qed.

(** A write guard: what it leaves in the node is typed if it found it so. *)
Lemma sec_write {A} node (body : NodeData → M Mem (A * NodeData)) :
  (∀ d, data_typed d → ∀ s, mem_typed s →
     mem_typed (body d s).2 ∧ ∀ a d', (body d s).1 = Returned (a, d') → data_typed d') →
  sec_keeps (write node body).
Proof.
  intros Hb s Hs. unfold write. destruct (mem_heap s !! inner node) as [l|] eqn:Hl; [|done].
  destruct (lock_poisoned l); [done|]. pose proof (Hs _ _ Hl) as Hd.
  destruct (Hb _ Hd s Hs) as [Hs' Hd']. destruct (body _ s) as [[[a d']| |] s']; simpl in *; [| |done].
  - apply mem_typed_lock; [|done]. by eapply Hd'.
  - by apply mem_typed_lock.
Qed.

Lemma sec_update node f : (∀ d, data_typed d → data_typed (f d)) → sec_keeps (write node (λ d, mret (tt, f d))).
Proof. intros Hf. apply sec_write. intros d Hd s Hs. split; [done|]. intros a d' [= _ <-]. auto. Qed.

Lemma sec_new kind content perm uid gid rdev :
  kind_matches kind content → content_fits content → 0 ≤ perm ≤ 4095 →
  sec_keeps (Node_new clock kind content perm uid gid rdev).
Proof.
  intros Hk Hc Hp. unfold Node_new. apply sec_bind; [apply sec_now|]. intros t s Hs a l.
  unfold alloc_lock. simpl. rewrite lookup_insert. case_decide; [|apply Hs].
  intros [= <-]. unfold data_typed. simpl. split_and!; try done; try lia. by case_decide.
Qed.

(** *** Programs *)
Section programs.
Context {E : Type}.
Abbreviation pr := (prog Node Mem E).

Lemma keeps_drop_finally {A} (p : pr A) key :
  keeps mem_typed p → keeps mem_typed (prog_finally p (λ B, CxDropRef key)).
Proof. by apply keeps_finally. Qed.

Lemma keeps_with_get {A} id (some : Node → pr A) none :
  (∀ n, keeps mem_typed (some n)) → keeps mem_typed none → keeps mem_typed (with_get id some none).
Proof. intros Hs Hn. split; [|done]. intros [l|]; [by apply keeps_drop_finally|done]. Qed.

Lemma keeps_update id f : (∀ d, data_typed d → data_typed (f d)) → keeps mem_typed (update id f : pr unit).
Proof. intros Hf. apply keeps_with_get; [|done]. intros n. apply keeps_atomically. by apply sec_update. Qed.

Lemma typed_nlink n d : is_u32 n → data_typed d → data_typed (set_nlink n d).
Proof. unfold data_typed. simpl. tauto. Qed.
Lemma typed_inc d : data_typed d → data_typed (inc_nlink d).
Proof. apply typed_nlink. int_lia. Qed.
Lemma typed_dec d : data_typed d → data_typed (dec_nlink d).
Proof. intros Hd. apply typed_nlink; [|done]. destruct Hd as (_ & _ & _ & ?). int_lia. Qed.
Lemma typed_insert name e d : data_typed d → data_typed (insert_entry name e d).
Proof. unfold insert_entry. destruct (nd_content d) eqn:Hc; [|done..]. unfold data_typed. rewrite Hc. simpl. destruct (nd_kind d); tauto. Qed.
Lemma typed_remove name d : data_typed d → data_typed (remove_entry name d).
Proof. unfold remove_entry. destruct (nd_content d) eqn:Hc; [|done..]. unfold data_typed. rewrite Hc. simpl. destruct (nd_kind d); tauto. Qed.
Lemma typed_zero d : data_typed d → data_typed (set_nlink 0 d).
Proof. by apply typed_nlink. Qed.
Lemma typed_touch t d : data_typed d → data_typed (touch t d).
Proof. done. Qed.
Lemma typed_ctime t d : data_typed d → data_typed (set_ctime_ t d).
Proof. done. Qed.
End programs.

(** The callbacks, one by one. *)
Create HintDb typed discriminated.
#[local] Hint Resolve typed_inc typed_dec typed_insert typed_remove typed_zero typed_touch typed_ctime : typed.

Lemma keeps_replace_entry {E} newparent newname e :
  keeps mem_typed (replace_entry newparent newname e : prog Node Mem E _).
Proof.
  apply keeps_with_get; [|done]. intros n. apply keeps_atomically, sec_write. intros d Hd s Hs.
  destruct (nd_content d) eqn:Hc; (split; [done|]); intros a d' [= _ <-]; [|done..]. by apply typed_insert.
Qed.

Local Ltac kept :=
  repeat (intros;
    first
    [ exact I | done
    | apply keeps_update; intros; eauto with typed | apply keeps_replace_entry | apply keeps_with_get
    | apply keeps_atomically; first [apply sec_now | apply sec_read]
    | apply keeps_try | apply keeps_bind
    | match goal with |- keeps _ (CxAddLink _ _) => split; [|exact I] end
    | match goal with |- keeps _ (if ?b then _ else _) => destruct b end
    | match goal with |- keeps _ (match ?x with _ => _ end) => destruct x end ]).

Lemma keeps_link_into {E} parent name e t : keeps mem_typed (link_into parent name e t : prog Node Mem E unit).
Proof.
  apply keeps_update. intros d Hd. simpl. case_decide; eauto with typed.
Qed.

Lemma keeps_create_child {E} parent name kind content perm rdev :
  kind_matches kind content → content_fits content → 0 ≤ perm ≤ 4095 →
  keeps mem_typed (create_child clock self parent name kind content perm rdev : prog Node Mem E _).
Proof.
  intros Hk Hc Hp. unfold create_child, check_new_entry. apply keeps_try; [kept|intros _].
  apply keeps_bind; [by apply keeps_atomically, sec_new|intros node id].
  apply keeps_bind; [kept|intros t]. apply keeps_bind; [apply keeps_link_into|done].
Qed.
Lemma typed_apply {A} (o : option A) f p :
  (∀ a d, data_typed d → data_typed (f a d)) → data_typed p.1 → data_typed (apply o f p).1.
Proof. intros Hf Hp. destruct o; [by apply Hf|done]. Qed.

Lemma typed_perm mode d : data_typed d → data_typed (set_perm (mode_bits mode) d).
Proof. pose proof (mode_bits_bound mode). unfold data_typed. simpl. tauto. Qed.

Lemma typed_content v d : nd_kind d = RegularFile → Z.of_nat (length v) ≤ i64_max → data_typed d →
  data_typed (set_content (File v) d).
Proof. unfold data_typed. simpl. intros -> ? (_ & _ & ?). done. Qed.

Lemma typed_file d v : data_typed d → nd_content d = File v → nd_kind d = RegularFile.
Proof. intros (Hk & _) Hc. rewrite Hc in Hk. by destruct (nd_kind d). Qed.

Lemma vec_resize_fits v n v' : vec_resize v n = Some v' → Z.of_nat (length v') ≤ i64_max.
Proof.
  unfold vec_resize. destruct (Z.ltb_spec i64_max n); [done|]. intros [= <-]. rewrite length_resize. int_lia.
Qed.

Lemma write_content_fits v data offset v' :
  Z.of_nat (length v) ≤ i64_max → write_content v data offset = Some v' → Z.of_nat (length v') ≤ i64_max.
Proof.
  intros Hv. unfold write_content.
  assert (∀ u stop start, 0 ≤ start → Z.of_nat (length u) ≤ i64_max → copy_from_slice u start stop data = Some v' →
    Z.of_nat (length v') ≤ i64_max) as Hcopy.
  { intros u stop start Hpos Hu. unfold copy_from_slice, slice.
    destruct (_ && _) eqn:Hb; [|done]. apply andb_true_iff in Hb as [Hle Hlen].
    destruct (Nat.eqb_spec (length (take (Z.to_nat (stop - start)) (drop (Z.to_nat start) u))) (length data)) as [Heq|]; [|done].
    rewrite length_take, length_drop in Heq. intros [= <-].
    rewrite !length_app, length_take, length_drop. apply Z.leb_le in Hle, Hlen. lia. }
  destruct (Z.ltb_spec (Z.of_nat (length v)) (as_u64 (as_u64 offset + Z.of_nat (length data)))).
  - destruct (vec_resize v _) as [u|] eqn:Hu; [|done]. apply Hcopy; [apply as_u64_bound|by eapply vec_resize_fits].
  - by apply Hcopy; [apply as_u64_bound|].
Qed.

(** The decoded fields, in the order of the source. *)
Lemma keeps_setattr {E} node h set c : keeps mem_typed (mem_setattr clock node h set c : prog Node Mem E _).
Proof.
  apply keeps_atomically, sec_write. intros d Hd s Hs. unfold mbind, M_bind, now, mret, M_ret. simpl.
  set (t := clock (mem_tick s)).
  set (st := apply (set_gid set) set_gid_ (apply (set_uid set) set_uid_
    (apply (set_mode set) (λ mode, set_perm (mode_bits mode)) (d, false)))).
  assert (data_typed st.1) as Hst.
  { unfold st. repeat apply typed_apply; try done. intros a x. apply typed_perm. }
  assert (∀ st', data_typed st'.1 → data_typed
    (let '(node, changed) := apply (set_mtime set) (λ x, set_mtime_ (time_or_now x t))
       (apply (set_atime set) (λ x, set_atime_ (time_or_now x t)) st') in
     match set_ctime set with Some ctime => set_ctime_ ctime node | None => if changed then set_ctime_ t node else node end)) as Hfin.
  { intros st' Hst'.
    assert (data_typed (apply (set_mtime set) (λ x, set_mtime_ (time_or_now x t))
       (apply (set_atime set) (λ x, set_atime_ (time_or_now x t)) st')).1) as Hx by (by repeat apply typed_apply).
    destruct (apply (set_mtime set) _ _) as [x changed]. simpl in Hx. destruct (set_ctime set); [done|]. by destruct changed. }
  destruct (set_size set) as [size|]; cycle 1.
  { specialize (Hfin st Hst). destruct (apply (set_mtime set) _ _). simpl. split; [done|]. by intros a d' [= _ <-]. }
  destruct (nd_content st.1) eqn:Hc; simpl;
    try (specialize (Hfin (st.1, true) Hst); destruct (apply (set_mtime set) _ _); simpl; split; [done|]; by intros a d' [= _ <-]).
  unfold unwrap. destruct (vec_resize content size) as [v|] eqn:Hv; [|done]. simpl.
  specialize (Hfin (set_content (File v) st.1, true)). destruct (apply (set_mtime set) _ _). simpl. split; [done|].
  intros a d' [= _ <-]. apply Hfin. apply typed_content; [by eapply typed_file|by eapply vec_resize_fits|done].
Qed.

Lemma sec_write_file node data offset t : sec_keeps (write node (λ d,
  match nd_content d with
  | File content =>
      content ← unwrap (write_content content data offset);
      mret (Ok (Z.of_nat (length data)), touch t (set_content (File content) d))
  | _ => mret (Err EISDIR, d)
  end)).
Proof.
  apply sec_write. intros d Hd s Hs. unfold mbind, M_bind, mret, M_ret.
  destruct (nd_content d) eqn:Hc; simpl; try (split; [done|]; by intros a d' [= _ <-]).
  unfold unwrap. destruct (write_content content data offset) as [v|] eqn:Hv; [|done]. simpl. split; [done|].
  intros a d' [= _ <-]. apply typed_touch, typed_content; [by eapply typed_file| |done].
  eapply write_content_fits; [|done]. destruct Hd as (_ & Hf & _). by rewrite Hc in Hf.
Qed.

Lemma keeps_write {E} node h data offset c : keeps mem_typed (mem_write clock node h data offset c : prog Node Mem E _).
Proof.
  apply keeps_bind; [apply keeps_atomically, sec_now|]. intros t. by apply keeps_atomically, sec_write_file.
Qed.

Lemma typed_xattrs x d : data_typed d → data_typed (set_xattrs x d).
Proof. done. Qed.

Lemma keeps_setxattr {E} node name value flags c :
  keeps mem_typed (mem_setxattr clock node name value flags c : prog Node Mem E _).
Proof.
  apply keeps_atomically, sec_write. intros d Hd s Hs. cbv zeta.
  destruct (negb (Z.land flags libc_XATTR_CREATE =? 0) && _); [split; [done|]; by intros a d' [= _ <-]|].
  destruct (_ && _); (split; [done|]; by intros a d' [= _ <-]).
Qed.
Lemma keeps_removexattr {E} node name c :
  keeps mem_typed (mem_removexattr clock node name c : prog Node Mem E _).
Proof.
  apply keeps_atomically, sec_write. intros d Hd s Hs. destruct (nd_xattrs d !! name); (split; [done|]; by intros a d' [= _ <-]).
Qed.

Lemma keeps_mem_rename {E} parent name newparent newname flags c :
  keeps mem_typed (mem_rename clock parent name newparent newname flags c : prog Node Mem E _).
Proof.
  unfold mem_rename, entry, kind, check_replaced, drop_replaced. kept. case_decide; eauto with typed.
Qed.

Lemma keeps_readdir node this parent dh offset c :
  keeps mem_typed (mem_readdir node this parent dh offset c).
Proof.
  assert (∀ l i, keeps mem_typed (emit_entries l i)) as Hl.
  { induction l as [|[name e] l IH]; intros i; simpl; [done|]. split; [|done]. intros []; [apply IH|done]. }
  unfold mem_readdir. apply keeps_bind; [apply keeps_atomically, sec_read|]. intros d.
  destruct (nd_content d); [|done..].
  assert (∀ cursor, keeps mem_typed (if cursor <? 2
    then Emit (mkDirEntry ".." parent Directory 2) (λ accepted : bool,
      if accepted then emit_entries (drop (Z.to_nat (2 - 2)) (bt_iter entries)) (2 - 2) else Done (Ok tt))
    else emit_entries (drop (Z.to_nat (cursor - 2)) (bt_iter entries)) (cursor - 2))) as Hd.
  { intros cursor. destruct (_ <? _); [|apply Hl]. split; [|done]. intros []; [apply Hl|done]. }
  destruct (_ <? _); [|apply Hd]. split; [|done]. intros []; [apply Hd|done].
Qed.

Lemma memory_fs_keeps : fs_keeps mem_typed (MemoryFs_NodeFs clock self).
Proof.
  split; intros; cbn [fs_root fs_populate fs_init fs_destroy fs_getattr fs_setattr fs_lookup fs_readlink fs_mknod fs_mkdir fs_symlink fs_unlink fs_rmdir fs_rename fs_link fs_open fs_read fs_write fs_flush fs_release fs_fsync fs_opendir fs_readdir fs_readdirplus fs_releasedir fs_fsyncdir fs_statfs fs_setxattr fs_getxattr fs_listxattr fs_removexattr fs_access fs_create fs_fallocate fs_lseek fs_getlk fs_setlk fs_copy_file_range MemoryFs_NodeFs];
    try solve [done | apply keeps_setattr | apply keeps_write | apply keeps_setxattr | apply keeps_removexattr
      | apply keeps_mem_rename | apply keeps_readdir];
    unfold mem_getattr, mem_lookup, mem_readlink, mem_unlink, mem_rmdir, mem_link, mem_open, mem_read, mem_opendir,
      mem_getxattr, mem_listxattr, mem_create, mem_mkdir, mem_symlink.
  all: try solve [unfold entry, kind, check_new_entry; kept].
  - unfold mem_mknod. cbv zeta. pose proof (mode_bits_bound x2).
    repeat case_match; simpl; try done; by apply keeps_create_child.
  - apply keeps_create_child; [done..|apply mode_bits_bound].
  - by apply keeps_create_child.
  - apply keeps_atomically, sec_bind; [apply sec_read|]. intros d. destruct (nd_content d); try apply sec_ret.
    apply sec_bind; [apply sec_unwrap|]. intros v. apply sec_ret.
  - apply keeps_try; [apply keeps_create_child; [done..|apply mode_bits_bound]|done].
Qed.

Lemma memory_link_keeps x0 x1 x2 x3 : keeps mem_typed (fs_link (MemoryFs_NodeFs clock self) x0 x1 x2 x3).
Proof.
  cbn [fs_link MemoryFs_NodeFs]. unfold mem_link, kind, check_new_entry.
  kept; unfold link_into; kept; try case_decide; eauto with typed.
Qed.

Lemma mem_new_typed : mem_typed (fs_root (MemoryFs_NodeFs clock self) Mem_new).2.
Proof. intros a l. simpl. rewrite lookup_insert. case_decide; [|by rewrite lookup_empty]. by intros [= <-]. Qed.

(** The in-memory filesystem is well typed: whatever is requested, of
    whichever nodes and handles, and even after panics, every node's content is
    of the form its kind calls for, no file is longer than [isize::MAX], the
    permissions are twelve bits and the link count fits its field. *)
Theorem memory_well_typed {K} (k0 : K) history w :
  serves (MemoryFs_NodeFs clock self) Mem_new k0 history w → mem_typed (rt_fs (w_rt w)).
Proof.
  intros Hs. eapply (serves_holds mem_typed _ memory_fs_keeps _ k0 history w Hs).
  - apply mem_new_typed.
  - left. apply memory_link_keeps.
Qed.
End types.
