(* ===== verification/MemoryTree.v ===== *)
(** * The tree of the in-memory filesystem

    The invariant that ties the directory entries to the nodes of the runtime:
    names lead to nodes of the recorded kind, the runtime's link counts are the
    numbers of names, the [nlink] attributes follow them, and a directory knows
    its parent.  The callbacks break it on the way, so it carries two
    discrepancies: [δ], of the link counts, and [ε], of the [nlink]s. *)

From stdpp Require Import sorting.
From S2P Require Import Prelude Types Std NodeTable NodeFs Reference MemoryFs MemoryInv.

Definition dir_entries (d : NodeData) : gmap string DirEntry :=
  match nd_content d with Dir es => es | _ => ∅ end.

(** The names that lead to a node, in the directories that were ever made. *)
Definition count_to (i : NodeId) (d : NodeData) : Z := count_map (λ e, ent_id e = i) (dir_entries d).
Definition refs (i : NodeId) (m : Mem) : Z := sum_map (λ l, count_to i (lock_data l)) (mem_heap m).
Definition subdirs (d : NodeData) : Z := count_map (λ e, ent_kind e = Directory) (dir_entries d).
Definition names (m : Mem) : Z := sum_map (λ l, Z.of_nat (size (dir_entries (lock_data l)))) (mem_heap m).
Definition root_ref (i : NodeId) : Z := if decide (i = ROOT) then 1 else 0.

Abbreviation nodes := (gmap Z (RefNode Node)).

Definition data_at (V : nodes) (m : Mem) (i : NodeId) : option NodeData :=
  v ← V !! i; lock_data <$> mem_heap m !! inner (v_payload v).

(** A directory counts itself, its name, and the ".." of each subdirectory. *)
Definition expected_nlink (v : RefNode Node) (d : NodeData) : Z :=
  if decide (nd_kind d = Directory) then (if decide (0 < v_links v) then 2 else 0) + subdirs d else v_links v.

Record tree_ok (δ ε : Z → Z) (V : nodes) (m : Mem) : Prop := {
  t_cell : ∀ i v, V !! i = Some v → ∃ d, mem_heap m !! inner (v_payload v) = Some (mkRwLock false d);
  t_heap : ∀ a l, mem_heap m !! a = Some l → a < mem_next m ∧ lock_poisoned l = false ∧ data_typed (lock_data l);
  t_inj : ∀ i j v v', V !! i = Some v → V !! j = Some v' → inner (v_payload v) = inner (v_payload v') → i = j;
  t_entry : ∀ a l name e, mem_heap m !! a = Some l → dir_entries (lock_data l) !! name = Some e →
    ∃ d, data_at V m (ent_id e) = Some d ∧ nd_kind d = ent_kind e;
  t_links : ∀ i v, V !! i = Some v → v_links v = refs i m + root_ref i + δ i;
  t_nlink : ∀ i v d, V !! i = Some v → data_at V m i = Some d → nd_nlink d = expected_nlink v d + ε i;
  t_dir : ∀ i d, data_at V m i = Some d → nd_kind d = Directory → refs i m + root_ref i ≤ 1;
  t_parent : ∀ i d name e, data_at V m i = Some d → dir_entries d !! name = Some e → ent_kind e = Directory →
    ∃ v, V !! ent_id e = Some v ∧ v_parent v = i;
  t_root : ∃ d, data_at V m ROOT = Some d ∧ nd_kind d = Directory;
}.

Definition none : Z → Z := λ _, 0.
Definition bump_at (i k : Z) (δ : Z → Z) : Z → Z := λ j, if decide (j = i) then δ j + k else δ j.

Lemma tree_ok_ext δ δ' ε ε' V m :
  (∀ i, is_Some (V !! i) → δ i = δ' i) → (∀ i, is_Some (V !! i) → ε i = ε' i) → tree_ok δ ε V m → tree_ok δ' ε' V m.
Proof.
  intros Hδ Hε []. split; try done.
  - intros i v Hv. rewrite <- Hδ by done. auto.
  - intros i v d Hv Hd. rewrite <- Hε by done. auto.
Qed.

Section facts.
Context (δ ε : Z → Z) (V : nodes) (m : Mem) (Hok : tree_ok δ ε V m).

Lemma data_at_Some i d :
  data_at V m i = Some d ↔ ∃ v, V !! i = Some v ∧ mem_heap m !! inner (v_payload v) = Some (mkRwLock false d).
Proof.
  unfold data_at. rewrite bind_Some. split.
  - intros (v & Hv & Hd). exists v. split; [done|]. apply fmap_Some in Hd as (l & Hl & ->).
    destruct (t_heap _ _ _ _ Hok _ _ Hl) as (_ & Hp & _). destruct l; simpl in *. by rewrite Hl, Hp.
  - intros (v & Hv & Hd). exists v. by rewrite Hd.
Qed.

Lemma data_at_live i v : V !! i = Some v → ∃ d, data_at V m i = Some d.
Proof.
  intros Hv. destruct (t_cell _ _ _ _ Hok i v Hv) as [d Hd]. exists d. apply data_at_Some. by exists v.
Qed.

Lemma data_at_typed i d : data_at V m i = Some d → data_typed d.
Proof. intros (v & _ & Hl)%data_at_Some. by destruct (t_heap _ _ _ _ Hok _ _ Hl) as (_ & _ & ?). Qed.

Lemma count_to_nonneg i d : 0 ≤ count_to i d.
Proof. apply count_map_nonneg. Qed.

Lemma refs_ge i a l : mem_heap m !! a = Some l → count_to i (lock_data l) ≤ refs i m.
Proof. intros Hl. apply (sum_map_ge (λ l, count_to i (lock_data l)) (mem_heap m) a l); [intros; apply count_to_nonneg|done]. Qed.

Lemma refs_nonneg i : 0 ≤ refs i m.
Proof. apply sum_map_nonneg. intros. apply count_to_nonneg. Qed.

(** A node that is named has names to it. *)
Lemma refs_pos a l name e :
  mem_heap m !! a = Some l → dir_entries (lock_data l) !! name = Some e → 1 ≤ refs (ent_id e) m.
Proof.
  intros Hl He. pose proof (refs_ge (ent_id e) a l Hl). unfold count_to in *.
  pose proof (count_map_pos (λ e', ent_id e' = ent_id e) (dir_entries (lock_data l)) name e He eq_refl). lia.
Qed.

Lemma refs_absent i : V !! i = None → refs i m = 0.
Proof.
  intros Hi. unfold refs.
  assert (∀ h : gmap Z RwLock, h ⊆ mem_heap m → sum_map (λ l, count_to i (lock_data l)) h = 0) as Hsum; [|by apply Hsum].
  intros h. induction h as [|a l h Ha IH] using map_ind; intros Hh; [by rewrite sum_map_empty|].
  rewrite sum_map_insert by done. rewrite IH by (etrans; [by apply insert_subseteq|done]).
  unfold count_to. rewrite count_map_zero; [done|]. intros name e He Hid.
  assert (mem_heap m !! a = Some l) as Hl by (eapply lookup_weaken; [apply lookup_insert_eq|done]).
  destruct (t_entry _ _ _ _ Hok a l name e Hl He) as (d & Hd & _). rewrite Hid in Hd.
  unfold data_at in Hd. by rewrite Hi in Hd.
Qed.

(** No name leads to the root. *)
Lemma entry_not_root a l name e :
  mem_heap m !! a = Some l → dir_entries (lock_data l) !! name = Some e → ent_id e ≠ ROOT.
Proof.
  intros Hl He Hroot. destruct (t_root _ _ _ _ Hok) as (d & Hd & Hk).
  pose proof (t_dir _ _ _ _ Hok ROOT d Hd Hk). pose proof (refs_pos a l name e Hl He). rewrite Hroot in *.
  unfold root_ref in *. rewrite decide_True in * by done. lia.
Qed.

Lemma data_at_set i v d l j :
  V !! i = Some v → mem_heap m !! inner (v_payload v) = Some d →
  data_at V (set_lock (v_payload v) l m) j = if decide (j = i) then Some (lock_data l) else data_at V m j.
Proof.
  intros Hv Hd. unfold data_at, set_lock. simpl. case_decide as Hj.
  - subst j. rewrite Hv. simpl. by rewrite lookup_insert_eq.
  - destruct (V !! j) as [v'|] eqn:Hv'; simpl; [|done]. rewrite lookup_insert_ne; [done|].
    intros Heq. apply Hj. symmetry. by apply (t_inj _ _ _ _ Hok i j v v').
Qed.

Lemma refs_set n l l' j :
  mem_heap m !! inner n = Some l →
  refs j (set_lock n l' m) = refs j m - count_to j (lock_data l) + count_to j (lock_data l').
Proof. intros Hl. unfold refs, set_lock. simpl. by apply (sum_map_update (λ l, count_to j (lock_data l))). Qed.

Lemma names_set n l l' :
  mem_heap m !! inner n = Some l →
  names (set_lock n l' m) = names m - Z.of_nat (size (dir_entries (lock_data l))) + Z.of_nat (size (dir_entries (lock_data l'))).
Proof. intros Hl. unfold names, set_lock. simpl. by apply (sum_map_update (λ l, Z.of_nat (size (dir_entries (lock_data l))))). Qed.

(** ** Changing the data of a node *)
Lemma tree_set i v d d' :
  V !! i = Some v → mem_heap m !! inner (v_payload v) = Some (mkRwLock false d) →
  nd_kind d' = nd_kind d → data_typed d' →
  (∀ name e, dir_entries d' !! name = Some e →
     (∃ x, data_at V m (ent_id e) = Some x ∧ nd_kind x = ent_kind e) ∧
     (ent_kind e = Directory → ∃ u, V !! ent_id e = Some u ∧ v_parent u = i)) →
  (∀ j x, data_at V m j = Some x → nd_kind x = Directory →
     refs j m - count_to j d + count_to j d' + root_ref j ≤ 1) →
  tree_ok (λ j, δ j + count_to j d - count_to j d')
    (λ j, if decide (j = i) then nd_nlink d' - expected_nlink v d' else ε j)
    V (set_lock (v_payload v) (mkRwLock false d') m).
Proof.
  intros Hv Hd Hkind Htyped Hentries Hdirs.
  set (m' := set_lock (v_payload v) (mkRwLock false d') m).
  assert (∀ j, data_at V m' j = if decide (j = i) then Some d' else data_at V m j) as Hat.
  { intros j. by apply (data_at_set i v (mkRwLock false d) (mkRwLock false d')). }
  assert (data_at V m i = Some d) as Hi by (apply data_at_Some; by exists v).
  assert (∀ a l, mem_heap m' !! a = Some l → (l = mkRwLock false d' ∧ a = inner (v_payload v)) ∨ mem_heap m !! a = Some l) as Hheap.
  { intros a l. unfold m', set_lock. simpl. rewrite lookup_insert. case_decide; [|auto]. intros [= <-]. auto. }
  assert (∀ j, refs j m' = refs j m - count_to j d + count_to j d') as Hrefs.
  { intros j. by apply (refs_set (v_payload v) (mkRwLock false d) (mkRwLock false d')). }
  assert (∀ j x k, data_at V m j = Some x → nd_kind x = k → ∃ y, data_at V m' j = Some y ∧ nd_kind y = k) as Hk.
  { intros j x k Hx Hxk. rewrite Hat. case_decide; [subst j|by exists x]. exists d'. split; [done|].
    rewrite Hi in Hx. injection Hx as <-. congruence. }
  split.
  - intros j u Hu. unfold m', set_lock. simpl. rewrite lookup_insert.
    case_decide; [by exists d'|]. by apply (t_cell _ _ _ _ Hok j).
  - intros a l Hl. destruct (Hheap a l Hl) as [[-> ->]|Hl']; [|by apply (t_heap _ _ _ _ Hok)].
    destruct (t_heap _ _ _ _ Hok _ _ Hd) as (? & _ & _). done.
  - apply Hok.
  - intros a l name e Hl He. destruct (Hheap a l Hl) as [[-> ->]|Hl'].
    + destruct (Hentries name e He) as [(x & Hx & Hxk) _]. by eapply Hk.
    + destruct (t_entry _ _ _ _ Hok a l name e Hl' He) as (x & Hx & Hxk). by eapply Hk.
  - intros j u Hu. rewrite Hrefs, (t_links _ _ _ _ Hok j u Hu). lia.
  - intros j u x Hu. rewrite Hat. case_decide; [subst j|by apply Hok].
    intros [= <-]. assert (u = v) as -> by congruence. lia.
  - intros j x. rewrite Hat, Hrefs. case_decide; [subst j|by eauto]. intros [= <-] ?.
    apply (Hdirs i d Hi). congruence.
  - intros j x name e. rewrite Hat. case_decide; [subst j|by apply Hok]. intros [= <-] He Hek.
    by apply (Hentries name e He).
  - destruct (t_root _ _ _ _ Hok) as (x & Hx & Hxk). by eapply Hk.
Qed.

(** Attributes, times, contents of files. *)
Lemma tree_quiet i v d d' :
  V !! i = Some v → mem_heap m !! inner (v_payload v) = Some (mkRwLock false d) →
  nd_kind d' = nd_kind d → dir_entries d' = dir_entries d → data_typed d' →
  tree_ok δ (bump_at i (nd_nlink d' - nd_nlink d) ε) V (set_lock (v_payload v) (mkRwLock false d') m).
Proof.
  intros Hv Hd Hkind Hes Htyped.
  assert (∀ j, count_to j d' = count_to j d) as Hc by (intros j; unfold count_to; by rewrite Hes).
  eapply tree_ok_ext; [| |apply (tree_set i v d d'); try done].
  - intros j _. simpl. rewrite Hc. lia.
  - intros j _. unfold bump_at. case_decide; [subst j|done].
    rewrite (t_nlink _ _ _ _ Hok i v d Hv) by (apply data_at_Some; by exists v).
    unfold expected_nlink, subdirs. rewrite Hkind, Hes. lia.
  - intros name e He. rewrite Hes in He. split; [by eapply (t_entry _ _ _ _ Hok _ _ _ _ Hd)|].
    intros Hek. eapply (t_parent _ _ _ _ Hok); [apply data_at_Some; by exists v|done..].
  - intros j x Hx Hk. rewrite Hc. pose proof (t_dir _ _ _ _ Hok j x Hx Hk). lia.
Qed.

Lemma dir_entries_insert name e d es :
  nd_content d = Dir es → dir_entries (insert_entry name e d) = <[name := e]> es.
Proof. intros Hc. unfold insert_entry, dir_entries. by rewrite Hc. Qed.
Lemma dir_entries_remove name d : dir_entries (remove_entry name d) = delete name (dir_entries d).
Proof. unfold remove_entry, dir_entries. destruct (nd_content d) eqn:Hc; rewrite ?Hc; simpl; [done|by rewrite delete_empty..]. Qed.
Lemma insert_entry_kind name e d : nd_kind (insert_entry name e d) = nd_kind d.
Proof. unfold insert_entry. by destruct (nd_content d). Qed.
Lemma remove_entry_kind name d : nd_kind (remove_entry name d) = nd_kind d.
Proof. unfold remove_entry. by destruct (nd_content d). Qed.
Lemma insert_entry_nlink name e d : nd_nlink (insert_entry name e d) = nd_nlink d.
Proof. unfold insert_entry. by destruct (nd_content d). Qed.
Lemma remove_entry_nlink name d : nd_nlink (remove_entry name d) = nd_nlink d.
Proof. unfold remove_entry. by destruct (nd_content d). Qed.
Lemma dir_kind d es : data_typed d → nd_content d = Dir es → nd_kind d = Directory.
Proof. intros (Hk & _) Hc. rewrite Hc in Hk. by destruct (nd_kind d). Qed.

Definition is_dir (e : DirEntry) : Z := if decide (ent_kind e = Directory) then 1 else 0.

(** Recording a name. *)
Lemma tree_insert i v d es name e x u :
  V !! i = Some v → mem_heap m !! inner (v_payload v) = Some (mkRwLock false d) →
  nd_content d = Dir es → es !! name = None →
  V !! ent_id e = Some u → data_at V m (ent_id e) = Some x → nd_kind x = ent_kind e →
  (ent_kind e = Directory → v_parent u = i ∧ refs (ent_id e) m + root_ref (ent_id e) = 0) →
  tree_ok (bump_at (ent_id e) (-1) δ) (bump_at i (- is_dir e) ε) V
    (set_lock (v_payload v) (mkRwLock false (insert_entry name e d)) m).
Proof.
  intros Hv Hd Hc Hname Hu Hx Hxk Hdir.
  assert (data_typed d) as Htyped by (by destruct (t_heap _ _ _ _ Hok _ _ Hd) as (_ & _ & ?)).
  assert (dir_entries d = es) as Hes by (unfold dir_entries; by rewrite Hc).
  assert (∀ j, count_to j (insert_entry name e d) = count_to j d + if decide (ent_id e = j) then 1 else 0) as Hcount.
  { intros j. unfold count_to. rewrite (dir_entries_insert _ _ _ es), Hes by done. case_decide.
    - by rewrite count_map_insert_yes.
    - rewrite count_map_insert_no by done. lia. }
  assert (subdirs (insert_entry name e d) = subdirs d + is_dir e) as Hsub.
  { unfold subdirs, is_dir. rewrite (dir_entries_insert _ _ _ es), Hes by done. case_decide.
    - by rewrite count_map_insert_yes.
    - rewrite count_map_insert_no by done. lia. }
  eapply tree_ok_ext; [| |apply (tree_set i v d (insert_entry name e d)); try done].
  - intros j _. simpl. rewrite Hcount. unfold bump_at. repeat case_decide; try congruence; lia.
  - intros j _. unfold bump_at. case_decide; [subst j|done].
    pose proof (t_nlink _ _ _ _ Hok i v d Hv ltac:(apply data_at_Some; by exists v)) as Hn.
    unfold expected_nlink in *. rewrite insert_entry_kind, Hsub, insert_entry_nlink.
    rewrite (dir_kind d es) in * by done. rewrite decide_True in * by done. lia.
  - apply insert_entry_kind.
  - by apply typed_insert.
  - intros name' e'. rewrite (dir_entries_insert _ _ _ es), lookup_insert by done. case_decide as Hne.
    + intros [= <-]. split; [by exists x|]. intros Hk. exists u. by destruct (Hdir Hk).
    + rewrite <- Hes. intros He. split; [by eapply (t_entry _ _ _ _ Hok _ _ _ _ Hd)|].
      intros Hek. eapply (t_parent _ _ _ _ Hok); [apply data_at_Some; by exists v|done..].
  - intros j y Hy Hk. rewrite Hcount. pose proof (t_dir _ _ _ _ Hok j y Hy Hk).
    case_decide as Hj; [subst j|lia]. assert (x = y) as -> by congruence.
    destruct Hdir as [_ Hz]; [congruence|]. lia.
Qed.

(** Removing a name. *)
Lemma tree_remove i v d name e :
  V !! i = Some v → mem_heap m !! inner (v_payload v) = Some (mkRwLock false d) →
  dir_entries d !! name = Some e →
  tree_ok (bump_at (ent_id e) 1 δ) (bump_at i (is_dir e) ε) V
    (set_lock (v_payload v) (mkRwLock false (remove_entry name d)) m).
Proof.
  intros Hv Hd Hname.
  assert (data_typed d) as Htyped by (by destruct (t_heap _ _ _ _ Hok _ _ Hd) as (_ & _ & ?)).
  assert (∀ j, count_to j (remove_entry name d) = count_to j d - if decide (ent_id e = j) then 1 else 0) as Hcount.
  { intros j. unfold count_to. rewrite dir_entries_remove. case_decide.
    - by rewrite (count_map_delete_yes _ _ name e).
    - rewrite (count_map_delete_no _ _ name e) by done. lia. }
  assert (subdirs (remove_entry name d) = subdirs d - is_dir e) as Hsub.
  { unfold subdirs, is_dir. rewrite dir_entries_remove. case_decide.
    - by rewrite (count_map_delete_yes _ _ name e).
    - rewrite (count_map_delete_no _ _ name e) by done. lia. }
  assert (nd_kind d = Directory) as Hkd.
  { unfold dir_entries in Hname. destruct (nd_content d) eqn:Hc; [by eapply dir_kind|by rewrite lookup_empty in Hname..]. }
  eapply tree_ok_ext; [| |apply (tree_set i v d (remove_entry name d)); try done].
  - intros j _. simpl. rewrite Hcount. unfold bump_at. repeat case_decide; try congruence; lia.
  - intros j _. unfold bump_at. case_decide; [subst j|done].
    pose proof (t_nlink _ _ _ _ Hok i v d Hv ltac:(apply data_at_Some; by exists v)) as Hn.
    unfold expected_nlink in *. rewrite remove_entry_kind, Hsub, remove_entry_nlink, Hkd in *.
    rewrite decide_True in * by done. lia.
  - apply remove_entry_kind.
  - by apply typed_remove.
  - intros name' e'. rewrite dir_entries_remove, lookup_delete. case_decide; [done|].
    intros He. split; [by eapply (t_entry _ _ _ _ Hok _ _ _ _ Hd)|].
    intros Hek. eapply (t_parent _ _ _ _ Hok); [apply data_at_Some; by exists v|done..].
  - intros j y Hy Hk. rewrite Hcount. pose proof (t_dir _ _ _ _ Hok j y Hy Hk). case_decide; lia.
Qed.
End facts.

(** ** Changing the nodes of the runtime *)
Section nodes.
Context (δ ε : Z → Z) (V : nodes) (m : Mem) (Hok : tree_ok δ ε V m).

(** A clock reading. *)
Lemma tree_tick t : tree_ok δ ε V (mkMem (mem_heap m) (mem_next m) t).
Proof. destruct Hok. by split. Qed.

Lemma data_at_insert i v v' j :
  V !! i = Some v → v_payload v' = v_payload v → data_at (<[i := v']> V) m j = data_at V m j.
Proof.
  intros Hv Hp. unfold data_at. rewrite lookup_insert. case_decide; [subst j|done].
  rewrite Hv. simpl. by rewrite Hp.
Qed.

(** Counters that the tree does not look at, and links. *)
Lemma tree_counters i v v' d :
  V !! i = Some v → data_at V m i = Some d → v_payload v' = v_payload v → v_parent v' = v_parent v →
  tree_ok (bump_at i (v_links v' - v_links v) δ) (bump_at i (expected_nlink v d - expected_nlink v' d) ε)
    (<[i := v']> V) m.
Proof.
  intros Hv Hd Hp Hpar. pose proof (data_at_insert i v v') as Hat.
  assert (∀ j, data_at (<[i:=v']> V) m j = data_at V m j) as Hat' by (intros j; by apply Hat).
  split.
  - intros j u. rewrite lookup_insert. case_decide; [subst j|by apply Hok].
    intros [= <-]. rewrite Hp. by apply (t_cell _ _ _ _ Hok i).
  - apply Hok.
  - intros j k u u'. rewrite !lookup_insert. repeat case_decide; subst; try done.
    + intros [= <-] Hu'. rewrite Hp. by apply (t_inj _ _ _ _ Hok).
    + intros Hu [= <-]. rewrite Hp. by apply (t_inj _ _ _ _ Hok).
    + by apply (t_inj _ _ _ _ Hok).
  - intros a l name e Hl He. setoid_rewrite Hat'. by eapply (t_entry _ _ _ _ Hok).
  - intros j u. rewrite lookup_insert. unfold bump_at. case_decide; [subst j|].
    + intros [= <-]. pose proof (t_links _ _ _ _ Hok i v Hv). rewrite decide_True by done. lia.
    + rewrite decide_False by done. apply Hok.
  - intros j u x. rewrite lookup_insert, Hat'. unfold bump_at. case_decide; [subst j|].
    + intros [= <-] Hx. rewrite decide_True by done. assert (x = d) as -> by congruence.
      rewrite (t_nlink _ _ _ _ Hok i v d Hv Hd). lia.
    + rewrite decide_False by done. apply Hok.
  - intros j x. rewrite Hat'. apply Hok.
  - intros j x name e. rewrite Hat'. intros Hx He Hk.
    destruct (t_parent _ _ _ _ Hok j x name e Hx He Hk) as (u & Hu & Hj). rewrite lookup_insert.
    case_decide as Hi; [|by exists u]. exists v'. split; [done|]. rewrite <- Hi in Hu. congruence.
  - setoid_rewrite Hat'. apply Hok.
Qed.

(** A directory that no name leads to may get another parent. *)
Lemma tree_reparent i v p :
  V !! i = Some v → refs i m = 0 → tree_ok δ ε (<[i := v_with_parent p v]> V) m.
Proof.
  intros Hv Hr. assert (∀ j, data_at (<[i:=v_with_parent p v]> V) m j = data_at V m j) as Hat.
  { intros j. by apply (data_at_insert i v). }
  split.
  - intros j u. rewrite lookup_insert. case_decide; [subst j|by apply Hok].
    intros [= <-]. exact (t_cell _ _ _ _ Hok i v Hv).
  - apply Hok.
  - intros j k u u'. rewrite !lookup_insert. repeat case_decide; subst; try done.
    + intros [= <-] Hu'. exact (t_inj _ _ _ _ Hok _ _ v u' Hv Hu').
    + intros Hu [= <-]. exact (t_inj _ _ _ _ Hok _ _ u v Hu Hv).
    + by apply (t_inj _ _ _ _ Hok).
  - intros a l name e Hl He. setoid_rewrite Hat. by eapply (t_entry _ _ _ _ Hok).
  - intros j u. rewrite lookup_insert. case_decide; [subst j|by apply Hok].
    intros [= <-]. exact (t_links _ _ _ _ Hok i v Hv).
  - intros j u x. rewrite lookup_insert, Hat. case_decide; [subst j|by apply Hok].
    intros [= <-]. exact (t_nlink _ _ _ _ Hok i v x Hv).
  - intros j x. rewrite Hat. apply Hok.
  - intros j x name e. rewrite Hat. intros Hx He Hk.
    destruct (t_parent _ _ _ _ Hok j x name e Hx He Hk) as (u & Hu & Hj). rewrite lookup_insert.
    case_decide as Hi; [|by exists u]. exfalso.
    apply (data_at_Some _ _ _ _ Hok) in Hx as (vj & _ & Hl).
    pose proof (refs_pos m _ (mkRwLock false x) name e Hl He). rewrite <- Hi in *. lia.
  - setoid_rewrite Hat. apply Hok.
Qed.

(** Nodes without links may go. *)
Lemma tree_filter (P : Z * RefNode Node → Prop) `{∀ x, Decision (P x)} :
  (∀ i v, V !! i = Some v → ¬ P (i, v) → v_links v = 0 ∧ δ i = 0) → tree_ok δ ε (filter P V) m.
Proof.
  intros HP.
  assert (∀ i v, V !! i = Some v → refs i m + root_ref i ≠ 0 → filter P V !! i = Some v) as Hkeep.
  { intros i v Hv Hr. apply map_lookup_filter_Some. split; [done|]. destruct (decide (P (i, v))) as [?|HnP]; [done|].
    destruct (HP i v Hv HnP) as [? ?]. pose proof (t_links _ _ _ _ Hok i v Hv). lia. }
  assert (∀ i x, data_at (filter P V) m i = Some x → data_at V m i = Some x) as Hsub.
  { intros i x. unfold data_at. rewrite !bind_Some. intros (v & [Hv _]%map_lookup_filter_Some & Hx). by exists v. }
  assert (∀ i x, data_at V m i = Some x → refs i m + root_ref i ≠ 0 → data_at (filter P V) m i = Some x) as Hsup.
  { intros i x. unfold data_at. rewrite !bind_Some. intros (v & Hv & Hx) Hr. exists v. split; [by apply Hkeep|done]. }
  assert (∀ i, 0 ≤ root_ref i) as Hroot by (intros i; unfold root_ref; case_decide; lia).
  split.
  - intros i v [Hv _]%map_lookup_filter_Some. by apply (t_cell _ _ _ _ Hok i).
  - apply Hok.
  - intros i j v v' [Hv _]%map_lookup_filter_Some [Hv' _]%map_lookup_filter_Some. by apply (t_inj _ _ _ _ Hok).
  - intros a l name e Hl He. destruct (t_entry _ _ _ _ Hok a l name e Hl He) as (x & Hx & Hk). exists x.
    split; [|done]. apply Hsup; [done|]. pose proof (refs_pos m a l name e Hl He). specialize (Hroot (ent_id e)). lia.
  - intros i v [Hv _]%map_lookup_filter_Some. by apply Hok.
  - intros i v x [Hv _]%map_lookup_filter_Some Hx%Hsub. by apply Hok.
  - intros i x Hx%Hsub. by apply Hok.
  - intros i x name e Hx%Hsub He Hk. destruct (t_parent _ _ _ _ Hok i x name e Hx He Hk) as (u & Hu & Hi).
    exists u. split; [|done]. apply Hkeep; [done|].
    apply (data_at_Some _ _ _ _ Hok) in Hx as (vi & _ & Hl).
    pose proof (refs_pos m _ (mkRwLock false x) name e Hl He). specialize (Hroot (ent_id e)). lia.
  - destruct (t_root _ _ _ _ Hok) as (x & Hx & Hk). exists x. split; [|done]. apply Hsup; [done|].
    unfold root_ref. rewrite decide_True by done. pose proof (refs_nonneg m ROOT). lia.
Qed.

(** *** A new node *)
Section fresh.
Context (i : Z) (g : Z) (p : NodeId) (d : NodeData) (t : nat) (Hi : V !! i = None).
Let V' : nodes := <[i := mkRefNode (mkNode (mem_next m)) g 1 0 0 p]> V.
Let m' : Mem := mkMem (<[mem_next m := mkRwLock false d]> (mem_heap m)) (mem_next m + 1) t.

Lemma fresh_address : mem_heap m !! mem_next m = None.
Proof. destruct (mem_heap m !! mem_next m) eqn:Hl; [|done]. destruct (t_heap _ _ _ _ Hok _ _ Hl). lia. Qed.

Lemma data_at_new j : data_at V' m' j = if decide (j = i) then Some d else data_at V m j.
Proof.
  unfold data_at, V', m'. simpl. destruct (decide (j = i)) as [->|Hj].
  - rewrite lookup_insert_eq. simpl. by rewrite lookup_insert_eq.
  - rewrite lookup_insert_ne by congruence. destruct (V !! j) as [v|] eqn:Hv; simpl; [|done].
    destruct (t_cell _ _ _ _ Hok j v Hv) as [x Hx]. rewrite lookup_insert_ne; [done|].
    intros Heq. rewrite <- Heq, fresh_address in Hx. done.
Qed.

Lemma names_new : dir_entries d = ∅ → names m' = names m.
Proof. intros Hes. unfold names, m'. simpl. rewrite sum_map_insert by apply fresh_address. simpl. by rewrite Hes. Qed.
End fresh.

(** A new node, which has a link but no name yet. *)
Lemma tree_new i g p d t :
  V !! i = None → dir_entries d = ∅ → data_typed d → nd_nlink d = (if decide (nd_kind d = Directory) then 2 else 1) →
  δ i = 0 → ε i = 0 →
  tree_ok (bump_at i 1 δ) ε (<[i := mkRefNode (mkNode (mem_next m)) g 1 0 0 p]> V)
    (mkMem (<[mem_next m := mkRwLock false d]> (mem_heap m)) (mem_next m + 1) t).
Proof.
  intros Hi Hes Htyped Hnlink Hδ Hε. set (nlink0 := if decide _ then 2 else 1) in Hnlink.
  assert (∀ a l, mem_heap m !! a = Some l → a ≠ mem_next m) as Hne.
  { intros a l Hl ->. destruct (t_heap _ _ _ _ Hok _ _ Hl). lia. }
  pose proof fresh_address as Hfresh.
  assert (∀ j, count_to j d = 0) as Hc0 by (intros j; unfold count_to; by rewrite Hes, count_map_empty).
  set (m' := mkMem (<[mem_next m := mkRwLock false d]> (mem_heap m)) (mem_next m + 1) t).
  set (V' := <[i := mkRefNode (mkNode (mem_next m)) g 1 0 0 p]> V).
  assert (∀ j, refs j m' = refs j m) as Hrefs.
  { intros j. unfold refs, m'. simpl. rewrite sum_map_insert by done. simpl. rewrite Hc0. lia. }
  assert (∀ j v, V !! j = Some v → j ≠ i) as Hji by (intros j v Hj ->; congruence).
  assert (∀ j, data_at V' m' j = if decide (j = i) then Some d else data_at V m j) as Hat by (intros j; by apply data_at_new).
  assert (∀ j x, data_at V m j = Some x → data_at V' m' j = Some x) as Hup.
  { intros j x Hx. rewrite Hat, decide_False; [done|]. intros ->. unfold data_at in Hx. by rewrite Hi in Hx. }
  assert (is_Some (V !! ROOT)) as [vr Hvr].
  { destruct (t_root _ _ _ _ Hok) as (x & Hx & _). unfold data_at in Hx. destruct (V !! ROOT); [by eexists|done]. }
  assert (root_ref i = 0) as Hri.
  { unfold root_ref. destruct (decide (i = ROOT)) as [Hir|]; [|done]. by rewrite <- Hir, Hi in Hvr. }
  assert (refs i m = 0) as Hr0 by (by eapply refs_absent).
  split.
  - intros j v. unfold V', m'. simpl. rewrite !lookup_insert. case_decide; [subst j|].
    + intros [= <-]. simpl. rewrite decide_True by done. by eexists.
    + intros Hv. destruct (t_cell _ _ _ _ Hok j v Hv) as [x Hx]. exists x. rewrite decide_False; [done|].
      intros Heq. by apply (Hne _ _ Hx).
  - intros a l. unfold m'. simpl. rewrite lookup_insert. case_decide; [subst a|].
    + intros [= <-]. split_and!; [lia|done|done].
    + intros Hl. destruct (t_heap _ _ _ _ Hok a l Hl) as (? & ? & ?). split_and!; [lia|done|done].
  - intros j k v v'. unfold V'. rewrite !lookup_insert. repeat case_decide; subst; try done.
    + intros [= <-] Hv'. simpl. intros Heq. destruct (t_cell _ _ _ _ Hok k v' Hv') as [x Hx]. by destruct (Hne _ _ Hx).
    + intros Hv [= <-]. simpl. intros Heq. destruct (t_cell _ _ _ _ Hok j v Hv) as [x Hx]. by destruct (Hne _ _ Hx).
    + by apply (t_inj _ _ _ _ Hok).
  - intros a l name e. unfold m' at 1. simpl. rewrite lookup_insert. case_decide; [subst a|].
    + intros [= <-]. simpl. by rewrite Hes, lookup_empty.
    + intros Hl He. destruct (t_entry _ _ _ _ Hok a l name e Hl He) as (x & Hx & Hk). exists x. auto.
  - intros j v. unfold V', bump_at. rewrite lookup_insert, Hrefs. case_decide; [subst j|].
    + intros [= <-]. rewrite decide_True by done. simpl. lia.
    + rewrite decide_False by done. apply Hok.
  - intros j v x. rewrite Hat. unfold V'. rewrite lookup_insert. case_decide; [subst j|].
    + rewrite decide_True by done. intros [= <-] [= <-]. unfold expected_nlink, subdirs. rewrite Hes, count_map_empty, Hnlink, Hε.
      subst nlink0. simpl. by destruct (decide (nd_kind d = Directory)).
    + rewrite decide_False by done. apply Hok.
  - intros j x. rewrite Hat, Hrefs. case_decide; [subst j; lia|apply Hok].
  - intros j x name e. rewrite Hat. case_decide; [intros [= <-]; by rewrite Hes, lookup_empty|].
    intros Hx He Hk. destruct (t_parent _ _ _ _ Hok j x name e Hx He Hk) as (u & Hu & ?). exists u. split; [|done].
    unfold V'. rewrite lookup_insert_ne; [done|]. intros Heq. by rewrite <- Heq, Hi in Hu.
  - destruct (t_root _ _ _ _ Hok) as (x & Hx & ?). exists x. auto.
Qed.
End nodes.
