(* ===== verification/MemoryOps.v ===== *)
(** * What the callbacks of the in-memory filesystem do

    An abstract tree, [tree]: the content of each node that exists, and a step
    of it for every callback, with the error of each branch.  Each callback of
    [MemoryFs] performs the step and restores the invariant of [MemoryTree]. *)

From S2P Require Import Prelude Types Std NodeTable NodeFs Reference RefMono RefLogic MemoryFs MemoryInv MemoryTree.

(** ** The abstract tree *)
Definition tree := NodeId → option Content.

Section spec.
Context `{Libc}.

Definition dir_at (T : tree) (i : NodeId) : Result Errno (gmap string DirEntry) :=
  match T i with Some (Dir es) => Ok es | Some _ => Err ENOTDIR | None => Err ENOENT end.
Definition find_entry (T : tree) (i : NodeId) (name : OsString) : Result Errno DirEntry :=
  match dir_at T i with Ok es => ok_or (es !! name) ENOENT | Err e => Err e end.
Definition put (i : NodeId) (c : Content) (T : tree) : tree := λ j, if decide (j = i) then Some c else T j.
Definition same (T T' : tree) : Prop := ∀ i, T' i = T i.
Definition edit_dir (f : gmap string DirEntry → gmap string DirEntry) (i : NodeId) (T : tree) : tree :=
  match T i with Some (Dir es) => put i (Dir (f es)) T | _ => T end.
Definition is_dir_content (c : Content) : bool := match c with Dir _ => true | _ => false end.

(** *** The steps *)
Definition new_entry_error (T : tree) (parent : NodeId) (name : OsString) : Result Errno unit :=
  match dir_at T parent with
  | Ok es => if decide (is_Some (es !! name)) then Err EEXIST else Ok tt
  | Err e => Err e
  end.

Definition create_step (T T' : tree) (parent : NodeId) (name : OsString) (k : FileKind) (c : Content)
    (r : Result Errno NodeId) : Prop :=
  match new_entry_error T parent name with
  | Err e => r = Err e ∧ same T T'
  | Ok _ => ∃ id, r = Ok id ∧ T id = None ∧
      same (put id c (edit_dir (<[name := mkEntry id k]>) parent T)) T'
  end.

Definition link_step (T T' : tree) (id parent : NodeId) (name : OsString) (r : Result Errno NodeId) : Prop :=
  match T id with
  | None => r = Err ENOENT ∧ same T T'
  | Some (Dir _) => r = Err EPERM ∧ same T T'
  | Some _ =>
      match new_entry_error T parent name with
      | Err e => r = Err e ∧ same T T'
      | Ok _ => r = Ok id ∧ ∃ k, same (edit_dir (<[name := mkEntry id k]>) parent T) T'
      end
  end.

Definition unlink_step (T T' : tree) (parent : NodeId) (name : OsString) (r : Result Errno unit) : Prop :=
  match find_entry T parent name with
  | Err e => r = Err e ∧ same T T'
  | Ok e =>
      if decide (ent_kind e = Directory) then r = Err EISDIR ∧ same T T'
      else r = Ok tt ∧ same (edit_dir (delete name) parent T) T'
  end.

Definition rmdir_step (T T' : tree) (parent : NodeId) (name : OsString) (r : Result Errno unit) : Prop :=
  match find_entry T parent name with
  | Err e => r = Err e ∧ same T T'
  | Ok e =>
      match dir_at T (ent_id e) with
      | Err err => r = Err err ∧ same T T'
      | Ok es =>
          if decide (es = ∅) then r = Ok tt ∧ same (edit_dir (delete name) parent T) T'
          else r = Err ENOTEMPTY ∧ same T T'
      end
  end.

(** Whether a rename may put a directory, or not a directory, over [old];
    [Ok true] if there is nothing to do. *)
Definition replace_error (T : tree) (newparent : NodeId) (newname : OsString) (e : DirEntry) : Result Errno bool :=
  match find_entry T newparent newname with
  | Err err => if decide (err = ENOENT) then Ok false else Err err
  | Ok old =>
      if decide (ent_id old = ent_id e) then Ok true
      else match T (ent_id old) with
           | None => Err ENOENT
           | Some (Dir es) =>
               if decide (ent_kind e = Directory) then
                 if decide (es = ∅) then Ok false else Err ENOTEMPTY
               else Err EISDIR
           | Some _ => if decide (ent_kind e = Directory) then Err ENOTDIR else Ok false
           end
  end.

Definition rename_step (T T' : tree) (parent : NodeId) (name : OsString) (newparent : NodeId) (newname : OsString)
    (r : Result Errno unit) : Prop :=
  match find_entry T parent name with
  | Err e => r = Err e ∧ same T T'
  | Ok e =>
      match replace_error T newparent newname e with
      | Err err => r = Err err ∧ same T T'
      | Ok true => r = Ok tt ∧ same T T'
      | Ok false => r = Ok tt ∧
          same (edit_dir (<[newname := e]>) newparent (edit_dir (delete name) parent T)) T'
      end
  end.

End spec.

(** ** Nodes and counters *)
Definition contents (V : nodes) (m : Mem) : tree := λ i, nd_content <$> data_at V m i.

Definition kind_at (V : nodes) (m : Mem) (i : NodeId) : option FileKind := nd_kind <$> data_at V m i.

Definition counted (h : Z) (v : RefNode Node) : Prop := 0 ≤ v_lookups v ≤ h ∧ 0 ≤ v_opens v ≤ h.
Definition mem_ok (h : Z) (V : nodes) (m : Mem) : Prop :=
  tree_ok none none V m ∧ map_Forall (λ _, counted h) V ∧ names m ≤ h.

Lemma counted_mono h h' v : h ≤ h' → counted h v → counted h' v.
Proof. unfold counted. lia. Qed.

Lemma refs_names i m : refs i m ≤ names m.
Proof. apply sum_map_le. intros l. apply count_map_le_size. Qed.

Lemma names_ge a l m : mem_heap m !! a = Some l → Z.of_nat (size (dir_entries (lock_data l))) ≤ names m.
Proof.
  intros Hl. apply (sum_map_ge (λ l, Z.of_nat (size (dir_entries (lock_data l)))) (mem_heap m) a l); [intros; lia|done].
Qed.

Lemma links_bound δ ε V m i v :
  tree_ok δ ε V m → V !! i = Some v → v_links v ≤ names m + 1 + δ i.
Proof.
  intros Hok Hv. rewrite (t_links _ _ _ _ Hok i v Hv). pose proof (refs_names i m). unfold root_ref. case_decide; lia.
Qed.

Lemma nlink_bound δ ε V m i v d :
  tree_ok δ ε V m → V !! i = Some v → data_at V m i = Some d → 0 ≤ δ i → nd_nlink d ≤ names m + 2 + δ i + ε i.
Proof.
  intros Hok Hv Hd Hδ. rewrite (t_nlink _ _ _ _ Hok i v d Hv Hd). unfold expected_nlink.
  pose proof (links_bound _ _ _ _ i v Hok Hv). case_decide; [|lia].
  apply (data_at_Some _ _ _ _ Hok) in Hd as (v' & _ & Hl). pose proof (names_ge _ _ _ Hl). simpl in *.
  pose proof (count_map_le_size (λ e, ent_kind e = Directory) (dir_entries d)). unfold subdirs. case_decide; lia.
Qed.

Lemma set_lock_twice n l l' m : set_lock n l' (set_lock n l m) = set_lock n l' m.
Proof. unfold set_lock. simpl. by rewrite insert_insert_eq. Qed.
Lemma lookup_set_lock n l m : mem_heap (set_lock n l m) !! inner n = Some l.
Proof. unfold set_lock. simpl. apply lookup_insert_eq. Qed.

Lemma dir_content d es : nd_content d = Dir es → dir_entries d = es.
Proof. intros Hc. unfold dir_entries. by rewrite Hc. Qed.
Lemma kind_content d : data_typed d → (nd_kind d = Directory ↔ is_dir_content (nd_content d) = true).
Proof. intros (Hk & _). destruct (nd_kind d), (nd_content d); simpl in *; naive_solver. Qed.
Lemma dir_of_kind d : data_typed d → nd_kind d = Directory → ∃ es, nd_content d = Dir es.
Proof. intros (Hk & _) Hd. rewrite Hd in Hk. destruct (nd_content d); naive_solver. Qed.

(** ** Steps of the tree, for the data that the callbacks leave *)
Section steps.
Context (δ ε : Z → Z) (V : nodes) (m : Mem) (Hok : tree_ok δ ε V m).

(** Names in a directory whose attributes change too. *)
Lemma tree_insert_data i v d es name e x u d' :
  V !! i = Some v → mem_heap m !! inner (v_payload v) = Some (mkRwLock false d) →
  nd_content d = Dir es → es !! name = None →
  V !! ent_id e = Some u → data_at V m (ent_id e) = Some x → nd_kind x = ent_kind e →
  (ent_kind e = Directory → v_parent u = i ∧ refs (ent_id e) m + root_ref (ent_id e) = 0) →
  nd_content d' = Dir (<[name := e]> es) → nd_kind d' = nd_kind d → data_typed d' →
  tree_ok (bump_at (ent_id e) (-1) δ) (bump_at i (nd_nlink d' - nd_nlink d - is_dir e) ε) V
    (set_lock (v_payload v) (mkRwLock false d') m).
Proof.
  intros Hv Hd Hc Hname Hu Hx Hxk Hdir Hc' Hk' Ht'.
  pose proof (tree_insert δ ε V m Hok i v d es name e x u Hv Hd Hc Hname Hu Hx Hxk Hdir) as Hok1.
  pose proof (tree_quiet _ _ _ _ Hok1 i v (insert_entry name e d) d' Hv (lookup_set_lock _ _ _)) as Hok2.
  rewrite set_lock_twice, insert_entry_kind, insert_entry_nlink, (dir_entries_insert _ _ _ es), (dir_content _ _ Hc') in Hok2 by done.
  eapply tree_ok_ext; [done| |by apply Hok2]. intros j _. unfold bump_at. case_decide; lia.
Qed.

Lemma tree_remove_data i v d name e d' :
  V !! i = Some v → mem_heap m !! inner (v_payload v) = Some (mkRwLock false d) →
  dir_entries d !! name = Some e →
  dir_entries d' = delete name (dir_entries d) → nd_kind d' = nd_kind d → data_typed d' →
  tree_ok (bump_at (ent_id e) 1 δ) (bump_at i (nd_nlink d' - nd_nlink d + is_dir e) ε) V
    (set_lock (v_payload v) (mkRwLock false d') m).
Proof.
  intros Hv Hd Hname Hes Hk' Ht'.
  pose proof (tree_remove δ ε V m Hok i v d name e Hv Hd Hname) as Hok1.
  pose proof (tree_quiet _ _ _ _ Hok1 i v (remove_entry name d) d' Hv (lookup_set_lock _ _ _)) as Hok2.
  rewrite set_lock_twice, remove_entry_kind, remove_entry_nlink, dir_entries_remove in Hok2.
  eapply tree_ok_ext; [done| |by apply Hok2]. intros j _. unfold bump_at. case_decide; lia.
Qed.

Lemma contents_set i v d d' :
  V !! i = Some v → mem_heap m !! inner (v_payload v) = Some (mkRwLock false d) →
  same (put i (nd_content d') (contents V m)) (contents V (set_lock (v_payload v) (mkRwLock false d') m)).
Proof.
  intros Hv Hd j. unfold contents, put. rewrite (data_at_set δ ε V m Hok i v _ (mkRwLock false d') j Hv Hd).
  by case_decide.
Qed.

Lemma contents_quiet i v d d' :
  V !! i = Some v → mem_heap m !! inner (v_payload v) = Some (mkRwLock false d) → nd_content d' = nd_content d →
  same (contents V m) (contents V (set_lock (v_payload v) (mkRwLock false d') m)).
Proof.
  intros Hv Hd Hc j. rewrite (contents_set i v d d' Hv Hd). unfold put. case_decide; [subst j|done].
  unfold contents. assert (data_at V m i = Some d) as -> by (apply (data_at_Some _ _ _ _ Hok); by exists v). simpl. by rewrite Hc.
Qed.

Lemma kinds_set i v d d' j :
  V !! i = Some v → mem_heap m !! inner (v_payload v) = Some (mkRwLock false d) → nd_kind d' = nd_kind d →
  kind_at V (set_lock (v_payload v) (mkRwLock false d') m) j = kind_at V m j.
Proof.
  intros Hv Hd Hk. unfold kind_at. rewrite (data_at_set δ ε V m Hok i v (mkRwLock false d) _ j Hv Hd).
  case_decide; [subst j|done].
  assert (data_at V m i = Some d) as -> by (apply (data_at_Some _ _ _ _ Hok); by exists v). simpl. by rewrite Hk.
Qed.

Lemma names_quiet n d d' :
  mem_heap m !! inner n = Some (mkRwLock false d) → dir_entries d' = dir_entries d →
  names (set_lock n (mkRwLock false d') m) = names m.
Proof. intros Hd Hes. rewrite (names_set m n _ _ Hd). simpl. rewrite Hes. lia. Qed.
End steps.

Lemma contents_alter V m i g :
  (∀ v, v_payload (g v) = v_payload v) → same (contents V m) (contents (alter g i V) m).
Proof.
  intros Hg j. unfold contents, data_at. destruct (decide (i = j)) as [->|Hij].
  - rewrite lookup_alter_eq. destruct (V !! j); simpl; [|done]. by rewrite Hg.
  - by rewrite lookup_alter_ne.
Qed.

Lemma alter_insert_id {A} (g : A → A) (i : Z) (V : gmap Z A) v : V !! i = Some v → alter g i V = <[i := g v]> V.
Proof.
  intros Hv. apply map_eq. intros j. rewrite lookup_insert. case_decide; [subst j|by apply lookup_alter_ne].
  by rewrite lookup_alter_eq, Hv.
Qed.

Lemma surjective_entry e : mkEntry (ent_id e) (ent_kind e) = e.
Proof. by destruct e. Qed.

(** ** Pieces of callbacks *)
Section pieces.
Context {K : Type} `{Libc} (clock : nat → SystemTime).
Abbreviation runs := (runs (H := unit) (D := unit) (K := K)).

Definition tick (m : Mem) : Mem := mkMem (mem_heap m) (mem_next m) (Datatypes.S (mem_tick m)).

Lemma runs_now d (Q : SystemTime → nodes → Mem → Prop) V m :
  (∀ t, Q t V (tick m)) → runs d (atomically (now clock)) Q V m.
Proof. intros HQ. by eapply runs_atomically. Qed.

Section reading.
Context (δ ε : Z → Z) (V : nodes) (m : Mem) (Hok : tree_ok δ ε V m) (Hlive : live V).

Lemma runs_read_lock d (n : Node) x (Q : NodeData → nodes → Mem → Prop) :
  mem_heap m !! inner n = Some (mkRwLock false x) → Q x V m → runs d (atomically (read n)) Q V m.
Proof. intros Hn HQ. eapply runs_atomically; [|done]. unfold read. by rewrite Hn. Qed.

(** A node, with its data if it exists. *)
Lemma runs_read_node {A} d id (k : NodeData → prog Node Mem Empty_set A) none (Q : A → nodes → Mem → Prop) :
  (d < 999)%nat →
  match data_at V m id with Some x => runs (Datatypes.S d) (k x) Q V m | None => runs d none Q V m end →
  runs d (with_get id (λ node, d ← atomically (read node); k d) none) Q V m.
Proof.
  intros Hd HQ. apply runs_with_get; [done| |].
  - intros v Hv. split; [by eapply Hlive|]. destruct (t_cell _ _ _ _ Hok id v Hv) as [x Hx].
    assert (data_at V m id = Some x) as Hat by (apply (data_at_Some _ _ _ _ Hok); by exists v).
    rewrite Hat in HQ. apply runs_bind. by eapply runs_read_lock.
  - intros Hv. unfold data_at in HQ. by rewrite Hv in HQ.
Qed.

Lemma runs_entry d parent name (Q : Result Errno DirEntry → nodes → Mem → Prop) :
  (d < 998)%nat → Q (find_entry (contents V m) parent name) V m → runs d (entry parent name) Q V m.
Proof.
  intros Hd HQ. apply runs_read_node; [lia|]. unfold find_entry, dir_at, contents in HQ.
  destruct (data_at V m parent) as [x|]; simpl in *; [|by apply runs_done].
  destruct (nd_content x); by apply runs_done.
Qed.

Lemma runs_check_new_entry d parent name (Q : Result Errno unit → nodes → Mem → Prop) :
  (d < 998)%nat → Q (new_entry_error (contents V m) parent name) V m → runs d (check_new_entry parent name) Q V m.
Proof.
  intros Hd HQ. apply runs_read_node; [lia|]. unfold new_entry_error, dir_at, contents in HQ.
  destruct (data_at V m parent) as [x|]; simpl in *; [|by apply runs_done].
  destruct (nd_content x); try by apply runs_done. case_decide; by apply runs_done.
Qed.

Lemma runs_kind d id k (Q : Result Errno FileKind → nodes → Mem → Prop) :
  (d < 998)%nat → kind_at V m id = k → Q (ok_or k ENOENT) V m → runs d (kind id) Q V m.
Proof.
  intros Hd <- HQ. apply runs_read_node; [lia|]. unfold kind_at in HQ.
  destruct (data_at V m id); simpl in *; by apply runs_done.
Qed.
End reading.

(** A write guard that only changes data. *)
Lemma runs_write_lock d (n : Node) x (f : NodeData → NodeData) (Q : unit → nodes → Mem → Prop) V m :
  mem_heap m !! inner n = Some (mkRwLock false x) → Q tt V (set_lock n (mkRwLock false (f x)) m) →
  runs d (atomically (write n (λ d, mret (tt, f d)))) Q V m.
Proof. intros Hn HQ. eapply runs_atomically; [|done]. unfold write. by rewrite Hn. Qed.

Lemma runs_update d id v x f (Q : unit → nodes → Mem → Prop) V m :
  (d < 999)%nat → V !! id = Some v → unreferenced v = false →
  mem_heap m !! inner (v_payload v) = Some (mkRwLock false x) →
  Q tt V (set_lock (v_payload v) (mkRwLock false (f x)) m) → runs d (update id f) Q V m.
Proof.
  intros Hd Hv Href Hx HQ. apply runs_with_get; [done| |by rewrite Hv].
  intros v' Hv'. assert (v' = v) as -> by congruence. split; [done|]. by eapply runs_write_lock.
Qed.
End pieces.

(** ** The callbacks *)
Lemma mem_ok_mono h h' V m : h ≤ h' → mem_ok h V m → mem_ok h' V m.
Proof.
  intros Hh (Hok & Hc & Hn). split_and!; [done| |lia]. intros i v Hv. eapply counted_mono; [done|by apply (Hc i)].
Qed.

Lemma dir_at_Ok `{Libc} T i es : dir_at T i = Ok es → T i = Some (Dir es).
Proof. unfold dir_at. by destruct (T i) as [[]|]; intros; simplify_eq. Qed.

Lemma edit_dir_put f i es T : T i = Some (Dir es) → edit_dir f i T = put i (Dir (f es)) T.
Proof. intros HT. unfold edit_dir. by rewrite HT. Qed.

Lemma same_refl T : same T T.
Proof. by intros i. Qed.
Lemma same_trans T T' T'' : same T T' → same T' T'' → same T T''.
Proof. intros H1 H2 i. by rewrite H2. Qed.
Lemma put_same i c T T' : same T T' → same (put i c T) (put i c T').
Proof. intros HT j. unfold put. by case_decide. Qed.
#[export] Hint Resolve same_refl : core.

Lemma bump_add i k l δ j : bump_at i k (bump_at i l δ) j = bump_at i (l + k) δ j.
Proof. unfold bump_at. case_decide; lia. Qed.
Lemma bump_zero i δ j : bump_at i 0 δ j = δ j.
Proof. unfold bump_at. case_decide; lia. Qed.
Lemma bump_ne i k δ j : j ≠ i → bump_at i k δ j = δ j.
Proof. intros Hj. unfold bump_at. by rewrite decide_False. Qed.

Section callbacks.
Context {K : Type} `{Libc} (clock : nat → SystemTime).
Abbreviation runs := (runs (H := unit) (D := unit) (K := K)).

Lemma contents_data δ ε V m i v c :
  tree_ok δ ε V m → V !! i = Some v → contents V m i = Some c →
  ∃ x, mem_heap m !! inner (v_payload v) = Some (mkRwLock false x) ∧ data_at V m i = Some x ∧ nd_content x = c.
Proof.
  intros Hok Hv. unfold contents. intros (x & Hx & ->)%fmap_Some. exists x. split_and!; [|done|done].
  apply (data_at_Some _ _ _ _ Hok) in Hx as (v' & Hv' & Hx). by assert (v' = v) as -> by congruence.
Qed.

Lemma contents_node V m i c : contents V m i = Some c → ∃ v, V !! i = Some v.
Proof. unfold contents, data_at. destruct (V !! i); [by eexists|done]. Qed.

(** Recording a name under a directory that does not have it. *)
Lemma runs_link_into d δ V m h parent name e t es x u (Q : unit → nodes → Mem → Prop) :
  (d < 999)%nat → tree_ok δ none V m → live V → names m ≤ h → h + 4 ≤ u32_max →
  contents V m parent = Some (Dir es) → es !! name = None → δ parent = 0 →
  V !! ent_id e = Some u → data_at V m (ent_id e) = Some x → nd_kind x = ent_kind e →
  (ent_kind e = Directory → v_parent u = parent ∧ refs (ent_id e) m + root_ref (ent_id e) = 0) →
  (∀ m', tree_ok (bump_at (ent_id e) (-1) δ) none V m' → names m' = names m + 1 →
     same (put parent (Dir (<[name := e]> es)) (contents V m)) (contents V m') →
     (∀ j, kind_at V m' j = kind_at V m j) → Q tt V m') →
  runs d (link_into parent name e t) Q V m.
Proof.
  intros Hd Hok Hlive Hn Hh HT Hname Hδ Hu Hx Hxk Hdir HQ.
  destruct (contents_node V m parent _ HT) as [v Hv].
  destruct (contents_data _ _ V m parent v _ Hok Hv HT) as (y & Hy & Haty & Hc).
  eapply runs_update; [done..|by eapply Hlive|done|].
  set (d' := touch t _).
  pose proof (nlink_bound _ _ V m parent v y Hok Hv Haty ltac:(lia)) as Hb. unfold none in Hb.
  assert (data_typed y) as Hty by by eapply data_at_typed.
  assert (0 ≤ nd_nlink y) as Hpos by (destruct Hty as (_ & _ & _ & Hty); int_lia).
  assert (nd_content d' = Dir (<[name:=e]> es)) as Hc'.
  { unfold d', touch, insert_entry. simpl. case_decide; by rewrite Hc. }
  assert (nd_kind d' = nd_kind y) as Hk' by (unfold d', insert_entry; simpl; case_decide; by rewrite Hc).
  assert (nd_nlink d' = nd_nlink y + is_dir e) as Hl'.
  { unfold d', touch, insert_entry, is_dir. simpl. case_decide; rewrite Hc; simpl; [apply as_u32_small; int_lia|lia]. }
  assert (data_typed d') as Ht'.
  { unfold d'. apply typed_touch. case_decide; [apply typed_inc|]; by apply typed_insert. }
  apply HQ.
  - eapply tree_ok_ext; [done| |by eapply (tree_insert_data δ none V m Hok parent v y es name e x u d')].
    intros j _. rewrite <- (bump_zero parent none j). f_equal. lia.
  - rewrite (names_set m _ _ _ Hy). simpl. rewrite (dir_content _ _ Hc'), (dir_content _ _ Hc).
    rewrite map_size_insert_None by done. lia.
  - rewrite <- Hc'. by eapply contents_set.
  - intros j. by eapply kinds_set.
Qed.

(** The runtime's nodes [V], and nodes [V1] whose parents may be ahead of them. *)
Definition agree (V V1 : nodes) : Prop := ∀ i, v_payload <$> V1 !! i = v_payload <$> V !! i.

Lemma agree_data V V1 m i : agree V V1 → data_at V1 m i = data_at V m i.
Proof.
  intros Ha. specialize (Ha i). unfold data_at. destruct (V1 !! i), (V !! i); simpl in *; try done. injection Ha as Ha. by rewrite Ha.
Qed.
Lemma agree_node V V1 i v : agree V V1 → V !! i = Some v → ∃ v1, V1 !! i = Some v1 ∧ v_payload v1 = v_payload v.
Proof. intros Ha Hv. specialize (Ha i). rewrite Hv in Ha. destruct (V1 !! i) as [v1|]; [|done]. exists v1. split; [done|]. by injection Ha. Qed.

Lemma expected_nonneg v x : 0 ≤ v_links v → 0 ≤ expected_nlink v x.
Proof.
  intros Hv. unfold expected_nlink, subdirs. pose proof (count_map_nonneg (λ e, ent_kind e = Directory) (dir_entries x)).
  repeat case_decide; lia.
Qed.

(** Attributes. *)
Lemma runs_quiet d V V1 δ ε m id v f k (Q : unit → nodes → Mem → Prop) :
  (d < 999)%nat → agree V V1 → live V → V !! id = Some v → tree_ok δ ε V1 m →
  (∀ x, data_typed x → nd_kind (f x) = nd_kind x ∧ nd_content (f x) = nd_content x ∧ data_typed (f x)) →
  (∀ x v1, V1 !! id = Some v1 → data_at V1 m id = Some x → nd_nlink x = expected_nlink v1 x + ε id →
     nd_nlink (f x) = nd_nlink x + k) →
  (∀ m', tree_ok δ (bump_at id k ε) V1 m' → names m' = names m → same (contents V1 m) (contents V1 m') →
     (∀ j, kind_at V1 m' j = kind_at V1 m j) → Q tt V m') →
  runs d (update id f) Q V m.
Proof.
  intros Hd Ha Hlive Hv Hok Hf Hk HQ. destruct (agree_node V V1 id v Ha Hv) as (v1 & Hv1 & Hp).
  destruct (t_cell _ _ _ _ Hok id v1 Hv1) as [x Hx].
  assert (data_at V1 m id = Some x) as Hatx by (apply (data_at_Some _ _ _ _ Hok); by exists v1).
  destruct (Hf x ltac:(by eapply data_at_typed)) as (Hk' & Hc' & Ht').
  assert (dir_entries (f x) = dir_entries x) as Hes by (unfold dir_entries; by rewrite Hc').
  eapply runs_update; [done|done|by eapply Hlive|rewrite <- Hp; exact Hx|]. rewrite <- Hp. apply HQ.
  - eapply tree_ok_ext; [done| |exact (tree_quiet _ _ V1 m Hok id v1 x (f x) Hv1 Hx Hk' Hes Ht')].
    intros j _. f_equal. pose proof (Hk x v1 Hv1 Hatx (t_nlink _ _ _ _ Hok id v1 x Hv1 Hatx)). lia.
  - by eapply names_quiet.
  - by eapply contents_quiet.
  - intros j. by eapply kinds_set.
Qed.

(** Writing the new name of a moved entry. *)
Definition after_old (old : option DirEntry) (δ : Z → Z) : Z → Z :=
  match old with Some o => bump_at (ent_id o) 1 δ | None => δ end.
Definition old_dir (old : option DirEntry) : Z := match old with Some o => is_dir o | None => 0 end.

Lemma runs_replace_entry d V V1 δ ε m np name e es u (Q : Result Errno (option DirEntry) → nodes → Mem → Prop) :
  (d < 999)%nat → agree V V1 → live V → tree_ok δ ε V1 m → contents V1 m np = Some (Dir es) →
  V1 !! ent_id e = Some u → kind_at V1 m (ent_id e) = Some (ent_kind e) →
  (∀ o, es !! name = Some o → ent_id o ≠ ent_id e) →
  (ent_kind e = Directory → v_parent u = np ∧ v_links u = δ (ent_id e)) →
  (∀ m', tree_ok (bump_at (ent_id e) (-1) (after_old (es !! name) δ))
       (bump_at np (old_dir (es !! name) - is_dir e) ε) V1 m' →
     names m' ≤ names m + 1 → same (put np (Dir (<[name := e]> es)) (contents V1 m)) (contents V1 m') →
     (∀ j, kind_at V1 m' j = kind_at V1 m j) → Q (Ok (es !! name)) V m') →
  runs d (replace_entry np name e) Q V m.
Proof.
  intros Hd Ha Hlive Hok HT Hu Hk Hold Hdir HQ.
  destruct (contents_node V1 m np _ HT) as [v1 Hv1].
  destruct (contents_data _ _ V1 m np v1 _ Hok Hv1 HT) as (y & Hy & Haty & Hc).
  assert (data_typed y) as Hty by by eapply data_at_typed.
  apply runs_with_get; [done| |]; cycle 1.
  { intros Hnone. specialize (Ha np). by rewrite Hv1, Hnone in Ha. }
  intros v Hv. split; [by eapply Hlive|]. destruct (agree_node V V1 np v Ha Hv) as (v1' & Hv1' & Hp).
  assert (v1' = v1) as -> by congruence. rewrite <- Hp.
  eapply runs_atomically. { unfold write. rewrite Hy. simpl. rewrite Hc. reflexivity. }
  set (y' := insert_entry name e y).
  assert (nd_content y' = Dir (<[name := e]> es)) as Hc' by (unfold y', insert_entry; by rewrite Hc).
  assert (nd_kind y' = nd_kind y) as Hk' by apply insert_entry_kind.
  assert (nd_nlink y' = nd_nlink y) as Hl' by apply insert_entry_nlink.
  assert (data_typed y') as Ht' by by apply typed_insert.
  assert (∀ j, kind_at V1 (set_lock (v_payload v1) (mkRwLock false y') m) j = kind_at V1 m j) as Hkinds by (intros j; by eapply kinds_set).
  apply HQ; [| |rewrite <- Hc'; by eapply contents_set|done].
  - assert (∃ x, data_at V1 m (ent_id e) = Some x ∧ nd_kind x = ent_kind e) as (x & Hx & Hxk).
    { unfold kind_at in Hk. by apply fmap_Some in Hk as (x & Hx & ->); eauto. }
    destruct (es !! name) as [o|] eqn:Ho; simpl.
    + set (y0 := remove_entry name y). set (m0 := set_lock (v_payload v1) (mkRwLock false y0) m).
      assert (nd_content y0 = Dir (delete name es)) as Hc0 by (unfold y0, remove_entry; by rewrite Hc).
      pose proof (tree_remove_data _ _ V1 m Hok np v1 y name o y0 Hv1 Hy ltac:(by rewrite (dir_content _ _ Hc))
        (dir_entries_remove _ _) (remove_entry_kind _ _) (typed_remove _ _ Hty)) as Hok0. fold m0 in Hok0.
      assert (kind_at V1 m0 (ent_id e) = Some (ent_kind e)) as Hk0.
      { rewrite <- Hk. eapply kinds_set; [exact Hok|done|done|apply remove_entry_kind]. }
      unfold kind_at in Hk0. apply fmap_Some in Hk0 as (x0 & Hx0 & Hxk0).
      pose proof (tree_insert_data _ _ V1 m0 Hok0 np v1 y0 (delete name es) name e x0 u y' Hv1 (lookup_set_lock _ _ _)
        Hc0 (lookup_delete_eq _ _) Hu Hx0 (eq_sym Hxk0)) as Hok1.
      unfold m0 in Hok1. rewrite set_lock_twice in Hok1.
      eapply tree_ok_ext; [done| |apply Hok1; try done].
      * intros j _. rewrite bump_add. f_equal. unfold y0. rewrite remove_entry_nlink. lia.
      * intros He. destruct (Hdir He) as [? Hlu]. split; [done|]. pose proof (t_links _ _ _ _ Hok0 _ _ Hu) as Hl.
        rewrite bump_ne in Hl by (intros Heq; by eapply Hold). fold m0. lia.
      * by rewrite Hc', insert_delete_eq.
      * rewrite Hk'. symmetry. apply remove_entry_kind.
    + pose proof (tree_insert_data _ _ V1 m Hok np v1 y es name e x u y' Hv1 Hy Hc Ho Hu Hx Hxk) as Hok1.
      eapply tree_ok_ext; [done| |apply Hok1; try done].
      * intros j _. f_equal. lia.
      * intros He. destruct (Hdir He) as [? Hlu]. split; [done|]. pose proof (t_links _ _ _ _ Hok _ _ Hu) as Hl. lia.
  - rewrite (names_set m _ _ _ Hy). simpl. rewrite (dir_content _ _ Hc'), (dir_content _ _ Hc).
    rewrite map_size_insert. destruct (es !! name); simpl; lia.
Qed.

Definition new_data (k : FileKind) (c : Content) (perm uid gid rdev : Z) (t : SystemTime) : NodeData :=
  mkNodeData k c perm uid gid rdev (if decide (k = Directory) then 2 else 1) t t t t ∅.

Lemma runs_new d k c perm uid gid rdev (Q : Node → nodes → Mem → Prop) V m :
  (∀ t, let d0 := new_data k c perm uid gid rdev t in
     Q (mkNode (mem_next m)) V
       (mkMem (<[mem_next m := mkRwLock false d0]> (mem_heap m)) (mem_next m + 1) (Datatypes.S (mem_tick m)))) →
  runs d (atomically (Node_new clock k c perm uid gid rdev)) Q V m.
Proof. intros HQ. by eapply runs_atomically; [|apply (HQ (clock (mem_tick m)))]. Qed.

(** Taking a name out of a directory. *)
Lemma runs_unname d V m parent name e es f k (Q : unit → nodes → Mem → Prop) :
  (d < 999)%nat → tree_ok none none V m → live V → contents V m parent = Some (Dir es) → es !! name = Some e →
  (∀ x, nd_content x = Dir es → data_typed x →
     nd_content (f x) = Dir (delete name es) ∧ nd_kind (f x) = nd_kind x ∧ data_typed (f x)) →
  (∀ x, data_at V m parent = Some x → nd_nlink (f x) - nd_nlink x + is_dir e = k) →
  (∀ m', tree_ok (bump_at (ent_id e) 1 none) (bump_at parent k none) V m' → names m' = names m - 1 →
     same (put parent (Dir (delete name es)) (contents V m)) (contents V m') →
     (∀ j, kind_at V m' j = kind_at V m j) →
     (ent_kind e = Directory → refs (ent_id e) m' + root_ref (ent_id e) = 0) → Q tt V m') →
  runs d (update parent f) Q V m.
Proof.
  intros Hd Hok Hlive HT Hname Hf Hk HQ. destruct (contents_node V m parent _ HT) as [v Hv].
  destruct (contents_data _ _ V m parent v _ Hok Hv HT) as (y & Hy & Haty & Hc).
  destruct (Hf y Hc ltac:(by eapply data_at_typed)) as (Hc' & Hk' & Ht').
  assert (dir_entries y !! name = Some e) as Hname' by by rewrite (dir_content _ _ Hc).
  eapply runs_update; [done..|by eapply Hlive|done|].
  pose proof (tree_remove_data _ _ V m Hok parent v y name e (f y) Hv Hy Hname'
    ltac:(by rewrite (dir_content _ _ Hc'), (dir_content _ _ Hc)) Hk' Ht') as Hok'.
  rewrite (Hk y Haty) in Hok'. apply HQ.
  - done.
  - rewrite (names_set m _ _ _ Hy). simpl. rewrite (dir_content _ _ Hc'), (dir_content _ _ Hc).
    rewrite map_size_delete, Hname. assert (size es ≠ 0%nat); [|lia].
    intros Hz%map_size_empty_inv. by rewrite Hz, lookup_empty in Hname.
  - rewrite <- Hc'. by eapply contents_set.
  - intros j. by eapply kinds_set.
  - intros He. destruct (t_entry _ _ _ _ Hok _ _ _ _ Hy Hname') as (x & Hx & Hxk).
    pose proof (t_dir _ _ _ _ Hok _ _ Hx ltac:(congruence)). pose proof (refs_pos m _ _ _ _ Hy Hname').
    apply (data_at_Some _ _ _ _ Hok) in Hx as (u & Hu & _).
    pose proof (t_links _ _ _ _ Hok _ _ Hu). pose proof (t_links _ _ _ _ Hok' _ _ Hu) as Hl.
    unfold bump_at, none in *. rewrite decide_True in Hl by done. unfold root_ref in *. case_decide; lia.
Qed.

(** A node that lost a name loses a link. *)
Definition lost_name (t : SystemTime) (k : FileKind) (x : NodeData) : NodeData :=
  set_ctime_ t (if decide (k = Directory) then set_nlink 0 x else dec_nlink x).

Lemma runs_lose_link {A} d ε V m id u k (f : NodeData → NodeData) t (p : prog Node Mem Empty_set A) Q :
  (d < 999)%nat → tree_ok (bump_at id 1 none) ε V m → live V → V !! id = Some u → ε id = 0 →
  (∀ x, f x = lost_name t k x) → kind_at V m id = Some k →
  (k = Directory → refs id m + root_ref id = 0 ∧ contents V m id = Some (Dir ∅)) →
  (∀ m', let V' := <[id := v_with_links (v_links u - 1) u]> V in
     tree_ok none ε V' m' → names m' = names m → same (contents V m) (contents V' m') → runs d p Q V' m') →
  runs d (update id f;; CxRemoveLink id p) Q V m.
Proof.
  intros Hd Hok Hlive Hu Hε Hf Hkind Hdir HQ. destruct (t_cell _ _ _ _ Hok id u Hu) as [x Hx].
  assert (data_at V m id = Some x) as Hatx by (apply (data_at_Some _ _ _ _ Hok); by exists u).
  assert (data_typed x) as Htx by by eapply data_at_typed.
  assert (nd_kind x = k) as Hxk by (unfold kind_at in Hkind; rewrite Hatx in Hkind; by injection Hkind). pose proof (t_links _ _ _ _ Hok id u Hu) as Hl.
  pose proof (t_nlink _ _ _ _ Hok id u x Hu Hatx) as Hn. rewrite Hε in Hn.
  pose proof (refs_nonneg m id). assert (0 ≤ root_ref id) by (unfold root_ref; case_decide; lia).
  unfold bump_at, none in Hl. rewrite decide_True in Hl by done.
  apply runs_bind. eapply runs_update; [done..|by eapply Hlive|done|]. rewrite Hf. set (x' := lost_name t k x).
  assert (data_typed x') as Htx'.
  { unfold x', lost_name. apply typed_ctime. case_decide; [by apply typed_zero|by apply typed_dec]. }
  assert (nd_kind x' = nd_kind x ∧ nd_content x' = nd_content x) as [Hk' Hc'] by (unfold x', lost_name; simpl; by case_decide).
  assert (dir_entries x' = dir_entries x) as Hes' by (unfold dir_entries; by rewrite Hc').
  pose proof (tree_quiet _ _ V m Hok id u x x' Hu Hx Hk' Hes' Htx') as Hok1.
  set (m1 := set_lock _ _ m) in *. apply runs_remove_link.
  rewrite (alter_insert_id _ id V u Hu). replace (Z.max 0 (v_links u - 1)) with (v_links u - 1) by lia.
  assert (data_at V m1 id = Some x') as Hat1.
  { unfold m1. rewrite (data_at_set _ _ V m Hok id u (mkRwLock false x) _ id Hu Hx). by rewrite decide_True. }
  set (u' := v_with_links _ u).
  pose proof (tree_counters _ _ V m1 Hok1 id u u' x' Hu Hat1 eq_refl eq_refl) as Hok2.
  apply HQ.
  - eapply tree_ok_ext; [| |exact Hok2]; intros j _.
    + rewrite bump_add. simpl. transitivity (bump_at id 0 none j); [f_equal; lia|apply bump_zero].
    + rewrite bump_add. transitivity (bump_at id 0 ε j); [|apply bump_zero]. f_equal.
      unfold expected_nlink in *. unfold subdirs in *. rewrite Hk', Hes', Hxk in *. unfold x', lost_name. simpl.
      destruct (decide (k = Directory)) as [Hk|Hk].
      * destruct (Hdir Hk) as [Hr HT]. unfold contents in HT. rewrite Hatx in HT. injection HT as HT.
        rewrite (dir_content _ _ HT), count_map_empty in *. simpl. rewrite decide_True in * by lia. rewrite decide_False by lia. lia.
      * simpl. int_lia.
  - eapply names_quiet; [done|]. done.
  - eapply same_trans; [by eapply contents_quiet|]. fold m1. intros j. unfold contents. f_equal.
    by apply data_at_insert with (v := u).
Qed.

(** [nlink -= 1] on a node whose [nlink] is behind. *)
Lemma dec_quiet x : data_typed x → nd_kind (dec_nlink x) = nd_kind x ∧ nd_content (dec_nlink x) = nd_content x ∧ data_typed (dec_nlink x).
Proof. intros Hx. split_and!; [done..|by apply typed_dec]. Qed.
Lemma inc_quiet x : data_typed x → nd_kind (inc_nlink x) = nd_kind x ∧ nd_content (inc_nlink x) = nd_content x ∧ data_typed (inc_nlink x).
Proof. intros Hx. split_and!; [done..|by apply typed_inc]. Qed.

Lemma agree_refl V : agree V V.
Proof. done. Qed.

Lemma links_nonneg δ ε V m i v : tree_ok δ ε V m → V !! i = Some v → 0 ≤ δ i → 0 ≤ v_links v.
Proof.
  intros Hok Hv Hδ. rewrite (t_links _ _ _ _ Hok i v Hv). pose proof (refs_nonneg m i). unfold root_ref. case_decide; lia.
Qed.

(** The end of a rename: the replaced node loses its link. *)
Lemma runs_rename_tail V1 m1 np old t (Q : Result Errno unit → nodes → Mem → Prop) :
  live V1 → is_Some (V1 !! np) → tree_ok (after_old old none) (bump_at np (old_dir old) none) V1 m1 →
  (∀ o, old = Some o → ∃ u, V1 !! ent_id o = Some u ∧ kind_at V1 m1 (ent_id o) = Some (ent_kind o) ∧
     (ent_kind o = Directory → v_links u = 1 ∧ contents V1 m1 (ent_id o) = Some (Dir ∅))) →
  (∀ V2 m2, tree_ok none none V2 m2 → names m2 = names m1 → same (contents V1 m1) (contents V2 m2) →
     (V2 = V1 ∨ ∃ i u k, V1 !! i = Some u ∧ V2 = <[i := v_with_links k u]> V1) → Q (Ok tt) V2 m2) →
  runs 0 (match old with Some o => drop_replaced np o t | None => Done tt end;; Done (Ok tt)) Q V1 m1.
Proof.
  intros Hlive [v Hv] Hok Hold HQ. destruct old as [o|]; cbn [after_old old_dir] in *; cycle 1.
  { apply runs_bind, runs_done, runs_done. apply HQ; [|done..|by left].
    eapply tree_ok_ext; [done| |exact Hok]. intros j _. apply bump_zero. }
  destruct (Hold o eq_refl) as (u & Hu & Hk & Hdir). clear Hold.
  apply runs_bind. unfold drop_replaced. apply runs_bind.
  assert (∀ m2, tree_ok (bump_at (ent_id o) 1 none) none V1 m2 → names m2 = names m1 →
    same (contents V1 m1) (contents V1 m2) → (∀ j, kind_at V1 m2 j = kind_at V1 m1 j) →
    runs 0 (update (ent_id o) (λ d, set_ctime_ t (if decide (ent_kind o = Directory) then set_nlink 0 d else dec_nlink d));;
      CxRemoveLink (ent_id o) (Done tt)) (λ a V' m', runs 0 ((λ _, Done (Ok tt)) a) Q V' m') V1 m2) as Hend.
  { intros m2 Hok2 Hn2 HT2 Hk2. eapply (runs_lose_link 0 none V1 m2 (ent_id o) u (ent_kind o) _ t); [lia|done|done|done|done|done| | |].
    - by rewrite Hk2.
    - intros Hd. destruct (Hdir Hd) as [Hl Hc]. split; [|by rewrite HT2].
      pose proof (t_links _ _ _ _ Hok2 _ _ Hu) as Hlu. unfold bump_at, none in Hlu. rewrite decide_True in Hlu by done. lia.
    - intros m3 V3 Hok3 Hn3 HT3. apply runs_done, runs_done. apply HQ; [done|congruence|by eapply same_trans|].
      right. by exists (ent_id o), u, (v_links u - 1). }
  unfold is_dir in Hok. case_decide as Hd.
  - eapply (runs_quiet 0 V1 V1 _ _ m1 np v _ (-1)); [lia|done|done|done|exact Hok|apply dec_quiet| |].
    + intros x v1 Hv1 _ Hn. assert (v1 = v) as -> by congruence. unfold bump_at at 1 in Hn. rewrite decide_True in Hn by done.
      pose proof (links_nonneg _ _ _ _ _ _ Hok Hv ltac:(unfold bump_at, none; case_decide; lia)).
      pose proof (expected_nonneg v x ltac:(done)). unfold none, dec_nlink in *. simpl. int_lia.
    + intros m2 Hok2 Hn2 HT2 Hk2. apply Hend; [|done..]. eapply tree_ok_ext; [done| |exact Hok2].
      intros j _. rewrite bump_add. apply bump_zero.
  - apply runs_done, Hend; [|done..]. eapply tree_ok_ext; [done| |exact Hok]. intros j _. apply bump_zero.
Qed.

(** The middle of a rename: a moved directory changes its parent. *)
Lemma runs_rename_move V V1 δ ε m1 h e parent np v vp u (Q : unit → nodes → Mem → Prop) :
  live V → V !! np = Some v → V !! parent = Some vp → V !! ent_id e = Some u →
  V1 = (if decide (ent_kind e = Directory ∧ parent ≠ np) then alter (v_with_parent np) (ent_id e) V else V) → live V1 → agree V V1 →
  tree_ok δ (bump_at np (ε - is_dir e) (bump_at parent (is_dir e) none)) V1 m1 →
  names m1 ≤ h → h + 4 ≤ u32_max → (∀ i, 0 ≤ δ i ≤ 1) → ε ≤ 1 →
  (∀ m2, tree_ok δ (bump_at np ε none) V1 m2 → names m2 = names m1 → same (contents V1 m1) (contents V1 m2) →
     (∀ j, kind_at V1 m2 j = kind_at V1 m1 j) → Q tt V1 m2) →
  runs 0 (if bool_decide (ent_kind e = Directory) && negb (parent =? np) then
    CxReparent (ent_id e) np (update parent dec_nlink;; update np inc_nlink) else Done tt) Q V m1.
Proof.
  intros Hlive Hv Hvp Hu HV1 Hlive1 Ha Hok Hn Hmax Hδ Hε HQ.
  destruct (Z.eqb_spec parent np) as [Heq|Hne].
  - rewrite andb_false_r. rewrite decide_False in HV1 by tauto. subst V1. apply runs_done, HQ; [|done..].
    eapply tree_ok_ext; [done| |exact Hok]. intros j _. rewrite Heq, bump_add. unfold bump_at. case_decide; lia.
  - case_bool_decide as Hk; cbn [andb negb]; cycle 1.
    + rewrite decide_False in HV1 by tauto. subst V1. apply runs_done, HQ; [|done..].
      eapply tree_ok_ext; [done| |exact Hok]. intros j _. unfold is_dir. rewrite decide_False by done.
      rewrite Z.sub_0_r. unfold bump_at. repeat case_decide; lia.
    + rewrite decide_True in HV1 by done. apply runs_reparent. rewrite <- HV1. unfold is_dir in Hok. rewrite decide_True in Hok by done.
      destruct (agree_node V V1 _ _ Ha Hv) as (v1 & Hv1 & _). destruct (agree_node V V1 _ _ Ha Hvp) as (vp1 & Hvp1 & _).
      apply runs_bind. eapply (runs_quiet 0 V1 V1 _ _ m1 parent vp1 _ (-1)); [lia|done..|exact Hok|apply dec_quiet| |].
      * intros x w Hw _ Hnl. unfold bump_at in Hnl. rewrite decide_False, decide_True in Hnl by done.
        pose proof (links_nonneg _ _ _ _ _ _ Hok Hw (proj1 (Hδ parent))).
        pose proof (expected_nonneg w x ltac:(done)). unfold none, dec_nlink in *. simpl. int_lia.
      * intros m2 Hok2 Hn2 HT2 Hk2.
        eapply (runs_quiet 0 V1 V1 _ _ m2 np v1 _ 1); [lia|done..|exact Hok2|apply inc_quiet| |].
        -- intros x w Hw Hx _. pose proof (nlink_bound _ _ _ _ _ _ _ Hok2 Hw Hx (proj1 (Hδ np))) as Hb. pose proof (Hδ np).
           unfold bump_at, none in Hb. rewrite decide_False, decide_True in Hb by done. rewrite decide_False in Hb by done.
           assert (0 ≤ nd_nlink x) by (pose proof (data_at_typed _ _ _ _ Hok2 _ _ Hx) as (_ & _ & _ & ?); int_lia).
           unfold inc_nlink. simpl. apply as_u32_small. int_lia.
        -- intros m3 Hok3 Hn3 HT3 Hk3. apply HQ; [|congruence|by eapply same_trans|by intros j; rewrite Hk3].
           eapply tree_ok_ext; [done| |exact Hok3]. intros j _. unfold bump_at, none. repeat case_decide; try congruence; lia.
Qed.

Section callback.
Context (self : MemoryFs) (h : Z) (V : nodes) (m : Mem).
Context (Hok : mem_ok h V m) (Hlive : live V) (Hh : 0 ≤ h) (Hmax : h + 4 ≤ u32_max).

Local Lemma unchanged : mem_ok (h + 1) V m.
Proof. eapply mem_ok_mono; [|done]. lia. Qed.
Local Lemma tree0 : tree_ok none none V m.
Proof. apply Hok. Qed.
Hint Resolve unchanged tree0 : core.

Lemma runs_create_child parent name k c perm rdev :
  kind_matches k c → content_fits c → (∀ es, c = Dir es → es = ∅) → 0 ≤ perm ≤ 4095 →
  runs 0 (create_child clock self parent name k c perm rdev)
    (λ r V' m', mem_ok (h + 1) V' m' ∧ live V' ∧ create_step (contents V m) (contents V' m') parent name k c r) V m.
Proof.
  intros Hkc Hfit Hempty Hperm. unfold create_step. apply runs_try. eapply runs_check_new_entry; [done..|lia|].
  destruct (new_entry_error (contents V m) parent name) as [[]|e] eqn:Hnew; [|done].
  unfold new_entry_error in Hnew. destruct (dir_at (contents V m) parent) as [es|] eqn:HT; [|done].
  apply dir_at_Ok in HT. case_decide as Hname; [done|]. apply eq_None_not_Some in Hname.
  apply runs_bind, runs_new. intros t0 d0. apply runs_insert. intros id g Hfresh.
  assert (V !! id = None) as Hid.
  { destruct (V !! id) as [v|] eqn:Hv; [|done]. specialize (Hfresh v eq_refl). by rewrite (Hlive id v) in Hfresh. }
  assert (dir_entries d0 = ∅) as Hes by (unfold dir_entries; simpl; destruct c; [by apply Hempty|done..]).
  assert (data_typed d0) as Ht0.
  { unfold data_typed. simpl. split_and!; try done; try lia. by case_decide. }
  set (t1 := Datatypes.S (mem_tick m)). set (V1 := <[id := _]> V).
  pose proof (tree_new none none V m tree0 id g parent d0 t1 Hid Hes Ht0 eq_refl eq_refl eq_refl) as Hok1.
  fold V1 in Hok1. set (m1 := mkMem _ _ t1) in Hok1 |- *.
  assert (same (put id c (contents V m)) (contents V1 m1)) as HT1.
  { intros j. unfold contents, put. unfold V1, m1. rewrite (data_at_new none none V m tree0 id g parent d0 t1 j). by case_decide. }
  assert (live V1) as Hlive1.
  { intros j v. unfold V1. rewrite lookup_insert. case_decide; [by intros [= <-]|apply Hlive]. }
  apply runs_bind, runs_now. intros t. apply runs_bind.
  assert (parent ≠ id) as Hne. { intros ->. apply contents_node in HT as [v Hv]. congruence. }
  assert (contents V1 m1 parent = Some (Dir es)) as HTp.
  { rewrite HT1. unfold put. by rewrite decide_False. }
  assert (V1 !! id = Some (mkRefNode (mkNode (mem_next m)) g 1 0 0 parent)) as Hu by apply lookup_insert_eq.
  assert (names (tick m1) = names m) as Hn1 by exact (names_new none none V m tree0 d0 t1 Hes).
  eapply (runs_link_into 0 (bump_at id 1 none) V1 (tick m1) h parent name (mkEntry id k) t es d0 _ _ ltac:(lia)
    (tree_tick _ _ _ _ Hok1 _) Hlive1).
  - rewrite Hn1. apply Hok.
  - lia.
  - done.
  - done.
  - by rewrite bump_ne.
  - exact Hu.
  - transitivity (data_at V1 m1 id); [done|]. unfold V1, m1. rewrite (data_at_new none none V m tree0 id g parent d0 t1 id). by rewrite decide_True.
  - done.
  - intros _. split; [done|]. pose proof (t_links _ _ _ _ Hok1 _ _ Hu) as Hl. simpl in Hl. unfold bump_at in Hl.
    rewrite decide_True in Hl by done. unfold none in Hl. simpl ent_id. change (refs id (tick m1)) with (refs id m1). lia.
  - intros m' Hok' Hn' HT' _. apply runs_done. split; [split_and!|split; [done|]].
    + eapply tree_ok_ext; [|done|exact Hok']. intros j _. simpl. rewrite bump_add. apply bump_zero.
    + intros j v. unfold V1. rewrite lookup_insert. case_decide; [|by apply unchanged].
      intros [= <-]. unfold counted. simpl. lia.
    + rewrite Hn1 in Hn'. destruct Hok as (_ & _ & ?). lia.
    + exists id. split; [done|]. split; [unfold contents, data_at; by rewrite Hid|].
      rewrite (edit_dir_put _ _ es) by done. eapply same_trans; [|exact HT']. intros j.
      change (contents V1 (tick m1)) with (contents V1 m1).
      unfold put at 1 3. rewrite HT1. unfold put. repeat case_decide; congruence.
Qed.

(** The target of a name, and the facts that the steps need of it. *)
Lemma find_entry_Ok parent name e :
  find_entry (contents V m) parent name = Ok e →
  ∃ es x u, contents V m parent = Some (Dir es) ∧ es !! name = Some e ∧
    data_at V m (ent_id e) = Some x ∧ kind_at V m (ent_id e) = Some (ent_kind e) ∧
    V !! ent_id e = Some u ∧ ent_id e ≠ ROOT.
Proof.
  unfold find_entry. destruct (dir_at _ parent) as [es|] eqn:HT; [|done]. apply dir_at_Ok in HT.
  destruct (es !! name) as [e'|] eqn:He; intros [= <-].
  destruct (contents_node V m parent _ HT) as [v Hv].
  destruct (contents_data _ _ V m parent v _ tree0 Hv HT) as (y & Hy & _ & Hc).
  assert (dir_entries y !! name = Some e') as He' by by rewrite (dir_content _ _ Hc).
  destruct (t_entry _ _ _ _ tree0 _ _ _ _ Hy He') as (x & Hx & Hxk).
  assert (∃ u, V !! ent_id e' = Some u) as [u Hu] by by apply (data_at_Some _ _ _ _ tree0) in Hx as (u & ? & _); eauto.
  exists es, x, u. split_and!; try done; [unfold kind_at; rewrite Hx; simpl; congruence|]. by eapply (entry_not_root _ _ _ _ tree0 _ _ _ _ Hy).
Qed.

Lemma mem_ok_links id u k ε m' :
  V !! id = Some u → tree_ok none ε (<[id := v_with_links k u]> V) m' → (∀ j, ε j = 0) → names m' ≤ h + 1 →
  mem_ok (h + 1) (<[id := v_with_links k u]> V) m'.
Proof.
  intros Hu Hok' Hε Hn. split_and!; [by eapply tree_ok_ext; [| |exact Hok']| |done].
  intros j v. rewrite lookup_insert. case_decide; [subst j|by apply unchanged].
  intros [= <-]. exact (proj1 (proj2 unchanged) id u Hu).
Qed.

Lemma runs_unlink parent name c :
  runs 0 (mem_unlink clock parent name c)
    (λ r V' m', mem_ok (h + 1) V' m' ∧ unlink_step (contents V m) (contents V' m') parent name r) V m.
Proof.
  unfold unlink_step. apply runs_try. eapply runs_entry; [done..|lia|].
  destruct (find_entry (contents V m) parent name) as [e|err] eqn:He; [|by auto].
  destruct (find_entry_Ok _ _ _ He) as (es & x & u & HT & Hname & Hx & Hxk & Hu & Hroot).
  apply runs_try. eapply runs_kind; [done..|lia|exact Hxk|]. cbn [ok_or].
  case_decide as Hk; [apply runs_done; by auto|]. apply runs_bind, runs_now. intros t. apply runs_bind.
  eapply (runs_unname 0 V (tick m) parent name e es _ 0); [lia|by apply tree_tick|done..| | |].
  - intros y Hc Hy. unfold touch, remove_entry. rewrite Hc. split_and!; [done..|].
    pose proof (typed_remove name y Hy) as Hr. unfold remove_entry in Hr. by rewrite Hc in Hr.
  - intros y _. unfold is_dir. rewrite decide_False by done. unfold touch. simpl. rewrite remove_entry_nlink. lia.
  - intros m1 Hok1 Hn1 HT1 Hk1 _. change (names (tick m)) with (names m) in Hn1.
    eapply (runs_lose_link 0 (bump_at parent 0 none) V m1 (ent_id e) u (ent_kind e) _ t); [lia|done..| | | | |].
    + apply bump_zero.
    + intros y. unfold lost_name. by rewrite decide_False.
    + by rewrite Hk1.
    + done.
    + intros m2 V2 Hok2 Hn2 HT2. apply runs_done. split.
      * apply (mem_ok_links _ _ _ _ _ Hu Hok2); [intros; apply bump_zero|]. destruct Hok as (_ & _ & ?). lia.
      * split; [done|]. rewrite (edit_dir_put _ _ es) by done. eapply same_trans; [exact HT1|exact HT2].
Qed.

Lemma runs_rmdir parent name c :
  runs 0 (mem_rmdir clock parent name c)
    (λ r V' m', mem_ok (h + 1) V' m' ∧ rmdir_step (contents V m) (contents V' m') parent name r) V m.
Proof.
  unfold rmdir_step. apply runs_try. eapply runs_entry; [done..|lia|].
  destruct (find_entry (contents V m) parent name) as [e|err] eqn:He; [|by auto].
  destruct (find_entry_Ok _ _ _ He) as (es & x & u & HT & Hname & Hx & Hxk & Hu & Hroot).
  cbv zeta. eapply runs_read_node; [done..|lia|]. rewrite Hx. unfold dir_at. unfold contents at 1 3. rewrite Hx. cbn [fmap option_fmap option_map].
  pose proof (data_at_typed _ _ _ _ tree0 _ _ Hx) as Htx. unfold kind_at in Hxk. rewrite Hx in Hxk. injection Hxk as Hxk.
  destruct (nd_content x) as [es'| | |] eqn:Hxc; [|by apply runs_done; auto..].
  case_decide as Hempty; [subst es'|by apply runs_done; auto].
  assert (ent_kind e = Directory) as Hk by (rewrite <- Hxk; apply (kind_content x Htx); by rewrite Hxc).
  apply runs_bind, runs_now. intros t. apply runs_bind.
  eapply (runs_unname 1 V (tick m) parent name e es _ 0); [lia|by apply tree_tick|done..| | |].
  - intros y Hc Hy. unfold touch, remove_entry. rewrite Hc. split_and!; [done..|].
    pose proof (typed_dec _ (typed_remove name y Hy)) as Hr. unfold remove_entry in Hr. by rewrite Hc in Hr.
  - intros y Hy. change (data_at V (tick m)) with (data_at V m) in Hy.
    destruct (contents_node V m parent _ HT) as [v Hv].
    destruct (contents_data _ _ V m parent v _ tree0 Hv HT) as (y' & _ & Hy' & Hyc). assert (y' = y) as -> by congruence.
    pose proof (t_nlink _ _ _ _ tree0 parent v y Hv Hy) as Hn. unfold expected_nlink, none, subdirs in Hn.
    rewrite (dir_content _ _ Hyc), decide_True in Hn by (apply kind_content; [by eapply data_at_typed|by rewrite Hyc]).
    pose proof (count_map_pos (λ e', ent_kind e' = Directory) es name e Hname Hk).
    unfold is_dir. rewrite decide_True by done. unfold touch, dec_nlink. simpl. rewrite remove_entry_nlink. case_decide; int_lia.
  - intros m1 Hok1 Hn1 HT1 Hk1 Hr1. change (names (tick m)) with (names m) in Hn1.
    eapply (runs_lose_link 1 (bump_at parent 0 none) V m1 (ent_id e) u Directory _ t); [lia|done..| | | | |].
    + apply bump_zero.
    + intros y. unfold lost_name. by rewrite decide_True.
    + rewrite Hk1. unfold kind_at. change (data_at V (tick m)) with (data_at V m). rewrite Hx. simpl. congruence.
    + intros _. split; [by apply Hr1|]. rewrite HT1. unfold put. case_decide as Heq.
      * exfalso. unfold contents in HT. rewrite <- Heq, Hx in HT. simpl in HT. rewrite Hxc in HT.
        injection HT as <-. by rewrite lookup_empty in Hname.
      * unfold contents. change (data_at V (tick m)) with (data_at V m). rewrite Hx. simpl. by rewrite Hxc.
    + intros m2 V2 Hok2 Hn2 HT2. apply runs_done. split.
      * apply (mem_ok_links _ _ _ _ _ Hu Hok2); [intros; apply bump_zero|]. destruct Hok as (_ & _ & ?). lia.
      * split; [done|]. rewrite (edit_dir_put _ _ es) by done. eapply same_trans; [exact HT1|exact HT2].
Qed.

Lemma links_pos δ ε m' i v : tree_ok δ ε V m' → V !! i = Some v → 0 ≤ δ i → 0 ≤ v_links v.
Proof.
  intros Hok' Hv Hδ. rewrite (t_links _ _ _ _ Hok' i v Hv). pose proof (refs_nonneg m' i). unfold root_ref. case_decide; lia.
Qed.

Lemma live_links i v k : 0 < k → live (<[i := v_with_links k v]> V).
Proof.
  intros Hk j u. rewrite lookup_insert. case_decide; [|apply Hlive]. intros [= <-]. unfold unreferenced. simpl.
  by destruct (Z.eqb_spec k 0); [lia|].
Qed.

Lemma runs_link id parent name c :
  runs 0 (mem_link clock id parent name c)
    (λ r V' m', mem_ok (h + 1) V' m' ∧ live V' ∧ link_step (contents V m) (contents V' m') id parent name r) V m.
Proof.
  unfold link_step. apply runs_try. eapply runs_kind; [done..|lia|reflexivity|].
  assert (contents V m id = nd_content <$> data_at V m id) as Hc by done. rewrite Hc. unfold kind_at at 1.
  destruct (data_at V m id) as [x|] eqn:Hx; cbn [fmap option_fmap option_map ok_or]; [|by auto].
  pose proof (kind_content x (data_at_typed _ _ _ _ tree0 _ _ Hx)) as Hkc.
  destruct (decide (nd_kind x = Directory)) as [Hk|Hk].
  { apply runs_done. apply Hkc in Hk. destruct (nd_content x); by auto. }
  assert (is_dir_content (nd_content x) = false) as Hnd by (destruct (is_dir_content _); naive_solver).
  set (G := λ r V' m', _). enough (runs 0 (prog_try (check_new_entry parent name) (λ _, now ← atomically (now clock);
     prog_try (kind id) (λ kind, link_into parent name (mkEntry id kind) now;;
       CxAddLink id (update id (λ d, set_ctime_ now (inc_nlink d));; Done (Ok id)))))
     (λ r V' m', mem_ok (h + 1) V' m' ∧ live V' ∧ match new_entry_error (contents V m) parent name with
      | Err e => r = Err e ∧ same (contents V m) (contents V' m')
      | Ok _ => r = Ok id ∧ ∃ k, same (edit_dir (<[name := mkEntry id k]>) parent (contents V m)) (contents V' m')
      end) V m) as Hgoal.
  { eapply runs_mono; [exact Hgoal|]. intros r V' m' HG. unfold G. destruct (nd_content x); try done. }
  clear G. apply runs_try. eapply runs_check_new_entry; [done..|lia|].
  destruct (new_entry_error (contents V m) parent name) as [[]|e] eqn:Hnew; [|by auto].
  unfold new_entry_error in Hnew. destruct (dir_at (contents V m) parent) as [es|] eqn:HT; [|done].
  apply dir_at_Ok in HT. destruct (decide _) as [|Hname] in Hnew; [done|]. apply eq_None_not_Some in Hname.
  apply runs_bind, runs_now. intros t. apply runs_try.
  eapply (runs_kind none none V (tick m) (tree_tick _ _ _ _ tree0 _) Hlive); [lia|exact (f_equal (fmap nd_kind) Hx)|]. cbn [fmap option_fmap option_map ok_or].
  assert (∃ u, V !! id = Some u) as [u Hu] by by apply (data_at_Some _ _ _ _ tree0) in Hx as (u & ? & _); eauto.
  apply runs_bind. eapply (runs_link_into 0 none V (tick m) h parent name (mkEntry id (nd_kind x)) t es x u);
    [lia|by apply tree_tick|done|by apply Hok|lia|done..|].
  simpl ent_id. intros m1 Hok1 Hn1 HT1 Hk1. change (names (tick m)) with (names m) in Hn1.
  assert (names m ≤ h) as Hn by apply Hok.
  pose proof (links_bound _ _ V m id u tree0 Hu) as Hb. pose proof (links_pos _ _ m id u tree0 Hu (Z.le_refl 0)) as Hb0. unfold none in Hb.
  eapply runs_add_link; [done|by eapply Hlive|int_lia|]. set (u' := v_with_links _ u).
  destruct (t_cell _ _ _ _ Hok1 id u Hu) as [y Hy].
  assert (data_at V m1 id = Some y) as Haty by (apply (data_at_Some _ _ _ _ Hok1); by exists u).
  assert (nd_kind y = nd_kind x) as Hyk.
  { specialize (Hk1 id). unfold kind_at in Hk1. change (data_at V (tick m)) with (data_at V m) in Hk1. rewrite Haty, Hx in Hk1. by injection Hk1. }
  assert (data_typed y) as Hty by by eapply data_at_typed.
  pose proof (t_nlink _ _ _ _ Hok1 id u y Hu Haty) as Hny. unfold none, expected_nlink in Hny. rewrite decide_False in Hny by congruence.
  assert (nd_nlink (inc_nlink y) = nd_nlink y + 1) as Hinc by (unfold inc_nlink; simpl; apply as_u32_small; int_lia).
  pose proof (tree_counters _ _ V m1 Hok1 id u u' y Hu Haty eq_refl eq_refl) as Hok2.
  apply runs_bind. set (V2 := <[id := u']> V) in *.
  assert (V2 !! id = Some u') as Hu2 by apply lookup_insert_eq.
  assert (live V2) as Hlive2 by (apply live_links; lia).
  eapply runs_update; [lia|exact Hu2|by eapply Hlive2|exact Hy|].
  pose proof (tree_quiet _ _ V2 m1 Hok2 id u' y (set_ctime_ t (inc_nlink y)) Hu2 Hy eq_refl eq_refl (typed_ctime t _ (typed_inc y Hty))) as Hok3.
  apply runs_done. split; [|split; [done|]].
  - apply (mem_ok_links id u _ (bump_at id 0 none)); [done| |intros; apply bump_zero|].
    + eapply tree_ok_ext; [| |exact Hok3]; intros j _; rewrite bump_add; [transitivity (bump_at id 0 none j); [f_equal|apply bump_zero]|f_equal].
      * unfold u'. simpl. lia.
      * unfold expected_nlink. rewrite !decide_False by congruence. simpl. simpl in Hinc. unfold u'. simpl. lia.
    + erewrite names_quiet; [|exact Hy|done]. lia.
  - split; [done|]. exists (nd_kind x). rewrite (edit_dir_put _ _ es) by done. eapply same_trans; [exact HT1|].
    eapply same_trans; [|by eapply contents_quiet]. intros j. unfold contents, V2. f_equal. by apply data_at_insert with (v := u).
Qed.

Lemma runs_check_replaced np newname e (Q : Result Errno bool → nodes → Mem → Prop) :
  Q (replace_error (contents V m) np newname e) V m →
  runs 0 (check_replaced np newname (ent_id e) (bool_decide (ent_kind e = Directory))) Q V m.
Proof.
  intros HQ. unfold check_replaced. apply runs_bind. eapply runs_entry; [done..|lia|].
  unfold replace_error in HQ. destruct (find_entry (contents V m) np newname) as [o|err] eqn:Ho;
    [|by case_decide; apply runs_done].
  destruct (find_entry_Ok _ _ _ Ho) as (es & x & u & HT & Hname & Hx & _).
  destruct (decide (ent_id o = ent_id e)); [by apply runs_done|].
  assert (contents V m (ent_id o) = Some (nd_content x)) as Hc by (unfold contents; by rewrite Hx).
  rewrite Hc in HQ. eapply runs_read_node; [done..|lia|]. rewrite Hx.
  destruct (nd_content x); case_bool_decide as Hk; simpl;
    destruct (decide (ent_kind e = Directory)); try done; try case_decide; by apply runs_done.
Qed.

(** The moved directory, with its new parent. *)
Definition moved (e : DirEntry) (parent np : NodeId) : nodes :=
  if decide (ent_kind e = Directory ∧ parent ≠ np) then alter (v_with_parent np) (ent_id e) V else V.

Lemma agree_moved e parent np : agree V (moved e parent np).
Proof.
  intros i. unfold moved. case_decide; [|done]. destruct (decide (ent_id e = i)) as [->|Hi].
  - rewrite lookup_alter_eq. by destruct (V !! i).
  - by rewrite lookup_alter_ne.
Qed.

Lemma moved_node e parent np i v :
  V !! i = Some v → ∃ v1, moved e parent np !! i = Some v1 ∧ v_links v1 = v_links v ∧
    v_lookups v1 = v_lookups v ∧ v_opens v1 = v_opens v.
Proof.
  intros Hv. unfold moved. case_decide; [|by exists v]. destruct (decide (ent_id e = i)) as [->|Hi].
  - rewrite lookup_alter_eq, Hv. by eexists.
  - rewrite lookup_alter_ne by done. by exists v.
Qed.

Lemma moved_back e parent np i v1 :
  moved e parent np !! i = Some v1 → ∃ v, V !! i = Some v ∧ v_links v1 = v_links v ∧
    v_lookups v1 = v_lookups v ∧ v_opens v1 = v_opens v.
Proof.
  intros Hv1. pose proof (agree_moved e parent np i) as Ha. rewrite Hv1 in Ha.
  destruct (V !! i) as [v|] eqn:Hv; [|done]. destruct (moved_node e parent np i v Hv) as (v' & Hv' & ?). exists v.
  split; [done|]. by assert (v' = v1) as <- by congruence.
Qed.

Lemma live_moved e parent np : live (moved e parent np).
Proof.
  intros i v1 Hv1. destruct (moved_back _ _ _ _ _ Hv1) as (v & Hv & Hl & Hk & Ho).
  unfold unreferenced. rewrite Hl, Hk, Ho. by apply (Hlive i).
Qed.

Lemma moved_counted e parent np : map_Forall (λ _, counted (h + 1)) (moved e parent np).
Proof.
  intros i v1 Hv1. destruct (moved_back _ _ _ _ _ Hv1) as (v & Hv & Hl & Hk & Ho).
  pose proof (proj1 (proj2 unchanged) i v Hv) as Hc. unfold counted in *. simpl in Hc. by rewrite Hk, Ho.
Qed.

(** POSIX: the error numbers are distinct. *)
Context (Herrno : ENOTDIR ≠ ENOENT).

Lemma replace_error_go np newname e :
  is_Some (V !! np) → replace_error (contents V m) np newname e = Ok false →
  ∃ es, contents V m np = Some (Dir es) ∧ ∀ o, es !! newname = Some o → ent_id o ≠ ent_id e ∧
    ∃ u, V !! ent_id o = Some u ∧ kind_at V m (ent_id o) = Some (ent_kind o) ∧
      (ent_kind o = Directory → contents V m (ent_id o) = Some (Dir ∅)).
Proof.
  intros [v Hv] Hgo. destruct (data_at_live _ _ _ _ tree0 np v Hv) as [y Hy].
  unfold replace_error in Hgo. destruct (find_entry (contents V m) np newname) as [o|err] eqn:Ho; cycle 1.
  - unfold find_entry, dir_at in Ho. unfold contents in Ho at 1. rewrite Hy in Ho. cbn [fmap option_fmap option_map] in Ho.
    case_decide as Herr; [|done]. destruct (nd_content y) as [es| | |] eqn:Hc;
      [|exfalso; injection Ho as Ho; rewrite <- Ho in Herr; done..].
    exists es. split; [unfold contents; rewrite Hy; simpl; congruence|].
    intros o' Ho'. by rewrite Ho' in Ho.
  - destruct (find_entry_Ok _ _ _ Ho) as (es & x & u & HT & Hname & Hx & Hk & Hu & _). exists es. split; [done|].
    intros o' Ho'. assert (o' = o) as -> by congruence. case_decide as Hid; [done|]. split; [done|]. exists u.
    split_and!; [done..|]. intros Hd. unfold contents in *. rewrite Hx in *. cbn [fmap option_fmap option_map] in *.
    pose proof (kind_content x (data_at_typed _ _ _ _ tree0 _ _ Hx)) as Hkc. unfold kind_at in Hk. rewrite Hx in Hk. simpl in Hk.
    destruct (nd_content x) eqn:Hc; [|injection Hk as Hk; rewrite Hk, Hd in Hkc; simpl in Hkc; naive_solver..].
    repeat case_decide; try done. by subst.
Qed.

Lemma runs_rename parent name np newname flags c :
  is_Some (V !! np) →
  runs 0 (mem_rename clock parent name np newname flags c)
    (λ r V' m', mem_ok (h + 1) V' m' ∧ rename_step (contents V m) (contents V' m') parent name np newname r) V m.
Proof.
  intros Hnp. unfold rename_step. apply runs_try. eapply runs_entry; [done..|lia|].
  destruct (find_entry (contents V m) parent name) as [e|err] eqn:He; [|by auto].
  destruct (find_entry_Ok _ _ _ He) as (es & x & u & HT & Hname & Hx & Hxk & Hu & Hroot).
  apply runs_try. eapply runs_kind; [done..|lia|exact Hxk|]. cbn [ok_or].
  apply runs_try, runs_check_replaced.
  destruct (replace_error (contents V m) np newname e) as [[|]|err] eqn:Hre; [by apply runs_done; auto| |by auto].
  destruct (replace_error_go np newname e Hnp Hre) as (es2 & HT2 & Hold).
  apply runs_bind, runs_now. intros t. apply runs_bind.
  eapply (runs_unname 0 V (tick m) parent name e es _ (is_dir e)); [lia|by apply tree_tick|done..| | |].
  { intros y Hc Hy. unfold touch, remove_entry. rewrite Hc. split_and!; [done..|].
    pose proof (typed_remove name y Hy) as Hr. unfold remove_entry in Hr. by rewrite Hc in Hr. }
  { intros y _. unfold touch. simpl. rewrite remove_entry_nlink. lia. }
  intros m1 Hok1 Hn1 HT1 Hk1 Hr1. change (names (tick m)) with (names m) in Hn1.
  change (contents V (tick m)) with (contents V m) in HT1. change (kind_at V (tick m)) with (kind_at V m) in Hk1.
  set (V1 := moved e parent np). assert (agree V V1) as Ha by apply agree_moved.
  assert (live V1) as Hlive1 by apply live_moved.
  assert (∀ j, contents V1 m1 j = contents V m1 j) as HTV by (intros j; unfold contents; by rewrite (agree_data V V1)).
  assert (∀ j, kind_at V1 m1 j = kind_at V m j) as HkV by (intros j; rewrite <- Hk1; unfold kind_at; by rewrite (agree_data V V1)).
  assert (tree_ok (bump_at (ent_id e) 1 none) (bump_at parent (is_dir e) none) V1 m1) as Hok1'.
  { unfold V1, moved. case_decide as Hmv; [|done]. rewrite (alter_insert_id _ _ _ _ Hu). apply tree_reparent; [done..|].
    pose proof (Hr1 (proj1 Hmv)). unfold root_ref in *. rewrite decide_False in * by done. lia. }
  set (es2' := if decide (np = parent) then delete name es else es2).
  assert (contents V1 m1 np = Some (Dir es2')) as HT2'.
  { rewrite HTV, HT1. unfold put, es2'. by case_decide. }
  assert (es2' !! newname = es2 !! newname) as Hnew.
  { unfold es2'. case_decide as Heq; [|done]. subst np. assert (es2 = es) as -> by congruence.
    apply lookup_delete_ne. intros ->. destruct (Hold e Hname) as [? _]. done. }
  destruct (moved_node e parent np _ _ Hu) as (u1 & Hu1 & _). fold V1 in Hu1.
  pose proof (t_links _ _ _ _ Hok1' _ _ Hu1) as Hl1. unfold bump_at, none in Hl1. rewrite decide_True in Hl1 by done.
  apply runs_try. rewrite (surjective_entry e).
  eapply (runs_replace_entry 0 V V1 _ _ m1 np newname e es2' u1); [lia|done|done|exact Hok1'|done|done|by rewrite HkV| | |].
  { rewrite Hnew. intros o Ho. by apply Hold. }
  { intros Hd. split; [|unfold bump_at; rewrite decide_True by done; rewrite Hl1; specialize (Hr1 Hd); change (refs (ent_id e) m1 + root_ref (ent_id e) + (0 + 1) = 0 + 1); lia].
    unfold V1, moved in Hu1. case_decide as Hmv.
    - rewrite lookup_alter_eq, Hu in Hu1. by injection Hu1 as <-.
    - assert (u1 = u) as -> by congruence. assert (parent = np) as <- by (destruct (decide (parent = np)); naive_solver).
      destruct (contents_node V m parent _ HT) as [vp Hvp].
      destruct (contents_data _ _ V m parent vp _ tree0 Hvp HT) as (yp & _ & Hyp & Hcp).
      destruct (t_parent _ _ _ _ tree0 parent yp name e Hyp) as (w & Hw & Hpar); [by rewrite (dir_content _ _ Hcp)|done|].
      by assert (w = u) as <- by congruence. }
  rewrite Hnew. set (old := es2 !! newname). intros m2 Hok2 Hn2 HT2m Hk2.
  assert (∀ j, bump_at (ent_id e) (-1) (after_old old (bump_at (ent_id e) 1 none)) j = after_old old none j) as Hδ.
  { intros j. destruct old as [o|]; simpl; unfold bump_at, none; repeat case_decide; lia. }
  assert (tree_ok (after_old old none) (bump_at np (old_dir old - is_dir e) (bump_at parent (is_dir e) none)) V1 m2) as Hok2'.
  { by eapply tree_ok_ext; [| |exact Hok2]. }
  destruct Hnp as [vnp Hvnp]. destruct (contents_node V m parent _ HT) as [vp Hvp].
  assert (names m ≤ h) as Hnm by apply Hok.
  apply runs_bind. eapply (runs_quiet 0 V V1 _ _ m2 np vnp _ 0); [lia|done|done|done|exact Hok2'|by intros| |].
  { intros y w _ _ _. simpl. lia. }
  intros m3 Hok3 Hn3 HT3 Hk3. apply runs_bind.
  eapply (runs_rename_move V V1 (after_old old none) (old_dir old) m3 h e parent np vnp vp u);
    [done..| |lia|done| | |].
  { eapply tree_ok_ext; [done| |exact Hok3]. intros j _. apply bump_zero. }
  { intros i. destruct old; simpl; unfold bump_at, none; [case_decide; lia|lia]. }
  { unfold old_dir, is_dir. destruct old; [case_decide; lia|lia]. }
  intros m4 Hok4 Hn4 HT4 Hk4. destruct (agree_node V V1 _ _ Ha Hvnp) as (vnp1 & Hvnp1 & _).
  eapply (runs_rename_tail V1 m4 np old t); [done|by eexists|done| |].
  - intros o Ho. destruct (Hold o Ho) as (Hoid & uo & Huo & Hok_ & Hdo).
    destruct (moved_node e parent np _ _ Huo) as (uo1 & Huo1 & Hlo & _). fold V1 in Huo1. exists uo1.
    split_and!; [done|by rewrite Hk4, Hk3, Hk2, HkV|]. intros Hd. specialize (Hdo Hd).
    assert (∃ xo, data_at V m (ent_id o) = Some xo ∧ nd_kind xo = Directory) as (xo & Hxo & Hxok).
    { unfold kind_at in Hok_. apply fmap_Some in Hok_ as (xo & Hxo & ?). exists xo. split; [done|]. congruence. }
    pose proof (t_dir _ _ _ _ tree0 _ _ Hxo Hxok). pose proof (t_links _ _ _ _ tree0 _ _ Huo) as Hlu. unfold none in Hlu.
    destruct (contents_data _ _ V m np vnp _ tree0 Hvnp HT2) as (ynp & Hynp & _ & Hcnp).
    pose proof (refs_pos m (inner (v_payload vnp)) _ newname o Hynp ltac:(by simpl; rewrite (dir_content _ _ Hcnp))).
    assert (0 ≤ root_ref (ent_id o)) by (unfold root_ref; case_decide; lia).
    split; [lia|]. rewrite HT4, HT3, HT2m. unfold put. case_decide as Heq; cycle 1.
    + rewrite HTV, HT1. unfold put. case_decide as Heq2; [|done]. exfalso.
      assert (es = ∅) as -> by (rewrite Heq2 in Hdo; congruence). by rewrite lookup_empty in Hname.
    + exfalso. assert (es2 = ∅) as Hes2 by (rewrite Heq in Hdo; congruence). unfold old in Ho. by rewrite Hes2, lookup_empty in Ho.
  - intros V5 m5 Hok5 Hn5 HT5 HV5. split; [split_and!|].
    + done.
    + destruct HV5 as [->|(i & w & k & Hw & ->)]; [apply moved_counted|].
      intros j v. rewrite lookup_insert. case_decide; [subst j|by apply moved_counted].
      intros [= <-]. exact (moved_counted e parent np i w Hw).
    + lia.
    + split; [done|]. rewrite (edit_dir_put _ parent es) by done.
      rewrite (edit_dir_put _ np es2') by (unfold put, es2'; case_decide; done).
      intros j. rewrite HT5, HT4, HT3, HT2m. unfold put at 1 2. case_decide; [done|]. by rewrite HTV, HT1.
Qed.
End callback.
End callbacks.
