(* ===== verification/MemoryData.v ===== *)
(** * Contents and attributes in the in-memory filesystem

    The callbacks on one node: the bytes that reads return and writes leave,
    against plain operations on lists, and the attributes. *)

From S2P Require Import Prelude Types Std NodeTable NodeFs Reference RefMono RefLogic MemoryFs MemoryInv MemoryTree MemoryOps.

(** ** Bytes *)
Definition content_size (c : Content) : Z :=
  match c with File v => Z.of_nat (length v) | Sym t => Z.of_nat (String.length t) | _ => 0 end.

(** [data] over the bytes from [offset] on; a gap is filled with zeros. *)
Definition splice (v : bytes) (offset : Z) (data : bytes) : bytes :=
  resize (Z.to_nat offset) 0 v ++ data ++ drop (Z.to_nat offset + length data) v.

Lemma read_content_spec v offset size :
  0 ≤ offset → 0 ≤ size → offset + size ≤ u64_max → Z.of_nat (length v) ≤ i64_max →
  read_content v offset size = Some (bytes_at v offset size).
Proof.
  intros Ho Hs Hmax Hv. unfold read_content. rewrite !as_u64_small by int_lia.
  destruct (Z.leb_spec (Z.of_nat (length v)) offset) as [Hle|Hlt]; [by rewrite bytes_beyond|by apply slice_min].
Qed.

Lemma copy_from_slice_at (v : bytes) offset data :
  0 ≤ offset → offset + Z.of_nat (length data) ≤ Z.of_nat (length v) →
  copy_from_slice v offset (offset + Z.of_nat (length data)) data =
    Some (take (Z.to_nat offset) v ++ data ++ drop (Z.to_nat offset + length data) v).
Proof.
  intros Ho Hv. unfold copy_from_slice, slice. rewrite !(proj2 (Z.leb_le _ _)) by lia. simpl.
  rewrite length_take, length_drop, (proj2 (Nat.eqb_eq _ _)) by lia. do 4 f_equal. lia.
Qed.

Lemma write_content_spec v data offset :
  0 ≤ offset → offset + Z.of_nat (length data) ≤ i64_max → Z.of_nat (length v) ≤ i64_max →
  write_content v data offset = Some (splice v offset data).
Proof.
  intros Ho Hmax Hv. unfold write_content, splice. rewrite !as_u64_small by int_lia.
  destruct (Z.ltb_spec (Z.of_nat (length v)) (offset + Z.of_nat (length data))) as [Hlt|Hge].
  - unfold vec_resize. rewrite (proj2 (Z.ltb_ge _ _)) by lia.
    rewrite copy_from_slice_at by (rewrite ?length_resize; lia). f_equal.
    rewrite take_resize_le by lia. rewrite (drop_ge v) by lia. by rewrite drop_ge by (rewrite length_resize; lia).
  - rewrite copy_from_slice_at by lia. by rewrite resize_le by lia.
Qed.

(** ** Running *)
Section data.
Context {K : Type} `{Libc} (clock : nat → SystemTime).
Abbreviation runs := (runs (H := unit) (D := unit) (K := K)).
Context (h : Z) (V : nodes) (m : Mem) (Hok : mem_ok h V m) (Hlive : live V).

Lemma mem_ok_typed : mem_typed m.
Proof. intros a l Hl. destruct Hok as (Ht & _). by destruct (t_heap _ _ _ _ Ht _ _ Hl) as (_ & _ & ?). Qed.

Lemma keeps_result {E A} (f : M Mem A) a m' :
  keeps mem_typed (atomically f : prog Node Mem E A) → f m = (Returned a, m') → mem_typed m'.
Proof. intros Hk Hf. apply (Hk m (Some a) m' mem_ok_typed). by rewrite Hf. Qed.

Lemma node_data i v : V !! i = Some v → ∃ x, mem_heap m !! inner (v_payload v) = Some (mkRwLock false x) ∧
  data_at V m i = Some x ∧ contents V m i = Some (nd_content x) ∧ data_typed x.
Proof.
  intros Hv. destruct Hok as (Ht & _). destruct (t_cell _ _ _ _ Ht i v Hv) as [x Hx]. exists x.
  assert (data_at V m i = Some x) as Hat by (apply (data_at_Some _ _ _ _ Ht); by exists v).
  split_and!; [done..|unfold contents; by rewrite Hat|by eapply data_at_typed].
Qed.

Lemma quiet_write i v x x' t :
  V !! i = Some v → mem_heap m !! inner (v_payload v) = Some (mkRwLock false x) →
  nd_kind x' = nd_kind x → dir_entries x' = dir_entries x → nd_nlink x' = nd_nlink x → data_typed x' →
  let m' := set_lock (v_payload v) (mkRwLock false x') (mkMem (mem_heap m) (mem_next m) t) in
  mem_ok (h + 1) V m' ∧ same (put i (nd_content x') (contents V m)) (contents V m').
Proof.
  intros Hv Hx Hk He Hl Ht'. set (m0 := mkMem (mem_heap m) (mem_next m) t). destruct Hok as (Ht & Hc & Hn).
  pose proof (tree_tick _ _ _ _ Ht t) as Ht0. fold m0 in Ht0. split; [split_and!|].
  - eapply tree_ok_ext; [done| |exact (tree_quiet _ _ V m0 Ht0 i v x x' Hv Hx Hk He Ht')].
    intros j _. rewrite Hl, Z.sub_diag. apply bump_zero.
  - intros j w Hw. eapply counted_mono; [|by apply (Hc j)]. lia.
  - erewrite names_quiet; [|exact Hx|done]. change (names m0) with (names m). lia.
  - exact (contents_set _ _ V m0 Ht0 i v x x' Hv Hx).
Qed.

(** A read guard. *)
Lemma runs_read_at d i v {A} (k : NodeData → prog Node Mem Empty_set A) (Q : A → nodes → Mem → Prop) :
  V !! i = Some v →
  (∀ x, data_at V m i = Some x → contents V m i = Some (nd_content x) → data_typed x → runs d (k x) Q V m) →
  runs d (x ← atomically (read (v_payload v)); k x) Q V m.
Proof.
  intros Hv Hk. destruct (node_data i v Hv) as (x & Hx & Hat & HT & Ht). apply runs_bind.
  eapply runs_read_lock; [exact Hx|]. by apply Hk.
Qed.

(** A write guard around a body that keeps the node's kind, names and [nlink]. *)
Lemma runs_write_at {A} d i v (body : NodeData → M Mem (A * NodeData)) (Q : A → nodes → Mem → Prop) :
  V !! i = Some v → keeps mem_typed (atomically (write (v_payload v) body) : prog Node Mem Empty_set A) →
  (∀ x, contents V m i = Some (nd_content x) → data_typed x →
     ∃ a x' t, body x m = (Returned (a, x'), mkMem (mem_heap m) (mem_next m) t) ∧
       nd_kind x' = nd_kind x ∧ dir_entries x' = dir_entries x ∧ nd_nlink x' = nd_nlink x ∧
       ∀ m', mem_ok (h + 1) V m' → same (put i (nd_content x') (contents V m)) (contents V m') → Q a V m') →
  runs d (atomically (write (v_payload v) body)) Q V m.
Proof.
  intros Hv Hkeeps Hb. destruct (node_data i v Hv) as (x & Hx & Hat & HT & Ht).
  destruct (Hb x HT Ht) as (a & x' & t & Hbody & Hk & He & Hl & HQ).
  assert (write (v_payload v) body m =
    (Returned a, set_lock (v_payload v) (mkRwLock false x') (mkMem (mem_heap m) (mem_next m) t))) as Hw.
  { unfold write. rewrite Hx. simpl. by rewrite Hbody. }
  assert (data_typed x') as Ht'.
  { apply (keeps_result _ _ _ Hkeeps Hw (inner (v_payload v)) (mkRwLock false x')). apply lookup_set_lock. }
  eapply runs_atomically; [exact Hw|]. destruct (quiet_write i v x x' t Hv Hx Hk He Hl Ht'). by apply HQ.
Qed.

Lemma put_id i c : contents V m i = Some c → same (contents V m) (put i c (contents V m)).
Proof. intros Hc j. unfold put. case_decide; [by subst j|done]. Qed.

(** *** [setattr] *)
Definition resized (set : SetAttr) (c : Content) : Content :=
  match set_size set, c with Some n, File v => File (resize (Z.to_nat n) 0 v) | _, _ => c end.
Definition size_fits (set : SetAttr) : Prop :=
  match set_size set with Some n => n ≤ i64_max | None => True end.

Lemma apply_keeps {A B} (π : NodeData → B) (o : option A) f p :
  (∀ a d, π (f a d) = π d) → π (apply o f p).1 = π p.1.
Proof. intros Hf. destruct o; [apply Hf|done]. Qed.

Lemma runs_setattr d i v hd set c :
  V !! i = Some v → size_fits set →
  runs d (mem_setattr clock (v_payload v) hd set c)
    (λ r V' m', V' = V ∧ mem_ok (h + 1) V m' ∧ ∃ c0 a, contents V m i = Some c0 ∧ r = Ok a ∧
       attr_size a = content_size (resized set c0) ∧ same (put i (resized set c0) (contents V m)) (contents V m')) V m.
Proof.
  intros Hv Hsize. apply (runs_write_at d i v); [done|exact (keeps_setattr clock _ hd set c)|]. intros x HT Htx.
  set (t := clock (mem_tick m)). unfold mbind, M_bind, now, mret, M_ret. cbn beta iota zeta.
  set (st := apply (set_gid set) set_gid_ (apply (set_uid set) set_uid_
    (apply (set_mode set) (λ mode, set_perm (mode_bits mode)) (x, false)))).
  assert (∀ {B} (π : NodeData → B), (∀ a d, π (set_gid_ a d) = π d) → (∀ a d, π (set_uid_ a d) = π d) →
    (∀ a d, π (set_perm a d) = π d) → π st.1 = π x) as Hst.
  { intros B π H1 H2 H3. unfold st. rewrite apply_keeps by done. rewrite apply_keeps by done. by rewrite apply_keeps. }
  set (fin := λ st' : NodeData * bool, let '(node, changed) := apply (set_mtime set) (λ x, set_mtime_ (time_or_now x t))
       (apply (set_atime set) (λ x, set_atime_ (time_or_now x t)) st') in
     match set_ctime set with Some ctime => set_ctime_ ctime node | None => if changed then set_ctime_ t node else node end).
  assert (∀ {B} (π : NodeData → B) st', (∀ a d, π (set_atime_ a d) = π d) → (∀ a d, π (set_mtime_ a d) = π d) →
    (∀ a d, π (set_ctime_ a d) = π d) → π (fin st') = π st'.1) as Hfin.
  { intros B π st' H1 H2 H3. unfold fin.
    assert (π (apply (set_mtime set) (λ x, set_mtime_ (time_or_now x t))
       (apply (set_atime set) (λ x, set_atime_ (time_or_now x t)) st')).1 = π st'.1) as Hx.
    { rewrite apply_keeps by done. by rewrite apply_keeps. }
    destruct (apply (set_mtime set) _ _) as [y ch]. simpl in Hx.
    destruct (set_ctime set); [by rewrite H3|]. destruct ch; by rewrite ?H3. }
  assert (nd_content st.1 = nd_content x) as Hc by by apply Hst.
  assert (∃ st', nd_content st'.1 = resized set (nd_content x) ∧ nd_kind st'.1 = nd_kind x ∧ nd_nlink st'.1 = nd_nlink x ∧
    match set_size set with
    | Some size =>
        match nd_content st.1 with
        | File content => λ s, let (o, w') := unwrap (vec_resize content size) s in
            match o with
            | Returned a => (Returned (set_content (File a) st.1, true), w')
            | Panicked => (Panicked, w') | Blocked => (Blocked, w') end
        | _ => λ s, (Returned (st.1, true), s)
        end
    | None => λ s, (Returned st, s)
    end = λ s : Mem, (Returned st', s)) as (st' & Hc' & Hk' & Hl' & Hrun).
  { rewrite Hc. unfold resized, size_fits in *. destruct (set_size set) as [n|]; [|exists st; split_and!; [done..|by apply Hst|by apply Hst|done]].
    destruct (nd_content x) eqn:Hcx; [exists (st.1, true)| |exists (st.1, true)..];
      try (split_and!; [done|by apply Hst|by apply Hst|done]).
    exists (set_content (File (resize (Z.to_nat n) 0 content)) st.1, true). split_and!; [done|by apply Hst|by apply Hst|].
    unfold unwrap, vec_resize. rewrite (proj2 (Z.ltb_ge _ _)) by done. done. }
  exists (Ok (nd_attr (fin st'))), (fin st'), (Datatypes.S (mem_tick m)). split.
  { match goal with |- (let (_, _) := ?X in _) = _ => assert (X = (Returned st', mkMem (mem_heap m) (mem_next m) (Datatypes.S (mem_tick m)))) as -> end.
    { exact (f_equal (λ g, g _) Hrun). }
    unfold fin. by destruct (apply (set_mtime set) _ _). }
  assert (nd_content (fin st') = resized set (nd_content x)) as Hcf by (rewrite <- Hc'; by apply Hfin).
  split_and!; [rewrite <- Hk'; by apply Hfin| |rewrite <- Hl'; by apply Hfin|].
  { unfold dir_entries. rewrite Hcf. unfold resized. destruct (set_size set); [|done]. by destruct (nd_content x). }
  intros m' Hm' HT'. split; [done|]. split; [done|]. exists (nd_content x), (nd_attr (fin st')). rewrite <- Hcf.
  split_and!; [done..|]. unfold nd_attr, nd_size. simpl. by destruct (nd_content (fin st')).
Qed.

(** *** Reading and writing *)
Lemma mem_ok_next : mem_ok (h + 1) V m.
Proof. eapply mem_ok_mono; [|exact Hok]. lia. Qed.

Lemma file_length i v : contents V m i = Some (File v) → Z.of_nat (length v) ≤ i64_max.
Proof.
  unfold contents. intros (x & Hx & Hc)%fmap_Some.
  pose proof (data_at_typed _ _ _ _ (proj1 Hok) _ _ Hx) as (_ & Hf & _). by rewrite <- Hc in Hf.
Qed.

Definition read_reply (c : Content) (offset size : Z) : Result Errno bytes :=
  match c with File v => Ok (bytes_at v offset size) | _ => Err EISDIR end.

Lemma runs_read_file d i v hd offset size c :
  V !! i = Some v → 0 ≤ offset → 0 ≤ size → offset + size ≤ u64_max →
  runs d (mem_read (v_payload v) hd offset size c)
    (λ r V' m', V' = V ∧ m' = m ∧ ∃ c0, contents V m i = Some c0 ∧ r = read_reply c0 offset size) V m.
Proof.
  intros Hv Ho Hs Hmax. destruct (node_data i v Hv) as (x & Hx & Hat & HT & Ht).
  eapply runs_atomically with (a := read_reply (nd_content x) offset size) (m' := m); [|by split_and!; eauto].
  unfold mbind, M_bind, read. rewrite Hx. simpl. unfold read_reply. destruct (nd_content x) eqn:Hc; [done| |done..].
  rewrite read_content_spec; [done..|]. by apply (file_length i).
Qed.

Definition write_reply (c : Content) (data : bytes) : Result Errno Z :=
  match c with File _ => Ok (Z.of_nat (length data)) | _ => Err EISDIR end.
Definition written (c : Content) (offset : Z) (data : bytes) : Content :=
  match c with File v => File (splice v offset data) | _ => c end.
End data.

Section more.
Context {K : Type} `{Libc} (clock : nat → SystemTime).
Abbreviation runs := (runs (H := unit) (D := unit) (K := K)).

Lemma mem_ok_tick h V m : mem_ok h V m → mem_ok h V (tick m).
Proof. intros (Ht & Hc & Hn). split_and!; [by apply tree_tick|done..]. Qed.

Context (h : Z) (V : nodes) (m : Mem) (Hok : mem_ok h V m) (Hlive : live V).

Lemma runs_write_file d i v hd data offset c :
  V !! i = Some v → 0 ≤ offset → offset + Z.of_nat (length data) ≤ i64_max →
  runs d (mem_write clock (v_payload v) hd data offset c)
    (λ r V' m', V' = V ∧ mem_ok (h + 1) V m' ∧ ∃ c0, contents V m i = Some c0 ∧ r = write_reply c0 data ∧
       same (put i (written c0 offset data) (contents V m)) (contents V m')) V m.
Proof.
  intros Hv Ho Hmax. apply runs_bind, runs_now. intros t.
  apply (runs_write_at h V (tick m) (mem_ok_tick _ _ _ Hok) d i v); [done| |].
  { by apply keeps_atomically, sec_write_file. }
  intros x HT Htx. change (contents V (tick m)) with (contents V m) in *.
  exists (write_reply (nd_content x) data).
  assert (∀ w, nd_content x = File w → write_content w data offset = Some (splice w offset data)) as Hw.
  { intros w Hc. apply write_content_spec; [done..|]. apply (file_length h V m Hok i). by rewrite HT, Hc. }
  destruct (nd_content x) eqn:Hc; [exists x| |exists x..];
    try (exists (mem_tick (tick m)); split_and!; [done..|]; intros m' Hm' HT'; split; [done|]; split; [done|];
      eexists; split_and!; [done..|]; simpl; by rewrite Hc in HT').
  exists (touch t (set_content (File (splice content offset data)) x)), (mem_tick (tick m)).
  unfold mbind, M_bind. rewrite (Hw _ eq_refl). split_and!; [done..|unfold dir_entries; simpl; by rewrite Hc|done|].
  intros m' Hm' HT'. split; [done|]. split; [done|]. eexists. split_and!; [done..|exact HT'].
Qed.

(** *** Attributes, links, kinds *)
Lemma runs_getattr d i v hd c :
  V !! i = Some v →
  runs d (mem_getattr (v_payload v) hd c)
    (λ r V' m', V' = V ∧ m' = m ∧ ∃ c0 a, contents V m i = Some c0 ∧ r = Ok a ∧ attr_size a = content_size c0) V m.
Proof.
  intros Hv. eapply runs_read_at; [exact Hok|done|]. intros x Hx HT Ht. apply runs_done. split_and!; [done..|].
  exists (nd_content x), (nd_attr x). split_and!; [done..|]. unfold nd_attr, nd_size. simpl. by destruct (nd_content x).
Qed.

Definition readlink_reply (c : Content) : Result Errno PathBuf :=
  match c with Sym t => Ok t | _ => Err EINVAL end.

Lemma runs_readlink d i v c :
  V !! i = Some v →
  runs d (mem_readlink (v_payload v) c)
    (λ r V' m', V' = V ∧ m' = m ∧ ∃ c0, contents V m i = Some c0 ∧ r = readlink_reply c0) V m.
Proof.
  intros Hv. eapply runs_read_at; [exact Hok|done|]. intros x Hx HT Ht. unfold readlink_reply.
  destruct (nd_content x) eqn:Hc; apply runs_done; split_and!; try done; eexists; split; by rewrite ?Hc.
Qed.

Lemma runs_open d i v flags c :
  V !! i = Some v →
  runs d (mem_open (v_payload v) flags c) (λ r V' m', V' = V ∧ m' = m ∧ ∃ c0, contents V m i = Some c0 ∧
    r = if is_dir_content c0 then Err EISDIR else Ok (Opened_new tt)) V m.
Proof.
  intros Hv. eapply runs_read_at; [exact Hok|done|]. intros x Hx HT Ht. pose proof (kind_content x Ht) as Hk.
  destruct (decide (nd_kind x = Directory)) as [Hd|Hd]; apply runs_done; split_and!; try done;
    exists (nd_content x); (split; [done|]); destruct (is_dir_content (nd_content x)); naive_solver.
Qed.

Lemma runs_opendir d i v flags c :
  V !! i = Some v →
  runs d (mem_opendir (v_payload v) flags c) (λ r V' m', V' = V ∧ m' = m ∧ ∃ c0, contents V m i = Some c0 ∧
    r = if is_dir_content c0 then Ok (Opened_new tt) else Err ENOTDIR) V m.
Proof.
  intros Hv. eapply runs_read_at; [exact Hok|done|]. intros x Hx HT Ht. pose proof (kind_content x Ht) as Hk.
  case_decide as Hd; apply runs_done; split_and!; try done;
    exists (nd_content x); (split; [done|]); destruct (is_dir_content (nd_content x)); naive_solver.
Qed.

Lemma runs_lookup d parent name c :
  (d < 998)%nat →
  runs d (mem_lookup parent name c) (λ r V' m', V' = V ∧ m' = m ∧
    r = match find_entry (contents V m) parent name with
        | Ok e => Ok (Some (ent_id e))
        | Err e => if decide (e = ENOENT) then Ok None else Err e
        end) V m.
Proof.
  intros Hd. apply runs_bind. eapply runs_entry; [apply Hok|done..|].
  destruct (find_entry (contents V m) parent name) as [e|e]; [by apply runs_done|].
  case_decide; by apply runs_done.
Qed.

(** *** Extended attributes

    They are not part of the tree. *)
Lemma runs_setxattr d i v name value flags c :
  V !! i = Some v →
  runs d (mem_setxattr clock (v_payload v) name value flags c)
    (λ r V' m', V' = V ∧ mem_ok (h + 1) V m' ∧ same (contents V m) (contents V m')) V m.
Proof.
  intros Hv. apply (runs_write_at h V m Hok d i v); [done|exact (keeps_setxattr clock _ name value flags c)|].
  intros x HT Htx. cbv zeta. assert (∀ m', same (put i (nd_content x) (contents V m)) (contents V m') → same (contents V m) (contents V m')) as Hput.
  { intros m'. by apply same_trans, put_id. }
  destruct (negb (Z.land flags libc_XATTR_CREATE =? 0) && _); [exists (Err EEXIST), x, (mem_tick m); split_and!; [by destruct m|done..|by eauto]|].
  destruct (_ && _); [exists (Err ENODATA), x, (mem_tick m); split_and!; [by destruct m|done..|by eauto]|].
  eexists _, _, _. split_and!; [reflexivity|done..|]. simpl. eauto.
Qed.

Lemma runs_removexattr d i v name c :
  V !! i = Some v →
  runs d (mem_removexattr clock (v_payload v) name c)
    (λ r V' m', V' = V ∧ mem_ok (h + 1) V m' ∧ same (contents V m) (contents V m')) V m.
Proof.
  intros Hv. apply (runs_write_at h V m Hok d i v); [done|exact (keeps_removexattr clock _ name c)|].
  intros x HT Htx. assert (∀ m', same (put i (nd_content x) (contents V m)) (contents V m') → same (contents V m) (contents V m')) as Hput.
  { intros m'. by apply same_trans, put_id. }
  destruct (nd_xattrs x !! name); [|exists (Err ENODATA), x, (mem_tick m); split_and!; [by destruct m|done..|by eauto]].
  cbv zeta. eexists _, _, _. split_and!; [reflexivity|done..|]. simpl. eauto.
Qed.

Lemma runs_getxattr d i v name size c :
  V !! i = Some v → runs d (mem_getxattr (v_payload v) name size c) (λ r V' m', V' = V ∧ m' = m) V m.
Proof.
  intros Hv. eapply runs_read_at; [exact Hok|done|]. intros x Hx HT Ht.
  destruct (nd_xattrs x !! name); [|by apply runs_done]. destruct (_ =? _); by apply runs_done.
Qed.

Lemma runs_listxattr d i v size c :
  V !! i = Some v → runs d (mem_listxattr (v_payload v) size c) (λ r V' m', V' = V ∧ m' = m) V m.
Proof.
  intros Hv. eapply runs_read_at; [exact Hok|done|]. intros x Hx HT Ht. cbv zeta. destruct (_ =? _); by apply runs_done.
Qed.
End more.
