(* ===== verification/MemoryList.v ===== *)
(** * Listings of the in-memory filesystem

    What [readdir] pushes into the sink: the entries in the order of their
    names, each once, from the offset on, until the sink refuses one. *)

From stdpp Require Import sorting.
From S2P Require Import Prelude Types Std NodeTable NodeFs Reference RefMono RefLogic MemoryFs.

(** ** A listing and a sink *)
Fixpoint numbered (l : list (string * DirEntry)) (i : Z) : list NodeFs.DirEntry :=
  match l with
  | [] => []
  | (name, e) :: l => mkDirEntry name (ent_id e) (ent_kind e) (i + 3) :: numbered l (i + 1)
  end.

Definition listing (this parent : NodeId) (l : list (string * DirEntry)) : list NodeFs.DirEntry :=
  mkDirEntry "." this Directory 1 :: mkDirEntry ".." parent Directory 2 :: numbered l 0.

Fixpoint fill {K} (add : NodeFs.DirEntry → K → bool * K) (l : list NodeFs.DirEntry) (k : K) : K :=
  match l with
  | [] => k
  | e :: l => let '(accepted, k) := add e k in if accepted then fill add l k else k
  end.

Lemma drop_numbered n l i : drop n (numbered l i) = numbered (drop n l) (i + Z.of_nat n).
Proof.
  revert l i. induction n as [|n IH]; intros l i; [simpl; by rewrite Z.add_0_r|].
  destruct l as [|[name e] l]; [done|]. simpl. rewrite IH. f_equal. lia.
Qed.

(** The entry at place [n] of a listing says how to go on after it. *)
Lemma listing_offsets this parent l n e :
  listing this parent l !! n = Some e → de_next_offset e = Z.of_nat n + 1.
Proof.
  assert (∀ n i, numbered l i !! n = Some e → de_next_offset e = i + Z.of_nat n + 3) as Hl.
  { clear n. induction l as [|[name x] l IH]; intros n i; [done|]. destruct n as [|n]; simpl.
    - intros [= <-]. simpl. lia.
    - intros Hn%IH. lia. }
  destruct n as [|[|n]]; simpl; [by intros [= <-]..|]. intros Hn%Hl. lia.
Qed.

Section readdir.
Context {K : Type} `{Libc} (add : NodeFs.DirEntry → K → bool * K).
Abbreviation ref := (RefState Node unit unit Mem K).
Abbreviation em := (λ e, sp_on_sink (add e)).

Lemma put_sink_twice (s : ref) (k k' : K) : put_sink k' (put_sink k s) = put_sink k' s.
Proof. done. Qed.

Lemma emit_one (e : NodeFs.DirEntry) (k : bool → prog Node Mem NodeFs.DirEntry (Result Errno unit)) (Q : Result Errno unit → ref → Prop) s :
  (∀ s', s' = put_sink (add e (s_sink s)).2 s →
     if (add e (s_sink s)).1 then sp_prog em (k true) Q s' else sp_prog em (k false) Q s') →
  sp_prog em (Emit e k) Q s.
Proof.
  intros Hk. cbn. unfold mbind, wp_bind, sp_on_sink. specialize (Hk _ eq_refl).
  destruct (add e (s_sink s)) as [[] k']; exact Hk.
Qed.

Lemma emit_entries_ok l i (Q : Result Errno unit → ref → Prop) s :
  0 ≤ i → i + Z.of_nat (length l) + 3 ≤ u64_max →
  Q (Ok tt) (put_sink (fill add (numbered l i) (s_sink s)) s) → sp_prog em (emit_entries l i) Q s.
Proof.
  revert i s. induction l as [|[name e] l IH]; intros i s Hi Hl HQ; simpl in *.
  - by destruct s.
  - apply emit_one. intros s' ->. rewrite as_u64_small by int_lia.
    destruct (add _ (s_sink s)) as [[] k']; simpl; [|exact HQ]. apply IH; [lia..|exact HQ].
Qed.

Lemma mem_readdir_ok (node : Node) x es this parent hd offset c (Q : Result Errno unit → ref → Prop) s :
  mem_heap (s_fs s) !! inner node = Some (mkRwLock false x) → nd_content x = Dir es →
  Z.of_nat (size es) + 3 ≤ u64_max →
  Q (Ok tt) (put_sink (fill add (drop (Z.to_nat offset) (listing this parent (bt_iter es))) (s_sink s)) s) →
  sp_prog em (mem_readdir node this parent hd offset c) Q s.
Proof.
  intros Hx Hc Hsize HQ. cbn. unfold read. rewrite Hx. simpl. rewrite Hc.
  assert (put_fs (s_fs s) s = s) as Hsame by by destruct s. rewrite Hsame.
  assert (∀ cursor s', 2 ≤ cursor →
    Q (Ok tt) (put_sink (fill add (drop (Z.to_nat cursor) (listing this parent (bt_iter es))) (s_sink s')) s') →
    sp_prog em (emit_entries (drop (Z.to_nat (cursor - 2)) (bt_iter es)) (cursor - 2)) Q s') as Hfrom.
  { intros cursor s' Hcur. replace (Z.to_nat cursor) with (Datatypes.S (Datatypes.S (Z.to_nat (cursor - 2)))) by lia.
    cbn [listing drop]. rewrite drop_numbered, Z.add_0_l, Z2Nat.id by lia. intros HQ'.
    destruct (Nat.le_gt_cases (length (bt_iter es)) (Z.to_nat (cursor - 2))) as [Hge|Hlt].
    - rewrite drop_ge in * by done. by destruct s'.
    - apply emit_entries_ok; [lia| |done]. rewrite length_drop. rewrite length_bt_iter in *. lia. }
  assert (∀ cursor s', 1 ≤ cursor →
    Q (Ok tt) (put_sink (fill add (drop (Z.to_nat cursor) (listing this parent (bt_iter es))) (s_sink s')) s') →
    sp_prog em (if cursor <? 2 then Emit (mkDirEntry ".." parent Directory 2) (λ accepted : bool,
      if accepted then emit_entries (drop (Z.to_nat (2 - 2)) (bt_iter es)) (2 - 2) else Done (Ok tt))
      else emit_entries (drop (Z.to_nat (cursor - 2)) (bt_iter es)) (cursor - 2)) Q s') as Hdotdot.
  { intros cursor s' Hcur HQ'. destruct (Z.ltb_spec cursor 2); [|by apply Hfrom].
    assert (cursor = 1) as -> by lia. apply emit_one. intros s'' ->. cbn [listing drop Z.to_nat Pos.to_nat] in HQ'.
    simpl in HQ'. destruct (add _ (s_sink s')) as [[] k']; simpl; [|done]. by apply (Hfrom 2). }
  destruct (Z.ltb_spec offset 1); [|by apply Hdotdot]. apply emit_one. intros s'' ->.
  replace (Z.to_nat offset) with 0%nat in HQ by lia. simpl in HQ.
  destruct (add _ (s_sink s)) as [[] k']; simpl; [|done]. by apply (Hdotdot 1).
Qed.
End readdir.
