(* ===== verification/MemorySpec.v ===== *)
(** * The in-memory filesystem against a tree of contents

    [tree_step]: what one request does to the tree of contents and what it is
    answered, for every request and every error; the runtime serving [MemoryFs]
    performs such a step, and its state satisfies the invariant of [MemoryTree]
    after every request. *)

From stdpp Require Import sorting.
From S2P Require Import Prelude Types Std NodeTable NodeTableInv HandleRec NodeFs Runtime RuntimeInv Requests Reference RefMono RefLogic Refinement.
From S2P Require Import MemoryFs MemoryInv MemoryTree MemoryOps MemoryData MemoryList.

(** ** The step of a request *)
Section steps.
Context {K : Type} `{Libc}.

Definition guarded {A} (F : Z → option NodeId) (T T' : tree) (ino : Z) (fh : option Z) (x : Result Errno A)
    (body : Content → Prop) : Prop :=
  match T ino with
  | None => x = Err ENOENT ∧ same T T'
  | Some c => if handle_fits F ino fh then body c else x = Err EBADF ∧ same T T'
  end.

Definition mknod_kind (mode : Z) : option (FileKind * Content) :=
  let x := Z.land mode libc_S_IFMT in
  if x =? libc_S_IFREG then Some (RegularFile, File [])
  else if x =? libc_S_IFIFO then Some (NamedPipe, Special)
  else if x =? libc_S_IFSOCK then Some (Socket, Special)
  else if x =? libc_S_IFCHR then Some (CharDevice, Special)
  else if x =? libc_S_IFBLK then Some (BlockDevice, Special)
  else None.

(** [F]: the nodes of the open file handles. *)
Definition tree_step (F : Z → option NodeId) (T : tree) (r : request K) (rep : reply) (T' : tree) : Prop :=
  match r with
  | ReqLookup parent name _ => rep_lookup rep (λ x, same T T' ∧
      match find_entry T parent name with
      | Ok e => ∃ a, x = Ok (Found a) ∧ er_ino a = ent_id e
      | Err e => x = if decide (e = ENOENT) then Ok Negative else Err e
      end)
  | ReqGetattr ino fh _ => rep_attr rep (λ x, guarded F T T' ino fh x (λ c,
      same T T' ∧ ∃ a, x = Ok a ∧ attr_size a = content_size c))
  | ReqSetattr ino fh set _ => rep_attr rep (λ x, guarded F T T' ino fh x (λ c,
      same (put ino (resized set c) T) T' ∧ ∃ a, x = Ok a ∧ attr_size a = content_size (resized set c)))
  | ReqReadlink ino _ => rep_path rep (λ x, guarded F T T' ino None x (λ c, same T T' ∧ x = readlink_reply c))
  | ReqOpen ino _ _ => rep_open rep (λ x, guarded F T T' ino None x (λ c,
      same T T' ∧ if is_dir_content c then x = Err EISDIR else ∃ a, x = Ok a))
  | ReqOpendir ino _ _ => rep_open rep (λ x, guarded F T T' ino None x (λ c,
      same T T' ∧ if is_dir_content c then ∃ a, x = Ok a else x = Err ENOTDIR))
  | ReqRead ino fh offset size _ => rep_data rep (λ x, guarded F T T' ino (Some fh) x (λ c,
      same T T' ∧ x = read_reply c offset size))
  | ReqWrite ino fh data offset _ => rep_count rep (λ x, guarded F T T' ino (Some fh) x (λ c,
      same (put ino (written c offset data) T) T' ∧ x = write_reply c data))
  | ReqMknod parent name mode _ _ _ => rep_entry rep (λ x,
      match mknod_kind mode with
      | Some (k, c) => create_step T T' parent name k c (Result_map er_ino x)
      | None => x = Err EINVAL ∧ same T T'
      end)
  | ReqMkdir parent name _ _ _ => rep_entry rep (λ x, create_step T T' parent name Directory (Dir ∅) (Result_map er_ino x))
  | ReqSymlink parent name target _ => rep_entry rep (λ x, create_step T T' parent name Symlink (Sym target) (Result_map er_ino x))
  | ReqCreate parent name _ _ _ _ => rep_create rep (λ x,
      create_step T T' parent name RegularFile (File []) (Result_map (λ p, er_ino p.1) x))
  | ReqLink ino newparent newname _ => rep_entry rep (λ x, link_step T T' ino newparent newname (Result_map er_ino x))
  | ReqUnlink parent name _ => rep_unit rep (unlink_step T T' parent name)
  | ReqRmdir parent name _ => rep_unit rep (rmdir_step T T' parent name)
  | ReqRename parent name newparent newname _ _ => rep_unit rep (rename_step T T' parent name newparent newname)
  | _ => same T T'
  end.

(** Nodes go when they have no name any more and nothing refers to them. *)
Definition unnamed (T : tree) (i : NodeId) : Prop :=
  ∀ p es name e, T p = Some (Dir es) → es !! name = Some e → ent_id e ≠ i.
Definition reaped (T T' : tree) : Prop := ∀ i, T' i = T i ∨ T' i = None ∧ unnamed T i.

(** The requests that the theorems on whole runs are about: a new size, and
    the end of a write or of a read, fit their types, and a rename goes to a
    node that exists. (Otherwise a [setattr] or [write] panics and poisons the
    lock of its node, a [read] panics, and a rename loses the entry: see
    [truncate_poisons] and [rename_into_nothing] of [MemorySample].) *)
Definition proper (T : tree) (r : request K) : Prop :=
  match r with
  | ReqSetattr _ _ set _ => size_fits set
  | ReqWrite _ _ data offset _ => 0 ≤ offset ∧ offset + Z.of_nat (length data) ≤ i64_max
  | ReqRead _ _ offset size _ => 0 ≤ offset ∧ 0 ≤ size ∧ offset + size ≤ u64_max
  | ReqRename _ _ newparent _ _ _ => is_Some (T newparent)
  | _ => True
  end.
End steps.

(** ** Requests on the reference *)
Section reference.
Context {K : Type} `{Libc} (clock : nat → SystemTime) (self : MemoryFs) (Herrno : ENOTDIR ≠ ENOENT).
Abbreviation ref := (RefState Node unit unit Mem K).
Abbreviation fs := (MemoryFs_NodeFs clock self).

Definition tree_of (s : ref) : tree := contents (s_nodes s) (s_fs s).

(** Before a request, and before its end. *)
Record idle (h : Z) (s : ref) : Prop := {
  i_ok : mem_ok h (s_nodes s) (s_fs s);
  i_live : live (s_nodes s);
  i_held : s_held s = [];
}.
Record served (h : Z) (s : ref) : Prop := {
  e_ok : mem_ok h (s_nodes s) (s_fs s);
  e_held : s_held s = [];
}.

Lemma idle_served h h' s : h ≤ h' → idle h s → served h' s.
Proof. intros Hh []. split; [|done]. by eapply mem_ok_mono. Qed.
Lemma idle_mono h h' s : h ≤ h' → idle h s → idle h' s.
Proof. intros Hh []. split; [|done..]. by eapply mem_ok_mono. Qed.

(** *** Counters *)
Lemma mem_ok_counters h h' V m id v v' :
  mem_ok h V m → h ≤ h' → V !! id = Some v → v_payload v' = v_payload v → v_parent v' = v_parent v →
  v_links v' = v_links v → counted h' v' →
  mem_ok h' (<[id := v']> V) m ∧ same (contents V m) (contents (<[id := v']> V) m).
Proof.
  intros (Ht & Hc & Hn) Hh Hv Hp Hpar Hl Hv'. split.
  - split_and!; [| |lia].
    + destruct (data_at_live _ _ _ _ Ht id v Hv) as [x Hx].
      eapply tree_ok_ext; [| |exact (tree_counters _ _ V m Ht id v v' x Hv Hx Hp Hpar)]; intros j _.
      * rewrite Hl, Z.sub_diag. apply bump_zero.
      * unfold expected_nlink. rewrite Hl, Z.sub_diag. apply bump_zero.
    + intros j w. rewrite lookup_insert. case_decide; [by intros [= <-]|]. intros Hw.
      eapply counted_mono; [done|by apply (Hc j)].
  - intros j. unfold contents. f_equal. by apply data_at_insert with (v := v).
Qed.

(** A lookup or an open more. *)
Lemma sp_count_ok h (s : ref) id v get put max (Q : Result Errno (RefNode Node) → ref → Prop) :
  idle h s → s_nodes s !! id = Some v →
  (get = v_lookups ∧ put = v_with_lookups ∨ get = v_opens ∧ put = v_with_opens) → h + 1 ≤ max →
  (∀ V', let s' := put_nodes V' s in idle (h + 1) s' → same (tree_of s) (tree_of s') → is_Some (V' !! id) → Q (Ok v) s') →
  sp_count id get put max Q s.
Proof.
  intros [Hok Hlive Hheld] Hv Hget Hmax HQ. apply sp_node_at_live; [done|]. rewrite Hv.
  pose proof Hok as (Ht & Hc & Hn). pose proof (Hc id v Hv) as Hcv. unfold counted in Hcv. simpl in Hcv.
  split; [destruct Hget as [[-> ->]|[-> ->]]; lia|].
  destruct (mem_ok_counters h (h + 1) (s_nodes s) (s_fs s) id v (put (get v + 1) v)) as [Hok' HT];
    [done|lia|done|by destruct Hget as [[-> ->]|[-> ->]]..| |].
  { unfold counted. destruct Hget as [[-> ->]|[-> ->]]; simpl; lia. }
  apply HQ; [|done|rewrite lookup_insert_eq; by eexists]. split; [done| |done]. apply live_insert; [done|].
  unfold unreferenced. destruct Hget as [[-> ->]|[-> ->]]; simpl;
    rewrite !andb_false_iff, !Z.eqb_neq; lia.
Qed.

(** A lookup or an open less; the node may be left without any. *)
Lemma sp_alter_ok h (s : ref) id g (Q : unit → ref → Prop) :
  idle h s →
  (∀ v, v_payload (g v) = v_payload v ∧ v_parent (g v) = v_parent v ∧ v_links (g v) = v_links v ∧ (counted h v → counted h (g v))) →
  (∀ V', let s' := put_nodes V' s in served h s' → same (tree_of s) (tree_of s') →
     (∀ i, is_Some (V' !! i) → is_Some (s_nodes s !! i)) → Q tt s') →
  sp_alter id g Q s.
Proof.
  intros [Hok Hlive Hheld] Hg HQ. unfold sp_alter. destruct (s_nodes s !! id) as [v|] eqn:Hv.
  - rewrite (alter_insert_id _ _ _ _ Hv). destruct (Hg v) as (Hp & Hpar & Hl & Hc).
    destruct (mem_ok_counters h h (s_nodes s) (s_fs s) id v (g v)) as [Hok' HT]; [done|lia|done..|by apply Hc, (proj1 (proj2 Hok) id)|].
    apply HQ; [done|done|]. intros i. rewrite lookup_insert. case_decide; [subst i; rewrite Hv; by eexists|done].
  - rewrite alter_id; [|intros; congruence]. apply HQ; [done|done|done].
Qed.

Lemma put_world_same (s : ref) : put_fs (s_fs s) (put_nodes (s_nodes s) s) = s.
Proof. by destruct s. Qed.

Lemma put_fs_same (s : ref) : put_fs (s_fs s) s = s.
Proof. by destruct s. Qed.

Lemma with_node_ok {B} h (s : ref) ino (k : Node → wp ref (Result Errno B)) (Q : Result Errno B → ref → Prop) :
  idle h s → (s_nodes s !! ino = None → Q (Err ENOENT) s) →
  (∀ v, s_nodes s !! ino = Some v → k (v_payload v) Q s) → sp_with_node ino k Q s.
Proof.
  intros [] Hnone Hsome. unfold sp_with_node, sp_scope_node. apply sp_node_at_live; [done|].
  destruct (s_nodes s !! ino) eqn:Hv; [by apply Hsome|by apply Hnone].
Qed.

Lemma tree_of_none (s : ref) i : s_nodes s !! i = None → tree_of s i = None.
Proof. intros Hi. unfold tree_of, contents, data_at. by rewrite Hi. Qed.

Lemma entry_for_ok h (s : ref) id caller (R : Result Errno EntryReply → ref → Prop) :
  idle h s → is_Some (s_nodes s !! id) → h + 1 ≤ u64_max →
  (∀ e V', let s' := put_nodes V' s in idle (h + 1) s' → same (tree_of s) (tree_of s') → is_Some (V' !! id) →
     er_ino e = id → R (Ok e) s') →
  sp_entry_for fs id caller R s.
Proof.
  intros Hs [v Hv] Hh HR. pose proof Hs as [Hok Hlive Hheld].
  apply (with_node_ok h); [done|congruence|]. intros v' Hv'.
  eapply runs_call; [done|by eapply runs_getattr|].
  intros r V' m' (-> & -> & c0 & a & HT & -> & Ha). rewrite put_world_same.
  eapply (sp_count_ok h _ id v v_lookups v_with_lookups); [done|done|by left|done|].
  intros V2 s2 Hs2 HT2 Hid. by apply HR.
Qed.

(** *** What a handler leaves *)
Definition post (h : Z) (s : ref) (r : request K) (rep : reply) (s' : ref) : Prop :=
  served (h + 3) s' ∧ tree_step (file_of s) (tree_of s) r rep (tree_of s').

Lemma served_mono h h' s : h ≤ h' → served h s → served h' s.
Proof. intros Hh []. split; [by eapply mem_ok_mono|done]. Qed.

(** Callbacks on one node, perhaps with one of its handles. *)
Lemma guarded_call {A} h (s : ref) ino fh (c : Result Errno A → reply) p r (B : Result Errno A → Content → tree → Prop) :
  idle h s →
  (∀ x T', guarded (file_of s) (tree_of s) T' ino fh x (λ c0, B x c0 T') →
     tree_step (file_of s) (tree_of s) r (c x) T') →
  (∀ v o, s_nodes s !! ino = Some v → runs (H := unit) (D := unit) (K := K) 0 (p (v_payload v) o)
     (λ x V m, mem_ok (h + 1) V m ∧ ∃ c0, tree_of s ino = Some c0 ∧ B x c0 (contents V m)) (s_nodes s) (s_fs s)) →
  sp_reply c (sp_with_node ino (λ n, sp_optional_file ino fh (λ o, sp_call (p n o)))) (post h s r) s.
Proof.
  intros Hs Hstep Hp. unfold sp_reply, mbind, wp_bind. apply (with_node_ok h); [done| |].
  - intros Hnone. split; [eapply idle_served; [|done]; lia|]. apply Hstep. unfold guarded. by rewrite tree_of_none.
  - intros v Hv. apply optional_file_ok. destruct (handle_fits (file_of s) ino fh) eqn:Hf.
    + intros hd. eapply runs_call; [apply Hs|by apply Hp|]. intros x V m (Hok & c0 & HT & HB).
      split; [|apply Hstep; unfold guarded; by rewrite HT, Hf].
      split; [|apply Hs]. eapply mem_ok_mono; [|exact Hok]. lia.
    + split; [eapply idle_served; [|done]; lia|]. apply Hstep. unfold guarded. rewrite Hf.
      destruct (tree_of s ino) eqn:HT; [done|]. exfalso.
      destruct (data_at_live _ _ _ _ (proj1 (i_ok _ _ Hs)) ino v Hv) as [x Hx]. unfold tree_of, contents in HT. by rewrite Hx in HT.
Qed.

Lemma guarded_same {A} F T T' ino fh (x : Result Errno A) : guarded F T T' ino fh x (λ _, same T T') → same T T'.
Proof. unfold guarded. destruct (T ino); [destruct (handle_fits _ _ _)|]; naive_solver. Qed.

Lemma idle_next h s : idle h s → mem_ok (h + 1) (s_nodes s) (s_fs s).
Proof. intros []. by apply mem_ok_next. Qed.
Hint Resolve i_ok i_live i_held idle_next : core.

(** A callback that leaves the tree alone. *)
Lemma unchanged_call {A} h (s : ref) ino fh (c : Result Errno A → reply) p r :
  idle h s → (∀ x T', tree_step (file_of s) (tree_of s) r (c x) T' = same (tree_of s) T') →
  (∀ v o, s_nodes s !! ino = Some v → runs (H := unit) (D := unit) (K := K) 0 (p (v_payload v) o)
     (λ x V m, mem_ok (h + 1) V m ∧ same (tree_of s) (contents V m)) (s_nodes s) (s_fs s)) →
  sp_reply c (sp_with_node ino (λ n, sp_optional_file ino fh (λ o, sp_call (p n o)))) (post h s r) s.
Proof.
  intros Hs Hstep Hp. apply (guarded_call h s ino fh c p r (λ _ _ T', same (tree_of s) T')); [done| |].
  - intros x T' HG. rewrite Hstep. by eapply guarded_same.
  - intros v o Hv. eapply runs_mono; [by apply Hp|]. intros x V m [Hok HT]. split; [done|].
    destruct (data_at_live _ _ _ _ (proj1 (i_ok _ _ Hs)) ino v Hv) as [y Hy]. exists (nd_content y).
    unfold tree_of, contents at 1. by rewrite Hy.
Qed.

Lemma quiet_done {A} h (s : ref) (a : A) :
  idle h s → runs (H := unit) (D := unit) (K := K) 0 (Done a) (λ _ V m, mem_ok (h + 1) V m ∧ same (tree_of s) (contents V m)) (s_nodes s) (s_fs s).
Proof. intros Hs. apply runs_done. split; [by eauto|apply same_refl]. Qed.
Hint Resolve quiet_done : core.

Lemma runs_same {A} h (s : ref) (p : prog Node Mem Empty_set A) :
  idle h s → runs (H := unit) (D := unit) (K := K) 0 p (λ r V' m', V' = s_nodes s ∧ m' = s_fs s) (s_nodes s) (s_fs s) →
  runs (H := unit) (D := unit) (K := K) 0 p (λ _ V m, mem_ok (h + 1) V m ∧ same (tree_of s) (contents V m)) (s_nodes s) (s_fs s).
Proof. intros Hs Hp. eapply runs_mono; [exact Hp|]. intros r V m [-> ->]. split; [by eauto|apply same_refl]. Qed.

Section node_requests.
Context (h : Z) (s : ref) (Hs : idle h s).

Lemma step_getattr ino fh caller :
  sp_handler fs (ReqGetattr ino fh caller) (post h s (ReqGetattr ino fh caller)) s.
Proof.
  apply (guarded_call h s ino fh RepAttr (λ n o, mem_getattr n o caller) _
    (λ x c T', same (tree_of s) T' ∧ ∃ a, x = Ok a ∧ attr_size a = content_size c)); [done..|].
  intros v o Hv. eapply runs_mono; [by eapply (runs_getattr h _ _ (i_ok h s Hs))|]. intros r V m (-> & -> & c0 & a & HT & -> & Ha).
  by eauto 10.
Qed.

Lemma step_setattr ino fh set caller :
  size_fits set → sp_handler fs (ReqSetattr ino fh set caller) (post h s (ReqSetattr ino fh set caller)) s.
Proof.
  intros Hset. apply (guarded_call h s ino fh RepAttr (λ n o, mem_setattr clock n o set caller) _
    (λ x c T', same (put ino (resized set c) (tree_of s)) T' ∧ ∃ a, x = Ok a ∧ attr_size a = content_size (resized set c))); [done..|].
  intros v o Hv. eapply runs_mono; [by eapply (runs_setattr clock h _ _ (i_ok h s Hs))|]. intros r V m (-> & Hok & c0 & a & HT & -> & Ha & HT'). split; [done|]. exists c0. split_and!; [done..|by exists a].
Qed.

Lemma step_readlink ino caller :
  sp_handler fs (ReqReadlink ino caller) (post h s (ReqReadlink ino caller)) s.
Proof.
  apply (guarded_call h s ino None RepPath (λ n _, mem_readlink n caller) _
    (λ x c T', same (tree_of s) T' ∧ x = readlink_reply c)); [done..|].
  intros v o Hv. eapply runs_mono; [by eapply (runs_readlink h _ _ (i_ok h s Hs))|]. intros r V m (-> & -> & c0 & HT & ->). by eauto 10.
Qed.

Lemma step_read ino fh offset size caller :
  0 ≤ offset → 0 ≤ size → offset + size ≤ u64_max →
  sp_handler fs (ReqRead ino fh offset size caller) (post h s (ReqRead ino fh offset size caller)) s.
Proof.
  intros Ho Hz Hmax. apply (guarded_call h s ino (Some fh) RepData (λ n o, mem_read n (default tt o) offset size caller) _
    (λ x c T', same (tree_of s) T' ∧ x = read_reply c offset size)); [done..|].
  intros v o Hv. eapply runs_mono; [by eapply (runs_read_file h _ _ (i_ok h s Hs))|]. intros r V m (-> & -> & c0 & HT & ->). by eauto 10.
Qed.

Lemma step_write ino fh data offset caller :
  0 ≤ offset → offset + Z.of_nat (length data) ≤ i64_max →
  sp_handler fs (ReqWrite ino fh data offset caller) (post h s (ReqWrite ino fh data offset caller)) s.
Proof.
  intros Ho Hmax. apply (guarded_call h s ino (Some fh) RepCount (λ n o, mem_write clock n (default tt o) data offset caller) _
    (λ x c T', same (put ino (written c offset data) (tree_of s)) T' ∧ x = write_reply c data)); [done..|].
  intros v o Hv. eapply runs_mono; [by eapply (runs_write_file clock h _ _ (i_ok h s Hs))|]. intros r V m (-> & Hok & c0 & HT & -> & HT'). by eauto 10.
Qed.

Lemma step_setxattr ino name value flags caller :
  sp_handler fs (ReqSetxattr ino name value flags caller) (post h s (ReqSetxattr ino name value flags caller)) s.
Proof.
  apply (unchanged_call h s ino None RepUnit (λ n _, mem_setxattr clock n name value flags caller)); [done..|].
  intros v o Hv. eapply runs_mono; [by eapply (runs_setxattr clock h _ _ (i_ok h s Hs))|]. by intros r V m (-> & Hok & HT).
Qed.
Lemma step_removexattr ino name caller :
  sp_handler fs (ReqRemovexattr ino name caller) (post h s (ReqRemovexattr ino name caller)) s.
Proof.
  apply (unchanged_call h s ino None RepUnit (λ n _, mem_removexattr clock n name caller)); [done..|].
  intros v o Hv. eapply runs_mono; [by eapply (runs_removexattr clock h _ _ (i_ok h s Hs))|]. by intros r V m (-> & Hok & HT).
Qed.
Lemma step_getxattr ino name size caller :
  sp_handler fs (ReqGetxattr ino name size caller) (post h s (ReqGetxattr ino name size caller)) s.
Proof.
  apply (unchanged_call h s ino None RepXattr (λ n _, mem_getxattr n name size caller)); [done..|].
  intros v o Hv. eapply runs_same; [done..|by eapply (runs_getxattr h _ _ (i_ok h s Hs))].
Qed.
Lemma step_listxattr ino size caller :
  sp_handler fs (ReqListxattr ino size caller) (post h s (ReqListxattr ino size caller)) s.
Proof.
  apply (unchanged_call h s ino None RepXattr (λ n _, mem_listxattr n size caller)); [done..|].
  intros v o Hv. eapply runs_same; [done..|by eapply (runs_listxattr h _ _ (i_ok h s Hs))].
Qed.
Lemma step_access ino mask caller :
  sp_handler fs (ReqAccess ino mask caller) (post h s (ReqAccess ino mask caller)) s.
Proof. apply (unchanged_call h s ino None RepUnit (λ _ _, Done (Ok tt))); eauto. Qed.
End node_requests.

(** *** New entries *)
Lemma create_step_same T T' T'' parent name k c r :
  same T' T'' → create_step T T' parent name k c r → create_step T T'' parent name k c r.
Proof.
  intros HT. unfold create_step. destruct (new_entry_error T parent name).
  - intros (id & ? & ? & ?). exists id. split_and!; [done..|by eapply same_trans].
  - intros [? ?]. split; [done|by eapply same_trans].
Qed.
Lemma link_step_same T T' T'' id parent name r :
  same T' T'' → link_step T T' id parent name r → link_step T T'' id parent name r.
Proof.
  intros HT. unfold link_step. destruct (T id) as [[]|]; try (intros [? ?]; split; [done|by eapply same_trans]);
    destruct (new_entry_error T parent name); try (intros [? ?]; split; [done|by eapply same_trans]);
    intros (? & k & ?); (split; [done|]); exists k; by eapply same_trans.
Qed.

Lemma create_step_node T T' parent name k c id : create_step T T' parent name k c (Ok id) → is_Some (T' id).
Proof.
  unfold create_step. destruct (new_entry_error T parent name); [|naive_solver].
  intros (i & [= <-] & _ & HT). rewrite HT. unfold put. rewrite decide_True by done. by eexists.
Qed.
Lemma edit_dir_node f p T i : is_Some (T i) → is_Some (edit_dir f p T i).
Proof. unfold edit_dir. destruct (T p) as [[]|]; try done. unfold put. case_decide; [by eexists|done]. Qed.
Lemma link_step_node T T' id parent name i : link_step T T' id parent name (Ok i) → is_Some (T' i).
Proof.
  unfold link_step. destruct (T id) as [[]|] eqn:Hid; try naive_solver;
    (destruct (new_entry_error T parent name); [|naive_solver]); intros ([= <-] & k & HT); rewrite HT;
    apply edit_dir_node; rewrite Hid; by eexists.
Qed.

Lemma new_entry_ok h (s : ref) p caller r (C : Result Errno NodeId → tree → Prop) :
  idle h s → h + 8 ≤ u64_max →
  (∀ x T', C (Result_map er_ino x) T' → tree_step (file_of s) (tree_of s) r (RepEntry x) T') →
  (∀ x T1 T2, same T1 T2 → C x T1 → C x T2) → (∀ id T', C (Ok id) T' → is_Some (T' id)) →
  runs (H := unit) (D := unit) (K := K) 0 p (λ x V m, mem_ok (h + 1) V m ∧ live V ∧ C x (contents V m)) (s_nodes s) (s_fs s) →
  sp_reply RepEntry (sp_new_entry fs p caller) (post h s r) s.
Proof.
  intros Hs Hh Hstep Hsame Hnode Hp. eapply runs_call; [apply Hs|exact Hp|].
  intros x V m (Hok & Hlive & HC). destruct x as [id|e]; cycle 1.
  { split; [|by apply Hstep]. split; [|apply Hs]. eapply mem_ok_mono; [|exact Hok]. lia. }
  eapply (entry_for_ok (h + 1)); [by split; [..|apply Hs]| |lia|].
  { destruct (Hnode _ _ HC) as [c Hc]. destruct (contents_node _ _ _ _ Hc) as [v Hv]. by exists v. }
  intros e V2 s2 Hs2 HT2 _ He. split; [eapply idle_served; [|exact Hs2]; lia|].
  apply Hstep. simpl. rewrite He. by eapply Hsame.
Qed.

Section name_requests.
Context (h : Z) (s : ref) (Hs : idle h s) (Hpos : 0 ≤ h) (Hmax : h + 8 ≤ u32_max).

Lemma create_ok parent name k c perm rdev :
  kind_matches k c → content_fits c → (∀ es, c = Dir es → es = ∅) → 0 ≤ perm ≤ 4095 →
  runs (H := unit) (D := unit) (K := K) 0 (create_child clock self parent name k c perm rdev)
    (λ r V' m', mem_ok (h + 1) V' m' ∧ live V' ∧ create_step (tree_of s) (contents V' m') parent name k c r) (s_nodes s) (s_fs s).
Proof. intros. apply runs_create_child; [apply Hs|apply Hs|lia|lia|done..]. Qed.

Lemma step_new_child parent name k c perm rdev caller r :
  (∀ x T', create_step (tree_of s) T' parent name k c (Result_map er_ino x) →
     tree_step (file_of s) (tree_of s) r (RepEntry x) T') →
  kind_matches k c → content_fits c → (∀ es, c = Dir es → es = ∅) → 0 ≤ perm ≤ 4095 →
  sp_reply RepEntry (sp_new_entry fs (create_child clock self parent name k c perm rdev) caller) (post h s r) s.
Proof.
  intros Hstep Hk Hf He Hp. apply (new_entry_ok h s _ caller r (λ x T', create_step (tree_of s) T' parent name k c x)); [done|int_lia|done| | |].
  - intros x T1 T2. apply create_step_same.
  - intros id T'. apply create_step_node.
  - by apply create_ok.
Qed.

Lemma step_mkdir parent name mode umask caller :
  sp_handler fs (ReqMkdir parent name mode umask caller) (post h s (ReqMkdir parent name mode umask caller)) s.
Proof. apply step_new_child; [done..|by intros es [= <-]|apply mode_bits_bound]. Qed.

Lemma step_symlink parent name target caller :
  sp_handler fs (ReqSymlink parent name target caller) (post h s (ReqSymlink parent name target caller)) s.
Proof. apply step_new_child; [done..|lia]. Qed.

Lemma mknod_kind_ok mode k c :
  mknod_kind mode = Some (k, c) → kind_matches k c ∧ content_fits c ∧ ∀ es, c = Dir es → es = ∅.
Proof. unfold mknod_kind. cbv zeta. repeat case_match; intros; simplify_eq; (split_and!; [done..|]); by intros. Qed.

Lemma step_mknod parent name mode rdev umask caller :
  sp_handler fs (ReqMknod parent name mode rdev umask caller) (post h s (ReqMknod parent name mode rdev umask caller)) s.
Proof.
  unfold sp_handler. cbn [fs_mknod MemoryFs_NodeFs]. unfold mem_mknod. cbv zeta.
  match goal with |- context [prog_try (Done ?x) _] =>
    assert (x = match mknod_kind mode with Some p => Ok p | None => Err EINVAL end) as ->
      by (unfold mknod_kind; cbv zeta; by repeat case_match) end.
  destruct (mknod_kind mode) as [[k c]|] eqn:Hk.
  - destruct (mknod_kind_ok _ _ _ Hk) as (Hm & Hf & He). apply step_new_child; [|done..|apply mode_bits_bound].
    intros x T' Hx. simpl. by rewrite Hk.
  - eapply runs_call; [apply Hs|apply (runs_done 0 (Err EINVAL) (λ x V m, x = Err EINVAL ∧ V = s_nodes s ∧ m = s_fs s)); done|].
    intros x V m (-> & -> & ->). rewrite put_world_same. split; [eapply idle_served; [|done]; lia|]. simpl. rewrite Hk.
    split; [done|apply same_refl].
Qed.

Lemma step_link ino newparent newname caller :
  sp_handler fs (ReqLink ino newparent newname caller) (post h s (ReqLink ino newparent newname caller)) s.
Proof.
  apply (new_entry_ok h s _ caller _ (λ x T', link_step (tree_of s) T' ino newparent newname x)); [done|int_lia|done| | |].
  - intros x T1 T2. apply link_step_same.
  - intros id T'. apply link_step_node.
  - apply runs_link; first [apply Hs|lia].
Qed.

(** Names that go. *)
Lemma call_unit (p : prog Node Mem Empty_set (Result Errno unit)) r (C : Result Errno unit → tree → Prop) :
  (∀ x T', C x T' → tree_step (file_of s) (tree_of s) r (RepUnit x) T') →
  runs (H := unit) (D := unit) (K := K) 0 p (λ x V m, mem_ok (h + 1) V m ∧ C x (contents V m)) (s_nodes s) (s_fs s) →
  sp_reply RepUnit (sp_call p) (post h s r) s.
Proof.
  intros Hstep Hp. eapply runs_call; [apply Hs|exact Hp|]. intros x V m [Hok HC].
  split; [|by apply Hstep]. split; [|apply Hs]. eapply mem_ok_mono; [|exact Hok]. lia.
Qed.

Lemma step_unlink parent name caller :
  sp_handler fs (ReqUnlink parent name caller) (post h s (ReqUnlink parent name caller)) s.
Proof.
  apply (call_unit _ _ (λ x T', unlink_step (tree_of s) T' parent name x)); [done|]. apply runs_unlink; first [apply Hs|lia].
Qed.
Lemma step_rmdir parent name caller :
  sp_handler fs (ReqRmdir parent name caller) (post h s (ReqRmdir parent name caller)) s.
Proof.
  apply (call_unit _ _ (λ x T', rmdir_step (tree_of s) T' parent name x)); [done|]. apply runs_rmdir; first [apply Hs|lia].
Qed.
Lemma step_rename parent name newparent newname flags caller :
  is_Some (tree_of s newparent) →
  sp_handler fs (ReqRename parent name newparent newname flags caller) (post h s (ReqRename parent name newparent newname flags caller)) s.
Proof.
  intros [c Hc]. destruct (contents_node _ _ _ _ Hc) as [v Hv].
  apply (call_unit _ _ (λ x T', rename_step (tree_of s) T' parent name newparent newname x)); [done|].
  apply runs_rename; first [apply Hs|lia|done|by exists v].
Qed.
End name_requests.

(** *** Lookups and handles *)
Section handle_requests.
Context (h : Z) (s : ref) (Hs : idle h s) (Hpos : 0 ≤ h) (Hmax : h + 8 ≤ u32_max).

Lemma served_here : served (h + 3) s.
Proof. eapply idle_served; [|exact Hs]. lia. Qed.
Hint Resolve served_here : core.

Lemma node_content ino v : s_nodes s !! ino = Some v → is_Some (tree_of s ino).
Proof.
  intros Hv. destruct (data_at_live _ _ _ _ (proj1 (i_ok _ _ Hs)) ino v Hv) as [x Hx].
  unfold tree_of, contents. rewrite Hx. by eexists.
Qed.

Lemma step_lookup parent name caller :
  sp_handler fs (ReqLookup parent name caller) (post h s (ReqLookup parent name caller)) s.
Proof.
  eapply runs_call; [apply Hs|apply (runs_lookup h _ _ (i_ok h s Hs) (i_live h s Hs)); lia|].
  intros r V m (-> & -> & ->). rewrite put_world_same. change (contents (s_nodes s) (s_fs s)) with (tree_of s).
  destruct (find_entry (tree_of s) parent name) as [e|e] eqn:He.
  - destruct (find_entry_Ok h _ _ (i_ok h s Hs) _ _ _ He) as (es & x & u & _ & _ & _ & _ & Hu & _).
    eapply (entry_for_ok h); [done|by exists u|int_lia|]. intros a V' s' Hs' HT _ Ha.
    split; [eapply idle_served; [|exact Hs']; lia|]. simpl. rewrite He. split; [exact HT|]. by exists a.
  - case_decide as Hd; (split; [done|]); simpl; rewrite He; (split; [apply same_refl|]).
    + by rewrite decide_True by done.
    + by rewrite decide_False by done.
Qed.

Lemma step_open ino flags caller :
  sp_handler fs (ReqOpen ino flags caller) (post h s (ReqOpen ino flags caller)) s.
Proof.
  unfold sp_handler, sp_reply, sp_open, mbind, wp_bind. apply (with_node_ok h); [done| |].
  - intros Hnone. split; [done|]. simpl. unfold guarded. by rewrite tree_of_none.
  - intros v Hv. eapply runs_call; [apply Hs|by eapply (runs_open clock h _ _ (i_ok h s Hs))|].
    intros r V m (-> & -> & c0 & HT & ->). rewrite put_world_same. destruct (is_dir_content c0) eqn:Hd.
    + split; [done|]. simpl. unfold guarded, tree_of at 1. rewrite HT. simpl. rewrite Hd. by split.
    + eapply (sp_count_ok h _ ino v v_opens v_with_opens); [done|done|by right|int_lia|].
      intros V2 s2 Hs2 HT2 _. split.
      * split; [|apply Hs]. eapply mem_ok_mono; [|apply (i_ok _ _ Hs2)]. lia.
      * simpl. unfold guarded, tree_of at 1. rewrite HT. simpl. rewrite Hd. split; [exact HT2|by eexists].
Qed.

Lemma step_opendir ino flags caller :
  sp_handler fs (ReqOpendir ino flags caller) (post h s (ReqOpendir ino flags caller)) s.
Proof.
  unfold sp_handler, sp_reply, sp_opendir, mbind, wp_bind. apply (with_node_ok h); [done| |].
  - intros Hnone. split; [done|]. simpl. unfold guarded. by rewrite tree_of_none.
  - intros v Hv. eapply runs_call; [apply Hs|by eapply (runs_opendir clock h _ _ (i_ok h s Hs))|].
    intros r V m (-> & -> & c0 & HT & ->). rewrite put_world_same. destruct (is_dir_content c0) eqn:Hd.
    + eapply (sp_count_ok h _ ino v v_opens v_with_opens); [done|done|by right|int_lia|].
      intros V2 s2 Hs2 HT2 _. split.
      * split; [|apply Hs]. eapply mem_ok_mono; [|apply (i_ok _ _ Hs2)]. lia.
      * simpl. unfold guarded, tree_of at 1. rewrite HT. simpl. rewrite Hd. split; [exact HT2|by eexists].
    + split; [done|]. simpl. unfold guarded, tree_of at 1. rewrite HT. simpl. rewrite Hd. by split.
Qed.

Lemma step_create parent name mode umask flags caller :
  sp_handler fs (ReqCreate parent name mode umask flags caller) (post h s (ReqCreate parent name mode umask flags caller)) s.
Proof.
  unfold sp_handler, sp_reply, sp_create, mbind, wp_bind. cbn [fs_create MemoryFs_NodeFs].
  eapply runs_call; [apply Hs| |].
  - apply runs_try. eapply runs_mono; [apply (create_ok h s Hs Hpos Hmax parent name RegularFile (File []) (mode_bits mode) 0);
      [done..|apply mode_bits_bound]|].
    intros r V m (Hok & Hlive & HC).
    instantiate (1 := λ r V m, mem_ok (h + 1) V m ∧ live V ∧
      create_step (tree_of s) (contents V m) parent name RegularFile (File []) (Result_map fst r)).
    destruct r as [id|e]; [by apply runs_done|done].
  - intros r V m (Hok & Hlive & HC). destruct r as [[id opened]|e]; cycle 1.
    { split; [|exact HC]. split; [|apply Hs]. eapply mem_ok_mono; [|exact Hok]. lia. }
    destruct (create_step_node _ _ _ _ _ _ _ HC) as [c Hc]. destruct (contents_node _ _ _ _ Hc) as [v Hv].
    eapply (entry_for_ok (h + 1)); [by split; [..|apply Hs]|by exists v|int_lia|].
    intros e V2 s2 Hs2 HT2 [v2 Hv2] He.
    eapply (sp_count_ok (h + 1 + 1) s2 id v2 v_opens v_with_opens); [done|done|by right|int_lia|].
    intros V3 s3 Hs3 HT3 _. split.
    + split; [|apply Hs]. eapply mem_ok_mono; [|apply (i_ok _ _ Hs3)]. lia.
    + simpl. rewrite He. eapply create_step_same; [|exact HC]. eapply same_trans; [exact HT2|exact HT3].
Qed.

(** Closing: the node may go. *)
Lemma remove_open_ok ino (s1 : ref) {B} (k : wp ref B) (Q : B → ref → Prop) :
  idle h s1 → (∀ s2, served h s2 → same (tree_of s1) (tree_of s2) → k Q s2) → (sp_remove_open ino;; k) Q s1.
Proof.
  intros Hs1 HQ. unfold mbind, wp_bind, sp_remove_open.
  apply (sp_alter_ok h s1 ino (λ v, v_with_opens (Z.max 0 (v_opens v - 1)) v)); [done| |].
  - intros v. split_and!; [done..|]. unfold counted. simpl. lia.
  - intros V' s2 Hs2 HT _. by apply HQ.
Qed.

Lemma served_put_files (h1 : Z) (s1 : ref) f n : idle h1 s1 → idle h1 (put_files f n s1).
Proof. intros []. by split. Qed.
Lemma served_put_dirs (h1 : Z) (s1 : ref) f n : idle h1 s1 → idle h1 (put_dirs f n s1).
Proof. intros []. by split. Qed.

Lemma step_release ino fh caller :
  sp_handler fs (ReqRelease ino fh caller) (post h s (ReqRelease ino fh caller)) s.
Proof.
  unfold sp_handler, sp_reply, sp_release, mbind at 1, wp_bind at 1. unfold wp_try at 1, sp_remove_file, wp_try at 1, mbind, wp_bind, sp_find.
  destruct (s_files s !! fh) as [[node hd]|]; [|split; [done|apply same_refl]].
  destruct (negb (node =? ino)); [split; [done|apply same_refl]|].
  pose proof (served_put_files h s (delete fh (s_files s)) (s_next s) Hs) as Hs1.
  apply (with_node_ok h); [done|intros _; split; [eapply idle_served; [|exact Hs1]; lia|apply same_refl]|].
  intros v Hv. apply (remove_open_ok ino _ _ _ Hs1). intros s2 Hs2 HT2.
  split; [apply Hs2|]. split; [by eapply served_mono; [|exact Hs2]; lia|exact HT2].
Qed.

Lemma step_releasedir ino fh caller :
  sp_handler fs (ReqReleasedir ino fh caller) (post h s (ReqReleasedir ino fh caller)) s.
Proof.
  unfold sp_handler, sp_reply, sp_releasedir, mbind at 1, wp_bind at 1. unfold wp_try at 1, sp_remove_dir, wp_try at 1, mbind, wp_bind, sp_find.
  destruct (s_dirs s !! fh) as [[node hd]|]; [|split; [done|apply same_refl]].
  destruct (negb (node =? ino)); [split; [done|apply same_refl]|].
  pose proof (served_put_dirs h s (delete fh (s_dirs s)) (s_next s) Hs) as Hs1.
  apply (with_node_ok h); [done|intros _; split; [eapply idle_served; [|exact Hs1]; lia|apply same_refl]|].
  intros v Hv. apply (remove_open_ok ino _ _ _ Hs1). intros s2 Hs2 HT2.
  split; [apply Hs2|]. split; [by eapply served_mono; [|exact Hs2]; lia|exact HT2].
Qed.

Lemma step_forget ino nlookup : 0 ≤ nlookup →
  sp_handler fs (ReqForget ino nlookup) (post h s (ReqForget ino nlookup)) s.
Proof.
  intros Hn. apply (sp_alter_ok h s ino (λ v, v_with_lookups (Z.max 0 (v_lookups v - nlookup)) v)); [done| |].
  - intros v. split_and!; [done..|]. unfold counted. simpl. lia.
  - intros V' s2 Hs2 HT _. split; [by eapply served_mono; [|exact Hs2]; lia|exact HT].
Qed.

(** *** Listings *)
Lemma readdir_ok add ino fh offset caller (Q : Result Errno unit → ref → Prop) :
  match s_nodes s !! ino with
  | None => Q (Err ENOENT) s
  | Some v =>
      if handle_fits (dir_of s) ino (Some fh) then
        match tree_of s ino with
        | Some (Dir es) =>
            Q (Ok tt) (put_sink (fill add (drop (Z.to_nat offset) (listing ino (v_parent v) (bt_iter es))) (s_sink s)) s)
        | _ => Q (Err ENOTDIR) s
        end
      else Q (Err EBADF) s
  end →
  sp_readdir fs add ino fh offset caller Q s.
Proof.
  intros HQ. apply (with_node_ok h); [done|by intros Hv; rewrite Hv in HQ|]. intros v Hv. rewrite Hv in HQ.
  unfold wp_try, sp_parent, mbind, wp_bind. apply sp_node_at_live; [apply Hs|]. rewrite Hv. cbn [fmap option_fmap option_map ok_or].
  unfold mret, wp_ret. unfold sp_with_dir, sp_scope_dir, mbind, wp_bind, sp_find. unfold handle_fits, dir_of in HQ.
  destruct (s_dirs s !! fh) as [[node hd]|]; [|done].
  destruct (Z.eqb_spec node ino) as [->|Hne]; cbn [negb fmap option_fmap option_map fst] in *;
    [|by rewrite bool_decide_false in HQ by congruence].
  rewrite bool_decide_true in HQ by done. unfold sp_run.
  destruct (node_data h _ _ (i_ok h s Hs) ino v Hv) as (x & Hx & _ & HT & _). unfold tree_of in HQ. rewrite HT in HQ.
  pose proof (names_ge _ _ _ Hx) as Hn. destruct (i_ok h s Hs) as (_ & _ & Hnames). simpl in Hn.
  destruct (nd_content x) as [es| | |] eqn:Hc.
  - eapply mem_readdir_ok; [exact Hx|exact Hc| |].
    + rewrite (dir_content _ _ Hc) in Hn. int_lia.
    + split; [apply Hs|exact HQ].
  - cbn. unfold read. rewrite Hx. simpl. rewrite Hc. rewrite put_fs_same. split; [apply Hs|exact HQ].
  - cbn. unfold read. rewrite Hx. simpl. rewrite Hc. rewrite put_fs_same. split; [apply Hs|exact HQ].
  - cbn. unfold read. rewrite Hx. simpl. rewrite Hc. rewrite put_fs_same. split; [apply Hs|exact HQ].
Qed.
End handle_requests.

Section other_requests.
Context (h : Z) (s : ref) (Hs : idle h s) (Hpos : 0 ≤ h) (Hmax : h + 8 ≤ u32_max).

Lemma step_same r rep s' : idle h s' → same (tree_of s) (tree_of s') →
  (∀ T', same (tree_of s) T' → tree_step (file_of s) (tree_of s) r rep T') → post h s r rep s'.
Proof. intros Hs' HT Hstep. split; [eapply idle_served; [|exact Hs']; lia|by apply Hstep]. Qed.

Lemma step_readdir sink add ino fh offset caller :
  sp_handler fs (ReqReaddir sink add ino fh offset caller) (post h s (ReqReaddir sink add ino fh offset caller)) s.
Proof.
  assert (∀ k, idle h (put_sink k s)) as Hsink by (intros k; destruct Hs; by split).
  unfold sp_handler, sp_reply, sp_with_sink, mbind, wp_bind. apply (readdir_ok h _ (Hsink sink) Hmax).
  destruct (s_nodes (put_sink sink s) !! ino) as [v|]; [|by apply step_same; [apply Hsink|apply same_refl|]].
  destruct (handle_fits _ _ _); [|by apply step_same; [apply Hsink|apply same_refl|]].
  destruct (tree_of (put_sink sink s) ino) as [[]|]; by apply step_same; [apply Hsink|apply same_refl|].
Qed.

Lemma step_readdirplus sink add ino fh offset caller :
  sp_handler fs (ReqReaddirplus sink add ino fh offset caller) (post h s (ReqReaddirplus sink add ino fh offset caller)) s.
Proof.
  assert (∀ k, idle h (put_sink k s)) as Hsink by (intros k; destruct Hs; by split).
  unfold sp_handler, sp_reply, sp_with_sink, mbind, wp_bind, sp_readdirplus.
  assert (∀ e, post h s (ReqReaddirplus sink add ino fh offset caller) (RepPlus (Err e)) (put_sink sink s)) as Hend.
  { intros e. by apply step_same; [apply Hsink|apply same_refl|]. }
  apply (with_node_ok h); [apply Hsink|intros; apply Hend|]. intros v Hv.
  unfold wp_try, sp_parent, mbind, wp_bind. apply sp_node_at_live; [apply (Hsink sink)|]. rewrite Hv. cbn [fmap option_fmap option_map ok_or].
  unfold mret, wp_ret. unfold sp_with_dir, sp_scope_dir, mbind, wp_bind, sp_find.
  destruct (s_dirs _ !! fh) as [[node hd]|]; [|apply Hend]. destruct (negb _); [apply Hend|]. cbn. split; [apply Hs|]. apply Hend.
Qed.

Lemma step_on_file {A} (c : Result Errno A → reply) ino fh (a : Result Errno A) (r : request K) :
  (∀ x T', tree_step (file_of s) (tree_of s) r (c x) T' = same (tree_of s) T') →
  sp_reply c (sp_on_file ino fh (λ _ _, Done a)) (post h s r) s.
Proof. intros Hr. by apply (unchanged_call h s ino (Some fh) c (λ _ _, Done a)); [..|eauto]. Qed.

Lemma step_done {A} (c : A → reply) (a : A) (r : request K) :
  (∀ T', tree_step (file_of s) (tree_of s) r (c a) T' = same (tree_of s) T') →
  sp_reply c (sp_call (Done a)) (post h s r) s.
Proof. intros Hr. split; [apply Hs|]. apply step_same; [done|apply same_refl|]. intros T'. by rewrite Hr. Qed.

Lemma step_fsyncdir ino fh datasync caller :
  sp_handler fs (ReqFsyncdir ino fh datasync caller) (post h s (ReqFsyncdir ino fh datasync caller)) s.
Proof.
  assert (∀ x, post h s (ReqFsyncdir ino fh datasync caller) (RepUnit x) s) as Hend by (intros x; by apply step_same; [..|apply same_refl|]).
  unfold sp_handler, sp_reply, mbind, wp_bind. apply (with_node_ok h); [done|intros; apply Hend|]. intros v Hv.
  unfold sp_with_dir, sp_scope_dir, mbind, wp_bind, sp_find.
  destruct (s_dirs _ !! fh) as [[node hd]|]; [|apply Hend]. destruct (negb _); [apply Hend|]. cbn. split; [apply Hs|]. apply Hend.
Qed.

(** Every request. *)
Lemma memory_step r : request_wf r → proper (tree_of s) r → sp_handler fs r (post h s r) s.
Proof.
  destruct r; intros Hwf Hp; simpl in Hp.
  - split; [apply Hs|]. apply step_same; [by destruct Hs|apply same_refl|done].
  - by apply step_done.
  - by apply step_forget.
  - by apply step_done.
  - by apply step_getattr.
  - by apply step_setattr.
  - by apply step_readlink.
  - by apply step_access.
  - by apply step_setxattr.
  - by apply step_getxattr.
  - by apply step_listxattr.
  - by apply step_removexattr.
  - by apply step_open.
  - apply step_read; tauto.
  - apply step_write; tauto.
  - by apply step_on_file.
  - by apply step_on_file.
  - by apply step_on_file.
  - by apply step_on_file.
  - by apply step_on_file.
  - by apply step_on_file.
  - by apply step_release.
  - by apply step_opendir.
  - by apply step_readdir.
  - by apply step_readdirplus.
  - by apply step_fsyncdir.
  - by apply step_releasedir.
  - by apply step_lookup.
  - by apply step_mknod.
  - by apply step_mkdir.
  - by apply step_symlink.
  - by apply step_link.
  - by apply step_unlink.
  - by apply step_rmdir.
  - by apply step_rename.
  - by apply step_create.
  - by apply step_done.
Qed.
End other_requests.


(** *** The end of a request *)
Lemma unnamed_links h V m i v :
  mem_ok h V m → V !! i = Some v → v_links v = 0 → unnamed (contents V m) i ∧ i ≠ ROOT.
Proof.
  intros (Hok & _) Hv Hl. pose proof (t_links _ _ _ _ Hok i v Hv) as Hlinks. unfold none in Hlinks.
  pose proof (refs_nonneg m i). assert (0 ≤ root_ref i) by (unfold root_ref; case_decide; lia). split.
  - intros p es name e Hp He <-. destruct (contents_node _ _ _ _ Hp) as [w Hw].
    destruct (contents_data _ _ V m p w _ Hok Hw Hp) as (y & Hy & _ & Hc).
    pose proof (refs_pos m _ _ name e Hy ltac:(by simpl; rewrite (dir_content _ _ Hc))). lia.
  - intros ->. unfold root_ref in *. rewrite decide_True in * by done. lia.
Qed.

Lemma reap_ok h (s : ref) : served h s → idle h (reap s) ∧ reaped (tree_of s) (tree_of (reap s)).
Proof.
  intros [Hok Hheld]. pose proof Hok as (Ht & Hc & Hn).
  assert (∀ i v, s_nodes s !! i = Some v → unreferenced v ≠ false → v_links v = 0) as Hlinks.
  { intros i v _ Hv. destruct (unreferenced v) eqn:Hu; [|done]. by apply unreferenced_true in Hu as (? & _). }
  split; [split; [split_and!| |done]|].
  - apply tree_filter; [done|]. intros i v Hv Hu. split; [by eapply Hlinks|done].
  - intros i v [Hv _]%map_lookup_filter_Some. by apply (Hc i).
  - done.
  - intros i v [_ Hu]%map_lookup_filter_Some. done.
  - intros i. unfold tree_of, reap, contents, data_at. simpl.
    destruct (filter _ (s_nodes s) !! i) as [v|] eqn:Hf.
    + apply map_lookup_filter_Some in Hf as [Hv _]. rewrite Hv. by left.
    + apply map_lookup_filter_None in Hf as [Hnone|Hu]; [rewrite Hnone; by left|].
      destruct (s_nodes s !! i) as [v|] eqn:Hv; [|by left]. right. split; [done|].
      by eapply unnamed_links; [exact Hok|exact Hv|eapply Hlinks; [done|by apply Hu]].
Qed.

Lemma tree_step_files F F' T (r : request K) rep T' :
  (∀ fh, F' fh = F fh) → tree_step F T r rep T' → tree_step F' T r rep T'.
Proof.
  intros HF. assert (∀ ino fh, handle_fits F' ino fh = handle_fits F ino fh) as Hfits.
  { intros ino [fh|]; simpl; [by rewrite HF|done]. }
  assert (∀ A T1 T2 ino fh (x : Result Errno A) B, guarded F T1 T2 ino fh x B → guarded F' T1 T2 ino fh x B) as Hg.
  { intros A T1 T2 ino fh x B. unfold guarded. by rewrite Hfits. }
  destruct r; try done; unfold tree_step; destruct rep; try done; apply Hg.
Qed.
End reference.

(** ** Worlds *)
Section worlds.
Context {K : Type} `{Libc} (clock : nat → SystemTime) (self : MemoryFs) (Herrno : ENOTDIR ≠ ENOENT) (k0 : K).
Abbreviation W := (World Node unit unit Mem K).
Abbreviation ref := (RefState Node unit unit Mem K).
Abbreviation fs := (MemoryFs_NodeFs clock self).

(** The contents of the nodes in the runtime's table. *)
Definition tree_at (w : W) : tree := contents (nodes_of w) (rt_fs (w_rt w)).

Lemma rel_tree h s w : idle h s → rel idle_frame s w → tree_of s = tree_at w.
Proof. intros Hs HR. unfold tree_of, tree_at. by rewrite (rel_nodes s w (i_live _ _ Hs) HR), (r_fs _ _ _ HR). Qed.

Lemma start_idle : idle 0 (ref_start fs Mem_new k0).
Proof.
  set (d := new_data Directory (Dir ∅) 493 (fs_uid self) (fs_gid self) 0 (clock 0%nat)).
  set (m := mkMem {[0 := mkRwLock false d]} 1 1). set (v := mkRefNode (mkNode 0) 0 1 0 0 ROOT).
  assert (ref_start fs Mem_new k0 = mkRef {[ROOT := v]} m [] ∅ ∅ 1 k0 false) as -> by done.
  assert (∀ i, data_at {[ROOT := v]} m i = if decide (i = ROOT) then Some d else None) as Hat.
  { intros i. unfold data_at. rewrite lookup_singleton. repeat case_decide; try congruence; done. }
  assert (∀ i, refs i m = 0) as Hrefs.
  { intros i. unfold refs, m. simpl. rewrite <- insert_empty, sum_map_insert, sum_map_empty by done. done. }
  assert (∀ a l, mem_heap m !! a = Some l → a = 0 ∧ l = mkRwLock false d) as Hheap.
  { intros a l. simpl. rewrite lookup_singleton. case_decide; [|done]. intros [= <-]. by split. }
  assert (∀ i u, ({[ROOT := v]} : nodes) !! i = Some u → i = ROOT ∧ u = v) as Hnodes.
  { intros i u. rewrite lookup_singleton. case_decide; [|done]. intros [= <-]. by split. }
  split; simpl; [split_and!|by intros i u [-> ->]%Hnodes|done].
  - split.
    + intros i u [-> ->]%Hnodes. by exists d.
    + intros a l [-> ->]%Hheap. split_and!; [done..|]. unfold data_typed. simpl. split_and!; try done; int_lia.
    + by intros i j u u' [-> ->]%Hnodes [-> ->]%Hnodes.
    + intros a l name e [-> ->]%Hheap He.
      assert (dir_entries d = ∅) as Hes by done. simpl in He. by rewrite Hes, lookup_empty in He.
    + intros i u [-> ->]%Hnodes. rewrite Hrefs. done.
    + intros i u x [-> ->]%Hnodes. rewrite Hat, decide_True by done. by intros [= <-].
    + intros i x. rewrite Hrefs. unfold root_ref. case_decide; lia.
    + intros i x name e. rewrite Hat. case_decide; [|done]. intros [= <-] He.
      assert (dir_entries d = ∅) as Hes by done. simpl in He. by rewrite Hes, lookup_empty in He.
    + exists d. rewrite Hat, decide_True by done. done.
  - intros i u [-> ->]%Hnodes. unfold counted. simpl. lia.
  - unfold names, m. simpl. rewrite <- insert_empty, sum_map_insert, sum_map_empty by done. done.
Qed.

(** A billion requests keep every counter below its limit. *)
Definition max_requests : Z := 1000000000.

Lemma request_ok h (s : ref) r (Q : reply → ref → Prop) :
  idle (3 * h) s → 0 ≤ h < max_requests → request_wf r → proper (tree_of s) r →
  (∀ rep s' T', tree_step (file_of s) (tree_of s) r rep T' → reaped T' (tree_of s') → idle (3 * (h + 1)) s' → Q rep s') →
  sp_request fs r Q s.
Proof.
  unfold max_requests. intros Hs Hh Hwf Hp HQ. unfold sp_request.
  eapply mono_handler; [|apply (memory_step clock self Herrno (3 * h)); [done|lia|int_lia|done..]].
  intros rep s' [Hserved Hstep]. split; [apply Hserved|]. destruct (reap_ok _ _ Hserved) as [Hidle Hreaped].
  eapply HQ; [exact Hstep|exact Hreaped|]. replace (3 * (h + 1)) with (3 * h + 3) by lia. done.
Qed.

(** Runs of requests that [MemoryFs] does not panic on. *)
Abbreviation proper_run := (served_by fs Mem_new k0 (λ r w, proper (tree_at w) r)).

Lemma memory_idle history w :
  proper_run history w → Z.of_nat (length history) ≤ max_requests → few_steps w →
  Forall (λ p, ∃ rep, p.2 = Returned rep) history ∧ ∃ s, idle (3 * Z.of_nat (length history)) s ∧ rel idle_frame s w.
Proof.
  intros Hrun Hmax.
  apply (reference_invariant fs Mem_new k0 (λ r w, proper (tree_at w) r) (λ h s, idle (3 * h) s) max_requests history w); [| |done..].
  - split; [done|]. apply start_idle.
  - intros h r w1 s Hh Hs HR Hwf Hp. eapply request_ok; [done..| |].
    + by rewrite (rel_tree _ _ _ Hs HR).
    + intros rep s' T' _ _ Hs'. done.
Qed.

(** C17: the tree is consistent after a run of proper requests, at most a billion
    of them, of any clients, in any order: every name leads to a node of the
    recorded kind that the runtime still has, the runtime counts a link for
    every name and [nlink] follows, a directory has at most one name and knows
    its parent, no node's lock is poisoned; and every request was answered. A
    request is proper if the size it sets, or the end of its write, is at most
    [i64::MAX], the end of its read at most [u64::MAX], and the new directory
    of its rename a node that exists; nothing is said of a run with another
    request, since such a [setattr] poisons a lock and such a [rename] loses an
    entry ([truncate_poisons] and [rename_into_nothing] of [MemorySample]). *)
Theorem memory_tree_consistent history w :
  proper_run history w → Z.of_nat (length history) ≤ max_requests → few_steps w →
  Forall (λ p, ∃ rep, p.2 = Returned rep) history ∧ tree_ok none none (nodes_of w) (rt_fs (w_rt w)).
Proof.
  intros Hrun Hmax Hn. destruct (memory_idle history w Hrun Hmax Hn) as (Hret & s & Hs & HR). split; [done|].
  rewrite <- (rel_nodes _ _ (i_live _ _ Hs) HR), (r_fs _ _ _ HR). apply (i_ok _ _ Hs).
Qed.

(** One request more, on the reference. *)
Lemma memory_request history w r o w' (Q : reply → ref → Prop) :
  proper_run history w → Z.of_nat (length history) < max_requests →
  request_wf r → exec_request fs r w = (o, w') → few_steps w' →
  (∀ s, idle (3 * Z.of_nat (length history)) s → rel idle_frame s w → sp_request fs r Q s) →
  ∃ rep s', o = Returned rep ∧ Q rep s' ∧ rel idle_frame s' w'.
Proof.
  intros Hrun Hmax Hwf Hexec Hn HQ.
  pose proof (served_by_serves fs Mem_new k0 _ _ _ Hrun) as Hserves.
  destruct (serves_step fs Mem_new k0 history w Hserves) as (L & ops & Hat & _).
  destruct (request_refines fs Mem_new w w' r o ops Q Hat Hwf Hexec) as (ops' & _ & Hq). destruct (Hq Hn) as [Hn0 Hq'].
  destruct (memory_idle history w Hrun ltac:(lia) Hn0) as (_ & s & Hs & HR). apply (Hq' s HR). by apply HQ.
Qed.

(** C13: the in-memory filesystem, served by the runtime, implements a tree of
    contents, as long as it is sent proper requests only: after at most a
    billion of them, a proper request is answered, and its reply and its effect
    are the ones that [tree_step] gives, errors included; afterwards only nodes
    without a name may be gone. A request is proper if the size it sets, or the
    end of its write, is at most [i64::MAX], the end of its read at most
    [u64::MAX], and the new directory of its rename a node that exists; other
    requests panic or lose an entry ([truncate_poisons] and
    [rename_into_nothing] of [MemorySample]). *)
Theorem memory_refines_tree history w r o w' :
  proper_run history w → Z.of_nat (length history) < max_requests →
  request_wf r → proper (tree_at w) r → exec_request fs r w = (o, w') → few_steps w' →
  ∃ rep T', o = Returned rep ∧ tree_step (file_at w) (tree_at w) r rep T' ∧ reaped T' (tree_at w').
Proof.
  intros Hrun Hmax Hwf Hp Hexec Hn.
  destruct (memory_request history w r o w' (λ rep s', ∃ T', tree_step (file_at w) (tree_at w) r rep T' ∧
    reaped T' (tree_of s') ∧ idle (3 * (Z.of_nat (length history) + 1)) s') Hrun Hmax Hwf Hexec Hn)
    as (rep & s' & -> & (T' & Hstep & Hreaped & Hs') & HR').
  { intros s Hs HR. eapply request_ok; [done|lia|done|by rewrite (rel_tree _ _ _ Hs HR)|].
    intros rep s' T' Hstep Hreaped Hs'. exists T'. split_and!; [|done..]. rewrite <- (rel_tree _ _ _ Hs HR).
    eapply tree_step_files; [|exact Hstep]. intros fh. symmetry. by apply rel_files. }
  exists rep, T'. split_and!; [done..|]. by rewrite <- (rel_tree _ _ _ Hs' HR').
Qed.

(** C30: after a run of proper requests (at most a billion), a listing of a
    directory through an open handle offers the sink ".", ".." and every entry
    of the directory, once, in the order of their names, from the requested
    offset on and until the sink refuses one; the offset that comes with an
    entry is the one to go on from. *)
Theorem memory_readdir_lists history w sink add ino fh offset caller es o w' :
  proper_run history w → Z.of_nat (length history) < max_requests →
  tree_at w ino = Some (Dir es) → dir_handle_at w fh = Some ino →
  exec_request fs (ReqReaddir sink add ino fh offset caller) w = (o, w') → few_steps w' →
  ∃ parent l, v_parent <$> nodes_of w !! ino = Some parent ∧ l ≡ₚ map_to_list es ∧ Sorted String.le l.*1 ∧
    (∀ n e, listing ino parent l !! n = Some e → de_next_offset e = Z.of_nat n + 1) ∧
    o = Returned (RepUnit (Ok tt)) ∧
    w_sink w' = fill add (drop (Z.to_nat offset) (listing ino parent l)) sink.
Proof.
  intros Hrun Hmax HT Hdir Hexec Hn. destruct (contents_node _ _ _ _ HT) as [v Hv].
  destruct (memory_request history w (ReqReaddir sink add ino fh offset caller) o w' (λ rep s', rep = RepUnit (Ok tt) ∧
    s_sink s' = fill add (drop (Z.to_nat offset) (listing ino (v_parent v) (bt_iter es))) sink) Hrun Hmax I Hexec Hn)
    as (rep & s' & -> & [-> Hsink] & HR').
  { intros s Hs HR. unfold sp_request, sp_handler, sp_reply, sp_with_sink, mbind, wp_bind. unfold max_requests in Hmax.
    apply (readdir_ok clock self (3 * Z.of_nat (length history))); [by destruct Hs; split|int_lia|].
    change (s_nodes (put_sink sink s)) with (s_nodes s). rewrite (rel_nodes _ _ (i_live _ _ Hs) HR), Hv.
    change (dir_of (put_sink sink s)) with (dir_of s). unfold handle_fits.
    assert (dir_of s fh = Some ino) as ->.
    { rewrite <- Hdir. by apply rel_dirs. }
    rewrite bool_decide_true by done. change (tree_of (put_sink sink s)) with (tree_of s).
    rewrite (rel_tree _ _ _ Hs HR), HT. split; [apply Hs|]. done. }
  exists (v_parent v), (bt_iter es). split_and!; [by rewrite Hv|apply bt_iter_permutation|apply bt_iter_sorted|apply listing_offsets|done|].
  by rewrite (r_sink _ _ _ HR').
Qed.
End worlds.
