(* ===== verification/MemorySample.v ===== *)
(** * Runs of the in-memory filesystem

    Concrete requests against [MemoryFs], evaluated: a run that the theorems of
    [MemorySpec] and [MemoryInv] apply to, and the behaviours at their edges. *)

From stdpp Require Import sorting.
From S2P Require Import Prelude Types Std NodeTable NodeTableInv HandleRec NodeFs Runtime RuntimeInv Requests Reference RefLogic Refinement.
From S2P Require Import MemoryFs MemoryInv MemoryTree MemoryOps MemoryData MemoryList MemorySpec.

Abbreviation sink := (list NodeFs.DirEntry).
Abbreviation MW := (World Node unit unit Mem sink).

Definition ticks (n : nat) : SystemTime := Z.of_nat n.
Definition mem_fs : NodeFs Node unit unit Mem := MemoryFs_NodeFs ticks (mkMemoryFs 1000 1000).
Definition mem_who : Caller := Caller_default.
Definition collect (e : NodeFs.DirEntry) (k : sink) : bool * sink := (true, k ++ [e]).

Definition mem_serve (r : request sink) (w : MW) : outcome reply * MW := exec_request mem_fs r w.
Definition mem_world0 : MW := mkWorld (Runtime_start mem_fs Mem_new) [].

(** mkdir d; create d/f; write; opendir / *)
Definition mem_r1 : request sink := ReqMkdir 1 "d" 493 0 mem_who.
Definition mem_r2 : request sink := ReqCreate 2 "f" 420 0 0 mem_who.
Definition mem_r3 : request sink := ReqWrite 3 1 [104; 105] 1 mem_who.
Definition mem_r4 : request sink := ReqOpendir 1 0 mem_who.
Definition mem_w1 : MW := (mem_serve mem_r1 mem_world0).2.
Definition mem_w2 : MW := (mem_serve mem_r2 mem_w1).2.
Definition mem_w3 : MW := (mem_serve mem_r3 mem_w2).2.
Definition mem_w4 : MW := (mem_serve mem_r4 mem_w3).2.
Definition mem_history : list (request sink * outcome reply) :=
  [(mem_r4, (mem_serve mem_r4 mem_w3).1); (mem_r3, (mem_serve mem_r3 mem_w2).1);
   (mem_r2, (mem_serve mem_r2 mem_w1).1); (mem_r1, (mem_serve mem_r1 mem_world0).1)].

Lemma mem_run : served_by mem_fs Mem_new ([] : sink) (λ r w, proper (tree_at w) r) mem_history mem_w4.
Proof.
  assert (∀ r w, exec_request mem_fs r w = ((mem_serve r w).1, (mem_serve r w).2)) as Hexec.
  { intros r w. unfold mem_serve. by destruct (exec_request mem_fs r w). }
  apply (by_request _ _ _ _ (drop 1 mem_history) mem_w3); [|done|done|apply Hexec|by vm_compute].
  apply (by_request _ _ _ _ (drop 2 mem_history) mem_w2); [|done|by vm_compute|apply Hexec|by vm_compute].
  apply (by_request _ _ _ _ (drop 3 mem_history) mem_w1); [|done|done|apply Hexec|by vm_compute].
  apply (by_request _ _ _ _ [] mem_world0); [|done|done|apply Hexec|by vm_compute].
  apply by_new. by vm_compute.
Qed.

Lemma mem_errno : ENOTDIR ≠ ENOENT.
Proof. by vm_compute. Qed.

Example read_back :
  (mem_serve (ReqRead 3 1 0 10 mem_who) mem_w3).1 = Returned (RepData (Ok [0; 104; 105])).
Proof. by vm_compute. Qed.

(** ** At the edges *)
Definition mem_truncate (size : Z) : request sink := ReqSetattr 3 None
  {| set_mode := None; set_uid := None; set_gid := None; set_size := Some size; set_atime := None;
     set_mtime := None; set_ctime := None; set_crtime := None; set_flags := None |} mem_who.

(** A file that cannot be that long: the panic poisons the lock of the node,
    and the next request on it panics as well. *)
Example truncate_poisons :
  let '(o, w) := mem_serve (mem_truncate (i64_max + 1)) mem_w4 in
  o = Panicked ∧ (mem_serve (ReqGetattr 3 None mem_who) w).1 = Panicked.
Proof. by vm_compute. Qed.

(** The flag of [RENAME_NOREPLACE]: the target is replaced all the same. *)
Example rename_ignores_flags :
  let '(o1, w1) := mem_serve (ReqCreate 2 "g" 420 0 0 mem_who) mem_w4 in
  let '(o2, w2) := mem_serve (ReqRename 2 "f" 2 "g" 1 mem_who) w1 in
  o2 = Returned (RepUnit (Ok tt)) ∧ tree_at w2 2 = Some (Dir {[ "g" := mkEntry 3 RegularFile ]}).
Proof. vm_compute. split; [done|]. f_equal. Qed.

(** A new directory that is not a node: the entry is lost. *)
Example rename_into_nothing :
  let '(o, w) := mem_serve (ReqRename 2 "f" 99 "f" 0 mem_who) mem_w4 in
  o = Returned (RepUnit (Ok tt)) ∧ tree_at w 2 = Some (Dir ∅) ∧ v_links <$> nodes_of w !! 3 = Some 1.
Proof. by vm_compute. Qed.

(** ** Where the theorems apply *)
Lemma memory_tree_consistent_witness :
  Forall (λ p, ∃ rep, p.2 = Returned rep) mem_history ∧ tree_ok none none (nodes_of mem_w4) (rt_fs (w_rt mem_w4)).
Proof.
  apply (memory_tree_consistent ticks (mkMemoryFs 1000 1000) mem_errno [] mem_history mem_w4 mem_run); [done|by vm_compute].
Defined.

Definition rename_request : request sink := ReqRename 2 "f" 1 "g" 0 mem_who.

Lemma memory_refines_tree_witness :
  ∃ rep T', Returned (RepUnit (Ok tt)) = Returned rep ∧
    tree_step (file_at mem_w4) (tree_at mem_w4) rename_request rep T' ∧
    reaped T' (tree_at (mem_serve rename_request mem_w4).2).
Proof.
  apply (memory_refines_tree ticks (mkMemoryFs 1000 1000) mem_errno [] mem_history mem_w4 rename_request);
    [exact mem_run|done|exact I|vm_compute; by eexists| |by vm_compute].
  vm_compute. reflexivity.
Defined.

Definition list_request : request sink := ReqReaddir [] collect 1 2 0 mem_who.

Lemma memory_readdir_lists_witness :
  ∃ parent l, v_parent <$> nodes_of mem_w4 !! 1 = Some parent ∧ l ≡ₚ map_to_list {[ "d" := mkEntry 2 Directory ]} ∧
    Sorted String.le l.*1 ∧
    (∀ n e, listing 1 parent l !! n = Some e → de_next_offset e = Z.of_nat n + 1) ∧
    (mem_serve list_request mem_w4).1 = Returned (RepUnit (Ok tt)) ∧
    w_sink (mem_serve list_request mem_w4).2 = fill collect (drop (Z.to_nat 0) (listing 1 parent l)) [].
Proof.
  apply (memory_readdir_lists ticks (mkMemoryFs 1000 1000) mem_errno [] mem_history mem_w4 [] collect 1 2 0 mem_who);
    [exact mem_run|done|by vm_compute|by vm_compute|by vm_compute|by vm_compute].
Defined.

Lemma memory_well_typed_witness : mem_typed (rt_fs (w_rt mem_w4)).
Proof.
  apply (memory_well_typed ticks (mkMemoryFs 1000 1000) [] mem_history mem_w4).
  exact (served_by_serves _ _ _ _ _ _ mem_run).
Defined.

(** The first request, on the state that the reference starts from. *)
Lemma runtime_refines_reference_witness :
  ∃ rep s', Returned RepNone = Returned rep ∧ rep = RepNone ∧ rel idle_frame s' (mem_serve (ReqForget 9 1) mem_world0).2.
Proof.
  apply (runtime_refines_reference mem_fs Mem_new [] [] mem_world0 _ (ReqForget 9 1) (Returned RepNone)
    (λ rep _, rep = RepNone) (ref_start mem_fs Mem_new []));
    [by apply serves_new; vm_compute|done|by vm_compute|by vm_compute|apply start_rel|].
  done.
Defined.
