(* ===== verification/PoolState.v ===== *)
(** * The filesystem's own state on every schedule

    An invariant that each callback writes only states of, as long as it reads
    such states, holds in every pool: so do the typing of the in-memory
    filesystem's nodes and the consistency of the path adapter's names. *)

From S2P Require Import Prelude Types NodeTable HandleRec NodeFs Runtime RuntimeInv RuntimeSpec Requests Namespace PathFs FsInv Threads ThreadLogic Pool.
From S2P Require Import MemoryFs MemoryInv.

Section stays.
Context {N H D S K : Type} `{Libc} (I : S → Prop).
Abbreviation CW := (World N H D S (K * Arcs H D)).

(** Every step of the thread keeps the invariant. *)
Fixpoint stays {A} (t : thr CW A) : Prop :=
  match t with
  | Ret _ | Unwind => True
  | Act act c p => ∀ w, holds I w → holds I (act w).2 ∧
      match (act w).1 with Returned b => stays (c b) | Panicked => stays p | Blocked => True end
  end.

Lemma stays_act {A B} (act : M CW B) (c : B → thr CW A) p :
  preserves I act → (∀ b, stays (c b)) → stays p → stays (Act act c p).
Proof. intros Hact Hc Hp w Hw. split; [by apply Hact|]. by destruct (act w).1. Qed.

Lemma stays_ret {A} (a : A) : stays (Ret a).
Proof. exact Logic.I. Qed.
Lemma stays_unwind {A} : stays (Unwind : thr CW A).
Proof. exact Logic.I. Qed.

Lemma stays_then {A B} (m : thr CW A) (f : option A → thr CW B) :
  stays m → (∀ r, stays (f r)) → stays (thr_then m f).
Proof.
  intros Hm Hf. induction m as [a| |C act c IHc p IHp]; simpl; [apply Hf..|].
  intros w Hw. destruct (Hm w Hw) as [Ha Hc]. split; [done|]. destruct (act w) as [[b| |] w']; simpl in *; auto.
Qed.

Lemma preserves_at_files {A} (m : M (gmap Z (HandleRecord H) * Detached H) A) : preserves I (at_files m : M CW A).
Proof. intros w Hw. unfold at_files, zoom. by destruct (m _). Qed.
Lemma preserves_at_dirs {A} (m : M (gmap Z (HandleRecord D) * Detached D) A) : preserves I (at_dirs m : M CW A).
Proof. intros w Hw. unfold at_dirs, zoom. by destruct (m _). Qed.

Lemma stays_callback {E X A} (emit : E → X → thr CW (bool * X)) (p : prog N S E A) x :
  keeps I p → (∀ e x, stays (emit e x)) → stays (run_callback emit p x).
Proof.
  intros Hp He. revert x. induction p; intros x; simpl in Hp; cbn [run_callback]; try done;
    try (apply stays_act; [|naive_solver|naive_solver]; try apply preserves_shared).
  - intros w Hw. split; [done|]. simpl. apply H1, Hp, Hw.
  - intros w _. by destruct Hp.
  - intros w Hw. unfold own_step. destruct (f (rt_fs (w_rt w))) as [[b s]|] eqn:Hs; [|done].
    destruct (Hp _ _ _ Hw Hs) as [Hs' Hk]. split; [done|]. simpl. auto.
  - unfold fs_get. apply preserves_bind; [apply preserves_shared|]. intros [l|]; [|apply preserves_ret].
    apply preserves_bind; [by intros w|intros _; apply preserves_ret].
  - intros w Hw. unfold fs_drop_ref. case_bool_decide; [|done].
    apply preserves_bind; [apply preserves_shared|by intros _ w'|done].
  - apply stays_then; [apply He|]. intros [[b x']|]; naive_solver.
Qed.

(** A callback that keeps the invariant, and the handlers around it. *)
Lemma preserves_between {A} (act : M CW A) : between _ act → preserves I act.
Proof.
  induction 1; [|apply preserves_shared|apply preserves_shared|apply preserves_at_files|apply preserves_at_dirs|
    apply preserves_handles|apply preserves_sink|by intros w Hw].
  apply preserves_bind; [apply preserves_shared|intros r; apply preserves_ret].
Qed.

Lemma stays_gentle {A} (t : thr CW A) : gentle t → stays t.
Proof.
  induction t as [| |B act c IHc p IHp]; [done..|]. intros (Hact & _ & Hc & Hp).
  apply stays_act; [by apply preserves_between|auto|auto].
Qed.

#[export] Instance stays_closed : Closed (@stays).
Proof. split; [done|done|intros; apply stays_act; auto using preserves_between|intros; by apply stays_then]. Qed.

Lemma stays_called E A (p : prog N S E A) : keeps I p → called (@stays) E A p.
Proof. intros Hp X emit x He. apply stays_callback; [done|]. intros e y. by apply stays_gentle. Qed.
End stays.

Lemma stays_thread {N H D S K} `{Libc} (I : S → Prop) (fs : NodeFs N H D S) (r : request K) :
  fs_keeps I fs → (∀ x0 x1 x2 x3, keeps I (fs_link fs x0 x1 x2 x3)) → request_wf r → stays I (thread_of fs r).
Proof.
  intros Hfs Hlink Hwf. apply (thread_closed (@stays _ _ _ _ _ I)); [|done|].
  - eapply each_callback_mono; [|exact Hfs]. intros E A p. apply stays_called.
  - intros ino newparent newname caller _. by apply stays_called.
Qed.

#[local] Opaque stays.

(** ** Pools *)
Section pools.
Context {N H D S K : Type} `{Libc} (I : S → Prop) (fs : NodeFs N H D S) (Hfs : fs_keeps I fs).
Context (Hlink : ∀ x0 x1 x2 x3, keeps I (fs_link fs x0 x1 x2 x3)).
Implicit Types (p : pool (N := N) (H := H) (D := D) (S := S) (K := K)).

Lemma stays_advance {A} (t : thr (World N H D S (K * Arcs H D)) A) w t' w' :
  stays I t → holds I w → advance t w = Some (t', w') → stays I t' ∧ holds I w'.
Proof.
  destruct t as [| |B act c p]; [done..|]. intros Ht Hw. destruct (Ht w Hw) as [Hw' Hc]. simpl.
  destruct (act w) as [[b| |] w1]; simpl in *; intros; simplify_eq; done.
Qed.

Lemma pooled_stays s0 p : I (fs_root fs s0).2 → pooled fs s0 p →
  I (rt_fs (p_rt p)) ∧ ∀ k j, p_threads p !! k = Some j → stays I (j_thread j).
Proof.
  intros Hroot. induction 1 as [w Hnew _|a p p' _ [Hp Ht] Hstep _].
  - split; [|by intros k j; simpl; rewrite lookup_empty].
    assert (holds I (call (fs_populate fs) (mkWorld (Runtime_start fs s0) tt)).2) as Hh.
    { apply preserves_call; [by destruct Hfs|]. unfold holds, Runtime_start. by destruct (fs_root fs s0). }
    unfold Runtime_new in Hnew. by rewrite Hnew in Hh.
  - destruct a as [k r x|k|k]; simpl in Hstep.
    + case_bool_decide; [done|]. destruct (negb _) eqn:Hr; [done|]. destruct (debit _ _); simplify_eq. split; [done|].
      assert (request_wf r) as Hwf by (by apply issue_wf).
      intros k' j. simpl. rewrite lookup_insert. case_decide; [intros [= <-]; by apply stays_thread|apply Ht].
    + destruct (p_threads p !! k) as [j|] eqn:Hj; [|done]. destruct (advance _ _) as [[t w]|] eqn:Hadv; simplify_eq. simpl.
      destruct (stays_advance _ _ _ _ (Ht k j Hj) (Hp : holds I (mkWorld (p_rt p) (j_sink j, p_arcs p))) Hadv) as [Ht' Hw]. split; [done|].
      intros k' j'. rewrite lookup_insert. case_decide; [by intros [= <-]|apply Ht].
    + destruct (p_threads p !! k) as [[x [rep| |]]|]; simplify_eq; (split; [done|]); simpl;
        intros k' j; rewrite lookup_delete; case_decide; try done; apply Ht.
Qed.
End pools.

(** C23: the in-memory filesystem is well typed on every schedule: whatever is requested, of whichever nodes and handles, in any interleaving and even after panics, every node's content is of the form its kind calls for, no file is longer than [isize::MAX], the permissions are twelve bits and the link count fits its field. *)
Theorem memory_well_typed_on_every_schedule `{Libc} {K} (clock : nat → SystemTime) (self : MemoryFs)
    (p : pool (N := Node) (H := unit) (D := unit) (S := Mem) (K := K)) :
  pooled (MemoryFs_NodeFs clock self) Mem_new p → mem_typed (rt_fs (p_rt p)).
Proof.
  apply (pooled_stays mem_typed _ (memory_fs_keeps clock self) (memory_link_keeps clock self)), mem_new_typed.
Qed.

(** Two directories that are made at the same time. *)
Section sample.
Local Existing Instance linux_libc.

Definition twin_fs : NodeFs Node unit unit Mem := MemoryFs_NodeFs Z.of_nat (mkMemoryFs 1000 1000).
Abbreviation twin_pool := (pool (N := Node) (H := unit) (D := unit) (S := Mem) (K := unit)).
Definition twin_start : twin_pool := pool_new (Runtime_start twin_fs Mem_new).
Definition twins : list (action (K := unit)) :=
  [Issue 1 (ReqMkdir 1 "a" 493 0 Caller_default) tt; Issue 2 (ReqMkdir 1 "b" 493 0 Caller_default) tt] ++
  mjoin (repeat [Run 1; Run 2] 5).

Lemma twins_pooled : ∃ p, run_pool twin_fs twins twin_start = Some p ∧ pooled twin_fs Mem_new p.
Proof.
  assert (bool_decide (is_Some (run_pool twin_fs twins twin_start)) = true) as [p Hp]%bool_decide_eq_true by (vm_compute; reflexivity).
  exists p. split; [done|]. apply (pooled_run twin_fs Mem_new twins twin_start); [|done].
  by apply (pooled_new twin_fs Mem_new (mkWorld (Runtime_start twin_fs Mem_new) tt)).
Qed.

Lemma memory_well_typed_on_every_schedule_witness :
  ∃ p : twin_pool, run_pool twin_fs twins twin_start = Some p ∧ mem_typed (rt_fs (p_rt p)).
Proof.
  destruct twins_pooled as (p & Hrun & Hp). exists p. split; [done|].
  apply (memory_well_typed_on_every_schedule Z.of_nat (mkMemoryFs 1000 1000) p Hp).
Defined.
End sample.
