(* ===== verification/HelloFs.v ===== *)
(** * The hello filesystem ([fuse3/examples/hello_ll.rs])

    A read-only filesystem of a directory and one file.  The directory's map is
    behind a lock inside the node, so the model keeps it in a heap and the node
    holds its address.  No code that runs under the lock can panic, so the lock
    is never poisoned. *)

From S2P Require Import Prelude Types Std NodeTable NodeFs.

Definition HELLO_CONTENT : bytes := os_bytes "Hello World!" ++ [10].

(** [entries] is the address of the directory's [RwLock]. *)
Inductive HelloNode := HelloDir (entries : Z) | HelloFile (content : bytes).

(** What the locks hold. *)
Record Maps := mkMaps { maps_heap : gmap Z (gmap string NodeId); maps_next : Z }.
Definition Maps_new : Maps := mkMaps ∅ 0.

Record HelloFs := mkHelloFs { mounted_at : SystemTime }.

(** [entries.read().unwrap()], and an insertion under [entries.write().unwrap()]. *)
Definition read_entries (a : Z) : M Maps (gmap string NodeId) := λ s,
  match maps_heap s !! a with Some es => (Returned es, s) | None => (Panicked, s) end.
Definition insert_entry (a : Z) (name : string) (id : NodeId) : M Maps unit := λ s,
  match maps_heap s !! a with
  | Some es => (Returned tt, mkMaps (<[a := <[name := id]> es]> (maps_heap s)) (maps_next s))
  | None => (Panicked, s)
  end.

Section hello.
Context `{Libc}.
Implicit Types (self : HelloFs).

Definition attr_of self (node : HelloNode) : NodeAttr :=
  let '(kind, perm, size, nlink) := match node with
    | HelloDir _ => (Directory, 493, 0, 2)
    | HelloFile content => (RegularFile, 292, Z.of_nat (length content), 1)
    end in
  {| attr_size := size; attr_blocks := attr_blocks NodeAttr_default;
     attr_atime := mounted_at self; attr_mtime := mounted_at self;
     attr_ctime := mounted_at self; attr_crtime := mounted_at self;
     attr_kind := kind; attr_perm := perm; attr_nlink := nlink;
     attr_uid := attr_uid NodeAttr_default; attr_gid := attr_gid NodeAttr_default;
     attr_rdev := attr_rdev NodeAttr_default; attr_blksize := attr_blksize NodeAttr_default;
     attr_flags := attr_flags NodeAttr_default |}.

Definition hello_root (s : Maps) : HelloNode * Maps :=
  (HelloDir (maps_next s), mkMaps (<[maps_next s := ∅]> (maps_heap s)) (maps_next s + 1)).

Definition hello_populate : prog HelloNode Maps Empty_set unit :=
  CxInsert (HelloFile HELLO_CONTENT) ROOT (λ hello,
  with_get ROOT
    (λ root, match root with
      | HelloDir entries => atomically (insert_entry entries "hello" hello)
      | HelloFile _ => Done tt
      end)
    (Done tt)).

Definition hello_getattr self (node : HelloNode) (h : option unit) (c : Caller) :
    prog HelloNode Maps Empty_set (Result Errno NodeAttr) :=
  Done (Ok (attr_of self node)).

Definition hello_lookup (parent : NodeId) (name : OsString) (c : Caller) :
    prog HelloNode Maps Empty_set (Result Errno (option NodeId)) :=
  with_get parent
    (λ node, match node with
      | HelloDir entries => es ← atomically (read_entries entries); Done (Ok (es !! to_string_lossy name))
      | HelloFile _ => Done (Err ENOTDIR)
      end)
    (Done (Err ENOENT)).

Definition hello_open (node : HelloNode) (flags : Z) (c : Caller) :
    prog HelloNode Maps Empty_set (Result Errno (Opened unit)) :=
  match node with
  | HelloFile _ => Done (Ok (Opened_new tt))
  | HelloDir _ => Done (Err EISDIR)
  end.

(** [offset + size] wraps in a release build; slicing beyond the content, or
    from an end before the start, panics. *)
Definition hello_read (node : HelloNode) (h : unit) (offset size : Z) (c : Caller) :
    prog HelloNode Maps Empty_set (Result Errno bytes) :=
  match node with
  | HelloFile content =>
      if Z.of_nat (length content) <=? offset then Done (Ok [])
      else match slice content offset (Z.min (as_u64 (offset + size)) (Z.of_nat (length content))) with
           | Some data => Done (Ok data)
           | None => Crash
           end
  | HelloDir _ => Done (Err EISDIR)
  end.

Fixpoint emit_names (l : list (string * NodeId)) (i : Z) : prog HelloNode Maps DirEntry (Result Errno unit) :=
  match l with
  | [] => Done (Ok tt)
  | (name, id) :: l =>
      Emit (mkDirEntry name id RegularFile (as_u64 (i + 3))) (λ accepted,
        if (accepted : bool) then emit_names l (i + 1) else Done (Ok tt))
  end.

Definition hello_readdir (node : HelloNode) (this parent : NodeId) (dh : unit) (offset : Z) (c : Caller) :
    prog HelloNode Maps DirEntry (Result Errno unit) :=
  match node with
  | HelloDir entries =>
      let rest (cursor : Z) :=
        es ← atomically (read_entries entries);
        emit_names (drop (Z.to_nat (cursor - 2)) (bt_iter es)) (cursor - 2) in
      let dotdot (cursor : Z) :=
        if cursor <? 2
        then Emit (mkDirEntry ".." parent Directory 2) (λ accepted,
               if (accepted : bool) then rest 2 else Done (Ok tt))
        else rest cursor in
      if offset <? 1
      then Emit (mkDirEntry "." this Directory 1) (λ accepted,
             if (accepted : bool) then dotdot 1 else Done (Ok tt))
      else dotdot offset
  | HelloFile _ => Done (Err ENOTDIR)
  end.

(** The callbacks that the source does not write are the trait's defaults:
    [opendir] is one of them. *)
Definition HelloFs_NodeFs self : NodeFs HelloNode unit unit Maps := {|
  SUPPORTS_POSIX_LOCKS := false;
  SUPPORTS_READDIRPLUS := false;
  fs_root := hello_root;
  fs_populate := hello_populate;
  fs_init := default_init;
  fs_destroy := default_destroy;
  fs_getattr := hello_getattr self;
  fs_setattr := default_setattr;
  fs_lookup := hello_lookup;
  fs_readlink := default_readlink;
  fs_mknod := default_mknod;
  fs_mkdir := default_mkdir;
  fs_symlink := default_symlink;
  fs_unlink := default_unlink;
  fs_rmdir := default_rmdir;
  fs_rename := default_rename;
  fs_link := default_link;
  fs_open := hello_open;
  fs_read := hello_read;
  fs_write := default_write;
  fs_flush := default_flush;
  fs_release := default_release;
  fs_fsync := default_fsync;
  fs_opendir := default_opendir;
  fs_readdir := hello_readdir;
  fs_readdirplus := default_readdirplus;
  fs_releasedir := default_releasedir;
  fs_fsyncdir := default_fsyncdir;
  fs_statfs := default_statfs;
  fs_setxattr := default_setxattr;
  fs_getxattr := default_getxattr;
  fs_listxattr := default_listxattr;
  fs_removexattr := default_removexattr;
  fs_access := default_access;
  fs_create := default_create;
  fs_fallocate := default_fallocate;
  fs_lseek := default_lseek;
  fs_getlk := default_getlk;
  fs_setlk := default_setlk;
  fs_copy_file_range := default_copy_file_range;
|}.
End hello.
