(* ===== verification/HelloSpec.v ===== *)
(** * What the hello filesystem answers

    Served by the runtime, [HelloFs] is a directory with one file: [hello_answer]
    gives the reply to every request but a read that panics ([read_wraps]), and
    no request changes anything but the runtime's own counters and handles. *)

From S2P Require Import Prelude Types Std NodeTable NodeTableInv HandleRec NodeFs Runtime RuntimeInv Requests.
From S2P Require Import Reference RefMono RefLogic Refinement HelloFs.

(** ** The answers *)
Section answers.
Context {K : Type} `{Libc} (self : HelloFs).
Implicit Types (i : NodeId) (F : Z → option NodeId).

(** The tree: [i] is the inode of the file. *)
Definition hello_node i (ino : Z) : option HelloNode :=
  if decide (ino = ROOT) then Some (HelloDir 0)
  else if decide (ino = i) then Some (HelloFile HELLO_CONTENT) else None.

(** A request on a node, perhaps with an open file. *)
Definition on_hello {A} i F (ino : Z) (fh : option Z) (f : HelloNode → Result Errno A) : Result Errno A :=
  match hello_node i ino with
  | Some n => if handle_fits F ino fh then f n else Err EBADF
  | None => Err ENOENT
  end.

Definition open_answer (n : HelloNode) (rep : reply) : Prop :=
  match n with
  | HelloFile _ => ∃ fh, rep = RepOpen (Ok (mkOpenReply fh OpenHints_default))
  | HelloDir _ => rep = RepOpen (Err EISDIR)
  end.

Definition read_answer (offset size : Z) (n : HelloNode) : Result Errno bytes :=
  match n with
  | HelloFile content => Ok (bytes_at content offset size)
  | HelloDir _ => Err EISDIR
  end.

Definition lookup_answer i (name : OsString) (n : HelloNode) (rep : reply) : Prop :=
  match n with
  | HelloDir _ =>
      if decide (name = "hello")
      then ∃ g, rep = RepLookup (Ok (Found (mkEntryReply i g (attr_of self (HelloFile HELLO_CONTENT)))))
      else rep = RepLookup (Ok Negative)
  | HelloFile _ => rep = RepLookup (Err ENOTDIR)
  end.

(** [F]: the nodes of the open files. No directory is ever open. *)
Definition hello_answer i F (r : request K) (rep : reply) : Prop :=
  match r with
  | ReqInit _ => ∃ conn, rep = RepConn conn
  | ReqDestroy | ReqForget _ _ => rep = RepNone
  | ReqStatfs _ _ => ∃ st, rep = RepStatfs (Ok st)
  | ReqGetattr ino fh _ => rep = RepAttr (on_hello i F ino fh (λ n, Ok (attr_of self n)))
  | ReqSetattr ino fh _ _ => rep = RepAttr (on_hello i F ino fh (λ _, Err ENOSYS))
  | ReqReadlink ino _ => rep = RepPath (on_hello i F ino None (λ _, Err ENOSYS))
  | ReqAccess ino _ _ => rep = RepUnit (on_hello i F ino None (λ _, Ok tt))
  | ReqSetxattr ino _ _ _ _ | ReqRemovexattr ino _ _ => rep = RepUnit (on_hello i F ino None (λ _, Err ENOSYS))
  | ReqGetxattr ino _ _ _ | ReqListxattr ino _ _ => rep = RepXattr (on_hello i F ino None (λ _, Err ENOSYS))
  | ReqOpen ino _ _ =>
      match hello_node i ino with Some n => open_answer n rep | None => rep = RepOpen (Err ENOENT) end
  | ReqRead ino fh offset size _ => rep = RepData (on_hello i F ino (Some fh) (read_answer offset size))
  | ReqWrite ino fh _ _ _ => rep = RepCount (on_hello i F ino (Some fh) (λ _, Err ENOSYS))
  | ReqFlush ino fh _ | ReqFsync ino fh _ _ => rep = RepUnit (on_hello i F ino (Some fh) (λ _, Ok tt))
  | ReqFallocate ino fh _ _ _ _ => rep = RepUnit (on_hello i F ino (Some fh) (λ _, Err ENOSYS))
  | ReqLseek ino fh _ _ _ => rep = RepCount (on_hello i F ino (Some fh) (λ _, Err ENOSYS))
  | ReqGetlk ino fh _ _ _ => rep = RepLock (on_hello i F ino (Some fh) (λ _, Err ENOSYS))
  | ReqSetlk ino fh _ _ _ _ => rep = RepUnit (on_hello i F ino (Some fh) (λ _, Err ENOSYS))
  | ReqRelease ino fh _ => rep = RepUnit (if handle_fits F ino (Some fh) then Ok tt else Err EBADF)
  | ReqOpendir ino _ _ => rep = RepOpen (on_hello i F ino None (λ _, Err ENOSYS))
  | ReqReaddir _ _ ino _ _ _ => rep = RepUnit (on_hello i F ino None (λ _, Err EBADF))
  | ReqReaddirplus _ _ ino _ _ _ => rep = RepPlus (on_hello i F ino None (λ _, Err EBADF))
  | ReqFsyncdir ino _ _ _ => rep = RepUnit (on_hello i F ino None (λ _, Err EBADF))
  | ReqReleasedir _ _ _ => rep = RepUnit (Err EBADF)
  | ReqLookup parent name _ =>
      match hello_node i parent with Some n => lookup_answer i name n rep | None => rep = RepLookup (Err ENOENT) end
  | ReqMknod _ _ _ _ _ _ | ReqMkdir _ _ _ _ _ | ReqSymlink _ _ _ _ | ReqLink _ _ _ _ => rep = RepEntry (Err ENOSYS)
  | ReqUnlink _ _ _ | ReqRmdir _ _ _ | ReqRename _ _ _ _ _ _ => rep = RepUnit (Err ENOSYS)
  | ReqCreate _ _ _ _ _ _ => rep = RepCreate (Err ENOSYS)
  | ReqCopyFileRange _ _ _ _ _ _ _ => rep = RepCount (Err ENOSYS)
  end.

(** The offset and the size of a read are [u64]s. *)
Definition hello_typed (r : request K) : Prop :=
  match r with
  | ReqRead _ _ offset size _ => is_u64 offset ∧ is_u64 size
  | _ => True
  end.

(** A read of the open file from a byte that it has, where [offset + size] wraps. *)
Definition read_wraps i F (r : request K) : bool :=
  match r with
  | ReqRead ino fh offset size _ =>
      match hello_node i ino with
      | Some (HelloFile content) =>
          handle_fits F ino (Some fh) && (offset <? Z.of_nat (length content)) && (u64_max <? offset + size)
      | _ => false
      end
  | _ => false
  end.

(** An error that no callback answers. *)
Definition NO_ANSWER : Errno :=
  mkErrno (1 + Z.abs libc_ENOENT + Z.abs libc_EBADF + Z.abs libc_EISDIR).

Lemma NO_ANSWER_new : ENOENT ≠ NO_ANSWER ∧ EBADF ≠ NO_ANSWER ∧ EISDIR ≠ NO_ANSWER.
Proof. split_and!; intros [= Heq]; lia. Qed.

(** The replies of the filesystem whose [read] fails where that of the source
    panics. *)
Definition total_answer i F (r : request K) (rep : reply) : Prop :=
  if read_wraps i F r then rep = RepData (Err NO_ANSWER) else hello_answer i F r rep.
End answers.

#[local] Arguments total_answer {_ _} _ _ _ _ _ /.

(** ** Without the panic

    The reference has no panics, so the theorem is first proved of the
    filesystem whose [read] answers [NO_ANSWER] in place of the panic; the two leave
    the same world behind each request. *)
Definition total_read `{Libc} (node : HelloNode) (h : unit) (offset size : Z) (c : Caller) :
    prog HelloNode Maps Empty_set (Result Errno bytes) :=
  match hello_read node h offset size c with Crash => Done (Err NO_ANSWER) | p => p end.

Definition hello_total `{Libc} (self : HelloFs) : NodeFs HelloNode unit unit Maps := {|
  SUPPORTS_POSIX_LOCKS := false;
  SUPPORTS_READDIRPLUS := false;
  fs_root := hello_root;
  fs_populate := hello_populate;
  fs_init := default_init;
  fs_destroy := default_destroy;
  fs_getattr := hello_getattr self;
  fs_setattr := default_setattr;
  fs_lookup := hello_lookup;
  fs_readlink := default_readlink;
  fs_mknod := default_mknod;
  fs_mkdir := default_mkdir;
  fs_symlink := default_symlink;
  fs_unlink := default_unlink;
  fs_rmdir := default_rmdir;
  fs_rename := default_rename;
  fs_link := default_link;
  fs_open := hello_open;
  fs_read := total_read;
  fs_write := default_write;
  fs_flush := default_flush;
  fs_release := default_release;
  fs_fsync := default_fsync;
  fs_opendir := default_opendir;
  fs_readdir := hello_readdir;
  fs_readdirplus := default_readdirplus;
  fs_releasedir := default_releasedir;
  fs_fsyncdir := default_fsyncdir;
  fs_statfs := default_statfs;
  fs_setxattr := default_setxattr;
  fs_getxattr := default_getxattr;
  fs_listxattr := default_listxattr;
  fs_removexattr := default_removexattr;
  fs_access := default_access;
  fs_create := default_create;
  fs_fallocate := default_fallocate;
  fs_lseek := default_lseek;
  fs_getlk := default_getlk;
  fs_setlk := default_setlk;
  fs_copy_file_range := default_copy_file_range;
|}.

Section total.
Context {K : Type} `{Libc} (self : HelloFs).
Abbreviation W := (World HelloNode unit unit Maps K).
Abbreviation fs := (HelloFs_NodeFs self).

(** [m'] is [m], except that it returns [NO_ANSWER] where [m] panics. *)
Definition swallows (m' m : M W (Result Errno bytes)) : Prop := ∀ w,
  (m' w).2 = (m w).2 ∧
  ((m' w).1 = (m w).1 ∧ (m' w).1 ≠ Returned (Err NO_ANSWER) ∨ (m w).1 = Panicked ∧ (m' w).1 = Returned (Err NO_ANSWER)).

Lemma swallows_finally m m' fin : swallows m' m → swallows (finally m' fin) (finally m fin).
Proof.
  intros Hm w. unfold finally. specialize (Hm w). destruct (m w) as [o w1], (m' w) as [o' w1']. simpl in Hm.
  destruct Hm as (-> & [[-> Hne]|[-> ->]]).
  - destruct o; try destruct (fin w1) as [[] ?]; simpl; split; try done; left; split; congruence.
  - destruct (fin w1) as [[] ?]; simpl; split; try done; [by right|by left..].
Qed.

Lemma swallows_node ino (m m' : HelloNode → M W (Result Errno bytes)) :
  (∀ n, swallows (m' n) (m n)) →
  swallows (scope_node ino (λ e, mret (Err e)) m') (scope_node ino (λ e, mret (Err e)) m).
Proof.
  intros Hm w. unfold scope_node, mbind, M_bind. destruct (node ino w) as [o w1] eqn:Hnode.
  apply node_inv in Hnode as (_ & _ & _ & Ho). destruct o as [[l|e]| |]; simpl; [| |by (split; [|left])..].
  - by apply swallows_finally.
  - split; [done|left]. split; [done|]. pose proof NO_ANSWER_new as (? & ? & ?).
    destruct (tbl_map _ !! ino); [case_match; [destruct Ho as (? & ? & _)|]|]; congruence.
Qed.

Lemma swallows_file ino fh (m m' : unit → M W (Result Errno bytes)) :
  (∀ n, swallows (m' n) (m n)) →
  swallows (scope_file ino fh (λ e, mret (Err e)) m') (scope_file ino fh (λ e, mret (Err e)) m).
Proof.
  intros Hm w. unfold scope_file, mbind, M_bind. destruct (file ino fh w) as [o w1] eqn:Hfile.
  destruct o as [[l|e]| |]; simpl; [by apply swallows_finally| |by (split; [|left])..].
  split; [done|left]. split; [done|]. unfold file, on_files, zoom, find_handle in Hfile.
  pose proof NO_ANSWER_new as (? & ? & ?). repeat case_match; congruence.
Qed.

Lemma read_swallows ino fh offset size caller :
  swallows (read (hello_total self) ino fh offset size caller mret) (read fs ino fh offset size caller mret).
Proof.
  apply swallows_node. intros n. apply swallows_file. intros h w. unfold mbind, M_bind. simpl.
  unfold total_read, hello_read. pose proof NO_ANSWER_new as (? & ? & ?).
  destruct n as [a|content]; [split; [done|left]; split; [done|simpl; congruence]|].
  destruct (_ <=? _); [by (split; [|left])|]. destruct (slice _ _ _); by (split; [|auto]).
Qed.

(** A request leaves the same world with both; its answer differs if it is a
    read that panics. *)
Lemma total_request (r : request K) w :
  (exec_request (hello_total self) r w).2 = (exec_request fs r w).2 ∧
  let o' := (exec_request (hello_total self) r w).1 in
  let o := (exec_request fs r w).1 in
  match r with
  | ReqRead _ _ _ _ _ => o' = o ∧ o' ≠ Returned (RepData (Err NO_ANSWER)) ∨ o = Panicked ∧ o' = Returned (RepData (Err NO_ANSWER))
  | _ => o' = o
  end.
Proof.
  destruct r; try (split; reflexivity). unfold exec_request, reply_with, mbind, M_bind.
  destruct (read_swallows ino fh offset size caller w) as [Hw Ho].
  destruct (read fs ino fh offset size caller mret w) as [o w1].
  destruct (read (hello_total self) ino fh offset size caller mret w) as [o' w1']. simpl in *. subst w1'.
  destruct Ho as [[-> Hne]|[-> ->]]; [|by (split; [|right])].
  destruct o as [a| |]; simpl; (split; [done|left]); split; congruence.
Qed.
End total.

(** ** On the reference *)
Section reference.
Context {K : Type} `{Libc} (self : HelloFs) (i : NodeId).
Abbreviation ref := (RefState HelloNode unit unit Maps K).
Abbreviation fs := (hello_total self).

(** The state that [populate] leaves. *)
Definition hello_maps : Maps := mkMaps {[0 := {["hello" := i]}]} 1.

Definition counts (h : Z) (v : RefNode HelloNode) : Prop :=
  v_links v = 1 ∧ 0 ≤ v_lookups v ≤ h ∧ 0 ≤ v_opens v ≤ h.

Record hello_ok (h : Z) (s : ref) : Prop := {
  h_nodes : ∀ j, v_payload <$> s_nodes s !! j = hello_node i j;
  h_counts : ∀ j v, s_nodes s !! j = Some v → counts h v;
  h_fs : s_fs s = hello_maps;
  h_held : s_held s = [];
  h_dirs : s_dirs s = ∅;
  h_files : ∀ fh ino, file_of s fh = Some ino → ino = i;
  h_file : i ≠ ROOT;
}.

Lemma hello_ok_mono h h' s : h ≤ h' → hello_ok h s → hello_ok h' s.
Proof.
  intros Hh []. split; try done. intros j v Hv. destruct (h_counts0 j v Hv) as (? & ? & ?). unfold counts. lia.
Qed.

Lemma hello_live h s : hello_ok h s → live (s_nodes s).
Proof.
  intros Hs j v Hv. destruct (h_counts _ _ Hs j v Hv) as (Hl & _). unfold unreferenced. by rewrite Hl.
Qed.

Lemma hello_known h s j n : hello_ok h s → hello_node i j = Some n → ∃ v, s_nodes s !! j = Some v ∧ v_payload v = n.
Proof. intros Hs Hn. rewrite <- (h_nodes _ _ Hs j) in Hn. by apply fmap_Some in Hn as (v & ? & ->); exists v. Qed.

(** Counters of a node change, its payload and links do not. *)
Lemma hello_ok_insert h h' s j v v' :
  hello_ok h s → h ≤ h' → s_nodes s !! j = Some v → v_payload v' = v_payload v → counts h' v' →
  hello_ok h' (put_nodes (<[j := v']> (s_nodes s)) s).
Proof.
  intros Hs Hh Hv Hp Hc. destruct (hello_ok_mono _ _ _ Hh Hs). split; simpl; try done.
  - intros k. rewrite lookup_insert. case_decide; [subst k|done]. simpl. rewrite Hp, <- (h_nodes _ _ Hs j), Hv. done.
  - intros k w. rewrite lookup_insert. case_decide; [by intros [= <-]|]. apply h_counts0.
Qed.

Lemma hello_count h s j v get put max (Q : Result Errno (RefNode HelloNode) → ref → Prop) :
  hello_ok h s → s_nodes s !! j = Some v →
  (get = v_lookups ∧ put = v_with_lookups ∨ get = v_opens ∧ put = v_with_opens) → h + 1 ≤ max →
  (∀ V', hello_ok (h + 1) (put_nodes V' s) → Q (Ok v) (put_nodes V' s)) → sp_count j get put max Q s.
Proof.
  intros Hs Hv Hget Hmax HQ. apply sp_node_at_live; [by eapply hello_live|]. rewrite Hv.
  destruct (h_counts _ _ Hs j v Hv) as (Hl & ? & ?). split; [destruct Hget as [[-> ->]|[-> ->]]; lia|].
  apply HQ. eapply hello_ok_insert; [done|lia|done| |];
    destruct Hget as [[-> ->]|[-> ->]]; try done; unfold counts; simpl; lia.
Qed.

Lemma hello_alter h s j g (Q : unit → ref → Prop) :
  hello_ok h s → (∀ v, v_payload (g v) = v_payload v) → (∀ v, counts h v → counts h (g v)) →
  (∀ V', hello_ok h (put_nodes V' s) → Q tt (put_nodes V' s)) → sp_alter j g Q s.
Proof.
  intros Hs Hp Hg HQ. unfold sp_alter. apply HQ. destruct (s_nodes s !! j) as [v|] eqn:Hv.
  - assert (alter g j (s_nodes s) = <[j := g v]> (s_nodes s)) as ->.
    { apply map_eq. intros k. rewrite lookup_alter, lookup_insert. case_decide; [subst k; by rewrite Hv|done]. }
    eapply hello_ok_insert; [done|lia|done|apply Hp|]. by apply Hg, (h_counts _ _ Hs j).
  - rewrite alter_id by congruence. by destruct s.
Qed.

Lemma hello_with_node {B} h s ino (k : HelloNode → wp ref (Result Errno B)) (Q : Result Errno B → ref → Prop) :
  hello_ok h s →
  match hello_node i ino with Some n => k n Q s | None => Q (Err ENOENT) s end → sp_with_node ino k Q s.
Proof.
  intros Hs HQ. unfold sp_with_node, sp_scope_node. apply sp_node_at_live; [by eapply hello_live|].
  rewrite <- (h_nodes _ _ Hs ino) in HQ. by destruct (s_nodes s !! ino).
Qed.

Lemma call_done {A} (a : A) (Q : A → ref → Prop) h s : hello_ok h s → Q a s → sp_call (Done a) Q s.
Proof. intros Hs HQ. split; [apply Hs|done]. Qed.

(** *** Requests *)
Definition post (h : Z) (s : ref) (r : request K) (rep : reply) (s' : ref) : Prop :=
  hello_ok (h + 2) s' ∧ total_answer self i (file_of s) r rep.

Section requests.
Context (h : Z) (s : ref) (Hs : hello_ok h s) (Hpos : 0 ≤ h) (Hmax : h + 2 ≤ u32_max).

Lemma here r rep : total_answer self i (file_of s) r rep → post h s r rep s.
Proof. intros Ha. split; [eapply hello_ok_mono; [|exact Hs]; lia|done]. Qed.

(** A callback that only answers. *)
Lemma step_pure {A} ino fh (c : Result Errno A → reply) (p : HelloNode → option unit → prog HelloNode Maps Empty_set (Result Errno A)) f r :
  (∀ rep, rep = c (on_hello i (file_of s) ino fh f) → total_answer self i (file_of s) r rep) →
  (∀ n o, hello_node i ino = Some n → p n o = Done (f n)) →
  sp_reply c (sp_with_node ino (λ n, sp_optional_file ino fh (λ o, sp_call (p n o)))) (post h s r) s.
Proof.
  intros Hr Hp. unfold sp_reply, mbind, wp_bind. apply (hello_with_node h); [done|].
  assert (∀ x, x = on_hello i (file_of s) ino fh f → post h s r (c x) s) as Hpost.
  { intros x ->. apply here. by apply Hr. }
  unfold on_hello in Hpost. destruct (hello_node i ino) as [n|] eqn:Hn; [|by apply Hpost].
  apply optional_file_ok. destruct (handle_fits _ _ _); [|by apply Hpost]. intros hd. rewrite (Hp n hd eq_refl).
  eapply call_done; [exact Hs|]. by apply Hpost.
Qed.

Lemma slice_wrapped v offset size :
  is_u64 offset → is_u64 size → u64_max < offset + size →
  slice v offset (Z.min (as_u64 (offset + size)) (Z.of_nat (length v))) = None.
Proof.
  intros Ho Hz Hw. assert (as_u64 (offset + size) = offset + size - 2 ^ 64) as ->.
  { unfold as_u64. symmetry. apply Z.mod_unique_pos with 1; int_lia. }
  unfold slice. rewrite (proj2 (Z.leb_gt _ _)) by int_lia. done.
Qed.

Lemma hello_step_read ino fh offset size caller :
  hello_typed (ReqRead ino fh offset size caller : request K) →
  sp_handler fs (ReqRead ino fh offset size caller) (post h s (ReqRead ino fh offset size caller)) s.
Proof.
  intros [Ho Hz]. pose (wraps := λ content : bytes, (offset <? Z.of_nat (length content)) && (u64_max <? offset + size)).
  apply (step_pure ino (Some fh) RepData (λ n o, total_read n (default tt o) offset size caller)
    (λ n, match n with
          | HelloFile content => if wraps content then Err NO_ANSWER else read_answer offset size n
          | _ => read_answer offset size n
          end)).
  - intros rep ->. unfold total_answer, read_wraps. simpl. unfold on_hello.
    destruct (hello_node i ino) as [[a|content]|]; try done. simpl. destruct (bool_decide _); simpl; [|done].
    fold (wraps content). by destruct (wraps content).
  - intros n o Hn. unfold hello_node in Hn. repeat case_decide; simplify_eq; [reflexivity|].
    cbn [default]. unfold total_read, hello_read, read_answer, wraps.
    destruct (Z.ltb_spec u64_max (offset + size)) as [Hw|Hw].
    + rewrite andb_true_r. destruct (Z.leb_spec (Z.of_nat (length HELLO_CONTENT)) offset) as [Hl|Hl].
      { rewrite (proj2 (Z.ltb_ge _ _)) by done. by rewrite bytes_beyond. }
      rewrite (proj2 (Z.ltb_lt _ _)) by done. by rewrite slice_wrapped.
    + rewrite andb_false_r, as_u64_small by int_lia.
      destruct (Z.leb_spec (Z.of_nat (length HELLO_CONTENT)) offset); [by rewrite bytes_beyond|].
      rewrite slice_min by int_lia. done.
Qed.

Lemma file_known : hello_node i i = Some (HelloFile HELLO_CONTENT).
Proof. unfold hello_node. rewrite decide_False by apply (h_file _ _ Hs). by rewrite decide_True. Qed.

Lemma hello_ends {A} (c : Result Errno A → reply) (a : Result Errno A) r :
  total_answer self i (file_of s) r (c a) → sp_reply c (sp_call (Done a)) (post h s r) s.
Proof. intros Ha. eapply call_done; [exact Hs|]. by apply here. Qed.

Lemma entry_ok caller (R : Result Errno EntryReply → ref → Prop) :
  (∀ g V', hello_ok (h + 1) (put_nodes V' s) →
     R (Ok (mkEntryReply i g (attr_of self (HelloFile HELLO_CONTENT)))) (put_nodes V' s)) →
  sp_entry_for fs i caller R s.
Proof.
  intros HR. destruct (hello_known _ _ _ _ Hs file_known) as (v & Hv & Hp).
  apply (hello_with_node h); [done|]. rewrite file_known. eapply call_done; [exact Hs|].
  eapply (hello_count h s i v v_lookups v_with_lookups); [done..|by left|int_lia|].
  intros V' Hs'. by apply HR.
Qed.

Lemma runs_hello_lookup parent name caller :
  runs (H := unit) (D := unit) (K := K) 0 (hello_lookup parent name caller)
    (λ r V m, V = s_nodes s ∧ m = s_fs s ∧ r = match hello_node i parent with
      | Some (HelloDir _) => Ok (if decide (name = "hello") then Some i else None)
      | Some (HelloFile _) => Err ENOTDIR
      | None => Err ENOENT
      end) (s_nodes s) (s_fs s).
Proof.
  apply runs_with_get; [lia| |].
  - intros v Hv. split; [by eapply hello_live|].
    assert (hello_node i parent = Some (v_payload v)) as -> by (by rewrite <- (h_nodes _ _ Hs parent), Hv).
    destruct (v_payload v) as [a|c] eqn:Hp; [|by apply runs_done].
    assert (hello_node i parent = Some (HelloDir a)) as Hn by (by rewrite <- (h_nodes _ _ Hs parent), Hv, <- Hp).
    assert (a = 0) as -> by (unfold hello_node in Hn; by repeat case_decide; simplify_eq).
    apply runs_bind. eapply runs_atomically with (a := {["hello" := i]}) (m' := s_fs s).
    { unfold read_entries. by rewrite (h_fs _ _ Hs). }
    apply runs_done. split_and!; [done..|]. f_equal. rewrite lookup_singleton.
    assert (is_ascii (os_bytes "hello")) as Ha by (apply (bool_decide_unpack _); by vm_compute).
    pose proof (to_string_lossy_ascii name "hello" Ha). repeat case_decide; naive_solver.
  - intros Hv. assert (hello_node i parent = None) as -> by (by rewrite <- (h_nodes _ _ Hs parent), Hv). by apply runs_done.
Qed.

Lemma hello_step_lookup parent name caller :
  sp_handler fs (ReqLookup parent name caller) (post h s (ReqLookup parent name caller)) s.
Proof.
  eapply runs_call; [apply Hs|apply runs_hello_lookup|]. intros x V m (-> & -> & ->).
  assert (put_fs (s_fs s) (put_nodes (s_nodes s) s) = s) as -> by (by destruct s).
  destruct (hello_node i parent) as [[a|c]|] eqn:Hn; [|by apply here; simpl; rewrite Hn..].
  case_decide as Hname; [|by apply here; simpl; rewrite Hn; simpl; rewrite decide_False].
  apply entry_ok. intros g V' Hs'. split; [eapply hello_ok_mono; [|exact Hs']; lia|].
  simpl. rewrite Hn. simpl. rewrite decide_True by done. by exists g.
Qed.

Lemma hello_step_open ino flags caller :
  sp_handler fs (ReqOpen ino flags caller) (post h s (ReqOpen ino flags caller)) s.
Proof.
  unfold sp_handler, sp_reply, mbind, wp_bind. apply (hello_with_node h); [done|].
  destruct (hello_node i ino) as [n|] eqn:Hn; [|by apply here; simpl; rewrite Hn].
  destruct n as [a|content]; (eapply call_done; [exact Hs|]).
  { apply here. simpl. by rewrite Hn. }
  destruct (hello_known _ _ _ _ Hs Hn) as (v & Hv & Hp).
  unfold sp_add_open, mbind, wp_bind. eapply (hello_count h s ino v v_opens v_with_opens); [done..|by right|lia|].
  intros V' Hs'. split; [|simpl; rewrite Hn; by eexists].
  destruct (hello_ok_mono (h + 1) (h + 2) _ ltac:(lia) Hs'). split; try done.
  intros fh j. unfold file_of. simpl. rewrite lookup_insert. case_decide; [|apply h_files0].
  intros [= <-]. unfold hello_node in Hn. by repeat case_decide; simplify_eq.
Qed.

Lemma hello_step_release ino fh caller :
  sp_handler fs (ReqRelease ino fh caller) (post h s (ReqRelease ino fh caller)) s.
Proof.
  unfold sp_handler, sp_reply, sp_release, sp_remove_file, wp_try, sp_find, mbind, wp_bind.
  assert (file_of s fh = fst <$> s_files s !! fh) as Hfile by done.
  destruct (s_files s !! fh) as [[node []]|] eqn:Hfh; simpl in Hfile; cycle 1.
  { apply here. simpl. by rewrite Hfile. }
  pose proof (h_files _ _ Hs fh node Hfile) as ->. destruct (Z.eqb_spec i ino) as [<-|Hne]; cbn [negb]; cycle 1.
  { apply here. simpl. by rewrite Hfile, bool_decide_false by congruence. }
  set (s1 := put_files _ _ s). assert (hello_ok h s1) as Hs1.
  { destruct Hs. split; try done. intros fh' j. unfold file_of. simpl. rewrite lookup_delete.
    case_decide; [done|]. apply h_files0. }
  apply (hello_with_node h); [done|]. rewrite file_known. eapply hello_alter; [exact Hs1|done| |].
  { intros v (? & ? & ?). unfold counts. simpl. lia. }
  intros V' Hs'. eapply call_done; [exact Hs'|]. split; [eapply hello_ok_mono; [|exact Hs']; lia|].
  simpl. by rewrite Hfile, bool_decide_true.
Qed.

Lemma hello_step_forget ino n : 0 ≤ n → sp_handler fs (ReqForget ino n) (post h s (ReqForget ino n)) s.
Proof.
  intros Hn. eapply hello_alter; [exact Hs|done| |].
  { intros v (? & ? & ?). unfold counts. simpl. lia. }
  intros V' Hs'. split; [eapply hello_ok_mono; [|exact Hs']; lia|done].
Qed.

(** No directory is open. *)
Lemma closed_dir {B} ino fh (k : unit → wp ref (Result Errno B)) (Q : Result Errno B → ref → Prop) :
  Q (Err EBADF) s → sp_with_dir ino fh k Q s.
Proof.
  intros HQ. unfold sp_with_dir, sp_scope_dir, mbind, wp_bind, sp_find. by rewrite (h_dirs _ _ Hs), lookup_empty.
Qed.

Lemma put_sink_ok k : hello_ok h (put_sink k s).
Proof. by destruct Hs. Qed.

Lemma sp_parent_ok ino n (Q : Result Errno NodeId → ref → Prop) :
  hello_node i ino = Some n → (∀ p, Q (Ok p) s) → sp_parent ino Q s.
Proof.
  intros Hn HQ. destruct (hello_known _ _ _ _ Hs Hn) as (v & Hv & _).
  unfold sp_parent, mbind, wp_bind. apply sp_node_at_live; [by eapply hello_live|]. rewrite Hv. apply HQ.
Qed.
End requests.

Section listings.
Context (h : Z) (s : ref) (Hs : hello_ok h s) (Hpos : 0 ≤ h) (Hmax : h + 2 ≤ u32_max).

Lemma hello_step_readdir k add ino fh offset caller :
  sp_handler fs (ReqReaddir k add ino fh offset caller) (post h s (ReqReaddir k add ino fh offset caller)) s.
Proof.
  pose proof (put_sink_ok h s Hs k) as Hk. unfold sp_handler, sp_reply, sp_with_sink, sp_readdir, mbind, wp_bind.
  assert (∀ x, x = on_hello i (file_of s) ino None (λ _, Err EBADF) →
    post h s (ReqReaddir k add ino fh offset caller) (RepUnit x) (put_sink k s)) as Hend.
  { intros x ->. split; [eapply hello_ok_mono; [|exact Hk]; lia|done]. }
  unfold on_hello in Hend. apply (hello_with_node h); [done|]. destruct (hello_node i ino) as [n|] eqn:Hn; [|by apply Hend].
  eapply sp_parent_ok; [exact Hk|exact Hn|]. intros p. eapply closed_dir; [exact Hk|]. by apply Hend.
Qed.

Lemma hello_step_readdirplus k add ino fh offset caller :
  sp_handler fs (ReqReaddirplus k add ino fh offset caller) (post h s (ReqReaddirplus k add ino fh offset caller)) s.
Proof.
  pose proof (put_sink_ok h s Hs k) as Hk. unfold sp_handler, sp_reply, sp_with_sink, sp_readdirplus, mbind, wp_bind.
  assert (∀ x, x = on_hello i (file_of s) ino None (λ _, Err EBADF) →
    post h s (ReqReaddirplus k add ino fh offset caller) (RepPlus x) (put_sink k s)) as Hend.
  { intros x ->. split; [eapply hello_ok_mono; [|exact Hk]; lia|done]. }
  unfold on_hello in Hend. apply (hello_with_node h); [done|]. destruct (hello_node i ino) as [n|] eqn:Hn; [|by apply Hend].
  eapply sp_parent_ok; [exact Hk|exact Hn|]. intros p. eapply closed_dir; [exact Hk|]. by apply Hend.
Qed.

Lemma hello_step_fsyncdir ino fh datasync caller :
  sp_handler fs (ReqFsyncdir ino fh datasync caller) (post h s (ReqFsyncdir ino fh datasync caller)) s.
Proof.
  unfold sp_handler, sp_reply, mbind, wp_bind. apply (hello_with_node h); [done|].
  assert (∀ x, x = on_hello i (file_of s) ino None (λ _, Err EBADF) → post h s (ReqFsyncdir ino fh datasync caller) (RepUnit x) s) as Hend.
  { intros x ->. by apply here. }
  unfold on_hello in Hend. destruct (hello_node i ino) as [n|]; [|by apply Hend].
  eapply closed_dir; [exact Hs|]. by apply Hend.
Qed.

Lemma hello_step_releasedir ino fh caller :
  sp_handler fs (ReqReleasedir ino fh caller) (post h s (ReqReleasedir ino fh caller)) s.
Proof.
  unfold sp_handler, sp_reply, sp_releasedir, sp_remove_dir, wp_try, sp_find, mbind, wp_bind.
  rewrite (h_dirs _ _ Hs), lookup_empty. by apply here.
Qed.

Lemma hello_step_opendir ino flags caller :
  sp_handler fs (ReqOpendir ino flags caller) (post h s (ReqOpendir ino flags caller)) s.
Proof.
  unfold sp_handler, sp_reply, mbind, wp_bind. apply (hello_with_node h); [done|].
  assert (∀ x, x = on_hello i (file_of s) ino None (λ _, Err ENOSYS) → post h s (ReqOpendir ino flags caller) (RepOpen x) s) as Hend.
  { intros x ->. by apply here. }
  unfold on_hello in Hend. destruct (hello_node i ino) as [n|]; [|by apply Hend].
  eapply call_done; [exact Hs|]. by apply Hend.
Qed.

(** Every request. *)
Lemma hello_step r : request_wf r → hello_typed r → sp_handler fs r (post h s r) s.
Proof.
  intros Hwf Hp. destruct r; simpl in Hp.
  - split; [apply Hs|]. apply here; [done|]. by eexists.
  - eapply call_done; [exact Hs|]. by apply here.
  - by apply hello_step_forget.
  - eapply call_done; [exact Hs|]. apply here; [done|]. by eexists.
  - by apply (step_pure h s Hs ino fh RepAttr (λ n o, hello_getattr self n o caller) (λ n, Ok (attr_of self n))).
  - by apply (step_pure h s Hs ino fh RepAttr (λ n o, default_setattr n o set caller) (λ _, Err ENOSYS)).
  - by apply (step_pure h s Hs ino None RepPath (λ n _, default_readlink n caller) (λ _, Err ENOSYS)).
  - by apply (step_pure h s Hs ino None RepUnit (λ n _, default_access n mask0 caller) (λ _, Ok tt)).
  - by apply (step_pure h s Hs ino None RepUnit (λ n _, default_setxattr n name value flags caller) (λ _, Err ENOSYS)).
  - by apply (step_pure h s Hs ino None RepXattr (λ n _, default_getxattr n name size caller) (λ _, Err ENOSYS)).
  - by apply (step_pure h s Hs ino None RepXattr (λ n _, default_listxattr n size caller) (λ _, Err ENOSYS)).
  - by apply (step_pure h s Hs ino None RepUnit (λ n _, default_removexattr n name caller) (λ _, Err ENOSYS)).
  - by apply hello_step_open.
  - by apply hello_step_read.
  - by apply (step_pure h s Hs ino (Some fh) RepCount (λ n o, default_write n (default tt o) data offset caller) (λ _, Err ENOSYS)).
  - by apply (step_pure h s Hs ino (Some fh) RepUnit (λ n o, default_flush n (default tt o) caller) (λ _, Ok tt)).
  - by apply (step_pure h s Hs ino (Some fh) RepUnit (λ n o, default_fsync n (default tt o) datasync caller) (λ _, Ok tt)).
  - by apply (step_pure h s Hs ino (Some fh) RepUnit (λ n o, default_fallocate n (default tt o) mode offset length caller) (λ _, Err ENOSYS)).
  - by apply (step_pure h s Hs ino (Some fh) RepCount (λ n o, default_lseek n (default tt o) offset whence caller) (λ _, Err ENOSYS)).
  - by apply (step_pure h s Hs ino (Some fh) RepLock (λ n o, default_getlk n (default tt o) owner lock caller) (λ _, Err ENOSYS)).
  - by apply (step_pure h s Hs ino (Some fh) RepUnit (λ n o, default_setlk n (default tt o) owner lock sleep caller) (λ _, Err ENOSYS)).
  - by apply hello_step_release.
  - by apply hello_step_opendir.
  - by apply hello_step_readdir.
  - by apply hello_step_readdirplus.
  - by apply hello_step_fsyncdir.
  - by apply hello_step_releasedir.
  - by apply hello_step_lookup.
  - by apply (hello_ends h s Hs RepEntry (Err ENOSYS)).
  - by apply (hello_ends h s Hs RepEntry (Err ENOSYS)).
  - by apply (hello_ends h s Hs RepEntry (Err ENOSYS)).
  - by apply (hello_ends h s Hs RepEntry (Err ENOSYS)).
  - by apply (hello_ends h s Hs RepUnit (Err ENOSYS)).
  - by apply (hello_ends h s Hs RepUnit (Err ENOSYS)).
  - by apply (hello_ends h s Hs RepUnit (Err ENOSYS)).
  - by apply (hello_ends h s Hs RepCreate (Err ENOSYS)).
  - by apply (hello_ends h s Hs RepCount (Err ENOSYS)).
Qed.
End listings.
End reference.

(** ** Worlds *)
Section worlds.
Context {K : Type} `{Libc} (self : HelloFs) (k0 : K).
Abbreviation W := (World HelloNode unit unit Maps K).
Abbreviation ref := (RefState HelloNode unit unit Maps K).
Abbreviation fs := (hello_total self).

Lemma hello_reap i h (s : ref) : hello_ok i h s → hello_ok i h (reap s).
Proof.
  intros Hs. assert (reap s = s) as ->; [|done]. unfold reap.
  assert (filter (λ kv : Z * RefNode HelloNode, unreferenced kv.2 = false) (s_nodes s) = s_nodes s) as ->; [|by destruct s].
  apply map_filter_id. intros j v Hv. by eapply hello_live.
Qed.

Definition idle (h : Z) (s : ref) : Prop := ∃ i, hello_ok i (2 * h) s.

Lemma hello_start : sp_call (fs_populate fs) (λ _ s, idle 0 s) (ref_start fs Maps_new k0).
Proof.
  set (s := ref_start fs Maps_new k0). set (root := mkRefNode (HelloDir 0) 0 1 0 0 ROOT).
  assert (s_nodes s = {[ROOT := root]}) as Hnodes by done.
  eapply (runs_call _ (λ _ V m, ∃ i g, i ≠ ROOT ∧ m = hello_maps i ∧
    V = <[i := mkRefNode (HelloFile HELLO_CONTENT) g 1 0 0 ROOT]> {[ROOT := root]})); [done| |].
  - apply runs_insert. intros i g Hfresh.
    assert (i ≠ ROOT) as Hi.
    { intros ->. specialize (Hfresh root). rewrite Hnodes, lookup_singleton_eq in Hfresh. by specialize (Hfresh eq_refl). }
    rewrite Hnodes. apply runs_with_get; [lia| |].
    + intros v. rewrite lookup_insert_ne, lookup_singleton_eq by done. intros [= <-]. split; [done|].
      eapply runs_atomically; [done|]. by exists i, g.
    + by rewrite lookup_insert_ne, lookup_singleton_eq.
  - intros _ V m (i & g & Hi & -> & ->). exists i. split; try done; simpl.
    + intros j. unfold hello_node. rewrite lookup_insert, lookup_singleton.
      repeat case_decide; simplify_eq; done.
    + intros j v. rewrite lookup_insert, lookup_singleton. by repeat case_decide; intros; simplify_eq.
Qed.

(** A billion requests keep every counter below its limit. *)
Definition max_hello_requests : Z := 1000000000.
Abbreviation proper_run := (served_by fs Maps_new k0 (λ r _, hello_typed r)).

Lemma hello_request i h (s : ref) r (Q : reply → ref → Prop) :
  hello_ok i (2 * h) s → 0 ≤ h < max_hello_requests → request_wf r → hello_typed r →
  (∀ rep s', hello_ok i (2 * (h + 1)) s' → total_answer self i (file_of s) r rep → Q rep s') → sp_request fs r Q s.
Proof.
  unfold max_hello_requests. intros Hs Hh Hwf Hp HQ. unfold sp_request.
  eapply mono_handler; [|apply (hello_step self i (2 * h)); [done|lia|int_lia|done..]].
  intros rep s' [Hs' Ha]. split; [apply Hs'|]. apply HQ; [|done]. apply hello_reap.
  by replace (2 * (h + 1)) with (2 * h + 2) by lia.
Qed.

Lemma total_answer_files i F F' (r : request K) rep :
  (∀ fh, F' fh = F fh) → total_answer self i F r rep → total_answer self i F' r rep.
Proof.
  intros HF. assert (∀ ino fh, handle_fits F' ino fh = handle_fits F ino fh) as Hfits.
  { intros ino [fh|]; simpl; [by rewrite HF|done]. }
  unfold total_answer. destruct r; try done; simpl; unfold on_hello; rewrite ?HF; try rewrite Hfits; done.
Qed.

Lemma total_serves history w r o w' :
  proper_run history w → Z.of_nat (length history) < max_hello_requests →
  request_wf r → hello_typed r → exec_request fs r w = (o, w') → few_steps w' →
  ∃ i rep, i ≠ ROOT ∧ rt_fs (w_rt w) = hello_maps i ∧ rt_fs (w_rt w') = hello_maps i ∧
    o = Returned rep ∧ total_answer self i (file_at w) r rep.
Proof.
  intros Hrun Hmax Hwf Hp Hexec Hn.
  destruct (serves_step fs Maps_new k0 history w (served_by_serves fs Maps_new k0 _ _ _ Hrun)) as (L & ops & Hat & _).
  destruct (request_refines fs Maps_new w w' r o ops
    (λ rep s', ∃ i, rt_fs (w_rt w) = hello_maps i ∧ total_answer self i (file_at w) r rep ∧ hello_ok i (2 * (Z.of_nat (length history) + 1)) s')
    Hat Hwf Hexec) as (ops' & _ & Hq).
  destruct (Hq Hn) as [Hn0 Hq'].
  destruct (reference_invariant fs Maps_new k0 (λ r _, hello_typed r) idle max_hello_requests history w hello_start)
    as (_ & s & (i & Hs) & HR); [|done|lia|done|].
  { intros h r1 w1 s1 Hh (i & Hs1) _ Hwf1 Hp1. eapply hello_request; [done..|]. intros rep s' Hs' _. by exists i. }
  destruct (Hq' s HR) as (rep & s' & -> & (i' & Hfs & Ha & Hs') & HR').
  { eapply hello_request; [done|lia|done..|]. intros rep s' Hs' Ha. exists i. split_and!; [|eapply total_answer_files; [|done]|done].
    - by rewrite (r_fs _ _ _ HR), (h_fs _ _ _ Hs).
    - intros fh. symmetry. by apply rel_files. }
  exists i', rep. split_and!; [apply Hs'|done|by rewrite (r_fs _ _ _ HR'), (h_fs _ _ _ Hs')|done..].
Qed.

(** *** With the panic *)
Abbreviation hello_run := (served_by (HelloFs_NodeFs self) Maps_new k0 (λ r _, hello_typed r)).

Lemma total_run history w : hello_run history w → ∃ history', length history' = length history ∧ proper_run history' w.
Proof.
  induction 1 as [w Hnew|history w r o w' Hs (history' & Hlen & IH) Hr HA Hexec Ho].
  - exists []. split; [done|]. by apply by_new.
  - destruct (total_request self r w) as [Hw Hout]. rewrite Hexec in Hw, Hout. simpl in Hw, Hout.
    destruct (exec_request fs r w) as [o' w1] eqn:Hexec'. simpl in Hw, Hout. subst w1.
    exists ((r, o') :: history'). simpl. split; [by rewrite Hlen|].
    eapply by_request; [done..|]. destruct r; naive_solver.
Qed.

(** C39: The hello filesystem, whatever is requested of it (a billion requests
    at most, with offsets and sizes that are [u64]s): every request is answered,
    as [hello_answer] says: the root holds the name "hello" and no other, its
    content reads as it is, whichever other request is refused, and in
    particular no directory can be opened, so that no listing ever succeeds.
    There is one exception, [read_wraps]: a read of the open file, from one of
    its bytes, whose [offset + size] is above [u64::MAX] panics. Nothing ever
    changes in the filesystem, not even after such a panic. *)
Theorem hello_serves_one_file history w r o w' :
  hello_run history w → Z.of_nat (length history) < max_hello_requests →
  request_wf r → hello_typed r → exec_request (HelloFs_NodeFs self) r w = (o, w') → few_steps w' →
  ∃ i, i ≠ ROOT ∧ rt_fs (w_rt w) = hello_maps i ∧ rt_fs (w_rt w') = hello_maps i ∧
    if read_wraps i (file_at w) r then o = Panicked
    else ∃ rep, o = Returned rep ∧ hello_answer self i (file_at w) r rep.
Proof.
  intros (history' & Hlen & Hrun)%total_run Hmax Hwf Hp Hexec Hn.
  destruct (total_request self r w) as [Hw Hout]. rewrite Hexec in Hw, Hout. simpl in Hw, Hout.
  destruct (exec_request fs r w) as [o' w1] eqn:Hexec'. simpl in Hw, Hout. subst w1.
  destruct (total_serves history' w r o' w' Hrun) as (i & rep & Hi & Hfs & Hfs' & -> & Ha); [by rewrite Hlen|done..|].
  exists i. split_and!; [done..|]. unfold total_answer in Ha. destruct (read_wraps i (file_at w) r) eqn:Hwr.
  - subst rep. destruct r; try done. by destruct Hout as [[_ ?]|[? _]].
  - exists rep. split; [|done]. destruct r; try done. destruct Hout as [[<- _]|[_ [= ->]]]; [done|].
    exfalso. revert Ha. pose proof NO_ANSWER_new as (? & ? & ?). simpl. unfold on_hello, read_answer.
    repeat case_match; congruence.
Qed.
End worlds.

(** ** A run *)
Definition hello_fs : NodeFs HelloNode unit unit Maps := HelloFs_NodeFs (mkHelloFs 0).
Definition hello_serve (r : request unit) (w : World HelloNode unit unit Maps unit) := exec_request hello_fs r w.
Definition hello_w0 : World HelloNode unit unit Maps unit := (Runtime_new hello_fs Maps_new tt).2.
Definition hello_w1 := (hello_serve (ReqLookup 1 "hello" Caller_default) hello_w0).2.
Definition hello_w2 := (hello_serve (ReqOpen 2 0 Caller_default) hello_w1).2.
Definition hello_history : list (request unit * outcome reply) :=
  [(ReqOpen 2 0 Caller_default, (hello_serve (ReqOpen 2 0 Caller_default) hello_w1).1);
   (ReqLookup 1 "hello" Caller_default, (hello_serve (ReqLookup 1 "hello" Caller_default) hello_w0).1)].

Lemma hello_exec r w : exec_request hello_fs r w = ((hello_serve r w).1, (hello_serve r w).2).
Proof. unfold hello_serve. by destruct (exec_request hello_fs r w). Qed.

Lemma hello_sample_run : served_by hello_fs Maps_new tt (λ r _, hello_typed r) hello_history hello_w2.
Proof.
  apply (by_request _ _ _ _ (drop 1 hello_history) hello_w1); [|done|done|apply hello_exec|by vm_compute].
  apply (by_request _ _ _ _ [] hello_w0); [|done|done|apply hello_exec|by vm_compute].
  apply by_new. by vm_compute.
Qed.

Example hello_reads :
  (hello_serve (ReqRead 2 1 6 100 Caller_default) hello_w2).1 = Returned (RepData (Ok (os_bytes "World!" ++ [10]))).
Proof. by vm_compute. Qed.

(** A directory cannot be opened, and a read that wraps panics. *)
Lemma hello_serves_one_file_witness :
  (hello_serve (ReqOpendir 1 0 Caller_default) hello_w2).1 = Returned (RepOpen (Err ENOSYS)) ∧
  (hello_serve (ReqRead 2 1 6 u64_max Caller_default) hello_w2).1 = Panicked.
Proof.
  assert (∀ r, few_steps (hello_serve r hello_w2).2 → request_wf r → hello_typed r → ∃ i, i ≠ ROOT ∧
    rt_fs (w_rt hello_w2) = hello_maps i ∧ if read_wraps i (file_at hello_w2) r
    then (hello_serve r hello_w2).1 = Panicked
    else ∃ rep, (hello_serve r hello_w2).1 = Returned rep ∧ hello_answer (mkHelloFs 0) i (file_at hello_w2) r rep) as Hall.
  { intros r Hn Hwf Ht. destruct (hello_serves_one_file (mkHelloFs 0) tt hello_history hello_w2 r _ _
      hello_sample_run eq_refl Hwf Ht (hello_exec r hello_w2) Hn) as (i & ? & ? & _ & ?). by exists i. }
  split.
  - destruct (Hall (ReqOpendir 1 0 Caller_default)) as (i & _ & _ & rep & -> & Ha); [by vm_compute|done|done|].
    simpl in Ha. subst rep. unfold on_hello, hello_node. by rewrite decide_True.
  - destruct (Hall (ReqRead 2 1 6 u64_max Caller_default)) as (i & _ & Hfs & Ho); [by vm_compute|done|by vm_compute|].
    assert (i = 2) as ->.
    { apply (f_equal (λ m, (maps_heap m !! 0) ≫= (.!! "hello"%string))) in Hfs.
      assert ((maps_heap (rt_fs (w_rt hello_w2)) !! 0) ≫= (.!! "hello"%string) = Some 2) as H2 by (vm_compute; reflexivity).
      cbv beta in Hfs. rewrite H2 in Hfs. simpl in Hfs. rewrite lookup_singleton_eq in Hfs. simpl in Hfs. rewrite lookup_singleton_eq in Hfs. congruence. }
    assert (read_wraps 2 (file_at hello_w2) (ReqRead 2 1 6 u64_max Caller_default : request unit) = true) as Hw
      by (vm_compute; reflexivity).
    by rewrite Hw in Ho.
Defined.
