(* ===== verification/HelloRaw.v ===== *)
(** * The hello filesystem on the raw bindings ([examples/hello_ll_raw.rs])

    The C example, written against libfuse itself: callbacks that answer with
    [fuse_reply_*], a directory buffer built anew for every request, and the
    life of the session around the loop.  Callbacks append to the list of the
    replies they send; a panic in one aborts the process. *)

From S2P Require Import Prelude Types Std Conv Ffi.

(** Constants of the generated bindings and of [libc]. *)
Class RawConsts := { FUSE_ROOT_ID : Z; O_ACCMODE : Z; O_RDONLY : Z }.
#[export] Instance linux_raw_consts : RawConsts := {| FUSE_ROOT_ID := 1; O_ACCMODE := 3; O_RDONLY := 0 |}.

Definition HELLO_STR : bytes := os_bytes "Hello World!" ++ [10].
Definition HELLO_NAME : string := "hello".

Record MountTime := mkMountTime { seconds : Z; nanoseconds : Z }.

(** [MountTime::now] on the reading of the clock; a time before the epoch
    counts as the epoch. *)
Definition MountTime_now (now : SystemTime) : MountTime :=
  let since := if now <? UNIX_EPOCH then 0 else now - UNIX_EPOCH in
  mkMountTime (as_i64 (since / nanos_per_sec)) (since mod nanos_per_sec).

(** A reply; the timeouts are one second throughout. *)
Inductive RawReply :=
| RawErr (errno : Z)
| RawEntry (e : fuse_entry_param)
| RawAttr (attr : stat) (timeout : Duration)
| RawBuf (data : bytes)
| RawOpen (fi : fuse_file_info).

Definition send (r : RawReply) : M (list RawReply) unit := λ log, (Returned tt, log ++ [r]).
Definition expect {A} (o : option A) : M (list RawReply) A :=
  match o with Some a => mret a | None => panic end.

Section raw.
Context `{Libc, RawConsts, Direntries} (mount_time : MountTime).

Definition set_times (attr : stat) (mounted_at : MountTime) : stat :=
  let t := (seconds mounted_at, nanoseconds mounted_at) in
  mkStat (st_ino attr) (st_mode attr) (st_nlink attr) (st_uid attr) (st_gid attr) (st_rdev attr)
    (st_size attr) (st_blocks attr) (st_blksize attr) t t t.

Definition hello_stat (ino : Z) (mounted_at : MountTime) : option stat :=
  let attr mode nlink size := set_times (mkStat ino mode nlink 0 0 0 size 0 0 (0, 0) (0, 0) (0, 0)) mounted_at in
  if ino =? 1 then Some (attr (Z.lor libc_S_IFDIR 493) 2 0)
  else if ino =? 2 then Some (attr (Z.lor libc_S_IFREG 292) 1 (Z.of_nat (length HELLO_STR)))
  else None.

Definition hello_ll_lookup (parent : Z) (name : OsString) : M (list RawReply) unit :=
  if negb (parent =? FUSE_ROOT_ID) || bool_decide (name ≠ HELLO_NAME) then send (RawErr libc_ENOENT)
  else
    attr ← expect (hello_stat 2 mount_time);
    send (RawEntry {| ep_ino := 2; ep_generation := 0; ep_attr := attr;
                      ep_attr_timeout := nanos_per_sec; ep_entry_timeout := nanos_per_sec |}).

Definition hello_ll_getattr (ino : Z) : M (list RawReply) unit :=
  match hello_stat ino mount_time with
  | Some attr => send (RawAttr attr nanos_per_sec)
  | None => send (RawErr libc_ENOENT)
  end.

(** The first call, on no memory, asks for the size; the second one writes. *)
Definition dirbuf_add (buf : bytes) (name : OsString) (ino : Z) : M (list RawReply) bytes :=
  let old_size := length buf in
  let entry_size := (raw_add_direntry [] name None 0).1 in
  buf ← expect (vec_resize buf (Z.of_nat old_size + entry_size));
  attr ← expect (hello_stat ino mount_time);
  let area := (raw_add_direntry (drop old_size buf) name (Some attr) (Z.of_nat (length buf))).2 in
  mret (take old_size buf ++ area).

Definition reply_buf_limited (buf : bytes) (off maxsize : Z) : M (list RawReply) unit :=
  let off := as_u64 off in
  if off <? Z.of_nat (length buf) then
    let stop := Z.min (Z.of_nat (length buf)) (as_u64 (off + maxsize)) in
    data ← expect (slice buf off stop);
    send (RawBuf data)
  else send (RawBuf []).

Definition hello_ll_readdir (ino size off : Z) : M (list RawReply) unit :=
  if negb (ino =? FUSE_ROOT_ID) then send (RawErr libc_ENOTDIR)
  else
    buf ← dirbuf_add [] "." 1;
    buf ← dirbuf_add buf ".." 1;
    buf ← dirbuf_add buf HELLO_NAME 2;
    reply_buf_limited buf off size.

Definition hello_ll_open (ino : Z) (fi : fuse_file_info) : M (list RawReply) unit :=
  if negb (ino =? 2) then send (RawErr libc_EISDIR)
  else if negb (Z.land (fi_flags_ fi) O_ACCMODE =? O_RDONLY) then send (RawErr libc_EACCES)
  else send (RawOpen fi).

(** The assertion is of debug builds only. *)
Definition hello_ll_read (ino size off : Z) : M (list RawReply) unit := reply_buf_limited HELLO_STR off size.

(** [fuse_lowlevel_ops]: what is not listed is [None], and libfuse answers it
    itself. *)
Inductive raw_callback :=
| OnLookup (parent : Z) (name : OsString)
| OnGetattr (ino : Z)
| OnReaddir (ino size off : Z)
| OnOpen (ino : Z) (fi : fuse_file_info)
| OnRead (ino size off : Z)
| OnOther.

Definition hello_ll_oper (cb : raw_callback) : option (M (list RawReply) unit) :=
  match cb with
  | OnLookup parent name => Some (hello_ll_lookup parent name)
  | OnGetattr ino => Some (hello_ll_getattr ino)
  | OnReaddir ino size off => Some (hello_ll_readdir ino size off)
  | OnOpen ino fi => Some (hello_ll_open ino fi)
  | OnRead ino size off => Some (hello_ll_read ino size off)
  | OnOther => None
  end.
End raw.

(** ** The session *)

(** A call of libfuse or of [free], with what it returned. *)
Inductive raw_call :=
| ParseCmdline (rc : Z)
| CmdlineHelp | LowlevelHelp | LowlevelVersion
| RawSessionNew (ok : bool)
| RawSetSignalHandlers (rc : Z)
| RawSessionMount (point : option string) (rc : Z)
| Daemonize (foreground : Z)
| RawSessionLoop (rc : Z)
| RawSessionUnmount
| RawRemoveSignalHandlers
| RawSessionDestroy
| FreeMountpoint
| FreeArgs.

(** [fuse_cmdline_opts]; [None] is a null mountpoint. *)
Record cmdline_opts := mkOpts { show_help : Z; show_version : Z; mountpoint : option string; foreground : Z }.

Record RawLib := {
  parse_cmdline : list string → Z * cmdline_opts;
  raw_session_new : bool;
  raw_set_signal_handlers : Z;
  raw_session_mount : Z;
  raw_session_loop : Z;
}.

Section session.
Context (lib : RawLib).

Definition raw_ffi (c : raw_call) : M (list raw_call) unit := λ log, (Returned tt, log ++ [c]).

Definition run_session (opts : cmdline_opts) : M (list raw_call) Z :=
  raw_ffi (RawSessionNew (raw_session_new lib));;
  if negb (raw_session_new lib) then mret 1
  else
    raw_ffi (RawSetSignalHandlers (raw_set_signal_handlers lib));;
    ret ← (if raw_set_signal_handlers lib =? 0 then
             raw_ffi (RawSessionMount (mountpoint opts) (raw_session_mount lib));;
             ret ← (if raw_session_mount lib =? 0 then
                      raw_ffi (Daemonize (foreground opts));;
                      raw_ffi (RawSessionLoop (raw_session_loop lib));;
                      raw_ffi RawSessionUnmount;;
                      mret (raw_session_loop lib)
                    else mret 1);
             raw_ffi RawRemoveSignalHandlers;;
             mret ret
           else mret 1);
    raw_ffi RawSessionDestroy;;
    mret ret.

Definition raw_run (args : list string) : M (list raw_call) Z :=
  match mapM cstring_new args with
  | None => panic
  | Some argv =>
      let '(rc, opts) := parse_cmdline lib argv in
      raw_ffi (ParseCmdline rc);;
      if negb (rc =? 0) then mret 1
      else
        ret ← (if negb (show_help opts =? 0) then raw_ffi CmdlineHelp;; raw_ffi LowlevelHelp;; mret 0
               else if negb (show_version opts =? 0) then raw_ffi LowlevelVersion;; mret 0
               else match mountpoint opts with None => mret 1 | Some _ => run_session opts end);
        match mountpoint opts with Some _ => raw_ffi FreeMountpoint | None => mret tt end;;
        raw_ffi FreeArgs;;
        mret (if negb (ret =? 0) then 1 else 0)
  end.
End session.

(** ** Listings *)
Section listing.
Context `{Libc, RawConsts, DirentriesOk} (mount_time : MountTime).

(** The entries of the directory from place [at] of the buffer on; each says
    where the next one starts. *)
Fixpoint encoded (l : list (OsString * Z)) (start : nat) : list bytes :=
  match l with
  | [] => []
  | (name, ino) :: l =>
      let next := (start + direntry_size name)%nat in
      direntry_bytes name (hello_stat ino mount_time) (Z.of_nat next) :: encoded l next
  end.

Definition raw_entries : list (OsString * Z) := [(".", 1); ("..", 1); (HELLO_NAME, 2)].
Definition raw_listing : list bytes := encoded raw_entries 0.

Definition total_size : nat := length (concat raw_listing).

Lemma dirbuf_add_spec buf name ino st log :
  hello_stat ino mount_time = Some st → Z.of_nat (length buf + direntry_size name) ≤ i64_max →
  dirbuf_add mount_time buf name ino log =
    (Returned (buf ++ direntry_bytes name (Some st) (Z.of_nat (length buf + direntry_size name))), log).
Proof.
  intros Hst Hlen. unfold dirbuf_add. rewrite raw_add_direntry_spec. cbn [fst].
  unfold vec_resize. rewrite (proj2 (Z.ltb_ge _ _)) by lia. cbn [expect].
  rewrite <- Nat2Z.inj_add, Nat2Z.id, resize_ge by lia. rewrite Nat.add_sub'. rewrite Hst.
  unfold mbind, M_bind, mret, M_ret. simpl. rewrite drop_app_length, take_app_length, raw_add_direntry_spec. simpl.
  rewrite length_app, !length_replicate, decide_True by done. rewrite drop_ge by (by rewrite length_replicate).
  by rewrite app_nil_r.
Qed.

Lemma reply_buf_limited_spec buf off size log :
  0 ≤ off → 0 ≤ size → off + size ≤ u64_max →
  reply_buf_limited buf off size log = (Returned tt, log ++ [RawBuf (bytes_at buf off size)]).
Proof.
  intros Ho Hs Hmax. unfold reply_buf_limited. rewrite !as_u64_small by int_lia.
  destruct (Z.ltb_spec off (Z.of_nat (length buf))); [|by rewrite bytes_beyond].
  by rewrite Z.min_comm, slice_min.
Qed.

Lemma readdir_buffer size off log :
  Z.of_nat total_size ≤ i64_max →
  hello_ll_readdir mount_time FUSE_ROOT_ID size off log = reply_buf_limited (concat raw_listing) off size log.
Proof.
  unfold total_size, raw_listing, raw_entries, hello_ll_readdir. cbn [encoded concat]. rewrite Z.eqb_refl. cbn [negb].
  rewrite !length_app, !direntry_length. cbn [length]. intros Hlen.
  destruct (hello_stat 1 mount_time) as [st1|] eqn:Hst1; [|done]. destruct (hello_stat 2 mount_time) as [st2|] eqn:Hst2; [|done].
  unfold mbind, M_bind.
  rewrite (dirbuf_add_spec _ _ _ st1) by (done || simpl; lia).
  rewrite (dirbuf_add_spec _ _ _ st1) by (done || rewrite !length_app, direntry_length; simpl; lia).
  rewrite (dirbuf_add_spec _ _ _ st2) by (done || rewrite !length_app, !direntry_length; simpl; lia).
  f_equal. rewrite !length_app, !direntry_length. simpl. rewrite app_nil_r. rewrite <- !app_assoc.
  repeat f_equal; lia.
Qed.

(** C40: Reading the directory from the place that an entry gave continues after
    that entry: the reply to a request at the end of the first [k] entries is
    the remaining ones, cut at the size asked for, so a client that goes on from
    entry to entry sees each of ".", ".." and "hello" exactly once. *)
Theorem raw_listing_resumes k size log :
  0 ≤ size → Z.of_nat total_size ≤ i64_max → Z.of_nat total_size + size ≤ u64_max →
  hello_ll_readdir mount_time FUSE_ROOT_ID size (Z.of_nat (length (concat (take k raw_listing)))) log =
    (Returned tt, log ++ [RawBuf (take (Z.to_nat size) (concat (drop k raw_listing)))]).
Proof.
  intros Hs Hlen Hmax. rewrite readdir_buffer by done.
  assert (concat raw_listing = concat (take k raw_listing) ++ concat (drop k raw_listing)) as Heq
    by (by rewrite <- concat_app, take_drop).
  unfold total_size in *. rewrite Heq, length_app in Hmax.
  rewrite reply_buf_limited_spec by lia. unfold bytes_at. rewrite Nat2Z.id, Heq, drop_app_length. done.
Qed.

(** Every callback of the table answers its request once. *)
Theorem raw_answers_once cb m log :
  hello_ll_oper mount_time cb = Some m → Z.of_nat total_size ≤ i64_max →
  (match cb with OnReaddir _ size off | OnRead _ size off => 0 ≤ off ∧ 0 ≤ size ∧ off + size ≤ u64_max | _ => True end) →
  ∃ r, m log = (Returned tt, log ++ [r]).
Proof.
  intros Hop Hlen Hargs. destruct cb; simplify_eq/=.
  - unfold hello_ll_lookup. destruct (_ || _); by eexists.
  - unfold hello_ll_getattr. destruct (hello_stat ino mount_time); by eexists.
  - destruct (Z.eqb_spec ino FUSE_ROOT_ID) as [->|Hne].
    + rewrite readdir_buffer, reply_buf_limited_spec by (done || tauto). by eexists.
    + unfold hello_ll_readdir. rewrite (proj2 (Z.eqb_neq _ _)) by done. by eexists.
  - unfold hello_ll_open. destruct (negb _); [by eexists|]. destruct (negb _); by eexists.
  - unfold hello_ll_read. rewrite reply_buf_limited_spec by tauto. by eexists.
Qed.
End listing.

(** ** The session's resources *)

(** What is held: the session, its signal handlers, the mount; the mount point
    and the argument vector are freed in the end. *)
Record raw_held := mkRawHeld { rh_args : bool; rh_session : bool; rh_signals : bool; rh_mounted : bool }.

Definition raw_step (h : raw_held) (c : raw_call) : option raw_held :=
  let '(mkRawHeld ar se si mo) := h in
  let ok (b : bool) h := if b then Some h else None in
  match c with
  | ParseCmdline rc => ok (negb ar) (mkRawHeld (rc =? 0) se si mo)
  | CmdlineHelp | LowlevelHelp | LowlevelVersion => ok ar h
  | RawSessionNew b => ok (ar && negb se) (mkRawHeld ar b si mo)
  | RawSetSignalHandlers rc => ok (se && negb si) (mkRawHeld ar se (rc =? 0) mo)
  | RawSessionMount _ rc => ok (se && negb mo) (mkRawHeld ar se si (rc =? 0))
  | Daemonize _ => ok mo h
  | RawSessionLoop _ => ok (se && si && mo) h
  | RawSessionUnmount => ok mo (mkRawHeld ar se si false)
  | RawRemoveSignalHandlers => ok (se && si) (mkRawHeld ar se false mo)
  | RawSessionDestroy => ok (se && negb si && negb mo) (mkRawHeld ar false si mo)
  | FreeMountpoint => ok (ar && negb mo && negb se) h
  | FreeArgs => ok (ar && negb se) (mkRawHeld false se si mo)
  end.

Definition raw_steps (h : option raw_held) (cs : list raw_call) : option raw_held := foldl (λ h c, h ≫= λ h, raw_step h c) h cs.
Definition raw_nothing : raw_held := mkRawHeld false false false false.
Definition raw_protocol (cs : list raw_call) : option raw_held := raw_steps (Some raw_nothing) cs.

(** What [run_session] calls, by what the library answers. *)
Lemma run_session_spec lib opts log : ∃ ret cs,
  run_session lib opts log = (Returned ret, log ++ cs) ∧
  raw_steps (Some (mkRawHeld true false false false)) cs = Some (mkRawHeld true false false false) ∧
  CmdlineHelp ∉ cs ∧ LowlevelVersion ∉ cs ∧ (ret = 0 ↔ RawSessionLoop 0 ∈ cs).
Proof.
  unfold run_session, raw_ffi, mbind, M_bind, mret, M_ret. destruct lib as [pc new sig mnt loop]; simpl.
  destruct new; simpl; [destruct (sig =? 0) eqn:Hs; simpl; [destruct (mnt =? 0) eqn:Hm; simpl|]|];
    eexists _, _; (split; [rewrite <- ?app_assoc; reflexivity|]); rewrite ?Hs, ?Hm; cbn; rewrite ?Hs, ?Hm; cbn;
    (split; [done|]); rewrite !elem_of_cons, !elem_of_nil; intuition congruence.
Qed.

(** Whatever libfuse answers, the program uses what it holds only, and in the
    end holds nothing: mount, handlers and session are gone, and so is the
    argument vector; it exits with 0 just when the help or the version was
    shown or the loop ended well. *)
Theorem raw_run_releases lib args code log :
  raw_run lib args [] = (Returned code, log) →
  raw_protocol log = Some raw_nothing ∧
  (code = 0 ↔ CmdlineHelp ∈ log ∨ LowlevelVersion ∈ log ∨ RawSessionLoop 0 ∈ log).
Proof.
  unfold raw_run. destruct (mapM cstring_new args) as [argv|]; [|done].
  destruct (parse_cmdline lib argv) as [rc [help version point fg]]. simpl.
  unfold mbind, M_bind, mret, M_ret, raw_ffi. simpl. destruct (rc =? 0) eqn:Hrc; simpl.
  2:{ intros [= <- <-]. cbn. rewrite Hrc. rewrite !elem_of_cons, !elem_of_nil. intuition congruence. }
  destruct (help =? 0); simpl; [destruct (version =? 0); simpl|].
  - destruct point as [s|]; simpl.
    + destruct (run_session_spec lib (mkOpts help version (Some s) fg) [ParseCmdline rc]) as (ret & cs & -> & Hcs & Hnh & Hnv & Hret).
      simpl. intros [= <- <-]. split.
      * unfold raw_protocol, raw_steps in *. rewrite <- app_assoc. cbn. rewrite Hrc. rewrite foldl_app, Hcs. done.
      * rewrite <- app_assoc. simpl. rewrite !elem_of_cons, !elem_of_app, !elem_of_cons, !elem_of_nil.
        destruct (Z.eqb_spec ret 0); simpl; intuition congruence.
    + intros [= <- <-]. cbn. rewrite Hrc. split; [done|]. rewrite !elem_of_cons, !elem_of_nil. intuition congruence.
  - destruct point; simpl; intros [= <- <-]; cbn; rewrite Hrc; (split; [done|]); rewrite !elem_of_cons; intuition congruence.
  - destruct point; simpl; intros [= <- <-]; cbn; rewrite Hrc; (split; [done|]); rewrite !elem_of_cons; intuition congruence.
Qed.

(** ** A listing, read on from its second entry *)
Local Existing Instances linux_libc sample_direntries sample_direntries_ok.

Lemma raw_listing_resumes_witness :
  hello_ll_readdir (mkMountTime 0 0) FUSE_ROOT_ID 20 (Z.of_nat (length (concat (take 1 (raw_listing (mkMountTime 0 0)))))) [] =
    (Returned tt, [RawBuf (take 20 (concat (drop 1 (raw_listing (mkMountTime 0 0)))))]).
Proof. apply (raw_listing_resumes (mkMountTime 0 0) 1 20 []); by vm_compute. Defined.
