(* ===== verification/Mains.v ===== *)
(** * The programs of the examples ([main] of [hello_ll.rs] and [memory_fs.rs])

    A filesystem, the runtime that serves it, the session over libfuse and the
    exit code.  The messages to standard error are left out. *)

From S2P Require Import Prelude Types Std NodeTable NodeFs Runtime Requests Ffi Session SessionLife HelloFs MemoryFs.

Section mains.
Context `{Libc}.

(** [std::env::args().nth(n)]: the iterator panics at an argument that is not
    Unicode, one that it passes over included.  [args] are the arguments of the
    process, the program's name first. *)
Fixpoint args_nth {W} (n : nat) (args : list OsString) : M W (option string) :=
  match args with
  | [] => mret None
  | arg :: args =>
      match into_string arg with
      | None => panic
      | Some arg => match n with O => mret (Some arg) | S n => args_nth n args end
      end
  end.

(** Both programs mount what they are given the path of. *)
Definition mount_example {N H D S} (lib : Libfuse (Runtime N H D S)) (fs : NodeFs N H D S) (s : S)
    (display : PathBuf → string) (args : list OsString) : M (Sys (Runtime N H D S)) Z :=
  arg ← args_nth 1 args;
  match arg with
  | None => mret 1
  | Some mountpoint =>
      r ← mount_and_run lib fs s display mountpoint [];
      match r with Err _ => mret 1 | Ok _ => mret 0 end
  end.

Definition hello_main (lib : Libfuse (Runtime HelloNode unit unit Maps)) (display : PathBuf → string)
    (now : SystemTime) (args : list OsString) :=
  mount_example lib (HelloFs_NodeFs (mkHelloFs now)) Maps_new display args.

(** [MemoryFs::new] reads the ids of the process. *)
Definition MemoryFs_new (uid gid : Z) : MemoryFs := mkMemoryFs uid gid.
Definition memory_main (lib : Libfuse (Runtime Node unit unit Mem)) (display : PathBuf → string)
    (clock : nat → SystemTime) (uid gid : Z) (args : list OsString) :=
  mount_example lib (MemoryFs_NodeFs clock (MemoryFs_new uid gid)) Mem_new display args.

(** ** How they end *)
Section ends.
Context {N H0 D S : Type} (lib : Libfuse (Runtime N H0 D S)) (fs : NodeFs N H0 D S) (s0 : S) (display : PathBuf → string).
Context (Hnew : (Runtime_new fs s0 tt).1 = Returned tt).
Abbreviation start := (mkSys [] None : Sys (Runtime N H0 D S)).

(** It ends with a code, nothing held, and with success exactly if the mount
    was made and the loop ended well; or it panics at an argument, before
    anything was done (the process exits with 101); or libfuse's loop does not
    return, and the session is up. *)
Definition ends_well (args : list OsString) (res : outcome Z * Sys (Runtime N H0 D S)) : Prop :=
  match res with
  | (Returned code, y) =>
      (code = 0 ∨ code = 1) ∧ protocol nothing (sys_calls y) = Some nothing ∧ sys_runtime y = None ∧
      (code = 0 ↔ (∃ mountpoint, args !! 1%nat = Some mountpoint ∧ SessionMount mountpoint 0 ∈ sys_calls y) ∧
                  SessionLoopMt 0 ∈ sys_calls y)
  | (Panicked, y) => Exists (λ arg, into_string arg = None) (take 2 args) ∧ y = start
  | (Blocked, y) => looping lib y ∧ ∃ mountpoint, args !! 1%nat = Some mountpoint ∧ SessionMount mountpoint 0 ∈ sys_calls y
  end.

Local Ltac ends :=
  simpl; split_and!;
    first [done | by left | by right | split; rewrite ?elem_of_cons, ?elem_of_nil; naive_solver].

(** What [args_nth] finds. *)
Lemma args_second {W} args (w : W) :
  Exists (λ arg, into_string arg = None) (take 2 args) ∧ args_nth 1 args w = (Panicked, w) ∨
  args_nth 1 args w = (Returned (args !! 1%nat), w).
Proof.
  destruct args as [|a [|b args]]; [by right|..]; simpl; destruct (into_string a) as [a'|] eqn:Ha;
    try (left; by split; [left|]); [by right|].
  destruct (into_string b) as [b'|] eqn:Hb; [|left; by split; [right; left|]].
  apply into_string_same in Hb as ->. by right.
Qed.

(** Every run of [mount_and_run], by cases on what libfuse answers. *)
Lemma example_ends args : ends_well args (mount_example lib fs s0 display args start).
Proof.
  unfold mount_example, mbind at 1, M_bind at 1.
  destruct (args_second args start) as [[Hbad ->]| ->]; [by split|]. unfold ends_well.
  destruct (args !! 1%nat) as [mountpoint|] eqn:Hargs; [|ends].
  unfold mount_and_run, new, new_with_config, new_runtime, try_bind, mbind, M_bind, mret, M_ret. simpl.
  destruct (Runtime_new fs s0 tt) as [o w]. simpl in Hnew. subst o. simpl.
  destruct (fuse_session_new lib ["fuse3"%string]) eqn:Hs; simpl; [|ends].
  unfold mount. simpl. destruct (cstring_new mountpoint) as [c|] eqn:Hc; [|ends].
  assert (c = mountpoint) as -> by (unfold cstring_new in Hc; by case_bool_decide; simplify_eq).
  simpl. destruct (fuse_session_mount lib mountpoint) eqn:Hm; simpl; [|ends..].
  unfold run, LoopConfig_new, run_loop, try_bind, mbind, M_bind, mret, M_ret. simpl.
  destruct (fuse_set_signal_handlers lib); simpl; [|ends..].
  destruct (loop_cfg_create_312 lib); simpl; [|ends].
  destruct (session_loop_mt_312 lib _) as [[rc rt]|] eqn:Hloop; simpl; cycle 1.
  { split; [|exists mountpoint; split; [done|set_solver]].
    eexists true, _. split_and!; [split; [done|]|reflexivity|exact Hloop]. split; [done|by eexists]. }
  destruct rc; simpl; [|ends..].
  split_and!; [by left|done|done|]. split; [|done]. intros _. split; [exists mountpoint; split; [done|]|]; set_solver.
Qed.
End ends.

Lemma hello_starts now : (Runtime_new (HelloFs_NodeFs (mkHelloFs now)) Maps_new tt).1 = Returned tt.
Proof. vm_compute. reflexivity. Qed.
Lemma memory_starts clock uid gid : (Runtime_new (MemoryFs_NodeFs clock (MemoryFs_new uid gid)) Mem_new tt).1 = Returned tt.
Proof. vm_compute. reflexivity. Qed.

(** C20: the two example programs, put together from their filesystem, the runtime and the session, whatever libfuse answers: they end with exit code 0 exactly when the path was mounted and libfuse's loop ended without an error, and otherwise with 1, libfuse being used properly and session, mount, signal handlers, loop configuration and runtime all released; or they panic, before anything is done, because one of the first two arguments is not Unicode; or the path is mounted and libfuse's loop never returns. *)
Theorem example_programs_end hello_lib memory_lib display now clock uid gid args :
  ends_well hello_lib args (hello_main hello_lib display now args (mkSys [] None)) ∧
  ends_well memory_lib args (memory_main memory_lib display clock uid gid args (mkSys [] None)).
Proof.
  split.
  - exact (example_ends hello_lib (HelloFs_NodeFs (mkHelloFs now)) Maps_new display (hello_starts now) args).
  - exact (example_ends memory_lib (MemoryFs_NodeFs clock (MemoryFs_new uid gid)) Mem_new display (memory_starts clock uid gid) args).
Qed.
End mains.
