(* ===== verification/UnitTests.v ===== *)
(** * The unit tests of the conversions, the session and the helpers

    The modules [tests] of [errno.rs], [conv.rs], [file_lock.rs], [ffi.rs],
    [session.rs] and [passthrough.rs], one [Module] each: a test is the
    conjunction of its assertions.  Left out: the tests for macOS and the one
    that locks a real file. *)

From S2P Require Import Prelude Types Std Conv FileLocks NodeTable NodeFs Runtime Ffi Session SessionLife Passthrough Testing.

(** [assert_eq!] and [assert!] as truth values. *)
Abbreviation eqb x y := (bool_decide (x = y)).
Abbreviation all l := (forallb (λ b : bool, b) l).

(** ** [errno.rs] *)
Module ErrnoTests.
Section tests.
Local Existing Instance linux_libc.

Definition errno_from_io_error : bool :=
  all [eqb (errno_of_io_error (OsError libc_ENOENT)) ENOENT; eqb (errno_of_io_error CustomError) EIO].
Definition errno_raw_and_from_raw : bool :=
  let e := from_raw 5 in all [eqb (raw e) 5; eqb (from_raw 5) e].

Example errno_tests_pass : all [errno_from_io_error; errno_raw_and_from_raw] = true.
Proof. vm_compute. reflexivity. Qed.
End tests.
End ErrnoTests.

(** ** [conv.rs] *)
Module ConvTests.
Section tests.
Local Existing Instance linux_libc.

Definition kind_mode_round_trip : bool :=
  forallb (λ kind,
    let bits := kind_to_mode_bits kind in
    all [eqb (mode_bits_to_kind bits) (Some kind); eqb (mode_bits_to_kind (Z.lor bits 420)) (Some kind)])
    [RegularFile; Directory; Symlink; CharDevice; BlockDevice; NamedPipe; Socket].
Definition mode_bits_to_kind_unknown : bool := eqb (mode_bits_to_kind 0) None.

Definition attr_to_stat_basic_fields : bool :=
  let attr := {|
    attr_size := 1234; attr_blocks := attr_blocks NodeAttr_default; attr_atime := attr_atime NodeAttr_default;
    attr_mtime := attr_mtime NodeAttr_default; attr_ctime := attr_ctime NodeAttr_default;
    attr_crtime := attr_crtime NodeAttr_default; attr_kind := RegularFile; attr_perm := 420; attr_nlink := 3;
    attr_uid := attr_uid NodeAttr_default; attr_gid := attr_gid NodeAttr_default; attr_rdev := attr_rdev NodeAttr_default;
    attr_blksize := attr_blksize NodeAttr_default; attr_flags := attr_flags NodeAttr_default |} in
  let st := attr_to_stat 42 attr in
  all [eqb (as_u64 (st_ino st)) 42; eqb (as_u64 (st_size st)) 1234; eqb (as_u64 (st_nlink st)) 3;
    eqb (mode_bits_to_kind (as_u32 (st_mode st))) (Some RegularFile); eqb (Z.land (as_u32 (st_mode st)) 511) 420].

Definition secs_nsecs_round_trip_pre_and_post_epoch : bool :=
  forallb (λ t : option SystemTime, match t with
    | Some t => let '(secs, nsecs) := system_time_to_secs_nsecs t in eqb (secs_nsecs_to_system_time secs nsecs) (Some t)
    | None => false
    end)
    [Some UNIX_EPOCH; d ← duration_new 100 250; time_checked_add UNIX_EPOCH d; d ← duration_new 1 0; time_checked_sub UNIX_EPOCH d;
     d ← duration_new 1 500000000; time_checked_sub UNIX_EPOCH d; d ← duration_new 100 999999999; time_checked_sub UNIX_EPOCH d].

(** The timeouts are kept as durations: 1500 milliseconds. *)
Definition entry_to_entry_param_timeouts : bool :=
  let param := entry_to_entry_param 7 1 NodeAttr_default (1500 * 1000000) in
  all [eqb (ep_ino param) 7; eqb (ep_generation param) 1; eqb (ep_attr_timeout param) 1500000000;
    eqb (ep_entry_timeout param) 1500000000].

Example conv_tests_pass :
  all [kind_mode_round_trip; mode_bits_to_kind_unknown; attr_to_stat_basic_fields; secs_nsecs_round_trip_pre_and_post_epoch;
    entry_to_entry_param_timeouts] = true.
Proof. vm_compute. reflexivity. Qed.
End tests.
End ConvTests.

(** ** [file_lock.rs] *)
Module FileLockTests.
Section tests.
Local Existing Instance linux_libc.

Definition narrowed_constants_match_libc : bool :=
  all [eqb F_RDLCK libc_F_RDLCK; eqb F_WRLCK libc_F_WRLCK; eqb F_UNLCK libc_F_UNLCK; eqb SEEK_SET libc_SEEK_SET].

Definition lock_is (kind : LockKind) (start stop pid : Z) (f : flock → bool) : bool :=
  match to_flock (mkFileLock kind start stop pid) with Ok raw => f raw | Err _ => false end.
Definition converts_inclusive_ranges : bool :=
  all [lock_is LockRead 7 7 12 (λ one,
         all [eqb (l_start one, l_len one) (7, 1); eqb (l_type one, l_whence one) (F_RDLCK, SEEK_SET)]);
       lock_is LockWrite 7 16 12 (λ finite, all [eqb (l_start finite, l_len finite) (7, 10); eqb (l_type finite) F_WRLCK]);
       lock_is LockUnlock 7 u64_max 12 (λ eof, all [eqb (l_start eof, l_len eof) (7, 0); eqb (l_type eof) F_UNLCK])].

Definition round_trips_ranges_and_eof : bool :=
  forallb (λ original, match to_flock original with
    | Ok raw => match from_flock raw with Ok back => eqb back original | Err _ => false end
    | Err _ => false
    end) [mkFileLock LockRead 7 19 42; mkFileLock LockWrite 0 0 1; mkFileLock LockUnlock 20 u64_max 0].

Definition fails_with {A} (r : Result Errno A) (e : Errno) : bool := match r with Ok _ => false | Err e' => eqb e' e end.
Definition rejects_invalid_ranges_and_types : bool :=
  all [fails_with (to_flock (mkFileLock LockRead 8 7 0)) EINVAL;
       fails_with (to_flock (mkFileLock LockRead u64_max u64_max 0)) (from_raw libc_EOVERFLOW);
       lock_is LockRead 0 0 0 (λ raw,
         fails_with (from_flock (mkFlock 999 (l_whence raw) (l_start raw) (l_len raw) (l_pid raw))) EINVAL);
       lock_is LockRead 0 0 0 (λ raw,
         fails_with (from_flock (mkFlock (l_type raw) (as_signed 16 libc_SEEK_END) (l_start raw) (l_len raw) (l_pid raw))) EINVAL)].

Example file_lock_tests_pass :
  all [narrowed_constants_match_libc; converts_inclusive_ranges; round_trips_ranges_and_eof; rejects_invalid_ranges_and_types] = true.
Proof. vm_compute. reflexivity. Qed.
End tests.
End FileLockTests.

(** ** [ffi.rs] *)
Module FfiTests.
Definition zeroed_info : fuse_file_info := mkFileInfo 0 0 0 0 0 0 0 0.

Definition optional_file_info_distinguishes_null_from_handle_zero : bool :=
  all [eqb (fi_fh_opt None) None; eqb (fi_fh_opt (Some zeroed_info)) (Some 0)].

Definition parallel_direct_writes_requires_direct_io : bool :=
  let hints direct_io := {| direct_io := direct_io; keep_cache := false; nonseekable := false; cache_readdir := false;
                            parallel_direct_writes := true |} in
  let fi := apply_open (Some zeroed_info) 7 (hints false) in
  let fi' := apply_open fi 8 (hints true) in
  match fi, fi' with
  | Some fi, Some fi' => all [eqb (fi_parallel_direct_writes fi) 0; eqb (fi_fh_ fi') 8; eqb (fi_parallel_direct_writes fi') 1]
  | _, _ => false
  end.

Definition capability_update_preserves_unrelated_want_bits : bool :=
  let raw := mkFuseConn 0 0 0 0 (Z.lor (Z.lor (Z.shiftl 1 0) (Z.shiftl 1 18)) (Z.shiftl 1 10)) (Z.lor (Z.shiftl 1 0) (Z.shiftl 1 10)) in
  let '(a, info) := set_enabled (conn_read raw) ParallelDirectoryOperations true in
  let '(b, info) := set_enabled info AsyncRead false in
  let raw := conn_apply raw info in
  all [a; b; eqb (Z.land (fc_want raw) (Z.shiftl 1 10)) (Z.shiftl 1 10); eqb (Z.land (fc_want raw) (Z.shiftl 1 18)) (Z.shiftl 1 18);
    eqb (Z.land (fc_want raw) 1) 0].

Example ffi_tests_pass :
  all [optional_file_info_distinguishes_null_from_handle_zero; parallel_direct_writes_requires_direct_io;
    capability_update_preserves_unrelated_want_bits] = true.
Proof. vm_compute. reflexivity. Qed.
End FfiTests.

(** ** [session.rs] *)
Module SessionTests.
Section tests.
Local Existing Instance linux_libc.
Local Existing Instance linux_fuse_sys.
Local Existing Instance sample_direntries.

Definition c_names_preserve_non_utf8_bytes : bool := eqb (os_bytes (c_os_str (of_bytes [255; 120]))) [255; 120].

Definition null_getattr (node : unit) (handle : option unit) (caller : Caller) :
    prog unit unit Empty_set (Result Errno NodeAttr) :=
  Done (Ok NodeAttr_default).
Definition NullFs : NodeFs unit unit unit unit := default_NodeFs (λ s, (tt, s)) null_getattr.

(** The entries of the table; [init] and [destroy], which carry no request, are
    always there, and what libfuse knows besides has no [callback]. *)
Definition unconditional_callbacks : list callback :=
  [CbLookup 0 ""; CbForget 0 0; CbGetattr 0 None; CbSetattr 0 None 0 None; CbReadlink 0; CbMknod 0 "" 0 0; CbMkdir 0 "" 0;
   CbUnlink 0 ""; CbRmdir 0 ""; CbSymlink "" 0 ""; CbRename 0 "" 0 "" 0; CbLink 0 0 ""; CbOpen 0 None; CbRead 0 0 0 None;
   CbWrite 0 [] 0 None; CbFlush 0 None; CbRelease 0 None; CbFsync 0 0 None; CbOpendir 0 None; CbReaddir 0 0 0 None;
   CbReleasedir 0 None; CbFsyncdir 0 0 None; CbStatfs 0; CbSetxattr 0 "" [] 0; CbGetxattr 0 "" 0; CbListxattr 0 0;
   CbRemovexattr 0 ""; CbAccess 0 0; CbCreate 0 "" 0 None; CbForgetMulti []; CbFallocate 0 0 0 0 None;
   CbCopyFileRange 0 0 None 0 0 None 0 0; CbLseek 0 0 0 None].
Definition optional_callbacks : list callback :=
  let raw := mkFlock 0 0 0 0 0 in [CbReaddirplus 0 0 0 None; CbGetlk 0 None raw; CbSetlk 0 None raw 0].
Definition registered (fs : NodeFs unit unit unit unit) (cb : callback) : bool := match make_ops fs cb with Some _ => true | None => false end.

Definition make_ops_registers_covered_callbacks_and_skips_the_rest : bool :=
  forallb (registered NullFs) unconditional_callbacks && forallb (λ cb, negb (registered NullFs cb)) optional_callbacks.

Definition OptInFs : NodeFs unit unit unit unit := {|
  SUPPORTS_POSIX_LOCKS := true;
  SUPPORTS_READDIRPLUS := true;
  fs_root := λ s, (tt, s);
  fs_getattr := null_getattr;
  fs_populate := default_populate;
  fs_init := default_init;
  fs_destroy := default_destroy;
  fs_setattr := default_setattr;
  fs_lookup := default_lookup;
  fs_readlink := default_readlink;
  fs_mknod := default_mknod;
  fs_mkdir := default_mkdir;
  fs_symlink := default_symlink;
  fs_unlink := default_unlink;
  fs_rmdir := default_rmdir;
  fs_rename := default_rename;
  fs_link := default_link;
  fs_open := default_open;
  fs_read := default_read;
  fs_write := default_write;
  fs_flush := default_flush;
  fs_release := default_release;
  fs_fsync := default_fsync;
  fs_opendir := default_opendir;
  fs_readdir := default_readdir;
  fs_readdirplus := default_readdirplus;
  fs_releasedir := default_releasedir;
  fs_fsyncdir := default_fsyncdir;
  fs_statfs := default_statfs;
  fs_setxattr := default_setxattr;
  fs_getxattr := default_getxattr;
  fs_listxattr := default_listxattr;
  fs_removexattr := default_removexattr;
  fs_access := default_access;
  fs_create := default_create;
  fs_fallocate := default_fallocate;
  fs_lseek := default_lseek;
  fs_getlk := default_getlk;
  fs_setlk := default_setlk;
  fs_copy_file_range := default_copy_file_range;
|}.

Definition optional_callbacks_are_registered_only_on_opt_in : bool := forallb (registered OptInFs) optional_callbacks.

Definition file_lock_conversion_preserves_ranges_and_eof : bool :=
  forallb (λ lock, match lock_to_raw lock with
    | Ok raw => match lock_from_raw raw with Ok back => eqb back lock | Err _ => false end
    | Err _ => false
    end) [mkFileLock LockRead 7 19 42; mkFileLock LockUnlock 20 u64_max 0].

Definition mount_option_render : bool :=
  all [eqb (render ReadOnly) "ro"%string; eqb (render AllowOther) "allow_other"%string;
    eqb (render AutoUnmount) "auto_unmount"%string; eqb (render DefaultPermissions) "default_permissions"%string;
    eqb (render (FsName "myfs")) "fsname=myfs"%string; eqb (render (Subtype "fuse.myfs")) "subtype=fuse.myfs"%string;
    eqb (render (Custom "noatime")) "noatime"%string].

Definition session_config_defaults_to_libfuse_pool_defaults : bool :=
  match threading SessionConfig_default with
  | MultiThreaded pool => all [eqb (max_threads pool) 10; eqb (max_idle_threads pool) None; eqb (clone_fd pool) false]
  | SingleThreaded => false
  end.

Definition rejects_pool_above_libfuse_ceiling : bool :=
  let pool := mkPool 100001 (max_idle_threads ThreadPoolConfig_default) (clone_fd ThreadPoolConfig_default) in
  match validate pool with Err (InvalidThreadPool _) => true | _ => false end.

Example session_tests_pass :
  all [c_names_preserve_non_utf8_bytes; make_ops_registers_covered_callbacks_and_skips_the_rest;
    optional_callbacks_are_registered_only_on_opt_in; file_lock_conversion_preserves_ranges_and_eof; mount_option_render;
    session_config_defaults_to_libfuse_pool_defaults; rejects_pool_above_libfuse_ceiling] = true.
Proof. vm_compute. reflexivity. Qed.
End tests.
End SessionTests.

(** ** [passthrough.rs] *)
Module PassthroughTests.
Section tests.
Local Existing Instance linux_libc.
(** A system whose clock shows five seconds past the epoch. *)
Local Instance quiet_system : Syscalls unit := sample_syscalls [].

Definition system_time_preserves_fractional_pre_epoch_timestamp : bool :=
  match system_time_from_secs (-1) 500000000 with
  | Some timestamp => match duration_since UNIX_EPOCH timestamp with
                      | Ok d => eqb (Some d) (duration_new 0 500000000) | Err _ => false end
  | None => false
  end.
Definition system_time_converts_whole_second_pre_epoch_timestamp : bool :=
  match system_time_from_secs (-1) 0 with
  | Some timestamp => match duration_since UNIX_EPOCH timestamp with
                      | Ok d => eqb (Some d) (duration_new 1 0) | Err _ => false end
  | None => false
  end.

Definition user (uid gid : Z) : Caller :=
  {| caller_uid := uid; caller_gid := gid; caller_pid := caller_pid Caller_default; caller_umask := caller_umask Caller_default |}.

Definition utimens_allows_owner_and_root : M unit unit :=
  let t := UNIX_EPOCH in
  r ← utimens_permission_check (user 1000 (caller_gid Caller_default)) 1000 1000 420 (Some t) (Some t); _ ← assert (is_ok r);
  r ← utimens_permission_check Caller_default 1000 1000 420 (Some t) (Some t); assert (is_ok r).

Definition utimens_rejects_explicit_time_from_non_owner : M unit unit :=
  let t := UNIX_EPOCH in
  r ← utimens_permission_check (user 2000 2000) 1000 1000 438 (Some t) (Some t); e ← unwrap_err r; assert_eq e EPERM.

Definition utimens_allows_now_from_writer : M unit unit :=
  now ← Passthrough.now; let other := user 2000 2000 in
  r ← utimens_permission_check other 1000 1000 438 (Some now) (Some now); _ ← assert (is_ok r);
  r ← utimens_permission_check other 1000 1000 292 (Some now) (Some now); e ← unwrap_err r; _ ← assert_eq e EACCES;
  r ← utimens_permission_check other 1000 1000 292 None None; assert (is_ok r).

Definition synthetic_attr_counts_blocks : bool :=
  let attr := synthetic_file_attr 1 UNIX_EPOCH 420 0 0 in
  all [eqb (attr_kind attr) RegularFile; eqb (attr_blocks attr) 1; eqb (attr_perm attr) 420].

Example passthrough_tests_pass :
  all [system_time_preserves_fractional_pre_epoch_timestamp; system_time_converts_whole_second_pre_epoch_timestamp;
    synthetic_attr_counts_blocks] = true ∧
  Forall (λ test : M unit unit, (test tt).1 = Returned tt)
    [utimens_allows_owner_and_root; utimens_rejects_explicit_time_from_non_owner; utimens_allows_now_from_writer].
Proof. split; [vm_compute; reflexivity|]. by repeat constructor. Qed.
End tests.
End PassthroughTests.
