(* ===== verification/MemoryTests.v ===== *)
(** * The tests of the in-memory filesystem ([fuse3/examples/memory_fs.rs])

    The module [tests], as programs over the handlers of [Runtime]. *)

From S2P Require Import Prelude Types Std NodeTable NodeFs Runtime MemoryFs Testing.

Section tests.
Local Existing Instance linux_libc.

Abbreviation fs := (MemoryFs_NodeFs Z.of_nat (mkMemoryFs 1000 1000)).
(** [Entries] *)
Abbreviation Entries := (list (string * FileKind)).
Abbreviation W := (World Node unit unit Mem Entries).
Definition caller : Caller := Caller_default.
Definition entries_add (e : NodeFs.DirEntry) (l : Entries) : bool * Entries :=
  (true, l ++ [(to_string_lossy (de_name e), de_kind e)]).
Definition root_nlink : M W Z := r ← getattr fs ROOT None caller; attr ← unwrap r; mret (attr_nlink attr).

Definition directory_link_counts_follow_child_directories : M W unit :=
  n ← root_nlink; _ ← assert_eq n 2;
  r ← mkdir fs ROOT "child" 493 0 caller; child ← unwrap r;
  _ ← assert_eq (attr_nlink (er_attr child)) 2;
  n ← root_nlink; _ ← assert_eq n 3;
  r ← rmdir fs ROOT "child" caller; _ ← unwrap r;
  n ← root_nlink; assert_eq n 2.

Definition readdir_reports_each_entry_kind : M W unit :=
  r ← mkdir fs ROOT "dir" 493 0 caller; _ ← unwrap r;
  r ← symlink fs ROOT "link" "target" caller; _ ← unwrap r;
  r ← create fs ROOT "file" 420 0 0 caller; _ ← unwrap r;
  r ← opendir fs ROOT 0 caller; open ← unwrap r;
  r ← readdir fs entries_add ROOT (or_fh open) 0 caller; _ ← unwrap r;
  entries ← gets w_sink;
  _ ← assert (bool_decide (("dir"%string, Directory) ∈ entries));
  _ ← assert (bool_decide (("link"%string, Symlink) ∈ entries));
  assert (bool_decide (("file"%string, RegularFile) ∈ entries)).

Example memory_tests_pass :
  forallb (passes fs Mem_new []) [directory_link_counts_follow_child_directories; readdir_reports_each_entry_kind] = true.
Proof. vm_compute. reflexivity. Qed.
End tests.
