(* ===== verification/Build.v ===== *)
(** * The build scripts ([build.rs] and [fuse3/build.rs])

    How the first finds the headers of libfuse and of the compiler, chooses the
    API version and asks bindgen for the bindings; what the second tells the
    compiler about them.  The environment, the processes it runs and the file
    system are a parameter ([BuildSystem]), as are pkg-config and bindgen. *)

From S2P Require Import Prelude Types Std Namespace.

(** ** The standard library: strings of bytes *)

(** The encodings of the characters of property White_Space. *)
Definition white_space : list bytes :=
  [[9]; [10]; [11]; [12]; [13]; [32]; [0xC2; 0x85]; [0xC2; 0xA0]; [0xE1; 0x9A; 0x80]] ++
  ((λ b, [0xE2; 0x80; b]) <$> [0x80; 0x81; 0x82; 0x83; 0x84; 0x85; 0x86; 0x87; 0x88; 0x89; 0x8A; 0xA8; 0xA9; 0xAF]) ++
  [[0xE2; 0x81; 0x9F]; [0xE3; 0x80; 0x80]].
Definition starts_with (p s : bytes) : bool := bool_decide (take (length p) s = p).

(** Each step takes a byte at least. *)
Fixpoint trim_with (chars : list bytes) (fuel : nat) (s : bytes) : bytes :=
  match fuel, find (λ c, starts_with c s) chars with
  | S fuel, Some c => trim_with chars fuel (drop (length c) s)
  | _, _ => s
  end.
(** [str::trim]; the end is the start of the reversed bytes. *)
Definition trim (s : string) : string :=
  let b := trim_with white_space (String.length s) (os_bytes s) in
  of_bytes (reverse (trim_with (reverse <$> white_space) (length b) (reverse b))).

(** [str::contains]; [str::replace]. *)
Fixpoint contains (s needle : string) : bool :=
  String.prefix needle s || match s with EmptyString => false | String _ s => contains s needle end.
Fixpoint replace (fuel : nat) (from to s : string) : string :=
  match fuel, s with
  | S fuel, String c s' =>
      if String.prefix from s
      then (to ++ replace fuel from to (String.substring (String.length from) (String.length s) s))%string
      else String c (replace fuel from to s')
  | _, _ => s
  end.

(** [Iterator::find_map] *)
Fixpoint find_map {A B} (f : A → option B) (l : list A) : option B :=
  match l with [] => None | a :: l => match f a with Some b => Some b | None => find_map f l end end.

(** ** What surrounds a build *)

(** A process that could be started: whether it succeeded, and what it wrote. *)
Class BuildSystem := {
  var_os : string → option OsString;
  output : OsString → list OsString → option (bool * bytes);
  is_file : PathBuf → bool;
  path_exists : PathBuf → bool;
  read_to_string : PathBuf → option string;
}.

(** [pkg_config::Library]: its paths, and its definitions in the order in which
    the map gives them. *)
Record Library := mkLibrary { include_paths : list PathBuf; defines : list (string * option string) }.

(** What bindgen is asked for. *)
Record BindingFilter := mkFilter {
  allow_types : list string; allow_functions : list string; allow_vars : list string;
  block_types : list string; block_functions : list string }.
Record Builder := mkBuilder { clang_args : list string; header_file : string; filter_of : BindingFilter }.

Inductive build_event :=
| Println (line : string)
| WriteBindings (b : Builder) (path : PathBuf).

Section build.
Context `{BuildSystem}.

(** ** The compiler's own headers *)
Definition with_stdarg (include_path : PathBuf) : option PathBuf :=
  if is_file (push include_path "stdarg.h") then Some include_path else None.

Definition clang_resource_include_path : option PathBuf :=
  let clang := default "clang"%string (var_os "CLANG_PATH") in
  '(success, stdout) ← output clang ["-print-resource-dir"%string];
  if negb success then None
  else
    resource_dir ← from_utf8 stdout;
    with_stdarg (push (trim resource_dir) "include").

Definition compiler_include_path (compiler : OsString) : option PathBuf :=
  '(success, stdout) ← output compiler ["-print-file-name=include"%string];
  if negb success then None
  else
    path ← from_utf8 stdout;
    with_stdarg (trim path).

Definition builtin_header_include_path : option PathBuf :=
  match clang_resource_include_path with
  | Some p => Some p
  | None => find_map compiler_include_path (option_list (var_os "CC") ++ ["cc"; "gcc"]%string)
  end.

(** ** [fuse_binding_filter] and [cuse_binding_filter]; [macos] is [cfg!] *)
Definition fuse_binding_filter (macos : bool) : BindingFilter :=
  let fuse := "^[fF][uU][sS][eE].*"%string in
  mkFilter (fuse :: if macos then ["setattr_x"%string] else []) [fuse] [fuse] ["fuse_log_func_t"%string] ["fuse_set_log_func"%string].
Definition cuse_binding_filter : BindingFilter :=
  let cuse := "^[cC][uU][sS][eE].*"%string in mkFilter [cuse] [cuse] [cuse] [] [].

(** ** [generate_fuse_bindings]

    [generate] says whether bindgen makes the bindings, [write_to_file] whether
    they can be written; [show] is [u32]'s [Display]. *)
Context (generate : Builder → bool) (write_to_file : PathBuf → bool) (show : Z → string).

Definition event (e : build_event) : M (list build_event) unit := modify (λ l, l ++ [e]).

Definition compile_flags (api_version : Z) (fuse_lib : Library) : list string :=
  ((λ '(key, val), match val with Some val => "-D" ++ key ++ "=" ++ val | None => "-D" ++ key end)%string <$> defines fuse_lib) ++
  ((λ dir, "-I" ++ to_string_lossy dir)%string <$> include_paths fuse_lib) ++
  [("-DFUSE_USE_VERSION=" ++ show api_version)%string] ++
  match builtin_header_include_path with Some dir => ["-isystem"%string; to_string_lossy dir] | None => [] end.

Definition generate_fuse_bindings (header : string) (api_version : Z) (fuse_lib : Library) (binding_filter : BindingFilter) :
    M (list build_event) unit :=
  match find path_exists ((λ dir, push dir header) <$> include_paths fuse_lib) with
  | None => panic
  | Some header_path =>
      match from_utf8 (os_bytes header_path) with
      | None => panic
      | Some header_path =>
          let builder := mkBuilder (compile_flags api_version fuse_lib) header_path binding_filter in
          if negb (generate builder) then panic
          else match var_os "OUT_DIR" with
               | None => panic
               | Some out_dir =>
                   (* [env::var] fails on a value that is not Unicode *)
                   if negb (valid_utf8 (String.length out_dir) (os_bytes out_dir)) then panic
                   else
                     let bindings_path := push out_dir (replace (String.length header) ".h" ".rs" header) in
                     if negb (write_to_file bindings_path) then panic
                     else event (WriteBindings builder bindings_path)
               end
      end
  end.

(** ** [main] *)
Definition FUSE_DEFAULT_API_VERSION : Z := 35.
Record Features := mkFeatures {
  fuse_31 : bool; fuse_35 : bool; fuse_312 : bool; fuse_highlevel : bool; fuse_lowlevel : bool; cuse_lowlevel : bool }.

(** [version!] *)
Definition version (feature : bool) (v : Z) (version_var : option Z) : M (list build_event) (option Z) :=
  if feature then match version_var with Some _ => panic | None => mret (Some v) end else mret version_var.

(** [probe] is [pkg_config::Config::probe], with the least version asked for. *)
Definition build_main (f : Features) (macos : bool) (probe : option string → option Library) : M (list build_event) unit :=
  event (Println "cargo:rerun-if-env-changed=CLANG_PATH");;
  event (Println "cargo:rerun-if-env-changed=CC");;
  v ← version (fuse_31 f) 31 None; v ← version (fuse_35 f) 35 v; v ← version (fuse_312 f) 312 v;
  let api_version := default FUSE_DEFAULT_API_VERSION v in
  match probe (if fuse_312 f then Some "3.12.0"%string else None) with
  | None => panic
  | Some fuse_lib =>
      (if fuse_highlevel f then generate_fuse_bindings "fuse.h" api_version fuse_lib (fuse_binding_filter macos) else mret tt);;
      (if fuse_lowlevel f then generate_fuse_bindings "fuse_lowlevel.h" api_version fuse_lib (fuse_binding_filter macos) else mret tt);;
      (if cuse_lowlevel f then generate_fuse_bindings "cuse_lowlevel.h" api_version fuse_lib cuse_binding_filter else mret tt)
  end.

(** ** [fuse3/build.rs] *)
Definition header_contains (fuse_lib : Library) (header needle : string) : bool :=
  existsb (λ contents, contains contents needle) (omap (λ dir, read_to_string (push dir header)) (include_paths fuse_lib)).

Definition fuse3_build_main (probe : option string → option Library) : M (list build_event) unit :=
  match probe None with
  | None => panic
  | Some fuse_lib =>
      event (Println "cargo:rustc-check-cfg=cfg(has_parallel_direct_writes)");;
      event (Println "cargo:rustc-check-cfg=cfg(has_tmpfile_op)");;
      event (Println "cargo:rustc-check-cfg=cfg(has_statx_op)");;
      (if header_contains fuse_lib "fuse_common.h" "parallel_direct_writes"
       then event (Println "cargo:rustc-cfg=has_parallel_direct_writes") else mret tt);;
      (if header_contains fuse_lib "fuse_lowlevel.h" "*tmpfile)" then event (Println "cargo:rustc-cfg=has_tmpfile_op") else mret tt);;
      (if header_contains fuse_lib "fuse_lowlevel.h" "*statx)" then event (Println "cargo:rustc-cfg=has_statx_op") else mret tt)
  end.
End build.

(** ** What a build that succeeds has done *)
Section spec.
Context `{BuildSystem} (generate : Builder → bool) (write_to_file : PathBuf → bool) (show : Z → string).

(** The compiler's headers are where one of the compilers says. *)
Lemma builtin_header_has_stdarg p : builtin_header_include_path = Some p → is_file (push p "stdarg.h") = true.
Proof.
  assert (∀ q r, with_stdarg q = Some r → is_file (push r "stdarg.h") = true) as Hw.
  { intros q r. unfold with_stdarg. destruct (is_file _) eqn:Hq; [|done]. by intros [= <-]. }
  unfold builtin_header_include_path. destruct clang_resource_include_path as [q|] eqn:Hc.
  - intros [= <-]. unfold clang_resource_include_path in Hc. destruct (output _ _) as [[[] o]|]; simpl in Hc; try done.
    destruct (from_utf8 o); simpl in Hc; [by eapply Hw|done].
  - induction (_ ++ _) as [|c l IH]; simpl; [done|]. destruct (compiler_include_path c) as [q|] eqn:Hq; [|done].
    intros [= <-]. unfold compiler_include_path in Hq. destruct (output _ _) as [[[] o]|]; simpl in Hq; try done.
    destruct (from_utf8 o); simpl in Hq; [by eapply Hw|done].
Qed.

(** The bindings of one header. *)
Definition generated (header : string) (api_version : Z) (fuse_lib : Library) (filter : BindingFilter) (e : build_event) : Prop :=
  ∃ dir path, dir ∈ include_paths fuse_lib ∧ path_exists (push dir header) = true ∧ generate (mkBuilder (compile_flags show api_version fuse_lib) (of_bytes (os_bytes (push dir header))) filter) = true ∧
    e = WriteBindings (mkBuilder (compile_flags show api_version fuse_lib) (of_bytes (os_bytes (push dir header))) filter) path.

Lemma generate_returns header v fuse_lib filter l u l' :
  generate_fuse_bindings generate write_to_file show header v fuse_lib filter l = (Returned u, l') →
  ∃ e, l' = l ++ [e] ∧ generated header v fuse_lib filter e.
Proof.
  unfold generate_fuse_bindings. destruct (find _ _) as [hp|] eqn:Hf; [|done].
  apply find_some in Hf as [Hin Hex]. apply list_elem_of_In, list_elem_of_fmap in Hin as (dir & -> & Hdir).
  unfold from_utf8. destruct (valid_utf8 _ _); [|done].
  destruct (generate _) eqn:Hg; simpl; [|done]. destruct (var_os "OUT_DIR") as [out|]; [|done].
  destruct (valid_utf8 _ _); simpl; [|done]. destruct (write_to_file _); simpl; [|done].
  intros [= <- <-]. eexists. split; [done|]. by exists dir, (push out (replace (String.length header) ".h" ".rs" header)).
Qed.

(** The version that the features select: at most one. *)
Definition api_version_of (f : Features) : option Z :=
  match fuse_31 f, fuse_35 f, fuse_312 f with
  | false, false, false => Some FUSE_DEFAULT_API_VERSION
  | true, false, false => Some 31
  | false, true, false => Some 35
  | false, false, true => Some 312
  | _, _, _ => None
  end.

(** A build that succeeds writes the bindings that were asked for, in order, of
    headers of the library that was found, for the one version selected. *)
Lemma build_returns f macos probe u l :
  build_main generate write_to_file show f macos probe [] = (Returned u, l) →
  ∃ v fuse_lib es, api_version_of f = Some v ∧ probe (if fuse_312 f then Some "3.12.0"%string else None) = Some fuse_lib ∧
    l = [Println "cargo:rerun-if-env-changed=CLANG_PATH"; Println "cargo:rerun-if-env-changed=CC"] ++ es ∧
    Forall2 (λ '(header, filter) e, generated header v fuse_lib filter e)
      ((if fuse_highlevel f then [("fuse.h"%string, fuse_binding_filter macos)] else []) ++
       (if fuse_lowlevel f then [("fuse_lowlevel.h"%string, fuse_binding_filter macos)] else []) ++
       (if cuse_lowlevel f then [("cuse_lowlevel.h"%string, cuse_binding_filter)] else [])) es.
Proof.
  assert (∀ (b : bool) header v fuse_lib filter l u l',
    (if b then generate_fuse_bindings generate write_to_file show header v fuse_lib filter else mret tt) l = (Returned u, l') →
    ∃ es, l' = l ++ es ∧ Forall2 (λ '(header, filter) e, generated header v fuse_lib filter e) (if b then [(header, filter)] else []) es) as Hgen.
  { intros [] header v fuse_lib filter l1 u1 l2 Hg.
    - apply generate_returns in Hg as (e & -> & He). exists [e]. split; [done|]. by repeat constructor.
    - injection Hg as <- <-. exists []. split; [by rewrite app_nil_r|constructor]. }
  intros Hrun. unfold build_main, version, event, modify, mbind, M_bind, mret, M_ret in Hrun. simpl in Hrun.
  assert (∃ v, api_version_of f = Some v ∧
    match probe (if fuse_312 f then Some "3.12.0"%string else None) with
    | Some fuse_lib => ((if fuse_highlevel f then generate_fuse_bindings generate write_to_file show "fuse.h" v fuse_lib (fuse_binding_filter macos) else mret tt);;
        (if fuse_lowlevel f then generate_fuse_bindings generate write_to_file show "fuse_lowlevel.h" v fuse_lib (fuse_binding_filter macos) else mret tt);;
        (if cuse_lowlevel f then generate_fuse_bindings generate write_to_file show "cuse_lowlevel.h" v fuse_lib cuse_binding_filter else mret tt))
          [Println "cargo:rerun-if-env-changed=CLANG_PATH"; Println "cargo:rerun-if-env-changed=CC"] = (Returned u, l)
    | None => False
    end) as (v & Hv & Hrest).
  { unfold api_version_of. destruct (fuse_31 f), (fuse_35 f), (fuse_312 f); try done; (eexists; split; [done|]);
      by destruct (probe _). }
  clear Hrun. destruct (probe _) as [fuse_lib|]; [|done]. exists v, fuse_lib.
  unfold mbind, M_bind in Hrest.
  match type of Hrest with (let '(_, _) := ?m in _) = _ => destruct m as [[u1| |] l1] eqn:H1; [|done..] end.
  apply Hgen in H1 as (e1 & -> & HF1).
  match type of Hrest with (let '(_, _) := ?m in _) = _ => destruct m as [[u2| |] l2] eqn:H2; [|done..] end.
  apply Hgen in H2 as (e2 & -> & HF2).
  apply Hgen in Hrest as (e3 & -> & HF3). exists (e1 ++ e2 ++ e3). split_and!; [done|done|by rewrite !app_assoc|].
  by repeat apply Forall2_app.
Qed.
End spec.

(** ** A build that runs *)
Section sample.
(** No [clang]; [cc] answers with its directory and a newline. *)
Local Instance sample_system : BuildSystem := {|
  var_os x := if String.eqb x "OUT_DIR" then Some "/out"%string else None;
  output c _ := if String.eqb c "cc" then Some (true, os_bytes "/lib/gcc/include" ++ [10]) else None;
  is_file p := String.eqb p "/lib/gcc/include/stdarg.h";
  path_exists p := String.eqb p "/usr/include/fuse3/fuse_lowlevel.h";
  read_to_string p := if String.eqb p "/usr/include/fuse3/fuse_common.h" then Some "uint32_t parallel_direct_writes : 1;"%string else None;
|}.
Definition sample_library : Library := mkLibrary ["/opt/include"; "/usr/include/fuse3"]%string [("_FILE_OFFSET_BITS", Some "64")]%string.
Definition sample_features : Features := mkFeatures false false true false true false.
Definition sample_show (v : Z) : string := if v =? 312 then "312" else "35".

Example sample_build :
  build_main (λ _, true) (λ _, true) sample_show sample_features false (λ _, Some sample_library) [] =
  (Returned tt, [Println "cargo:rerun-if-env-changed=CLANG_PATH"; Println "cargo:rerun-if-env-changed=CC";
    WriteBindings (mkBuilder ["-D_FILE_OFFSET_BITS=64"; "-I/opt/include"; "-I/usr/include/fuse3"; "-DFUSE_USE_VERSION=312"; "-isystem"; "/lib/gcc/include"]
      "/usr/include/fuse3/fuse_lowlevel.h" (fuse_binding_filter false)) "/out/fuse_lowlevel.rs"])%string.
Proof. vm_compute. reflexivity. Qed.

Example sample_probe :
  fuse3_build_main (λ _, Some sample_library) [] =
  (Returned tt, [Println "cargo:rustc-check-cfg=cfg(has_parallel_direct_writes)"; Println "cargo:rustc-check-cfg=cfg(has_tmpfile_op)";
    Println "cargo:rustc-check-cfg=cfg(has_statx_op)"; Println "cargo:rustc-cfg=has_parallel_direct_writes"])%string.
Proof. vm_compute. reflexivity. Qed.
End sample.
